(* ===== verification/_CoqProject ===== *)
-Q . S2P
Prelude.v
Text.v
Flow.v
Window.v
Stream.v
Heap.v
DnsParse.v
Dns.v
DnsSpec.v
NetIP.v
NetAddr.v
Bridge.v
Conntrack.v
ConntrackWire.v
Netlink.v
Http1.v
L7Types.v
Http2.v
L7.v
L7State.v
Collector.v
SocketResolver.v
Reader.v
Loader.v
Process.v
PodIdentity.v
PodInformer.v
HostPort.v
BridgeClient.v
TagConfig.v
Submit.v
Output.v
App.v
AppLogic.v
AppAccounts.v
Pack.v
Exporter.v
AppDelivery.v
AppOutput.v
Exportable.v
ExportableL7.v
WhatapWire.v
WhatapClient.v
WhatapSession.v
Command.v
ExportableFlow.v
