(* ===== verification/Prelude.v ===== *)
(** * agentkubenetwork: verification development

    agentkubenetwork is a node agent: eBPF programs write fixed-size records
    into a ring buffer; user space decodes them, turns them into flow
    observations, HTTP fragments, DNS datagrams and coverage drops, adds
    identities (the conntrack backend, the process, the Pods), aggregates flow
    observations into half-open windows, pairs requests with responses, and
    writes the results as JSON lines and, optionally, to a WhaTap collector.

    ** The files, and what they model

    - [Prelude]: results and panics, machine integers at their width, bytes
      and byte orders, instants and durations of package time, package cmp,
      sort.Slice, map iteration in an order the language leaves open
      ([MapRange]), and the automation.
    - [Text], [NetIP], [NetAddr]: the functions of strings, strconv,
      encoding/hex, unicode/utf8, net and net/netip the code calls, on lists
      of bytes.
    - [Flow], [Window], [Stream] (src/internal/flow): distributions and their
      Merge; the aggregation key, Window.add, Aggregate and sortWindows; the
      live Stream with its watermark (Add, Flush, Finish).
    - [Heap]: container/heap over an interface ([HeapInterface], [HeapLaws]).
    - [DnsParse], [Dns], [DnsSpec] (src/internal/dns): the datagram parser;
      the correlator, whose deadline heap holds pointers to queries whose
      index field Swap updates, so the queries live in a store; the abstract
      correlator, a map and nothing else, that it refines.
    - [Collector], [SocketResolver], [Reader], [Loader]
      (src/internal/collector): the record of the BPF programs, its decoder
      and conversions; the socket cache, a map whose entries point into a
      linked list, and the /proc/net/tcp parser; the Read loop with the
      drop-counter poll; OpenBPF, the OpenSSL probes and their coverage, and
      Close, as traces of what is acquired and released.
    - [Conntrack], [ConntrackWire], [Netlink] (src/internal/conntrack): the
      lookup table, the refresh policy and ResolveAfter; the ctnetlink message
      parser, with slice bounds errors as values; the dump over a socket, with
      its deadline, and the resolver on top of it.
    - [Http1], [L7Types], [Http2], [L7], [L7State] (src/internal/l7): the HTTP/1 line
      parsers; fragments, transactions and keys; the HTTP/2 frame and header
      block state of a direction; the correlator (Process, expire); what
      bounds its state.
    - [WhatapWire], [WhatapClient], [WhatapSession] (src/internal/whatap):
      frames, ECB over a block cipher, the key reply, licenses, writeAll;
      Send, connect and sendFrame as a state monad over the client's guarded
      fields; the life of the sessions as steps of Send, of the goroutines of
      receive, of the callback of watchConnection, and of Close.
    - [Bridge], [BridgeClient] (src/internal/bridge): window validation, the
      request of a window and the bounded check of a MapValue; NewClient, Send
      with its write loop, and the replies readAck accepts.
    - [Submit] (src/cmd/network-edge-submit): the scanner, the outcome of a
      line, the summary and the exit code.
    - [Process] (src/internal/process): the parsers of stat, cmdline and
      cgroup, the identity assembled from four reads of procfs, and the cache.
    - [PodIdentity], [PodInformer] (src/internal/podidentity): the index
      functions, the lookup of the only Pod, and Enrich; Start, the function
      it returns, and the cache between them.
    - [HostPort], [TagConfig] (src/internal/whatap/client.go's validServer,
      src/internal/tagcount/config.go): host and port texts, the properties
      file, the environment and the list of servers.
    - [Output] (src/internal/app/output.go): the bounded queue, its writer
      goroutine and Close.
    - [App] (src/internal/app: event_stream.go, events.go, pipeline.go): the
      pump of reads with its permits, capture progress and the watermark,
      pending resolutions, and the event loop with its choices as an oracle.
    - [Pack] (src/internal/tagcount: pack.go, pack_coverage.go,
      pack_events.go): the validation and the fields of the four packs, and
      the text a record identity hashes.
    - [Exporter] (src/internal/tagcount: exporter.go, export_events.go): the
      exporter's queue, counters, sender goroutine and Close, as steps.
    - [Command] (src/cmd/agentkubenetwork): flags, environment, the parts a
      run acquires and releases, the periodic summary; also newEventOutput and
      Run of src/internal/app and NewClient of src/internal/whatap.
    - [Exportable], [ExportableL7], [ExportableFlow]: no code of their own;
      the correlators and the stream composed with the packs. [AppAccounts]:
      the event loop composed with the stream and the batch aggregation;
      [AppDelivery]: the event loop over a world whose exporter is the
      modelled one; [AppOutput]: over a world whose output is the modelled
      queue; [AppLogic]: the rules for what the event loop keeps, which both
      use.

    A file keeps the names of the functions it models; where two packages use
    a name, each file has its own. State is a record passed through; a Go map
    is a [gmap]; a pointer that may be nil is an [option]; an error is a
    constructor of the component's error type; a panic is an error value of
    its own. Where the code shares memory (the DNS heap, the list of the
    socket cache) the model has the store and the pointers.

    ** How the parts meet

    [Reader] returns the events [Collector] converts and [App] receives; the
    observations are the input of [Window] and [Stream], the fragments the
    input of [L7] and [Dns]; [Conntrack] answers from what [ConntrackWire]
    parses of the datagrams [Netlink] receives, and [PodIdentity] from the
    store of [PodInformer]; [Loader] opens the reader [Reader] reads; [Bridge]
    turns a finished window of [Stream] into a request, which [Pack] turns into
    a pack, which [Exporter] queues for the client of [WhatapClient]; [Exportable] and [ExportableL7] carry the fragments
    through the correlators to the packs, [ExportableFlow] the observations
    through the stream to Export. [Command] checks what the constructors of
    these parts check; [Submit] sends windows with [BridgeClient].
    Interfaces: [HeapLaws] is what [Dns] needs of container/heap and what
    [Heap] proves; [MapRange] is what the language promises of map iteration;
    [Hpack] is the HPACK decoder, [BlockLaws] AES, [WriterLaws] an io.Writer,
    [Conntrack.WorldLaws] the clock of the conntrack resolver, which
    [Netlink] implements over [Netlink.KernelLaws], the clock and the calls of
    package unix, [App.WorldLaws] the clock of a capture,
    [Loader.world] what the kernel and the ELF files answer,
    [OutputWorld] a world of [App] whose Encode is that of [Output], which a
    world with an exporter inherits, [Kept] what an invariant of the event
    loop has to be kept by,
    [EnvironmentLaws] the
    connections, contexts and the other goroutines of a WhaTap client,
    [MapValueLaws] golib's MapValue, [MapReaderLaws] a MapValue read back,
    [NetLaws] the bridge's connection, [Kernel] what procfs says of the holder
    of a PID, [indexes] client-go's indexer: each states documented behaviour
    only. In [App] the clock, the resolvers and the outputs are a world that
    reacts.

    ** What the theorems show

    The number of a claim is the place of its theorem in the order of
    importance; by subject:

    - The event loop ([App]): every flow event a run accepts is in the windows
      it writes, which are those Aggregate gives, or in a record of what was
      dropped ([AppAccounts], C1); what it writes is what the collector is
      sent, in that order, or is counted ([AppDelivery], C2), and what gets
      written, in that order, or is reported ([AppOutput], C3); no observation
      of a capture is ever late (C4), a cancellation ends the loop (C19), what
      it keeps is bounded (C20).
    - Windows ([Flow], [Window], [Stream]): a live stream computes what
      Aggregate computes of the accepted observations (C6); what
      Aggregate returns does not depend on orders (C17), but for the places of
      windows of Pods without a UID. That Aggregate conserves and groups its
      observations, that a stream keeps its invariant and flushes exactly what
      the watermark passes, and that merging summarises, are theorems that are
      not claims of their own.
    - DNS ([DnsParse], [DnsSpec]): the heap-based correlator refines the
      abstract one (C5); the parser is exact (C30).
    - HTTP ([Http2], [L7], [L7State]): the cuts of a stream do not matter
      (C33); state and buffers are within the configured limits, and directions
      belong to tracked connections (C34). [L7.http1_exchange]: an exchange yields
      one transaction.
    - Identities: never that of another process with the PID ([Process], C11);
      that of the Pod the informer knows, when it is the only one
      ([PodInformer], C40); the conntrack table ([Conntrack], C27), answers
      that are fresh ([Netlink], C28), a dump that is whole or an error (C29),
      and read back (C37); the socket cache ([SocketResolver], C31).
    - Collection: the loader leaks nothing and detaches what it closes ([Loader],
      C23) and attaches what it should (C24); records decode to what their bytes hold (C38);
      kernel drop counters are conserved (C32).
    - Delivery: the output loses nothing silently ([Output.close_accounts]);
      the exporter accounts for every pack (C10), a nil error of its Close
      is a confirmation ([Exporter.close_confirmed]), record identities
      determine records (C25); Send writes at most once ([WhatapClient],
      C7), no connection of a client is left open ([WhatapSession], C8) and
      its Close returns (C9); the bridge's Send reports what happened (C15)
      and network-edge-submit accounts for its input (C16).
    - Validation: windows (C18), MapValue (C39), packs (C26); what the
      correlators and the stream emit has a pack (C12, C13, C14).
    - WhaTap's wire: what the receive loop takes (C35) and which key replies
      are accepted (C36), exactly.
    - Configuration: what the checks of the command line guarantee (C21) and
      that a run releases what it acquires (C22); what the settings must be
      ([TagConfig.config_exact]).

    Lemmas about defects: [L7.tracked_connections_exceed_limit],
    [ConntrackWire.unpadded_attribute_panics],
    [ExportableL7.http2_method_rejected], [Window.unidentified_pods_unordered].

    ** Fuel

    Loops that are not structural take fuel, and a lemma shows that the fuel
    given is enough: DNS names consume a byte an iteration
    ([DnsParse.parseName_fuel]), the DNS drain removes a query an iteration
    ([Dns.drain_fuel]), HTTP/2 frames consume nine bytes
    ([Http2.feed_loop_fuel]), netlink messages consume sixteen bytes and
    attributes four ([ConntrackWire.parseMessages_dump],
    [ConntrackWire.attributes_attrs]), writeAll consumes a byte
    ([WhatapWire.writeAll_total]), as does the write loop of the bridge
    ([BridgeClient.write_payload_spec]), an IPv6 address has eight groups, and
    a receive of a dump takes at least a nanosecond of its second, so that
    [Netlink.dump_fuel] iterations are enough ([Netlink.receive_loop_returns]). The
    result of exhausted fuel is an error value, or [None], of its own.

    ** What is not modelled, and why

    The eBPF programs, and the loading of the embedded object (cilium/ebpf);
    the system calls themselves and goroutine scheduling (their answers and
    effects are inputs, worlds, or steps); encoding/json and SHA-256 (a digest
    and an encoding are parameters); golib's packs and the hello message;
    client-go's informer and indexer; flag.Parse and ParseDuration (the flags
    and a duration are arguments); the Unicode tables (whether an object name
    is graphic is a parameter); the nil checks of interfaces that the callers
    of the repository always provide.
    A Go int is an unbounded integer where it only measures a length; times
    are instants, so UTC() is the identity. *)

From stdpp Require Export base numbers list gmap strings sorting.
From Stdlib Require Export Strings.Byte.
From Stdlib Require Import OrdersEx.

#[local] Open Scope Z_scope.

(** ** Definitions *)

(** *** Results and run-time panics *)

(** A Go call that returns [(value, error)]. *)
Inductive result (E A : Type) : Type :=
| Ok (a : A)
| Err (e : E).

Arguments Ok {E A} a.
Arguments Err {E A} e.

Definition result_bind {E A B} (f : A -> result E B) (r : result E A) : result E B :=
  match r with
  | Ok a => f a
  | Err e => Err e
  end.

#[export] Instance result_mret {E} : MRet (result E) := fun A => @Ok E A.
#[export] Instance result_mbind {E} : MBind (result E) := fun A B => @result_bind E A B.

Definition is_Ok {E A} (r : result E A) : Prop := exists a, r = Ok a.

(** *** Machine integers: a Go uintN or intN is the Z it denotes, wrapped
    after every operation that can leave the range. *)
Definition uint (w z : Z) : Z := z mod 2 ^ w.

Definition sint (w z : Z) : Z :=
  let m := z mod 2 ^ w in
  if m <? 2 ^ (w - 1) then m else m - 2 ^ w.

Abbreviation u8 := (uint 8).
Abbreviation u16 := (uint 16).
Abbreviation u32 := (uint 32).
Abbreviation u64 := (uint 64).
Abbreviation i32 := (sint 32).
Abbreviation i64 := (sint 64).

Definition MaxInt64 : Z := 2 ^ 63 - 1.
Definition MinInt64 : Z := - 2 ^ 63.

(** *** Bytes, and encoding/binary's fixed-width integers *)
Definition byte_val (b : byte) : Z := Z.of_N (Byte.to_N b).

Definition byte_of (z : Z) : byte :=
  match Byte.of_N (Z.to_N (z mod 256)) with
  | Some b => b
  | None => Byte.x00
  end.

#[export] Instance byte_eq_dec : EqDecision byte := Byte.byte_eq_dec.
#[export] Instance byte_inhabited : Inhabited byte := populate Byte.x00.

Fixpoint le_uint (l : list byte) : Z :=
  match l with
  | [] => 0
  | b :: l' => byte_val b + 256 * le_uint l'
  end.

Definition be_uint (l : list byte) : Z := le_uint (reverse l).

Fixpoint le_bytes (n : nat) (z : Z) : list byte :=
  match n with
  | O => []
  | S n' => byte_of z :: le_bytes n' (z / 256)
  end.

Definition be_bytes (n : nat) (z : Z) : list byte := reverse (le_bytes n z).

(** The byte order a host or a caller chooses. *)
Inductive byte_order := LittleEndian | BigEndian.

Definition order_uint (o : byte_order) (l : list byte) : Z :=
  match o with LittleEndian => le_uint l | BigEndian => be_uint l end.

Definition order_bytes (o : byte_order) (n : nat) (z : Z) : list byte :=
  match o with LittleEndian => le_bytes n z | BigEndian => be_bytes n z end.

(** [data[i:j]] for bounds the caller has checked. *)
Definition slice {A} (l : list A) (i j : nat) : list A := take (j - i) (drop i l).

(** *** Strings: a Go string is the sequence of its bytes. *)
Definition string_of_bytes (l : list byte) : string := String.string_of_list_byte l.
Definition bytes_of_string (s : string) : list byte := String.list_byte_of_string s.

(** A literal separator or prefix, as the bytes it denotes. *)
Definition lit (s : string) : list byte := bytes_of_string s.

(** Bytes.Index: where the first occurrence of [sep] starts. *)
Fixpoint bytes_index (l sep : list byte) : option nat :=
  if bool_decide (take (length sep) l = sep) then Some 0%nat
  else match l with
       | [] => None
       | _ :: l' => S <$> bytes_index l' sep
       end.

Definition has_prefix (l pre : list byte) : bool := bool_decide (take (length pre) l = pre).

(** *** package time *)

(** An instant is its distance from the zero Time (January 1, year 1, UTC)
    in nanoseconds; a Duration is a count of nanoseconds. *)
Definition Time := Z.
Definition Duration := Z.

Definition time_IsZero (t : Time) : bool := t =? 0.
Definition time_Before (t u : Time) : bool := t <? u.
Definition time_After (t u : Time) : bool := u <? t.
Definition time_Add (t : Time) (d : Duration) : Time := t + d.

(** Time.Sub saturates at the ends of Duration. *)
Definition time_Sub (t u : Time) : Duration := Z.max MinInt64 (Z.min MaxInt64 (t - u)).

(** Time.Truncate rounds down to a multiple of d since the zero time. *)
Definition time_Truncate (t : Time) (d : Duration) : Time :=
  if d <=? 0 then t else t - t mod d.

Definition Microsecond : Duration := 1000.
Definition Millisecond : Duration := 1000000.
Definition Second : Duration := 1000000000.
Definition Minute : Duration := 60 * Second.

(** The zero time to the Unix epoch. *)
Definition unix_epoch : Time := 62135596800 * Second.

Definition time_Unix (t : Time) : Z := (t - unix_epoch) / Second.
Definition time_Nanosecond (t : Time) : Z := (t - unix_epoch) mod Second.
Definition time_UnixMilli (t : Time) : Z := i64 ((t - unix_epoch) / Millisecond).
Definition time_UnixNano (t : Time) : Z := i64 (t - unix_epoch).

(** *** package cmp *)
Class GoCompare (A : Type) := gocmp : A -> A -> Z.

Class GoCompareLaws (A : Type) {C : GoCompare A} : Prop := {
  gocmp_eq x y : gocmp x y = 0 <-> x = y;
  gocmp_opp x y : gocmp y x = - gocmp x y;
  gocmp_trans x y z : gocmp x y < 0 -> gocmp y z < 0 -> gocmp x z < 0
}.

#[export] Instance compare_int : GoCompare Z :=
  fun x y => if x <? y then -1 else if y <? x then 1 else 0.

#[export] Instance compare_string : GoCompare string :=
  fun x y => match String.compare x y with Lt => -1 | Eq => 0 | Gt => 1 end.

(** cmp.Or: the first nonzero argument. *)
Fixpoint cmp_Or (l : list Z) : Z :=
  match l with
  | [] => 0
  | c :: l' => if c =? 0 then cmp_Or l' else c
  end.

#[export] Instance compare_pair {A B} `{GoCompare A} `{GoCompare B} : GoCompare (A * B) :=
  fun x y => cmp_Or [gocmp x.1 y.1; gocmp x.2 y.2].

(** A nil pointer sorts first. *)
#[export] Instance compare_pointer {A} `{GoCompare A} : GoCompare (option A) :=
  fun x y => match x, y with
             | None, None => 0
             | None, Some _ => -1
             | Some _, None => 1
             | Some a, Some b => gocmp a b
             end.

(** sort.Slice with the comparison [less]. *)
Definition not_after {A} (less : A -> A -> bool) (x y : A) : Prop := less y x = false.

#[export] Instance not_after_dec {A} (less : A -> A -> bool) : RelDecision (not_after less).
Proof. intros x y. unfold not_after. apply _. Defined.

Definition sort_Slice {A} (less : A -> A -> bool) (l : list A) : list A :=
  merge_sort (not_after less) l.

(** *** Map iteration. [range m] visits every entry exactly once, in an order
    the language leaves open: the order is an instance of this class, and the
    results that do not depend on it are proved for any two instances. *)
Class MapRange (K A : Type) `{Countable K} := {
  map_range : gmap K A -> list (K * A);
  map_range_perm m : map_range m ≡ₚ map_to_list m
}.

Definition canonical_range (K A : Type) `{Countable K} : MapRange K A :=
  {| map_range := map_to_list; map_range_perm m := reflexivity _ |}.

Definition reversed_range (K A : Type) `{Countable K} : MapRange K A :=
  {| map_range m := reverse (map_to_list m);
     map_range_perm m := reverse_Permutation (map_to_list m) |}.

(** [for key, value := range m { if P { collect the entry; delete(m, key) } }] *)
Definition sweep_step {K A} `{Countable K} (P : K -> A -> bool)
  (acc : gmap K A * list (K * A)) (kv : K * A) : gmap K A * list (K * A) :=
  if P kv.1 kv.2 then (delete kv.1 acc.1, acc.2 ++ [kv]) else acc.

Definition range_sweep {K A} `{MapRange K A} (P : K -> A -> bool) (m : gmap K A) :
  gmap K A * list (K * A) :=
  foldl (sweep_step P) (m, []) (map_range m).

(** ** Automation *)

Create HintDb akn.
Create Rewrite HintDb akn.

(** Case analysis on the innermost scrutinee of a match or an if. *)
Ltac split_match :=
  match goal with
  | |- context [match ?x with _ => _ end] =>
      lazymatch x with
      | context [match _ with _ => _ end] => fail
      | _ => destruct x eqn:?
      end
  end.

Ltac split_match_in H :=
  match type of H with
  | context [match ?x with _ => _ end] =>
      lazymatch x with
      | context [match _ with _ => _ end] => fail
      | _ => destruct x eqn:?
      end
  end.

(** Boolean tests on Z in the context and the goal, as propositions. *)
Ltac bool_to_Z :=
  repeat match goal with
  | H : (_ <? _) = true |- _ => apply Z.ltb_lt in H
  | H : (_ <? _) = false |- _ => apply Z.ltb_ge in H
  | H : (_ <=? _) = true |- _ => apply Z.leb_le in H
  | H : (_ <=? _) = false |- _ => apply Z.leb_gt in H
  | H : (_ =? _) = true |- _ => apply Z.eqb_eq in H
  | H : (_ =? _) = false |- _ => apply Z.eqb_neq in H
  | H : _ && _ = true |- _ => apply andb_true_iff in H as [? ?]
  | H : _ || _ = false |- _ => apply orb_false_iff in H as [? ?]
  | H : negb _ = true |- _ => apply negb_true_iff in H
  | H : negb _ = false |- _ => apply negb_false_iff in H
  end.

(** ** Lemmas *)

(** *** Machine integers *)

Lemma uint_range w z : 0 <= w -> 0 <= uint w z < 2 ^ w.
Proof. intros ?. apply Z.mod_pos_bound. lia. Qed.

Lemma uint_small w z : 0 <= z < 2 ^ w -> uint w z = z.
Proof. apply Z.mod_small. Qed.

Lemma uint_add_l w x y : uint w (uint w x + y) = uint w (x + y).
Proof. apply Zplus_mod_idemp_l. Qed.

Lemma uint_add_r w x y : uint w (x + uint w y) = uint w (x + y).
Proof. apply Zplus_mod_idemp_r. Qed.

Lemma uint_idemp w x : uint w (uint w x) = uint w x.
Proof. apply Zmod_mod. Qed.

#[export] Hint Rewrite uint_add_l uint_add_r uint_idemp : akn.

Lemma sint_small w z : 0 < w -> - 2 ^ (w - 1) <= z < 2 ^ (w - 1) -> sint w z = z.
Proof.
  intros Hw Hz. unfold sint. pose proof (Z.pow_pos_nonneg 2 (w - 1) ltac:(lia) ltac:(lia)).
  assert (E : 2 ^ w = 2 * 2 ^ (w - 1)) by (rewrite <- Z.pow_succ_r by lia; f_equal; lia).
  destruct (Z.le_gt_cases 0 z).
  - rewrite Z.mod_small by lia. destruct (Z.ltb_spec z (2 ^ (w - 1))); lia.
  - replace (z mod 2 ^ w) with (z + 2 ^ w).
    2: { apply (Z.mod_unique z (2 ^ w) (-1)); lia. }
    destruct (Z.ltb_spec (z + 2 ^ w) (2 ^ (w - 1))); lia.
Qed.

Lemma sint_range w z : 0 < w -> - 2 ^ (w - 1) <= sint w z < 2 ^ (w - 1).
Proof.
  intros Hw. unfold sint. pose proof (Z.pow_pos_nonneg 2 (w - 1) ltac:(lia) ltac:(lia)).
  assert (E : 2 ^ w = 2 * 2 ^ (w - 1)) by (rewrite <- Z.pow_succ_r by lia; f_equal; lia).
  pose proof (Z.mod_pos_bound z (2 ^ w) ltac:(lia)).
  destruct (Z.ltb_spec (z mod 2 ^ w) (2 ^ (w - 1))); lia.
Qed.

Lemma sint_uint w z : sint w (uint w z) = sint w z.
Proof. unfold sint. fold (uint w (uint w z)). by rewrite uint_idemp. Qed.

Lemma uint_sint w z : 0 < w -> uint w (sint w z) = uint w z.
Proof.
  intros Hw. unfold sint, uint. destruct (_ <? _); [apply Zmod_mod|].
  rewrite <- (Z.mod_add _ 1) by lia. rewrite Z.mul_1_l, Z.sub_add. apply Zmod_mod.
Qed.

(** *** Bytes *)

Lemma byte_val_range b : 0 <= byte_val b < 256.
Proof. unfold byte_val. pose proof (Byte.to_N_bounded b). lia. Qed.

Lemma byte_val_of z : byte_val (byte_of z) = z mod 256.
Proof.
  unfold byte_val, byte_of. pose proof (Z.mod_pos_bound z 256 ltac:(lia)) as B.
  destruct (Byte.of_N _) as [b|] eqn:E.
  - apply Byte.to_of_N in E. rewrite E. lia.
  - apply Byte.of_N_None_iff in E. lia.
Qed.

Lemma byte_of_val b : byte_of (byte_val b) = b.
Proof.
  unfold byte_of. rewrite Z.mod_small by apply byte_val_range.
  unfold byte_val. rewrite N2Z.id, Byte.of_to_N. reflexivity.
Qed.

#[export] Instance byte_val_inj : Inj (=) (=) byte_val.
Proof. intros x y H. rewrite <- (byte_of_val x), H. apply byte_of_val. Qed.

#[export] Instance byte_countable : Countable byte :=
  inj_countable' byte_val byte_of byte_of_val.

Lemma length_le_bytes n z : length (le_bytes n z) = n.
Proof. revert z. induction n as [|n IH]; intros z; simpl; [done|]. by rewrite IH. Qed.

Lemma length_be_bytes n z : length (be_bytes n z) = n.
Proof. unfold be_bytes. by rewrite length_reverse, length_le_bytes. Qed.

Lemma le_uint_range l : 0 <= le_uint l < 256 ^ Z.of_nat (length l).
Proof.
  induction l as [|b l IH]; simpl length; [simpl; lia|].
  rewrite Nat2Z.inj_succ, Z.pow_succ_r by lia. simpl.
  pose proof (byte_val_range b). nia.
Qed.

Lemma be_uint_range l : 0 <= be_uint l < 256 ^ Z.of_nat (length l).
Proof. unfold be_uint. rewrite <- length_reverse. apply le_uint_range. Qed.

Lemma le_uint_app l k : le_uint (l ++ k) = le_uint l + 256 ^ Z.of_nat (length l) * le_uint k.
Proof.
  induction l as [|b l IH]; [simpl; lia|]. cbn [app le_uint length]. rewrite IH.
  rewrite Nat2Z.inj_succ, Z.pow_succ_r by lia. lia.
Qed.

Lemma be_uint_app l k : be_uint (l ++ k) = be_uint l * 256 ^ Z.of_nat (length k) + be_uint k.
Proof. unfold be_uint. rewrite reverse_app, le_uint_app, length_reverse. lia. Qed.

Lemma le_uint_bytes n z : le_uint (le_bytes n z) = z mod 256 ^ Z.of_nat n.
Proof.
  revert z. induction n as [|n IH]; intros z; [simpl; by rewrite Z.mod_1_r|].
  rewrite Nat2Z.inj_succ, Z.pow_succ_r by lia. simpl le_bytes. simpl le_uint.
  rewrite IH, byte_val_of. rewrite Z.rem_mul_r by lia. reflexivity.
Qed.

Lemma le_bytes_uint l : le_bytes (length l) (le_uint l) = l.
Proof.
  induction l as [|b l IH]; simpl; [done|].
  pose proof (byte_val_range b). f_equal.
  - rewrite <- (byte_of_val b) at 2. unfold byte_of.
    replace ((byte_val b + 256 * le_uint l) mod 256) with (byte_val b mod 256); [done|].
    rewrite Z.mul_comm, Z.mod_add by lia. done.
  - replace ((byte_val b + 256 * le_uint l) / 256) with (le_uint l); [done|].
    rewrite Z.mul_comm, Z.div_add, Z.div_small by lia. lia.
Qed.

Lemma be_uint_bytes n z : be_uint (be_bytes n z) = z mod 256 ^ Z.of_nat n.
Proof. unfold be_uint, be_bytes. rewrite reverse_involutive. apply le_uint_bytes. Qed.

Lemma be_bytes_uint l : be_bytes (length l) (be_uint l) = l.
Proof.
  unfold be_uint, be_bytes. rewrite <- length_reverse, le_bytes_uint.
  apply reverse_involutive.
Qed.

(** A signed integer is written as the bytes it was read from. *)
Lemma be_bytes_sint w n l :
  0 < w -> 256 ^ Z.of_nat n = 2 ^ w -> length l = n -> be_bytes n (sint w (be_uint l)) = l.
Proof.
  intros Hw E <-. rewrite <- (be_bytes_uint (be_bytes _ _)), length_be_bytes, be_uint_bytes, E.
  fold (uint w (sint w (be_uint l))). rewrite uint_sint by done. unfold uint.
  rewrite <- E, Z.mod_small by apply be_uint_range. apply be_bytes_uint.
Qed.

Lemma length_order_bytes o n z : length (order_bytes o n z) = n.
Proof. destruct o; [apply length_le_bytes | apply length_be_bytes]. Qed.

Lemma order_uint_bytes o n z : order_uint o (order_bytes o n z) = z mod 256 ^ Z.of_nat n.
Proof. destruct o; [apply le_uint_bytes | apply be_uint_bytes]. Qed.

Lemma order_bytes_uint o l n : length l = n -> order_bytes o n (order_uint o l) = l.
Proof. intros <-. destruct o; [apply le_bytes_uint | apply be_bytes_uint]. Qed.

Lemma order_uint_range o l : 0 <= order_uint o l < 256 ^ Z.of_nat (length l).
Proof. destruct o; [apply le_uint_range | apply be_uint_range]. Qed.

#[export] Hint Rewrite length_order_bytes length_be_bytes length_le_bytes : akn.

Lemma bytes_of_string_of_bytes l : bytes_of_string (string_of_bytes l) = l.
Proof. apply String.list_byte_of_string_of_list_byte. Qed.

Lemma string_of_bytes_of_string s : string_of_bytes (bytes_of_string s) = s.
Proof. apply String.string_of_list_byte_of_string. Qed.

#[export] Instance string_of_bytes_inj : Inj (=) (=) string_of_bytes.
Proof.
  intros x y E. rewrite <- (bytes_of_string_of_bytes x), E. apply bytes_of_string_of_bytes.
Qed.

(** *** Comparisons *)

Lemma cmp_Or_cons c l : cmp_Or (c :: l) = if c =? 0 then cmp_Or l else c.
Proof. reflexivity. Qed.

#[export] Instance compare_int_laws : GoCompareLaws Z.
Proof.
  split; unfold gocmp, compare_int; intros;
    repeat match goal with
    | |- context [?x <? ?y] => destruct (Z.ltb_spec x y)
    | H : context [?x <? ?y] |- _ => destruct (Z.ltb_spec x y)
    end; lia.
Qed.

Lemma gocmp_0 {A} `{GoCompareLaws A} (x y : A) : gocmp x y = 0 -> x = y.
Proof. apply gocmp_eq. Qed.

Lemma string_compare_lt x y : String.compare x y = Lt <-> String_as_OT.lt x y.
Proof. reflexivity. Qed.

#[export] Instance compare_string_laws : GoCompareLaws string.
Proof.
  assert (Z0 : forall x y : string, gocmp x y < 0 <-> String.compare x y = Lt).
  { intros x y. unfold gocmp, compare_string. destruct (String.compare x y); split; done || lia. }
  split.
  - intros x y. unfold gocmp, compare_string. split.
    + destruct (String.compare x y) eqn:E; try done. intros _. by apply String.compare_eq_iff.
    + intros ->. pose proof (String.compare_antisym y y).
      destruct (String.compare y y); done.
  - intros x y. unfold gocmp, compare_string. rewrite String.compare_antisym.
    destruct (String.compare x y); done.
  - intros x y z. rewrite !Z0, !string_compare_lt. intros ??.
    by transitivity y.
Qed.

Lemma compare_pair_lt {A B} `{GoCompareLaws A} `{GoCompare B} (x y : A * B) :
  gocmp x y < 0 <-> gocmp x.1 y.1 < 0 \/ (x.1 = y.1 /\ gocmp x.2 y.2 < 0).
Proof.
  unfold gocmp at 1, compare_pair. simpl. pose proof (gocmp_eq x.1 y.1).
  destruct (Z.eqb_spec (gocmp x.1 y.1) 0).
  - destruct (Z.eqb_spec (gocmp x.2 y.2) 0); naive_solver lia.
  - naive_solver lia.
Qed.

#[export] Instance compare_pair_laws {A B} `{GoCompareLaws A} `{GoCompareLaws B} :
  GoCompareLaws (A * B).
Proof.
  split.
  - unfold gocmp, compare_pair. intros [a b] [a' b']; simpl.
    pose proof (gocmp_eq a a'). pose proof (gocmp_eq b b').
    destruct (Z.eqb_spec (gocmp a a') 0), (Z.eqb_spec (gocmp b b') 0); naive_solver.
  - unfold gocmp, compare_pair. intros [a b] [a' b']; simpl. rewrite (gocmp_opp a a'), (gocmp_opp b b').
    destruct (Z.eqb_spec (gocmp a a') 0), (Z.eqb_spec (- gocmp a a') 0),
      (Z.eqb_spec (gocmp b b') 0), (Z.eqb_spec (- gocmp b b') 0); lia.
  - intros x y z. rewrite !compare_pair_lt.
    intros [?|[E1 ?]] [?|[E2 ?]]; rewrite ?E1, <- ?E2; eauto using gocmp_trans.
Qed.

#[export] Instance compare_pointer_laws {A} `{GoCompareLaws A} : GoCompareLaws (option A).
Proof.
  split; unfold gocmp, compare_pointer.
  - intros [x|] [y|]; try (split; done). rewrite gocmp_eq. split; congruence.
  - intros [x|] [y|]; try done. apply gocmp_opp.
  - intros [x|] [y|] [z|]; try lia. apply gocmp_trans.
Qed.

(** *** Sorting *)

Lemma sort_Slice_perm {A} (less : A -> A -> bool) l : sort_Slice less l ≡ₚ l.
Proof. apply merge_sort_Permutation. Qed.

(** A comparison function that compares a sort key. *)
Section sort_by_key.
Context {A B : Type} `{GoCompareLaws B} (key : A -> B) (less : A -> A -> bool).
Hypothesis less_key : forall x y, less x y = (gocmp (key x) (key y) <? 0).

Lemma not_after_key x y : not_after less x y <-> gocmp (key x) (key y) <= 0.
Proof.
  unfold not_after. rewrite less_key, (gocmp_opp (key x) (key y)), Z.ltb_ge. lia.
Qed.

#[local] Instance not_after_total : Total (not_after less).
Proof.
  intros x y. rewrite !not_after_key, (gocmp_opp (key x) (key y)). lia.
Qed.

#[local] Instance not_after_trans : Transitive (not_after less).
Proof.
  intros x y z. rewrite !not_after_key. intros H1 H2.
  destruct (decide (gocmp (key x) (key y) = 0)) as [E|]; [by rewrite (gocmp_0 _ _ E)|].
  destruct (decide (gocmp (key y) (key z) = 0)) as [E|]; [by rewrite <- (gocmp_0 _ _ E)|].
  apply Z.lt_le_incl, (gocmp_trans _ (key y)); lia.
Qed.

Lemma sort_Slice_sorted l : StronglySorted (not_after less) (sort_Slice less l).
Proof.
  apply (Sorted_StronglySorted _), (Sorted_merge_sort _).
Qed.

(** Any ordering of the elements that sort.Slice may leave is the one computed
    here, when different elements have different keys. *)
Lemma sort_Slice_unique l l' :
  l' ≡ₚ l -> StronglySorted (not_after less) l' ->
  (forall x y, x ∈ l -> y ∈ l -> key x = key y -> x = y) ->
  l' = sort_Slice less l.
Proof.
  intros Hp Hs Hinj. apply (StronglySorted_unique_strong (not_after less)).
  - intros x y Hx Hy. rewrite !not_after_key, (gocmp_opp (key x) (key y)). intros ??.
    rewrite Hp in Hx. rewrite sort_Slice_perm in Hy. apply Hinj; [done..|].
    apply gocmp_0. lia.
  - done.
  - apply sort_Slice_sorted.
  - by rewrite sort_Slice_perm.
Qed.

Lemma sort_Slice_Proper l l' :
  l ≡ₚ l' -> (forall x y, x ∈ l -> y ∈ l -> key x = key y -> x = y) ->
  sort_Slice less l = sort_Slice less l'.
Proof.
  intros Hp Hinj. symmetry. apply sort_Slice_unique; [|apply sort_Slice_sorted|done].
  by rewrite sort_Slice_perm, Hp.
Qed.

Lemma sorted_keys l :
  StronglySorted (not_after less) l -> StronglySorted (fun x y => gocmp x y <= 0) (key <$> l).
Proof.
  induction 1 as [|x l Hl IH Hx]; [constructor|]. cbn. constructor; [done|].
  apply Forall_fmap. eapply Forall_impl; [exact Hx|]. intros y. apply not_after_key.
Qed.

(** Whatever the keys, the sorted lists differ at most by an exchange of
    elements of the same key. *)
Lemma sort_Slice_keys l l' :
  l ≡ₚ l' ->
  sort_Slice less l ≡ₚ sort_Slice less l' /\ key <$> sort_Slice less l = key <$> sort_Slice less l'.
Proof.
  intros Hp. assert (E : sort_Slice less l ≡ₚ sort_Slice less l') by by rewrite !sort_Slice_perm.
  split; [done|]. apply (StronglySorted_unique_strong (fun x y => gocmp x y <= 0)).
  - intros x y _ _. rewrite (gocmp_opp x y). intros ??. apply gocmp_0. lia.
  - apply sorted_keys, sort_Slice_sorted.
  - apply sorted_keys, sort_Slice_sorted.
  - by rewrite E.
Qed.
End sort_by_key.

Lemma sublist_full {A} (l k : list A) : sublist l k -> (length k <= length l)%nat -> l = k.
Proof.
  induction 1 as [|x l k H IH|x l k H IH]; cbn; intros Hl; [done|f_equal; apply IH; lia|].
  apply sublist_length in H. lia.
Qed.

Lemma filter_ext_in {A} (P Q : A -> Prop) `{forall x, Decision (P x)} `{forall x, Decision (Q x)} (l : list A) :
  (forall x, x ∈ l -> P x <-> Q x) -> filter P l = filter Q l.
Proof.
  induction l as [|x l IH]; intros Hl; [done|]. rewrite !filter_cons.
  rewrite IH by (intros y Hy; apply Hl; set_solver). pose proof (Hl x ltac:(set_solver)).
  destruct (decide (P x)), (decide (Q x)); tauto.
Qed.

Lemma filter_all {A} (P : A -> Prop) `{forall x, Decision (P x)} (l : list A) :
  (forall x, x ∈ l -> P x) -> filter P l = l.
Proof.
  induction l as [|x l IH]; intros Hl; [done|]. rewrite filter_cons_True by (apply Hl; set_solver).
  f_equal. apply IH. set_solver.
Qed.

Lemma filter_none {A} (P : A -> Prop) `{forall x, Decision (P x)} (l : list A) :
  (forall x, x ∈ l -> ~ P x) -> filter P l = [].
Proof.
  induction l as [|x l IH]; intros Hl; [done|]. rewrite filter_cons_False by (apply Hl; set_solver).
  apply IH. set_solver.
Qed.

Lemma Forall_filter_keep {A} (P Q : A -> Prop) `{forall x, Decision (Q x)} l :
  Forall P l -> Forall P (filter Q l).
Proof. rewrite !Forall_forall. intros HP x [_ Hx]%list_elem_of_filter. auto. Qed.

Lemma map_to_list_union_disjoint {K A} `{Countable K} (m1 m2 : gmap K A) :
  m1 ##ₘ m2 -> map_to_list (m1 ∪ m2) ≡ₚ map_to_list m1 ++ map_to_list m2.
Proof.
  intros Hd. apply NoDup_Permutation.
  - apply NoDup_map_to_list.
  - apply NoDup_app. split_and!; [apply NoDup_map_to_list| |apply NoDup_map_to_list].
    intros [k v]. rewrite !elem_of_map_to_list. intros H1 H2.
    by apply (proj1 (map_disjoint_spec m1 m2) Hd k v v).
  - intros [k v]. rewrite elem_of_app, !elem_of_map_to_list. by apply lookup_union_Some.
Qed.

(** *** Map iteration *)

Section map_range.
Context {K A : Type} `{MapRange K A}.
Implicit Types (m : gmap K A).

Lemma elem_of_map_range m k v : (k, v) ∈ map_range m <-> m !! k = Some v.
Proof. by rewrite map_range_perm, elem_of_map_to_list. Qed.

Lemma map_range_keys_NoDup m : NoDup (map_range m).*1.
Proof. rewrite map_range_perm. apply NoDup_fst_map_to_list. Qed.

Lemma foldr_delete_delete m k ks :
  foldr delete (delete k m) ks = delete k (foldr delete m ks).
Proof. induction ks as [|k' ks IH]; simpl; [done|]. by rewrite IH, delete_delete. Qed.

Lemma sweep_fold P l m out :
  NoDup l.*1 ->
  foldl (sweep_step P) (m, out) l =
    (foldr delete m (filter (fun kv => P kv.1 kv.2 = true) l).*1,
     out ++ filter (fun kv => P kv.1 kv.2 = true) l).
Proof.
  revert m out. induction l as [|[k v] l IH]; intros m out Hl; simpl.
  { by rewrite app_nil_r. }
  apply NoDup_cons in Hl as [Hk Hl]. rewrite filter_cons. unfold sweep_step at 2. simpl.
  destruct (P k v) eqn:E; rewrite IH by done.
  - rewrite decide_True by done. simpl. rewrite <- app_assoc. f_equal.
    apply foldr_delete_delete.
  - rewrite decide_False by (simpl; congruence). done.
Qed.

Lemma lookup_foldr_delete m ks k :
  foldr delete m ks !! k = if decide (k ∈ ks) then None else m !! k.
Proof.
  induction ks as [|k' ks IH]; simpl; [done|].
  rewrite lookup_delete. destruct (decide (k' = k)) as [->|].
  - rewrite decide_True; [done|]. by left.
  - rewrite IH. destruct (decide (k ∈ ks)), (decide (k ∈ k' :: ks)); try done; set_solver.
Qed.

(** The sweep removes exactly the entries that satisfy P. *)
Lemma lookup_range_sweep P m k :
  (range_sweep P m).1 !! k =
    match m !! k with
    | Some v => if P k v then None else Some v
    | None => None
    end.
Proof.
  unfold range_sweep. rewrite sweep_fold by apply map_range_keys_NoDup. simpl.
  rewrite lookup_foldr_delete. destruct (decide (k ∈ _)) as [Hk|Hk].
  - apply list_elem_of_fmap in Hk as ([k' v] & -> & Hv). simpl.
    apply list_elem_of_filter in Hv as [E Hv]. apply elem_of_map_range in Hv.
    simpl in E. by rewrite Hv, E.
  - destruct (m !! k) as [v|] eqn:E; [|done].
    destruct (P k v) eqn:EP; [|done]. destruct Hk.
    apply list_elem_of_fmap. exists (k, v). split; [done|].
    apply list_elem_of_filter. by rewrite elem_of_map_range.
Qed.

Lemma range_sweep_snd P m :
  (range_sweep P m).2 = filter (fun kv => P kv.1 kv.2 = true) (map_range m).
Proof. unfold range_sweep. by rewrite sweep_fold by apply map_range_keys_NoDup. Qed.

Lemma elem_of_range_sweep P m k v :
  (k, v) ∈ (range_sweep P m).2 <-> m !! k = Some v /\ P k v = true.
Proof. rewrite range_sweep_snd, list_elem_of_filter, elem_of_map_range. naive_solver. Qed.

Lemma range_sweep_keys_NoDup P m : NoDup (range_sweep P m).2.*1.
Proof.
  rewrite range_sweep_snd.
  pose proof (map_range_keys_NoDup m) as Hm.
  induction (map_range m) as [|[k v] l IH]; simpl in *; [constructor|].
  apply NoDup_cons in Hm as [Hk Hm]. rewrite filter_cons. case_decide; [|auto].
  simpl. constructor; [|auto]. intros (kv & -> & [_ ?]%list_elem_of_filter)%list_elem_of_fmap.
  apply Hk, list_elem_of_fmap. eauto.
Qed.

(** What was swept and what is left make up the map. *)
Lemma range_sweep_perm P m :
  (range_sweep P m).2 ++ map_to_list (range_sweep P m).1 ≡ₚ map_to_list m.
Proof.
  apply NoDup_Permutation.
  - apply NoDup_app. split_and!.
    + apply (NoDup_fmap_1 fst), range_sweep_keys_NoDup.
    + intros [k v]. rewrite elem_of_range_sweep, elem_of_map_to_list, lookup_range_sweep.
      intros [-> ->]. done.
    + apply NoDup_map_to_list.
  - apply NoDup_map_to_list.
  - intros [k v]. rewrite elem_of_app, elem_of_range_sweep, !elem_of_map_to_list,
      lookup_range_sweep.
    destruct (m !! k) as [v'|]; [|naive_solver].
    destruct (P k v') eqn:E; split; intros; destruct_or?; destruct_and?; simplify_eq; auto;
      congruence.
Qed.

Lemma range_sweep_size P m : (size (range_sweep P m).1 <= size m)%nat.
Proof.
  rewrite <- !length_map_to_list, <- (range_sweep_perm P m), length_app. lia.
Qed.
End map_range.
