(* ===== verification/Text.v ===== *)
(** * Text: the functions of strings, bytes and strconv the code calls

    On lists of bytes: splitting and cutting at a separator, and the numbers
    ParseUint, ParseInt and Sprintf read and write. *)

From stdpp Require Import pretty.
From S2P Require Import Prelude.

#[local] Open Scope Z_scope.

(** ** Definitions *)

(** strings.Split with a one-byte separator *)
Fixpoint split_byte (sep : byte) (l : list byte) : list (list byte) :=
  match l with
  | [] => [[]]
  | b :: l' =>
      if bool_decide (b = sep) then [] :: split_byte sep l'
      else match split_byte sep l' with
           | [] => [[b]]
           | t :: ts => (b :: t) :: ts
           end
  end.

(** strings.Cut and IndexByte: what is before and after the first separator *)
Fixpoint cut_byte (sep : byte) (l : list byte) : option (list byte * list byte) :=
  match l with
  | [] => None
  | b :: l' =>
      if bool_decide (b = sep) then Some ([], l')
      else match cut_byte sep l' with
           | Some (x, y) => Some (b :: x, y)
           | None => None
           end
  end.

(** strings.SplitN(s, sep, 3) *)
Definition split_three (sep : byte) (l : list byte) : list (list byte) :=
  match cut_byte sep l with
  | None => [l]
  | Some (x, r) =>
      match cut_byte sep r with
      | None => [x; r]
      | Some (y, z) => [x; y; z]
      end
  end.

(** The value of a digit in base 32; the caller has excluded other bytes. *)
Definition digit_value (b : byte) : Z :=
  let z := byte_val b in
  if (48 <=? z) && (z <=? 57) then z - 48
  else if (97 <=? z) && (z <=? 122) then z - 97 + 10
  else z - 65 + 10.

(** The magnitude ParseInt and ParseUint compute, before the range check *)
Definition digits_value (base : Z) (digits : list byte) : Z :=
  foldl (fun acc b => acc * base + digit_value b) 0 digits.

Definition is_decimal_digit (b : byte) : bool := (48 <=? byte_val b) && (byte_val b <=? 57).

Definition is_base32_digit (b : byte) : bool :=
  is_decimal_digit b || ((97 <=? byte_val b) && (byte_val b <=? 118)) ||
  ((65 <=? byte_val b) && (byte_val b <=? 86)).

(** A digit of base 32, in lower case *)
Definition digit_byte (d : Z) : byte := byte_of (if d <? 10 then 48 + d else 97 + (d - 10)).

Fixpoint digits_text (base : Z) (fuel : nat) (n : Z) : list byte :=
  match fuel with
  | O => []
  | S fuel' => if n <? base then [digit_byte n]
               else digits_text base fuel' (n / base) ++ [digit_byte (n mod base)]
  end.

(** The decimal form of a nonnegative word *)
Definition decimal_text (z : Z) : list byte := digits_text 10 19 z.

(** ParseUint(s, 10, bits): decimal digits only, within the range *)
Definition ParseUint10 (bits : Z) (s : list byte) : option Z :=
  if (length s =? 0)%nat || negb (forallb is_decimal_digit s) then None
  else let n := digits_value 10 s in if n <? 2 ^ bits then Some n else None.

(** Sprintf of a nonnegative number in decimal *)
Definition decimal (z : Z) : string := pretty (Z.to_N z).

(** *** White space and fields *)

(** The white space runes of one, two and three bytes *)
Definition space_1 (a : Z) : bool := ((9 <=? a) && (a <=? 13)) || (a =? 32).
Definition space_2 (a b : Z) : bool := (a =? 0xc2) && ((b =? 0x85) || (b =? 0xa0)).
Definition space_3 (a b c : Z) : bool :=
  ((a =? 0xe1) && (b =? 0x9a) && (c =? 0x80)) ||
  ((a =? 0xe2) && (b =? 0x80) &&
    (((0x80 <=? c) && (c <=? 0x8a)) || (c =? 0xa8) || (c =? 0xa9) || (c =? 0xaf))) ||
  ((a =? 0xe2) && (b =? 0x81) && (c =? 0x9f)) || ((a =? 0xe3) && (b =? 0x80) && (c =? 0x80)).

(** The length of the white space rune a string starts with; 0 when it starts
    with another rune. The first byte of a multi-byte space never occurs
    inside another rune, so scanning for these sequences byte by byte is
    scanning runes. *)
Definition space_length (l : list byte) : nat :=
  match l with
  | a :: b :: c :: _ =>
      if space_1 (byte_val a) then 1
      else if space_2 (byte_val a) (byte_val b) then 2
      else if space_3 (byte_val a) (byte_val b) (byte_val c) then 3 else 0
  | [a; b] => if space_1 (byte_val a) then 1 else if space_2 (byte_val a) (byte_val b) then 2 else 0
  | [a] => if space_1 (byte_val a) then 1 else 0
  | [] => 0
  end.

Definition flush (word : list byte) : list (list byte) := if decide (word = []) then [] else [word].

(** strings.Fields: [skip] bytes of a space are still to be passed, [word]
    is the field being read *)
Fixpoint fields_from (skip : nat) (word l : list byte) : list (list byte) :=
  match l with
  | [] => flush word
  | b :: l' =>
      match skip with
      | S skip' => fields_from skip' [] l'
      | O => match space_length (b :: l') with
             | O => fields_from 0 (word ++ [b]) l'
             | S skip' => flush word ++ fields_from skip' [] l'
             end
      end
  end.

Definition Fields (l : list byte) : list (list byte) := fields_from 0 [] l.

(** A printable ASCII byte other than the space *)
Definition is_graphic (b : byte) : bool := (33 <=? byte_val b) && (byte_val b <=? 126).

(** *** Hexadecimal *)

Definition is_hex_digit (b : byte) : bool :=
  is_decimal_digit b || ((97 <=? byte_val b) && (byte_val b <=? 102)) ||
  ((65 <=? byte_val b) && (byte_val b <=? 70)).

(** ParseUint(s, 16, bits) *)
Definition ParseUint16 (bits : Z) (s : list byte) : option Z :=
  if (length s =? 0)%nat || negb (forallb is_hex_digit s) then None
  else let n := digits_value 16 s in if n <? 2 ^ bits then Some n else None.

(** hex.DecodeString *)
Fixpoint hex_DecodeString (s : list byte) : option (list byte) :=
  match s with
  | [] => Some []
  | [_] => None
  | a :: b :: s' =>
      if is_hex_digit a && is_hex_digit b
      then (byte_of (digit_value a * 16 + digit_value b) ::.) <$> hex_DecodeString s'
      else None
  end.

(** Printf's %02X *)
Definition upper_digit (d : Z) : byte := byte_of (if d <? 10 then 48 + d else 65 + (d - 10)).
Definition hex_byte (b : byte) : list byte := [upper_digit (byte_val b / 16); upper_digit (byte_val b mod 16)].
Definition hex_bytes (l : list byte) : list byte := flat_map hex_byte l.

(** *** utf8.Valid *)

(** [need] continuation bytes are still to come, the next of them within
    [lo, hi] *)
Fixpoint utf8_from (need : nat) (lo hi : Z) (l : list byte) : bool :=
  match l with
  | [] => (need =? 0)%nat
  | b :: l' =>
      let z := byte_val b in
      match need with
      | S need' => (lo <=? z) && (z <=? hi) && utf8_from need' 0x80 0xbf l'
      | O =>
          if z <? 0x80 then utf8_from 0 0x80 0xbf l'
          else if (0xc2 <=? z) && (z <=? 0xdf) then utf8_from 1 0x80 0xbf l'
          else if z =? 0xe0 then utf8_from 2 0xa0 0xbf l'
          else if z =? 0xed then utf8_from 2 0x80 0x9f l'
          else if (0xe1 <=? z) && (z <=? 0xef) then utf8_from 2 0x80 0xbf l'
          else if z =? 0xf0 then utf8_from 3 0x90 0xbf l'
          else if (0xf1 <=? z) && (z <=? 0xf3) then utf8_from 3 0x80 0xbf l'
          else if z =? 0xf4 then utf8_from 3 0x80 0x8f l'
          else false
      end
  end.

Definition utf8_Valid (l : list byte) : bool := utf8_from 0 0x80 0xbf l.

(** ** Lemmas *)

Lemma cut_byte_app sep x y : sep ∉ x -> cut_byte sep (x ++ sep :: y) = Some (x, y).
Proof.
  induction x as [|b x IH]; intros Hx; simpl; [by rewrite bool_decide_true|].
  rewrite bool_decide_false by set_solver. rewrite IH; [done|set_solver].
Qed.

Lemma cut_byte_sound sep l x y : cut_byte sep l = Some (x, y) -> l = x ++ sep :: y /\ sep ∉ x.
Proof.
  revert x y. induction l as [|b l IH]; intros x y; simpl; [done|].
  case_bool_decide as Hb; [intros [= <- <-]; subst b; set_solver|].
  destruct (cut_byte sep l) as [[x' y']|]; [|done]. intros [= <- <-].
  destruct (IH x' y' eq_refl) as [-> ?]. set_solver.
Qed.

Lemma cut_byte_Some sep l x y : cut_byte sep l = Some (x, y) <-> l = x ++ sep :: y /\ sep ∉ x.
Proof.
  split; [apply cut_byte_sound|]. intros [-> ?]. by apply cut_byte_app.
Qed.

Lemma cut_byte_None sep l : cut_byte sep l = None <-> sep ∉ l.
Proof.
  split.
  - induction l as [|b l IH]; simpl; [set_solver|]. case_bool_decide; [done|].
    destruct (cut_byte sep l) as [[]|]; [done|]. intros _. specialize (IH eq_refl). set_solver.
  - induction l as [|b l IH]; intros Hl; simpl; [done|].
    rewrite bool_decide_false by set_solver. rewrite IH; [done|set_solver].
Qed.

Lemma digit_value_byte d : 0 <= d < 32 -> digit_value (digit_byte d) = d.
Proof.
  intros Hd. unfold digit_value, digit_byte. rewrite byte_val_of, Z.mod_small.
  - destruct (Z.ltb_spec d 10).
    + replace ((48 <=? 48 + d) && (48 + d <=? 57)) with true by (symmetry; apply andb_true_iff; lia). lia.
    + replace ((48 <=? 97 + (d - 10)) && (97 + (d - 10) <=? 57)) with false
        by (symmetry; apply andb_false_iff; lia).
      replace ((97 <=? 97 + (d - 10)) && (97 + (d - 10) <=? 122)) with true
        by (symmetry; apply andb_true_iff; lia). lia.
  - destruct (Z.ltb_spec d 10); lia.
Qed.

Lemma digit_byte_base32 d : 0 <= d < 32 -> is_base32_digit (digit_byte d) = true.
Proof.
  intros Hd. assert (HF : Forall (fun d => is_base32_digit (digit_byte d) = true) (seqZ 0 32))
    by (repeat constructor).
  rewrite Forall_forall in HF. apply HF, elem_of_seqZ. lia.
Qed.

Lemma digit_byte_decimal d : 0 <= d < 10 -> is_decimal_digit (digit_byte d) = true.
Proof.
  intros Hd. assert (HF : Forall (fun d => is_decimal_digit (digit_byte d) = true) (seqZ 0 10))
    by (repeat constructor).
  rewrite Forall_forall in HF. apply HF, elem_of_seqZ. lia.
Qed.

Section digits.
Variables (base : Z) (ok : byte -> bool).
Hypothesis base_range : 2 <= base <= 32.
Hypothesis digits_ok : forall d, 0 <= d < base -> ok (digit_byte d) = true.

Lemma digits_value_one n :
  0 <= n < base ->
  digits_value base [digit_byte n] = n /\ forallb ok [digit_byte n] = true.
Proof.
  intros Hn. unfold digits_value. cbn [foldl forallb].
  rewrite digit_value_byte, digits_ok by lia. split; [lia|done].
Qed.

Lemma digits_value_text fuel n :
  0 <= n < base ^ Z.of_nat (S fuel) ->
  digits_value base (digits_text base (S fuel) n) = n /\
  (0 < length (digits_text base (S fuel) n) <= S fuel)%nat /\
  forallb ok (digits_text base (S fuel) n) = true.
Proof.
  revert n. induction fuel as [|fuel IH]; intros n Hn.
  { rewrite Z.pow_1_r in Hn. cbn [digits_text]. destruct (Z.ltb_spec n base); [|lia].
    destruct (digits_value_one n Hn). simpl length. split_and!; (done || lia). }
  cbn [digits_text]. destruct (Z.ltb_spec n base).
  { destruct (digits_value_one n ltac:(lia)). simpl length. split_and!; (done || lia). }
  rewrite Nat2Z.inj_succ, Z.pow_succ_r in Hn by lia.
  destruct (IH (n / base)) as (V & L & F).
  { split; [apply Z.div_pos; lia|]. apply Z.div_lt_upper_bound; lia. }
  pose proof (Z.mod_pos_bound n base ltac:(lia)) as Hm. pose proof (Z.div_mod n base ltac:(lia)).
  destruct (digits_value_one _ Hm) as [V1 F1]. cbn [digits_text] in *.
  unfold digits_value in *. rewrite foldl_app, V, length_app, forallb_app, F. cbn [foldl length] in *.
  rewrite digit_value_byte by lia. split_and!; [lia..|]. by rewrite F1.
Qed.
End digits.

Lemma decimal_nonneg l a :
  0 <= a -> forallb is_decimal_digit l = true ->
  0 <= foldl (fun acc b => acc * 10 + digit_value b) a l.
Proof.
  revert a. induction l as [|b l IH]; intros a Ha Hl; [done|].
  simpl in Hl. apply andb_true_iff in Hl as [Hb Hl]. cbn [foldl]. apply IH; [|done].
  unfold is_decimal_digit in Hb. unfold digit_value. rewrite Hb.
  apply andb_true_iff in Hb as [Hb1 Hb2]. bool_to_Z. lia.
Qed.


(** *** Fields *)

Lemma split_byte_line sep line l : sep ∉ line -> split_byte sep (line ++ sep :: l) = line :: split_byte sep l.
Proof.
  induction line as [|b line IH]; intros Hs; cbn [app split_byte].
  - by rewrite bool_decide_true.
  - rewrite bool_decide_false by set_solver. rewrite IH by set_solver. done.
Qed.

Lemma split_byte_none sep line : sep ∉ line -> split_byte sep line = [line].
Proof.
  induction line as [|b line IH]; intros Hs; cbn [split_byte]; [done|].
  rewrite bool_decide_false by set_solver. by rewrite IH by set_solver.
Qed.

Lemma graphic_not_space b l : is_graphic b = true -> space_length (b :: l) = 0%nat.
Proof.
  unfold is_graphic. intros [H1 H2]%andb_true_iff. bool_to_Z.
  assert (E1 : space_1 (byte_val b) = false).
  { unfold space_1. apply orb_false_iff. split; [apply andb_false_iff; right|];
      [apply Z.leb_gt; lia|apply Z.eqb_neq; lia]. }
  assert (E : forall n, 127 <= n -> (byte_val b =? n) = false) by (intros; apply Z.eqb_neq; lia).
  assert (E2 : forall x, space_2 (byte_val b) x = false) by (intros; unfold space_2; by rewrite E by lia).
  assert (E3 : forall x y, space_3 (byte_val b) x y = false)
    by (intros; unfold space_3; by rewrite !E by lia).
  destruct l as [|x [|y l]]; simpl; by rewrite E1, ?E2, ?E3.
Qed.

Lemma fields_from_word word w l :
  Forall (fun b => is_graphic b = true) w -> fields_from 0 word (w ++ l) = fields_from 0 (word ++ w) l.
Proof.
  intros Hw. revert word. induction Hw as [|b w Hb Hw IH]; intros word; [by rewrite app_nil_r|].
  cbn [app fields_from]. rewrite graphic_not_space by done. by rewrite IH, <- app_assoc.
Qed.

Lemma Fields_space l : Fields (byte_of 32 :: l) = Fields l.
Proof. by destruct l as [|? [|? ?]]. Qed.

Lemma Fields_word w l :
  w <> [] -> Forall (fun b => is_graphic b = true) w -> Fields (w ++ byte_of 32 :: l) = w :: Fields l.
Proof.
  intros Hn Hw. unfold Fields. rewrite fields_from_word by done. cbn [app fields_from].
  replace (space_length (byte_of 32 :: l)) with 1%nat by (by destruct l as [|? [|? ?]]).
  unfold flush. by rewrite decide_False.
Qed.

Lemma Fields_last w : w <> [] -> Forall (fun b => is_graphic b = true) w -> Fields w = [w].
Proof.
  intros Hn Hw. unfold Fields. rewrite <- (app_nil_r w) at 1. rewrite fields_from_word by done.
  simpl. unfold flush. by rewrite decide_False.
Qed.

(** *** Hexadecimal *)

Lemma upper_digit_spec d :
  0 <= d < 16 -> is_hex_digit (upper_digit d) = true /\ digit_value (upper_digit d) = d /\
    is_graphic (upper_digit d) = true.
Proof.
  intros Hd. assert (HF : Forall (fun d => is_hex_digit (upper_digit d) = true /\
    digit_value (upper_digit d) = d /\ is_graphic (upper_digit d) = true) (seqZ 0 16))
    by (repeat constructor).
  rewrite Forall_forall in HF. apply HF, elem_of_seqZ. lia.
Qed.

Lemma hex_byte_digits b :
  0 <= byte_val b / 16 < 16 /\ 0 <= byte_val b mod 16 < 16 /\
  byte_val b / 16 * 16 + byte_val b mod 16 = byte_val b.
Proof.
  pose proof (byte_val_range b). pose proof (Z.div_mod (byte_val b) 16 ltac:(lia)).
  pose proof (Z.mod_pos_bound (byte_val b) 16 ltac:(lia)).
  split_and!; lia.
Qed.

Lemma hex_DecodeString_bytes l : hex_DecodeString (hex_bytes l) = Some l.
Proof.
  induction l as [|b l IH]; [done|]. change (hex_bytes (b :: l)) with
    (upper_digit (byte_val b / 16) :: upper_digit (byte_val b mod 16) :: hex_bytes l).
  destruct (hex_byte_digits b) as (H1 & H2 & H3). cbn [hex_DecodeString].
  destruct (upper_digit_spec _ H1) as (-> & -> & _), (upper_digit_spec _ H2) as (-> & -> & _).
  rewrite IH, H3, byte_of_val. done.
Qed.

Lemma hex_bytes_digits l : Forall (fun b => is_hex_digit b = true /\ is_graphic b = true) (hex_bytes l).
Proof.
  induction l as [|b l IH]; [constructor|]. destruct (hex_byte_digits b) as (H1 & H2 & _).
  destruct (upper_digit_spec _ H1) as (? & _ & ?), (upper_digit_spec _ H2) as (? & _ & ?).
  by do 2 (constructor; [done|]).
Qed.

Lemma digits_value_hex l : digits_value 16 (hex_bytes l) = be_uint l.
Proof.
  assert (G : forall acc, foldl (fun acc b => acc * 16 + digit_value b) acc (hex_bytes l) =
    acc * 256 ^ Z.of_nat (length l) + be_uint l).
  { induction l as [|b l IH]; intros acc; [simpl; unfold be_uint; simpl; lia|].
    change (hex_bytes (b :: l)) with
      (upper_digit (byte_val b / 16) :: upper_digit (byte_val b mod 16) :: hex_bytes l).
    destruct (hex_byte_digits b) as (H1 & H2 & H3). cbn [foldl].
    destruct (upper_digit_spec _ H1) as (_ & -> & _), (upper_digit_spec _ H2) as (_ & -> & _).
    rewrite IH. change (b :: l) with ([b] ++ l). rewrite be_uint_app, length_app, Nat2Z.inj_add.
    rewrite Z.pow_add_r by lia. change (256 ^ Z.of_nat (length [b])) with 256. change (be_uint [b]) with (byte_val b + 256 * 0). nia. }
  unfold digits_value. rewrite G. lia.
Qed.

Lemma ParseUint16_bytes l n :
  length l = n -> (0 < n)%nat -> ParseUint16 (8 * Z.of_nat n) (hex_bytes l) = Some (be_uint l).
Proof.
  intros Hl Hn. unfold ParseUint16. destruct l as [|b l]; [simpl in *; lia|].
  rewrite (proj2 (forallb_forall _ _)).
  - rewrite digits_value_hex. cbn [length hex_bytes flat_map hex_byte app Nat.eqb orb negb].
    pose proof (be_uint_range (b :: l)) as R. rewrite Hl in R.
    rewrite Z.pow_mul_r by lia. change (2 ^ 8) with 256.
    by rewrite (proj2 (Z.ltb_lt _ _)) by lia.
  - intros x Hx. pose proof (hex_bytes_digits (b :: l)) as F. rewrite List.Forall_forall in F. by apply F.
Qed.

(** *** Decimal texts *)

Lemma pretty_N_go_digits n s :
  Forall (fun b => is_decimal_digit b = true) (bytes_of_string s) ->
  Forall (fun b => is_decimal_digit b = true) (bytes_of_string (pretty_N_go n s)).
Proof.
  revert s. induction (N.lt_wf_0 n) as [n _ IH]; intros s Hs.
  destruct (decide (n = 0)%N) as [->|Hn]; [by rewrite pretty_N_go_0|].
  rewrite pretty_N_go_step by lia. apply IH; [apply N.div_lt; lia|]. cbn [bytes_of_string].
  apply Forall_cons. split; [|done]. unfold pretty_N_char.
  assert (n mod 10 < 10)%N by (apply N.mod_lt; lia). by repeat case_match.
Qed.

Lemma decimal_digits n : Forall (fun b => is_decimal_digit b = true) (bytes_of_string (decimal n)).
Proof.
  unfold decimal, pretty, pretty_N. case_decide; [by repeat constructor|]. apply pretty_N_go_digits. constructor.
Qed.
