(* ===== verification/Flow.v ===== *)
(** * internal/flow: endpoints, identities, observations and distributions

    The records of window.go, pod.go and stats.go. A pointer field is an
    [option]; a uintN field is the integer it denotes. *)

From S2P Require Import Prelude.

#[local] Open Scope Z_scope.

(** ** Data *)

Record Endpoint := mkEndpoint {
  ep_Address : string;
  ep_Port : Z
}.

Record ResolvedEndpoint := mkResolvedEndpoint {
  re_Address : string;
  re_Port : Z;
  re_Via : string
}.

Record Process := mkProcess {
  pr_PID : Z;
  pr_StartTimeTicks : Z;
  pr_Comm : string;
  pr_Cmdline : string;
  pr_ContainerID : string;
  pr_Via : string
}.

Record Pod := mkPod {
  pod_UID : string;
  pod_Namespace : string;
  pod_Name : string
}.

Record FlowKey := mkFlowKey {
  fk_NodeName : string;
  fk_Protocol : string;
  fk_Direction : string;
  fk_Source : Endpoint;
  fk_Destination : Endpoint
}.

Record Distribution := mkDistribution {
  Count : Z;
  SumMicros : Z;
  MinMicros : Z;
  MaxMicros : Z
}.

Record Observation := mkObservation {
  ob_SourcePod : option Pod;
  ob_DestinationPod : option Pod;
  ob_ObserverPod : option Pod;
  ob_ObservedAt : Time;
  ob_KernelTimestampNS : Z;
  ob_Flow : FlowKey;
  ob_SourceResolved : option ResolvedEndpoint;
  ob_DestinationResolved : option ResolvedEndpoint;
  ob_Process : option Process;
  ob_BytesTx : Z;
  ob_BytesRx : Z;
  ob_PacketsTx : Z;
  ob_PacketsRx : Z;
  ob_Retransmissions : Z;
  ob_Losses : Z;
  ob_RTT : Distribution;
  ob_Jitter : Distribution
}.

Record Window := mkWindow {
  wi_SourcePod : option Pod;
  wi_DestinationPod : option Pod;
  wi_ObserverPod : option Pod;
  wi_SchemaVersion : string;
  wi_Partial : bool;
  wi_WindowStart : Time;
  wi_WindowEnd : Time;
  wi_LastObservedAt : Time;
  wi_Flow : FlowKey;
  wi_SourceResolved : option ResolvedEndpoint;
  wi_DestinationResolved : option ResolvedEndpoint;
  wi_Process : option Process;
  wi_BytesTx : Z;
  wi_ObservationCount : Z;
  wi_BytesRx : Z;
  wi_PacketsTx : Z;
  wi_PacketsRx : Z;
  wi_Retransmissions : Z;
  wi_Losses : Z;
  wi_RTT : Distribution;
  wi_Jitter : Distribution
}.

Definition SchemaVersion : string := "network.flow/v1alpha1".

Definition zeroDistribution : Distribution := mkDistribution 0 0 0 0.
Definition zeroEndpoint : Endpoint := mkEndpoint "" 0.
Definition zeroPod : Pod := mkPod "" "" "".
Definition zeroResolvedEndpoint : ResolvedEndpoint := mkResolvedEndpoint "" 0 "".
Definition zeroProcess : Process := mkProcess 0 0 "" "" "" "".

(** The copy every consumer takes of a process: the command line is dropped. *)
Definition without_cmdline (p : Process) : Process :=
  mkProcess (pr_PID p) (pr_StartTimeTicks p) (pr_Comm p) "" (pr_ContainerID p) (pr_Via p).

(** *** Go's == on these structs, and their use as map keys *)

#[export] Instance Endpoint_eq_dec : EqDecision Endpoint.
Proof. solve_decision. Defined.

#[export] Instance ResolvedEndpoint_eq_dec : EqDecision ResolvedEndpoint.
Proof. solve_decision. Defined.

#[export] Instance Process_eq_dec : EqDecision Process.
Proof. solve_decision. Defined.

#[export] Instance Pod_eq_dec : EqDecision Pod.
Proof. solve_decision. Defined.

#[export] Instance FlowKey_eq_dec : EqDecision FlowKey.
Proof. solve_decision. Defined.

#[export] Instance Distribution_eq_dec : EqDecision Distribution.
Proof. solve_decision. Defined.

#[export] Instance Window_eq_dec : EqDecision Window.
Proof. solve_decision. Defined.

#[export] Instance Endpoint_countable : Countable Endpoint.
Proof.
  refine (inj_countable' (fun e => (ep_Address e, ep_Port e))
    (fun t => mkEndpoint t.1 t.2) _).
  by intros [].
Defined.

#[export] Instance ResolvedEndpoint_countable : Countable ResolvedEndpoint.
Proof.
  refine (inj_countable' (fun e => (re_Address e, re_Port e, re_Via e))
    (fun t => mkResolvedEndpoint t.1.1 t.1.2 t.2) _).
  by intros [].
Defined.

#[export] Instance Process_countable : Countable Process.
Proof.
  refine (inj_countable'
    (fun p => (pr_PID p, pr_StartTimeTicks p, pr_Comm p, pr_Cmdline p, pr_ContainerID p, pr_Via p))
    (fun '(a, b, c, d, e, f) => mkProcess a b c d e f) _).
  by intros [].
Defined.

#[export] Instance Pod_countable : Countable Pod.
Proof.
  refine (inj_countable' (fun p => (pod_UID p, pod_Namespace p, pod_Name p))
    (fun t => mkPod t.1.1 t.1.2 t.2) _).
  by intros [].
Defined.

#[export] Instance FlowKey_countable : Countable FlowKey.
Proof.
  refine (inj_countable'
    (fun k => (fk_NodeName k, fk_Protocol k, fk_Direction k, fk_Source k, fk_Destination k))
    (fun '(a, b, c, d, e) => mkFlowKey a b c d e) _).
  by intros [].
Defined.

(** *** Distribution *)

(** Distribution.MeanMicros *)
Definition MeanMicros (d : Distribution) : Z :=
  if Count d =? 0 then 0 else SumMicros d / Count d.

(** Distribution.Merge *)
Definition Merge (d other : Distribution) : Distribution :=
  if Count d =? 0 then other
  else if Count other =? 0 then d
  else mkDistribution
         (u64 (Count d + Count other))
         (u64 (SumMicros d + SumMicros other))
         (if MinMicros other <? MinMicros d then MinMicros other else MinMicros d)
         (if MaxMicros d <? MaxMicros other then MaxMicros other else MaxMicros d).

(** *** Pointer comparisons of the window order *)

(** compareResolved *)
#[export] Instance compare_ResolvedEndpoint : GoCompare ResolvedEndpoint :=
  fun l r => cmp_Or [gocmp (re_Address l) (re_Address r); gocmp (re_Port l) (re_Port r);
                     gocmp (re_Via l) (re_Via r)].

Definition compareResolved (l r : option ResolvedEndpoint) : Z := gocmp l r.

(** compareProcess: the command line is not compared. *)
#[export] Instance compare_Process : GoCompare Process :=
  fun l r => cmp_Or [gocmp (pr_PID l) (pr_PID r); gocmp (pr_StartTimeTicks l) (pr_StartTimeTicks r);
                     gocmp (pr_ContainerID l) (pr_ContainerID r); gocmp (pr_Via l) (pr_Via r);
                     gocmp (pr_Comm l) (pr_Comm r)].

Definition compareProcess (l r : option Process) : Z := gocmp l r.

(** comparePod *)
#[export] Instance compare_Pod : GoCompare Pod :=
  fun l r => cmp_Or [gocmp (pod_UID l) (pod_UID r); gocmp (pod_Namespace l) (pod_Namespace r);
                     gocmp (pod_Name l) (pod_Name r)].

Definition comparePod (l r : option Pod) : Z := gocmp l r.

(** *** Specification: the distribution of a list of samples *)

(** The least and the greatest sample of a nonempty list. *)
Definition sample_min (x : Z) (l : list Z) : Z := foldr Z.min x l.
Definition sample_max (x : Z) (l : list Z) : Z := foldr Z.max x l.
Definition sample_sum (l : list Z) : Z := foldr Z.add 0 l.

Definition of_samples (l : list Z) : Distribution :=
  match l with
  | [] => zeroDistribution
  | x :: l' => mkDistribution (Z.of_nat (length l)) (u64 (sample_sum l))
                 (sample_min x l') (sample_max x l')
  end.

(** A distribution as the collector builds it: an empty one is all zero. *)
Definition dist_wf (d : Distribution) : Prop :=
  0 <= Count d /\ 0 <= SumMicros d < 2 ^ 64 /\ (Count d = 0 -> d = zeroDistribution).

(** ** Lemmas *)

Lemma Merge_count d e :
  0 <= Count d -> 0 <= Count e -> Count d + Count e < 2 ^ 64 ->
  Count (Merge d e) = Count d + Count e.
Proof.
  intros ???. unfold Merge.
  destruct (Z.eqb_spec (Count d) 0); [lia|]. destruct (Z.eqb_spec (Count e) 0); [lia|].
  apply uint_small. lia.
Qed.

Lemma Merge_wf d e :
  dist_wf d -> dist_wf e -> Count d + Count e < 2 ^ 64 -> dist_wf (Merge d e).
Proof.
  intros Hd He Hlt. unfold Merge.
  destruct (Z.eqb_spec (Count d) 0); [done|]. destruct (Z.eqb_spec (Count e) 0); [done|].
  destruct Hd as (? & ? & _), He as (? & ? & _). unfold dist_wf; simpl.
  pose proof (uint_range 64 (SumMicros d + SumMicros e)).
  rewrite !(uint_small 64 (Count d + Count e)) by lia.
  split; [lia|]. split; [lia|]. lia.
Qed.

Lemma if_min x y : (if y <? x then y else x) = Z.min x y.
Proof. destruct (Z.ltb_spec y x); lia. Qed.

Lemma if_max x y : (if x <? y then y else x) = Z.max x y.
Proof. destruct (Z.ltb_spec x y); lia. Qed.

(** Two merges commute as long as no count wraps. *)
Lemma Merge_swap d a b :
  dist_wf d -> dist_wf a -> dist_wf b -> Count d + Count a + Count b < 2 ^ 64 ->
  Merge (Merge d a) b = Merge (Merge d b) a.
Proof.
  intros (Hd & Hds & Hd0) (Ha & Has & Ha0) (Hb & Hbs & Hb0) Hlt. unfold Merge.
  destruct (Z.eqb_spec (Count d) 0) as [Ed|Ed]; [|
    destruct (Z.eqb_spec (Count a) 0) as [Ea|Ea], (Z.eqb_spec (Count b) 0) as [Eb|Eb]; simpl].
  - destruct (Z.eqb_spec (Count a) 0) as [Ea|Ea], (Z.eqb_spec (Count b) 0) as [Eb|Eb]; try done.
    + by rewrite (Ha0 Ea), (Hb0 Eb).
    + rewrite (Z.add_comm (Count b)), (Z.add_comm (SumMicros b)). f_equal.
      * destruct (Z.ltb_spec (MinMicros b) (MinMicros a)), (Z.ltb_spec (MinMicros a) (MinMicros b)); lia.
      * destruct (Z.ltb_spec (MaxMicros b) (MaxMicros a)), (Z.ltb_spec (MaxMicros a) (MaxMicros b)); lia.
  - rewrite (proj2 (Z.eqb_neq _ _) Ed). done.
  - rewrite (proj2 (Z.eqb_neq _ _) Ed), (uint_small 64 (Count d + Count b)) by lia.
    rewrite (proj2 (Z.eqb_neq (Count d + Count b) 0)) by lia. done.
  - rewrite (proj2 (Z.eqb_neq _ _) Ed), (uint_small 64 (Count d + Count a)) by lia.
    rewrite (proj2 (Z.eqb_neq (Count d + Count a) 0)) by lia. done.
  - rewrite !(uint_small 64 (Count d + _)) by lia.
    rewrite (proj2 (Z.eqb_neq (Count d + Count a) 0)), (proj2 (Z.eqb_neq (Count d + Count b) 0)) by lia.
    autorewrite with akn. f_equal.
    + f_equal. lia.
    + f_equal. lia.
    + rewrite !if_min. lia.
    + rewrite !if_max. lia.
Qed.

Lemma sample_min_le x l : sample_min x l <= x /\ Forall (fun y => sample_min x l <= y) l.
Proof.
  induction l as [|y l [IH1 IH2]]; simpl; [split; [lia|constructor]|].
  split; [lia|]. constructor; [lia|].
  eapply Forall_impl; [exact IH2|]. simpl. lia.
Qed.

Lemma sample_max_ge x l : x <= sample_max x l /\ Forall (fun y => y <= sample_max x l) l.
Proof.
  induction l as [|y l [IH1 IH2]]; simpl; [split; [lia|constructor]|].
  split; [lia|]. constructor; [lia|].
  eapply Forall_impl; [exact IH2|]. simpl. lia.
Qed.

Lemma sample_min_app x l y l' :
  sample_min x (l ++ y :: l') = Z.min (sample_min x l) (sample_min y l').
Proof.
  unfold sample_min. induction l as [|z l IH]; simpl; [|rewrite IH; lia].
  revert x. induction l' as [|z l' IH]; intros x; simpl; [lia|]. specialize (IH x). lia.
Qed.

Lemma sample_max_app x l y l' :
  sample_max x (l ++ y :: l') = Z.max (sample_max x l) (sample_max y l').
Proof.
  unfold sample_max. induction l as [|z l IH]; simpl; [|rewrite IH; lia].
  revert x. induction l' as [|z l' IH]; intros x; simpl; [lia|]. specialize (IH x). lia.
Qed.

Lemma sample_sum_app l l' : sample_sum (l ++ l') = sample_sum l + sample_sum l'.
Proof. induction l as [|z l IH]; simpl; [done|]. unfold sample_sum in *. simpl. lia. Qed.

(** ** Properties *)

(** Merging the distributions of two sample lists gives the distribution
    of all the samples, so a count/sum/min/max state never depends on how the
    samples were grouped or in which order they arrived; only the sum is taken
    modulo 2^64. *)
Theorem merge_summarises (l1 l2 : list Z)
  (Hcount : Z.of_nat (length l1 + length l2) < 2 ^ 64) :
  Merge (of_samples l1) (of_samples l2) = of_samples (l1 ++ l2).
Proof.
  destruct l1 as [|x l1]; [by destruct l2|].
  destruct l2 as [|y l2]; [by rewrite app_nil_r|].
  unfold Merge. rewrite !(proj2 (Z.eqb_neq _ 0)) by (simpl; lia).
  rewrite <- app_comm_cons. unfold of_samples.
  cbn [Count SumMicros MinMicros MaxMicros]. f_equal.
  - cbn [length] in *. rewrite length_app. cbn [length]. rewrite uint_small by lia. lia.
  - autorewrite with akn. rewrite app_comm_cons, sample_sum_app. done.
  - rewrite sample_min_app. destruct (Z.ltb_spec (sample_min y l2) (sample_min x l1)); lia.
  - rewrite sample_max_app. destruct (Z.ltb_spec (sample_max x l1) (sample_max y l2)); lia.
Qed.

Lemma merge_summarises_witness :
  Merge (of_samples [30; 10]) (of_samples [20]) = mkDistribution 3 60 10 30.
Proof. apply (merge_summarises [30; 10] [20]). simpl. lia. Defined.
