(* ===== verification/Window.v ===== *)
(** * internal/flow/window.go: aggregation keys, windows and Aggregate

    A window is the fold of [Window_add] over the observations of one
    aggregation key; Aggregate emits the windows of a batch in the order of
    sortWindows. *)

From S2P Require Import Prelude Flow.

#[local] Open Scope Z_scope.

(** ** Definitions *)

Inductive FlowError :=
| ErrWindowSize
| ErrAllowedLateness
| ErrMaxWindows
| ErrObservationTime
| ErrLateObservation
| ErrWindowCapacity
| ErrStreamClosed.

Record aggregateKey := mkKey {
  ak_SourcePod : Pod;
  ak_DestinationPod : Pod;
  ak_ObserverPod : Pod;
  ak_Start : Time;
  ak_Flow : FlowKey;
  ak_HasSourceResolved : bool;
  ak_SourceResolved : ResolvedEndpoint;
  ak_HasDestinationResolved : bool;
  ak_DestinationResolved : ResolvedEndpoint;
  ak_HasProcess : bool;
  ak_Process : Process
}.

#[export] Instance aggregateKey_eq_dec : EqDecision aggregateKey.
Proof. solve_decision. Defined.

#[export] Instance aggregateKey_countable : Countable aggregateKey.
Proof.
  refine (inj_countable'
    (fun k => (ak_SourcePod k, ak_DestinationPod k, ak_ObserverPod k, ak_Start k, ak_Flow k,
               ak_HasSourceResolved k, ak_SourceResolved k, ak_HasDestinationResolved k,
               ak_DestinationResolved k, ak_HasProcess k, ak_Process k))
    (fun '(a, b, c, d, e, f, g, h, i, j, l) => mkKey a b c d e f g h i j l) _).
  by intros [].
Defined.

Definition is_present {A} (o : option A) : bool :=
  match o with Some _ => true | None => false end.

(** keyFor *)
Definition keyFor (observation : Observation) (windowSize : Duration) : aggregateKey :=
  mkKey
    (default zeroPod (ob_SourcePod observation))
    (default zeroPod (ob_DestinationPod observation))
    (default zeroPod (ob_ObserverPod observation))
    (time_Truncate (ob_ObservedAt observation) windowSize)
    (ob_Flow observation)
    (is_present (ob_SourceResolved observation))
    (default zeroResolvedEndpoint (ob_SourceResolved observation))
    (is_present (ob_DestinationResolved observation))
    (default zeroResolvedEndpoint (ob_DestinationResolved observation))
    (is_present (ob_Process observation))
    (match ob_Process observation with
     | Some p => without_cmdline p
     | None => zeroProcess
     end).

(** A pod of the key is kept when it has a UID. *)
Definition known_pod (p : Pod) : option Pod :=
  if bool_decide (pod_UID p = ""%string) then None else Some p.

(** aggregateKey.newWindow *)
Definition newWindow (key : aggregateKey) (windowSize : Duration) : Window :=
  mkWindow
    (known_pod (ak_SourcePod key)) (known_pod (ak_DestinationPod key))
    (known_pod (ak_ObserverPod key))
    SchemaVersion false (ak_Start key) (time_Add (ak_Start key) windowSize) 0 (ak_Flow key)
    (if ak_HasSourceResolved key then Some (ak_SourceResolved key) else None)
    (if ak_HasDestinationResolved key then Some (ak_DestinationResolved key) else None)
    (if ak_HasProcess key then Some (ak_Process key) else None)
    0 0 0 0 0 0 0 zeroDistribution zeroDistribution.

(** Window.add *)
Definition Window_add (window : Window) (observation : Observation) : Window :=
  mkWindow
    (wi_SourcePod window) (wi_DestinationPod window) (wi_ObserverPod window)
    (wi_SchemaVersion window) (wi_Partial window)
    (wi_WindowStart window) (wi_WindowEnd window)
    (if time_IsZero (wi_LastObservedAt window)
        || time_After (ob_ObservedAt observation) (wi_LastObservedAt window)
     then ob_ObservedAt observation else wi_LastObservedAt window)
    (wi_Flow window) (wi_SourceResolved window) (wi_DestinationResolved window)
    (wi_Process window)
    (u64 (wi_BytesTx window + ob_BytesTx observation))
    (u64 (wi_ObservationCount window + 1))
    (u64 (wi_BytesRx window + ob_BytesRx observation))
    (u64 (wi_PacketsTx window + ob_PacketsTx observation))
    (u64 (wi_PacketsRx window + ob_PacketsRx observation))
    (u64 (wi_Retransmissions window + ob_Retransmissions observation))
    (u64 (wi_Losses window + ob_Losses observation))
    (Merge (wi_RTT window) (ob_RTT observation))
    (Merge (wi_Jitter window) (ob_Jitter observation)).

(** The comparison closure of sortWindows *)
Definition window_less (left right : Window) : bool :=
  let lf := wi_Flow left in
  let rf := wi_Flow right in
  let string_less x y := gocmp x y <? 0 in
  if negb (wi_WindowStart left =? wi_WindowStart right)
  then time_Before (wi_WindowStart left) (wi_WindowStart right)
  else if bool_decide (fk_NodeName lf <> fk_NodeName rf)
  then string_less (fk_NodeName lf) (fk_NodeName rf)
  else if bool_decide (fk_Protocol lf <> fk_Protocol rf)
  then string_less (fk_Protocol lf) (fk_Protocol rf)
  else if bool_decide (fk_Direction lf <> fk_Direction rf)
  then string_less (fk_Direction lf) (fk_Direction rf)
  else if bool_decide (ep_Address (fk_Source lf) <> ep_Address (fk_Source rf))
  then string_less (ep_Address (fk_Source lf)) (ep_Address (fk_Source rf))
  else if negb (ep_Port (fk_Source lf) =? ep_Port (fk_Source rf))
  then ep_Port (fk_Source lf) <? ep_Port (fk_Source rf)
  else if bool_decide (ep_Address (fk_Destination lf) <> ep_Address (fk_Destination rf))
  then string_less (ep_Address (fk_Destination lf)) (ep_Address (fk_Destination rf))
  else cmp_Or [gocmp (ep_Port (fk_Destination lf)) (ep_Port (fk_Destination rf));
               compareResolved (wi_SourceResolved left) (wi_SourceResolved right);
               compareResolved (wi_DestinationResolved left) (wi_DestinationResolved right);
               compareProcess (wi_Process left) (wi_Process right);
               comparePod (wi_SourcePod left) (wi_SourcePod right);
               comparePod (wi_DestinationPod left) (wi_DestinationPod right);
               comparePod (wi_ObserverPod left) (wi_ObserverPod right)] <? 0.

(** sortWindows *)
Definition sortWindows (windows : list Window) : list Window := sort_Slice window_less windows.

(** One iteration of Aggregate's loop, after the time check *)
Definition aggregate_step (windowSize : Duration) (byKey : gmap aggregateKey Window)
  (observation : Observation) : gmap aggregateKey Window :=
  let key := keyFor observation windowSize in
  let window := match byKey !! key with
                | Some window => window
                | None => newWindow key windowSize
                end in
  <[key := Window_add window observation]> byKey.

Fixpoint aggregate_loop (windowSize : Duration) (byKey : gmap aggregateKey Window)
  (observations : list Observation) : result FlowError (gmap aggregateKey Window) :=
  match observations with
  | [] => Ok byKey
  | observation :: rest =>
      if time_IsZero (ob_ObservedAt observation) then Err ErrObservationTime
      else aggregate_loop windowSize (aggregate_step windowSize byKey observation) rest
  end.

(** Aggregate *)
Definition Aggregate {R : MapRange aggregateKey Window} (observations : list Observation)
  (windowSize : Duration) : result FlowError (list Window) :=
  if windowSize <=? 0 then Err ErrWindowSize
  else match aggregate_loop windowSize ∅ observations with
       | Err e => Err e
       | Ok byKey => Ok (sortWindows (map_range byKey).*2)
       end.

(** *** Specification *)

(** The sort key window_less compares, field by field. *)
Definition process_key (p : Process) : Z * (Z * (string * (string * string))) :=
  (pr_PID p, (pr_StartTimeTicks p, (pr_ContainerID p, (pr_Via p, pr_Comm p)))).

Definition resolved_key (r : ResolvedEndpoint) : string * (Z * string) :=
  (re_Address r, (re_Port r, re_Via r)).

Definition pod_key (p : Pod) : string * (string * string) :=
  (pod_UID p, (pod_Namespace p, pod_Name p)).

Definition window_key (w : Window) :=
  let f := wi_Flow w in
  (wi_WindowStart w, (fk_NodeName f, (fk_Protocol f, (fk_Direction f,
  (ep_Address (fk_Source f), (ep_Port (fk_Source f),
  (ep_Address (fk_Destination f), (ep_Port (fk_Destination f),
  (resolved_key <$> wi_SourceResolved w, (resolved_key <$> wi_DestinationResolved w,
  (process_key <$> wi_Process w,
  (pod_key <$> wi_SourcePod w, (pod_key <$> wi_DestinationPod w,
   pod_key <$> wi_ObserverPod w))))))))))))).

(** A pod without a UID carries nothing else. *)
Definition pod_wf (p : Pod) : Prop := pod_UID p = ""%string -> p = zeroPod.

Definition samples_wf (o : Observation) : Prop := dist_wf (ob_RTT o) /\ dist_wf (ob_Jitter o).

Definition observation_wf (o : Observation) : Prop :=
  pod_wf (default zeroPod (ob_SourcePod o)) /\
  pod_wf (default zeroPod (ob_DestinationPod o)) /\
  pod_wf (default zeroPod (ob_ObserverPod o)) /\
  samples_wf o.

(** The samples a batch carries, for the bound under which no count wraps. *)
Definition rtt_total (l : list Observation) : Z := foldr (fun o n => Count (ob_RTT o) + n) 0 l.
Definition jitter_total (l : list Observation) : Z :=
  foldr (fun o n => Count (ob_Jitter o) + n) 0 l.


Definition batch_ok (l : list Observation) : Prop :=
  Forall observation_wf l /\ rtt_total l < 2 ^ 64 /\ jitter_total l < 2 ^ 64.


(** The observations of one key, and the window they make. *)
Definition key_group (windowSize : Duration) (k : aggregateKey) (l : list Observation) :
  list Observation := filter (fun o => keyFor o windowSize = k) l.

Definition group_window (windowSize : Duration) (k : aggregateKey) (l : list Observation) :
  Window := foldl Window_add (newWindow k windowSize) (key_group windowSize k l).

Definition total_observations (l : list Window) : Z :=
  foldr (fun w n => wi_ObservationCount w + n) 0 l.


Definition nonzero_times (l : list Observation) : Prop :=
  Forall (fun o => time_IsZero (ob_ObservedAt o) = false) l.

#[export] Instance nonzero_times_dec l : Decision (nonzero_times l).
Proof. unfold nonzero_times. apply _. Defined.

(** The map the loop builds from observations that all have a time. *)
Definition aggregate_map (ws : Duration) (l : list Observation) : gmap aggregateKey Window :=
  foldl (aggregate_step ws) ∅ l.

(** A key as keyFor builds it, for canonical pods. *)
Definition key_wf (k : aggregateKey) : Prop :=
  pod_wf (ak_SourcePod k) /\ pod_wf (ak_DestinationPod k) /\ pod_wf (ak_ObserverPod k) /\
  (ak_HasSourceResolved k = false -> ak_SourceResolved k = zeroResolvedEndpoint) /\
  (ak_HasDestinationResolved k = false -> ak_DestinationResolved k = zeroResolvedEndpoint) /\
  (ak_HasProcess k = false -> ak_Process k = zeroProcess) /\
  pr_Cmdline (ak_Process k) = ""%string.

(** ** Lemmas *)

(** *** The window order *)











(** *** Keys and identities *)

Lemma window_key_add w o : window_key (Window_add w o) = window_key w.
Proof. reflexivity. Qed.

Lemma window_key_fold w l : window_key (foldl Window_add w l) = window_key w.
Proof. revert w. induction l as [|o l IH]; intros w; simpl; [done|]. by rewrite IH. Qed.

Lemma keyFor_wf o ws : observation_wf o -> key_wf (keyFor o ws).
Proof.
  intros (H1 & H2 & H3 & _). unfold key_wf, keyFor; simpl. split_and!; try done.
  - by destruct (ob_SourceResolved o).
  - by destruct (ob_DestinationResolved o).
  - by destruct (ob_Process o).
  - by destruct (ob_Process o).
Qed.

Lemma known_pod_inj p q :
  pod_wf p -> pod_wf q -> pod_key <$> known_pod p = pod_key <$> known_pod q -> p = q.
Proof.
  unfold pod_wf, known_pod. intros Hp Hq.
  case_bool_decide as Ep; case_bool_decide as Eq; simpl; try done.
  - by rewrite Hp, Hq.
  - destruct p, q. unfold pod_key. simpl. congruence.
Qed.

(** Distinct canonical keys make windows that sort apart. *)
Lemma newWindow_key_inj ws k k' :
  key_wf k -> key_wf k' ->
  window_key (newWindow k ws) = window_key (newWindow k' ws) -> k = k'.
Proof.
  intros (Hs & Hd & Ho & Hsr & Hdr & Hp & Hc) (Hs' & Hd' & Ho' & Hsr' & Hdr' & Hp' & Hc').
  destruct k as [a b c t f hs rs hd rd hp p], k' as [a' b' c' t' f' hs' rs' hd' rd' hp' p'].
  unfold window_key, newWindow; simpl in *. intros E.
  injection E as -> E1 E2 E3 E4 E5 E6 E7 E8 E9 E10 E11 E12 E13.
  apply known_pod_inj in E11, E12, E13; [|done..]. subst.
  assert (f = f') as ->.
  { destruct f as [? ? ? [] []], f' as [? ? ? [] []]; simpl in *. congruence. }
  assert (hs = hs' /\ rs = rs') as [-> ->].
  { destruct hs, hs'; simpl in *; try done; [|by rewrite Hsr, Hsr'].
    destruct rs, rs'. unfold resolved_key in E8. simpl in E8. split; congruence. }
  assert (hd = hd' /\ rd = rd') as [-> ->].
  { destruct hd, hd'; simpl in *; try done; [|by rewrite Hdr, Hdr'].
    destruct rd, rd'. unfold resolved_key in E9. simpl in E9. split; congruence. }
  assert (hp = hp' /\ p = p') as [-> ->].
  { destruct hp, hp'; simpl in *; try done; [|by rewrite Hp, Hp'].
    destruct p, p'. unfold process_key in E10. simpl in *. split; congruence. }
  done.
Qed.

(** *** Window.add accumulates in any order *)








(** *** The map Aggregate builds *)

Lemma aggregate_loop_Ok ws m l :
  nonzero_times l -> aggregate_loop ws m l = Ok (foldl (aggregate_step ws) m l).
Proof.
  intros H. revert m. induction H as [|o l E H IH]; intros m; simpl; [done|].
  by rewrite E.
Qed.

Lemma aggregate_loop_Err ws m l :
  ~ nonzero_times l -> aggregate_loop ws m l = Err ErrObservationTime.
Proof.
  revert m. induction l as [|o l IH]; intros m H; simpl.
  { destruct H. constructor. }
  destruct (time_IsZero (ob_ObservedAt o)) eqn:E; [done|].
  apply IH. intros Hl. apply H. by constructor.
Qed.

Lemma aggregate_step_lookup ws m o k :
  aggregate_step ws m o !! k =
    if decide (keyFor o ws = k)
    then Some (Window_add (default (newWindow k ws) (m !! k)) o) else m !! k.
Proof.
  unfold aggregate_step. rewrite lookup_insert. case_decide as E; [|done].
  rewrite E. by destruct (m !! k).
Qed.

Lemma foldl_aggregate_lookup ws m l k :
  foldl (aggregate_step ws) m l !! k =
    match key_group ws k l with
    | [] => m !! k
    | g => Some (foldl Window_add (default (newWindow k ws) (m !! k)) g)
    end.
Proof.
  revert m. induction l as [|o l IH]; intros m; simpl; [done|].
  rewrite IH, aggregate_step_lookup. unfold key_group. rewrite filter_cons.
  destruct (decide (keyFor o ws = k)); [|done].
  simpl. by destruct (filter _ l).
Qed.

Lemma aggregate_map_lookup ws l k :
  aggregate_map ws l !! k =
    match key_group ws k l with [] => None | _ => Some (group_window ws k l) end.
Proof.
  unfold aggregate_map. rewrite foldl_aggregate_lookup, lookup_empty. simpl.
  unfold group_window. by destruct (key_group ws k l).
Qed.

Lemma key_group_nonempty ws k l :
  key_group ws k l <> [] <-> exists o, o ∈ l /\ keyFor o ws = k.
Proof.
  split.
  - destruct (key_group ws k l) as [|o g] eqn:E; [done|]. intros _. exists o.
    assert (Ho : o ∈ key_group ws k l) by (rewrite E; by left).
    by apply list_elem_of_filter in Ho as [??].
  - intros (o & Ho & Hk) E.
    assert (H : o ∈ key_group ws k l) by (by apply list_elem_of_filter).
    rewrite E in H. by apply elem_of_nil in H.
Qed.

Lemma aggregate_map_Some ws l k w :
  aggregate_map ws l !! k = Some w <->
    (exists o, o ∈ l /\ keyFor o ws = k) /\ w = group_window ws k l.
Proof.
  rewrite aggregate_map_lookup, <- key_group_nonempty.
  destruct (key_group ws k l); split; intros; destruct_and?; simplify_eq; done.
Qed.




(** Every entry is stored under the key of its identity. *)
Lemma aggregate_map_key ws l k w :
  aggregate_map ws l !! k = Some w -> window_key w = window_key (newWindow k ws).
Proof. intros [_ ->]%aggregate_map_Some. apply window_key_fold. Qed.

Lemma batch_keys_wf ws l k w :
  Forall observation_wf l -> aggregate_map ws l !! k = Some w -> key_wf k.
Proof.
  intros Hwf [(o & Ho & <-) _]%aggregate_map_Some. apply keyFor_wf.
  by eapply Forall_forall in Hwf.
Qed.

(** Windows of one map never compare equal. *)
Lemma aggregate_map_apart ws l k k' w w' :
  Forall observation_wf l ->
  aggregate_map ws l !! k = Some w -> aggregate_map ws l !! k' = Some w' ->
  window_key w = window_key w' -> k = k' /\ w = w'.
Proof.
  intros Hwf Hk Hk' E.
  rewrite (aggregate_map_key _ _ _ _ Hk), (aggregate_map_key _ _ _ _ Hk') in E.
  assert (k = k') as <-.
  { by eapply newWindow_key_inj; [eapply batch_keys_wf..|exact E]. }
  split; [done|]. congruence.
Qed.

Lemma elem_of_map_values {R : MapRange aggregateKey Window} (m : gmap aggregateKey Window) w :
  w ∈ (map_range m).*2 <-> exists k, m !! k = Some w.
Proof.
  rewrite list_elem_of_fmap. split.
  - intros ([k w'] & -> & Hk). exists k. by apply elem_of_map_range.
  - intros [k Hk]. exists (k, w). split; [done|]. by apply elem_of_map_range.
Qed.

Lemma Aggregate_Ok {R : MapRange aggregateKey Window} l ws windows :
  Aggregate l ws = Ok windows ->
  0 < ws /\ nonzero_times l /\ windows = sortWindows (map_range (aggregate_map ws l)).*2.
Proof.
  unfold Aggregate. destruct (Z.leb_spec ws 0); [done|].
  destruct (decide (nonzero_times l)) as [Hnz|Hnz].
  - rewrite aggregate_loop_Ok by done. by intros [= <-].
  - by rewrite aggregate_loop_Err.
Qed.


Lemma Truncate_interval t d :
  0 < d -> time_Truncate t d <= t < time_Truncate t d + d /\ (d | time_Truncate t d).
Proof.
  intros Hd. unfold time_Truncate. destruct (Z.leb_spec d 0); [lia|].
  pose proof (Z.mod_pos_bound t d Hd). split; [lia|].
  exists (t / d). pose proof (Z.div_mod t d). lia.
Qed.

Lemma foldl_add_last w l :
  nonzero_times l -> wi_LastObservedAt w <> 0 \/ l <> [] ->
  (wi_LastObservedAt (foldl Window_add w l) = wi_LastObservedAt w \/
   wi_LastObservedAt (foldl Window_add w l) ∈ ob_ObservedAt <$> l) /\
  (wi_LastObservedAt w = 0 -> wi_LastObservedAt (foldl Window_add w l) ∈ ob_ObservedAt <$> l) /\
  Forall (fun o => ob_ObservedAt o <= wi_LastObservedAt (foldl Window_add w l)) l /\
  (wi_LastObservedAt w <> 0 -> wi_LastObservedAt w <= wi_LastObservedAt (foldl Window_add w l)).
Proof.
  intros Hnz. revert w. induction Hnz as [|o l Ho Hnz IH]; intros w Hw; simpl.
  { destruct Hw; [|done]. split_and!; try done; by left || constructor. }
  unfold time_IsZero in Ho. bool_to_Z.
  set (w' := Window_add w o).
  assert (Hlast : wi_LastObservedAt w' <> 0 /\ ob_ObservedAt o <= wi_LastObservedAt w' /\
    (wi_LastObservedAt w' = wi_LastObservedAt w \/ wi_LastObservedAt w' = ob_ObservedAt o) /\
    (wi_LastObservedAt w = 0 -> wi_LastObservedAt w' = ob_ObservedAt o) /\
    (wi_LastObservedAt w <> 0 -> wi_LastObservedAt w <= wi_LastObservedAt w')).
  { unfold w', Window_add, time_IsZero, time_After; simpl.
    destruct (Z.eqb_spec (wi_LastObservedAt w) 0); simpl; [lia|].
    destruct (Z.ltb_spec (wi_LastObservedAt w) (ob_ObservedAt o)); lia. }
  destruct Hlast as (N & G & D & Z0 & M).
  destruct (IH w' (or_introl N)) as (I1 & I2 & I3 & I4).
  split_and!.
  - destruct I1 as [->|]; [|right; by right]. destruct D as [->| ->]; [by left|right; by left].
  - intros E. destruct I1 as [->|]; [|by right]. rewrite Z0 by done. by left.
  - constructor; [specialize (I4 N); lia|done].
  - intros E. specialize (I4 N). specialize (M E). lia.
Qed.

Lemma foldl_add_count w l :
  wi_ObservationCount (foldl Window_add w l) =
    u64 (wi_ObservationCount w + Z.of_nat (length l)) \/ l = [].
Proof.
  revert w. induction l as [|o l IH]; intros w; [by right|left]. cbn [foldl].
  destruct (IH (Window_add w o)) as [-> | ->].
  - cbn [wi_ObservationCount Window_add]. autorewrite with akn. f_equal. cbn [length]. lia.
  - done.
Qed.

Lemma foldl_add_start w l : wi_WindowStart (foldl Window_add w l) = wi_WindowStart w.
Proof. revert w. induction l as [|o l IH]; intros w; simpl; [done|]. by rewrite IH. Qed.

Lemma foldl_add_end w l : wi_WindowEnd (foldl Window_add w l) = wi_WindowEnd w.
Proof. revert w. induction l as [|o l IH]; intros w; simpl; [done|]. by rewrite IH. Qed.

Lemma foldl_add_partial w l : wi_Partial (foldl Window_add w l) = wi_Partial w.
Proof. revert w. induction l as [|o l IH]; intros w; simpl; [done|]. by rewrite IH. Qed.

(** The observation counts of a batch's windows add up to the batch. *)
Lemma key_groups_length ws l (ks : list aggregateKey) :
  NoDup ks -> (forall o, o ∈ l -> keyFor o ws ∈ ks) ->
  foldr (fun k n => (length (key_group ws k l) + n)%nat) 0%nat ks = length l.
Proof.
  intros Hnd. induction l as [|o l IH]; intros Hks.
  { clear. induction ks; simpl; auto. }
  assert (Ho : keyFor o ws ∈ ks) by (apply Hks; by left).
  specialize (IH (fun o' Ho' => Hks o' (list_elem_of_further _ _ _ Ho'))). simpl.
  rewrite <- IH. clear IH Hks. induction Hnd as [|k ks Hk Hnd IHks]; [by apply elem_of_nil in Ho|].
  simpl. unfold key_group at 1. rewrite filter_cons. destruct (decide (keyFor o ws = k)) as [E|E].
  - simpl. f_equal. f_equal. subst k. clear -Hk.
    induction ks as [|k ks IH]; simpl; [done|]. apply not_elem_of_cons in Hk as [Hne Hk].
    rewrite IH by done. f_equal. unfold key_group. rewrite filter_cons.
    by rewrite decide_False.
  - apply elem_of_cons in Ho as [Ho|Ho]; [done|]. rewrite IHks by done.
    unfold key_group. lia.
Qed.

(** ** Properties *)


(** Aggregate emits exactly one window for each aggregation key of the
    batch, and it is the accumulation of that key's observations alone. *)
Theorem aggregate_groups (R : MapRange aggregateKey Window) (l : list Observation)
  (ws : Duration) (windows : list Window)
  (Hbatch : batch_ok l) (HOk : Aggregate l ws = Ok windows) :
  NoDup (window_key <$> windows) /\
  forall w, w ∈ windows <->
    exists k, (exists o, o ∈ l /\ keyFor o ws = k) /\ w = group_window ws k l.
Proof.
  apply Aggregate_Ok in HOk as (Hws & Hnz & ->). unfold sortWindows. split.
  - rewrite sort_Slice_perm. rewrite <- list_fmap_compose.
    apply NoDup_fmap_2_strong; [|eapply NoDup_fmap_1, map_range_keys_NoDup].
    intros [k w] [k' w'] Hk%elem_of_map_range Hk'%elem_of_map_range E. simpl in E.
    destruct (aggregate_map_apart ws l k k' w w') as [-> ->]; try done. apply Hbatch.
  - intros w. rewrite sort_Slice_perm, elem_of_map_values.
    by setoid_rewrite aggregate_map_Some.
Qed.

(** Every emitted window is the half-open interval [start, start + size)
    on a multiple of the window size; all observations counted in it, and so
    its last observation time, lie in the interval. *)
Theorem aggregate_half_open (R : MapRange aggregateKey Window) (l : list Observation)
  (ws : Duration) (windows : list Window) (w : Window)
  (HOk : Aggregate l ws = Ok windows) (Hw : w ∈ windows) :
  (ws | wi_WindowStart w) /\ wi_WindowEnd w = wi_WindowStart w + ws /\
  wi_WindowStart w <= wi_LastObservedAt w < wi_WindowEnd w /\ wi_Partial w = false /\
  (exists k, w = group_window ws k l /\
     Forall (fun o => wi_WindowStart w <= ob_ObservedAt o <= wi_LastObservedAt w)
       (key_group ws k l)).
Proof.
  apply Aggregate_Ok in HOk as (Hws & Hnz & ->).
  unfold sortWindows in Hw. rewrite sort_Slice_perm in Hw.
  apply elem_of_map_values in Hw as [k [(o & Ho & Hk) ->]%aggregate_map_Some].
  unfold group_window. rewrite foldl_add_start, foldl_add_end, foldl_add_partial.
  cbn [newWindow wi_WindowStart wi_WindowEnd wi_Partial]. unfold time_Add.
  assert (Hin : forall o', o' ∈ key_group ws k l ->
    ak_Start k <= ob_ObservedAt o' < ak_Start k + ws).
  { intros o' [<- _]%list_elem_of_filter. by apply Truncate_interval. }
  assert (Hne : key_group ws k l <> []) by (apply key_group_nonempty; eauto).
  destruct (foldl_add_last (newWindow k ws) (key_group ws k l)) as (_ & I2 & I3 & _);
    [by apply Forall_filter_keep|by right|].
  specialize (I2 eq_refl). apply list_elem_of_fmap in I2 as (o' & E' & Ho').
  split_and!; try done.
  - rewrite <- Hk. by apply Truncate_interval.
  - rewrite E'. by apply Hin.
  - rewrite E'. by apply Hin.
  - exists k. split; [done|]. apply Forall_forall. intros o'' Ho''.
    rewrite Forall_forall in I3. split; [by apply Hin|by apply I3].
Qed.

(** No observation is lost or counted twice: the observation counts of the
    emitted windows add up to the size of the batch. *)
Theorem aggregate_conserves (R : MapRange aggregateKey Window) (l : list Observation)
  (ws : Duration) (windows : list Window)
  (Hlen : Z.of_nat (length l) < 2 ^ 64) (HOk : Aggregate l ws = Ok windows) :
  total_observations windows = Z.of_nat (length l).
Proof.
  apply Aggregate_Ok in HOk as (Hws & Hnz & ->).
  assert (Hperm : forall a b, a ≡ₚ b -> total_observations a = total_observations b).
  { unfold total_observations. induction 1; simpl; lia. }
  unfold sortWindows. rewrite (Hperm _ _ (sort_Slice_perm _ _)).
  rewrite <- (key_groups_length ws l (map_range (aggregate_map ws l)).*1).
  - assert (Hval : forall k w, (k, w) ∈ map_range (aggregate_map ws l) ->
      wi_ObservationCount w = Z.of_nat (length (key_group ws k l))).
    { intros k w [(o & Ho & Hk) ->]%elem_of_map_range%aggregate_map_Some. unfold group_window.
      destruct (foldl_add_count (newWindow k ws) (key_group ws k l)) as [-> | E].
      - simpl. apply uint_small. unfold key_group.
        pose proof (length_filter (fun o => keyFor o ws = k) l). lia.
      - by eapply key_group_nonempty in E; [|eauto]. }
    unfold total_observations.
    induction (map_range (aggregate_map ws l)) as [|[k w] r IH]; [done|].
    rewrite !fmap_cons. cbn [foldr fst snd].
    rewrite IH by (intros ?? H; apply Hval; by right).
    rewrite (Hval k w) by (by left). lia.
  - apply map_range_keys_NoDup.
  - intros o Ho. apply list_elem_of_fmap. exists (keyFor o ws, group_window ws (keyFor o ws) l).
    split; [done|]. apply elem_of_map_range, aggregate_map_Some. eauto.
Qed.

(** *** Witnesses: two observations of one flow, two seconds apart *)

Definition example_flow : FlowKey :=
  mkFlowKey "node-a" "tcp" "egress" (mkEndpoint "10.0.0.1" 40000) (mkEndpoint "10.0.0.2" 443).

Definition example_observation (at_ : Time) (rtt : Z) : Observation :=
  mkObservation (Some (mkPod "uid-1" "default" "web")) None None at_ 0 example_flow None None
    None 10 0 1 0 0 0 (of_samples [rtt]) zeroDistribution.

Definition example_t0 : Time := unix_epoch + 1700000001 * Second.
Definition example_batch : list Observation :=
  [example_observation example_t0 1200; example_observation (example_t0 + 2 * Second) 800].

Lemma example_batch_ok : batch_ok example_batch.
Proof.
  split; [|split; vm_compute; reflexivity].
  repeat constructor; try done; vm_compute; congruence.
Qed.

(** An observation of a Pod of which only the name is known *)
Definition example_unidentified (name : string) (bytes : Z) : Observation :=
  mkObservation (Some (mkPod "" "default" name)) None None example_t0 0 example_flow None None
    None bytes 0 1 0 0 0 zeroDistribution zeroDistribution.

Definition example_unidentified_batch : list Observation := [example_unidentified "a" 10; example_unidentified "b" 20].

(** Two such Pods have windows of their own, which the sort cannot tell apart:
    their order is that of the map's iteration. *)
Lemma unidentified_pods_unordered :
  @Aggregate (canonical_range _ _) example_unidentified_batch (5 * Second) <>
  @Aggregate (reversed_range _ _) example_unidentified_batch (5 * Second).
Proof. vm_compute. discriminate. Qed.


Lemma aggregate_groups_witness :
  exists windows, @Aggregate (canonical_range _ _) example_batch (5 * Second) = Ok windows /\
    NoDup (window_key <$> windows).
Proof.
  eexists. split; [vm_compute; reflexivity|].
  refine (proj1 (aggregate_groups (canonical_range _ _) example_batch (5 * Second) _ _ _)).
  - apply example_batch_ok.
  - vm_compute. reflexivity.
Defined.

Lemma aggregate_half_open_witness :
  exists w windows, @Aggregate (canonical_range _ _) example_batch (5 * Second) = Ok windows /\
    w ∈ windows /\ (5 * Second | wi_WindowStart w).
Proof.
  eexists. eexists. split; [vm_compute; reflexivity|]. split; [by left|].
  refine (proj1 (aggregate_half_open (canonical_range _ _) example_batch (5 * Second) _ _ _ _)).
  - vm_compute. reflexivity.
  - by left.
Defined.

Lemma aggregate_conserves_witness :
  exists windows, @Aggregate (canonical_range _ _) example_batch (5 * Second) = Ok windows /\
    total_observations windows = 2.
Proof.
  eexists. split; [vm_compute; reflexivity|].
  refine (aggregate_conserves (canonical_range _ _) example_batch (5 * Second) _ _ _).
  - vm_compute. reflexivity.
  - vm_compute. reflexivity.
Defined.
