(* ===== verification/Stream.v ===== *)
(** * internal/flow/stream.go: live windows

    A Stream keeps the open windows, a watermark that never goes back and the
    terminal flag. The theorems relate any run of Add and Flush, closed by
    Finish, to one Aggregate over the observations the stream accepted. *)

From S2P Require Import Prelude Flow Window.

#[local] Open Scope Z_scope.

(** ** Definitions *)

Record StreamConfig := mkStreamConfig {
  WindowSize : Duration;
  AllowedLateness : Duration;
  MaxWindows : Z
}.

Record Stream := mkStream {
  st_config : StreamConfig;
  st_windows : gmap aggregateKey Window;
  st_watermark : Time;
  st_hasWatermark : bool;
  st_finished : bool
}.

(** NewStream *)
Definition NewStream (config : StreamConfig) : result FlowError Stream :=
  if WindowSize config <=? 0 then Err ErrWindowSize
  else if AllowedLateness config <? 0 then Err ErrAllowedLateness
  else if MaxWindows config <? 0 then Err ErrMaxWindows
  else
    let config :=
      if MaxWindows config =? 0
      then mkStreamConfig (WindowSize config) (AllowedLateness config) 16384
      else config in
    Ok (mkStream config ∅ 0 false false).

(** Stream.Add returns the stream it leaves and its error, nil as [None]. *)
Definition Add (s : Stream) (observation : Observation) : Stream * option FlowError :=
  if st_finished s then (s, Some ErrStreamClosed)
  else if time_IsZero (ob_ObservedAt observation) then (s, Some ErrObservationTime)
  else
    let ws := WindowSize (st_config s) in
    let key := keyFor observation ws in
    if st_hasWatermark s && negb (time_After (time_Add (ak_Start key) ws) (st_watermark s))
    then (s, Some ErrLateObservation)
    else match st_windows s !! key with
         | Some window =>
             (mkStream (st_config s) (<[key := Window_add window observation]> (st_windows s))
                (st_watermark s) (st_hasWatermark s) (st_finished s), None)
         | None =>
             if MaxWindows (st_config s) <=? Z.of_nat (size (st_windows s))
             then (s, Some ErrWindowCapacity)
             else (mkStream (st_config s)
                     (<[key := Window_add (newWindow key ws) observation]> (st_windows s))
                     (st_watermark s) (st_hasWatermark s) (st_finished s), None)
         end.

(** The watermark Flush moves to *)
Definition next_watermark (s : Stream) (now : Time) : Time :=
  let watermark := time_Add now (- AllowedLateness (st_config s)) in
  if negb (st_hasWatermark s) || time_After watermark (st_watermark s)
  then watermark else st_watermark s.

(** Stream.Flush *)
Definition Flush {R : MapRange aggregateKey Window} (s : Stream) (now : Time) :
  Stream * list Window :=
  let watermark := next_watermark s now in
  let swept := range_sweep (fun _ window => negb (time_After (wi_WindowEnd window) watermark))
                 (st_windows s) in
  (mkStream (st_config s) swept.1 watermark true (st_finished s), sortWindows swept.2.*2).

Definition set_partial (b : bool) (w : Window) : Window :=
  mkWindow (wi_SourcePod w) (wi_DestinationPod w) (wi_ObserverPod w) (wi_SchemaVersion w) b
    (wi_WindowStart w) (wi_WindowEnd w) (wi_LastObservedAt w) (wi_Flow w) (wi_SourceResolved w)
    (wi_DestinationResolved w) (wi_Process w) (wi_BytesTx w) (wi_ObservationCount w)
    (wi_BytesRx w) (wi_PacketsTx w) (wi_PacketsRx w) (wi_Retransmissions w) (wi_Losses w)
    (wi_RTT w) (wi_Jitter w).

(** Stream.Finish *)
Definition Finish {R : MapRange aggregateKey Window} (s : Stream) (now : Time) :
  Stream * list Window :=
  if st_finished s then (s, [])
  else
    let '(s1, windows) := Flush s now in
    let swept := range_sweep (fun _ _ => true) (st_windows s1) in
    (mkStream (st_config s1) swept.1 (st_watermark s1) (st_hasWatermark s1) true,
     sortWindows (windows ++ (set_partial true <$> swept.2.*2))).

(** Stream.Len *)
Definition Len (s : Stream) : Z := Z.of_nat (size (st_windows s)).

(** *** Specification *)

Inductive operation :=
| OpAdd (o : Observation)
| OpFlush (now : Time)
| OpFinish (now : Time).

(** The stream, the windows emitted and the observations accepted so far. *)
Record history := mkHistory {
  hi_stream : Stream;
  hi_emitted : list Window;
  hi_accepted : list Observation
}.

Definition step {R : MapRange aggregateKey Window} (h : history) (op : operation) : history :=
  match op with
  | OpAdd o =>
      let '(s, e) := Add (hi_stream h) o in
      mkHistory s (hi_emitted h)
        (match e with None => hi_accepted h ++ [o] | Some _ => hi_accepted h end)
  | OpFlush now =>
      let '(s, ws) := Flush (hi_stream h) now in
      mkHistory s (hi_emitted h ++ ws) (hi_accepted h)
  | OpFinish now =>
      let '(s, ws) := Finish (hi_stream h) now in
      mkHistory s (hi_emitted h ++ ws) (hi_accepted h)
  end.

Definition run {R : MapRange aggregateKey Window} (s : Stream) (ops : list operation) : history :=
  foldl step (mkHistory s [] []) ops.

Definition stream_inv (s : Stream) : Prop :=
  0 < WindowSize (st_config s) /\ 0 <= AllowedLateness (st_config s) /\
  0 < MaxWindows (st_config s) /\ Len s <= MaxWindows (st_config s) /\
  (forall k w, st_windows s !! k = Some w ->
     wi_WindowStart w = ak_Start k /\ wi_WindowEnd w = ak_Start k + WindowSize (st_config s) /\
     wi_Partial w = false /\
     (st_hasWatermark s = true -> st_watermark s < wi_WindowEnd w)) /\
  (st_finished s = true -> st_windows s = ∅).

(** The simulation between a run and the batch aggregation of what it
    accepted: the batch map is split into the open windows and emitted ones. *)
Definition simulates (h : history) : Prop :=
  exists done : gmap aggregateKey Window,
    aggregate_map (WindowSize (st_config (hi_stream h))) (hi_accepted h) =
      st_windows (hi_stream h) ∪ done /\
    st_windows (hi_stream h) ##ₘ done /\
    (map_to_list done).*2 ≡ₚ set_partial false <$> hi_emitted h /\
    (forall k w, done !! k = Some w -> st_finished (hi_stream h) = true \/
       (st_hasWatermark (hi_stream h) = true /\
        ak_Start k + WindowSize (st_config (hi_stream h)) <= st_watermark (hi_stream h))) /\
    nonzero_times (hi_accepted h).

(** ** Lemmas *)

Lemma sortWindows_perm l : sortWindows l ≡ₚ l.
Proof. apply sort_Slice_perm. Qed.

Lemma NewStream_inv config s : NewStream config = Ok s -> stream_inv s /\ st_windows s = ∅ /\
  st_finished s = false /\ WindowSize (st_config s) = WindowSize config.
Proof.
  unfold NewStream.
  destruct (Z.leb_spec (WindowSize config) 0), (Z.ltb_spec (AllowedLateness config) 0),
    (Z.ltb_spec (MaxWindows config) 0); try done.
  intros [= <-]. destruct (Z.eqb_spec (MaxWindows config) 0); simpl;
    (split; [|done]); unfold stream_inv, Len; simpl; split_and!; try lia; try done;
    rewrite map_size_empty; lia.
Qed.

(** The three outcomes of Add. *)
Lemma Add_spec s o s' e :
  Add s o = (s', e) ->
  match e with
  | Some _ => s' = s
  | None =>
      let ws := WindowSize (st_config s) in
      s' = mkStream (st_config s) (aggregate_step ws (st_windows s) o) (st_watermark s)
             (st_hasWatermark s) (st_finished s) /\
      st_finished s = false /\ time_IsZero (ob_ObservedAt o) = false /\
      (st_hasWatermark s = true -> st_watermark s < ak_Start (keyFor o ws) + ws) /\
      (st_windows s !! keyFor o ws = None -> Len s < MaxWindows (st_config s))
  end.
Proof.
  unfold Add. destruct (st_finished s); [by intros [= <- <-]|].
  destruct (time_IsZero _); [by intros [= <- <-]|].
  destruct (st_hasWatermark s && _) eqn:EL; [by intros [= <- <-]|].
  assert (HW : st_hasWatermark s = true -> st_watermark s <
    ak_Start (keyFor o (WindowSize (st_config s))) + WindowSize (st_config s)).
  { intros E. rewrite E in EL. simpl in EL. apply negb_false_iff, Z.ltb_lt in EL. done. }
  unfold aggregate_step. destruct (st_windows s !! _) eqn:Ek; [by intros [= <- <-]|].
  destruct (Z.leb_spec (MaxWindows (st_config s)) (Z.of_nat (size (st_windows s))));
    intros [= <- <-]; [done|]. split_and!; try done.
Qed.

Lemma Add_inv s o s' e : stream_inv s -> Add s o = (s', e) -> stream_inv s'.
Proof.
  intros (Hws & Hl & Hm & Hs & Hk & Hf) HA. apply Add_spec in HA. destruct e as [e|]; [by subst|].
  destruct HA as (-> & Ef & Ez & HW & HC). unfold stream_inv, Len; simpl. split_and!; try done.
  - unfold aggregate_step. destruct (st_windows s !! _) as [w|] eqn:Ek.
    + by rewrite map_size_insert_Some by eauto.
    + rewrite map_size_insert_None by done. unfold Len in *. specialize (HC eq_refl). lia.
  - intros k w. rewrite aggregate_step_lookup. case_decide as E; [|apply Hk].
    intros [= <-]. simpl. destruct (st_windows s !! k) as [w|] eqn:Ek; simpl.
    + by apply Hk.
    + unfold time_Add. rewrite E in HW. by split_and!.
  - congruence.
Qed.

Section with_range.
Context {R : MapRange aggregateKey Window}.

Lemma next_watermark_ge s now : st_hasWatermark s = true -> st_watermark s <= next_watermark s now.
Proof.
  intros E. unfold next_watermark. rewrite E. simpl.
  unfold time_After. destruct (Z.ltb_spec (st_watermark s)
    (time_Add now (- AllowedLateness (st_config s)))); lia.
Qed.

Lemma Flush_lookup s now k w :
  st_windows (Flush s now).1 !! k = Some w <->
    st_windows s !! k = Some w /\ next_watermark s now < wi_WindowEnd w.
Proof.
  unfold Flush; simpl. rewrite lookup_range_sweep.
  destruct (st_windows s !! k) as [w'|]; [|naive_solver].
  unfold time_After. destruct (Z.ltb_spec (next_watermark s now) (wi_WindowEnd w')); simpl;
    split; intros; destruct_and?; simplify_eq; try done; lia.
Qed.

Lemma Flush_emitted s now w :
  w ∈ (Flush s now).2 <->
    exists k, st_windows s !! k = Some w /\ wi_WindowEnd w <= next_watermark s now.
Proof.
  unfold Flush; simpl. rewrite sortWindows_perm, list_elem_of_fmap. split.
  - intros ([k w'] & -> & [Hk E]%elem_of_range_sweep). exists k. split; [done|].
    by apply negb_true_iff, Z.ltb_ge in E.
  - intros (k & Hk & E). exists (k, w). split; [done|]. apply elem_of_range_sweep.
    split; [done|]. by apply negb_true_iff, Z.ltb_ge.
Qed.

Lemma Flush_inv s now : stream_inv s -> stream_inv (Flush s now).1.
Proof.
  intros (Hws & Hl & Hm & Hs & Hk & Hf). unfold stream_inv. split_and!; try done.
  - unfold Len, Flush in *; simpl.
    pose proof (range_sweep_size (fun (_ : aggregateKey) (window : Window) =>
      negb (time_After (wi_WindowEnd window) (next_watermark s now))) (st_windows s)). lia.
  - intros k w [Hw E]%Flush_lookup. apply Hk in Hw as (H1 & H2 & H3 & _). by split_and!.
  - intros E. apply Hf in E. apply map_eq. intros k. rewrite lookup_empty.
    destruct (_ !! k) as [w|] eqn:Ew; [|done].
    apply Flush_lookup in Ew as [Ew _]. by rewrite E in Ew.
Qed.

Lemma sweep_all_empty (m : gmap aggregateKey Window) :
  (range_sweep (fun _ _ => true) m).1 = ∅ /\
  (range_sweep (fun _ _ => true) m).2 ≡ₚ map_to_list m.
Proof.
  assert (E : (range_sweep (fun _ _ => true) m).1 = ∅).
  { apply map_eq. intros k. rewrite lookup_range_sweep, lookup_empty. by destruct (m !! k). }
  split; [done|].
  pose proof (range_sweep_perm (fun _ _ => true) m) as H.
  by rewrite E, map_to_list_empty, app_nil_r in H.
Qed.

Lemma Finish_inv s now : stream_inv s -> stream_inv (Finish s now).1.
Proof.
  intros Hs. unfold Finish. destruct (st_finished s) eqn:Ef; [done|].
  pose proof (Flush_inv s now Hs) as H. destruct (Flush s now) as [s1 windows]. simpl in *.
  destruct (sweep_all_empty (st_windows s1)) as [E _].
  destruct H as (Hws & Hl & Hm & HL & _). unfold stream_inv, Len; simpl. rewrite E.
  split_and!; try done. rewrite map_size_empty. lia.
Qed.

Lemma step_inv h op : stream_inv (hi_stream h) -> stream_inv (hi_stream (step h op)).
Proof.
  intros H. destruct op as [o|now|now]; cbn [step].
  - destruct (Add (hi_stream h) o) as [s e] eqn:E. simpl. by eapply Add_inv.
  - pose proof (Flush_inv (hi_stream h) now H). by destruct (Flush _ _).
  - pose proof (Finish_inv (hi_stream h) now H). by destruct (Finish _ _).
Qed.

(** *** The simulation *)

Lemma set_partial_id w : wi_Partial w = false -> set_partial false w = w.
Proof. by destruct w; simpl; intros ->. Qed.

Lemma values_unpartial (l : list Window) :
  Forall (fun w => wi_Partial w = false) l -> set_partial false <$> l = l.
Proof. induction 1; [done|]. rewrite fmap_cons. by rewrite set_partial_id, IHForall. Qed.

Lemma Add_simulates h o :
  simulates h -> simulates (step h (OpAdd o)).
Proof.
  intros (dn & HG & Hd & Hp & Hdone & Hnz). cbn [step].
  destruct (Add (hi_stream h) o) as [s e] eqn:E. apply Add_spec in E.
  destruct e as [e|]; [subst s; by exists dn|].
  destruct E as (-> & Ef & Ez & HW & _). set (ws := WindowSize (st_config (hi_stream h))) in *.
  assert (Hk : dn !! keyFor o ws = None).
  { destruct (dn !! keyFor o ws) as [w|] eqn:Ed; [|done].
    destruct (Hdone _ _ Ed) as [?|[? ?]]; [congruence|]. specialize (HW ltac:(done)). lia. }
  exists dn. simpl. fold ws. split_and!; try done.
  - unfold aggregate_map in *. rewrite foldl_app. simpl. rewrite HG.
    unfold aggregate_step at 1 2. rewrite lookup_union_l by done.
    by rewrite insert_union_l.
  - unfold aggregate_step. apply map_disjoint_insert_l. by split.
  - unfold nonzero_times. apply Forall_app. split; [done|]. by constructor.
Qed.

(** Moving swept entries from the open windows to the finished ones. *)
Lemma sweep_union (P : aggregateKey -> Window -> bool) (m dn : gmap aggregateKey Window) :
  m ##ₘ dn ->
  let swept := list_to_map (range_sweep P m).2 : gmap aggregateKey Window in
  m ∪ dn = (range_sweep P m).1 ∪ (swept ∪ dn) /\
  (range_sweep P m).1 ##ₘ (swept ∪ dn) /\
  (map_to_list (swept ∪ dn)).*2 ≡ₚ (map_to_list dn).*2 ++ (range_sweep P m).2.*2 /\
  (forall k w, swept !! k = Some w <-> m !! k = Some w /\ P k w = true).
Proof.
  intros Hd swept.
  assert (HN : forall o : option Window, None ∪ o = o) by (by intros []).
  assert (Hs : forall k w, swept !! k = Some w <-> m !! k = Some w /\ P k w = true).
  { intros k w. unfold swept. rewrite <- elem_of_list_to_map by apply range_sweep_keys_NoDup.
    apply elem_of_range_sweep. }
  assert (Hsd : swept ##ₘ dn).
  { apply map_disjoint_spec. intros k w w' [Hk _]%Hs Hk'.
    by apply (map_disjoint_spec m dn) with (i := k) (x := w) (y := w') in Hd. }
  assert (Hl : forall k, (range_sweep P m).1 !! k = match swept !! k with
    | Some _ => None | None => m !! k end).
  { intros k. rewrite lookup_range_sweep. destruct (swept !! k) as [w|] eqn:Ek.
    - apply Hs in Ek as [-> ->]. done.
    - destruct (m !! k) as [w|] eqn:Em; [|done]. destruct (P k w) eqn:EP; [|done].
      by rewrite (proj2 (Hs k w) (conj Em EP)) in Ek. }
  split_and!; [| | |done].
  - apply map_eq. intros k. rewrite !lookup_union, Hl.
    destruct (swept !! k) as [w|] eqn:Ek; simpl.
    + apply Hs in Ek as [-> _]. by destruct (dn !! k).
    + by rewrite HN.
  - apply map_disjoint_spec. intros k w w'. rewrite Hl, lookup_union.
    destruct (swept !! k) as [v|] eqn:Ek; [done|]. rewrite HN. intros H1 H2.
    by apply (map_disjoint_spec m dn) with (i := k) (x := w) (y := w') in Hd.
  - rewrite map_to_list_union_disjoint by done. rewrite fmap_app.
    unfold swept. rewrite map_to_list_to_map by apply range_sweep_keys_NoDup.
    apply Permutation_app_comm.
Qed.

Lemma swept_values_partial (P : aggregateKey -> Window -> bool) s :
  stream_inv s -> Forall (fun w => wi_Partial w = false) (range_sweep P (st_windows s)).2.*2.
Proof.
  intros (_ & _ & _ & _ & Hk & _). apply Forall_forall.
  intros w ([k w'] & -> & [Hw _]%elem_of_range_sweep)%list_elem_of_fmap. 
  by apply Hk in Hw as (_ & _ & ? & _).
Qed.

(** A step that sweeps open windows out and emits them, partial flag aside. *)
Lemma sweep_simulates (P : aggregateKey -> Window -> bool) h s' em :
  simulates h -> st_finished (hi_stream h) = false ->
  st_config s' = st_config (hi_stream h) ->
  st_windows s' = (range_sweep P (st_windows (hi_stream h))).1 ->
  set_partial false <$> em ≡ₚ (range_sweep P (st_windows (hi_stream h))).2.*2 ->
  (st_hasWatermark (hi_stream h) = true ->
     st_hasWatermark s' = true /\ st_watermark (hi_stream h) <= st_watermark s') ->
  (forall k w, st_windows (hi_stream h) !! k = Some w -> P k w = true ->
     st_finished s' = true \/ (st_hasWatermark s' = true /\
       ak_Start k + WindowSize (st_config s') <= st_watermark s')) ->
  simulates (mkHistory s' (hi_emitted h ++ em) (hi_accepted h)).
Proof.
  intros (dn & HG & Hd & Hp & Hdone & Hnz) Hf Hc Hw Hem Hwm HP.
  destruct (sweep_union P (st_windows (hi_stream h)) dn Hd) as (U & D & V & S).
  eexists. simpl. rewrite Hc, Hw. split_and!; [by rewrite <- U|exact D| | |done].
  - rewrite V, fmap_app. by rewrite Hp, Hem.
  - intros k w. rewrite <- Hc. intros [Hs|[_ Hk]]%lookup_union_Some_raw.
    + apply S in Hs as [? ?]. eauto.
    + destruct (Hdone _ _ Hk) as [?|[? ?]]; [congruence|].
      right. destruct Hwm as [? ?]; [done|]. rewrite Hc. split; [done|lia].
Qed.

Lemma Flush_simulates h now :
  stream_inv (hi_stream h) -> simulates h -> st_finished (hi_stream h) = false ->
  simulates (step h (OpFlush now)).
Proof.
  intros Hi Hs Hf. cbn [step Flush].
  eapply sweep_simulates; [exact Hs|exact Hf|reflexivity|reflexivity| | |].
  - rewrite values_unpartial; [apply sortWindows_perm|].
    rewrite sortWindows_perm. by apply swept_values_partial.
  - intros E. split; [done|]. by apply next_watermark_ge.
  - intros k w Hw E. right. split; [done|]. simpl.
    destruct Hi as (_ & _ & _ & _ & Hk & _). apply Hk in Hw as (_ & <- & _).
    by apply negb_true_iff, Z.ltb_ge in E.
Qed.

Lemma Finish_simulates h now :
  stream_inv (hi_stream h) -> simulates h -> st_finished (hi_stream h) = false ->
  simulates (step h (OpFinish now)).
Proof.
  intros Hi Hs Hf. cbn [step]. unfold Finish. rewrite Hf.
  pose proof (Flush_inv (hi_stream h) now Hi) as Hi1.
  pose proof (Flush_simulates h now Hi Hs Hf) as Hs1. cbn [step] in Hs1.
  assert (Hf1 : st_finished (Flush (hi_stream h) now).1 = false) by done.
  destruct (Flush (hi_stream h) now) as [s1 ws]. simpl in *.
  set (P := fun (_ : aggregateKey) (_ : Window) => true).
  pose proof (swept_values_partial P s1 Hi1) as Hv.
  assert (H : simulates (mkHistory
    (mkStream (st_config s1) (range_sweep P (st_windows s1)).1 (st_watermark s1)
       (st_hasWatermark s1) true)
    ((hi_emitted h ++ ws) ++ (set_partial true <$> (range_sweep P (st_windows s1)).2.*2))
    (hi_accepted h))).
  { eapply sweep_simulates with (P := P) (h := mkHistory s1 (hi_emitted h ++ ws) (hi_accepted h));
      simpl; try done; [|by left].
    rewrite <- list_fmap_compose. erewrite list_fmap_ext; [by rewrite values_unpartial|done]. }
  destruct H as (dn & H1 & H2 & H3 & H4 & H5). exists dn. simpl in *. split_and!; try done.
  rewrite H3. rewrite <- app_assoc, fmap_app. rewrite (fmap_app _ (hi_emitted h)).
  by rewrite sortWindows_perm.
Qed.

Lemma finished_noop h op :
  stream_inv (hi_stream h) -> st_finished (hi_stream h) = true ->
  hi_emitted (step h op) = hi_emitted h /\ hi_accepted (step h op) = hi_accepted h /\
  st_windows (hi_stream (step h op)) = ∅ /\ st_finished (hi_stream (step h op)) = true /\
  st_config (hi_stream (step h op)) = st_config (hi_stream h).
Proof.
  intros Hi Hf. pose proof (proj2 (proj2 (proj2 (proj2 (proj2 Hi)))) Hf) as He.
  destruct op as [o|now|now]; cbn [step].
  - unfold Add. rewrite Hf. simpl. done.
  - pose proof (Flush_inv (hi_stream h) now Hi) as (_ & _ & _ & _ & _ & Hi').
    assert (E : (Flush (hi_stream h) now).2 = []).
    { destruct ((Flush (hi_stream h) now).2) as [|w l] eqn:El; [done|].
      destruct (proj1 (Flush_emitted (hi_stream h) now w)) as (k & Hk & _).
      - rewrite El. by left.
      - by rewrite He in Hk. }
    assert (Hc : st_config (Flush (hi_stream h) now).1 = st_config (hi_stream h)) by done.
    assert (Hf' : st_finished (Flush (hi_stream h) now).1 = st_finished (hi_stream h)) by done.
    destruct (Flush (hi_stream h) now) as [s1 ws]; simpl in *. subst ws.
    rewrite app_nil_r. rewrite Hf'. split_and!; try done. apply Hi'. congruence.
  - unfold Finish. rewrite Hf. simpl. by rewrite app_nil_r.
Qed.

Lemma step_simulates h op :
  stream_inv (hi_stream h) -> simulates h -> simulates (step h op).
Proof.
  intros Hi Hs. destruct (st_finished (hi_stream h)) eqn:Hf.
  - destruct (finished_noop h op Hi Hf) as (E1 & E2 & E3 & E4 & E5).
    destruct Hs as (dn & HG & Hd & Hp & Hdone & Hnz). exists dn.
    rewrite E1, E2, E3, E5. pose proof (proj2 (proj2 (proj2 (proj2 (proj2 Hi)))) Hf) as He.
    rewrite He in *. split_and!; try done. intros k w _. by left.
  - destruct op.
    + by apply Add_simulates.
    + by apply Flush_simulates.
    + by apply Finish_simulates.
Qed.

Lemma run_sound s ops :
  stream_inv s -> st_windows s = ∅ ->
  stream_inv (hi_stream (run s ops)) /\ simulates (run s ops).
Proof.
  intros Hi He. unfold run. induction ops as [|op ops [IH1 IH2]] using rev_ind; simpl.
  - split; [done|]. exists ∅. simpl. rewrite He.
    split_and!; try done; constructor.
  - rewrite foldl_app. simpl. split; [by apply step_inv|by apply step_simulates].
Qed.

Lemma run_config s ops : st_config (hi_stream (run s ops)) = st_config s.
Proof.
  unfold run. induction ops as [|op ops IH] using rev_ind; [done|].
  rewrite foldl_app. simpl. rewrite <- IH. set (h := foldl step _ ops).
  destruct op as [o|now|now]; cbn [step].
  - destruct (Add (hi_stream h) o) as [s' e] eqn:E. apply Add_spec in E.
    destruct e; [by subst|]. by destruct E as [-> _].
  - done.
  - unfold Finish. by destruct (st_finished (hi_stream h)).
Qed.

Lemma Finish_finished s now : stream_inv s ->
  st_finished (Finish s now).1 = true /\ st_windows (Finish s now).1 = ∅.
Proof.
  intros Hi. unfold Finish. destruct (st_finished s) eqn:E.
  - split; [done|]. by apply Hi.
  - simpl. split; [done|]. apply sweep_all_empty.
Qed.
End with_range.

(** The windows of a run that ends with Finish are those of the batch. *)
Lemma run_aggregates (R : MapRange aggregateKey Window) (config : StreamConfig)
  (s : Stream) (ops : list operation) (now : Time) (Hnew : NewStream config = Ok s) :
  let h := run s (ops ++ [OpFinish now]) in
  exists windows,
    Aggregate (hi_accepted h) (WindowSize config) = Ok windows /\
    set_partial false <$> hi_emitted h ≡ₚ windows.
Proof.
  apply NewStream_inv in Hnew as (Hi & He & _ & Hc). cbv zeta.
  destruct (run_sound s ops Hi He) as [Hi1 _].
  destruct (run_sound s (ops ++ [OpFinish now]) Hi He) as [Hi2 (dn & HG & Hd & Hp & _ & Hnz)].
  rewrite run_config in HG. rewrite <- Hc.
  assert (Hempty : st_windows (hi_stream (run s (ops ++ [OpFinish now]))) = ∅).
  { unfold run. rewrite foldl_app. simpl. fold (run s ops).
    pose proof (Finish_finished (hi_stream (run s ops)) now Hi1) as [_ E].
    by destruct (Finish _ _). }
  rewrite Hempty, (left_id_L ∅ (∪)) in HG. eexists. split.
  - unfold Aggregate. destruct (Z.leb_spec (WindowSize (st_config s)) 0).
    { destruct Hi. lia. }
    rewrite aggregate_loop_Ok by done. reflexivity.
  - rewrite <- Hp, sortWindows_perm.
    change (foldl _ ∅ _) with (aggregate_map (WindowSize (st_config s))
      (hi_accepted (run s (ops ++ [OpFinish now])))).
    rewrite HG. symmetry. by rewrite map_range_perm.
Qed.

(** ** Properties *)

(** Every state a stream can reach is well formed: at most MaxWindows open
    windows, each stored under its key with its half-open bounds, not partial
    and ending after the watermark, and none once the stream is finished. *)
Theorem stream_invariant (R : MapRange aggregateKey Window) (config : StreamConfig)
  (s : Stream) (ops : list operation) (Hnew : NewStream config = Ok s) :
  stream_inv (hi_stream (run s ops)).
Proof. apply NewStream_inv in Hnew as (Hi & He & _). by apply run_sound. Qed.

(** Flush emits exactly the open windows that end at or before the new
    watermark, keeps every other one untouched, and never moves the watermark
    back. *)
Theorem flush_exact (R : MapRange aggregateKey Window) (s : Stream) (now : Time) :
  let '(s', windows) := Flush s now in
  windows ≡ₚ (map_to_list (filter (fun kw : aggregateKey * Window =>
                wi_WindowEnd kw.2 <= st_watermark s') (st_windows s))).*2 /\
  st_windows s' = filter (fun kw : aggregateKey * Window =>
                    st_watermark s' < wi_WindowEnd kw.2) (st_windows s) /\
  (st_hasWatermark s = true -> st_watermark s <= st_watermark s').
Proof.
  cbn [Flush]. split_and!.
  - rewrite sortWindows_perm. apply fmap_Permutation, NoDup_Permutation.
    + eapply (NoDup_fmap_1 fst), range_sweep_keys_NoDup.
    + apply NoDup_map_to_list.
    + intros [k w]. rewrite elem_of_range_sweep, elem_of_map_to_list, map_lookup_filter_Some.
      simpl. unfold time_After. by rewrite negb_true_iff, Z.ltb_ge.
  - apply map_eq. intros k. simpl. rewrite lookup_range_sweep, map_lookup_filter.
    destruct (st_windows s !! k) as [w|]; simpl; [|done]. unfold time_After.
    destruct (Z.ltb_spec (next_watermark s now) (wi_WindowEnd w)); simpl;
      rewrite option_guard_decide; case_decide; done || lia.
  - apply next_watermark_ge.
Qed.

(** C6. A live stream computes what the batch does: for any interleaving of
    additions and flushes closed by Finish, the windows emitted are, up to
    order and the partial mark, the windows Aggregate makes of the accepted
    observations; so no accepted observation is lost, duplicated or finalized
    twice. *)
Theorem stream_refines_aggregate (R : MapRange aggregateKey Window) (config : StreamConfig)
  (s : Stream) (ops : list operation) (now : Time) (Hnew : NewStream config = Ok s) :
  let h := run s (ops ++ [OpFinish now]) in
  exists windows,
    Aggregate (hi_accepted h) (WindowSize config) = Ok windows /\
    set_partial false <$> hi_emitted h ≡ₚ windows.
Proof. by apply run_aggregates. Qed.

(** Finish is terminal: it marks partial exactly the emitted windows that
    the watermark had not finalized, leaves no window open, and afterwards
    every operation emits nothing and accepts nothing. *)
Theorem finish_terminal (R : MapRange aggregateKey Window) (config : StreamConfig)
  (s0 : Stream) (ops : list operation) (now : Time) (Hnew : NewStream config = Ok s0)
  (Hopen : st_finished (hi_stream (run s0 ops)) = false) :
  let s := hi_stream (run s0 ops) in
  let '(s', windows) := Finish s now in
  (forall w, w ∈ windows ->
     wi_Partial w = bool_decide (next_watermark s now < wi_WindowEnd w)) /\
  st_windows s' = ∅ /\
  (forall o, Add s' o = (s', Some ErrStreamClosed)) /\
  (forall later, (Flush s' later).2 = [] /\ Finish s' later = (s', [])).
Proof.
  apply NewStream_inv in Hnew as (Hi & He & _).
  destruct (run_sound s0 ops Hi He) as [Hi1 _]. cbv zeta. set (s := hi_stream (run s0 ops)) in *.
  pose proof (Finish_finished s now Hi1) as [Hfin Hemp].
  pose proof (Finish_inv s now Hi1) as Hinv.
  destruct (Finish s now) as [s' windows] eqn:EF. simpl in *. split_and!; [|done| |].
  - unfold Finish in EF. rewrite Hopen in EF.
    pose proof (Flush_emitted s now) as Hem. pose proof (Flush_lookup s now) as Hlk.
    destruct (Flush s now) as [s1 ws]. injection EF as _ <-. simpl in *.
    intros w. rewrite sortWindows_perm, elem_of_app. intros [Hw|Hw].
    + apply Hem in Hw as (k & Hk & Hend).
      destruct Hi1 as (_ & _ & _ & _ & Hi1 & _). apply Hi1 in Hk as (_ & _ & -> & _).
      rewrite bool_decide_eq_false_2; [done|lia].
    + apply list_elem_of_fmap in Hw as (w' & -> & Hw').
      apply list_elem_of_fmap in Hw' as ([k v] & -> & [Hk _]%elem_of_range_sweep).
      apply Hlk in Hk as [_ Hend]. simpl. by rewrite bool_decide_eq_true_2.
  - intros o. unfold Add. by rewrite Hfin.
  - intros later. split; [|unfold Finish; by rewrite Hfin].
    destruct ((Flush s' later).2) as [|w l] eqn:El; [done|].
    destruct (proj1 (Flush_emitted s' later w)) as (k & Hk & _).
    + rewrite El. by left.
    + by rewrite Hemp in Hk.
Qed.

(** *** Witnesses: two additions, a flush that finalizes the window, a late
    observation, and one in a later bucket that Finish marks partial *)

Definition example_config : StreamConfig := mkStreamConfig (5 * Second) Second 0.
Definition example_stream : Stream := mkStream (mkStreamConfig (5 * Second) Second 16384) ∅ 0 false false.

Definition example_ops : list operation :=
  [OpAdd (example_observation example_t0 1200);
   OpAdd (example_observation (example_t0 + 2 * Second) 800);
   OpFlush (example_t0 + 6 * Second);
   OpAdd (example_observation (example_t0 + Second) 100);
   OpAdd (example_observation (example_t0 + 7 * Second) 500)].

Lemma stream_invariant_witness :
  stream_inv (hi_stream (@run (canonical_range _ _) example_stream example_ops)).
Proof. apply (stream_invariant (canonical_range _ _) example_config). vm_compute. reflexivity. Defined.

Lemma stream_refines_aggregate_witness :
  let h := @run (canonical_range _ _) example_stream (example_ops ++ [OpFinish (example_t0 + 8 * Second)]) in
  length (hi_accepted h) = 3%nat /\
  exists windows, @Aggregate (canonical_range _ _) (hi_accepted h) (5 * Second) = Ok windows /\
    set_partial false <$> hi_emitted h ≡ₚ windows.
Proof.
  split; [vm_compute; reflexivity|].
  apply (stream_refines_aggregate (canonical_range _ _) example_config). vm_compute. reflexivity.
Defined.

Lemma finish_terminal_witness :
  let s := hi_stream (@run (canonical_range _ _) example_stream example_ops) in
  let '(s', windows) := @Finish (canonical_range _ _) s (example_t0 + 8 * Second) in
  (forall w, w ∈ windows ->
     wi_Partial w = bool_decide (next_watermark s (example_t0 + 8 * Second) < wi_WindowEnd w)) /\
  st_windows s' = ∅ /\
  (forall o, Add s' o = (s', Some ErrStreamClosed)) /\
  (forall later, (@Flush (canonical_range _ _) s' later).2 = [] /\
     @Finish (canonical_range _ _) s' later = (s', [])).
Proof.
  apply (finish_terminal (canonical_range _ _) example_config example_stream example_ops).
  - vm_compute. reflexivity.
  - vm_compute. reflexivity.
Defined.
