(* ===== verification/Heap.v ===== *)
(** * container/heap, as internal/dns uses it

    Push, Remove, up and down over heap.Interface, which a typeclass states:
    the collection is an array of items, Less compares two positions and Swap
    exchanges them. The laws class is what pendingHeap must provide; the
    theorems about up, down, Push and Remove are proved against it once. *)

From S2P Require Import Prelude.

#[local] Open Scope nat_scope.

(** ** Definitions *)

(** heap.Interface without Push and Pop, which the client calls around up and down. *)
Class HeapInterface (S : Type) := {
  heap_Len : S -> nat;
  heap_Less : S -> nat -> nat -> bool;
  heap_Swap : S -> nat -> nat -> S
}.

Definition heap_parent (j : nat) : nat := (j - 1) / 2.

(** heap.up; [fuel] bounds the iterations, each of which lowers j. *)
Fixpoint heap_up {S} `{HeapInterface S} (fuel : nat) (h : S) (j : nat) : S :=
  match fuel with
  | O => h
  | S fuel' =>
      let i := heap_parent j in
      if (i =? j) || negb (heap_Less h j i) then h
      else heap_up fuel' (heap_Swap h i j) i
  end.

(** The child heap.down compares with i: the smaller of the two. *)
Definition heap_child {S} `{HeapInterface S} (h : S) (i n : nat) : nat :=
  let j1 := 2 * i + 1 in
  let j2 := j1 + 1 in
  if (j2 <? n) && heap_Less h j2 j1 then j2 else j1.

(** heap.down returns the collection and where the item ended up. *)
Fixpoint heap_down {S} `{HeapInterface S} (fuel : nat) (h : S) (i n : nat) : S * nat :=
  match fuel with
  | O => (h, i)
  | S fuel' =>
      let j1 := 2 * i + 1 in
      if n <=? j1 then (h, i)
      else
        let j := heap_child h i n in
        if negb (heap_Less h j i) then (h, i)
        else heap_down fuel' (heap_Swap h i j) j n
  end.

(** heap.Push after the client appended the item *)
Definition heap_fix_push {S} `{HeapInterface S} (h : S) : S :=
  heap_up (heap_Len h) h (heap_Len h - 1).

(** heap.Remove before the client pops the last item *)
Definition heap_fix_remove {S} `{HeapInterface S} (h : S) (i : nat) : S :=
  let n := heap_Len h - 1 in
  if n =? i then h
  else
    let '(h', k) := heap_down (heap_Len h) (heap_Swap h i n) i n in
    if i <? k then h' else heap_up (heap_Len h') h' i.

(** l[i], l[j] = l[j], l[i] *)
Definition exchange {A} `{Inhabited A} (l : list A) (i j : nat) : list A :=
  <[i := l !!! j]> (<[j := l !!! i]> l).

(** What an implementation promises: Less is a strict weak order on the items,
    untouched by Swap, which exchanges two items. *)
Class HeapLaws (S A : Type) `{HeapInterface S} `{Inhabited A} := {
  heap_items : S -> list A;
  heap_lt : S -> A -> A -> bool;
  heap_Len_items h : heap_Len h = length (heap_items h);
  heap_Less_items h i j : i < heap_Len h -> j < heap_Len h ->
    heap_Less h i j = heap_lt h (heap_items h !!! i) (heap_items h !!! j);
  heap_Swap_items h i j : i < heap_Len h -> j < heap_Len h ->
    heap_items (heap_Swap h i j) = exchange (heap_items h) i j;
  heap_Swap_lt h i j x y : heap_lt (heap_Swap h i j) x y = heap_lt h x y;
  heap_lt_asym h x y : heap_lt h x y = true -> heap_lt h y x = false;
  heap_le_trans h x y z : heap_lt h y x = false -> heap_lt h z y = false -> heap_lt h z x = false
}.

(** Every item of the first n is no smaller than its parent. *)
Definition heap_ordered {A} `{Inhabited A} (lt : A -> A -> bool) (l : list A) (n : nat) : Prop :=
  forall k, 0 < k < n -> lt (l !!! k) (l !!! heap_parent k) = false.

(** The order with a hole: nothing is known of item i, except that its parent
    is no greater than its children. *)
Definition heap_hole {A} `{Inhabited A} (lt : A -> A -> bool) (l : list A) (n i : nat) : Prop :=
  (forall k, 0 < k < n -> k <> i -> heap_parent k <> i -> lt (l !!! k) (l !!! heap_parent k) = false) /\
  (forall k, 0 < k < n -> heap_parent k = i -> 0 < i -> lt (l !!! k) (l !!! heap_parent i) = false).

(** The children of i are no smaller than item i. *)
Definition heap_children {A} `{Inhabited A} (lt : A -> A -> bool) (l : list A) (n i : nat) : Prop :=
  forall k, 0 < k < n -> heap_parent k = i -> lt (l !!! k) (l !!! i) = false.

(** ** Lemmas *)

Lemma heap_parent_lt j : 0 < j -> heap_parent j < j.
Proof. intros. unfold heap_parent. pose proof (Nat.Div0.div_le_upper_bound (j - 1) 2 (j-1)). lia. Qed.

Lemma heap_parent_eq j i : 0 < j -> heap_parent j = i <-> j = 2 * i + 1 \/ j = 2 * i + 2.
Proof.
  intros. unfold heap_parent. pose proof (Nat.div_mod_eq (j - 1) 2).
  pose proof (Nat.mod_upper_bound (j - 1) 2). lia.
Qed.

Section exchange.
Context {A : Type} `{Inhabited A}.
Implicit Types (l : list A).

Lemma length_exchange l i j : length (exchange l i j) = length l.
Proof. unfold exchange. by rewrite !length_insert. Qed.

Lemma lookup_exchange l i j k :
  i < length l -> j < length l ->
  exchange l i j !!! k = if decide (k = i) then l !!! j else if decide (k = j) then l !!! i else l !!! k.
Proof.
  intros Hi Hj. unfold exchange. destruct (decide (k = i)) as [->|].
  - rewrite list_lookup_total_insert_eq; [done|]. by rewrite length_insert.
  - rewrite list_lookup_total_insert_ne by done. destruct (decide (k = j)) as [->|].
    + by rewrite list_lookup_total_insert_eq.
    + by rewrite list_lookup_total_insert_ne.
Qed.

Lemma exchange_perm l i j : i < length l -> j < length l -> exchange l i j ≡ₚ l.
Proof. intros Hi Hj. apply Permutation_insert_swap; by apply list_lookup_lookup_total_lt. Qed.
End exchange.

Section laws.
Context {S A : Type} `{HeapLaws S A}.
Implicit Types (h : S).

(** What up, down and their callers preserve. *)
Definition same_order h h' : Prop :=
  (forall x y, heap_lt h' x y = heap_lt h x y) /\ heap_items h' ≡ₚ heap_items h.

#[local] Abbreviation items := heap_items.
#[local] Abbreviation ordered h n := (heap_ordered (heap_lt h) (items h) n).
#[local] Abbreviation hole h n i := (heap_hole (heap_lt h) (items h) n i).
#[local] Abbreviation children h n i := (heap_children (heap_lt h) (items h) n i).

Lemma same_order_refl h : same_order h h.
Proof. done. Qed.

Lemma same_order_trans h1 h2 h3 : same_order h1 h2 -> same_order h2 h3 -> same_order h1 h3.
Proof. intros [E1 P1] [E2 P2]. split; [intros; by rewrite E2|by rewrite P2]. Qed.

Lemma same_order_Len h h' : same_order h h' -> heap_Len h' = heap_Len h.
Proof. intros [_ P]. rewrite !heap_Len_items. by apply Permutation_length. Qed.

Lemma Swap_same_order h i j :
  i < heap_Len h -> j < heap_Len h -> same_order h (heap_Swap h i j).
Proof.
  intros Hi Hj. split; [intros; apply heap_Swap_lt|]. rewrite heap_Swap_items by done.
  apply exchange_perm; by rewrite <- heap_Len_items.
Qed.

Lemma Swap_lookup h i j k :
  i < heap_Len h -> j < heap_Len h ->
  items (heap_Swap h i j) !!! k =
    if decide (k = i) then items h !!! j else if decide (k = j) then items h !!! i else items h !!! k.
Proof.
  intros Hi Hj. rewrite heap_Swap_items by done.
  apply lookup_exchange; by rewrite <- heap_Len_items.
Qed.

Lemma hole_fill h n i :
  i < n -> hole h n i -> children h n i ->
  (0 < i -> heap_lt h (items h !!! i) (items h !!! heap_parent i) = false) -> ordered h n.
Proof.
  intros Hi [Ho _] Hc Hp k Hk. destruct (decide (k = i)) as [->|]; [apply Hp; lia|].
  destruct (decide (heap_parent k = i)) as [<-|]; [by apply Hc|by apply Ho].
Qed.

(** up restores the order when the only misplaced item is j. *)
Lemma heap_up_ordered fuel h j n :
  j < fuel -> j < n -> n <= heap_Len h -> hole h n j -> children h n j ->
  ordered (heap_up fuel h j) n /\ same_order h (heap_up fuel h j).
Proof.
  revert h j. induction fuel as [|fuel IH]; intros h j Hf Hj Hn Hh Hc; [lia|]. simpl.
  destruct (Nat.eqb_spec (heap_parent j) j) as [E|E]; simpl.
  - split; [|apply same_order_refl]. apply (hole_fill h n j); try done.
    intros. pose proof (heap_parent_lt j). lia.
  - assert (0 < j) by (destruct j; [done|lia]).
    pose proof (heap_parent_lt j ltac:(lia)) as Hlt.
    rewrite heap_Less_items by lia.
    destruct (heap_lt h (items h !!! j) (items h !!! heap_parent j)) eqn:EL; simpl.
    2: { split; [|apply same_order_refl]. by apply (hole_fill h n j). }
    set (i := heap_parent j) in *.
    pose proof (Swap_same_order h i j ltac:(lia) ltac:(lia)) as Hs.
    destruct (IH (heap_Swap h i j) i) as [I1 I2]; try lia.
    + by rewrite (same_order_Len _ _ Hs).
    + split.
      * intros k Hk Hki Hpk. rewrite heap_Swap_lt, !Swap_lookup by lia.
        destruct (decide (k = i)); [done|]. destruct (decide (k = j)) as [->|]; [done|].
        destruct (decide (heap_parent k = i)); [done|].
        destruct (decide (heap_parent k = j)) as [E'|].
        -- apply (proj2 Hh); lia.
        -- by apply (proj1 Hh).
      * intros k Hk Hpk Hi. rewrite heap_Swap_lt, !Swap_lookup by lia.
        destruct (decide (heap_parent i = i)); [pose proof (heap_parent_lt i); lia|].
        destruct (decide (heap_parent i = j)); [pose proof (heap_parent_lt i); lia|].
        assert (Hpi : heap_lt h (items h !!! i) (items h !!! heap_parent i) = false)
          by (apply (proj1 Hh); lia || (pose proof (heap_parent_lt i); lia)).
        destruct (decide (k = i)) as [->|]; [pose proof (heap_parent_lt i); lia|].
        destruct (decide (k = j)) as [->|]; [done|].
        apply (heap_le_trans h _ (items h !!! i)); [done|].
        rewrite <- Hpk. apply (proj1 Hh); try lia.
    + intros k Hk Hpk. rewrite heap_Swap_lt, !Swap_lookup by lia.
      rewrite (decide_True (P := i = i)) by done.
      destruct (decide (k = i)) as [->|]; [pose proof (heap_parent_lt i); lia|].
      destruct (decide (k = j)) as [->|]; [by apply heap_lt_asym|].
      apply (heap_le_trans h _ (items h !!! i)); [by apply heap_lt_asym|].
      rewrite <- Hpk. apply (proj1 Hh); lia.
    + split; [done|]. by eapply same_order_trans.
Qed.

Lemma heap_child_spec h i n :
  2 * i + 1 < n -> n <= heap_Len h ->
  let j := heap_child h i n in
  0 < j < n /\ heap_parent j = i /\ i < j /\
  forall k, 0 < k < n -> heap_parent k = i -> heap_lt h (items h !!! k) (items h !!! j) = false.
Proof.
  intros Hi Hn j. unfold j, heap_child. clear j.
  set (j1 := 2 * i + 1). set (j2 := j1 + 1).
  assert (Hk : forall k, 0 < k < n -> heap_parent k = i -> k = j1 \/ k = j2).
  { intros k ? Hk. apply heap_parent_eq in Hk; lia. }
  assert (Hrefl : forall x, heap_lt h x x = false).
  { intros x. destruct (heap_lt h x x) eqn:E; [|done]. by rewrite (heap_lt_asym h x x) in E. }
  destruct (Nat.ltb_spec j2 n) as [Hj2|Hj2]; simpl.
  - rewrite heap_Less_items by lia.
    destruct (heap_lt h (items h !!! j2) (items h !!! j1)) eqn:E;
      split_and!; try lia; try (apply heap_parent_eq; lia);
      intros k Hk1 Hk2; destruct (Hk k Hk1 Hk2) as [->| ->]; auto using heap_lt_asym.
  - split_and!; try lia; try (apply heap_parent_eq; lia).
    intros k Hk1 Hk2. destruct (Hk k Hk1 Hk2) as [->| ->]; [auto|lia].
Qed.

(** down restores the order below i: either nothing moved and the item is no
    greater than its children, or the whole prefix is ordered. *)
Lemma heap_down_ordered fuel h i n i0 :
  n <= i + fuel -> i < n -> n <= heap_Len h -> i0 <= i -> hole h n i ->
  (i0 < i -> heap_lt h (items h !!! i) (items h !!! heap_parent i) = false) ->
  let '(h', k) := heap_down fuel h i n in
  same_order h h' /\ i <= k /\
  (if i0 <? k then ordered h' n else h' = h /\ children h' n i).
Proof.
  revert h i. induction fuel as [|fuel IH]; intros h i Hf Hi Hn Hi0 Hh Hp; [lia|]. cbn [heap_down].
  destruct (Nat.leb_spec n (2 * i + 1)) as [Hle|Hle].
  - assert (Hc : children h n i).
    { intros k Hk Hpk. apply heap_parent_eq in Hpk; lia. }
    split_and!; [apply same_order_refl|done|].
    destruct (Nat.ltb_spec i0 i); [apply (hole_fill h n i); auto|done].
  - destruct (heap_child_spec h i n Hle Hn) as (Hj & Hpj & Hij & Hmin).
    set (j := heap_child h i n) in *. rewrite heap_Less_items by lia.
    destruct (heap_lt h (items h !!! j) (items h !!! i)) eqn:EL; cbn [negb].
    + pose proof (Swap_same_order h i j ltac:(lia) ltac:(lia)) as Hs.
      specialize (IH (heap_Swap h i j) j).
      destruct (heap_down fuel (heap_Swap h i j) j n) as [h' k].
      destruct IH as (I1 & I2 & I3); try lia.
      * by rewrite (same_order_Len _ _ Hs).
      * split.
        -- intros k' Hk Hkj Hpk. rewrite heap_Swap_lt, !Swap_lookup by lia.
           rewrite (decide_False (P := k' = j)), (decide_False (P := heap_parent k' = j)) by done.
           destruct (decide (k' = i)) as [->|].
           ++ destruct (decide (heap_parent i = i)); [pose proof (heap_parent_lt i); lia|].
              apply (proj2 Hh); lia.
           ++ destruct (decide (heap_parent k' = i)); [by apply Hmin|by apply (proj1 Hh)].
        -- intros k' Hk Hpk Hj0. rewrite heap_Swap_lt, !Swap_lookup by lia.
           rewrite Hpj, (decide_True (P := i = i)) by done.
           pose proof (heap_parent_lt k' ltac:(lia)).
           rewrite !decide_False by lia. rewrite <- Hpk.
           apply (proj1 Hh); lia.
      * intros _. rewrite heap_Swap_lt, !Swap_lookup by lia. rewrite Hpj.
        rewrite decide_False, decide_True, (decide_True (P := i = i)) by lia.
        by apply heap_lt_asym.
      * split_and!; [by eapply same_order_trans|lia|].
        destruct (Nat.ltb_spec i0 k); [done|lia].
    + assert (Hc : children h n i).
      { intros k Hk Hpk. apply (heap_le_trans h _ (items h !!! j)); [done|by apply Hmin]. }
      split_and!; [apply same_order_refl|done|].
      destruct (Nat.ltb_spec i0 i); [apply (hole_fill h n i); auto|done].
Qed.

Lemma ordered_hole h n i : ordered h n -> i < n -> hole h n i.
Proof.
  intros Ho Hi. split; [intros; by apply Ho|]. intros k Hk Hpk Hi0.
  apply (heap_le_trans h _ (items h !!! i)); [apply Ho; lia|].
  rewrite <- Hpk. by apply Ho.
Qed.

(** Pushing restores the order of the extended array. *)
Lemma heap_fix_push_ordered h :
  0 < heap_Len h -> ordered h (heap_Len h - 1) ->
  ordered (heap_fix_push h) (heap_Len h) /\ same_order h (heap_fix_push h).
Proof.
  intros Hl Ho. unfold heap_fix_push.
  assert (Hlast : forall k, 0 < k < heap_Len h -> heap_parent k <> heap_Len h - 1).
  { intros k Hk. pose proof (heap_parent_lt k). lia. }
  apply heap_up_ordered; try lia.
  - split; [intros k Hk Hne _; apply Ho; lia|]. intros k Hk Hpk. by apply Hlast in Hpk.
  - intros k Hk Hpk. by apply Hlast in Hpk.
Qed.

(** Removing position i leaves the removed item last and the rest ordered. *)
Lemma heap_fix_remove_ordered h i :
  i < heap_Len h -> ordered h (heap_Len h) ->
  ordered (heap_fix_remove h i) (heap_Len h - 1) /\ same_order h (heap_fix_remove h i).
Proof.
  intros Hi Ho. unfold heap_fix_remove. set (n := heap_Len h - 1).
  destruct (Nat.eqb_spec n i) as [E|E].
  { split; [|apply same_order_refl]. intros k Hk. apply Ho. lia. }
  pose proof (Swap_same_order h i n ltac:(lia) ltac:(lia)) as Hs.
  assert (Hh : hole (heap_Swap h i n) n i).
  { destruct (ordered_hole h (heap_Len h) i Ho ltac:(lia)) as [H1' H2'].
    split; intros k Hk; rewrite heap_Swap_lt, !Swap_lookup by lia;
      pose proof (heap_parent_lt k ltac:(lia)).
    - intros ??. rewrite !decide_False by lia. apply Ho. lia.
    - intros Hpk Hi0. pose proof (heap_parent_lt i Hi0).
      rewrite !decide_False by lia. apply H2'; lia. }
  pose proof (heap_down_ordered (heap_Len h) (heap_Swap h i n) i n i) as HD.
  destruct (heap_down (heap_Len h) (heap_Swap h i n) i n) as [h' k].
  destruct HD as (D1 & D2 & D3); try lia; try done; [by rewrite (same_order_Len _ _ Hs); lia|].
  destruct (Nat.ltb_spec i k).
  - split; [done|]. by eapply same_order_trans.
  - destruct D3 as [-> Hc]. rewrite (same_order_Len _ _ Hs).
    destruct (heap_up_ordered (heap_Len h) (heap_Swap h i n) i n) as [U1 U2]; try lia; try done.
    + rewrite (same_order_Len _ _ Hs). lia.
    + split; [done|]. by eapply same_order_trans.
Qed.

(** The first item is a least one. *)
Lemma heap_ordered_root h :
  ordered h (heap_Len h) ->
  forall k, k < heap_Len h -> heap_lt h (items h !!! k) (items h !!! 0) = false.
Proof.
  intros Ho k. induction (lt_wf k) as [k _ IH]. intros Hk.
  destruct (decide (k = 0)) as [->|].
  - destruct (heap_lt h _ _) eqn:E; [|done]. by rewrite (heap_lt_asym h _ _ E) in E.
  - pose proof (heap_parent_lt k ltac:(lia)).
    apply (heap_le_trans h _ (items h !!! heap_parent k)); [apply IH; lia|apply Ho; lia].
Qed.

(** Whatever every exchange of two of the first n positions preserves, up and
    down preserve. *)
Section preserved.
Context (P : S -> Prop) (n : nat).
Hypothesis preserved : forall h i j,
  i < n -> j < n -> i <> j -> n <= heap_Len h -> P h -> P (heap_Swap h i j).

Lemma heap_up_preserves fuel h j :
  j < n -> n <= heap_Len h -> P h ->
  P (heap_up fuel h j) /\ heap_Len (heap_up fuel h j) = heap_Len h.
Proof.
  revert h j. induction fuel as [|fuel IH]; intros h j Hj Hn HP; [done|]. cbn [heap_up].
  destruct (Nat.eqb_spec (heap_parent j) j); [done|]. simpl.
  destruct (negb _); [done|].
  assert (Hlt : heap_parent j < j) by (apply heap_parent_lt; destruct j; [done|lia]).
  pose proof (same_order_Len _ _ (Swap_same_order h (heap_parent j) j ltac:(lia) ltac:(lia))) as E.
  rewrite <- E. apply IH; [lia..|]. apply preserved; (done || lia).
Qed.

Lemma heap_down_preserves fuel h i :
  i < n -> n <= heap_Len h -> P h ->
  P (heap_down fuel h i n).1 /\ heap_Len (heap_down fuel h i n).1 = heap_Len h.
Proof.
  revert h i. induction fuel as [|fuel IH]; intros h i Hi Hn HP; [done|]. cbn [heap_down].
  destruct (Nat.leb_spec n (2 * i + 1)); [done|].
  destruct (heap_child_spec h i n) as (Hj & _ & Hij & _); [done..|].
  destruct (negb _); [done|].
  pose proof (same_order_Len _ _ (Swap_same_order h i (heap_child h i n) ltac:(lia) ltac:(lia))) as E.
  rewrite <- E. apply IH; [lia..|]. apply preserved; (done || lia).
Qed.
End preserved.

Lemma heap_fix_push_preserves (P : S -> Prop) h :
  (forall h i j, i < heap_Len h -> j < heap_Len h -> i <> j -> P h -> P (heap_Swap h i j)) ->
  0 < heap_Len h -> P h -> P (heap_fix_push h).
Proof.
  intros HP Hl HP0. apply (heap_up_preserves P (heap_Len h)); try lia; try done.
  intros; apply HP; (done || lia).
Qed.

Lemma heap_fix_remove_preserves (P : S -> Prop) h i :
  (forall h i j, i < heap_Len h -> j < heap_Len h -> i <> j -> P h -> P (heap_Swap h i j)) ->
  i < heap_Len h -> P h -> P (heap_fix_remove h i).
Proof.
  intros HP Hi HP0. unfold heap_fix_remove. set (n := heap_Len h - 1).
  destruct (Nat.eqb_spec n i) as [E|E]; [done|].
  pose proof (same_order_Len _ _ (Swap_same_order h i n ltac:(lia) ltac:(lia))) as El.
  assert (H1' : P (heap_Swap h i n)) by (apply HP; (done || lia)).
  assert (Hn : forall h' i j, i < n -> j < n -> i <> j -> n <= heap_Len h' -> P h' -> P (heap_Swap h' i j))
    by (intros; apply HP; (done || lia)).
  pose proof (heap_down_preserves P n Hn (heap_Len h) (heap_Swap h i n) i ltac:(lia) ltac:(lia) H1') as [D1 D2].
  destruct (heap_down _ _ _ _) as [h' k]. simpl in *. destruct (i <? k); [done|].
  apply (heap_up_preserves P n Hn); (done || lia).
Qed.

(** The removed item is last. *)
Lemma heap_fix_remove_last h i :
  i < heap_Len h -> items (heap_fix_remove h i) !!! (heap_Len h - 1) = items h !!! i.
Proof.
  intros Hi. unfold heap_fix_remove. set (n := heap_Len h - 1).
  destruct (Nat.eqb_spec n i) as [E|E]; [by rewrite E|].
  pose proof (same_order_Len _ _ (Swap_same_order h i n ltac:(lia) ltac:(lia))) as El.
  set (P h' := n < heap_Len h' /\ items h' !!! n = items h !!! i).
  assert (H1' : P (heap_Swap h i n)).
  { split; [lia|]. rewrite Swap_lookup by lia. rewrite decide_False, decide_True by done. done. }
  assert (Hn : forall h' i j, i < n -> j < n -> i <> j -> n <= heap_Len h' -> P h' -> P (heap_Swap h' i j)).
  { intros h' a b ???? [H2' H3']. split.
    - by rewrite (same_order_Len _ _ (Swap_same_order h' a b ltac:(lia) ltac:(lia))).
    - rewrite Swap_lookup by lia. by rewrite !decide_False by lia. }
  pose proof (heap_down_preserves P n Hn (heap_Len h) (heap_Swap h i n) i ltac:(lia) ltac:(lia) H1') as [D1 D2].
  destruct (heap_down _ _ _ _) as [h' k]. simpl in *. destruct (i <? k); [apply D1|].
  apply (heap_up_preserves P n Hn); (done || lia).
Qed.
End laws.
