(* ===== verification/DnsParse.v ===== *)
(** * internal/dns: the datagram parser

    Parse, parseName, ValidQuestionName and the mnemonics of dns.go. Offsets
    and lengths are nat; a datagram is its list of bytes. *)

From S2P Require Import Prelude Text.

#[local] Open Scope nat_scope.

(** ** Definitions *)

(** Message: the header fields and the first question. *)
Record Message := mkMessage {
  msg_ID : Z;
  msg_Response : bool;
  msg_ResponseCode : Z;
  msg_QuestionName : string;
  msg_QuestionType : Z
}.

(** The errors of Parse and parseName, one per message; [out_of_fuel] is the
    model's own and is proved unreachable. *)
Inductive ParseError :=
| datagram_shorter_than_header
| name_past_end
| compressed_name
| label_past_end
| unsupported_name
| question_truncated
| out_of_fuel.

(** A byte of a supported name: visible ASCII. *)
Definition visible (b : byte) : bool :=
  negb ((byte_val b <? 33)%Z || (126 <? byte_val b)%Z).

(** Ranging over a Go string visits the first byte of each rune. A byte of
    128 or more is rejected where it is met, so up to the return every rune
    is a single byte, and all bytes are visited. *)
Definition ValidQuestionName (name : list byte) : bool :=
  if 253 <? length name then false else forallb visible name.

Definition dot : byte := byte_of 46.

(** The loop of parseName: [name] is the name so far. *)
Fixpoint parseName (fuel : nat) (payload : list byte) (offset : nat) (name : list byte) :
    result ParseError (string * nat) :=
  match fuel with
  | O => Err out_of_fuel
  | S fuel' =>
      if length payload <=? offset then Err name_past_end
      else
        let len := Z.to_nat (byte_val (payload !!! offset)) in
        if len =? 0 then Ok (string_of_bytes name, offset + 1)
        else if negb (Z.land (Z.of_nat len) 0xc0 =? 0)%Z then Err compressed_name
        else
          let offset := offset + 1 in
          if length payload <? offset + len then Err label_past_end
          else
            let nameLength := length name + len in
            let nameLength := if 0 <? length name then nameLength + 1 else nameLength in
            let label := slice payload offset (offset + len) in
            if (253 <? nameLength) || negb (ValidQuestionName label) then Err unsupported_name
            else
              let name := if 0 <? length name then name ++ [dot] else name in
              parseName fuel' payload (offset + len) (name ++ label)
  end.

(** Every iteration of parseName consumes at least one byte. *)
Definition Parse (payload : list byte) : result ParseError Message :=
  if length payload <? 12 then Err datagram_shorter_than_header
  else
    let flags := be_uint (slice payload 2 4) in
    let id := be_uint (slice payload 0 2) in
    let response := negb (Z.land flags 0x8000 =? 0)%Z in
    let code := u8 (Z.land flags 0x000f) in
    let questionCount := be_uint (slice payload 4 6) in
    if (questionCount =? 0)%Z then Ok (mkMessage id response code "" 0)
    else
      '(name, offset) ← parseName (S (length payload)) payload 12 [];
      if length payload <? offset + 4 then Err question_truncated
      else Ok (mkMessage id response code name (be_uint (slice payload offset (offset + 2)))).

Definition ResponseCodeString (code : Z) : string :=
  (match code with
   | 0 => "NOERROR"
   | 1 => "FORMERR"
   | 2 => "SERVFAIL"
   | 3 => "NXDOMAIN"
   | 4 => "NOTIMP"
   | 5 => "REFUSED"
   | _ => "RCODE" +:+ decimal code
   end)%Z.

Definition QueryTypeString (queryType : Z) : string :=
  (match queryType with
   | 1 => "A"
   | 5 => "CNAME"
   | 6 => "SOA"
   | 12 => "PTR"
   | 15 => "MX"
   | 16 => "TXT"
   | 28 => "AAAA"
   | 33 => "SRV"
   | _ => "TYPE" +:+ decimal queryType
   end)%Z.

(** *** The wire format, independently of the parser *)

(** An uncompressed label that can be part of a supported name. *)
Definition label_ok (label : list byte) : Prop :=
  0 < length label < 64 /\ forallb visible label = true.

(** Each label behind its length, then the root's empty label. *)
Definition encode_name (labels : list (list byte)) : list byte :=
  mjoin ((fun label => byte_of (Z.of_nat (length label)) :: label) <$> labels) ++ [byte_of 0].

(** The presentation form: labels between dots. *)
Fixpoint dotted (labels : list (list byte)) : list byte :=
  match labels with
  | [] => []
  | [label] => label
  | label :: labels' => label ++ dot :: dotted labels'
  end.

(** What the bytes after the header must be for a name and a question type. *)
Definition question_at (section name : list byte) (qtype : Z) : Prop :=
  exists labels tail,
    section = encode_name labels ++ tail /\
    Forall label_ok labels /\
    name = dotted labels /\
    length name <= 253 /\
    4 <= length tail /\
    qtype = be_uint (take 2 tail).

(** What a datagram must be for Parse to return [m]. *)
Definition datagram_of (payload : list byte) (m : Message) : Prop :=
  12 <= length payload /\
  msg_ID m = be_uint (slice payload 0 2) /\
  msg_Response m = Z.testbit (be_uint (slice payload 2 4)) 15 /\
  msg_ResponseCode m = (be_uint (slice payload 2 4) mod 16)%Z /\
  (if (be_uint (slice payload 4 6) =? 0)%Z
   then msg_QuestionName m = ""%string /\ msg_QuestionType m = 0%Z
   else exists name, msg_QuestionName m = string_of_bytes name /\
        question_at (drop 12 payload) name (msg_QuestionType m)).

(** A datagram with one question, as a resolver sends it. *)
Definition question_datagram (id flags qdcount : Z) (counts : list byte)
    (labels : list (list byte)) (qtype qclass : Z) (rest : list byte) : list byte :=
  be_bytes 2 id ++ be_bytes 2 flags ++ be_bytes 2 qdcount ++ counts ++
  encode_name labels ++ be_bytes 2 qtype ++ be_bytes 2 qclass ++ rest.

Definition example_labels : list (list byte) := [lit "db"; lit "svc"].

(** ** Lemmas *)

(** What an iteration appends. *)
Definition append_label (name label : list byte) : list byte :=
  (if 0 <? length name then name ++ [dot] else name) ++ label.

Lemma length_append_label name label :
  length (append_label name label) =
    if 0 <? length name then length name + length label + 1 else length name + length label.
Proof. unfold append_label. destruct (0 <? length name); rewrite !length_app; simpl; lia. Qed.

Lemma length_append_labels_ge name labels :
  length name <= length (foldl append_label name labels).
Proof.
  revert name. induction labels as [|l labels IH]; intros name; simpl; [lia|].
  pose proof (IH (append_label name l)). rewrite length_append_label in *.
  destruct (0 <? length name); lia.
Qed.

Lemma append_labels_nonempty name labels :
  0 < length name ->
  foldl append_label name labels = name ++ mjoin (cons dot <$> labels).
Proof.
  revert name. induction labels as [|l labels IH]; intros name Hn; csimpl; [by rewrite app_nil_r|].
  rewrite IH.
  - unfold append_label. destruct (Nat.ltb_spec 0 (length name)); [|lia].
    by rewrite <- !app_assoc.
  - rewrite length_append_label. destruct (Nat.ltb_spec 0 (length name)); lia.
Qed.

Lemma dotted_cons label labels : dotted (label :: labels) = label ++ mjoin (cons dot <$> labels).
Proof.
  revert label. induction labels as [|l labels IH]; intros label; [by rewrite app_nil_r|].
  change (dotted (label :: l :: labels)) with (label ++ dot :: dotted (l :: labels)).
  by rewrite IH.
Qed.

Lemma append_labels_dotted labels :
  Forall label_ok labels -> foldl append_label [] labels = dotted labels.
Proof.
  destruct labels as [|l labels]; [done|]. intros [[Hl _] _]%Forall_cons.
  rewrite dotted_cons. simpl. unfold append_label at 2. simpl.
  apply append_labels_nonempty. lia.
Qed.

Lemma compressed_bits b : (Z.land (byte_val b) 0xc0 =? 0)%Z = (byte_val b <? 64)%Z.
Proof. by destruct b. Qed.

Lemma byte_val_nat b : Z.of_nat (Z.to_nat (byte_val b)) = byte_val b.
Proof. pose proof (byte_val_range b). lia. Qed.

Lemma byte_val_of_nat n : n < 256 -> byte_val (byte_of (Z.of_nat n)) = Z.of_nat n.
Proof. intros. rewrite byte_val_of, Z.mod_small; lia. Qed.

Lemma drop_at {A} `{Inhabited A} (l : list A) i :
  i < length l -> drop i l = l !!! i :: drop (S i) l.
Proof. intros. apply drop_S. by apply list_lookup_lookup_total_lt. Qed.

Lemma encode_name_cons label labels :
  encode_name (label :: labels) = byte_of (Z.of_nat (length label)) :: label ++ encode_name labels.
Proof. unfold encode_name. csimpl. by rewrite <- app_assoc. Qed.

Lemma ValidQuestionName_label l : length l < 64 -> ValidQuestionName l = forallb visible l.
Proof. intros. unfold ValidQuestionName. destruct (Nat.ltb_spec 253 (length l)); [lia|done]. Qed.

(** The datagram from [offset] on, as the iteration splits it. *)
Lemma drop_slice {A} (l : list A) i j : i <= j -> drop i l = slice l i j ++ drop j l.
Proof.
  intros. unfold slice. rewrite <- (take_drop (j - i) (drop i l)) at 1.
  f_equal. rewrite drop_drop. f_equal. lia.
Qed.

Lemma length_slice {A} (l : list A) i j : i <= j -> j <= length l -> length (slice l i j) = j - i.
Proof. intros. unfold slice. rewrite length_take, length_drop. lia. Qed.

Lemma slice_app_drop {A} (l x y : list A) i :
  drop i l = x ++ y -> slice l i (i + length x) = x /\ drop (i + length x) l = y.
Proof.
  intros E. unfold slice. replace (i + length x - i) with (length x) by lia.
  rewrite E, take_app_length. split; [done|].
  rewrite <- drop_drop, E. apply drop_app_length.
Qed.

Section parseName.
Variable payload : list byte.

Definition name_from (offset : nat) (name : list byte) (s : string) (off : nat) : Prop :=
  exists labels tail,
    drop offset payload = encode_name labels ++ tail /\
    Forall label_ok labels /\
    s = string_of_bytes (foldl append_label name labels) /\
    length (foldl append_label name labels) <= 253 /\
    off = offset + length (encode_name labels).

Lemma name_from_root offset name s off :
  offset < length payload -> byte_val (payload !!! offset) = 0%Z -> length name <= 253 ->
  name_from offset name s off <-> s = string_of_bytes name /\ off = offset + 1.
Proof.
  intros Ho Hb Hn. unfold name_from. rewrite drop_at by done. split.
  - intros ([|l labels] & tail & E & Hl & -> & _ & ->); [done|].
    rewrite encode_name_cons in E. simplify_eq/=. apply Forall_cons in Hl as [[? _] _].
    rewrite H, byte_val_of_nat in Hb by lia. lia.
  - intros [-> ->]. exists [], (drop (S offset) payload). simpl. split_and!; try done.
    unfold encode_name. simpl. f_equal. by rewrite <- (byte_of_val (payload !!! offset)), Hb.
Qed.

Lemma name_from_label offset name s off len :
  offset < length payload -> byte_val (payload !!! offset) = Z.of_nat len -> len <> 0 ->
  let label := slice payload (offset + 1) (offset + 1 + len) in
  name_from offset name s off <->
    len < 64 /\ offset + 1 + len <= length payload /\ forallb visible label = true /\
    length (append_label name label) <= 253 /\
    name_from (offset + 1 + len) (append_label name label) s off.
Proof.
  intros Ho Hb Hlen label. unfold name_from. rewrite drop_at by done. split.
  - intros ([|l labels] & tail & E & Hl & Hs & Hle & Hoff).
    { unfold encode_name in E. simplify_eq/=. rewrite H in Hb. rewrite byte_val_of, Z.mod_0_l in Hb; lia. }
    rewrite encode_name_cons in E. simpl in E. injection E as E1 E2.
    apply Forall_cons in Hl as [[Hll Hlv] Hl].
    rewrite E1, byte_val_of_nat in Hb by lia. assert (len = length l) as -> by lia.
    replace (S offset) with (offset + 1) in E2 by lia. rewrite <- app_assoc in E2.
    destruct (slice_app_drop _ _ _ _ E2) as [E3 E4]. fold label in E3. rewrite E3.
    split_and!; try done; try lia.
    + apply (f_equal length) in E2. rewrite length_drop, !length_app in E2. lia.
    + pose proof (length_append_labels_ge (append_label name l) labels). simpl in Hle. lia.
    + exists labels, tail. split_and!; try done. rewrite Hoff, encode_name_cons. simpl.
      rewrite length_app. lia.
  - intros (H64 & Hle & Hv & _ & labels & tail & E & Hl & Hs & H253 & Hoff).
    assert (Hll : length label = len) by (unfold label; rewrite length_slice; lia).
    exists (label :: labels), tail. rewrite encode_name_cons, Hll. simpl. split_and!; try done.
    + f_equal; [by rewrite <- Hb, byte_of_val|].
      rewrite <- app_assoc, <- E. replace (S offset) with (offset + 1) by lia.
      apply drop_slice. lia.
    + constructor; [|done]. split; [lia|done].
    + rewrite Hoff, length_app. lia.
Qed.

Lemma parseName_spec fuel offset name s off :
  length payload < fuel + offset -> length name <= 253 ->
  parseName fuel payload offset name = Ok (s, off) <-> name_from offset name s off.
Proof.
  revert offset name. induction fuel as [|fuel IH]; intros offset name Hf Hn; simpl.
  - split; [done|]. intros (labels & tail & E & _). apply (f_equal length) in E.
    unfold encode_name in E. rewrite length_drop, !length_app in E. simpl in E. lia.
  - destruct (Nat.leb_spec (length payload) offset) as [Ho|Ho].
    + split; [done|]. intros (labels & tail & E & _). apply (f_equal length) in E.
      unfold encode_name in E. rewrite length_drop, !length_app in E. simpl in E. lia.
    + pose proof (byte_val_nat (payload !!! offset)) as Hb.
      set (len := Z.to_nat _) in *. destruct (Nat.eqb_spec len 0) as [E0|E0].
      * rewrite name_from_root by (done || lia). split; [by intros [= -> ->]|by intros [-> ->]].
      * rewrite (name_from_label _ _ _ _ len) by done. rewrite Hb, compressed_bits.
        destruct (Z.ltb_spec (byte_val (payload !!! offset)) 64); simpl.
        2: { split; [done|]. intros (? & _). lia. }
        destruct (Nat.ltb_spec (length payload) (offset + 1 + len)); [split; [done|]; lia|].
        rewrite ValidQuestionName_label by (rewrite length_slice; lia).
        rewrite length_append_label, length_slice by lia.
        replace (offset + 1 + len - (offset + 1)) with len by lia.
        set (label := slice _ _ _).
        assert (El : length (append_label name label) =
          if 0 <? length name then length name + len + 1 else length name + len).
        { rewrite length_append_label. unfold label. rewrite length_slice by lia.
          by replace (offset + 1 + len - (offset + 1)) with len by lia. }
        destruct (Nat.ltb_spec 253 (if 0 <? length name then length name + len + 1 else length name + len));
          simpl; [split; [done|lia]|].
        destruct (forallb visible label) eqn:Ev; simpl.
        2: { split; [done|]. by intros (_ & _ & ? & _). }
        fold (append_label name label). rewrite IH by lia.
        split; [intros; split_and!; try done; lia|by intros (_ & _ & _ & _ & ?)].
Qed.

Lemma parseName_fuel fuel offset name :
  offset <= length payload -> length payload < fuel + offset ->
  parseName fuel payload offset name <> Err out_of_fuel.
Proof.
  revert offset name. induction fuel as [|fuel IH]; intros offset name Ho Hf; simpl; [lia|].
  repeat (case_match; try done); apply IH; rewrite ?Nat.ltb_ge, ?Nat.leb_gt in *; lia.
Qed.
End parseName.

Lemma land_bit15 z : (0 <= z < 65536)%Z -> negb (Z.land z 0x8000 =? 0)%Z = Z.testbit z 15.
Proof.
  intros Hz. replace (Z.land z 0x8000) with (if Z.testbit z 15 then 0x8000 else 0)%Z.
  { by destruct (Z.testbit z 15). }
  apply Z.bits_inj'. intros n Hn. rewrite Z.land_spec.
  change 0x8000%Z with (2 ^ 15)%Z. rewrite Z.pow2_bits_eqb by done.
  destruct (Z.eqb_spec 15 n) as [<-|].
  - destruct (Z.testbit z 15); by rewrite ?andb_true_r, ?Z.pow2_bits_true, ?Z.bits_0.
  - rewrite andb_false_r. destruct (Z.testbit z 15); [|by rewrite Z.bits_0].
    apply Z.pow2_bits_false. done.
Qed.

Lemma land_low4 z : u8 (Z.land z 0x000f) = (z mod 16)%Z.
Proof.
  change 0x000f%Z with (Z.ones 4). rewrite Z.land_ones by done.
  pose proof (Z.mod_pos_bound z 16 ltac:(done)). apply uint_small. simpl in *. lia.
Qed.

Lemma be_uint_u16 (l : list byte) : length l <= 2 -> (0 <= be_uint l < 65536)%Z.
Proof.
  intros. pose proof (be_uint_range l).
  pose proof (Z.pow_le_mono_r 256 (Z.of_nat (length l)) 2 ltac:(done) ltac:(lia)). lia.
Qed.

Lemma length_slice_le {A} (l : list A) i j : length (slice l i j) <= j - i.
Proof. unfold slice. rewrite length_take. lia. Qed.

Lemma encode_name_question section name qtype payload :
  drop 12 payload = section ->
  question_at section name qtype <->
  exists off, name_from payload 12 [] (string_of_bytes name) off /\
    off + 4 <= length payload /\ qtype = be_uint (slice payload off (off + 2)).
Proof.
  intros <-. split.
  - intros (labels & tail & E & Hl & -> & H253 & Ht & ->).
    destruct (slice_app_drop _ _ _ _ E) as [_ E2].
    exists (12 + length (encode_name labels)). split_and!.
    + exists labels, tail. by rewrite append_labels_dotted.
    + apply (f_equal length) in E2. rewrite length_drop in E2. lia.
    + unfold slice. rewrite E2. f_equal. f_equal. lia.
  - intros (off & (labels & tail & E & Hl & Hs & H253 & ->) & Hoff & ->).
    rewrite append_labels_dotted in Hs, H253 by done. apply (inj string_of_bytes) in Hs as ->.
    destruct (slice_app_drop _ _ _ _ E) as [_ E2].
    exists labels, tail. split_and!; try done.
    + apply (f_equal length) in E2. rewrite length_drop in E2. lia.
    + unfold slice. rewrite E2. f_equal. f_equal. lia.
Qed.

Lemma Parse_Ok payload m : Parse payload = Ok m <-> datagram_of payload m.
Proof.
  unfold Parse, datagram_of. destruct (Nat.ltb_spec (length payload) 12).
  { split; [done|]. intros [? _]. lia. }
  rewrite land_bit15, land_low4 by (apply be_uint_u16, length_slice_le).
  destruct m as [id resp code name qtype]. cbn [msg_ID msg_Response msg_ResponseCode msg_QuestionName msg_QuestionType].
  destruct (be_uint (slice payload 4 6) =? 0)%Z.
  { split; [intros [=]; subst; by split_and!|]. by intros (_ & -> & -> & -> & -> & ->). }
  split.
  - destruct (parseName _ _ _ _) as [[s off]|] eqn:E; [|done]. simpl.
    apply parseName_spec in E; [|lia|simpl; lia].
    destruct (Nat.ltb_spec (length payload) (off + 4)); [done|]. intros [=]. subst.
    split_and!; try done. exists (bytes_of_string name). rewrite string_of_bytes_of_string.
    split; [done|]. apply (encode_name_question _ _ _ payload); [done|].
    exists off. by rewrite string_of_bytes_of_string.
  - intros (_ & -> & -> & -> & name' & -> & Hq).
    apply (encode_name_question _ _ _ payload) in Hq as (off & Hn & Hoff & ->); [|done].
    apply (parseName_spec payload (S (length payload))) in Hn; [|lia|simpl; lia].
    rewrite Hn. simpl. destruct (Nat.ltb_spec (length payload) (off + 4)); [lia|done].
Qed.

Lemma Parse_fuel payload : Parse payload <> Err out_of_fuel.
Proof.
  unfold Parse. destruct (Nat.ltb_spec (length payload) 12); [done|].
  case_match; [done|]. destruct (parseName _ _ _ _) as [[s off]|e] eqn:E; simpl.
  - by case_match.
  - intros [= ->]. by apply parseName_fuel in E; [|lia..].
Qed.

Lemma be_bytes_2 z : be_bytes 2 z = [byte_of (z / 256); byte_of z].
Proof. reflexivity. Qed.

Lemma be_uint_bytes_2 z : (0 <= z < 65536)%Z -> be_uint [byte_of (z / 256); byte_of z] = z.
Proof. intros. rewrite <- be_bytes_2, be_uint_bytes. apply Z.mod_small. done. Qed.

(** ** Theorems *)

(** C30. Parse accepts exactly the datagrams it documents: a whole header
    and, when the header counts a question, an uncompressed name of visible
    ASCII labels whose presentation form has at most 253 bytes, followed by
    a type and a class; the message it returns is read off the bytes. Its
    loop ends within the datagram on every input. *)
Theorem Parse_exact payload :
  (forall m, Parse payload = Ok m <-> datagram_of payload m) /\ Parse payload <> Err out_of_fuel.
Proof. split; [apply Parse_Ok|apply Parse_fuel]. Qed.

(** What a resolver sends is what Parse returns: a datagram with a
    question for any supported name yields the identifier, the response bit,
    the response code, the name in presentation form and the type, whatever
    the other header counts, the class and the following bytes are. *)
Theorem Parse_question_roundtrip id flags qdcount counts labels qtype qclass rest :
  (0 <= id < 65536)%Z -> (0 <= flags < 65536)%Z -> (0 < qdcount < 65536)%Z ->
  (0 <= qtype < 65536)%Z -> length counts = 6 ->
  Forall label_ok labels -> length (dotted labels) <= 253 ->
  Parse (question_datagram id flags qdcount counts labels qtype qclass rest) =
    Ok (mkMessage id (Z.testbit flags 15) (flags mod 16)
          (string_of_bytes (dotted labels)) qtype).
Proof.
  intros Hid Hfl Hqd Hqt Hc Hl H253. apply Parse_Ok. unfold question_datagram, datagram_of.
  rewrite !be_bytes_2. do 7 (destruct counts as [|? counts]; try done).
  unfold slice. cbn [app length drop take Nat.sub msg_ID msg_Response msg_ResponseCode
    msg_QuestionName msg_QuestionType].
  rewrite !be_uint_bytes_2 by lia. destruct (Z.eqb_spec qdcount 0); [lia|].
  split_and!; try done; [lia|]. eexists. split; [done|].
  eexists labels, _. split_and!; try done; simpl; [lia|].
  by rewrite be_uint_bytes_2.
Qed.

Lemma Parse_question_roundtrip_witness :
  Parse (question_datagram 7 0x0100 1 (replicate 6 (byte_of 0)) example_labels 28 1 []) =
    Ok (mkMessage 7 false 0 "db.svc" 28).
Proof.
  apply (Parse_question_roundtrip 7 0x0100 1 (replicate 6 (byte_of 0)) example_labels 28 1 []);
    try done; try (simpl; lia).
  repeat constructor; simpl; lia.
Defined.
