(* ===== verification/Dns.v ===== *)
(** * internal/dns: the transaction correlator

    Correlator of dns.go with its deadline heap of pending.go. Queries live in
    a memory of mutable cells: the pending map and the heap hold pointers into
    it, and Swap, Push and Pop write the index field of the cell. A Go panic
    (heap.Remove of an index outside the heap) is [None], proved not to occur
    in any history. *)

From S2P Require Import Prelude Flow Heap DnsParse.

#[local] Open Scope Z_scope.

(** ** Definitions *)

Record Fragment := mkFragment {
  fr_ObservedAt : Time;
  fr_KernelTimestampNS : Z;
  fr_NodeName : string;
  fr_ObserverPID : Z;
  fr_Process : option Process;
  fr_SourceResolved : option ResolvedEndpoint;
  fr_DestinationResolved : option ResolvedEndpoint;
  fr_SourcePod : option Pod;
  fr_DestinationPod : option Pod;
  fr_ObserverPod : option Pod;
  fr_Source : Endpoint;
  fr_Destination : Endpoint;
  fr_Payload : list byte
}.

Record Transaction := mkTransaction {
  tx_SchemaVersion : string;
  tx_ObservedAt : Time;
  tx_NodeName : string;
  tx_ObserverPID : Z;
  tx_Process : option Process;
  tx_ClientResolved : option ResolvedEndpoint;
  tx_ServerResolved : option ResolvedEndpoint;
  tx_ClientPod : option Pod;
  tx_ServerPod : option Pod;
  tx_ObserverPod : option Pod;
  tx_Protocol : string;
  tx_Client : Endpoint;
  tx_Server : Endpoint;
  tx_QueryName : string;
  tx_QueryType : string;
  tx_Outcome : string;
  tx_Reason : string;
  tx_ResponseCode : string;
  tx_LatencyMeasured : bool;
  tx_LatencyMicros : Z
}.

Definition SchemaVersion : string := "network.dns/v1alpha1".
Definition OutcomeResponse : string := "response".
Definition OutcomeNoResponse : string := "no_response".
Definition OutcomeParseError : string := "parse_failed".
Definition OutcomeIncomplete : string := "incomplete".
Definition ReasonCaptureEnded : string := "capture_ended".
Definition ReasonStateCapacity : string := "state_capacity".
Definition defaultTimeout : Duration := 5 * Second.
Definition defaultMaxPending : Z := 16384.

Record pendingKey := mkPendingKey {
  pk_Client : Endpoint;
  pk_Server : Endpoint;
  pk_ID : Z;
  pk_Name : string;
  pk_QueryType : Z;
  pk_ObserverPID : Z;
  pk_NodeName : string
}.

#[export] Instance pendingKey_eq_dec : EqDecision pendingKey.
Proof. solve_decision. Defined.

#[export] Instance pendingKey_countable : Countable pendingKey.
Proof.
  refine (inj_countable'
    (fun k => (pk_Client k, pk_Server k, pk_ID k, pk_Name k, pk_QueryType k, pk_ObserverPID k,
               pk_NodeName k))
    (fun '(a, b, c, d, e, f, g) => mkPendingKey a b c d e f g) _).
  by intros [].
Defined.

Record pendingQuery := mkPendingQuery {
  pq_fragment : Fragment;
  pq_message : Message;
  pq_key : pendingKey;
  pq_index : Z;
  pq_sequence : Z
}.

Definition zeroFragment : Fragment :=
  mkFragment 0 0 "" 0 None None None None None None zeroEndpoint zeroEndpoint [].
Definition zeroMessage : Message := mkMessage 0 false 0 "" 0.
Definition zeroKey : pendingKey := mkPendingKey zeroEndpoint zeroEndpoint 0 "" 0 0 "".
Definition zeroQuery : pendingQuery := mkPendingQuery zeroFragment zeroMessage zeroKey 0 0.

Definition set_index (i : Z) (q : pendingQuery) : pendingQuery :=
  mkPendingQuery (pq_fragment q) (pq_message q) (pq_key q) i (pq_sequence q).

(** *** pendingHeap: pointers, with the memory they point into *)
Record pendingHeap := mkPendingHeap {
  ph_memory : gmap positive pendingQuery;
  ph_items : list positive
}.

Definition deref (h : pendingHeap) (p : positive) : pendingQuery :=
  default zeroQuery (ph_memory h !! p).

(** query.index = i *)
Definition store_index (i : Z) (p : positive) (h : pendingHeap) : pendingHeap :=
  mkPendingHeap (alter (set_index i) p (ph_memory h)) (ph_items h).

(** The comparison of Less: the earlier observation, then the earlier arrival. *)
Definition query_less (x y : pendingQuery) : bool :=
  if fr_ObservedAt (pq_fragment x) =? fr_ObservedAt (pq_fragment y)
  then pq_sequence x <? pq_sequence y
  else time_Before (fr_ObservedAt (pq_fragment x)) (fr_ObservedAt (pq_fragment y)).

Definition pendingHeap_Less (h : pendingHeap) (i j : nat) : bool :=
  query_less (deref h (ph_items h !!! i)) (deref h (ph_items h !!! j)).

Definition pendingHeap_Swap (h : pendingHeap) (i j : nat) : pendingHeap :=
  let items := exchange (ph_items h) i j in
  store_index (Z.of_nat j) (items !!! j)
    (store_index (Z.of_nat i) (items !!! i) (mkPendingHeap (ph_memory h) items)).

#[export] Instance pendingHeap_interface : HeapInterface pendingHeap := {
  heap_Len h := length (ph_items h);
  heap_Less := pendingHeap_Less;
  heap_Swap := pendingHeap_Swap
}.

Definition pendingHeap_Push (h : pendingHeap) (query : positive) : pendingHeap :=
  let h := store_index (Z.of_nat (length (ph_items h))) query h in
  mkPendingHeap (ph_memory h) (ph_items h ++ [query]).

Definition pendingHeap_Pop (h : pendingHeap) : pendingHeap :=
  let last := (length (ph_items h) - 1)%nat in
  let query := ph_items h !!! last in
  let h := store_index (-1) query h in
  mkPendingHeap (ph_memory h) (take last (ph_items h)).

(** heap.Push *)
Definition heap_Push (h : pendingHeap) (query : positive) : pendingHeap :=
  heap_fix_push (pendingHeap_Push h query).

(** heap.Remove panics on an index outside the heap. *)
Definition heap_Remove (h : pendingHeap) (i : Z) : option pendingHeap :=
  if (i <? 0) || (Z.of_nat (length (ph_items h)) <=? i) then None
  else Some (pendingHeap_Pop (heap_fix_remove h (Z.to_nat i))).

(** *** Correlator *)
Record Correlator := mkCorrelator {
  cr_timeout : Duration;
  cr_maxPending : Z;
  cr_pending : gmap pendingKey positive;
  cr_deadlines : pendingHeap;
  cr_sequence : Z
}.

Record Config := mkConfig { cf_Timeout : Duration; cf_MaxPending : Z }.

Definition NewCorrelatorWithConfig (config : Config) : Correlator :=
  let timeout := if cf_Timeout config <=? 0 then defaultTimeout else cf_Timeout config in
  let maxPending := if cf_MaxPending config <=? 0 then defaultMaxPending else cf_MaxPending config in
  mkCorrelator timeout maxPending ∅ (mkPendingHeap ∅ []) 0.

Definition NewCorrelator (timeout : Duration) : Correlator :=
  NewCorrelatorWithConfig (mkConfig timeout 0).

Definition set_state (c : Correlator) (pending : gmap pendingKey positive) (h : pendingHeap) :
    Correlator :=
  mkCorrelator (cr_timeout c) (cr_maxPending c) pending h (cr_sequence c).

(** Correlator.remove of the query a pointer of the correlator leads to *)
Definition remove (c : Correlator) (query : positive) : option Correlator :=
  q ← ph_memory (cr_deadlines c) !! query;
  h ← heap_Remove (cr_deadlines c) (pq_index q);
  Some (set_state c (delete (pq_key q) (cr_pending c)) h).

(** Values are immutable here, so the copies snapshotFragment makes of pods,
    endpoints and strings are the values; the payload and the command line
    are dropped. *)
Definition snapshotFragment (f : Fragment) : Fragment :=
  mkFragment (fr_ObservedAt f) (fr_KernelTimestampNS f) (fr_NodeName f) (fr_ObserverPID f)
    (without_cmdline <$> fr_Process f) (fr_SourceResolved f) (fr_DestinationResolved f)
    (fr_SourcePod f) (fr_DestinationPod f) (fr_ObserverPod f) (fr_Source f) (fr_Destination f) [].

Definition noResponse (query : pendingQuery) : Transaction :=
  let f := pq_fragment query in
  mkTransaction SchemaVersion (fr_ObservedAt f) (fr_NodeName f) (fr_ObserverPID f) (fr_Process f)
    (fr_SourceResolved f) (fr_DestinationResolved f) (fr_SourcePod f) (fr_DestinationPod f)
    (fr_ObserverPod f) "udp" (fr_Source f) (fr_Destination f)
    (msg_QuestionName (pq_message query)) (QueryTypeString (msg_QuestionType (pq_message query)))
    OutcomeNoResponse "" "" false 0.

(** transaction.Outcome = OutcomeIncomplete; transaction.Reason = reason *)
Definition set_incomplete (reason : string) (t : Transaction) : Transaction :=
  mkTransaction (tx_SchemaVersion t) (tx_ObservedAt t) (tx_NodeName t) (tx_ObserverPID t)
    (tx_Process t) (tx_ClientResolved t) (tx_ServerResolved t) (tx_ClientPod t) (tx_ServerPod t)
    (tx_ObserverPod t) (tx_Protocol t) (tx_Client t) (tx_Server t) (tx_QueryName t) (tx_QueryType t)
    OutcomeIncomplete reason (tx_ResponseCode t) (tx_LatencyMeasured t) (tx_LatencyMicros t).

(** The loops of expire, Finish and Flush: while the heap is not empty, look
    at its first query, stop or finalize and remove it. *)
Fixpoint drain (fuel : nat) (stop : pendingQuery -> bool) (final : pendingQuery -> Transaction)
    (c : Correlator) (transactions : list Transaction) : option (Correlator * list Transaction) :=
  match ph_items (cr_deadlines c) with
  | [] => Some (c, transactions)
  | query :: _ =>
      match fuel with
      | O => None
      | S fuel' =>
          let q := deref (cr_deadlines c) query in
          if stop q then Some (c, transactions)
          else c' ← remove c query; drain fuel' stop final c' (transactions ++ [final q])
      end
  end.

(** Every iteration removes a query. *)
Definition drain_fuel (c : Correlator) : nat := length (ph_items (cr_deadlines c)).

Definition expire (c : Correlator) (now : Time) : option (Correlator * list Transaction) :=
  drain (drain_fuel c)
    (fun q => time_Sub now (fr_ObservedAt (pq_fragment q)) <? cr_timeout c) noResponse c [].

Definition Expire (c : Correlator) (now : Time) : option (Correlator * list Transaction) :=
  expire c now.

Definition Finish (c : Correlator) (now : Time) : option (Correlator * list Transaction) :=
  '(c, transactions) ← Expire c now;
  drain (drain_fuel c) (fun _ => false)
    (fun q => set_incomplete ReasonCaptureEnded (noResponse q)) c transactions.

Definition Flush (c : Correlator) : option (Correlator * list Transaction) :=
  drain (drain_fuel c) (fun _ => false) noResponse c [].

(** The transaction of a datagram that does not parse: without a header no
    direction, with one the direction it states. *)
Definition parseFailed (payload : list byte) (f : Fragment) : Transaction :=
  let short := (length payload <? 12)%nat in
  let response := negb (Z.land (byte_val (payload !!! 2%nat)) 0x80 =? 0) in
  let '(sr, dr, sp, dp, s, d) :=
    if short then (None, None, None, None, fr_Source f, fr_Destination f)
    else if response
    then (fr_DestinationResolved f, fr_SourceResolved f, fr_DestinationPod f, fr_SourcePod f,
          fr_Destination f, fr_Source f)
    else (fr_SourceResolved f, fr_DestinationResolved f, fr_SourcePod f, fr_DestinationPod f,
          fr_Source f, fr_Destination f) in
  mkTransaction SchemaVersion (fr_ObservedAt f) (fr_NodeName f) (fr_ObserverPID f) (fr_Process f)
    sr dr sp dp (fr_ObserverPod f) "udp" s d "" "" OutcomeParseError "" "" false 0.

Definition queryKey (f : Fragment) (m : Message) : pendingKey :=
  mkPendingKey (fr_Source f) (fr_Destination f) (msg_ID m) (msg_QuestionName m)
    (msg_QuestionType m) (fr_ObserverPID f) (fr_NodeName f).

Definition responseKey (f : Fragment) (m : Message) : pendingKey :=
  mkPendingKey (fr_Destination f) (fr_Source f) (msg_ID m) (msg_QuestionName m)
    (msg_QuestionType m) (fr_ObserverPID f) (fr_NodeName f).

(** The query branch of Process *)
Definition processQuery (c : Correlator) (f : Fragment) (m : Message)
    (transactions : list Transaction) : Correlator * list Transaction :=
  let key := queryKey f m in
  match cr_pending c !! key with
  | Some _ => (c, transactions)
  | None =>
      if cr_maxPending c <=? Z.of_nat (size (cr_pending c)) then
        let q := mkPendingQuery f m zeroKey 0 0 in
        (c, transactions ++ [set_incomplete ReasonStateCapacity (noResponse q)])
      else
        let sequence := u64 (cr_sequence c + 1) in
        let h := cr_deadlines c in
        let query := fresh (dom (ph_memory h)) in
        let q := mkPendingQuery f m key 0 sequence in
        let h := mkPendingHeap (<[query := q]> (ph_memory h)) (ph_items h) in
        (mkCorrelator (cr_timeout c) (cr_maxPending c) (<[key := query]> (cr_pending c))
           (heap_Push h query) sequence, transactions)
  end.

(** The transaction of a response, with the query it answers if one is pending *)
Definition responseTransaction (f : Fragment) (m : Message) (query : option pendingQuery) :
    Transaction :=
  let t p cr sr cp sp op measured micros :=
    mkTransaction SchemaVersion (fr_ObservedAt f) (fr_NodeName f) (fr_ObserverPID f) p cr sr cp sp op
      "udp" (fr_Destination f) (fr_Source f) (msg_QuestionName m)
      (QueryTypeString (msg_QuestionType m)) OutcomeResponse ""
      (ResponseCodeString (msg_ResponseCode m)) measured micros in
  match query with
  | None => t (fr_Process f) (fr_DestinationResolved f) (fr_SourceResolved f) (fr_DestinationPod f)
              (fr_SourcePod f) (fr_ObserverPod f) false 0
  | Some q =>
      let g := pq_fragment q in
      let measured := negb (fr_KernelTimestampNS g =? 0) &&
                      (fr_KernelTimestampNS g <=? fr_KernelTimestampNS f) in
      t (fr_Process g) (fr_SourceResolved g) (fr_DestinationResolved g) (fr_SourcePod g)
        (fr_DestinationPod g) (fr_ObserverPod g) measured
        (if measured then u64 (fr_KernelTimestampNS f - fr_KernelTimestampNS g) / 1000 else 0)
  end.

(** The response branch of Process *)
Definition processResponse (c : Correlator) (f : Fragment) (m : Message)
    (transactions : list Transaction) : option (Correlator * list Transaction) :=
  match cr_pending c !! responseKey f m with
  | Some query =>
      let q := deref (cr_deadlines c) query in
      c' ← remove c query;
      Some (c', transactions ++ [responseTransaction f m (Some q)])
  | None => Some (c, transactions ++ [responseTransaction f m None])
  end.

Definition Correlator_Process (c : Correlator) (fragment : Fragment) :
    option (Correlator * list Transaction) :=
  '(c, transactions) ← expire c (fr_ObservedAt fragment);
  let f := snapshotFragment fragment in
  match Parse (fr_Payload fragment) with
  | Err _ => Some (c, transactions ++ [parseFailed (fr_Payload fragment) f])
  | Ok m =>
      if negb (msg_Response m) then Some (processQuery c f m transactions)
      else processResponse c f m transactions
  end.

(** *** The abstract correlator: pending queries by key, the deadline order
    computed when it is needed *)

(** The order in which queries expire. *)
Definition deadline (q : pendingQuery) : Time * Z :=
  (fr_ObservedAt (pq_fragment q), pq_sequence q).

Record Spec := mkSpec {
  sp_timeout : Duration;
  sp_maxPending : Z;
  sp_queries : gmap pendingKey pendingQuery;
  sp_sequence : Z
}.

Definition set_queries (s : Spec) (queries : gmap pendingKey pendingQuery) : Spec :=
  mkSpec (sp_timeout s) (sp_maxPending s) queries (sp_sequence s).

Definition by_deadline (queries : gmap pendingKey pendingQuery) : list pendingQuery :=
  sort_Slice query_less (map_to_list queries).*2.

(** A query whose observation age has reached the timeout *)
Definition due (timeout : Duration) (now : Time) (q : pendingQuery) : bool :=
  timeout <=? time_Sub now (fr_ObservedAt (pq_fragment q)).

Definition due_queries (s : Spec) (now : Time) : gmap pendingKey pendingQuery :=
  filter (fun kq => due (sp_timeout s) now kq.2 = true) (sp_queries s).

Definition fresh_queries (s : Spec) (now : Time) : gmap pendingKey pendingQuery :=
  filter (fun kq => due (sp_timeout s) now kq.2 = false) (sp_queries s).

Definition spec_expire (s : Spec) (now : Time) : Spec * list Transaction :=
  (set_queries s (fresh_queries s now), noResponse <$> by_deadline (due_queries s now)).

Definition spec_finish (s : Spec) (now : Time) : Spec * list Transaction :=
  (set_queries s ∅,
   (noResponse <$> by_deadline (due_queries s now)) ++
   ((fun q => set_incomplete ReasonCaptureEnded (noResponse q)) <$>
      by_deadline (fresh_queries s now))).

Definition spec_flush (s : Spec) : Spec * list Transaction :=
  (set_queries s ∅, noResponse <$> by_deadline (sp_queries s)).

Definition spec_query (s : Spec) (f : Fragment) (m : Message) : Spec * list Transaction :=
  let key := queryKey f m in
  match sp_queries s !! key with
  | Some _ => (s, [])
  | None =>
      if sp_maxPending s <=? Z.of_nat (size (sp_queries s)) then
        (s, [set_incomplete ReasonStateCapacity (noResponse (mkPendingQuery f m zeroKey 0 0))])
      else
        let sequence := u64 (sp_sequence s + 1) in
        (mkSpec (sp_timeout s) (sp_maxPending s)
           (<[key := mkPendingQuery f m key 0 sequence]> (sp_queries s)) sequence, [])
  end.

Definition spec_response (s : Spec) (f : Fragment) (m : Message) : Spec * list Transaction :=
  let key := responseKey f m in
  (set_queries s (delete key (sp_queries s)), [responseTransaction f m (sp_queries s !! key)]).

Definition spec_process (s : Spec) (fragment : Fragment) : Spec * list Transaction :=
  let '(s, expired) := spec_expire s (fr_ObservedAt fragment) in
  let f := snapshotFragment fragment in
  let '(s, final) :=
    match Parse (fr_Payload fragment) with
    | Err _ => (s, [parseFailed (fr_Payload fragment) f])
    | Ok m => if msg_Response m then spec_response s f m else spec_query s f m
    end in
  (s, expired ++ final).

(** The operations a capture performs, and what they return in turn. *)
Inductive operation :=
| OpProcess (fragment : Fragment)
| OpExpire (now : Time)
| OpFinish (now : Time)
| OpFlush.

Definition step (c : Correlator) (op : operation) : option (Correlator * list Transaction) :=
  match op with
  | OpProcess fragment => Correlator_Process c fragment
  | OpExpire now => Expire c now
  | OpFinish now => Finish c now
  | OpFlush => Flush c
  end.

Fixpoint run (c : Correlator) (ops : list operation) : option (Correlator * list (list Transaction)) :=
  match ops with
  | [] => Some (c, [])
  | op :: ops' =>
      '(c, out) ← step c op;
      '(c, outs) ← run c ops';
      Some (c, out :: outs)
  end.

Definition spec_step (s : Spec) (op : operation) : Spec * list Transaction :=
  match op with
  | OpProcess fragment => spec_process s fragment
  | OpExpire now => spec_expire s now
  | OpFinish now => spec_finish s now
  | OpFlush => spec_flush s
  end.

Fixpoint spec_run (s : Spec) (ops : list operation) : Spec * list (list Transaction) :=
  match ops with
  | [] => (s, [])
  | op :: ops' =>
      let '(s, out) := spec_step s op in
      let '(s, outs) := spec_run s ops' in
      (s, out :: outs)
  end.

(** What the heap's memory holds, apart from the positions. *)
Definition erase (h : pendingHeap) : gmap positive pendingQuery := set_index 0 <$> ph_memory h.

Definition queries (c : Correlator) : gmap pendingKey pendingQuery :=
  (fun p => set_index 0 (deref (cr_deadlines c) p)) <$> cr_pending c.

Definition spec_of (c : Correlator) : Spec :=
  mkSpec (cr_timeout c) (cr_maxPending c) (queries c) (cr_sequence c).

(** Every pointer's cell knows its position in the heap. *)
Definition indexed (h : pendingHeap) : Prop :=
  forall i p, ph_items h !! i = Some p -> pq_index (deref h p) = Z.of_nat i.

Definition deadline_ordered (h : pendingHeap) : Prop :=
  heap_ordered (fun x y => query_less (deref h x) (deref h y)) (ph_items h) (length (ph_items h)).

(** The invariant of the correlator: the map and the heap hold the same
    pointers, each once; each cell is filed under its own key and knows its
    position; the heap is ordered, bounded, and no two deadlines are equal. *)
Record correlator_inv (c : Correlator) : Prop := {
  inv_items : ph_items (cr_deadlines c) ≡ₚ (map_to_list (cr_pending c)).*2;
  inv_NoDup : NoDup (ph_items (cr_deadlines c));
  inv_cell k p : cr_pending c !! k = Some p ->
    exists q, ph_memory (cr_deadlines c) !! p = Some q /\ pq_key q = k /\
      k = queryKey (pq_fragment q) (pq_message q) /\ 0 < pq_sequence q <= cr_sequence c;
  inv_indexed : indexed (cr_deadlines c);
  inv_ordered : deadline_ordered (cr_deadlines c);
  inv_bound : Z.of_nat (size (cr_pending c)) <= cr_maxPending c;
  inv_positive : 0 < cr_timeout c /\ 0 < cr_maxPending c;
  inv_sequence k k' q q' : queries c !! k = Some q -> queries c !! k' = Some q' ->
    pq_sequence q = pq_sequence q' -> k = k'
}.

(** ** Lemmas *)

Lemma query_less_key x y : query_less x y = (gocmp (deadline x) (deadline y) <? 0).
Proof.
  unfold query_less, deadline, gocmp, compare_pair. simpl. unfold gocmp, compare_int, time_Before.
  destruct (Z.eqb_spec (fr_ObservedAt (pq_fragment x)) (fr_ObservedAt (pq_fragment y))) as [->|];
    repeat (case_match; bool_to_Z; simpl in *); try done; lia.
Qed.

Lemma query_less_asym x y : query_less x y = true -> query_less y x = false.
Proof.
  rewrite !query_less_key, Z.ltb_lt, Z.ltb_ge, (gocmp_opp (deadline x)). lia.
Qed.

Lemma query_le_trans x y z :
  query_less y x = false -> query_less z y = false -> query_less z x = false.
Proof. apply (not_after_trans _ _ query_less_key). Qed.

Lemma deref_erase h p : set_index 0 (deref h p) = default zeroQuery (erase h !! p).
Proof. unfold deref, erase. rewrite lookup_fmap. by destruct (ph_memory h !! p). Qed.

Lemma erase_store_index i p h : erase (store_index i p h) = erase h.
Proof.
  unfold erase, store_index. simpl. apply map_eq. intros p'. rewrite !lookup_fmap.
  destruct (decide (p = p')) as [->|]; [|by rewrite lookup_alter_ne].
  rewrite lookup_alter, decide_True by done. by destruct (ph_memory h !! p').
Qed.

Lemma erase_Swap h i j : erase (pendingHeap_Swap h i j) = erase h.
Proof. unfold pendingHeap_Swap. by rewrite !erase_store_index. Qed.

(** The comparison does not look at the index. *)
Lemma query_less_erase h h' x y :
  erase h' = erase h ->
  query_less (deref h' x) (deref h' y) = query_less (deref h x) (deref h y).
Proof.
  intros E. pose proof (deref_erase h x) as Ex. pose proof (deref_erase h y) as Ey.
  rewrite <- E, <- deref_erase in Ex, Ey.
  change (query_less (set_index 0 (deref h' x)) (set_index 0 (deref h' y)) =
          query_less (set_index 0 (deref h x)) (set_index 0 (deref h y))).
  by rewrite Ex, Ey.
Qed.

#[export] Instance pendingHeap_laws : HeapLaws pendingHeap positive.
Proof.
  refine {| heap_items := ph_items; heap_lt h x y := query_less (deref h x) (deref h y) |}.
  - done.
  - done.
  - done.
  - intros h i j x y. apply query_less_erase, erase_Swap.
  - intros. by apply query_less_asym.
  - intros h x y z. apply query_le_trans.
Defined.

Lemma deref_store_index i p h p' :
  is_Some (ph_memory h !! p) ->
  deref (store_index i p h) p' = if decide (p' = p) then set_index i (deref h p) else deref h p'.
Proof.
  intros [q E]. unfold deref, store_index. simpl. destruct (decide (p' = p)) as [->|].
  - by rewrite lookup_alter, decide_True, E by done.
  - by rewrite lookup_alter_ne.
Qed.

Lemma erase_is_Some h h' p :
  erase h' = erase h -> is_Some (ph_memory h !! p) -> is_Some (ph_memory h' !! p).
Proof.
  intros E [q Hq]. apply (f_equal (lookup p)) in E. unfold erase in E.
  rewrite !lookup_fmap, Hq in E. destruct (ph_memory h' !! p); [by eexists|done].
Qed.

Lemma store_index_is_Some i p h p' :
  is_Some (ph_memory h !! p') -> is_Some (alter (set_index i) p (ph_memory h) !! p').
Proof. apply (erase_is_Some h (store_index i p h)), erase_store_index. Qed.

(** What every operation of the heap keeps: the cells up to their positions. *)
Definition allocated (h : pendingHeap) : Prop :=
  forall p, p ∈ ph_items h -> is_Some (ph_memory h !! p).

Definition heap_wf (h : pendingHeap) : Prop :=
  NoDup (ph_items h) /\ allocated h /\ indexed h.

Lemma Swap_wf h i j :
  (i < length (ph_items h))%nat -> (j < length (ph_items h))%nat -> i <> j ->
  heap_wf h -> heap_wf (pendingHeap_Swap h i j).
Proof.
  intros Hi Hj Hij (Hnd & Ha & Hx).
  pose proof (exchange_perm (ph_items h) i j Hi Hj) as Hp.
  assert (Hnd' : NoDup (exchange (ph_items h) i j)) by (by rewrite Hp).
  assert (Hm : forall k p, exchange (ph_items h) i j !! k = Some p -> is_Some (ph_memory h !! p)).
  { intros k p E. apply Ha. rewrite <- Hp. by eapply list_elem_of_lookup_2. }
  split_and!; [done| |].
  - intros p Hpi. apply (erase_is_Some h); [apply erase_Swap|]. apply Ha.
    by rewrite <- Hp.
  - intros k p Hk. unfold pendingHeap_Swap in *. simpl in Hk.
    set (items := exchange (ph_items h) i j) in *.
    assert (Hlk : forall k', (k' < length (ph_items h))%nat -> items !! k' = Some (items !!! k')).
    { intros. apply list_lookup_lookup_total_lt. unfold items. by rewrite length_exchange. }
    assert (Hkl : (k < length (ph_items h))%nat).
    { apply lookup_lt_Some in Hk. unfold items in Hk. by rewrite length_exchange in Hk. }
    assert (Hne : forall k', (k' < length (ph_items h))%nat -> p = items !!! k' -> k = k').
    { intros k' Hk' ->. by eapply NoDup_lookup; [apply Hnd'| |apply Hlk]. }
    rewrite !deref_store_index
      by first [by eapply Hm, Hlk
               |eapply (erase_is_Some (mkPendingHeap (ph_memory h) items));
                  [apply erase_store_index|by eapply Hm, Hlk]].
    destruct (decide (p = items !!! j)) as [E|].
    + by rewrite (Hne j Hj E).
    + destruct (decide (p = items !!! i)) as [E|]; [by rewrite (Hne i Hi E)|].
      change (pq_index (deref h p) = Z.of_nat k). apply Hx.
      rewrite (Hlk k) in Hk by done. injection Hk as Hk.
      assert (k <> i /\ k <> j) as [??] by (split; congruence).
      rewrite <- Hk. unfold items. rewrite lookup_exchange, !decide_False by done.
      by apply list_lookup_lookup_total_lt.
Qed.

Lemma heap_ordered_ext (lt lt' : positive -> positive -> bool) l l' n :
  (forall x y, lt' x y = lt x y) -> (forall k, (k < n)%nat -> l' !!! k = l !!! k) ->
  heap_ordered lt l n -> heap_ordered lt' l' n.
Proof.
  intros Elt El Ho k Hk. pose proof (heap_parent_lt k ltac:(lia)).
  rewrite Elt, !El by lia. by apply Ho.
Qed.

Lemma indexed_deref_store i p h :
  is_Some (ph_memory h !! p) -> p ∉ ph_items h ->
  forall k p', ph_items h !! k = Some p' -> deref (store_index i p h) p' = deref h p'.
Proof.
  intros Hp Hni k p' Hk. rewrite deref_store_index, decide_False; try done.
  intros ->. by apply Hni; eapply list_elem_of_lookup_2.
Qed.

Lemma Push_wf h p :
  heap_wf h -> is_Some (ph_memory h !! p) -> p ∉ ph_items h -> heap_wf (pendingHeap_Push h p).
Proof.
  intros (Hnd & Ha & Hx) Hp Hni. unfold pendingHeap_Push. set (h1 := store_index _ p h).
  split_and!; simpl.
  - apply NoDup_app. split_and!; [done| |apply NoDup_singleton]. set_solver.
  - intros p' [Hin|<-%list_elem_of_singleton]%elem_of_app; simpl;
      apply store_index_is_Some; [by apply Ha|done].
  - intros k p' Hk. simpl in Hk. change (pq_index (deref h1 p') = Z.of_nat k).
    apply lookup_app_Some in Hk as [Hk|[Hle Hk]].
    + unfold h1. erewrite indexed_deref_store by done. by apply Hx.
    + apply list_lookup_singleton_Some in Hk as [Hz <-].
      unfold h1. rewrite deref_store_index, decide_True by done. simpl. lia.
Qed.

Lemma heap_Push_spec h p :
  heap_wf h -> deadline_ordered h -> is_Some (ph_memory h !! p) -> p ∉ ph_items h ->
  heap_wf (heap_Push h p) /\ deadline_ordered (heap_Push h p) /\
  erase (heap_Push h p) = erase h /\ ph_items (heap_Push h p) ≡ₚ p :: ph_items h.
Proof.
  intros Hw Ho Hp Hni. unfold heap_Push. set (h1 := pendingHeap_Push h p).
  assert (E1 : erase h1 = erase h) by apply erase_store_index.
  assert (L1 : heap_Len h1 = S (length (ph_items h))).
  { simpl. rewrite length_app. simpl. lia. }
  destruct (heap_fix_push_preserves (fun h' => heap_wf h' /\ erase h' = erase h) h1) as [W E].
  { intros h' i j Hi Hj Hij [W E]. split; [by apply Swap_wf|]. by simpl; rewrite erase_Swap. }
  { lia. }
  { split; [by apply Push_wf|done]. }
  destruct (heap_fix_push_ordered h1) as [O [Olt Op]].
  { lia. }
  { rewrite L1. simpl. replace (length (ph_items h) - 0)%nat with (length (ph_items h)) by lia.
    eapply heap_ordered_ext; [| |apply Ho].
    - intros x y. apply query_less_erase, E1.
    - intros k Hk. simpl. by rewrite !list_lookup_total_alt, lookup_app_l. }
  split_and!; try done.
  - unfold deadline_ordered. pose proof (Permutation_length Op) as El. simpl in *.
    by rewrite El.
  - rewrite Op. simpl. by rewrite Permutation_app_comm.
Qed.

Lemma take_last_perm {A} `{Inhabited A} (l : list A) :
  (0 < length l)%nat -> l = take (length l - 1) l ++ [l !!! (length l - 1)%nat].
Proof.
  intros Hl. rewrite <- take_S_r with (n := (length l - 1)%nat).
  - symmetry. apply take_ge. lia.
  - apply list_lookup_lookup_total_lt. lia.
Qed.

Lemma Pop_wf h :
  (0 < length (ph_items h))%nat -> heap_wf h ->
  heap_wf (pendingHeap_Pop h) /\ ph_items h = ph_items (pendingHeap_Pop h) ++
    [ph_items h !!! (length (ph_items h) - 1)%nat].
Proof.
  intros Hl (Hnd & Ha & Hx). unfold pendingHeap_Pop.
  set (last := (length (ph_items h) - 1)%nat). set (p := ph_items h !!! last).
  pose proof (take_last_perm (ph_items h) Hl) as Et. fold last p in Et.
  split; [|done]. rewrite Et in Hnd. apply NoDup_app in Hnd as (Hnd & Hd & _).
  assert (Hp : is_Some (ph_memory h !! p)) by (apply Ha; rewrite Et; set_solver).
  split_and!; simpl; [done| |].
  - intros p' Hp'. simpl. apply store_index_is_Some, Ha. rewrite Et. set_solver.
  - intros k p' Hk. simpl in Hk. change (pq_index (deref (store_index (-1) p h) p') = Z.of_nat k).
    rewrite deref_store_index, decide_False; [|intros ->|done].
    + apply Hx. rewrite Et. by apply lookup_app_l_Some.
    + apply (Hd p); [by eapply list_elem_of_lookup_2|set_solver].
Qed.

Lemma heap_Remove_spec h i :
  heap_wf h -> deadline_ordered h -> (i < length (ph_items h))%nat ->
  exists h', heap_Remove h (Z.of_nat i) = Some h' /\
    heap_wf h' /\ deadline_ordered h' /\ erase h' = erase h /\
    (ph_items h !!! i) :: ph_items h' ≡ₚ ph_items h.
Proof.
  intros Hw Ho Hi. unfold heap_Remove.
  destruct (Z.ltb_spec (Z.of_nat i) 0); [lia|].
  destruct (Z.leb_spec (Z.of_nat (length (ph_items h))) (Z.of_nat i)); [lia|]. simpl.
  rewrite Nat2Z.id. set (h1 := heap_fix_remove h i).
  destruct (heap_fix_remove_preserves (fun h' => heap_wf h' /\ erase h' = erase h) h i) as [W E];
    [|done|done|].
  { intros h' a b Ha Hb Hab [W E]. split; [by apply Swap_wf|]. by simpl; rewrite erase_Swap. }
  destruct (heap_fix_remove_ordered h i) as [O [Olt Op]]; [done..|].
  pose proof (heap_fix_remove_last h i) as Elast. specialize (Elast Hi). fold h1 in W, E, O, Olt, Op, Elast. simpl in *.
  assert (Hl1 : length (ph_items h1) = length (ph_items h)) by by apply Permutation_length.
  destruct (Pop_wf h1) as [W' Et]; [lia|done|].
  eexists. split_and!; [done|done| | |].
  - unfold deadline_ordered. simpl. rewrite length_take, Hl1.
    replace (Nat.min _ _) with (length (ph_items h) - 1)%nat by lia.
    eapply heap_ordered_ext; [| |apply O].
    + intros x y. apply query_less_erase, erase_store_index.
    + intros k Hk. by rewrite !list_lookup_total_alt, lookup_take_lt.
  - rewrite <- E. apply erase_store_index.
  - transitivity (ph_items h1); [|done]. rewrite Et, Hl1, <- Elast. by rewrite Permutation_app_comm.
Qed.
