(* ===== verification/DnsSpec.v ===== *)
(** * internal/dns: the correlator refines its specification

    The invariant of the correlator over every history, and the refinement of
    the abstract correlator of Dns.v; what the operations return follows from
    the abstract definitions. *)

From S2P Require Import Prelude Flow Heap DnsParse Dns.

#[local] Open Scope Z_scope.

(** ** Lemmas *)

(** *** The expiry order *)

(** No two queries of a map have the same sequence number. *)
Definition sequences_distinct (m : gmap pendingKey pendingQuery) : Prop :=
  forall k k' q q', m !! k = Some q -> m !! k' = Some q' -> pq_sequence q = pq_sequence q' -> k = k'.

Lemma sequences_distinct_filter m (P : pendingKey * pendingQuery -> Prop) `{forall x, Decision (P x)} :
  sequences_distinct m -> sequences_distinct (filter P m).
Proof. intros Hd k k' q q' [? _]%map_lookup_filter_Some [? _]%map_lookup_filter_Some. by apply Hd. Qed.

Lemma sequences_distinct_delete m k : sequences_distinct m -> sequences_distinct (delete k m).
Proof. intros Hd k1 k2 q q' [_ ?]%lookup_delete_Some [_ ?]%lookup_delete_Some. by apply Hd. Qed.

Lemma elem_of_values (m : gmap pendingKey pendingQuery) q :
  q ∈ (map_to_list m).*2 <-> exists k, m !! k = Some q.
Proof.
  rewrite list_elem_of_fmap. split.
  - intros ([k q'] & -> & E%elem_of_map_to_list). by exists k.
  - intros [k E]. exists (k, q). by rewrite elem_of_map_to_list.
Qed.

Lemma deadlines_injective m x y :
  sequences_distinct m -> x ∈ (map_to_list m).*2 -> y ∈ (map_to_list m).*2 ->
  deadline x = deadline y -> x = y.
Proof.
  rewrite !elem_of_values. intros Hd [k Hx] [k' Hy] [= _ E].
  assert (k = k') as <- by by eapply Hd. congruence.
Qed.

Lemma by_deadline_empty : by_deadline ∅ = [].
Proof. unfold by_deadline. by rewrite map_to_list_empty. Qed.

(** The first query to expire comes first. *)
Lemma by_deadline_first m k e :
  sequences_distinct m -> m !! k = Some e ->
  (forall k' e', m !! k' = Some e' -> query_less e' e = false) ->
  by_deadline m = e :: by_deadline (delete k m).
Proof.
  intros Hd Hk Hmin. symmetry. unfold by_deadline.
  pose proof (map_to_list_delete m k e Hk) as Hp.
  apply (sort_Slice_unique deadline query_less query_less_key).
  - rewrite <- Hp, sort_Slice_perm. done.
  - constructor; [apply (sort_Slice_sorted deadline query_less query_less_key)|].
    apply Forall_forall. intros x. rewrite sort_Slice_perm, elem_of_values.
    intros [k' [_ Hx]%lookup_delete_Some]. by eapply Hmin.
  - intros x y. by apply deadlines_injective.
Qed.

(** *** Queries and their cells *)

Lemma queries_erase c :
  queries c = (fun p => default zeroQuery (erase (cr_deadlines c) !! p)) <$> cr_pending c.
Proof. unfold queries. apply map_fmap_ext. intros. apply deref_erase. Qed.

Lemma erase_lookup h h' p q :
  erase h' = erase h -> ph_memory h !! p = Some q ->
  exists i, ph_memory h' !! p = Some (set_index i q).
Proof.
  intros E Hq. apply (f_equal (lookup p)) in E. unfold erase in E.
  rewrite !lookup_fmap, Hq in E. destruct (ph_memory h' !! p) as [q'|]; [|done].
  exists (pq_index q'). destruct q, q'. simpl in *. by simplify_eq.
Qed.

Lemma deref_lookup h p q : ph_memory h !! p = Some q -> deref h p = q.
Proof. unfold deref. by intros ->. Qed.

Lemma inv_wf c : correlator_inv c -> heap_wf (cr_deadlines c).
Proof.
  intros I. split_and!; [apply I| |apply I]. intros p Hp. rewrite (inv_items _ I) in Hp.
  apply list_elem_of_fmap in Hp as ([k p'] & -> & Hk%elem_of_map_to_list).
  destruct (inv_cell _ I _ _ Hk) as (q & Hq & _). simpl. by exists q.
Qed.

Lemma elem_of_items c p :
  correlator_inv c -> p ∈ ph_items (cr_deadlines c) <-> exists k, cr_pending c !! k = Some p.
Proof.
  intros I. rewrite (inv_items _ I), list_elem_of_fmap. split.
  - intros ([k p'] & -> & Hk%elem_of_map_to_list). simpl. by exists k.
  - intros [k Hk]. exists (k, p). by rewrite elem_of_map_to_list.
Qed.

Lemma queries_lookup c k p :
  cr_pending c !! k = Some p -> queries c !! k = Some (set_index 0 (deref (cr_deadlines c) p)).
Proof. intros E. unfold queries. by rewrite lookup_fmap, E. Qed.

Lemma queries_delete c h k :
  erase h = erase (cr_deadlines c) ->
  queries (set_state c (delete k (cr_pending c)) h) = delete k (queries c).
Proof. intros E. rewrite !queries_erase, <- fmap_delete. simpl. by rewrite E. Qed.

(** Removing a pending query never fails, and only removes it. *)
Lemma remove_spec c k p :
  correlator_inv c -> cr_pending c !! k = Some p ->
  exists c', remove c p = Some c' /\ correlator_inv c' /\
    spec_of c' = set_queries (spec_of c) (delete k (queries c)) /\
    length (ph_items (cr_deadlines c)) = S (length (ph_items (cr_deadlines c'))).
Proof.
  intros I Hk. destruct (inv_cell _ I _ _ Hk) as (q & Hq & Hqk & _).
  assert (Hin : p ∈ ph_items (cr_deadlines c)) by (apply elem_of_items; eauto).
  apply list_elem_of_lookup in Hin as [i Hi].
  pose proof (inv_indexed _ I i p Hi) as Hx. rewrite (deref_lookup _ _ _ Hq) in Hx.
  destruct (heap_Remove_spec (cr_deadlines c) i (inv_wf _ I) (inv_ordered _ I)) as
    (h & Hr & (Hnd & Ha & Hix) & Ho & He & Hp); [by eapply lookup_lt_Some|].
  rewrite (list_lookup_total_correct _ _ _ Hi) in Hp.
  unfold remove. rewrite Hq. simpl. rewrite Hx, Hr. simpl. rewrite Hqk. eexists.
  split; [done|]. pose proof (queries_delete c h k He) as Eq.
  split; [|split].
  2: { unfold spec_of, set_queries. simpl. by rewrite Eq. }
  2: { by rewrite <- Hp. }
  split; simpl; try done; try apply I.
  - apply (Permutation_cons_inv (a := p)). rewrite Hp, (inv_items _ I).
    by rewrite <- (map_to_list_delete _ _ _ Hk).
  - intros k' p' [_ Hk']%lookup_delete_Some.
    destruct (inv_cell _ I _ _ Hk') as (q' & Hq' & Hrest).
    destruct (erase_lookup _ h _ _ He Hq') as [j Hj]. by exists (set_index j q').
  - pose proof (inv_bound _ I). rewrite map_size_delete, Hk. simpl. lia.
  - rewrite Eq. apply sequences_distinct_delete. exact (inv_sequence _ I).
Qed.

(** *** The loops *)

(** The first pointer of the heap leads to the first query to expire. *)
Lemma first_query c p rest :
  correlator_inv c -> ph_items (cr_deadlines c) = p :: rest ->
  exists k, cr_pending c !! k = Some p /\
    forall k' e, queries c !! k' = Some e ->
      query_less e (set_index 0 (deref (cr_deadlines c) p)) = false.
Proof.
  intros I Hp. assert (Hin : p ∈ ph_items (cr_deadlines c)) by (rewrite Hp; left).
  apply elem_of_items in Hin as [k Hk]; [|done]. exists k. split; [done|].
  intros k' e. unfold queries. rewrite lookup_fmap, fmap_Some. intros (p' & Hk' & ->).
  assert (Hin : p' ∈ ph_items (cr_deadlines c)) by (apply elem_of_items; eauto).
  apply list_elem_of_lookup in Hin as [i Hi].
  assert (E0 : ph_items (cr_deadlines c) !!! 0%nat = p) by by rewrite Hp.
  pose proof (list_lookup_total_correct _ _ _ Hi) as Ei.
  rewrite <- E0, <- Ei.
  change (heap_lt (cr_deadlines c) (heap_items (cr_deadlines c) !!! i)
            (heap_items (cr_deadlines c) !!! 0%nat) = false).
  apply heap_ordered_root.
  - exact (inv_ordered _ I).
  - by eapply lookup_lt_Some.
Qed.

Section drain.
Variables (stop : pendingQuery -> bool) (final : pendingQuery -> Transaction).
Hypothesis stop_index : forall i q, stop (set_index i q) = stop q.
Hypothesis final_index : forall i q, final (set_index i q) = final q.
(** Once a query stops the loop, so does every later one. *)
Hypothesis stop_later : forall x y, query_less y x = false -> stop x = true -> stop y = true.

Definition stopped (m : gmap pendingKey pendingQuery) := filter (fun kq => stop kq.2 = true) m.
Definition drained (m : gmap pendingKey pendingQuery) := filter (fun kq => stop kq.2 = false) m.

Lemma drain_spec fuel c ts :
  correlator_inv c -> (length (ph_items (cr_deadlines c)) <= fuel)%nat ->
  exists c', drain fuel stop final c ts = Some (c', ts ++ (final <$> by_deadline (drained (queries c)))) /\
    correlator_inv c' /\ spec_of c' = set_queries (spec_of c) (stopped (queries c)).
Proof.
  revert c ts. induction fuel as [|fuel IH]; intros c ts I Hf;
    destruct (ph_items (cr_deadlines c)) as [|p rest] eqn:Hp; simpl in Hf; try lia.
  1, 2: assert (Hq : queries c = ∅)
    by (unfold queries; apply fmap_empty_iff, map_to_list_empty_iff;
        pose proof (inv_items _ I) as Hi; rewrite Hp in Hi; symmetry in Hi;
        by apply Permutation_nil_r, fmap_nil_inv in Hi).
  1, 2: exists c; unfold stopped, drained; simpl; rewrite Hp, Hq, !map_filter_empty, by_deadline_empty;
    rewrite app_nil_r; split_and!; [done..|]; unfold spec_of, set_queries; simpl; by rewrite Hq.
  destruct (first_query c p rest I Hp) as (k & Hk & Hmin). simpl. rewrite Hp.
  set (q := deref (cr_deadlines c) p) in *.
  pose proof (queries_lookup _ _ _ Hk) as Hqk. fold q in Hqk.
  destruct (stop q) eqn:Es.
  - exists c. assert (Hall : forall k' e, queries c !! k' = Some e -> stop e = true).
    { intros k' e He. apply (stop_later (set_index 0 q)); [by eapply Hmin|]. by rewrite stop_index. }
    assert (E1 : drained (queries c) = ∅).
    { apply map_empty_filter_2. intros k' e He. simpl. by rewrite (Hall k' e He). }
    assert (E2 : stopped (queries c) = queries c).
    { apply map_filter_id. intros k' e He. by eapply Hall. }
    rewrite E1, E2, by_deadline_empty, app_nil_r. done.
  - destruct (remove_spec c k p I Hk) as (c1 & -> & I1 & S1 & L1). simpl.
    assert (Eq : queries c1 = delete k (queries c)) by by injection S1.
    destruct (IH c1 (ts ++ [final q]) I1) as (c2 & -> & I2 & S2); [rewrite Hp in L1; simpl in L1; lia|].
    exists c2. split_and!; [|done|].
    + assert (Eb : by_deadline (drained (queries c)) =
                   set_index 0 q :: by_deadline (drained (delete k (queries c)))).
      { unfold drained. rewrite (by_deadline_first _ k (set_index 0 q)).
        - by rewrite map_filter_delete.
        - apply sequences_distinct_filter. exact (inv_sequence _ I).
        - apply map_lookup_filter_Some. simpl. by rewrite stop_index.
        - intros k' e [He _]%map_lookup_filter_Some. by eapply Hmin. }
      rewrite Eb, Eq, fmap_cons, final_index, <- app_assoc. done.
    + rewrite S2, S1, Eq. unfold set_queries. simpl. f_equal. unfold stopped.
      rewrite map_filter_delete. apply delete_id, map_lookup_filter_None. right.
      intros e He. simpl. rewrite Hqk in He. injection He as <-. by rewrite stop_index, Es.
Qed.
End drain.

Lemma not_before_earlier x y :
  query_less y x = false ->
  fr_ObservedAt (pq_fragment x) <= fr_ObservedAt (pq_fragment y).
Proof.
  unfold query_less, time_Before.
  destruct (Z.eqb_spec (fr_ObservedAt (pq_fragment y)) (fr_ObservedAt (pq_fragment x))); [lia|].
  intros ?%Z.ltb_ge. lia.
Qed.

Lemma set_queries_twice s m m' : set_queries (set_queries s m) m' = set_queries s m'.
Proof. done. Qed.

(** expire returns the due queries, the earliest deadline first. *)
Lemma expire_spec c now :
  correlator_inv c ->
  exists c', expire c now = Some (c', (spec_expire (spec_of c) now).2) /\
    correlator_inv c' /\ spec_of c' = (spec_expire (spec_of c) now).1.
Proof.
  intros I. unfold expire, drain_fuel.
  set (stop q := time_Sub now (fr_ObservedAt (pq_fragment q)) <? cr_timeout c).
  destruct (drain_spec stop noResponse) with (c := c) (ts := @nil Transaction)
    (fuel := length (ph_items (cr_deadlines c))) as (c' & E & I' & S'); try done.
  - intros x y H1. pose proof (not_before_earlier _ _ H1). unfold stop, time_Sub.
    rewrite !Z.ltb_lt. lia.
  - exists c'. unfold spec_expire, due_queries, fresh_queries. simpl in *.
    assert (Ed : forall q, due (cr_timeout c) now q = negb (stop q)).
    { intros q. unfold due, stop. by rewrite Z.leb_antisym. }
    split_and!; [rewrite E|done|rewrite S'].
    + do 4 f_equal. apply map_filter_ext. intros k q _. simpl. rewrite Ed.
      by destruct (stop q).
    + f_equal. apply map_filter_ext. intros k q _. simpl. rewrite Ed. by destruct (stop q).
Qed.

(** Finish and Flush leave nothing pending. *)
Lemma drain_all_spec final c ts :
  (forall i q, final (set_index i q) = final q) -> correlator_inv c ->
  exists c', drain (drain_fuel c) (fun _ => false) final c ts =
      Some (c', ts ++ (final <$> by_deadline (queries c))) /\
    correlator_inv c' /\ spec_of c' = set_queries (spec_of c) ∅.
Proof.
  intros Hf I. destruct (drain_spec (fun _ => false) final) with (c := c) (ts := ts)
    (fuel := drain_fuel c) as (c' & E & I' & S'); try done.
  exists c'. split_and!; [rewrite E|done|rewrite S'].
  - do 5 f_equal. by apply map_filter_id.
  - f_equal. by apply map_empty_filter_2.
Qed.

Lemma Finish_spec c now :
  correlator_inv c ->
  exists c', Finish c now = Some (c', (spec_finish (spec_of c) now).2) /\
    correlator_inv c' /\ spec_of c' = (spec_finish (spec_of c) now).1.
Proof.
  intros I. unfold Finish, Expire. destruct (expire_spec c now I) as (c1 & -> & I1 & S1).
  cbn [mbind option_bind].
  destruct (drain_all_spec (fun q => set_incomplete ReasonCaptureEnded (noResponse q)) c1
    (spec_expire (spec_of c) now).2) as (c2 & -> & I2 & S2); [done..|].
  exists c2. split_and!; [|done|by rewrite S2, S1].
  unfold spec_finish, spec_expire. simpl. by replace (queries c1) with (fresh_queries (spec_of c) now)
    by by injection S1.
Qed.

Lemma Flush_spec c :
  correlator_inv c ->
  exists c', Flush c = Some (c', (spec_flush (spec_of c)).2) /\
    correlator_inv c' /\ spec_of c' = (spec_flush (spec_of c)).1.
Proof. intros I. by apply (drain_all_spec noResponse c []). Qed.

(** A new cell does not disturb the heap. *)
Lemma allocate_wf h p q :
  heap_wf h -> deadline_ordered h -> p ∉ dom (ph_memory h) ->
  heap_wf (mkPendingHeap (<[p := q]> (ph_memory h)) (ph_items h)) /\
  deadline_ordered (mkPendingHeap (<[p := q]> (ph_memory h)) (ph_items h)) /\ p ∉ ph_items h.
Proof.
  intros (Hnd & Ha & Hx) Ho Hp. set (h' := mkPendingHeap _ _).
  assert (Hni : p ∉ ph_items h) by (intros Hin; apply Hp, elem_of_dom, Ha, Hin).
  assert (Hd : forall k p', ph_items h !! k = Some p' -> deref h' p' = deref h p').
  { intros k p' Hk. unfold deref, h'. simpl. rewrite lookup_insert_ne; [done|].
    intros ->. by apply Hni; eapply list_elem_of_lookup_2. }
  unfold heap_wf. split_and!; [done| | | |done].
  - intros p' Hp'. simpl. destruct (decide (p = p')) as [->|].
    + rewrite lookup_insert, decide_True by done. by eexists.
    + rewrite lookup_insert_ne by done. by apply Ha.
  - intros k p' Hk. simpl in Hk. erewrite Hd by done. by apply Hx.
  - intros k Hk. simpl in Hk. pose proof (heap_parent_lt k ltac:(lia)) as Hlt.
    change (query_less (deref h' (ph_items h !!! k)) (deref h' (ph_items h !!! heap_parent k)) = false).
    assert (Hl : forall k', (k' < length (ph_items h))%nat ->
      deref h' (ph_items h !!! k') = deref h (ph_items h !!! k')).
    { intros k' Hk'. by eapply Hd, list_lookup_lookup_total_lt. }
    rewrite !Hl by lia.
    by apply Ho.
Qed.

(** Accepting a query files it in the map and in the heap. *)
(** A sequence number above those in use belongs to one query. *)
Lemma insert_sequence c key q k k' q1 q2 :
  correlator_inv c -> pq_sequence q = cr_sequence c + 1 ->
  <[key := q]> (queries c) !! k = Some q1 -> <[key := q]> (queries c) !! k' = Some q2 -> pq_sequence q1 = pq_sequence q2 -> k = k'.
Proof.
  intros I Hq. assert (Hseq : forall k q', queries c !! k = Some q' -> pq_sequence q' <= cr_sequence c).
  { intros k0 q0. unfold queries. rewrite lookup_fmap, fmap_Some. intros (p0 & Hp0 & ->).
    destruct (inv_cell _ I _ _ Hp0) as (q' & Hq' & _ & _ & ?). rewrite (deref_lookup _ _ _ Hq'). simpl. lia. }
  rewrite !lookup_insert. destruct (decide (key = k)) as [<-|], (decide (key = k')) as [<-|]; intros H1 H2 Hs12; try done.
  - injection H1 as <-. apply Hseq in H2. lia.
  - injection H2 as <-. apply Hseq in H1. lia.
  - by apply (inv_sequence _ I _ _ q1 q2).
Qed.

Lemma insert_spec c f m :
  correlator_inv c -> cr_pending c !! queryKey f m = None ->
  Z.of_nat (size (cr_pending c)) < cr_maxPending c ->
  0 <= cr_sequence c -> cr_sequence c + 1 < 2 ^ 64 ->
  let c' := (processQuery c f m []).1 in
  correlator_inv c' /\
  spec_of c' = (spec_query (spec_of c) f m).1 /\ cr_sequence c' = cr_sequence c + 1.
Proof.
  intros I Hk Hsz H0 Hs. unfold processQuery. rewrite Hk.
  destruct (Z.leb_spec (cr_maxPending c) (Z.of_nat (size (cr_pending c)))); [lia|].
  rewrite uint_small by lia. set (key := queryKey f m) in *. set (h := cr_deadlines c).
  set (p := fresh (dom (ph_memory h))). set (q := mkPendingQuery f m key 0 (cr_sequence c + 1)).
  assert (Hp : p ∉ dom (ph_memory h)) by apply is_fresh.
  destruct (allocate_wf h p q (inv_wf _ I) (inv_ordered _ I) Hp) as (W1 & O1 & Hni).
  set (h1 := mkPendingHeap _ _) in *.
  assert (Hp1 : ph_memory h1 !! p = Some q) by (simpl; by rewrite lookup_insert, decide_True).
  destruct (heap_Push_spec h1 p W1 O1) as ((Hnd & _ & Hx) & O & E & P); [by eexists|done|].
  simpl. fold h1. set (h' := heap_Push h1 p) in *.
  assert (Eq : queries (mkCorrelator (cr_timeout c) (cr_maxPending c) (<[key:=p]> (cr_pending c)) h'
                          (cr_sequence c + 1)) = <[key:=q]> (queries c)).
  { rewrite !queries_erase. simpl. rewrite E, fmap_insert. f_equal.
    - unfold erase. by rewrite lookup_fmap, Hp1.
    - apply map_fmap_ext. intros k p' Hk'. f_equal. unfold erase. simpl.
      rewrite !lookup_fmap, lookup_insert_ne; [done|]. intros ->.
      apply Hni, (elem_of_items c); eauto. }
  split_and!; [|unfold spec_of; rewrite Eq|done].
  - split; simpl; try done; try apply I.
    + rewrite P, map_to_list_insert by done. constructor. exact (inv_items _ I).
    + intros k p'. rewrite lookup_insert. destruct (decide (key = k)) as [<-|Hne]; intros Hk'.
      * injection Hk' as <-. destruct (erase_lookup _ h' _ _ E Hp1) as [i Hi].
        exists (set_index i q). split_and!; try done; simpl; lia.
      * destruct (inv_cell _ I _ _ Hk') as (q' & Hq' & Hqk & Hkk & Hqs).
        assert (Hq1 : ph_memory h1 !! p' = Some q').
        { simpl. rewrite lookup_insert_ne; [done|]. intros <-. apply Hp, elem_of_dom. by exists q'. }
        destruct (erase_lookup _ h' _ _ E Hq1) as [i Hi].
        exists (set_index i q'). split_and!; try done; simpl; lia.
    + rewrite map_size_insert, Hk. lia.
    + rewrite Eq. intros k k' q1 q2 H1 H2 Hs12. by eapply insert_sequence; [exact I| |exact H1|exact H2|exact Hs12].
  - unfold spec_query. simpl. unfold queries at 2. rewrite lookup_fmap. fold key. rewrite Hk. simpl.
    unfold queries at 2. rewrite map_size_fmap.
    destruct (Z.leb_spec (cr_maxPending c) (Z.of_nat (size (cr_pending c)))); [lia|].
    simpl. by rewrite uint_small by lia.
Qed.

Lemma processQuery_acc c f m ts :
  processQuery c f m ts = ((processQuery c f m []).1, ts ++ (processQuery c f m []).2).
Proof. unfold processQuery. repeat case_match; simpl; by rewrite ?app_nil_r. Qed.

Lemma queries_None c k : cr_pending c !! k = None -> queries c !! k = None.
Proof. intros E. unfold queries. by rewrite lookup_fmap, E. Qed.

Lemma queries_size c : size (queries c) = size (cr_pending c).
Proof. apply map_size_fmap. Qed.

Lemma query_spec c f m ts :
  correlator_inv c -> 0 <= cr_sequence c -> cr_sequence c + 1 < 2 ^ 64 ->
  exists c', processQuery c f m ts = (c', ts ++ (spec_query (spec_of c) f m).2) /\
    correlator_inv c' /\ spec_of c' = (spec_query (spec_of c) f m).1 /\
    cr_sequence c <= cr_sequence c' <= cr_sequence c + 1.
Proof.
  intros I H0 Hs. rewrite processQuery_acc.
  destruct (cr_pending c !! queryKey f m) as [p|] eqn:Hk.
  { unfold processQuery, spec_query. cbn [sp_queries spec_of].
    rewrite (queries_lookup _ _ _ Hk), Hk. simpl. eexists. split_and!; try done; lia. }
  pose proof (queries_None c _ Hk) as Hq.
  destruct (Z.le_gt_cases (cr_maxPending c) (Z.of_nat (size (cr_pending c)))) as [Hm|Hm].
  { unfold processQuery, spec_query. cbn [sp_queries sp_maxPending spec_of].
    rewrite Hk, Hq, queries_size. apply Z.leb_le in Hm. rewrite Hm. simpl.
    eexists. split_and!; try done; simpl; lia. }
  destruct (insert_spec c f m I Hk) as (I' & S' & Q'); [lia..|].
  eexists. split; [|split; [apply I'|split; [apply S'|lia]]].
  f_equal. f_equal. unfold processQuery, spec_query. cbn [sp_queries sp_maxPending spec_of].
  rewrite Hk, Hq, queries_size. by case_match.
Qed.

Lemma responseTransaction_index f m i q :
  responseTransaction f m (Some (set_index i q)) = responseTransaction f m (Some q).
Proof. done. Qed.

Lemma response_spec c f m ts :
  correlator_inv c ->
  exists c', processResponse c f m ts = Some (c', ts ++ (spec_response (spec_of c) f m).2) /\
    correlator_inv c' /\ spec_of c' = (spec_response (spec_of c) f m).1.
Proof.
  intros I. unfold processResponse, spec_response. set (key := responseKey f m). simpl.
  destruct (cr_pending c !! key) as [p|] eqn:Hk.
  - destruct (remove_spec c key p I Hk) as (c' & -> & I' & S' & _). exists c'. simpl.
    rewrite (queries_lookup _ _ _ Hk), responseTransaction_index. done.
  - exists c. assert (Hq : queries c !! key = None) by (unfold queries; by rewrite lookup_fmap, Hk).
    rewrite Hq. split_and!; [done..|]. unfold set_queries, spec_of. simpl. by rewrite delete_id.
Qed.

Lemma step_spec c op :
  correlator_inv c -> 0 <= cr_sequence c -> cr_sequence c + 1 < 2 ^ 64 ->
  exists c', step c op = Some (c', (spec_step (spec_of c) op).2) /\
    correlator_inv c' /\ spec_of c' = (spec_step (spec_of c) op).1 /\
    cr_sequence c <= cr_sequence c' <= cr_sequence c + 1.
Proof.
  intros I H0 Hs.
  assert (Hsame : forall c' s, spec_of c' = s -> sp_sequence s = cr_sequence c ->
    cr_sequence c <= cr_sequence c' <= cr_sequence c + 1).
  { intros c' s <-. simpl. lia. }
  destruct op as [f|now|now|].
  - cbn [step spec_step]. unfold Correlator_Process, spec_process.
    destruct (expire_spec c (fr_ObservedAt f) I) as (c1 & -> & I1 & S1).
    rewrite (surjective_pairing (spec_expire _ _)), <- S1. cbn [mbind option_bind].
    assert (Eseq : cr_sequence c1 = cr_sequence c) by by injection S1.
    destruct (Parse (fr_Payload f)) as [m|e]; [destruct (msg_Response m)|]; simpl negb; cbv iota.
    + destruct (response_spec c1 (snapshotFragment f) m (spec_expire (spec_of c) (fr_ObservedAt f)).2 I1)
        as (c2 & E2 & I2 & S2).
      rewrite (surjective_pairing (spec_response _ _ _)). exists c2. split_and!; try done.
      all: apply (f_equal sp_sequence) in S2; simpl in S2; lia.
    + destruct (query_spec c1 (snapshotFragment f) m (spec_expire (spec_of c) (fr_ObservedAt f)).2 I1)
        as (c2 & E2 & I2 & S2 & Q2); [lia..|].
      rewrite (surjective_pairing (spec_query _ _ _)). exists c2. cbn [fst snd]. rewrite E2.
      split_and!; try done; lia.
    + exists c1. split_and!; try done; lia.
  - destruct (expire_spec c now I) as (c' & E & I' & S'). exists c'. split_and!; try done;
      by eapply Hsame.
  - destruct (Finish_spec c now I) as (c' & E & I' & S'). exists c'. split_and!; try done;
      by eapply Hsame.
  - destruct (Flush_spec c I) as (c' & E & I' & S'). exists c'. split_and!; try done;
      by eapply Hsame.
Qed.

Lemma run_spec c ops :
  correlator_inv c -> 0 <= cr_sequence c -> cr_sequence c + Z.of_nat (length ops) < 2 ^ 64 ->
  exists c', run c ops = Some (c', (spec_run (spec_of c) ops).2) /\
    correlator_inv c' /\ spec_of c' = (spec_run (spec_of c) ops).1 /\
    0 <= cr_sequence c' <= cr_sequence c + Z.of_nat (length ops).
Proof.
  revert c. induction ops as [|op ops IH]; intros c I H0 Hl; simpl length in Hl.
  { exists c. simpl. split_and!; try done. lia. }
  destruct (step_spec c op I H0) as (c1 & E1 & I1 & S1 & Q1); [lia|].
  destruct (IH c1 I1) as (c2 & E2 & I2 & S2 & Q2); [lia..|].
  cbn [run spec_run]. rewrite E1. cbn [mbind option_bind]. rewrite E2. simpl.
  rewrite (surjective_pairing (spec_step _ _)), <- S1, (surjective_pairing (spec_run _ _)).
  exists c2. split_and!; try done; simpl length; lia.
Qed.

Lemma new_inv config : correlator_inv (NewCorrelatorWithConfig config).
Proof.
  unfold NewCorrelatorWithConfig, defaultTimeout, defaultMaxPending, Second.
  destruct (Z.leb_spec (cf_Timeout config) 0), (Z.leb_spec (cf_MaxPending config) 0);
    split; simpl; try done; try lia; try apply NoDup_nil_2;
    try (intros k Hk; simpl in Hk; lia); rewrite map_size_empty; lia.
Qed.

(** What a sorted selection of queries is. *)
Definition in_deadline_order (l : list pendingQuery) (m : gmap pendingKey pendingQuery) : Prop :=
  StronglySorted (not_after query_less) l /\ NoDup l /\
  forall q, q ∈ l <-> exists k, m !! k = Some q.

Lemma by_deadline_order m : sequences_distinct m -> in_deadline_order (by_deadline m) m.
Proof.
  intros Hd. unfold by_deadline. split_and!.
  - apply (sort_Slice_sorted deadline query_less query_less_key).
  - rewrite sort_Slice_perm. apply (NoDup_fmap_2_strong snd); [|apply NoDup_map_to_list].
    intros [k q] [k' q'] H1%elem_of_map_to_list H2%elem_of_map_to_list. simpl. intros ->.
    f_equal. by eapply Hd.
  - intros q. by rewrite sort_Slice_perm, elem_of_values.
Qed.

(** The age of a query at a time, as Time.Sub measures it *)
Definition query_age (now : Time) (q : pendingQuery) : Duration :=
  time_Sub now (fr_ObservedAt (pq_fragment q)).

(** The states of a capture after a number of operations that the 64-bit
    sequence can count. *)
Definition reachable (c : Correlator) : Prop :=
  exists config ops outs,
    Z.of_nat (length ops) < 2 ^ 64 - 2 /\ run (NewCorrelatorWithConfig config) ops = Some (c, outs).

Lemma reachable_inv c :
  reachable c -> correlator_inv c /\ 0 <= cr_sequence c < 2 ^ 64 - 2.
Proof.
  intros (config & ops & outs & Hl & Hr).
  destruct (run_spec (NewCorrelatorWithConfig config) ops) as (c' & E & I & _ & Q);
    [apply new_inv|done|simpl; lia|].
  rewrite Hr in E. injection E as -> _. split; [done|]. simpl in Q. lia.
Qed.

Definition example_dns_endpoint : Endpoint := mkEndpoint "10.0.0.2" 40000.
Definition example_dns_server : Endpoint := mkEndpoint "10.0.0.10" 53.

Definition example_fragment (at_ kernel : Z) (src dst : Endpoint) (id flags : Z) : Fragment :=
  mkFragment (unix_epoch + at_) kernel "node" 42 (Some (mkProcess 42 7 "curl" "curl db.svc" "" ""))
    None None None None None src dst
    (question_datagram id flags 1 (replicate 6 (byte_of 0)) example_labels 28 1 []).

Definition example_query (at_ kernel id : Z) : Fragment :=
  example_fragment at_ kernel example_dns_endpoint example_dns_server id 0x0100.
Definition example_response (at_ kernel id : Z) : Fragment :=
  example_fragment at_ kernel example_dns_server example_dns_endpoint id 0x8180.

Definition example_capture : list operation :=
  [OpProcess (example_query 0 1000 7); OpProcess (example_query Second 5000 8);
   OpProcess (example_response (2 * Second) 9500 8)].

Definition example_config : Config := mkConfig 0 100.

(** The state after a concrete history *)
Definition example_state (ops : list operation) : Correlator :=
  default (NewCorrelatorWithConfig example_config)
    (fst <$> run (NewCorrelatorWithConfig example_config) ops).

Lemma example_state_reachable ops :
  Z.of_nat (length ops) < 2 ^ 64 - 2 -> reachable (example_state ops).
Proof.
  intros Hl. destruct (run_spec (NewCorrelatorWithConfig example_config) ops) as (c & E & _);
    [apply new_inv|done|simpl; lia|].
  exists example_config, ops. eexists. split; [done|]. unfold example_state. by rewrite E.
Qed.

(** ** Theorems *)

(** C5. The correlator implements its specification: whatever datagrams are
    processed and whenever Expire, Finish and Flush are called, no operation
    panics, each returns the transactions of the abstract correlator in the
    same order, and at the end the map, the heap and the positions agree, the
    heap is ordered by deadline and no more than MaxPending queries are kept. *)
Theorem correlator_refines config ops :
  Z.of_nat (length ops) < 2 ^ 64 ->
  exists c, run (NewCorrelatorWithConfig config) ops =
      Some (c, (spec_run (spec_of (NewCorrelatorWithConfig config)) ops).2) /\
    spec_of c = (spec_run (spec_of (NewCorrelatorWithConfig config)) ops).1 /\
    correlator_inv c.
Proof.
  intros Hl. destruct (run_spec (NewCorrelatorWithConfig config) ops) as (c & E & I & S & _);
    [apply new_inv|done|done|]. by exists c.
Qed.

Lemma correlator_refines_witness :
  exists c, run (NewCorrelatorWithConfig example_config) example_capture =
      Some (c, (spec_run (spec_of (NewCorrelatorWithConfig example_config)) example_capture).2) /\
    spec_of c = (spec_run (spec_of (NewCorrelatorWithConfig example_config)) example_capture).1 /\
    correlator_inv c.
Proof. apply (correlator_refines example_config example_capture). vm_compute. reflexivity. Defined.

(** Expire reports exactly the queries whose observation age has reached
    the timeout, each once as no_response and the earliest deadline first,
    and keeps exactly the others. *)
Theorem expire_exact c now :
  reachable c ->
  exists c' expired, Expire c now = Some (c', noResponse <$> expired) /\
    in_deadline_order expired (due_queries (spec_of c) now) /\
    (forall q, q ∈ expired -> cr_timeout c <= query_age now q) /\
    (forall k q, queries c' !! k = Some q <->
       queries c !! k = Some q /\ query_age now q < cr_timeout c).
Proof.
  intros [I _]%reachable_inv. destruct (expire_spec c now I) as (c' & E & I' & S').
  pose proof (by_deadline_order (due_queries (spec_of c) now)
    (sequences_distinct_filter _ _ (inv_sequence _ I))) as Ho.
  exists c', (by_deadline (due_queries (spec_of c) now)). split_and!; [done|done| |].
  - intros q [k [_ Hq]%map_lookup_filter_Some]%(proj2 (proj2 Ho)). by apply Z.leb_le in Hq.
  - intros k q. apply (f_equal sp_queries) in S'. simpl in S'. rewrite S'.
    unfold fresh_queries. rewrite map_lookup_filter_Some. simpl. unfold due, query_age.
    by rewrite Z.leb_gt.
Qed.

Lemma expire_exact_witness :
  reachable (example_state example_capture) /\
  exists c' expired,
    Expire (example_state example_capture) (unix_epoch + 6 * Second) = Some (c', noResponse <$> expired) /\
    in_deadline_order expired (due_queries (spec_of (example_state example_capture)) (unix_epoch + 6 * Second)).
Proof.
  assert (R : reachable (example_state example_capture)) by (apply example_state_reachable; done).
  split; [exact R|].
  destruct (expire_exact (example_state example_capture) (unix_epoch + 6 * Second) R)
    as (c' & expired & E & O & _). exists c', expired. exact (conj E O).
Defined.

(** Finish accounts for every pending query exactly once: those whose
    age has reached the timeout as no_response, then the others as incomplete
    because the capture ended, each group by deadline, and nothing stays
    pending. *)
Theorem finish_exact c now :
  reachable c ->
  exists c' (aged fresh_ : list pendingQuery), Finish c now = Some (c',
      (noResponse <$> aged) ++
      ((fun q => set_incomplete ReasonCaptureEnded (noResponse q)) <$> fresh_)) /\
    in_deadline_order aged (due_queries (spec_of c) now) /\
    in_deadline_order fresh_ (fresh_queries (spec_of c) now) /\
    (length aged + length fresh_ = size (cr_pending c))%nat /\
    cr_pending c' = ∅ /\ ph_items (cr_deadlines c') = [].
Proof.
  intros [I _]%reachable_inv. destruct (Finish_spec c now I) as (c' & E & I' & S').
  exists c', (by_deadline (due_queries (spec_of c) now)), (by_deadline (fresh_queries (spec_of c) now)).
  assert (Hp : cr_pending c' = ∅).
  { apply (f_equal sp_queries) in S'. simpl in S'. unfold queries in S'.
    by apply fmap_empty_iff in S'. }
  split; [done|].
  do 2 (split; [apply by_deadline_order, sequences_distinct_filter; exact (inv_sequence _ I)|]).
  split_and!; [|done|].
  - unfold by_deadline. rewrite !sort_Slice_perm, !length_fmap, !length_map_to_list, <- queries_size.
    rewrite <- map_size_disj_union.
    + f_equal. apply map_eq. intros k. rewrite lookup_union. unfold due_queries, fresh_queries. simpl.
      rewrite !map_lookup_filter. destruct (queries c !! k) as [q|]; [|done]. simpl.
      by destruct (due _ now q).
    + apply map_disjoint_spec. intros k q1 q2 [H1 D1]%map_lookup_filter_Some [H2 D2]%map_lookup_filter_Some.
      simpl in *. congruence.
  - pose proof (inv_items _ I') as Hi. rewrite Hp, map_to_list_empty in Hi.
    by apply Permutation_nil_r in Hi.
Qed.

Lemma finish_exact_witness :
  reachable (example_state example_capture) /\
  exists c' (aged fresh_ : list pendingQuery),
    Finish (example_state example_capture) (unix_epoch + 3 * Second) = Some (c',
      (noResponse <$> aged) ++
      ((fun q => set_incomplete ReasonCaptureEnded (noResponse q)) <$> fresh_)) /\
    (length aged + length fresh_ = size (cr_pending (example_state example_capture)))%nat.
Proof.
  assert (R : reachable (example_state example_capture)) by (apply example_state_reachable; done).
  split; [exact R|].
  destruct (finish_exact (example_state example_capture) (unix_epoch + 3 * Second) R)
    as (c' & aged & fresh_ & E & _ & _ & L & _).
  exists c', aged, fresh_. exact (conj E L).
Defined.

(** A query and its response, captured in this order, make one
    transaction: when the query is accepted (no identical question pending,
    room for it) and the response, with the endpoints exchanged and the same
    identifier and question, is observed before the query's timeout, the last
    transaction is the response with the identities captured with the query,
    and its latency is the kernel time between the two, in whole microseconds,
    measured exactly when both times are known and in order. *)
Theorem query_response_latency c f g m m' :
  reachable c ->
  Parse (fr_Payload f) = Ok m -> msg_Response m = false ->
  Parse (fr_Payload g) = Ok m' -> msg_Response m' = true ->
  msg_ID m' = msg_ID m -> msg_QuestionName m' = msg_QuestionName m ->
  msg_QuestionType m' = msg_QuestionType m ->
  fr_Source g = fr_Destination f -> fr_Destination g = fr_Source f ->
  fr_ObserverPID g = fr_ObserverPID f -> fr_NodeName g = fr_NodeName f ->
  0 <= fr_KernelTimestampNS f <= fr_KernelTimestampNS g -> fr_KernelTimestampNS g < 2 ^ 64 ->
  time_Sub (fr_ObservedAt g) (fr_ObservedAt f) < cr_timeout c ->
  fresh_queries (spec_of c) (fr_ObservedAt f) !! queryKey f m = None ->
  Z.of_nat (size (fresh_queries (spec_of c) (fr_ObservedAt f))) < cr_maxPending c ->
  exists c' out expired t,
    run c [OpProcess f; OpProcess g] = Some (c', [out; expired ++ [t]]) /\
    out = noResponse <$> by_deadline (due_queries (spec_of c) (fr_ObservedAt f)) /\
    tx_Outcome t = OutcomeResponse /\ tx_ResponseCode t = ResponseCodeString (msg_ResponseCode m') /\
    tx_Client t = fr_Source f /\ tx_Server t = fr_Destination f /\
    tx_Process t = without_cmdline <$> fr_Process f /\
    tx_ClientPod t = fr_SourcePod f /\ tx_ServerPod t = fr_DestinationPod f /\
    tx_LatencyMeasured t = negb (fr_KernelTimestampNS f =? 0) /\
    tx_LatencyMicros t =
      (if fr_KernelTimestampNS f =? 0 then 0
       else (fr_KernelTimestampNS g - fr_KernelTimestampNS f) / 1000) /\
    cr_pending c' !! queryKey f m = None.
Proof.
  intros [I Q]%reachable_inv Pf Rf Pg Rg Eid En Et Es Ed Ep Ew Hk Hg Htime Hfresh Hroom.
  destruct (run_spec c [OpProcess f; OpProcess g]) as (c' & -> & I' & S' & _);
    [done|lia|simpl; lia|].
  set (s1 := set_queries (spec_of c) (fresh_queries (spec_of c) (fr_ObservedAt f))).
  set (q := mkPendingQuery (snapshotFragment f) m (queryKey f m) 0 (u64 (cr_sequence c + 1))).
  set (s2 := mkSpec (cr_timeout c) (cr_maxPending c) (<[queryKey f m := q]> (sp_queries s1))
               (u64 (cr_sequence c + 1))).
  assert (E1 : spec_process (spec_of c) f =
    (s2, noResponse <$> by_deadline (due_queries (spec_of c) (fr_ObservedAt f)))).
  { unfold spec_process, spec_expire. fold s1. rewrite Pf, Rf. unfold spec_query.
    change (queryKey (snapshotFragment f) m) with (queryKey f m). simpl sp_queries. rewrite Hfresh.
    simpl sp_maxPending. destruct (Z.leb_spec (cr_maxPending c)
      (Z.of_nat (size (fresh_queries (spec_of c) (fr_ObservedAt f))))); [lia|].
    by rewrite app_nil_r. }
  assert (Ekey : responseKey (snapshotFragment g) m' = queryKey f m).
  { unfold responseKey, queryKey. simpl. congruence. }
  assert (Hq : fresh_queries s2 (fr_ObservedAt g) !! queryKey f m = Some q).
  { apply map_lookup_filter_Some. split; [|by apply Z.leb_gt].
    simpl. by rewrite lookup_insert, decide_True. }
  assert (E2 : spec_process s2 g =
    (set_queries s2 (delete (queryKey f m) (fresh_queries s2 (fr_ObservedAt g))),
     (noResponse <$> by_deadline (due_queries s2 (fr_ObservedAt g))) ++
     [responseTransaction (snapshotFragment g) m' (Some q)])).
  { unfold spec_process, spec_expire. rewrite Pg, Rg. unfold spec_response. rewrite Ekey.
    simpl sp_queries. by rewrite Hq. }
  cbn [spec_run spec_step] in *. rewrite E1 in *. cbn beta iota in *. rewrite E2 in *. simpl in S'.
  eexists c', _, _, _. split; [done|]. simpl. rewrite Es, Ed.
  assert (Hc : (fr_KernelTimestampNS f <=? fr_KernelTimestampNS g) = true) by (apply Z.leb_le; lia).
  rewrite Hc, andb_true_r. split_and!; try done.
  - destruct (fr_KernelTimestampNS f =? 0); simpl; [done|]. rewrite uint_small by lia. done.
  - destruct (cr_pending c' !! queryKey f m) as [p|] eqn:Hp; [|done].
    apply queries_lookup in Hp. apply (f_equal sp_queries) in S'. simpl in S'.
    rewrite S', lookup_delete_eq in Hp. done.
Qed.

Lemma query_response_latency_witness :
  exists c' out expired t,
    run (example_state []) [OpProcess (example_query 0 1000 7);
                            OpProcess (example_response Second 3500 7)] =
      Some (c', [out; expired ++ [t]]) /\
    tx_LatencyMeasured t = true /\ tx_LatencyMicros t = 2.
Proof.
  destruct (query_response_latency (example_state []) (example_query 0 1000 7)
    (example_response Second 3500 7) (mkMessage 7 false 0 "db.svc" 28)
    (mkMessage 7 true 0 "db.svc" 28))
    as (c' & out & expired & t & E & _ & _ & _ & _ & _ & _ & _ & _ & Hm & Hl & _);
    [by apply example_state_reachable
    |vm_compute; reflexivity|reflexivity|vm_compute; reflexivity|reflexivity..| | | | | |].
  - split; vm_compute; discriminate.
  - vm_compute. reflexivity.
  - vm_compute. reflexivity.
  - vm_compute. reflexivity.
  - vm_compute. reflexivity.
  - exists c', out, expired, t. split; [exact E|]. split; [exact Hm|exact Hl].
Defined.
