(* ===== verification/NetIP.v ===== *)
(** * net.IP: addresses as raw bytes and as text

    IP.String, which the collector and the conntrack resolver use to render
    raw addresses: dotted decimal for IPv4 (mapped into IPv6 or not), and for
    IPv6 lower-case hexadecimal groups with the first of the longest runs of
    at least two zero groups written as two colons. *)

From S2P Require Import Prelude Text.

#[local] Open Scope Z_scope.

(** ** Definitions *)

Fixpoint join (sep : string) (l : list string) : string :=
  match l with
  | [] => ""
  | [x] => x
  | x :: l' => x +:+ sep +:+ join sep l'
  end.

Definition ipv4_string (raw : list byte) : string :=
  join "." ((fun b => decimal (byte_val b)) <$> raw).

(** A 16-bit group in hexadecimal, without leading zeros *)
Definition hex_group (n : Z) : string := string_of_bytes (digits_text 16 4 n).

Fixpoint groups (raw : list byte) : list Z :=
  match raw with
  | a :: b :: raw' => (byte_val a * 256 + byte_val b) :: groups raw'
  | _ => []
  end.

(** The number of zero groups at the head *)
Fixpoint zero_run (l : list Z) : nat :=
  match l with
  | x :: l' => if x =? 0 then S (zero_run l') else 0
  | [] => 0
  end.

(** Where the longest run of zero groups starts, and its length: the first
    such run, of at least two groups *)
Fixpoint longest_run (l : list Z) (at_ : nat) (best : nat * nat) : nat * nat :=
  match l with
  | [] => best
  | _ :: l' =>
      let n := zero_run l in
      longest_run l' (S at_) (if (snd best <? n)%nat && (2 <=? n)%nat then (at_, n) else best)
  end.

Definition ipv6_string (raw : list byte) : string :=
  let gs := groups raw in
  let '(start, len) := longest_run gs 0 (0%nat, 0%nat) in
  if (len =? 0)%nat then join ":" (hex_group <$> gs)
  else join ":" (hex_group <$> take start gs) +:+ "::" +:+
       join ":" (hex_group <$> drop (start + len) gs).

(** ::ffff:a.b.c.d *)
Definition mapped_prefix : list byte :=
  replicate 10 (byte_of 0) ++ [byte_of 255; byte_of 255].

Definition IP_String (raw : list byte) : string :=
  if (length raw =? 4)%nat then ipv4_string raw
  else if has_prefix raw mapped_prefix then ipv4_string (drop 12 raw)
  else ipv6_string raw.

(** ** Lemmas *)

Example ipv4_loopback : IP_String [byte_of 127; byte_of 0; byte_of 0; byte_of 1] = "127.0.0.1".
Proof. vm_compute. reflexivity. Qed.

Example ipv6_compressed :
  IP_String (be_bytes 16 0x20010db8000000000001000000000001) = "2001:db8::1:0:0:1".
Proof. vm_compute. reflexivity. Qed.

Example ipv6_unspecified : IP_String (be_bytes 16 0) = "::".
Proof. vm_compute. reflexivity. Qed.

Example ipv6_mapped : IP_String (be_bytes 16 0xffff0a000001) = "10.0.0.1".
Proof. vm_compute. reflexivity. Qed.

Lemma append_nonempty_l (x y : string) : x <> "" -> x +:+ y <> "".
Proof. by destruct x. Qed.

Lemma append_nonempty_r (x y : string) : y <> "" -> x +:+ y <> "".
Proof. by destruct x. Qed.

Lemma join_nonempty sep x y l : sep <> "" -> join sep (x :: y :: l) <> "".
Proof. intros Hs. simpl. by apply append_nonempty_r, append_nonempty_l. Qed.

Lemma list_of_length {A} n (l : list A) : length l = S n -> exists x l', l = x :: l' /\ length l' = n.
Proof. destruct l as [|x l']; [done|]. intros [= E]. by exists x, l'. Qed.

(** An address of either length has a text. *)
Lemma IP_String_nonempty raw : (length raw = 4 \/ length raw = 16)%nat -> IP_String raw <> "".
Proof.
  assert (H4 : forall l, length l = 4%nat -> ipv4_string l <> "").
  { intros l Hl. apply list_of_length in Hl as (? & ? & -> & Hl).
    apply list_of_length in Hl as (? & ? & -> & _). unfold ipv4_string. by apply join_nonempty. }
  unfold IP_String. intros [Hl|Hl]; rewrite Hl; simpl; [by apply H4|].
  destruct (has_prefix raw mapped_prefix); [apply H4; by rewrite length_drop, Hl|].
  unfold ipv6_string. destruct (longest_run _ _ _) as [start len]. destruct (len =? 0)%nat.
  - do 4 (apply list_of_length in Hl as (? & ? & -> & Hl)). by apply join_nonempty.
  - by apply append_nonempty_r, append_nonempty_l.
Qed.
