(* ===== verification/NetAddr.v ===== *)
(** * net/netip: parsing addresses

    ParseAddr and the predicates the bridge and the Pod identity cache use:
    the four decimal fields of an IPv4 address, the groups, the ellipsis, the
    embedded IPv4 address and the zone of an IPv6 address. *)

From S2P Require Import Prelude Text NetIP.

#[local] Open Scope Z_scope.

(** ** Definitions *)

(** An Addr: 4 or 16 bytes, and the zone of an IPv6 address *)
Record Addr := mkAddr {
  ad_bytes : list byte;
  ad_zone : list byte
}.

#[export] Instance Addr_eq_dec : EqDecision Addr.
Proof. solve_decision. Defined.

(** One field: digits without a leading zero, at most 255 *)
Definition parse_octet (s : list byte) : option byte :=
  if negb (forallb is_decimal_digit s) || (length s =? 0)%nat then None
  else if (1 <? length s)%nat && bool_decide (head s = Some (byte_of 48)) then None
  else if 255 <? digits_value 10 s then None
  else Some (byte_of (digits_value 10 s)).

(** parseIPv4Fields *)
Definition parseIPv4 (s : list byte) : option (list byte) :=
  let fields := split_byte (byte_of 46) s in
  if (length fields =? 4)%nat then mapM parse_octet fields else None.

(** The leading hexadecimal digits, and the rest *)
Fixpoint hex_span (s : list byte) : list byte * list byte :=
  match s with
  | b :: s' => if is_hex_digit b then let '(ds, rest) := hex_span s' in (b :: ds, rest) else ([], s)
  | [] => ([], [])
  end.

(** The loop of parseIPv6; an iteration writes two bytes of [ip], so eight
    iterations are the loop's bound. *)
Fixpoint parse_groups (fuel : nat) (ip : list byte) (ellipsis : option nat) (s : list byte) :
    option (list byte * option nat * list byte) :=
  match fuel with
  | O => Some (ip, ellipsis, s)
  | S fuel' =>
      let '(digits, rest) := hex_span s in
      if (length digits =? 0)%nat || (4 <? length digits)%nat then None
      else
        let ip' := ip ++ be_bytes 2 (digits_value 16 digits) in
        match rest with
        | [] => Some (ip', ellipsis, [])
        | c :: rest' =>
            if bool_decide (c = byte_of 46) then
              if (negb (bool_decide (is_Some ellipsis)) && negb (length ip =? 12)%nat) ||
                 (16 <? length ip + 4)%nat then None
              else match parseIPv4 s with
                   | Some b => Some (ip ++ b, ellipsis, [])
                   | None => None
                   end
            else if negb (bool_decide (c = byte_of 58)) then None
            else
              match rest' with
              | [] => None
              | d :: rest'' =>
                  if bool_decide (d = byte_of 58) then
                    if bool_decide (is_Some ellipsis) then None
                    else if (length rest'' =? 0)%nat then Some (ip', Some (length ip'), [])
                    else parse_groups fuel' ip' (Some (length ip')) rest''
                  else parse_groups fuel' ip' ellipsis rest'
              end
        end
  end.

(** parseIPv6 without its zone *)
Definition parse_hex_address (s : list byte) : option (list byte) :=
  let leading := has_prefix s (lit "::") in
  let s' := if leading then drop 2 s else s in
  if leading && (length s' =? 0)%nat then Some (replicate 16 (byte_of 0))
  else
    match parse_groups 8 [] (if leading then Some 0%nat else None) s' with
    | None => None
    | Some (ip, ellipsis, rest) =>
        if negb (length rest =? 0)%nat then None
        else if (length ip <? 16)%nat then
          match ellipsis with
          | None => None
          | Some e => Some (take e ip ++ replicate (16 - length ip) (byte_of 0) ++ drop e ip)
          end
        else if bool_decide (is_Some ellipsis) then None else Some ip
    end.

Definition parseIPv6 (s : list byte) : option Addr :=
  match cut_byte (byte_of 37) s with
  | None => (fun ip => mkAddr ip []) <$> parse_hex_address s
  | Some (s', zone) =>
      if (length zone =? 0)%nat then None else (fun ip => mkAddr ip zone) <$> parse_hex_address s'
  end.

(** ParseAddr: the first of '.', ':' and '%' says which address it is *)
Definition ParseAddr (s : list byte) : option Addr :=
  match List.find (fun b => bool_decide (b ∈ [byte_of 46; byte_of 58; byte_of 37])) s with
  | Some b =>
      if bool_decide (b = byte_of 46) then (fun ip => mkAddr ip []) <$> parseIPv4 s
      else if bool_decide (b = byte_of 58) then parseIPv6 s
      else None
  | None => None
  end.

Definition Is4 (ip : Addr) : bool := (length (ad_bytes ip) =? 4)%nat.

Definition Unmap (ip : Addr) : Addr :=
  if negb (Is4 ip) && has_prefix (ad_bytes ip) mapped_prefix then mkAddr (drop 12 (ad_bytes ip)) [] else ip.

Definition IsUnspecified (ip : Addr) : bool :=
  bool_decide (ip = mkAddr (replicate 4 (byte_of 0)) []) || bool_decide (ip = mkAddr (replicate 16 (byte_of 0)) []).

Definition IsMulticast (ip : Addr) : bool :=
  let ip := Unmap ip in
  let first := byte_val (ad_bytes ip !!! 0%nat) in
  if Is4 ip then Z.land first 0xf0 =? 0xe0 else first =? 0xff.

(** ** Lemmas *)

Example parse_loopback : ParseAddr (lit "127.0.0.1") = Some (mkAddr (byte_of <$> [127; 0; 0; 1]) []).
Proof. vm_compute. reflexivity. Qed.

Example parse_leading_zero : ParseAddr (lit "127.0.0.01") = None.
Proof. vm_compute. reflexivity. Qed.

Example parse_compressed :
  ParseAddr (lit "2001:db8::1:0:0:1") = Some (mkAddr (be_bytes 16 0x20010db8000000000001000000000001) []).
Proof. vm_compute. reflexivity. Qed.

Example parse_zone : ParseAddr (lit "fe80::1%eth0") = Some (mkAddr (be_bytes 16 0xfe800000000000000000000000000001) (lit "eth0")).
Proof. vm_compute. reflexivity. Qed.

Example parse_embedded : ParseAddr (lit "::ffff:10.0.0.1") = Some (mkAddr (be_bytes 16 0xffff0a000001) []).
Proof. vm_compute. reflexivity. Qed.

Example parse_no_ellipsis : ParseAddr (lit "1:2:3:4:5:6:7::8") = None.
Proof. vm_compute. reflexivity. Qed.

(** A byte's decimal form is a field with its value. *)
Lemma parse_octet_decimal b : parse_octet (bytes_of_string (decimal (byte_val b))) = Some b /\
  Forall (fun c => is_decimal_digit c = true) (bytes_of_string (decimal (byte_val b))).
Proof.
  assert (HF : Forall (fun z => parse_octet (bytes_of_string (decimal z)) = Some (byte_of z) /\
    forallb is_decimal_digit (bytes_of_string (decimal z)) = true) (seqZ 0 256)).
  { apply Forall_forall. intros z Hz. assert (E : forallb (fun z =>
      bool_decide (parse_octet (bytes_of_string (decimal z)) = Some (byte_of z)) &&
      forallb is_decimal_digit (bytes_of_string (decimal z))) (seqZ 0 256) = true) by (vm_compute; reflexivity).
    rewrite List.forallb_forall in E. apply list_elem_of_In in Hz. apply E, andb_true_iff in Hz as [H1 H2].
    by apply bool_decide_eq_true in H1. }
  rewrite Forall_forall in HF. destruct (HF (byte_val b)) as [H1 H2].
  { apply elem_of_seqZ. pose proof (byte_val_range b). lia. }
  rewrite byte_of_val in H1. split; [done|]. by apply List.Forall_forall, List.forallb_forall.
Qed.

Lemma bytes_of_string_app x y : bytes_of_string (x +:+ y) = bytes_of_string x ++ bytes_of_string y.
Proof. induction x as [|a x IH]; [done|]. unfold bytes_of_string, String.list_byte_of_string in *. simpl. by rewrite <- IH. Qed.

(** The collector's text of an IPv4 address parses to that address. *)
Lemma ParseAddr_ipv4_string raw :
  length raw = 4%nat -> ParseAddr (bytes_of_string (ipv4_string raw)) = Some (mkAddr raw []).
Proof.
  intros Hl. do 4 (destruct raw as [|? raw]; [done|]). destruct raw; [|done].
  unfold ipv4_string. cbn [fmap list_fmap join]. rewrite !bytes_of_string_app.
  change (bytes_of_string ".") with [byte_of 46]. cbn [app].
  destruct (parse_octet_decimal b) as [P0 D0], (parse_octet_decimal b0) as [P1 D1],
    (parse_octet_decimal b1) as [P2 D2], (parse_octet_decimal b2) as [P3 D3].
  generalize dependent (bytes_of_string (decimal (byte_val b))). intros s0 P0 D0.
  generalize dependent (bytes_of_string (decimal (byte_val b0))). intros s1 P1 D1.
  generalize dependent (bytes_of_string (decimal (byte_val b1))). intros s2 P2 D2.
  generalize dependent (bytes_of_string (decimal (byte_val b2))). intros s3 P3 D3.
  assert (N : forall s, Forall (fun c => is_decimal_digit c = true) s -> byte_of 46 ∉ s).
  { intros s Hs Hin. rewrite Forall_forall in Hs. by apply Hs in Hin. }
  unfold ParseAddr.
  replace (List.find _ _) with (Some (byte_of 46)).
  - rewrite bool_decide_true by done. unfold parseIPv4.
    rewrite !split_byte_line by by apply N.
    rewrite (split_byte_none _ s3) by by apply N. cbn [length Nat.eqb mapM].
    by rewrite P0, P1, P2, P3.
  - clear -D0. symmetry. induction D0 as [|c s0 Hc D0 IH]; [done|]. cbn [app List.find].
    rewrite bool_decide_false; [exact IH|]. intros Hin.
    rewrite !elem_of_cons in Hin. destruct Hin as [->|[->|[->|Hin]]]; try done.
    by apply not_elem_of_nil in Hin.
Qed.
