(* ===== verification/Bridge.v ===== *)
(** * internal/bridge: window validation and the bounded MapValue check

    validation.go, preflight.go and the construction of a request in
    client.go. *)

From S2P Require Import Prelude Text Flow NetIP NetAddr.

#[local] Open Scope Z_scope.

(** ** Definitions *)

Inductive BridgeError :=
| invalid_window
| ErrIncompleteTuple
| ErrPartialWindow
| ErrNoSamples
| unsupported_schema.

Definition maxSafe : Z := 2 ^ 53 - 1.

(** ^[A-Za-z0-9._:-]{1,32}$ *)
Definition token_byte (b : byte) : bool :=
  let z := byte_val b in
  ((65 <=? z) && (z <=? 90)) || ((97 <=? z) && (z <=? 122)) || ((48 <=? z) && (z <=? 57)) ||
  (z =? 46) || (z =? 95) || (z =? 58) || (z =? 45).

Definition token (s : list byte) : bool :=
  (1 <=? length s)%nat && (length s <=? 32)%nat && forallb token_byte s.

(** printable: the first byte of every rune; the first byte past ASCII
    starts a rune, so testing every byte answers the same. *)
Definition printable (s : list byte) (n : nat) : bool :=
  if (length s =? 0)%nat || (n <? length s)%nat then false else forallb is_graphic s.

Definition endpoint (a : list byte) (p : Z) : bool :=
  match ParseAddr a with
  | None => false
  | Some ip =>
      (length (ad_zone ip) =? 0)%nat && negb (IsUnspecified ip) && negb (IsMulticast ip) && negb (p =? 0)
  end.

Definition bad_times (w : Window) : bool :=
  let s := time_UnixMilli (wi_WindowStart w) in
  let e := time_UnixMilli (wi_WindowEnd w) in
  (time_Unix (wi_WindowStart w) <? 0) || (time_Unix (wi_WindowEnd w) <? 0) ||
  (maxSafe / 1000 <? time_Unix (wi_WindowStart w)) || (maxSafe / 1000 <? time_Unix (wi_WindowEnd w)) ||
  (s <=? 0) || (e <=? s) || (maxSafe <? e) || (60000 <? i64 (e - s)).

Definition bad_process (p : option Process) : bool :=
  match p with
  | None => false
  | Some p => negb (bool_decide (pr_ContainerID p = "")) && negb (printable (bytes_of_string (pr_ContainerID p)) 128)
  end.

Definition bad_resolved (r : option ResolvedEndpoint) : bool :=
  match r with
  | None => false
  | Some r => negb (endpoint (bytes_of_string (re_Address r)) (re_Port r)) || negb (token (bytes_of_string (re_Via r)))
  end.

(** The bounds of a distribution, and whether samples can have it *)
Definition bad_distribution (d : Distribution) : bool :=
  (Count d <? 1) || (1000000000 <? Count d) || (SumMicros d <? 1) || (maxSafe <? SumMicros d) ||
  (MinMicros d <? 1) || (maxSafe <? MinMicros d) || (MaxMicros d <? MinMicros d) || (maxSafe <? MaxMicros d).

Definition impossible_distribution (d : Distribution) : bool :=
  if Count d =? 1 then negb (SumMicros d =? MinMicros d) || negb (SumMicros d =? MaxMicros d)
  else
    let n := u64 (Count d - 1) in
    let lo := n * MinMicros d + MaxMicros d in
    let hi := n * MaxMicros d + MinMicros d in
    (SumMicros d <? lo) || (hi <? SumMicros d).

(** validateWindow; [None] is its nil error *)
Definition validateWindow (w : Window) : option BridgeError :=
  let key := wi_Flow w in
  if bad_times w then Some invalid_window
  else if negb (printable (bytes_of_string (fk_NodeName key)) 253) || negb (bool_decide (fk_Protocol key = "tcp"))
  then Some invalid_window
  else if (ep_Port (fk_Source key) =? 0) || (ep_Port (fk_Destination key) =? 0) then Some ErrIncompleteTuple
  else if negb (endpoint (bytes_of_string (ep_Address (fk_Source key))) (ep_Port (fk_Source key))) ||
          negb (endpoint (bytes_of_string (ep_Address (fk_Destination key))) (ep_Port (fk_Destination key)))
  then Some invalid_window
  else if bad_process (wi_Process w) then Some invalid_window
  else if bad_resolved (wi_SourceResolved w) || bad_resolved (wi_DestinationResolved w) then Some invalid_window
  else if bad_distribution (wi_RTT w) then Some invalid_window
  else if impossible_distribution (wi_RTT w) then Some invalid_window
  else None.

(** *** RequestForWindow *)

Inductive field_value :=
| FString (s : string)
| FLong (n : Z).

(** The puts of a request, in order *)
Definition resolved_fields (prefix : string) (r : option ResolvedEndpoint) : list (string * field_value) :=
  match r with
  | None => []
  | Some r => [(prefix +:+ "_resolved_addr", FString (re_Address r));
               (prefix +:+ "_resolved_port", FLong (re_Port r));
               (prefix +:+ "_resolution_via", FString (re_Via r))]
  end.

Definition role (direction : string) : string :=
  if bool_decide (direction = "egress") then "source"
  else if bool_decide (direction = "ingress") then "destination" else "unknown".

Definition request_fields (w : Window) : list (string * field_value) :=
  let key := wi_Flow w in
  [("cmd", FString "uploadNetworkEdge"); ("schema", FString "network.edge.window/v1alpha1");
   ("window_start_ms", FLong (time_UnixMilli (wi_WindowStart w)));
   ("window_end_ms", FLong (time_UnixMilli (wi_WindowEnd w)));
   ("observer_node", FString (fk_NodeName key)); ("protocol", FString (fk_Protocol key));
   ("src_addr", FString (ep_Address (fk_Source key))); ("src_port", FLong (ep_Port (fk_Source key)));
   ("dst_addr", FString (ep_Address (fk_Destination key))); ("dst_port", FLong (ep_Port (fk_Destination key)));
   ("observer_role", FString (role (fk_Direction key)));
   ("srtt_count", FLong (i64 (Count (wi_RTT w)))); ("srtt_sum_us", FLong (i64 (SumMicros (wi_RTT w))));
   ("srtt_min_us", FLong (i64 (MinMicros (wi_RTT w)))); ("srtt_max_us", FLong (i64 (MaxMicros (wi_RTT w))))] ++
  match wi_Process w with
  | Some p => if bool_decide (pr_ContainerID p = "") then []
              else [("observer_container_id", FString (pr_ContainerID p))]
  | None => []
  end ++
  resolved_fields "src" (wi_SourceResolved w) ++ resolved_fields "dst" (wi_DestinationResolved w).

(** The window whose snapshot is digested: without the command line *)
Definition snapshot_window (w : Window) : Window :=
  mkWindow (wi_SourcePod w) (wi_DestinationPod w) (wi_ObserverPod w) (wi_SchemaVersion w) (wi_Partial w)
    (wi_WindowStart w) (wi_WindowEnd w) (wi_LastObservedAt w) (wi_Flow w) (wi_SourceResolved w)
    (wi_DestinationResolved w) (without_cmdline <$> wi_Process w) (wi_BytesTx w) (wi_ObservationCount w)
    (wi_BytesRx w) (wi_PacketsTx w) (wi_PacketsRx w) (wi_Retransmissions w) (wi_Losses w)
    (wi_RTT w) (wi_Jitter w).

Section request.
(** The hexadecimal SHA-256 of a window's JSON *)
Context (digest : Window -> string).

Definition RequestForWindow (w : Window) : result BridgeError (list (string * field_value)) :=
  if negb (bool_decide (wi_SchemaVersion w = SchemaVersion)) then Err unsupported_schema
  else if wi_Partial w then Err ErrPartialWindow
  else if Count (wi_RTT w) =? 0 then Err ErrNoSamples
  else match validateWindow w with
       | Some e => Err e
       | None => Ok (request_fields w ++ [("request_id", FString (digest (snapshot_window w)))])
       end.
End request.

(** *** preflightMap *)

(** take(n) on the bytes that are left *)
Definition take_bytes (n : nat) (b : list byte) : option (list byte * list byte) :=
  if (length b <? n)%nat then None else Some (take n b, drop n b).

Definition take_byte (b : list byte) : option (Z * list byte) :=
  match b with
  | [] => None
  | x :: b' => Some (byte_val x, b')
  end.

Definition decimal_value (a : list byte) : Z :=
  foldl (fun v c => i64 (Z.lor (Z.shiftl v 8) (byte_val c)))
    (if (0 <? length a)%nat && negb (Z.land (byte_val (a !!! 0%nat)) 128 =? 0) then -1 else 0) a.

Definition read_decimal (b : list byte) : option (Z * list byte) :=
  '(n, b) ← take_byte b;
  if (8 <? n) || (n =? 6) || (n =? 7) then None
  else
    '(a, b) ← take_bytes (Z.to_nat n) b;
    Some (decimal_value a, b).

(** n bytes of UTF-8, for a length the reader accepts *)
Definition read_bounded (limit n : Z) (b : list byte) : option (list byte * list byte) :=
  if (n <? 0) || (limit <? n) then None
  else
    '(a, b) ← take_bytes (Z.to_nat n) b;
    if utf8_Valid a then Some (a, b) else None.

Definition read_text (limit : Z) (b : list byte) : option (list byte * list byte) :=
  '(n, b) ← take_byte b;
  '(n, b) ← (if n =? 255 then '(a, b) ← take_bytes 2 b; Some (be_uint a, b)
             else if n =? 254 then '(a, b) ← take_bytes 4 b; Some (i32 (be_uint a), b)
             else Some (n, b));
  read_bounded limit n b.

Definition read_value (b : list byte) : option (list byte) :=
  '(t, b) ← take_byte b;
  if t =? 50 then snd <$> read_text 512 b
  else if t =? 20 then snd <$> read_decimal b
  else if t =? 10 then '(a, b) ← take_byte b; if 1 <? a then None else Some b
  else None.

Fixpoint read_entries (count : nat) (keys : list (list byte)) (b : list byte) : option (list byte) :=
  match count with
  | O => Some b
  | S count' =>
      '(key, b) ← read_text 64 b;
      if bool_decide (key ∈ keys) then None
      else
        b ← read_value b;
        read_entries count' (key :: keys) b
  end.

(** preflightMap: whether its error is nil *)
Definition preflightMap (b : list byte) : bool :=
  if (length b <? 2)%nat || (Z.to_nat 65536 <? length b)%nat || negb (bool_decide (head b = Some (byte_of 80)))
  then false
  else
    match read_decimal (drop 1 b) with
    | None => false
    | Some (count, rest) =>
        if (count <? 0) || (32 <? count) then false
        else match read_entries (Z.to_nat count) [] rest with
             | None => false
             | Some rest => (length rest =? 0)%nat
             end
    end.

(** *** The grammar preflightMap accepts *)

(** A width from 0 to 5 or 8, and as many bytes *)
Inductive decimal_bytes : list byte -> list byte -> Prop :=
| decimal_bytes_intro (n : Z) (a : list byte) :
    0 <= n <= 5 \/ n = 8 -> length a = Z.to_nat n -> decimal_bytes (byte_of n :: a) a.

(** The three forms of a length, and as many bytes of UTF-8 *)
Inductive text_bytes (limit : Z) : list byte -> list byte -> Prop :=
| text_short (s : list byte) :
    Z.of_nat (length s) <= 253 -> Z.of_nat (length s) <= limit -> utf8_Valid s = true ->
    text_bytes limit (byte_of (Z.of_nat (length s)) :: s) s
| text_16 (s : list byte) :
    Z.of_nat (length s) < 2 ^ 16 -> Z.of_nat (length s) <= limit -> utf8_Valid s = true ->
    text_bytes limit (byte_of 255 :: be_bytes 2 (Z.of_nat (length s)) ++ s) s
| text_32 (s : list byte) :
    Z.of_nat (length s) < 2 ^ 31 -> Z.of_nat (length s) <= limit -> utf8_Valid s = true ->
    text_bytes limit (byte_of 254 :: be_bytes 4 (Z.of_nat (length s)) ++ s) s.

Inductive value_bytes : list byte -> Prop :=
| value_text (x s : list byte) : text_bytes 512 x s -> value_bytes (byte_of 50 :: x)
| value_decimal (x a : list byte) : decimal_bytes x a -> value_bytes (byte_of 20 :: x)
| value_bool (b : Z) : 0 <= b <= 1 -> value_bytes [byte_of 10; byte_of b].

(** Entries with these keys, in order *)
Inductive entries_bytes : list (list byte) -> list byte -> Prop :=
| entries_nil : entries_bytes [] []
| entries_cons (key : list byte) (keys : list (list byte)) (k v rest : list byte) :
    text_bytes 64 k key -> value_bytes v -> entries_bytes keys rest ->
    entries_bytes (key :: keys) (k ++ v ++ rest).

(** ** Lemmas *)

(** *** Distributions that samples have *)

(** [k] samples within [lo, hi] with any sum between the extremes *)
Lemma samples_between k lo hi total :
  lo <= hi -> Z.of_nat k * lo <= total <= Z.of_nat k * hi ->
  exists l, length l = k /\ Forall (fun x => lo <= x <= hi) l /\ sample_sum l = total.
Proof.
  intros Hle. revert total. induction k as [|k IH]; intros total Ht.
  - exists []. split_and!; [done|constructor|unfold sample_sum; simpl; lia].
  - set (x := Z.max lo (total - Z.of_nat k * hi)).
    destruct (IH (total - x)) as (l & Hl & HF & Hs); [unfold x; nia|].
    exists (x :: l). split_and!; [simpl; lia|apply Forall_cons; split; [unfold x; nia|done]|].
    unfold sample_sum in *. simpl. lia.
Qed.

Lemma sample_bounds x l lo hi :
  Forall (fun y => lo <= y <= hi) (x :: l) -> lo <= sample_min x l /\ sample_max x l <= hi.
Proof.
  intros [Hx Hl]%Forall_cons. unfold sample_min, sample_max. induction Hl; simpl; lia.
Qed.

Lemma sample_extremes x l :
  sample_min x l ∈ x :: l /\ sample_max x l ∈ x :: l.
Proof.
  unfold sample_min, sample_max. induction l as [|y l [IH1 IH2]]; simpl; [set_solver|].
  rewrite !elem_of_cons in *. split; [destruct (Z.min_dec y (foldr Z.min x l)) as [-> | ->]|
    destruct (Z.max_dec y (foldr Z.max x l)) as [-> | ->]]; tauto.
Qed.

Lemma sample_sum_bounds l lo hi :
  Forall (fun y => lo <= y <= hi) l ->
  Z.of_nat (length l) * lo <= sample_sum l <= Z.of_nat (length l) * hi.
Proof. unfold sample_sum. induction 1; cbn [length foldr]; [lia|]. nia. Qed.

Lemma sample_sum_perm l l' : l ≡ₚ l' -> sample_sum l = sample_sum l'.
Proof. unfold sample_sum. induction 1; simpl; lia. Qed.

Definition realizable (d : Distribution) : Prop :=
  exists samples, samples <> [] /\ Z.of_nat (length samples) <= 1000000000 /\
    Forall (fun x => 1 <= x) samples /\ sample_sum samples <= maxSafe /\ d = of_samples samples.

Lemma bad_distribution_false d :
  bad_distribution d = false <->
  1 <= Count d <= 1000000000 /\ 1 <= SumMicros d <= maxSafe /\ 1 <= MinMicros d <= maxSafe /\
  MinMicros d <= MaxMicros d <= maxSafe.
Proof.
  unfold bad_distribution. rewrite !orb_false_iff, !Z.ltb_ge. lia.
Qed.

Lemma accepted_realizable d :
  bad_distribution d = false -> impossible_distribution d = false -> realizable d.
Proof.
  intros (Hc & Hs & Hm & HM)%bad_distribution_false Hi. unfold impossible_distribution in Hi.
  destruct d as [n s m M]. cbn [Count SumMicros MinMicros MaxMicros] in *.
  assert (Hs64 : u64 s = s) by (apply uint_small; unfold maxSafe in *; lia).
  destruct (Z.eqb_spec n 1) as [->|Hn].
  - apply orb_false_iff in Hi as [E1 E2]. bool_to_Z. subst m M. exists [s].
    split_and!; [done|done|apply Forall_singleton; lia|unfold sample_sum; simpl; lia|].
    unfold of_samples, sample_sum. simpl. by rewrite Z.add_0_r, Hs64.
  - apply orb_false_iff in Hi as [E1 E2]. bool_to_Z. rewrite uint_small in E1, E2 by lia.
    destruct (samples_between (Z.to_nat (n - 2)) m M (s - m - M)) as (l & Hl & HF & Hsum); [lia|nia|].
    assert (HF' : Forall (fun y => m <= y <= M) (m :: M :: l)) by (repeat (apply Forall_cons; split); [lia|lia|done]).
    assert (Esum : sample_sum (m :: M :: l) = s) by (unfold sample_sum in *; cbn [foldr]; lia).
    exists (m :: M :: l). split_and!.
    + done.
    + cbn [length]. lia.
    + eapply Forall_impl; [exact HF'|]. simpl. lia.
    + lia.
    + unfold of_samples. rewrite Esum, Hs64. destruct (sample_bounds _ _ _ _ HF') as [B1 B2].
      destruct (sample_min_le m (M :: l)) as [B3 _].
      destruct (sample_max_ge m (M :: l)) as [_ [B4 _]%Forall_cons].
      f_equal; [cbn [length]; lia|lia|lia].
Qed.

Lemma realizable_accepted d :
  realizable d -> bad_distribution d = false /\ impossible_distribution d = false.
Proof.
  intros ([|x l] & Hne & Hlen & Hpos & Hsum & ->); [done|]. destruct (sample_extremes x l) as [Emin Emax].
  assert (Hb : Forall (fun y => sample_min x l <= y <= sample_max x l) (x :: l)).
  { destruct (sample_min_le x l) as [A1 A2], (sample_max_ge x l) as [B1 B2].
    apply Forall_cons. split; [lia|]. rewrite Forall_forall in *. intros y Hy. specialize (A2 y Hy). specialize (B2 y Hy). lia. }
  pose proof (sample_sum_bounds _ _ _ Hb) as Sb.
  assert (Hmin : 1 <= sample_min x l) by (rewrite Forall_forall in Hpos; by apply Hpos).
  destruct (proj1 (elem_of_Permutation _ _) Emax) as [rest1 P1], (proj1 (elem_of_Permutation _ _) Emin) as [rest2 P2].
  assert (F1 := Hb). rewrite P1 in F1. apply Forall_cons in F1 as [_ F1].
  assert (F2 := Hb). rewrite P2 in F2. apply Forall_cons in F2 as [_ F2].
  pose proof (sample_sum_bounds _ _ _ F1) as S1. pose proof (sample_sum_bounds _ _ _ F2) as S2.
  apply Permutation_length in P1 as L1, P2 as L2. apply sample_sum_perm in P1, P2.
  unfold sample_sum in P1, P2, S1, S2, Sb, Hsum. cbn [foldr length] in *.
  fold (sample_sum (x :: l)) in *. set (m := sample_min x l) in *. set (M := sample_max x l) in *.
  unfold of_samples. assert (Es : sample_sum (x :: l) = x + foldr Z.add 0 l) by done.
  assert (E64 : u64 (sample_sum (x :: l)) = sample_sum (x :: l)) by (apply uint_small; unfold maxSafe in *; nia).
  rewrite E64. fold m M. split.
  - apply bad_distribution_false. cbn [Count SumMicros MinMicros MaxMicros length]. nia.
  - unfold impossible_distribution. cbn [Count SumMicros MinMicros MaxMicros length].
    destruct (Z.eqb_spec (Z.of_nat (S (length l))) 1) as [E1|E1].
    + destruct l; [|simpl in E1; lia]. unfold m, M, sample_sum. simpl. rewrite Z.add_0_r, !Z.eqb_refl. done.
    + rewrite uint_small by lia. apply orb_false_iff. rewrite !Z.ltb_ge.
      replace (Z.of_nat (S (length l)) - 1) with (Z.of_nat (length rest1)) by lia.
      replace (length rest1) with (length rest2) in * by lia. lia.
Qed.

(** *** The MapValue grammar *)

Lemma take_bytes_Some n b a r : take_bytes n b = Some (a, r) <-> b = a ++ r /\ length a = n.
Proof.
  unfold take_bytes. destruct (Nat.ltb_spec (length b) n) as [H|H].
  - split; [done|]. intros [-> <-]. rewrite length_app in H. lia.
  - split.
    + intros [= <- <-]. by rewrite take_drop, length_take, Nat.min_l.
    + intros [-> <-]. by rewrite take_app_length, drop_app_length.
Qed.

Lemma byte_val_small n : 0 <= n < 256 -> byte_val (byte_of n) = n.
Proof. intros. by rewrite byte_val_of, Z.mod_small. Qed.

Lemma read_decimal_Some b v r :
  read_decimal b = Some (v, r) <-> exists x a, decimal_bytes x a /\ b = x ++ r /\ v = decimal_value a.
Proof.
  unfold read_decimal. split.
  - destruct b as [|y b]; [done|]. cbn [take_byte mbind option_bind].
    pose proof (byte_val_range y). set (n := byte_val y) in *.
    destruct ((8 <? n) || (n =? 6) || (n =? 7)) eqn:E; [done|]. rewrite !orb_false_iff in E.
    destruct E as [[E1 E2] E3]. bool_to_Z.
    destruct (take_bytes (Z.to_nat n) b) as [[a r']|] eqn:Et; [|done]. cbn [mbind option_bind].
    intros [= <- <-]. apply take_bytes_Some in Et as [-> Ha]. exists (y :: a), a. split_and!; [|done|done].
    rewrite <- (byte_of_val y). apply decimal_bytes_intro; [fold n; lia|done].
  - intros (x & a & Hd & -> & ->). destruct Hd as [n a Hn Ha]. cbn [app take_byte mbind option_bind].
    rewrite byte_val_small by lia.
    replace ((8 <? n) || (n =? 6) || (n =? 7)) with false.
    2: { symmetry. rewrite !orb_false_iff, Z.ltb_ge, !Z.eqb_neq. lia. }
    rewrite (proj2 (take_bytes_Some (Z.to_nat n) (a ++ r) a r)) by done. done.
Qed.

Lemma i32_be_bytes a : length a = 4%nat -> 0 <= i32 (be_uint a) -> be_uint a = i32 (be_uint a) /\ i32 (be_uint a) < 2 ^ 31.
Proof.
  intros Ha Hi. pose proof (be_uint_range a) as R. rewrite Ha in R. change (256 ^ Z.of_nat 4) with (2 ^ 32) in R.
  pose proof (sint_range 32 (be_uint a) ltac:(lia)). split; [|lia]. unfold sint in *.
  rewrite Z.mod_small in * by done. destruct (_ <? _); lia.
Qed.

Lemma read_bounded_Some limit n b s r :
  read_bounded limit n b = Some (s, r) <->
    n = Z.of_nat (length s) /\ n <= limit /\ utf8_Valid s = true /\ b = s ++ r.
Proof.
  unfold read_bounded. split.
  - destruct ((n <? 0) || (limit <? n)) eqn:E; [done|]. rewrite orb_false_iff in E.
    destruct E as [E1 E2]. bool_to_Z. destruct (take_bytes _ b) as [[a b']|] eqn:Et; [|done].
    cbn [mbind option_bind]. destruct (utf8_Valid a) eqn:Ev; [|done]. intros [= -> ->].
    apply take_bytes_Some in Et as [-> Ha]. split_and!; [lia|lia|done|done].
  - intros (-> & Hn & Hv & ->).
    rewrite (proj2 (Z.ltb_ge _ 0)), (proj2 (Z.ltb_ge _ _)) by lia. cbn [orb].
    rewrite (proj2 (take_bytes_Some _ (s ++ r) s r)) by (split; [done|lia]).
    cbn [mbind option_bind]. by rewrite Hv.
Qed.

Lemma read_text_sound limit b s r :
  read_text limit b = Some (s, r) -> exists x, text_bytes limit x s /\ b = x ++ r.
Proof.
  unfold read_text. destruct b as [|y b]; [done|]. cbn [take_byte mbind option_bind].
  pose proof (byte_val_range y) as Hy. pose proof (byte_of_val y) as Ey.
  destruct (Z.eqb_spec (byte_val y) 255) as [E|N255]; [|destruct (Z.eqb_spec (byte_val y) 254) as [E|N254]].
  - destruct (take_bytes 2 b) as [[a b']|] eqn:Et; [|done]. cbn [mbind option_bind].
    intros (Hn & Hl & Hv & ->)%read_bounded_Some. apply take_bytes_Some in Et as [-> Ha].
    pose proof (be_uint_range a) as R. rewrite Ha in R. change (256 ^ Z.of_nat 2) with (2 ^ 16) in R.
    exists (byte_of 255 :: be_bytes 2 (Z.of_nat (length s)) ++ s). split; [constructor; [lia|lia|done]|].
    rewrite <- Ey, E, <- Hn, <- Ha, be_bytes_uint. cbn [app]. by rewrite <- app_assoc.
  - destruct (take_bytes 4 b) as [[a b']|] eqn:Et; [|done]. cbn [mbind option_bind].
    intros (Hn & Hl & Hv & ->)%read_bounded_Some. apply take_bytes_Some in Et as [-> Ha].
    destruct (i32_be_bytes a Ha ltac:(lia)) as [R1 R2].
    exists (byte_of 254 :: be_bytes 4 (Z.of_nat (length s)) ++ s). split; [constructor; [lia|lia|done]|].
    rewrite <- Ey, E, <- Hn, <- R1, <- Ha, be_bytes_uint. cbn [app]. by rewrite <- app_assoc.
  - cbn [mbind option_bind]. intros (Hn & Hl & Hv & ->)%read_bounded_Some. exists (y :: s).
    split; [|done]. rewrite <- Ey, Hn. constructor; [lia|lia|done].
Qed.

Lemma read_text_complete limit x s r : text_bytes limit x s -> read_text limit (x ++ r) = Some (s, r).
Proof.
  unfold read_text. destruct 1 as [s Hs Hl Hv|s Hs Hl Hv|s Hs Hl Hv]; cbn [app take_byte mbind option_bind].
  - rewrite byte_val_small by lia.
    rewrite (proj2 (Z.eqb_neq _ 255)), (proj2 (Z.eqb_neq _ 254)) by lia. by apply read_bounded_Some.
  - rewrite byte_val_small by lia. simpl Z.eqb. cbv iota. rewrite <- app_assoc.
    rewrite (proj2 (take_bytes_Some _ _ _ (s ++ r))) by (split; [done|apply length_be_bytes]).
    cbn [mbind option_bind]. rewrite be_uint_bytes, Z.mod_small by (change (256 ^ Z.of_nat 2) with (2 ^ 16); lia).
    by apply read_bounded_Some.
  - rewrite byte_val_small by lia. simpl Z.eqb. cbv iota. rewrite <- app_assoc.
    rewrite (proj2 (take_bytes_Some _ _ _ (s ++ r))) by (split; [done|apply length_be_bytes]).
    cbn [mbind option_bind]. rewrite be_uint_bytes, Z.mod_small by (change (256 ^ Z.of_nat 4) with (2 ^ 32); lia).
    rewrite sint_small by lia. by apply read_bounded_Some.
Qed.

Lemma read_value_Some b r : read_value b = Some r <-> exists x, value_bytes x /\ b = x ++ r.
Proof.
  unfold read_value. split.
  - destruct b as [|y b]; [done|]. cbn [take_byte mbind option_bind]. pose proof (byte_of_val y) as Ey.
    destruct (Z.eqb_spec (byte_val y) 50) as [E|N1]; [|destruct (Z.eqb_spec (byte_val y) 20) as [E|N2];
      [|destruct (Z.eqb_spec (byte_val y) 10) as [E|N3]; [|done]]].
    + destruct (read_text 512 b) as [[s r']|] eqn:Et; [|done]. cbn. intros [= <-].
      apply read_text_sound in Et as (x & Hx & ->). exists (byte_of 50 :: x). rewrite <- Ey, E.
      split; [by eapply value_text|done].
    + destruct (read_decimal b) as [[v r']|] eqn:Et; [|done]. cbn. intros [= <-].
      apply read_decimal_Some in Et as (x & a & Hx & -> & _). exists (byte_of 20 :: x). rewrite <- Ey, E.
      split; [by eapply value_decimal|done].
    + destruct b as [|z b]; [done|]. cbn [take_byte mbind option_bind]. pose proof (byte_val_range z).
      destruct (Z.ltb_spec 1 (byte_val z)); [done|]. intros [= <-]. exists [byte_of 10; byte_of (byte_val z)].
      split; [constructor; lia|]. by rewrite byte_of_val, <- Ey, E.
  - intros (x & Hv & ->). destruct Hv as [x s Ht|x a Hd|c Hc]; cbn [app take_byte mbind option_bind];
      rewrite byte_val_small by lia; simpl Z.eqb; cbv iota.
    + by rewrite (read_text_complete _ _ _ r Ht).
    + by rewrite (proj2 (read_decimal_Some (x ++ r) (decimal_value a) r)) by eauto.
    + rewrite byte_val_small by lia. by rewrite (proj2 (Z.ltb_ge _ _)) by lia.
Qed.

Lemma read_entries_Some count seen b r :
  read_entries count seen b = Some r <->
  exists keys x, length keys = count /\ entries_bytes keys x /\ NoDup keys /\
    (forall k, k ∈ keys -> k ∉ seen) /\ b = x ++ r.
Proof.
  revert seen b. induction count as [|count IH]; intros seen b; cbn [read_entries].
  - split.
    + intros [= ->]. exists [], []. split_and!; [done|constructor|constructor|set_solver|done].
    + intros ([|] & x & Hl & He & _ & _ & ->); [|done]. by inversion He.
  - split.
    + destruct (read_text 64 b) as [[key b1]|] eqn:Et; [|done]. cbn [mbind option_bind].
      case_bool_decide as Hk; [done|]. destruct (read_value b1) as [b2|] eqn:Ev; [|done].
      cbn [mbind option_bind]. intros (keys & x & Hl & He & Hn & Hd & ->)%IH.
      apply read_text_sound in Et as (xk & Hxk & ->). apply read_value_Some in Ev as (xv & Hxv & ->).
      exists (key :: keys), (xk ++ xv ++ x). split_and!; [simpl; lia|by constructor| | |by rewrite <- !app_assoc].
      * constructor; [|done]. intros Hin. apply (Hd _ Hin). set_solver.
      * intros k [-> | Hin]%elem_of_cons; [done|]. apply Hd in Hin. set_solver.
    + intros (keys & x & Hl & He & Hn & Hd & ->). destruct He as [|key keys xk xv x Hk Hv He]; [done|].
      rewrite <- !app_assoc, (read_text_complete _ _ _ _ Hk). cbn [mbind option_bind].
      apply NoDup_cons in Hn as [Hn1 Hn2]. rewrite bool_decide_false by (apply Hd; set_solver).
      rewrite (proj2 (read_value_Some (xv ++ x ++ r) (x ++ r))) by eauto. cbn [mbind option_bind].
      apply IH. exists keys, x. split_and!; [simpl in Hl; lia|done|done| |done].
      intros k Hin [-> | Hin']%elem_of_cons; [done|]. apply (Hd k); set_solver.
Qed.

(** ** Theorems *)

Definition with_RTT (w : Window) (d : Distribution) : Window :=
  mkWindow (wi_SourcePod w) (wi_DestinationPod w) (wi_ObserverPod w) (wi_SchemaVersion w) (wi_Partial w)
    (wi_WindowStart w) (wi_WindowEnd w) (wi_LastObservedAt w) (wi_Flow w) (wi_SourceResolved w)
    (wi_DestinationResolved w) (wi_Process w) (wi_BytesTx w) (wi_ObservationCount w)
    (wi_BytesRx w) (wi_PacketsTx w) (wi_PacketsRx w) (wi_Retransmissions w) (wi_Losses w) d (wi_Jitter w).

(** What a request says depends on what its snapshot holds. *)
Lemma snapshot_determines digest w w' :
  snapshot_window w' = snapshot_window w -> RequestForWindow digest w' = RequestForWindow digest w.
Proof.
  intros Hs. assert (Hp : without_cmdline <$> wi_Process w' = without_cmdline <$> wi_Process w)
    by (by apply (f_equal wi_Process) in Hs).
  assert (Hb : bad_process (wi_Process w') = bad_process (wi_Process w)).
  { destruct (wi_Process w') as [[]|], (wi_Process w) as [[]|]; simplify_eq/=; done. }
  assert (Hf : request_fields w' = request_fields w).
  { destruct w, w'. unfold snapshot_window in Hs. simpl in *. injection Hs as -> -> -> -> -> -> -> -> -> -> -> _ -> -> -> -> -> -> -> -> ->.
    unfold request_fields. simpl. destruct wi_Process as [[]|], wi_Process0 as [[]|]; simplify_eq/=; done. }
  unfold RequestForWindow, validateWindow. rewrite Hf, Hb, Hs.
  destruct w, w'. unfold snapshot_window in Hs. simpl in *.
  by injection Hs as -> -> -> -> -> -> -> -> -> -> -> _ -> -> -> -> -> -> -> -> ->.
Qed.

(** C18. A window is accepted exactly when it would be with a single sample
    of one microsecond and its distribution is that of some nonempty list of
    positive samples within the bounds of count and sum: the big-integer test
    refuses every count, sum, minimum and maximum that no samples have, and
    no other. *)
Theorem validateWindow_exact w :
  validateWindow w = None <->
  validateWindow (with_RTT w (of_samples [1])) = None /\ realizable (wi_RTT w).
Proof.
  assert (S1 : bad_distribution (of_samples [1]) = false /\ impossible_distribution (of_samples [1]) = false)
    by (split; reflexivity).
  unfold validateWindow. cbn [wi_Flow wi_Process wi_SourceResolved wi_DestinationResolved wi_RTT with_RTT].
  change (bad_times (with_RTT w (of_samples [1]))) with (bad_times w). destruct S1 as [-> ->].
  repeat match goal with |- context [if ?c then Some _ else _] =>
    lazymatch c with
    | bad_distribution _ => fail
    | impossible_distribution _ => fail
    | _ => destruct c; [naive_solver|]
    end end.
  split.
  - destruct (bad_distribution (wi_RTT w)) eqn:E1; [done|].
    destruct (impossible_distribution (wi_RTT w)) eqn:E2; [done|]. intros _. split; [done|].
    by apply accepted_realizable.
  - intros [_ H]. apply realizable_accepted in H as [-> ->]. done.
Qed.

(** A request carries the measured distribution unchanged and a window
    of at most a minute, and it is the same for every window that differs
    only in the command line, which is never digested or sent. *)
Theorem request_exact digest w fields :
  RequestForWindow digest w = Ok fields ->
  (("srtt_count", FLong (Count (wi_RTT w))) ∈ fields /\ ("srtt_sum_us", FLong (SumMicros (wi_RTT w))) ∈ fields /\
   ("srtt_min_us", FLong (MinMicros (wi_RTT w))) ∈ fields /\ ("srtt_max_us", FLong (MaxMicros (wi_RTT w))) ∈ fields) /\
  (exists s e, ("window_start_ms", FLong s) ∈ fields /\ ("window_end_ms", FLong e) ∈ fields /\
    0 < s < e /\ e <= maxSafe /\ e - s <= 60000) /\
  (forall w', snapshot_window w' = snapshot_window w -> RequestForWindow digest w' = Ok fields).
Proof.
  intros H. pose proof H as H'. unfold RequestForWindow in H.
  destruct (negb _); [done|]. destruct (wi_Partial w); [done|]. destruct (_ =? 0); [done|].
  destruct (validateWindow w) eqn:Ev; [done|]. injection H as <-.
  assert (Eb : bad_distribution (wi_RTT w) = false /\ bad_times w = false).
  { unfold validateWindow in Ev. destruct (bad_times w); [done|]. split; [|done].
    destruct (bad_distribution (wi_RTT w)); [|done]. exfalso.
    repeat match type of Ev with context [if ?c then Some _ else _] => destruct c; [done|] end. done. }
  destruct Eb as [Hd%bad_distribution_false Ht]. split; [|split].
  - assert (Hi : forall z, 1 <= z <= maxSafe -> i64 z = z) by (intros z Hz; apply sint_small; unfold maxSafe in Hz; lia).
    assert (Hc : i64 (Count (wi_RTT w)) = Count (wi_RTT w)) by (apply sint_small; lia).
    unfold request_fields. rewrite Hc, !Hi by lia. set_solver.
  - exists (time_UnixMilli (wi_WindowStart w)), (time_UnixMilli (wi_WindowEnd w)).
    split; [unfold request_fields; set_solver|]. split; [unfold request_fields; set_solver|].
    unfold bad_times in Ht. rewrite !orb_false_iff, !Z.ltb_ge, !Z.leb_gt in Ht.
    destruct Ht as [[[[_ H1] H2] H3] H4]. split; [lia|]. split; [lia|].
    rewrite sint_small in H4 by (unfold maxSafe in *; lia). lia.
  - intros w' Hs. rewrite <- H'. by apply snapshot_determines.
Qed.

(** C39. preflightMap accepts exactly the MapValues of at most 65536 bytes
    with at most 32 entries under distinct keys, each a bounded text, a
    decimal of a supported width or a boolean, and nothing after them. *)
Theorem preflightMap_exact b :
  preflightMap b = true <->
  exists count digits keys body,
    b = byte_of 80 :: count ++ body /\ Z.of_nat (length b) <= 65536 /\
    decimal_bytes count digits /\ decimal_value digits = Z.of_nat (length keys) /\
    (length keys <= 32)%nat /\ NoDup keys /\ entries_bytes keys body.
Proof.
  unfold preflightMap. split.
  - destruct (_ || _) eqn:E; [done|]. rewrite !orb_false_iff, !Nat.ltb_ge in E.
    destruct E as [[E1 E2] E3%negb_false_iff%bool_decide_eq_true]. destruct b as [|y b]; [done|].
    injection E3 as ->. change (drop 1 (byte_of 80 :: b)) with b.
    destruct (read_decimal b) as [[count rest]|] eqn:Ed; [|done].
    destruct ((count <? 0) || (32 <? count)) eqn:Ec; [done|]. rewrite orb_false_iff in Ec.
    destruct Ec as [Ec1 Ec2]. bool_to_Z. destruct (read_entries _ [] rest) as [rest'|] eqn:Ee; [|done].
    intros Hr%Nat.eqb_eq. destruct rest'; [|done].
    apply read_decimal_Some in Ed as (x & a & Hx & -> & ->).
    apply read_entries_Some in Ee as (keys & body & Hl & He & Hn & _ & ->).
    exists x, a, keys, body. rewrite app_nil_r in *. split_and!; [done|lia|done|lia|lia|done|done].
  - intros (count & digits & keys & body & -> & Hlen & Hd & Hv & Hk & Hn & He).
    destruct (_ || _) eqn:E.
    { exfalso. rewrite !orb_true_iff, !Nat.ltb_lt in E. destruct E as [[E|E]|E]; [|lia|done].
      destruct Hd. simpl in E. lia. }
    change (drop 1 (byte_of 80 :: count ++ body)) with (count ++ body).
    rewrite (proj2 (read_decimal_Some (count ++ body) (decimal_value digits) body)) by eauto.
    rewrite Hv, (proj2 (Z.ltb_ge _ 0)), (proj2 (Z.ltb_ge 32 _)) by lia. cbn [orb]. rewrite Nat2Z.id.
    rewrite (proj2 (read_entries_Some (length keys) [] body [])); [done|].
    exists keys, body. split_and!; [done|done|done|set_solver|by rewrite app_nil_r].
Qed.

Definition example_window : Window :=
  mkWindow None None None SchemaVersion false (unix_epoch + 1000 * Second) (unix_epoch + 1005 * Second)
    (unix_epoch + 1004 * Second)
    (mkFlowKey "node-a" "tcp" "egress" (mkEndpoint "10.0.0.2" 40000) (mkEndpoint "10.96.0.1" 80))
    None (Some (mkResolvedEndpoint "10.0.0.9" 8080 "conntrack"))
    (Some (mkProcess 42 7 "curl" "curl --secret" "" "procfs")) 0 3 0 0 0 0 0
    (of_samples [30; 10; 20]) zeroDistribution.

Lemma request_exact_witness :
  exists fields, RequestForWindow (fun _ => "digest") example_window = Ok fields /\
    ("srtt_sum_us", FLong 60) ∈ fields.
Proof.
  destruct (RequestForWindow (fun _ => "digest") example_window) as [fields|] eqn:E.
  - exists fields. split; [reflexivity|].
    destruct (request_exact _ _ _ E) as ((_ & H & _ & _) & _ & _). exact H.
  - vm_compute in E. congruence.
Defined.
