(* ===== verification/Conntrack.v ===== *)
(** * internal/conntrack: the resolver of translated destinations

    buildTable and Resolver of conntrack.go. The kernel's table is what a
    dump returns: the clock and the dumps are a world the resolver queries,
    and the dumps made so far are recorded for the theorems. *)

From S2P Require Import Prelude Flow.

#[local] Open Scope Z_scope.

(** ** Definitions *)

Record Tuple := mkTuple {
  tu_Protocol : Z;
  tu_Source : Endpoint;
  tu_Destination : Endpoint
}.

Record Entry := mkEntry {
  en_Original : Tuple;
  en_Reply : Tuple
}.

#[export] Instance Tuple_eq_dec : EqDecision Tuple.
Proof. solve_decision. Defined.

#[export] Instance Entry_eq_dec : EqDecision Entry.
Proof. solve_decision. Defined.

Record lookupKey := mkLookupKey {
  lk_protocol : Z;
  lk_sourceAddress : string;
  lk_sourcePort : Z;
  lk_destinationAddress : string;
  lk_destinationPort : Z
}.

#[export] Instance lookupKey_eq_dec : EqDecision lookupKey.
Proof. solve_decision. Defined.

#[export] Instance lookupKey_countable : Countable lookupKey.
Proof.
  refine (inj_countable' (fun k => (lk_protocol k, lk_sourceAddress k, lk_sourcePort k,
                                    lk_destinationAddress k, lk_destinationPort k))
    (fun '(a, b, c, d, e) => mkLookupKey a b c d e) _).
  by intros [].
Defined.

Definition key_of (protocol : Z) (source destination : Endpoint) : lookupKey :=
  mkLookupKey protocol (ep_Address source) (ep_Port source) (ep_Address destination)
    (ep_Port destination).

Definition entry_key (e : Entry) : lookupKey :=
  key_of (tu_Protocol (en_Original e)) (tu_Source (en_Original e)) (tu_Destination (en_Original e)).

(** The three maps of buildTable *)
Record tables := mkTables {
  tb_table : gmap lookupKey Endpoint;
  tb_seen : gmap lookupKey Tuple;
  tb_ambiguous : gset lookupKey
}.

(** One iteration of buildTable's loop *)
Definition table_step (t : tables) (entry : Entry) : tables :=
  let key := entry_key entry in
  let conflict := match tb_seen t !! key with
                  | Some previous => negb (bool_decide (previous = en_Reply entry))
                  | None => false
                  end in
  let ambiguous := if conflict then {[key]} ∪ tb_ambiguous t else tb_ambiguous t in
  let table := if conflict then delete key (tb_table t) else tb_table t in
  let seen := <[key := en_Reply entry]> (tb_seen t) in
  if bool_decide (key ∈ ambiguous) ||
     bool_decide (tu_Source (en_Reply entry) = tu_Destination (en_Original entry))
  then mkTables table seen ambiguous
  else mkTables (<[key := tu_Source (en_Reply entry)]> table) seen ambiguous.

Definition buildTable (entries : list Entry) : gmap lookupKey Endpoint :=
  tb_table (foldl table_step (mkTables ∅ ∅ ∅) entries).

Definition Via : string := "conntrack".
Definition protocolNumberTCP : Z := 6.
Definition protocolNumberUDP : Z := 17.

Definition protocolNumber (protocol : string) : option Z :=
  if bool_decide (protocol = "tcp") then Some protocolNumberTCP
  else if bool_decide (protocol = "udp") then Some protocolNumberUDP
  else None.

Definition minMissRefresh : Duration := 20 * Millisecond.
Definition maxMissRefresh : Duration := 25 * Millisecond.

(** Resolver: a nil table has no entries. *)
Record Resolver := mkResolver {
  rs_ttl : Duration;
  rs_missRefresh : Duration;
  rs_refreshAt : Time;
  rs_dumpedAt : Time;
  rs_table : gmap lookupKey Endpoint
}.

Definition newResolver (ttl : Duration) : Resolver :=
  let ttl := if ttl <=? 0 then Second else ttl in
  let missRefresh := Z.quot ttl 10 in
  let missRefresh := if missRefresh <? minMissRefresh then minMissRefresh else missRefresh in
  let missRefresh := if maxMissRefresh <? missRefresh then maxMissRefresh else missRefresh in
  mkResolver ttl missRefresh 0 0 ∅.

(** The clock, and dumpFunc: the entries, or [None] for an error *)
Class World (W : Type) := {
  world_now : W -> W * Time;
  world_dump : W -> W * option (list Entry)
}.

(** What is relied on: the clock is past the zero time. *)
Class WorldLaws (W : Type) `{World W} : Prop := {
  now_positive w : 0 < (world_now w).2
}.

(** A dump: the time read before it, and its result *)
Definition dump_event : Type := Time * option (list Entry).

Record State (W : Type) := mkState {
  st_world : W;
  st_resolver : Resolver;
  st_dumps : list dump_event
}.

Arguments mkState {W}.
Arguments st_world {W}.
Arguments st_resolver {W}.
Arguments st_dumps {W}.

Section resolver.
Context {W : Type} {World_W : World W}.
Implicit Types (st : State W).

Definition now st : State W * Time :=
  let '(w, t) := world_now (st_world st) in (mkState w (st_resolver st) (st_dumps st), t).

(** The tail of both refreshes: dump at [t], then keep the table or drop it *)
Definition dump_at st (t : Time) : State W * bool :=
  let r := st_resolver st in
  let '(w, entries) := world_dump (st_world st) in
  let dumps := st_dumps st ++ [(t, entries)] in
  match entries with
  | None =>
      (mkState w (mkResolver (rs_ttl r) (rs_missRefresh r) (time_Add t (rs_ttl r * 10)) 0 ∅) dumps, false)
  | Some entries =>
      (mkState w (mkResolver (rs_ttl r) (rs_missRefresh r) (time_Add t (rs_ttl r)) t
                    (buildTable entries)) dumps, true)
  end.

Definition refreshLocked st : State W :=
  let '(st, t) := now st in
  let r := st_resolver st in
  if negb (time_IsZero (rs_refreshAt r)) && time_Before t (rs_refreshAt r) then st
  else (dump_at st t).1.

Definition refreshOnMissLocked st : State W * bool :=
  let '(st, t) := now st in
  let r := st_resolver st in
  if time_IsZero (rs_dumpedAt r) || (time_Sub t (rs_dumpedAt r) <? rs_missRefresh r) then (st, false)
  else if negb (time_IsZero (rs_refreshAt r)) && time_Before t (rs_refreshAt r) &&
          (rs_ttl r <? time_Sub (rs_refreshAt r) t)
  then (st, false)
  else dump_at st t.

(** ResolveAfter; [None] when its ok is false *)
Definition ResolveAfter st (protocol : string) (source destination : Endpoint) (observedAt : Time) :
    State W * option (Endpoint * string) :=
  match protocolNumber protocol with
  | None => (st, None)
  | Some number =>
      let st := refreshLocked st in
      let key := key_of number source destination in
      let stale st := time_Before (rs_dumpedAt (st_resolver st)) observedAt in
      let resolved := rs_table (st_resolver st) !! key in
      let '(st, resolved) :=
        if negb (bool_decide (is_Some resolved)) || stale st then
          let '(st, loaded) := refreshOnMissLocked st in
          (st, if loaded then rs_table (st_resolver st) !! key else resolved)
        else (st, resolved) in
      match resolved with
      | None => (st, None)
      | Some endpoint => if stale st then (st, None) else (st, Some (endpoint, Via))
      end
  end.

Definition Resolve st (protocol : string) (source destination : Endpoint) :
    State W * option (Endpoint * string) :=
  ResolveAfter st protocol source destination 0.

(** A sequence of lookups *)
Fixpoint resolve_all st (queries : list (string * Endpoint * Endpoint * Time)) : State W :=
  match queries with
  | [] => st
  | (protocol, source, destination, observedAt) :: queries' =>
      resolve_all (ResolveAfter st protocol source destination observedAt).1 queries'
  end.

(** *** Specification *)

(** The dump proves that flows with this key reach [endpoint]: every entry of
    the key has the same reply, whose source is not where the flow was sent. *)
Definition translated (entries : list Entry) (key : lookupKey) (endpoint : Endpoint) : Prop :=
  exists e, e ∈ entries /\ entry_key e = key /\
    (forall e', e' ∈ entries -> entry_key e' = key -> en_Reply e' = en_Reply e) /\
    tu_Source (en_Reply e) <> tu_Destination (en_Original e) /\
    endpoint = tu_Source (en_Reply e).

(** The resolver's table is the last dump's. *)
Definition resolver_inv st : Prop :=
  let r := st_resolver st in
  match last (st_dumps st) with
  | Some (t, Some entries) => rs_table r = buildTable entries /\ rs_dumpedAt r = t /\ 0 < t
  | _ => rs_table r = ∅ /\ rs_dumpedAt r = 0
  end.

(** ** Lemmas *)

(** The destination of an entry's original tuple is in its key. *)
Lemma entry_key_destination e e' :
  entry_key e = entry_key e' -> tu_Destination (en_Original e) = tu_Destination (en_Original e').
Proof.
  unfold entry_key, key_of. destruct e as [[p [] []] ?], e' as [[p' [] []] ?]. simpl.
  intros [=]. by subst.
Qed.

Definition ambiguous_in (entries : list Entry) (k : lookupKey) : Prop :=
  exists e e', e ∈ entries /\ e' ∈ entries /\ entry_key e = k /\ entry_key e' = k /\
    en_Reply e <> en_Reply e'.

Lemma translated_ambiguous entries k ep : ambiguous_in entries k -> ~ translated entries k ep.
Proof.
  intros (e & e' & He & He' & Hk & Hk' & Hne) (e0 & _ & _ & Hall & _). apply Hne.
  by rewrite (Hall e He Hk), (Hall e' He' Hk').
Qed.

Lemma elem_of_snoc {A} (x y : A) l : x ∈ l ++ [y] <-> x ∈ l \/ x = y.
Proof. rewrite elem_of_app, list_elem_of_singleton. done. Qed.

Lemma translated_snoc_other entries e k ep :
  entry_key e <> k -> translated (entries ++ [e]) k ep <-> translated entries k ep.
Proof.
  intros Hk. unfold translated. split.
  - intros (e0 & [He| ->]%elem_of_snoc & Hk0 & Hall & Hrest); [|done].
    exists e0. split_and!; try done. 2, 3: apply Hrest.
    intros e' He'. apply Hall, elem_of_snoc. by left.
  - intros (e0 & He & Hk0 & Hall & Hrest). exists e0. split_and!; try done. 3, 4: apply Hrest.
    + apply elem_of_snoc. by left.
    + intros e' [He'| ->]%elem_of_snoc; [by apply Hall|done].
Qed.

Lemma translated_snoc_same entries e ep :
  ~ ambiguous_in (entries ++ [e]) (entry_key e) ->
  translated (entries ++ [e]) (entry_key e) ep <->
    tu_Source (en_Reply e) <> tu_Destination (en_Original e) /\ ep = tu_Source (en_Reply e).
Proof.
  intros Hna. assert (Hin : e ∈ entries ++ [e]) by (apply elem_of_snoc; by right).
  split.
  - intros (e0 & He & Hk & Hall & Hne & ->). pose proof (Hall e Hin eq_refl) as Er.
    pose proof (entry_key_destination _ _ Hk) as Ed. by rewrite <- Er, <- Ed in *.
  - intros [Hne ->]. exists e. split_and!; try done. intros e' He' Hk.
    destruct (decide (en_Reply e' = en_Reply e)); [done|]. destruct Hna. by exists e', e.
Qed.

(** What the three maps are after a prefix of the entries: [seen] holds the
    reply of an entry of the key, the last one. *)
Record tables_inv (entries : list Entry) (t : tables) : Prop := {
  ti_seen k : tb_seen t !! k = None -> forall e, e ∈ entries -> entry_key e <> k;
  ti_reply k r : tb_seen t !! k = Some r -> exists e, e ∈ entries /\ entry_key e = k /\ en_Reply e = r;
  ti_ambiguous k : k ∈ tb_ambiguous t <-> ambiguous_in entries k;
  ti_table k ep : tb_table t !! k = Some ep <-> translated entries k ep
}.

Lemma ambiguous_snoc entries t e k :
  tables_inv entries t ->
  ambiguous_in (entries ++ [e]) k <->
    k ∈ tb_ambiguous t \/ (k = entry_key e /\ exists r, tb_seen t !! k = Some r /\ r <> en_Reply e).
Proof.
  intros I. split.
  - intros (e1 & e2 & [H1| ->]%elem_of_snoc & [H2| ->]%elem_of_snoc & K1 & K2 & Hne); try done.
    + left. apply (ti_ambiguous _ _ I). by exists e1, e2.
    + destruct (decide (k ∈ tb_ambiguous t)) as [|Ha]; [by left|right].
      split; [done|]. destruct (tb_seen t !! k) as [r|] eqn:E.
      * exists r. split; [done|]. intros ->. destruct (ti_reply _ _ I _ _ E) as (e3 & H3 & K3 & R3).
        apply Ha, (ti_ambiguous _ _ I). exists e1, e3. split_and!; try done. by rewrite R3.
      * by destruct (ti_seen _ _ I _ E e1 H1).
    + destruct (decide (k ∈ tb_ambiguous t)) as [|Ha]; [by left|right].
      split; [done|]. destruct (tb_seen t !! k) as [r|] eqn:E.
      * exists r. split; [done|]. intros ->. destruct (ti_reply _ _ I _ _ E) as (e3 & H3 & K3 & R3).
        apply Ha, (ti_ambiguous _ _ I). exists e2, e3. split_and!; try done. rewrite R3. congruence.
      * by destruct (ti_seen _ _ I _ E e2 H2).
  - intros [(e1 & e2 & H1 & H2 & Hrest)%(ti_ambiguous _ _ I)|(-> & r & E & Hr)].
    + exists e1, e2. rewrite !elem_of_snoc. auto.
    + destruct (ti_reply _ _ I _ _ E) as (e1 & H1 & K1 & <-). exists e1, e. rewrite !elem_of_snoc. auto.
Qed.

(** The entries seen, by the key of their direction *)
Lemma seen_step entries t e :
  tables_inv entries t ->
  (forall k, <[entry_key e := en_Reply e]> (tb_seen t) !! k = None -> forall e', e' ∈ entries ++ [e] -> entry_key e' <> k) /\
  (forall k r, <[entry_key e := en_Reply e]> (tb_seen t) !! k = Some r ->
     exists e', e' ∈ entries ++ [e] /\ entry_key e' = k /\ en_Reply e' = r).
Proof.
  intros I. split.
  - intros k Hk e'. rewrite lookup_insert in Hk. destruct (decide (entry_key e = k)) as [|Hne]; [done|].
    intros [He'| ->]%elem_of_snoc; [by apply (ti_seen _ _ I)|done].
  - intros k r. rewrite lookup_insert. destruct (decide (entry_key e = k)) as [<-|Hne].
    + intros [= <-]. exists e. rewrite elem_of_snoc. auto.
    + intros Hr. destruct (ti_reply _ _ I _ _ Hr) as (e' & ? & ?). exists e'. rewrite elem_of_snoc. tauto.
Qed.

Lemma tables_inv_step entries t e : tables_inv entries t -> tables_inv (entries ++ [e]) (table_step t e).
Proof.
  intros I. unfold table_step. set (k0 := entry_key e).
  set (conflict := match tb_seen t !! k0 with Some _ => _ | None => _ end).
  assert (Hc : conflict = true <-> exists r, tb_seen t !! k0 = Some r /\ r <> en_Reply e).
  { unfold conflict. destruct (tb_seen t !! k0) as [r|]; [|naive_solver].
    rewrite negb_true_iff, bool_decide_eq_false. naive_solver. }
  set (amb := if conflict then _ else _). set (tab := if conflict then _ else _).
  assert (Hamb : forall k, k ∈ amb <-> ambiguous_in (entries ++ [e]) k).
  { intros k. rewrite (ambiguous_snoc _ t) by done. fold k0. unfold amb.
    destruct conflict; [rewrite elem_of_union, elem_of_singleton|]; naive_solver. }
  assert (Htab : forall k, k <> k0 -> tab !! k = tb_table t !! k).
  { intros k Hk. unfold tab. destruct conflict; [|done]. by rewrite lookup_delete_ne. }
  assert (Hold : k0 ∉ amb -> forall ep, tab !! k0 = Some ep ->
    tu_Source (en_Reply e) <> tu_Destination (en_Original e)).
  { intros Hna ep Hep. assert (Hep' : tb_table t !! k0 = Some ep).
    { unfold tab in Hep. destruct conflict; [by rewrite lookup_delete_eq in Hep|done]. }
    apply (ti_table _ _ I) in Hep' as (e0 & H0 & K0 & _ & Hne & _).
    destruct (decide (en_Reply e0 = en_Reply e)) as [Er|Er].
    - by rewrite <- Er, <- (entry_key_destination _ _ K0).
    - destruct Hna. apply Hamb. exists e0, e. rewrite !elem_of_snoc. auto. }
  assert (Hgone : k0 ∈ amb -> tab !! k0 = None).
  { intros Ha. unfold tab. destruct conflict eqn:Ec; [by rewrite lookup_delete_eq|].
    destruct (tb_table t !! k0) as [ep|] eqn:E; [|done]. apply (ti_table _ _ I) in E.
    unfold amb in Ha. apply (ti_ambiguous _ _ I) in Ha. by destruct (translated_ambiguous _ _ _ Ha E). }
  destruct (seen_step entries t e I) as [Hseen Hreply]. fold k0 in Hseen, Hreply.
  assert (Hsame : k0 ∉ amb -> forall ep, translated (entries ++ [e]) k0 ep <->
    tu_Source (en_Reply e) <> tu_Destination (en_Original e) /\ ep = tu_Source (en_Reply e)).
  { intros Hna ep. apply translated_snoc_same. by rewrite <- Hamb. }
  destruct (bool_decide (k0 ∈ amb) || _) eqn:Eb; (split; [exact Hseen|exact Hreply|exact Hamb|]); simpl.
  - intros k ep. destruct (decide (k = k0)) as [->|Hne].
    + case_bool_decide as Ha.
      * rewrite Hgone by done. split; [done|]. intros Ht. apply Hamb in Ha.
        by destruct (translated_ambiguous _ _ _ Ha Ht).
      * simpl in Eb. apply bool_decide_eq_true in Eb. rewrite Hsame by done. split; [|tauto].
        intros Hep. by destruct (Hold Ha ep Hep).
    + rewrite Htab by done. rewrite translated_snoc_other by (unfold k0 in *; congruence). apply I.
  - apply orb_false_iff in Eb as [Ha%bool_decide_eq_false Hd%bool_decide_eq_false].
    intros k ep. rewrite lookup_insert. destruct (decide (k0 = k)) as [<-|Hne].
    + rewrite Hsame by done. naive_solver.
    + rewrite Htab by done. rewrite translated_snoc_other by done. apply I.
Qed.

Lemma tables_inv_fold prefix t entries :
  tables_inv prefix t -> tables_inv (prefix ++ entries) (foldl table_step t entries).
Proof.
  revert prefix t. induction entries as [|e entries IH]; intros prefix t I; simpl.
  - by rewrite app_nil_r.
  - rewrite cons_middle, app_assoc. apply IH. by apply tables_inv_step.
Qed.

Lemma tables_inv_empty : tables_inv [] (mkTables ∅ ∅ ∅).
Proof.
  split; simpl.
  - intros k _ e He. by apply not_elem_of_nil in He.
  - intros k r. by rewrite lookup_empty.
  - intros k. split; [set_solver|]. intros (e & _ & He & _). by apply not_elem_of_nil in He.
  - intros k ep. rewrite lookup_empty. split; [done|]. intros (e & He & _). by apply not_elem_of_nil in He.
Qed.

Lemma buildTable_spec entries k ep : buildTable entries !! k = Some ep <-> translated entries k ep.
Proof. apply (ti_table _ _ (tables_inv_fold [] _ entries tables_inv_empty)). Qed.

(** *** The resolver *)

Context {Laws : WorldLaws W}.

Lemma now_keeps st :
  st_resolver (now st).1 = st_resolver st /\ st_dumps (now st).1 = st_dumps st /\ 0 < (now st).2.
Proof.
  unfold now. pose proof (now_positive (st_world st)). by destruct (world_now (st_world st)).
Qed.

Lemma dump_at_inv st t : 0 < t -> resolver_inv (dump_at st t).1.
Proof.
  intros Ht. unfold dump_at, resolver_inv. destruct (world_dump (st_world st)) as [w [entries|]]; simpl;
    by rewrite last_snoc.
Qed.

Lemma resolver_inv_same st st' :
  st_resolver st' = st_resolver st -> st_dumps st' = st_dumps st -> resolver_inv st -> resolver_inv st'.
Proof. unfold resolver_inv. by intros -> ->. Qed.

Lemma refreshLocked_inv st : resolver_inv st -> resolver_inv (refreshLocked st).
Proof.
  intros I. unfold refreshLocked. destruct (now_keeps st) as (N1 & N2 & N3).
  destruct (now st) as [st1 t]. simpl in *. case_match; [by eapply resolver_inv_same|].
  by apply dump_at_inv.
Qed.

(** When a dump is not loaded, a table is either kept or dropped. *)
Lemma refreshOnMissLocked_spec st :
  resolver_inv st ->
  let '(st', loaded) := refreshOnMissLocked st in
  resolver_inv st' /\
  (loaded = false -> rs_dumpedAt (st_resolver st') = 0 \/
     (st_resolver st' = st_resolver st /\ st_dumps st' = st_dumps st)).
Proof.
  intros I. unfold refreshOnMissLocked. destruct (now_keeps st) as (N1 & N2 & N3).
  destruct (now st) as [st1 t]. simpl in *.
  assert (I1 : resolver_inv st1) by by eapply resolver_inv_same.
  destruct (time_IsZero _ || _); [by auto|]. destruct (_ && (_ <? _)); [by auto|].
  pose proof (dump_at_inv st1 t N3) as D. unfold dump_at in *.
  destruct (world_dump (st_world st1)) as [w [entries|]]; simpl in *; (split; [done|]); [done|auto].
Qed.

Lemma ResolveAfter_inv st protocol source destination observedAt :
  resolver_inv st -> resolver_inv (ResolveAfter st protocol source destination observedAt).1.
Proof.
  intros I. unfold ResolveAfter. destruct (protocolNumber protocol); [|done].
  pose proof (refreshLocked_inv st I) as I1.
  set (st1 := refreshLocked st) in *. pose proof (refreshOnMissLocked_spec st1 I1) as M.
  destruct (refreshOnMissLocked st1) as [st2 loaded]. destruct M as [I2 _].
  repeat (case_match; simplify_eq/=; try done).
Qed.

Lemma resolve_all_inv st queries : resolver_inv st -> resolver_inv (resolve_all st queries).
Proof.
  revert st. induction queries as [|[[[protocol source] destination] observedAt] queries IH];
    intros st I; [done|]. by apply IH, ResolveAfter_inv.
Qed.

Lemma dumpedAt_nonneg st : resolver_inv st -> 0 <= rs_dumpedAt (st_resolver st).
Proof.
  unfold resolver_inv. destruct (last (st_dumps st)) as [[t [entries|]]|].
  - intros (_ & -> & ?). lia.
  - intros [_ ->]. done.
  - intros [_ ->]. done.
Qed.

(** An answer comes from the table of a dump at or after [observedAt]. *)
Lemma ResolveAfter_sound st protocol source destination observedAt st' endpoint via :
  resolver_inv st -> 0 <= observedAt ->
  ResolveAfter st protocol source destination observedAt = (st', Some (endpoint, via)) ->
  exists number, protocolNumber protocol = Some number /\
    observedAt <= rs_dumpedAt (st_resolver st') /\
    rs_table (st_resolver st') !! key_of number source destination = Some endpoint.
Proof.
  intros I H0. unfold ResolveAfter. destruct (protocolNumber protocol) as [number|]; [|done].
  pose proof (refreshLocked_inv st I) as I1. set (st1 := refreshLocked st) in *.
  set (key := key_of number source destination).
  pose proof (refreshOnMissLocked_spec st1 I1) as M.
  unfold time_Before.
  destruct (negb (bool_decide (is_Some (rs_table (st_resolver st1) !! key))) ||
            (rs_dumpedAt (st_resolver st1) <? observedAt)) eqn:Ec.
  - destruct (refreshOnMissLocked st1) as [st2 loaded]. destruct M as [I2 Hk].
    destruct loaded.
    + destruct (rs_table (st_resolver st2) !! key) as [ep|] eqn:E; [|done].
      destruct (Z.ltb_spec (rs_dumpedAt (st_resolver st2)) observedAt); [done|].
      intros [= <- <- _]. by exists number.
    + destruct (rs_table (st_resolver st1) !! key) as [ep|] eqn:E; [|done].
      rewrite bool_decide_true in Ec by eauto. simpl in Ec. apply Z.ltb_lt in Ec.
      destruct (Z.ltb_spec (rs_dumpedAt (st_resolver st2)) observedAt); [done|].
      destruct (Hk eq_refl) as [Hz|[Hs _]]; [|rewrite Hs in *; lia].
      assert (rs_dumpedAt (st_resolver st1) < 0) by lia.
      pose proof (dumpedAt_nonneg st1 I1). lia.
  - destruct (rs_table (st_resolver st1) !! key) as [ep|] eqn:E; [|done].
    destruct (Z.ltb_spec (rs_dumpedAt (st_resolver st1)) observedAt); [done|].
    intros [= <- <- _]. by exists number.
Qed.
End resolver.

(** ** Theorems *)

(** C27. The table is exactly what the dump proves: a key maps to an endpoint
    when all entries of the key agree on the reply and the reply's source,
    that endpoint, is not the destination the flow was sent to; entries that
    disagree leave the key out, wherever they are in the dump. *)
Theorem buildTable_exact entries k endpoint :
  buildTable entries !! k = Some endpoint <-> translated entries k endpoint.
Proof. apply buildTable_spec. Qed.

(** An answer is always fresh proof: after any lookups, an endpoint
    returned for a flow was translated by the last dump made, which
    succeeded and was started no earlier than the caller's bound; a failed
    dump leaves nothing to answer from. *)
Theorem resolve_fresh {W} {World_W : World W} (Laws : WorldLaws W) (w : W) ttl queries
    protocol source destination observedAt st' endpoint via :
  0 <= observedAt ->
  ResolveAfter (resolve_all (mkState w (newResolver ttl) []) queries)
    protocol source destination observedAt = (st', Some (endpoint, via)) ->
  exists t entries number,
    last (st_dumps st') = Some (t, Some entries) /\ observedAt <= t /\
    protocolNumber protocol = Some number /\
    translated entries (key_of number source destination) endpoint.
Proof.
  intros H0 E. set (st := resolve_all _ queries) in *.
  assert (I : resolver_inv st) by (by apply resolve_all_inv).
  pose proof (ResolveAfter_inv st protocol source destination observedAt I) as I'.
  rewrite E in I'. simpl in I'.
  destruct (ResolveAfter_sound _ _ _ _ _ _ _ _ I H0 E) as (number & Hn & Ht & Hk).
  unfold resolver_inv in I'. destruct (last (st_dumps st')) as [[t [entries|]]|].
  - destruct I' as (Etab & Edump & _). exists t, entries, number. split_and!; [done|lia|done|].
    rewrite Etab in Hk. by apply buildTable_spec.
  - destruct I' as [Etab _]. by rewrite Etab, lookup_empty in Hk.
  - destruct I' as [Etab _]. by rewrite Etab, lookup_empty in Hk.
Qed.

(** A clock that advances, and a table with one entry *)
Definition example_clock : World Z := {|
  world_now w := (w + 1, unix_epoch + Z.abs w * Second);
  world_dump w := (w, Some [mkEntry
    (mkTuple 6 (mkEndpoint "10.0.0.2" 40000) (mkEndpoint "10.96.0.1" 80))
    (mkTuple 6 (mkEndpoint "10.0.0.9" 8080) (mkEndpoint "10.0.0.2" 40000))])
|}.

Lemma example_clock_laws : @WorldLaws Z example_clock.
Proof. split. intros w. simpl. unfold unix_epoch, Second. lia. Qed.

Lemma resolve_fresh_witness :
  exists st' t entries number,
    @ResolveAfter Z example_clock (mkState 0 (newResolver Second) []) "tcp"
      (mkEndpoint "10.0.0.2" 40000) (mkEndpoint "10.96.0.1" 80) 7 =
      (st', Some (mkEndpoint "10.0.0.9" 8080, Via)) /\
    last (st_dumps st') = Some (t, Some entries) /\
    translated entries (key_of number (mkEndpoint "10.0.0.2" 40000) (mkEndpoint "10.96.0.1" 80))
      (mkEndpoint "10.0.0.9" 8080).
Proof.
  destruct (@ResolveAfter Z example_clock (mkState 0 (newResolver Second) []) "tcp"
      (mkEndpoint "10.0.0.2" 40000) (mkEndpoint "10.96.0.1" 80) 7) as [st' r] eqn:E.
  assert (Er : r = Some (mkEndpoint "10.0.0.9" 8080, Via)) by (apply (f_equal snd) in E; simpl snd in E; rewrite <- E; vm_compute; reflexivity).
  subst r.
  destruct (@resolve_fresh Z example_clock example_clock_laws 0 Second [] "tcp"
    (mkEndpoint "10.0.0.2" 40000) (mkEndpoint "10.96.0.1" 80) 7 st' (mkEndpoint "10.0.0.9" 8080) Via
    ltac:(lia) E) as (t & entries & number & Hd & _ & _ & Ht).
  exists st', t, entries, number. split; [reflexivity|]. split; [exact Hd|exact Ht].
Defined.
