(* ===== verification/ConntrackWire.v ===== *)
(** * internal/conntrack: the ctnetlink messages

    parseMessages, parseEntry, parseTuple, forEachAttribute and the dump
    request. A slice expression out of range is a panic, which is an error
    value here; the host's byte order is an argument. *)

From S2P Require Import Prelude Flow NetIP Conntrack.

#[local] Open Scope Z_scope.

(** ** Definitions *)

Definition ctaTupleOrig : Z := 1.
Definition ctaTupleReply : Z := 2.
Definition ctaTupleIP : Z := 1.
Definition ctaTupleProto : Z := 2.
Definition ctaIPv4Src : Z := 1.
Definition ctaIPv4Dst : Z := 2.
Definition ctaIPv6Src : Z := 3.
Definition ctaIPv6Dst : Z := 4.
Definition ctaProtoNum : Z := 1.
Definition ctaProtoSrcPort : Z := 2.
Definition ctaProtoDstPort : Z := 3.
Definition nlaTypeMask : Z := 0x3fff.
Definition nlmsgHeaderLength : nat := 16.
Definition nfgenmsgLength : nat := 4.
Definition nlmsgError : Z := 2.
Definition nlmsgDone : Z := 3.
Definition nlmFDumpIntr : Z := 0x10.

(** The errors of parseMessages, by message; a panic of a slice expression;
    and the model's own [out_of_fuel], which does not occur. *)
Inductive NetlinkError :=
| invalid_message_length
| interrupted_dump
| short_done_status
| dump_error (code : Z)
| short_error_status
| netlink_error (code : Z)
| truncated_padding
| truncated_header
| slice_out_of_range
| out_of_fuel.

(** (value + 3) &^ 3 *)
Definition align4 (value : nat) : nat := ((value + 3) / 4) * 4.

Definition formatAddress (value : list byte) : string :=
  if (length value =? 4)%nat || (length value =? 16)%nat then IP_String value else "".

Section netlink.
Context (order : byte_order).

(** forEachAttribute: the attributes it visits, in order. Every iteration
    consumes at least four bytes. *)
Fixpoint attributes (fuel : nat) (data : list byte) : result NetlinkError (list (Z * list byte)) :=
  match fuel with
  | O => Err out_of_fuel
  | S fuel' =>
      if (length data <? 4)%nat then Ok []
      else
        let len := Z.to_nat (order_uint order (slice data 0 2)) in
        let attributeType := Z.land (order_uint order (slice data 2 4)) nlaTypeMask in
        if (len <? 4)%nat || (length data <? len)%nat then Ok []
        else if (length data <? align4 len)%nat then Err slice_out_of_range
        else
          rest ← attributes fuel' (drop (align4 len) data);
          Ok ((attributeType, slice data 4 len) :: rest)
  end.

Definition forEachAttribute {A} (data : list byte) (visit : A -> Z * list byte -> result NetlinkError A)
    (init : A) : result NetlinkError A :=
  l ← attributes (S (length data)) data;
  foldl (fun acc a => acc ← acc; visit acc a) (Ok init) l.

Definition set_source_address (a : string) (t : Tuple) : Tuple :=
  mkTuple (tu_Protocol t) (mkEndpoint a (ep_Port (tu_Source t))) (tu_Destination t).
Definition set_destination_address (a : string) (t : Tuple) : Tuple :=
  mkTuple (tu_Protocol t) (tu_Source t) (mkEndpoint a (ep_Port (tu_Destination t))).
Definition set_source_port (p : Z) (t : Tuple) : Tuple :=
  mkTuple (tu_Protocol t) (mkEndpoint (ep_Address (tu_Source t)) p) (tu_Destination t).
Definition set_destination_port (p : Z) (t : Tuple) : Tuple :=
  mkTuple (tu_Protocol t) (tu_Source t) (mkEndpoint (ep_Address (tu_Destination t)) p).
Definition set_protocol (p : Z) (t : Tuple) : Tuple :=
  mkTuple p (tu_Source t) (tu_Destination t).

Definition visit_ip (t : Tuple) (a : Z * list byte) : result NetlinkError Tuple :=
  let '(ipType, ipValue) := a in
  if (ipType =? ctaIPv4Src) || (ipType =? ctaIPv6Src) then Ok (set_source_address (formatAddress ipValue) t)
  else if (ipType =? ctaIPv4Dst) || (ipType =? ctaIPv6Dst)
  then Ok (set_destination_address (formatAddress ipValue) t)
  else Ok t.

Definition visit_proto (acc : Tuple * bool) (a : Z * list byte) : result NetlinkError (Tuple * bool) :=
  let '(t, haveProtocol) := acc in
  let '(protoType, protoValue) := a in
  if protoType =? ctaProtoNum then
    if (1 <=? length protoValue)%nat then Ok (set_protocol (byte_val (protoValue !!! 0%nat)) t, true)
    else Ok acc
  else if protoType =? ctaProtoSrcPort then
    if (2 <=? length protoValue)%nat
    then Ok (set_source_port (be_uint (slice protoValue 0 2)) t, haveProtocol) else Ok acc
  else if protoType =? ctaProtoDstPort then
    if (2 <=? length protoValue)%nat
    then Ok (set_destination_port (be_uint (slice protoValue 0 2)) t, haveProtocol) else Ok acc
  else Ok acc.

(** The accumulator: the tuple, haveAddresses and haveProtocol *)
Definition visit_tuple (acc : Tuple * bool * bool) (a : Z * list byte) :
    result NetlinkError (Tuple * bool * bool) :=
  let '(t, haveAddresses, haveProtocol) := acc in
  let '(attributeType, value) := a in
  if attributeType =? ctaTupleIP then
    t ← forEachAttribute value visit_ip t;
    Ok (t, negb (bool_decide (ep_Address (tu_Source t) = "")) &&
           negb (bool_decide (ep_Address (tu_Destination t) = "")), haveProtocol)
  else if attributeType =? ctaTupleProto then
    '(t, haveProtocol) ← forEachAttribute value visit_proto (t, haveProtocol);
    Ok (t, haveAddresses, haveProtocol)
  else Ok acc.

Definition zeroTuple : Tuple := mkTuple 0 zeroEndpoint zeroEndpoint.

(** parseTuple; [Ok None] when its ok is false *)
Definition parseTuple (data : list byte) : result NetlinkError (option Tuple) :=
  '(t, haveAddresses, haveProtocol) ← forEachAttribute data visit_tuple (zeroTuple, false, false);
  Ok (if (haveAddresses : bool) && haveProtocol then Some t else None).

Definition visit_entry (acc : option Tuple * option Tuple) (a : Z * list byte) :
    result NetlinkError (option Tuple * option Tuple) :=
  let '(original, reply) := acc in
  let '(attributeType, value) := a in
  if attributeType =? ctaTupleOrig then
    t ← parseTuple value; Ok (if t is Some _ then t else original, reply)
  else if attributeType =? ctaTupleReply then
    t ← parseTuple value; Ok (original, if t is Some _ then t else reply)
  else Ok acc.

(** parseEntry: an entry when both tuples were read *)
Definition parseEntry (data : list byte) : result NetlinkError (option Entry) :=
  '(original, reply) ← forEachAttribute data visit_entry (None, None);
  Ok (match original, reply with
      | Some o, Some r => Some (mkEntry o r)
      | _, _ => None
      end).

(** One message of parseMessages: the entries it adds and whether it is DONE *)
Definition parse_message (messageType : Z) (payload : list byte) :
    result NetlinkError (list Entry * bool) :=
  if messageType =? nlmsgDone then
    if (length payload =? 0)%nat then Ok ([], true)
    else if (length payload <? 4)%nat then Err short_done_status
    else
      let code := i32 (order_uint order (take 4 payload)) in
      if negb (code =? 0) then Err (dump_error code) else Ok ([], true)
  else if messageType =? nlmsgError then
    if (length payload <? 4)%nat then Err short_error_status
    else
      let code := i32 (order_uint order (slice payload 0 4)) in
      if negb (code =? 0) then Err (netlink_error code) else Ok ([], false)
  else if (nfgenmsgLength <? length payload)%nat then
    entry ← parseEntry (drop nfgenmsgLength payload);
    Ok (match entry with Some e => [e] | None => [] end, false)
  else Ok ([], false).

Fixpoint parse_loop (fuel : nat) (data : list byte) (entries : list Entry) (done : bool) :
    result NetlinkError (list Entry * bool) :=
  match fuel with
  | O => Err out_of_fuel
  | S fuel' =>
      if (length data <? nlmsgHeaderLength)%nat then
        if (length data =? 0)%nat then Ok (entries, done) else Err truncated_header
      else
        let len := Z.to_nat (order_uint order (slice data 0 4)) in
        let messageType := order_uint order (slice data 4 6) in
        if (len <? nlmsgHeaderLength)%nat || (length data <? len)%nat then Err invalid_message_length
        else if negb (Z.land (order_uint order (slice data 6 8)) nlmFDumpIntr =? 0)
        then Err interrupted_dump
        else
          '(new, isDone) ← parse_message messageType (slice data nlmsgHeaderLength len);
          if (length data <? align4 len)%nat then Err truncated_padding
          else parse_loop fuel' (drop (align4 len) data) (entries ++ new) (done || isDone)
  end.

Definition parseMessages (data : list byte) : result NetlinkError (list Entry * bool) :=
  parse_loop (S (length data)) data [] false.

(** dumpRequest: 20 bytes, with the constants of linux/netlink.h *)
Definition dumpRequest : list byte :=
  order_bytes order 4 20 ++ order_bytes order 2 (Z.lor (Z.shiftl 1 8) 1) ++
  order_bytes order 2 (Z.lor 0x1 0x300) ++ order_bytes order 4 1 ++ order_bytes order 4 0 ++
  [byte_of 0; byte_of 0; byte_of 0; byte_of 0].

(** *** What the kernel sends *)

Definition pad4 (n : nat) : list byte := replicate (align4 n - n) (byte_of 0).

(** An attribute: its length, its type, the value and the padding *)
Definition attr (type : Z) (value : list byte) : list byte :=
  order_bytes order 2 (Z.of_nat (4 + length value)) ++ order_bytes order 2 type ++ value ++
  pad4 (4 + length value).

Definition attrs (l : list (Z * list byte)) : list byte := concat ((fun a => attr a.1 a.2) <$> l).

(** NLA_F_NESTED *)
Definition nested (type : Z) : Z := Z.lor 0x8000 type.

(** A tuple as the kernel holds it: raw addresses of one family *)
Record RawTuple := mkRawTuple {
  rw_v6 : bool;
  rw_source : list byte;
  rw_destination : list byte;
  rw_sourcePort : Z;
  rw_destinationPort : Z;
  rw_protocol : Z
}.

Definition raw_ok (t : RawTuple) : Prop :=
  length (rw_source t) = (if rw_v6 t then 16 else 4)%nat /\
  length (rw_destination t) = (if rw_v6 t then 16 else 4)%nat /\
  0 <= rw_sourcePort t < 65536 /\ 0 <= rw_destinationPort t < 65536 /\ 0 <= rw_protocol t < 256.

Definition tuple_of (t : RawTuple) : Tuple :=
  mkTuple (rw_protocol t) (mkEndpoint (IP_String (rw_source t)) (rw_sourcePort t))
    (mkEndpoint (IP_String (rw_destination t)) (rw_destinationPort t)).

Definition ip_attributes (t : RawTuple) : list (Z * list byte) :=
  [(if rw_v6 t then ctaIPv6Src else ctaIPv4Src, rw_source t);
   (if rw_v6 t then ctaIPv6Dst else ctaIPv4Dst, rw_destination t)].

Definition proto_attributes (t : RawTuple) : list (Z * list byte) :=
  [(ctaProtoNum, [byte_of (rw_protocol t)]); (ctaProtoSrcPort, be_bytes 2 (rw_sourcePort t));
   (ctaProtoDstPort, be_bytes 2 (rw_destinationPort t))].

Definition encode_tuple (t : RawTuple) : list byte :=
  attrs [(nested ctaTupleIP, attrs (ip_attributes t)); (nested ctaTupleProto, attrs (proto_attributes t))].

(** A connection: its two tuples, then what the resolver does not use (the
    status, the timeout, the counters, ...) *)
Record RawEntry := mkRawEntry {
  rw_original : RawTuple;
  rw_reply : RawTuple;
  rw_others : list (Z * list byte)
}.

Definition attribute_ok (a : Z * list byte) : Prop := 0 <= a.1 < 65536 /\ Z.of_nat (length a.2) < 65532.

Definition ignored (a : Z * list byte) : Prop :=
  Z.land a.1 nlaTypeMask <> ctaTupleOrig /\ Z.land a.1 nlaTypeMask <> ctaTupleReply.

Definition encode_entry (e : RawEntry) : list byte :=
  attrs ([(nested ctaTupleOrig, encode_tuple (rw_original e));
          (nested ctaTupleReply, encode_tuple (rw_reply e))] ++ rw_others e).

Definition entry_ok (e : RawEntry) : Prop :=
  raw_ok (rw_original e) /\ raw_ok (rw_reply e) /\ Forall attribute_ok (rw_others e) /\
  Forall ignored (rw_others e) /\ Z.of_nat (length (encode_entry e)) < 2 ^ 32 - 20.

Definition entry_of (e : RawEntry) : Entry :=
  mkEntry (tuple_of (rw_original e)) (tuple_of (rw_reply e)).

(** A netlink message: the header, whose sequence and port do not matter *)
Definition message (type flags : Z) (sequence_and_port payload : list byte) : list byte :=
  order_bytes order 4 (Z.of_nat (16 + length payload)) ++ order_bytes order 2 type ++
  order_bytes order 2 flags ++ sequence_and_port ++ payload ++ pad4 (16 + length payload).

Definition NLM_F_MULTI : Z := 2.

(** NFNL_SUBSYS_CTNETLINK << 8 | IPCTNL_MSG_CT_NEW *)
Definition entry_message (e : RawEntry) : list byte :=
  message 0x100 NLM_F_MULTI (replicate 8 (byte_of 0)) (replicate 4 (byte_of 0) ++ encode_entry e).

(** NLMSG_DONE with the dump's errno *)
Definition done_message (code : Z) : list byte :=
  message nlmsgDone NLM_F_MULTI (replicate 8 (byte_of 0)) (order_bytes order 4 code).

Definition dump (es : list RawEntry) : list byte := concat (entry_message <$> es).

(** ** Lemmas *)

Lemma align4_spec n : (n <= align4 n < n + 4)%nat /\ (align4 n `mod` 4 = 0)%nat.
Proof.
  unfold align4. pose proof (Nat.div_mod_eq (n + 3) 4). pose proof (Nat.mod_upper_bound (n + 3) 4 ltac:(lia)).
  split; [lia|]. apply Nat.Div0.mod_mul.
Qed.

Lemma length_attr type value : length (attr type value) = align4 (4 + length value).
Proof.
  unfold attr, pad4. rewrite !length_app, !length_order_bytes, length_replicate.
  pose proof (align4_spec (4 + length value)). lia.
Qed.

Lemma slice_app {A} (a b c : list A) i j :
  i = length a -> j = (length a + length b)%nat -> slice (a ++ b ++ c) i j = b.
Proof.
  intros -> ->. unfold slice. rewrite drop_app_length.
  replace (length a + length b - length a)%nat with (length b) by lia. apply take_app_length.
Qed.

(** One iteration over an attribute the kernel wrote *)
Lemma attributes_attr fuel a rest :
  attribute_ok a ->
  attributes (S fuel) (attr a.1 a.2 ++ rest) =
    l ← attributes fuel rest; Ok ((Z.land a.1 nlaTypeMask, a.2) :: l).
Proof.
  destruct a as [type value]. intros [Ht Hv]. simpl in Ht, Hv. cbn [attributes fst snd].
  pose proof (align4_spec (4 + length value)) as [A _].
  assert (Hlen : (length (attr type value ++ rest) = align4 (4 + length value) + length rest)%nat)
    by (by rewrite length_app, length_attr).
  rewrite Hlen. rewrite (proj2 (Nat.ltb_ge _ 4)) by lia.
  assert (E1 : slice (attr type value ++ rest) 0 2 = order_bytes order 2 (Z.of_nat (4 + length value))).
  { unfold attr. rewrite <- !app_assoc. rewrite <- (app_nil_l (order_bytes _ _ _ ++ _)).
    apply slice_app; [done|]. by rewrite length_order_bytes. }
  assert (E2 : slice (attr type value ++ rest) 2 4 = order_bytes order 2 type).
  { unfold attr. rewrite <- !app_assoc. apply slice_app; by rewrite !length_order_bytes. }
  rewrite E1, E2, !order_uint_bytes, !Z.mod_small, Nat2Z.id by (rewrite ?Z.pow_2_r; lia).
  rewrite (proj2 (Nat.ltb_ge _ 4)), (proj2 (Nat.ltb_ge _ _)), (proj2 (Nat.ltb_ge _ _)) by lia. simpl orb. cbv iota.
  rewrite drop_app_length' by (by rewrite length_attr).
  replace (slice (attr type value ++ rest) 4 (4 + length value)) with value; [done|].
  unfold attr. rewrite <- !app_assoc, (app_assoc (order_bytes order 2 (Z.of_nat _))). symmetry.
  apply slice_app; by rewrite length_app, !length_order_bytes.
Qed.

Lemma attributes_attrs fuel l :
  (length l < fuel)%nat -> Forall attribute_ok l ->
  attributes fuel (attrs l) = Ok ((fun a => (Z.land a.1 nlaTypeMask, a.2)) <$> l).
Proof.
  revert fuel. induction l as [|a l IH]; intros [|fuel]; simpl length; try lia; [done|].
  intros Hf [Ha Hl]%Forall_cons. change (attrs (a :: l)) with (attr a.1 a.2 ++ attrs l).
  rewrite attributes_attr, IH by (done || lia). done.
Qed.

Lemma length_attrs l : length (attrs l) = sum_list_with (fun a => align4 (4 + length a.2)) l.
Proof.
  induction l as [|a l IH]; [done|]. change (attrs (a :: l)) with (attr a.1 a.2 ++ attrs l).
  by rewrite length_app, length_attr, IH.
Qed.

Lemma forEachAttribute_attrs {A} l (visit : A -> Z * list byte -> result NetlinkError A) init :
  Forall attribute_ok l ->
  forEachAttribute (attrs l) visit init =
    foldl (fun acc a => acc ← acc; visit acc (Z.land a.1 nlaTypeMask, a.2)) (Ok init) l.
Proof.
  intros Hl. unfold forEachAttribute. rewrite attributes_attrs; [| |done].
  - simpl. generalize (Ok (E := NetlinkError) init). clear Hl.
    induction l as [|a l IH]; intros acc; [done|]. apply IH.
  - rewrite length_attrs. clear Hl. induction l as [|a l IH]; cbn [length sum_list_with]; [lia|].
    pose proof (align4_spec (4 + length a.2)). lia.
Qed.

Lemma length_encode_tuple t : raw_ok t -> length (encode_tuple t) = if rw_v6 t then 72%nat else 48%nat.
Proof.
  intros (Hs & Hd & _). unfold encode_tuple. rewrite length_attrs. cbn [sum_list_with snd].
  rewrite !length_attrs. unfold ip_attributes, proto_attributes. cbn [sum_list_with snd].
  rewrite Hs, Hd, !length_be_bytes. by destruct (rw_v6 t).
Qed.

Lemma nested_mask type : 0 <= type < 0x4000 -> Z.land (nested type) nlaTypeMask = type.
Proof.
  intros Ht. unfold nested, nlaTypeMask. rewrite Z.land_lor_distr_l.
  change (Z.land 0x8000 0x3fff) with 0. rewrite Z.lor_0_l.
  change 0x3fff with (Z.ones 14). rewrite Z.land_ones by lia. by apply Z.mod_small.
Qed.

Lemma visit_ip_attributes t : raw_ok t ->
  forEachAttribute (attrs (ip_attributes t)) visit_ip zeroTuple =
    Ok (mkTuple 0 (mkEndpoint (IP_String (rw_source t)) 0) (mkEndpoint (IP_String (rw_destination t)) 0)).
Proof.
  intros (Hs & Hd & _). rewrite forEachAttribute_attrs.
  - unfold ip_attributes, formatAddress, visit_ip. destruct (rw_v6 t); simpl; unfold formatAddress;
      rewrite Hs, Hd; done.
  - unfold ip_attributes. repeat constructor; simpl; rewrite ?Hs, ?Hd; by destruct (rw_v6 t).
Qed.

Lemma visit_proto_attributes t u : raw_ok t ->
  forEachAttribute (attrs (proto_attributes t)) visit_proto (u, false) =
    Ok (mkTuple (rw_protocol t) (mkEndpoint (ep_Address (tu_Source u)) (rw_sourcePort t))
          (mkEndpoint (ep_Address (tu_Destination u)) (rw_destinationPort t)), true).
Proof.
  intros (_ & _ & Hsp & Hdp & Hp). rewrite forEachAttribute_attrs.
  - assert (B : forall p, 0 <= p < 65536 -> length (be_bytes 2 p) = 2%nat /\
      be_uint (slice (be_bytes 2 p) 0 2) = p).
    { intros p Hp'. split; [apply length_be_bytes|]. unfold slice.
      rewrite drop_0, take_ge by (by rewrite length_be_bytes). by rewrite be_uint_bytes, Z.mod_small. }
    unfold proto_attributes.
    destruct (B _ Hsp) as [L1 P1], (B _ Hdp) as [L2 P2].
    generalize dependent (be_bytes 2 (rw_sourcePort t)). generalize dependent (be_bytes 2 (rw_destinationPort t)).
    intros dp L2 P2 sp L1 P1. simpl. rewrite L1. simpl. rewrite L2. simpl.
    unfold set_source_port, set_destination_port, set_protocol. simpl.
    by rewrite byte_val_of, Z.mod_small, P1, P2.
  - unfold proto_attributes. repeat constructor; by vm_compute.
Qed.

Lemma parseTuple_encode t : raw_ok t -> parseTuple (encode_tuple t) = Ok (Some (tuple_of t)).
Proof.
  intros Ht. unfold parseTuple, encode_tuple. rewrite forEachAttribute_attrs.
  - cbn [foldl fst snd]. rewrite !nested_mask by (unfold ctaTupleIP, ctaTupleProto; lia).
    cbn [mbind result_mbind result_bind visit_tuple]. simpl Z.eqb. cbv iota.
    rewrite visit_ip_attributes by done. cbn [result_bind]. cbn [mbind result_mbind result_bind].
    cbn [visit_tuple]. simpl Z.eqb. cbv iota. rewrite visit_proto_attributes by done. cbn [result_bind mbind result_mbind].
    destruct Ht as (Hs & Hd & _).
    assert (N : forall l, length l = (if rw_v6 t then 16 else 4)%nat -> IP_String l <> "")
      by (intros l Hl; apply IP_String_nonempty; destruct (rw_v6 t); lia).
    cbn [tu_Source tu_Destination ep_Address]. rewrite !bool_decide_eq_false_2 by auto. done.
  - pose proof Ht as (Hs & Hd & _). repeat constructor; cbn [fst snd]; try done;
      rewrite length_attrs; unfold ip_attributes; cbn [sum_list_with snd]; rewrite ?Hs, ?Hd;
      by destruct (rw_v6 t).
Qed.

Lemma visit_entry_ignored l acc :
  Forall ignored l ->
  foldl (fun acc a => acc ← acc; visit_entry acc (Z.land a.1 nlaTypeMask, a.2)) (Ok acc) l = Ok acc.
Proof.
  intros Hl. induction Hl as [|a l [H1 H2] Hl IH]; [done|].
  assert (E : visit_entry acc (Z.land a.1 nlaTypeMask, a.2) = Ok acc).
  { destruct acc as [o r]. unfold visit_entry. apply Z.eqb_neq in H1, H2. by rewrite H1, H2. }
  cbn [foldl]. cbn [mbind result_mbind result_bind]. rewrite E. exact IH.
Qed.

Lemma parseEntry_encode e : entry_ok e -> parseEntry (encode_entry e) = Ok (Some (entry_of e)).
Proof.
  intros (Ho & Hr & Hok & Hig & _). unfold parseEntry, encode_entry.
  rewrite forEachAttribute_attrs, foldl_app.
  - cbn [foldl fst snd]. rewrite !nested_mask by (unfold ctaTupleOrig, ctaTupleReply; lia).
    cbn [mbind result_mbind result_bind visit_entry]. simpl Z.eqb. cbv iota.
    rewrite parseTuple_encode by done. cbn [result_bind mbind result_mbind visit_entry].
    simpl Z.eqb. cbv iota. rewrite parseTuple_encode by done. cbn [result_bind].
    change (Ok (Some (tuple_of (rw_reply e))) ≫= _) with
      (Ok (E := NetlinkError) (Some (tuple_of (rw_original e)), Some (tuple_of (rw_reply e)))).
    by rewrite visit_entry_ignored.
  - apply Forall_app. split; [|done].
    repeat constructor; cbn [fst snd]; try done; rewrite length_encode_tuple by done;
      match goal with |- context [rw_v6 ?t] => by destruct (rw_v6 t) end.
Qed.

(** *** Messages *)

Lemma length_message type flags sp payload :
  length sp = 8%nat -> length (message type flags sp payload) = align4 (16 + length payload).
Proof.
  intros Hsp. unfold message, pad4. rewrite !length_app, !length_order_bytes, length_replicate, Hsp.
  pose proof (align4_spec (16 + length payload)). lia.
Qed.

(** One iteration over a message the kernel wrote, which is not marked
    interrupted *)
Lemma parse_loop_message fuel type flags sp payload rest entries done :
  length sp = 8%nat -> 0 <= type < 65536 -> 0 <= flags < 65536 -> Z.of_nat (length payload) < 2 ^ 32 - 16 ->
  parse_loop (S fuel) (message type flags sp payload ++ rest) entries done =
    if negb (Z.land flags nlmFDumpIntr =? 0) then Err interrupted_dump
    else '(new, isDone) ← parse_message type payload; parse_loop fuel rest (entries ++ new) (done || isDone).
Proof.
  intros Hsp Ht Hf Hp. cbn [parse_loop]. pose proof (align4_spec (16 + length payload)) as [A _].
  set (m := message type flags sp payload).
  assert (Hm : length m = align4 (16 + length payload)) by by apply length_message.
  assert (Hlen : (length (m ++ rest) = align4 (16 + length payload) + length rest)%nat)
    by (by rewrite length_app, Hm).
  rewrite Hlen. unfold nlmsgHeaderLength. rewrite (proj2 (Nat.ltb_ge _ 16)) by lia.
  assert (E1 : slice (m ++ rest) 0 4 = order_bytes order 4 (Z.of_nat (16 + length payload))).
  { unfold m, message. rewrite <- !app_assoc. rewrite <- (app_nil_l (order_bytes _ _ _ ++ _)).
    apply slice_app; [done|]. by rewrite length_order_bytes. }
  assert (E2 : slice (m ++ rest) 4 6 = order_bytes order 2 type).
  { unfold m, message. rewrite <- !app_assoc. apply slice_app; by rewrite !length_order_bytes. }
  assert (E3 : slice (m ++ rest) 6 8 = order_bytes order 2 flags).
  { unfold m, message. rewrite <- !app_assoc, (app_assoc (order_bytes order 4 _)).
    apply slice_app; by rewrite length_app, !length_order_bytes. }
  assert (E4 : slice (m ++ rest) 16 (16 + length payload) = payload).
  { unfold m, message. rewrite <- !app_assoc, (app_assoc (order_bytes order 4 _)),
      (app_assoc (_ ++ _)), (app_assoc ((_ ++ _) ++ _)).
    apply slice_app; by rewrite !length_app, !length_order_bytes, Hsp. }
  rewrite E1, E2, E3, !order_uint_bytes.
  rewrite (Z.mod_small (Z.of_nat _)), (Z.mod_small type), (Z.mod_small flags), Nat2Z.id
    by (change (256 ^ Z.of_nat 2) with 65536; change (256 ^ Z.of_nat 4) with (2 ^ 32); lia).
  rewrite E4, (proj2 (Nat.ltb_ge _ 16)), (proj2 (Nat.ltb_ge _ _)) by lia. simpl orb. cbv iota.
  rewrite drop_app_length' by (by rewrite Hm).
  destruct (negb _); [done|]. destruct (parse_message type payload) as [[new isDone]|]; [|done].
  cbn [mbind result_mbind result_bind]. by rewrite (proj2 (Nat.ltb_ge _ _)) by lia.
Qed.

Lemma parse_message_entry e :
  entry_ok e ->
  parse_message 0x100 (replicate 4 (byte_of 0) ++ encode_entry e) = Ok ([entry_of e], false).
Proof.
  intros He. unfold parse_message. simpl Z.eqb. cbv iota.
  rewrite length_app, length_replicate. unfold nfgenmsgLength.
  assert (0 < length (encode_entry e))%nat.
  { unfold encode_entry. rewrite length_attrs. cbn [app sum_list_with]. 
    pose proof (align4_spec (4 + length (nested ctaTupleOrig, encode_tuple (rw_original e)).2)). lia. }
  rewrite (proj2 (Nat.ltb_lt _ _)) by lia. rewrite drop_app_length' by done.
  by rewrite parseEntry_encode.
Qed.

Lemma parse_loop_dump fuel es rest entries done :
  Forall entry_ok es ->
  parse_loop (length es + fuel) (dump es ++ rest) entries done =
    parse_loop fuel rest (entries ++ (entry_of <$> es)) done.
Proof.
  intros Hes. revert entries. induction Hes as [|e es He Hes IH]; intros entries.
  - by rewrite app_nil_r.
  - change (dump (e :: es)) with (entry_message e ++ dump es). rewrite <- app_assoc. cbn [length Nat.add].
    unfold entry_message at 1. rewrite parse_loop_message; [|done..|].
    + simpl negb. cbv iota. rewrite parse_message_entry by done.
      cbn [mbind result_mbind result_bind]. rewrite orb_false_r, IH, <- app_assoc. done.
    + rewrite length_app, length_replicate. destruct He as (_ & _ & _ & _ & Hlen). lia.
Qed.
End netlink.

Lemma length_dump order es : (16 * length es <= length (dump order es))%nat.
Proof.
  induction es as [|e es IH]; [simpl; lia|].
  change (dump order (e :: es)) with (entry_message order e ++ dump order es). rewrite length_app.
  unfold entry_message. rewrite length_message by done.
  match goal with |- context [align4 ?n] => pose proof (align4_spec n) end. cbn [length]. lia.
Qed.

Lemma parseMessages_dump order es rest :
  Forall (entry_ok order) es ->
  exists fuel, parseMessages order (dump order es ++ rest) =
    parse_loop order (S (length rest + fuel)) rest (entry_of <$> es) false.
Proof.
  intros Hes. exists (length (dump order es) - length es)%nat. unfold parseMessages.
  pose proof (length_dump order es). rewrite length_app.
  replace (S (length (dump order es) + length rest)) with
    (length es + S (length rest + (length (dump order es) - length es)))%nat by lia.
  by rewrite parse_loop_dump.
Qed.

(** An attribute whose length is not a multiple of four and that ends the
    message without its padding makes the slice expression of
    forEachAttribute panic: the message ends at its length, 25, and the
    padding that follows is not part of the payload. *)
Lemma unpadded_attribute_panics :
  parseMessages LittleEndian
    (message LittleEndian 0x100 0x2 (replicate 8 (byte_of 0))
      (replicate 4 (byte_of 0) ++ (byte_of <$> [5; 0; 1; 0; 7]))) = Err slice_out_of_range.
Proof. vm_compute. reflexivity. Qed.

(** The request asks the running kernel for every connection, in its own
    byte order. *)
Example dumpRequest_little :
  dumpRequest LittleEndian = byte_of <$> [20; 0; 0; 0; 1; 1; 1; 3; 1; 0; 0; 0; 0; 0; 0; 0; 0; 0; 0; 0].
Proof. vm_compute. reflexivity. Qed.

(** ** Theorems *)

(** C37. parseMessages reads back the connections a kernel of either byte
    order dumps, in order and whatever further attributes they carry; it
    reports the dump complete only at a DONE message whose status is zero,
    returns the errno of another status, and refuses a dump that was
    interrupted anywhere. *)
Theorem dump_roundtrip order es code flags type payload rest :
  Forall (entry_ok order) es -> - 2 ^ 31 <= code < 2 ^ 31 ->
  0 <= type < 65536 -> 0 <= flags < 65536 -> Z.land flags nlmFDumpIntr <> 0 ->
  Z.of_nat (length payload) < 2 ^ 32 - 16 ->
  parseMessages order (dump order es) = Ok (entry_of <$> es, false) /\
  parseMessages order (dump order es ++ done_message order code) =
    (if code =? 0 then Ok (entry_of <$> es, true) else Err (dump_error code)) /\
  parseMessages order
    (dump order es ++ message order type flags (replicate 8 (byte_of 0)) payload ++ rest) =
    Err interrupted_dump.
Proof.
  intros Hes Hcode Ht Hf Hi Hp. split; [|split].
  - destruct (parseMessages_dump order es [] Hes) as [fuel E]. by rewrite app_nil_r in E.
  - destruct (parseMessages_dump order es (done_message order code) Hes) as [fuel ->].
    assert (F : exists f, S (length (done_message order code) + fuel) = S (S f)).
    { exists (19 + fuel)%nat. unfold done_message. rewrite length_message, length_order_bytes by done. done. }
    destruct F as [f ->]. rewrite <- (app_nil_r (done_message order code)). unfold done_message.
    rewrite parse_loop_message; [|done|done|done|by rewrite length_order_bytes].
    simpl negb. cbv iota. unfold parse_message. simpl Z.eqb. cbv iota.
    rewrite length_order_bytes. simpl Nat.ltb. simpl Nat.eqb. cbv iota.
    rewrite take_ge by (by rewrite length_order_bytes).
    rewrite order_uint_bytes. change (256 ^ Z.of_nat 4) with (2 ^ 32).
    fold (uint 32 code). rewrite sint_uint, sint_small by lia.
    destruct (code =? 0); [|done]. simpl. by rewrite app_nil_r.
  - destruct (parseMessages_dump order es
      (message order type flags (replicate 8 (byte_of 0)) payload ++ rest) Hes) as [fuel ->].
    rewrite parse_loop_message by done. apply Z.eqb_neq in Hi. by rewrite Hi.
Qed.

(** A Service connection as the kernel reports it, with its status *)
Definition example_entry : RawEntry := mkRawEntry
  (mkRawTuple false (byte_of <$> [10; 0; 0; 2]) (byte_of <$> [10; 96; 0; 1]) 40000 80 6)
  (mkRawTuple false (byte_of <$> [10; 0; 0; 9]) (byte_of <$> [10; 0; 0; 2]) 8080 40000 6)
  [(3, byte_of <$> [0; 0; 1; 142])].

Lemma dump_roundtrip_witness :
  Forall (entry_ok BigEndian) [example_entry] /\
  parseMessages BigEndian (dump BigEndian [example_entry] ++ done_message BigEndian 0) =
    Ok ([mkEntry (mkTuple 6 (mkEndpoint "10.0.0.2" 40000) (mkEndpoint "10.96.0.1" 80))
                 (mkTuple 6 (mkEndpoint "10.0.0.9" 8080) (mkEndpoint "10.0.0.2" 40000))], true).
Proof.
  assert (H : Forall (entry_ok BigEndian) [example_entry]).
  { constructor; [|constructor]. unfold entry_ok, raw_ok, ignored, attribute_ok.
    split; [|split; [|split; [|split]]]; [simpl; lia..| | |].
    - by repeat constructor.
    - constructor; [|constructor]. split; by vm_compute.
    - by vm_compute. }
  split; [exact H|].
  destruct (dump_roundtrip BigEndian [example_entry] 0 0x10 3 [] [] H) as (_ & E & _);
    [lia|lia|lia|by vm_compute|simpl; lia|].
  rewrite E. vm_compute. reflexivity.
Defined.
