(* ===== verification/Netlink.v ===== *)
(** * internal/conntrack: the dump over a netlink socket

    dumpNetlink and receiveNetlinkDump of netlink_linux.go over a kernel that
    is a typeclass, and the resolver of conntrack.go on top of them: what
    [Conntrack] asks of a dump function, its [World], has here the
    implementation NewNetlinkResolver gives it. *)

From S2P Require Import Prelude Flow NetIP Conntrack ConntrackWire.

#[local] Open Scope Z_scope.

(** ** Definitions *)

Definition netlinkDumpTimeout : Duration := Second.

(** len(buffer) of receiveNetlinkDump *)
Definition bufferSize : nat := Z.to_nat (Z.shiftl 1 16).

(** What a Recvfrom answers *)
Inductive recv_result :=
| EINTR
| RecvFailed
| Datagram (data : list byte).

(** The clock, and the calls of package unix; [false] is an error. *)
Class Kernel (K : Type) := {
  k_now : K -> K * Time;
  k_socket : K -> K * bool;
  k_bind : K -> K * bool;
  k_send : K -> list byte -> K * bool;
  k_timeout : K -> Duration -> K * bool; (* SO_RCVTIMEO *)
  k_recv : K -> K * recv_result;
  k_close : K -> K
}.

(** What termination relies on: the clock does not go back, and a receive
    takes time. *)
Class KernelLaws (K : Type) `{Kernel K} := {
  k_clock : K -> Time;
  clock_positive k : 0 < k_clock k;
  now_clock k : (k_now k).2 = k_clock k /\ k_clock k <= k_clock (k_now k).1;
  timeout_clock k d : k_clock k <= k_clock (k_timeout k d).1;
  recv_clock k : k_clock k < k_clock (k_recv k).1
}.

Inductive DumpError :=
| socket_error
| bind_error
| send_error
| deadline_exceeded
| timeout_error
| receive_error
| parse_error (e : NetlinkError).

Section dump.
Context {K : Type} {Kernel_K : Kernel K} (order : byte_order).

(** The loop of receiveNetlinkDump; [None] when it runs out of fuel *)
Fixpoint receive_loop (fuel : nat) (k : K) (deadline : Time) (entries : list Entry) :
    K * option (result DumpError (list Entry)) :=
  match fuel with
  | O => (k, None)
  | S fuel' =>
      let '(k, t) := k_now k in
      let remaining := time_Sub deadline t in
      if remaining <=? 0 then (k, Some (Err deadline_exceeded))
      else
        let '(k, set) := k_timeout k remaining in
        if negb set then (k, Some (Err timeout_error))
        else
          let '(k, received) := k_recv k in
          match received with
          | EINTR => receive_loop fuel' k deadline entries
          | _ =>
              let '(k, t) := k_now k in
              if negb (time_Before t deadline) then (k, Some (Err deadline_exceeded))
              else
                match received with
                | Datagram data =>
                    match parseMessages order (take bufferSize data) with
                    | Err e => (k, Some (Err (parse_error e)))
                    | Ok (parsed, done) =>
                        let entries := entries ++ parsed in
                        if done : bool then (k, Some (Ok entries)) else receive_loop fuel' k deadline entries
                    end
                | _ => (k, Some (Err receive_error))
                end
          end
  end.

Definition receiveNetlinkDump (fuel : nat) (k : K) : K * option (result DumpError (list Entry)) :=
  let '(k, t) := k_now k in
  receive_loop fuel k (time_Add t netlinkDumpTimeout) [].

(** dumpNetlink: the deferred close runs on every return after the socket is
    open. *)
Definition dumpNetlink (fuel : nat) (k : K) : K * option (result DumpError (list Entry)) :=
  let '(k, opened) := k_socket k in
  if negb opened then (k, Some (Err socket_error))
  else
    let '(k, bound) := k_bind k in
    let '(k, r) :=
      if negb bound then (k, Some (Err bind_error))
      else
        let '(k, sent) := k_send k (dumpRequest order) in
        if negb sent then (k, Some (Err send_error)) else receiveNetlinkDump fuel k in
    (k_close k, r).

(** NewNetlinkResolver: the clock and the dump function of the resolver *)
Definition netlink_world (fuel : nat) : World K := {|
  world_now := k_now;
  world_dump k :=
    let '(k, r) := dumpNetlink fuel k in
    (k, match r with Some (Ok entries) => Some entries | _ => None end)
|}.

(** *** Specification *)

(** The datagrams the loop receives before the deadline, until one is the
    last: receives that are interrupted are made again. *)
Inductive received (deadline : Time) : K -> list (list byte) -> K -> Prop :=
| received_none k : received deadline k [] k
| received_eintr k k1 k2 k3 t ds k' :
    ds <> [] -> k_now k = (k1, t) -> t < deadline ->
    k_timeout k1 (time_Sub deadline t) = (k2, true) -> k_recv k2 = (k3, EINTR) ->
    received deadline k3 ds k' -> received deadline k ds k'
| received_datagram k k1 k2 k3 k4 t t' data ds k' :
    k_now k = (k1, t) -> t < deadline ->
    k_timeout k1 (time_Sub deadline t) = (k2, true) -> k_recv k2 = (k3, Datagram data) ->
    k_now k3 = (k4, t') -> t' < deadline ->
    received deadline k4 ds k' -> received deadline k (data :: ds) k'.

(** The datagrams are a whole dump of these entries: each parses, and the last
    one only has a DONE message. *)
Inductive whole_dump : list (list byte) -> list Entry -> Prop :=
| whole_last data entries :
    parseMessages order (take bufferSize data) = Ok (entries, true) -> whole_dump [data] entries
| whole_more data ds entries rest :
    parseMessages order (take bufferSize data) = Ok (entries, false) -> whole_dump ds rest ->
    whole_dump (data :: ds) (entries ++ rest).

(** A whole dump arrives within the timeout. *)
Definition answered (k : K) (entries : list Entry) : Prop :=
  exists ds k', received (time_Add (k_now k).2 netlinkDumpTimeout) (k_now k).1 ds k' /\ whole_dump ds entries.

(** The request is sent. *)
Definition asked (k k' : K) : Prop :=
  exists k1 k2, k_socket k = (k1, true) /\ k_bind k1 = (k2, true) /\ k_send k2 (dumpRequest order) = (k', true).

(** What the kernel sends for its connections, in as many datagrams as it
    takes, the last with a DONE message of status zero *)
Fixpoint kernel_datagrams (chunks : list (list RawEntry)) (final : list RawEntry) : list (list byte) :=
  match chunks with
  | [] => [dump order final ++ done_message order 0]
  | es :: chunks' => dump order es :: kernel_datagrams chunks' final
  end.

(** ** Lemmas *)

Lemma time_Sub_positive t u : (time_Sub t u <=? 0) = negb (u <? t).
Proof. unfold time_Sub, MinInt64, MaxInt64. destruct (Z.ltb_spec u t), (Z.leb_spec (Z.max (- 2 ^ 63) (Z.min (2 ^ 63 - 1) (t - u))) 0); cbn; lia. Qed.

(** What the loop returns is a whole dump. *)
Lemma receive_loop_sound fuel k deadline acc k' entries :
  receive_loop fuel k deadline acc = (k', Some (Ok entries)) ->
  exists ds new, received deadline k ds k' /\ whole_dump ds new /\ entries = acc ++ new.
Proof.
  revert k acc. induction fuel as [|fuel IH]; intros k acc; [done|]. cbn [receive_loop].
  destruct (k_now k) as [k1 t] eqn:E1. rewrite time_Sub_positive. destruct (Z.ltb_spec t deadline) as [Ht|]; cbn [negb]; [|done].
  destruct (k_timeout k1 _) as [k2 [|]] eqn:E2; cbn [negb]; [|done].
  destruct (k_recv k2) as [k3 [| |data]] eqn:E3.
  - intros (ds & new & Hr & Hw & He)%IH. exists ds, new.
    split_and!; [eapply received_eintr; try done; by destruct Hw|done|done].
  - destruct (k_now k3) as [k4 t']. by destruct (time_Before t' deadline).
  - destruct (k_now k3) as [k4 t'] eqn:E4. unfold time_Before. destruct (Z.ltb_spec t' deadline) as [Ht'|]; cbn [negb]; [|done].
    destruct (parseMessages _ _) as [[parsed [|]]|e] eqn:Ep; [| |done].
    + intros [= <- <-]. exists [data], parsed. split_and!; [|by apply whole_last|done].
      eapply received_datagram; try done. apply received_none.
    + intros (ds & new & Hr & Hw & ->)%IH. exists (data :: ds), (parsed ++ new).
      split_and!; [by eapply received_datagram|by apply whole_more|by rewrite app_assoc].
Qed.

(** Every whole dump that arrives in time is returned. *)
Lemma receive_loop_complete k deadline ds new k' :
  received deadline k ds k' -> whole_dump ds new ->
  exists fuel, forall acc, receive_loop fuel k deadline acc = (k', Some (Ok (acc ++ new))).
Proof.
  intros Hr. revert new.
  induction Hr as [k|k k1 k2 k3 t ds k' Hds E1 Ht E2 E3 _ IH|k k1 k2 k3 k4 t t' data ds k' E1 Ht E2 E3 E4 Ht' Hr IH];
    intros new Hw.
  - inversion Hw.
  - destruct (IH new Hw) as [fuel Hf]. exists (S fuel). intros acc. cbn [receive_loop].
    rewrite E1, time_Sub_positive, (proj2 (Z.ltb_lt _ _) Ht). cbn [negb]. rewrite E2. cbn [negb]. by rewrite E3.
  - assert (Hstep : forall fuel acc, receive_loop (S fuel) k deadline acc =
      match parseMessages order (take bufferSize data) with
      | Err e => (k4, Some (Err (parse_error e)))
      | Ok (parsed, done) => if done : bool then (k4, Some (Ok (acc ++ parsed))) else receive_loop fuel k4 deadline (acc ++ parsed)
      end).
    { intros fuel acc. cbn [receive_loop]. rewrite E1, time_Sub_positive, (proj2 (Z.ltb_lt _ _) Ht). cbn [negb].
      rewrite E2. cbn [negb]. rewrite E3, E4. unfold time_Before. by rewrite (proj2 (Z.ltb_lt _ _) Ht'). }
    inversion Hw as [d es Ep|d ds' es rest Ep Hw']; subst.
    + exists 1%nat. intros acc. rewrite Hstep, Ep. by inversion Hr.
    + destruct (IH rest Hw') as [fuel Hf]. exists (S fuel). intros acc. by rewrite Hstep, Ep, Hf, app_assoc.
Qed.

(** More fuel changes nothing. *)
Lemma receive_loop_mono fuel fuel' k deadline acc k' r :
  (fuel <= fuel')%nat -> receive_loop fuel k deadline acc = (k', Some r) -> receive_loop fuel' k deadline acc = (k', Some r).
Proof.
  revert fuel' k acc. induction fuel as [|fuel IH]; intros [|fuel'] k acc Hle; [done|done|lia|]. cbn [receive_loop].
  assert (Hle' : (fuel <= fuel')%nat) by lia.
  destruct (k_now k) as [k1 t]. destruct (_ <=? 0); [done|]. destruct (k_timeout k1 _) as [k2 [|]]; cbn [negb]; [|done].
  destruct (k_recv k2) as [k3 [| |data]]; [by apply IH|done|]. destruct (k_now k3) as [k4 t'].
  destruct (negb (time_Before _ _)); [done|]. destruct (parseMessages _ _) as [[parsed [|]]|e]; [done|by apply IH|done].
Qed.

(** The loop ends by its deadline. *)
Lemma receive_loop_returns {Laws : KernelLaws K} fuel k deadline acc :
  (Z.to_nat (deadline - k_clock k) < fuel)%nat -> exists k' r, receive_loop fuel k deadline acc = (k', Some r).
Proof.
  revert k acc. induction fuel as [|fuel IH]; intros k acc Hf; [lia|]. cbn [receive_loop].
  pose proof (now_clock k) as [N1 N2]. destruct (k_now k) as [k1 t]. cbn in N1, N2.
  rewrite time_Sub_positive. destruct (Z.ltb_spec t deadline) as [Ht|]; cbn [negb]; [|eauto].
  pose proof (timeout_clock k1 (time_Sub deadline t)) as N3.
  destruct (k_timeout k1 _) as [k2 [|]]; cbn [negb fst] in *; [|eauto].
  pose proof (recv_clock k2) as N4. destruct (k_recv k2) as [k3 received]. cbn in N4.
  pose proof (now_clock k3) as [N5 N6]. destruct (k_now k3) as [k4 t'] eqn:E4. cbn in N5, N6.
  destruct received as [| |data].
  - apply IH. lia.
  - destruct (negb _); eauto.
  - destruct (negb _); [eauto|]. destruct (parseMessages _ _) as [[parsed [|]]|e]; [eauto| |eauto]. apply IH. lia.
Qed.

(** Enough fuel for every dump *)
Definition dump_fuel : nat := S (Z.to_nat netlinkDumpTimeout).

Lemma receiveNetlinkDump_spec {Laws : KernelLaws K} fuel k :
  (dump_fuel <= fuel)%nat ->
  exists k' r, receiveNetlinkDump fuel k = (k', Some r) /\
    forall entries, r = Ok entries <-> answered k entries.
Proof.
  intros Hf. unfold receiveNetlinkDump. pose proof (now_clock k) as [N1 N2]. unfold answered.
  destruct (k_now k) as [k1 t]. cbn in N1, N2. cbn [fst snd].
  destruct (receive_loop_returns fuel k1 (time_Add t netlinkDumpTimeout) []) as (k' & r & E).
  { unfold time_Add. unfold dump_fuel in Hf. lia. }
  exists k', r. split; [done|]. intros entries. split.
  - intros ->. apply receive_loop_sound in E as (ds & new & Hr & Hw & ->). by exists ds, k'.
  - intros (ds & k'' & Hr & Hw). destruct (receive_loop_complete _ _ _ _ _ Hr Hw) as [n Hn]. specialize (Hn []).
    destruct (decide (n <= fuel)%nat) as [Hle|Hle].
    + rewrite (receive_loop_mono n fuel _ _ _ _ _ Hle Hn) in E. by injection E as <-.
    + rewrite (receive_loop_mono fuel n _ _ _ _ _ ltac:(lia) E) in Hn. by injection Hn as ->.
Qed.

Lemma kernel_datagrams_whole chunks final :
  Forall (fun es => Forall (entry_ok order) es) chunks -> Forall (entry_ok order) final ->
  Forall (fun data => (length data <= bufferSize)%nat) (kernel_datagrams chunks final) ->
  whole_dump (kernel_datagrams chunks final) (entry_of <$> concat chunks ++ final).
Proof.
  intros Hc Hf. induction Hc as [|es chunks He _ IH]; cbn [kernel_datagrams concat app]; intros [Hl Hls]%Forall_cons.
  - apply whole_last. rewrite take_ge by done.
    destruct (parseMessages_dump order final (done_message order 0) Hf) as [fuel ->].
    assert (exists f, S (length (done_message order 0) + fuel) = S (S f)) as [f ->].
    { exists (19 + fuel)%nat. unfold done_message. by rewrite length_message, length_order_bytes. }
    rewrite <- (app_nil_r (done_message order 0)). unfold done_message.
    rewrite parse_loop_message; [|done|done|done|by rewrite length_order_bytes]. cbn [negb]. simpl negb. cbv iota.
    assert (Hm : parse_message order nlmsgDone (order_bytes order 4 0) = Ok ([], true)) by by destruct order.
    rewrite Hm. cbn. by rewrite app_nil_r.
  - rewrite <- app_assoc, fmap_app. apply whole_more; [|by apply IH]. rewrite take_ge by done.
    destruct (parseMessages_dump order es [] He) as [fuel E]. rewrite app_nil_r in E. by rewrite E.
Qed.
End dump.

(** *** The resolver over the socket *)

Section provenance.
Context {W : Type} {World_W : World W}.

(** Every dump a resolver made is one of its world, at the time read just
    before. *)
Definition made (dump : dump_event) : Prop :=
  exists w w', world_now w = (w', dump.1) /\ (world_dump w').2 = dump.2.

Lemma dump_at_made (st : Conntrack.State W) w t :
  world_now w = (st_world st, t) -> Forall made (st_dumps st) -> Forall made (st_dumps (dump_at st t).1).
Proof.
  intros Hn H. unfold dump_at. destruct (world_dump (st_world st)) as [w' r] eqn:E.
  assert (Hm : made (t, r)) by (exists w, (st_world st); by rewrite E).
  destruct r; cbn; apply Forall_app; (split; [done|by constructor]).
Qed.

Lemma refreshLocked_made (st : Conntrack.State W) : Forall made (st_dumps st) -> Forall made (st_dumps (refreshLocked st)).
Proof.
  intros H. unfold refreshLocked, now. destruct (world_now (st_world st)) as [w t] eqn:E. cbn.
  destruct (_ && _); [done|]. by eapply dump_at_made.
Qed.

Lemma refreshOnMissLocked_made (st : Conntrack.State W) :
  Forall made (st_dumps st) -> Forall made (st_dumps (refreshOnMissLocked st).1).
Proof.
  intros H. unfold refreshOnMissLocked, now. destruct (world_now (st_world st)) as [w t] eqn:E. cbn.
  destruct (_ || _); [done|]. destruct (_ && _); [done|]. by eapply dump_at_made.
Qed.

Lemma ResolveAfter_made (st : Conntrack.State W) protocol source destination observedAt :
  Forall made (st_dumps st) -> Forall made (st_dumps (ResolveAfter st protocol source destination observedAt).1).
Proof.
  intros H. unfold ResolveAfter. destruct (protocolNumber protocol); [|done].
  apply refreshLocked_made in H. set (st1 := refreshLocked st) in *. clearbody st1.
  apply refreshOnMissLocked_made in H as H'. destruct (refreshOnMissLocked st1) as [st2 loaded]. cbn in H'.
  destruct (negb _ || _); cbn zeta.
  - destruct (if loaded then _ else _); [|done]. by destruct (time_Before _ _).
  - destruct (_ !! _); [|done]. by destruct (time_Before _ _).
Qed.

Lemma resolve_all_made (st : Conntrack.State W) queries :
  Forall made (st_dumps st) -> Forall made (st_dumps (resolve_all st queries)).
Proof.
  revert st. induction queries as [|[[[p s] d] o] queries IH]; intros st H; [done|]. by apply IH, ResolveAfter_made.
Qed.
End provenance.

Lemma dumpNetlink_spec {K} {Kernel_K : Kernel K} {Laws : KernelLaws K} order fuel (k : K) :
  (dump_fuel <= fuel)%nat ->
  exists k' r, dumpNetlink order fuel k = (k', Some r) /\
    (if (k_socket k).2 then exists k1, k' = k_close k1 else k' = (k_socket k).1) /\
    forall entries, r = Ok entries <-> exists k1, asked order k k1 /\ answered order k1 entries.
Proof.
  intros Hf. unfold dumpNetlink, asked. destruct (k_socket k) as [k1 [|]] eqn:E1; cbn [negb fst snd].
  2: { exists k1, (Err socket_error). split_and!; [done|done|]. intros entries. split; [done|]. intros (? & (? & ? & ? & _) & _). congruence. }
  destruct (k_bind k1) as [k2 [|]] eqn:E2; cbn [negb].
  2: { exists (k_close k2), (Err bind_error). split_and!; [done|by eexists|]. intros entries. split; [done|].
       intros (? & (? & ? & ? & ? & _) & _). congruence. }
  destruct (k_send k2 _) as [k3 [|]] eqn:E3; cbn [negb].
  2: { exists (k_close k3), (Err send_error). split_and!; [done|by eexists|]. intros entries. split; [done|].
       intros (? & (? & ? & ? & ? & ?) & _). congruence. }
  destruct (receiveNetlinkDump_spec order fuel k3 Hf) as (k' & r & -> & Hr).
  exists (k_close k'), r. split_and!; [done|by eexists|]. intros entries. rewrite Hr. split.
  - intros H. exists k3. split; [by exists k1, k2|done].
  - intros (k4 & (? & ? & ? & ? & ?) & Hans). congruence.
Qed.

(** ** Theorems *)

(** C29. A dump is exact, and ends. Whatever the kernel does, dumpNetlink
    returns, by the deadline of a second for receiving; if the socket was
    opened, its last act is to close it. It returns entries exactly when the
    request was sent and datagrams that make a whole dump, the last one only
    with a DONE message, all arrived before the deadline, and then it returns
    all their entries in order: never part of a dump. In particular it returns
    the connections the kernel dumps, in however many datagrams they fit. *)
Theorem dumpNetlink_exact {K} {Kernel_K : Kernel K} {Laws : KernelLaws K} order fuel (k : K) :
  (dump_fuel <= fuel)%nat ->
  exists k' r, dumpNetlink order fuel k = (k', Some r) /\
    (if (k_socket k).2 then exists k1, k' = k_close k1 else k' = (k_socket k).1) /\
    (forall entries, r = Ok entries <-> exists k1, asked order k k1 /\ answered order k1 entries) /\
    (forall chunks final k1 k2,
       Forall (fun es => Forall (entry_ok order) es) chunks -> Forall (entry_ok order) final ->
       Forall (fun data => (length data <= bufferSize)%nat) (kernel_datagrams order chunks final) ->
       asked order k k1 ->
       received (time_Add (k_now k1).2 netlinkDumpTimeout) (k_now k1).1 (kernel_datagrams order chunks final) k2 ->
       r = Ok (entry_of <$> concat chunks ++ final)).
Proof.
  intros Hf. destruct (dumpNetlink_spec order fuel k Hf) as (k' & r & E & Hc & Hr).
  exists k', r. split_and!; [done|done|done|]. intros chunks final k1 k2 H1 H2 H3 Ha Hrec.
  apply Hr. exists k1. split; [done|]. exists (kernel_datagrams order chunks final), k2.
  split; [done|by apply kernel_datagrams_whole].
Qed.

(** C28. The resolver of NewNetlinkResolver answers from a whole dump. After
    any lookups, an endpoint returned for a flow is the translation of a dump
    that was asked for no earlier than the caller's bound, and that arrived
    whole and in time. *)
Theorem netlink_resolve_fresh {K} {Kernel_K : Kernel K} {Laws : KernelLaws K} order fuel (k : K) ttl queries
    protocol source destination observedAt st' endpoint via :
  (dump_fuel <= fuel)%nat -> 0 <= observedAt ->
  @ResolveAfter K (netlink_world order fuel)
    (@resolve_all K (netlink_world order fuel) (mkState k (newResolver ttl) []) queries)
    protocol source destination observedAt = (st', Some (endpoint, via)) ->
  exists k1 k2 entries number,
    observedAt <= k_clock k1 /\ asked order k1 k2 /\ answered order k2 entries /\
    protocolNumber protocol = Some number /\ translated entries (key_of number source destination) endpoint.
Proof.
  intros Hf H0 E. pose (World_K := netlink_world order fuel).
  assert (HL : @WorldLaws K World_K).
  { split. intros w. cbn. pose proof (now_clock w) as [-> _]. apply clock_positive. }
  set (st := @resolve_all K (netlink_world order fuel) (mkState k (newResolver ttl) []) queries) in *.
  assert (I : @resolver_inv K st) by by apply resolve_all_inv.
  pose proof (@ResolveAfter_inv K World_K HL st protocol source destination observedAt I) as I'.
  assert (M : Forall made (st_dumps (ResolveAfter st protocol source destination observedAt).1)).
  { by apply ResolveAfter_made, resolve_all_made. }
  change (@ResolveAfter K World_K st protocol source destination observedAt = (st', Some (endpoint, via))) in E.
  rewrite E in I', M. cbn [fst] in I', M.
  destruct (@ResolveAfter_sound K World_K HL _ _ _ _ _ _ _ _ I H0 E) as (number & Hn & Ht & Hk).
  unfold resolver_inv in I'. destruct (last (st_dumps st')) as [[t [entries|]]|] eqn:El.
  - destruct I' as (Etab & Edump & _). rewrite Etab in Hk. apply buildTable_spec in Hk.
    apply last_Some in El as [dumps El]. rewrite El in M. apply Forall_app in M as [_ M].
    apply Forall_cons in M as [(w & w' & Ew & Ed) _]. cbn in Ew, Ed.
    destruct (dumpNetlink_spec order fuel w' Hf) as (k' & r & Er & _ & Hr). rewrite Er in Ed. cbn in Ed.
    destruct r as [es|]; [|done]. injection Ed as ->.
    destruct (proj1 (Hr entries) eq_refl) as (k2 & Ha & Hans).
    exists w', k2, entries, number. split_and!; [|done|done|done|done].
    pose proof (now_clock w) as [N1 N2]. rewrite Ew in N1, N2. cbn in N1, N2. lia.
  - destruct I' as [Etab _]. by rewrite Etab, lookup_empty in Hk.
  - destruct I' as [Etab _]. by rewrite Etab, lookup_empty in Hk.
Qed.

(** *** Witnesses *)

(** A kernel whose state is its clock: the first receive of a dump is
    interrupted, the second has one connection and the end of the dump. *)
Definition example_kernel : Kernel Z := {|
  k_now k := (k, unix_epoch + Z.abs k);
  k_socket k := (k, true);
  k_bind k := (k, true);
  k_send k _ := (k, true);
  k_timeout k _ := (k, true);
  k_recv k := (Z.abs k + 1, if Z.even k then EINTR else Datagram (dump BigEndian [example_entry] ++ done_message BigEndian 0));
  k_close k := k
|}.

Definition example_kernel_laws : @KernelLaws Z example_kernel.
Proof.
  refine {| k_clock k := unix_epoch + Z.abs k |}; cbn; unfold unix_epoch, Second; intros; try split; lia.
Defined.

Lemma example_dump n :
  (2 <= n)%nat -> @dumpNetlink Z example_kernel BigEndian n 0 = (2, Some (Ok [entry_of example_entry])).
Proof.
  intros Hn. unfold dumpNetlink, receiveNetlinkDump. cbn [k_socket k_bind k_send k_now example_kernel negb].
  rewrite (receive_loop_mono BigEndian 2 n 0 _ [] 2 (Ok [entry_of example_entry]) Hn); [done|]. vm_compute. reflexivity.
Qed.

Definition example_resolve (n : nat) : Conntrack.State Z * option (Endpoint * string) :=
  @ResolveAfter Z (@netlink_world Z example_kernel BigEndian n)
    (@resolve_all Z (@netlink_world Z example_kernel BigEndian n) (mkState 0 (newResolver Second) []) [])
    "tcp" (mkEndpoint "10.0.0.2" 40000) (mkEndpoint "10.96.0.1" 80) 7.

Lemma example_resolved n : (2 <= n)%nat -> (example_resolve n).2 = Some (mkEndpoint "10.0.0.9" 8080, Via).
Proof.
  intros Hn. unfold example_resolve, ResolveAfter. cbn [resolve_all].
  assert (E : @refreshLocked Z (@netlink_world Z example_kernel BigEndian n) (mkState 0 (newResolver Second) []) =
    mkState 2 (mkResolver Second 25000000 (unix_epoch + Second) unix_epoch (buildTable [entry_of example_entry]))
      [(unix_epoch, Some [entry_of example_entry])]).
  { unfold refreshLocked, now. cbn [world_now netlink_world st_world k_now example_kernel].
    unfold dump_at. cbn [world_dump netlink_world st_world st_resolver st_dumps newResolver rs_refreshAt time_IsZero negb andb fst].
    by rewrite example_dump. }
  rewrite E. vm_compute. reflexivity.
Qed.

Lemma dumpNetlink_exact_witness :
  exists k', @dumpNetlink Z example_kernel BigEndian dump_fuel 0 = (k', Some (Ok [entry_of example_entry])).
Proof.
  destruct (@dumpNetlink_exact Z example_kernel example_kernel_laws BigEndian dump_fuel 0 (le_n _)) as (k' & r & E & _ & _ & Hr).
  exists k'. rewrite E, (Hr [] [example_entry] 0 2); [reflexivity|constructor| | | |].
  - constructor; [|constructor]. unfold entry_ok, raw_ok, ignored, attribute_ok.
    split; [|split; [|split; [|split]]]; [simpl; lia..| | |].
    + by repeat constructor.
    + constructor; [|constructor]. split; by vm_compute.
    + by vm_compute.
  - constructor; [|constructor]. apply Nat.leb_le. vm_compute. reflexivity.
  - exists 0, 0. by split_and!.
  - eapply (received_eintr _ 0 0 0 1); [done|reflexivity|by vm_compute|reflexivity|reflexivity|].
    eapply (received_datagram _ 1 1 1 2 2); [reflexivity|by vm_compute|reflexivity|reflexivity|reflexivity|by vm_compute|].
    apply received_none.
Defined.

Lemma netlink_resolve_fresh_witness :
  exists entries number,
    (example_resolve dump_fuel).2 = Some (mkEndpoint "10.0.0.9" 8080, Via) /\
    translated entries (key_of number (mkEndpoint "10.0.0.2" 40000) (mkEndpoint "10.96.0.1" 80)) (mkEndpoint "10.0.0.9" 8080).
Proof.
  assert (Hf : (2 <= dump_fuel)%nat) by (unfold dump_fuel, netlinkDumpTimeout, Second; lia).
  pose proof (example_resolved dump_fuel Hf) as Er.
  destruct (@netlink_resolve_fresh Z example_kernel example_kernel_laws BigEndian dump_fuel 0 Second []
    "tcp" (mkEndpoint "10.0.0.2" 40000) (mkEndpoint "10.96.0.1" 80) 7 (example_resolve dump_fuel).1
    (mkEndpoint "10.0.0.9" 8080) Via (le_n _) ltac:(lia)) as (k1 & k2 & entries & number & _ & _ & _ & _ & Ht).
  { rewrite <- Er. apply surjective_pairing. }
  exists entries, number. split; [exact Er|exact Ht].
Defined.
