(* ===== verification/Http1.v ===== *)
(** * internal/l7: HTTP/1 request and status lines

    parseHTTP1Request, parseHTTP1Response, containsPipelinedHTTP1Request and
    firstLine of correlator.go, on payloads as lists of bytes. *)

From S2P Require Import Prelude Text.

#[local] Open Scope nat_scope.

(** ** Definitions *)

Definition CRLF : list byte := [byte_of 13; byte_of 10].
Definition space : byte := byte_of 32.
Definition question_mark : byte := byte_of 63.
Definition slash : byte := byte_of 47.

Definition firstLine (payload : list byte) : list byte :=
  match bytes_index payload CRLF with
  | Some end_ => take end_ payload
  | None => payload
  end.

Definition http_methods : list string :=
  ["GET"; "POST"; "PUT"; "DELETE"; "HEAD"; "OPTIONS"; "PATCH"; "TRACE"; "CONNECT"].

Definition isHTTPMethod (method : list byte) : bool :=
  bool_decide (method ∈ lit <$> http_methods).

(** path[:query] when there is one *)
Definition drop_query (path : list byte) : list byte :=
  match cut_byte question_mark path with
  | Some (before, _) => before
  | None => path
  end.

(** path[:maxPathBytes] when it is longer *)
Definition truncate_path (maxPathBytes : nat) (path : list byte) : list byte :=
  if maxPathBytes <? length path then take maxPathBytes path else path.

Definition parseHTTP1Request (payload : list byte) (maxPathBytes : nat) :
    option (list byte * list byte) :=
  match split_three space (firstLine payload) with
  | [method; target; version] =>
      if negb (has_prefix version (lit "HTTP/1.")) || negb (isHTTPMethod method) then None
      else
        let path := drop_query target in
        match path with
        | [] => None
        | first :: _ =>
            if negb (bool_decide (first = slash)) then None
            else Some (method, truncate_path maxPathBytes path)
        end
  | _ => None
  end.

Definition containsPipelinedHTTP1Request (payload : list byte) (maxPathBytes : nat) : bool :=
  match bytes_index payload (CRLF ++ CRLF) with
  | None => false
  | Some firstHeaderEnd =>
      match parseHTTP1Request (drop (firstHeaderEnd + 4) payload) maxPathBytes with
      | Some _ => true
      | None => false
      end
  end.

Definition parseHTTP1Response (payload : list byte) : option Z :=
  match split_three space (firstLine payload) with
  | version :: code :: _ =>
      if negb (has_prefix version (lit "HTTP/1.")) || negb (length code =? 3) then None
      else match ParseUint10 16 code with
           | None => None
           | Some status => if (status <? 100)%Z || (599 <? status)%Z then None else Some status
           end
  | _ => None
  end.

(** *** Specification *)

(** A request line whose target is a path and maybe a query *)
Definition request_line (method path query version line : list byte) : Prop :=
  line = method ++ space :: (path ++ query) ++ space :: version /\
  method ∈ lit <$> http_methods /\
  (exists rest, path = slash :: rest) /\ question_mark ∉ path /\
  (query = [] \/ exists q, query = question_mark :: q) /\
  space ∉ path ++ query /\
  has_prefix version (lit "HTTP/1.") = true.

(** ** Lemmas *)

Lemma methods_no_space m : m ∈ lit <$> http_methods -> space ∉ m.
Proof.
  intros Hm. assert (HF : Forall (fun m => bool_decide (space ∈ m) = false) (lit <$> http_methods))
    by (repeat constructor).
  rewrite Forall_forall in HF. specialize (HF m Hm). by apply bool_decide_eq_false in HF.
Qed.

Lemma split_three_3 sep l x y z :
  split_three sep l = [x; y; z] <-> l = x ++ sep :: y ++ sep :: z /\ sep ∉ x /\ sep ∉ y.
Proof.
  unfold split_three. split.
  - destruct (cut_byte sep l) as [[x' r]|] eqn:E; [|done].
    destruct (cut_byte sep r) as [[y' z']|] eqn:E2; [|done]. intros [= -> -> ->].
    apply cut_byte_Some in E as [-> ?]. by apply cut_byte_Some in E2 as [-> ?].
  - intros (-> & ? & ?). by rewrite !cut_byte_app.
Qed.

Lemma drop_query_spec target :
  exists query, target = drop_query target ++ query /\ question_mark ∉ drop_query target /\
    (query = [] \/ exists q, query = question_mark :: q).
Proof.
  unfold drop_query. destruct (cut_byte question_mark target) as [[x y]|] eqn:E.
  - apply cut_byte_Some in E as [-> ?]. exists (question_mark :: y). eauto.
  - apply cut_byte_None in E. exists []. rewrite app_nil_r. auto.
Qed.

Lemma drop_query_app path query :
  question_mark ∉ path -> query = [] \/ (exists q, query = question_mark :: q) ->
  drop_query (path ++ query) = path.
Proof.
  intros Hp [->|[q ->]]; unfold drop_query; [|by rewrite cut_byte_app].
  rewrite app_nil_r. by rewrite (proj2 (cut_byte_None _ _) Hp).
Qed.

Lemma length_truncate_path n path : length (truncate_path n path) <= n.
Proof.
  unfold truncate_path. destruct (Nat.ltb_spec n (length path)); [|done].
  rewrite length_take. lia.
Qed.

Lemma truncate_path_take n path : truncate_path n path = take n path.
Proof. unfold truncate_path. destruct (Nat.ltb_spec n (length path)); [done|]. by rewrite take_ge. Qed.

Lemma parseHTTP1Request_Some payload n method path :
  parseHTTP1Request payload n = Some (method, path) <->
  exists full query version,
    request_line method full query version (firstLine payload) /\ path = take n full.
Proof.
  unfold parseHTTP1Request, request_line. split.
  - destruct (split_three space (firstLine payload)) as [|m [|t [|v [|]]]] eqn:E; try done.
    apply split_three_3 in E as (E & Hm & Ht).
    destruct (has_prefix v (lit "HTTP/1.")) eqn:Hv; [|done].
    destruct (isHTTPMethod m) eqn:Hmm; [|done]. cbn [negb orb]. apply bool_decide_eq_true in Hmm.
    destruct (drop_query_spec t) as (q & Et & Hq & Hquery).
    destruct (drop_query t) as [|b rest] eqn:Ed; [done|].
    case_bool_decide as Hb; [|done]. intros [= <- <-]. subst b.
    exists (slash :: rest), q, v. rewrite <- Et, truncate_path_take. split_and!; eauto.
  - intros (full & query & version & (E & Hm & [rest Hr] & Hq & Hquery & Hs & Hv) & ->).
    rewrite (proj2 (split_three_3 space (firstLine payload) method (full ++ query) version)).
    2: { split_and!; [done|by apply methods_no_space|done]. }
    rewrite Hv. unfold isHTTPMethod. rewrite bool_decide_true by done. cbn [negb orb].
    rewrite drop_query_app by done. subst full. rewrite bool_decide_true by done.
    by rewrite truncate_path_take.
Qed.

(** ** Theorems *)

(** An HTTP/1 request is recognised exactly: the first line is one of
    the nine methods, a target that starts with a slash and a 1.x version,
    one space apart; the path reported is the target up to its query, cut to
    the configured length, so no query string is ever reported. *)
Theorem parseHTTP1Request_exact payload maxPathBytes :
  (forall method path, parseHTTP1Request payload maxPathBytes = Some (method, path) <->
    exists full query version,
      request_line method full query version (firstLine payload) /\
      path = take maxPathBytes full) /\
  (forall method path, parseHTTP1Request payload maxPathBytes = Some (method, path) ->
    question_mark ∉ path /\ space ∉ path /\ length path <= maxPathBytes).
Proof.
  split; [intros; apply parseHTTP1Request_Some|].
  intros method path (full & query & version & (_ & _ & _ & Hq & _ & Hs & _) & ->)%parseHTTP1Request_Some.
  assert (Hin : forall b, b ∈ take maxPathBytes full -> b ∈ full).
  { intros b Hb. rewrite <- (take_drop maxPathBytes full). set_solver. }
  split_and!; [set_solver|set_solver|rewrite length_take; lia].
Qed.
