(* ===== verification/L7Types.v ===== *)
(** * internal/l7: fragments, transactions, drops and keys

    The data of correlator.go and http2.go that the HTTP/1 and HTTP/2 halves
    share. Pointers to identities are options; values are immutable here, so
    the copies identityFrom and snapshotPod make are the values themselves. *)

From S2P Require Import Prelude Flow.

#[local] Open Scope Z_scope.

(** ** Definitions *)

Definition SchemaVersion : string := "network.l7/v1alpha1".
Definition ProtocolHTTP1 : string := "http1".
Definition ProtocolHTTP2 : string := "http2".
Definition BoundaryResponseHeaders : string := "request_to_response_headers".
Definition BoundaryResponseStatus : string := "request_to_response_status".
Definition DropOverlappingRequest : string := "overlapping_request".
Definition DropProtocolUpgrade : string := "protocol_upgrade".
Definition DropResponseTimeout : string := "response_timeout".
Definition DropStateCapacity : string := "state_capacity".
Definition DropInvalidHTTP2 : string := "invalid_http2".
Definition DropHTTP2HeaderBlockTooLarge : string := "http2_header_block_too_large".
Definition DropHTTP2StreamDesync : string := "http2_stream_desync".
Definition DropInvalidLatency : string := "invalid_latency".
Definition SourceKernelPlaintext : string := "kernel_plaintext".
Definition SourceOpenSSL : string := "openssl".

Record Fragment := mkFragment {
  fr_ObservedAt : Time;
  fr_KernelTimestampNS : Z;
  fr_NodeName : string;
  fr_ObserverPID : Z;
  fr_Source : string;
  fr_SourceEndpoint : Endpoint;
  fr_DestinationEndpoint : Endpoint;
  fr_TotalLength : Z;
  fr_Payload : list byte;
  fr_TCPSequence : Z;
  fr_Process : option Process;
  fr_SourceResolved : option ResolvedEndpoint;
  fr_DestinationResolved : option ResolvedEndpoint;
  fr_SourcePod : option Pod;
  fr_DestinationPod : option Pod;
  fr_ObserverPod : option Pod
}.

Record Transaction := mkTransaction {
  tx_SchemaVersion : string;
  tx_ObservedAt : Time;
  tx_Flow : FlowKey;
  tx_ObserverPID : Z;
  tx_Protocol : string;
  tx_Source : string;
  tx_Method : list byte;
  tx_Path : list byte;
  tx_StatusCode : Z;
  tx_StreamID : Z;
  tx_ResponseLatencyMicros : Z;
  tx_LatencyBoundary : string;
  tx_Process : option Process;
  tx_SourceResolved : option ResolvedEndpoint;
  tx_DestinationResolved : option ResolvedEndpoint;
  tx_SourcePod : option Pod;
  tx_DestinationPod : option Pod;
  tx_ObserverPod : option Pod
}.

Record Drop := mkDrop {
  dr_SchemaVersion : string;
  dr_ObservedAt : Time;
  dr_NodeName : string;
  dr_ObserverPID : Z;
  dr_Protocol : string;
  dr_Source : string;
  dr_Outcome : string;
  dr_Reason : string;
  dr_Count : Z
}.

(** Output: one of its two pointers is set. *)
Inductive Output :=
| OutTransaction (t : Transaction)
| OutDrop (d : Drop).

Definition newDrop (fragment : Fragment) (protocol reason : string) : Drop :=
  mkDrop SchemaVersion (fr_ObservedAt fragment) (fr_NodeName fragment) (fr_ObserverPID fragment)
    protocol (fr_Source fragment) "drop" reason 1.

Record connectionKey := mkConnectionKey {
  ck_NodeName : string;
  ck_ObserverPID : Z;
  ck_Source : string;
  ck_Client : Endpoint;
  ck_Server : Endpoint
}.

Record transportKey := mkTransportKey {
  tk_NodeName : string;
  tk_ObserverPID : Z;
  tk_Source : string;
  tk_Low : Endpoint;
  tk_High : Endpoint
}.

Record directionKey := mkDirectionKey {
  dk_Transport : transportKey;
  dk_From : Endpoint;
  dk_To : Endpoint
}.

Record http2StreamKey := mkStreamKey {
  sk_Connection : connectionKey;
  sk_StreamID : Z
}.

#[export] Instance connectionKey_eq_dec : EqDecision connectionKey.
Proof. solve_decision. Defined.
#[export] Instance transportKey_eq_dec : EqDecision transportKey.
Proof. solve_decision. Defined.
#[export] Instance directionKey_eq_dec : EqDecision directionKey.
Proof. solve_decision. Defined.
#[export] Instance http2StreamKey_eq_dec : EqDecision http2StreamKey.
Proof. solve_decision. Defined.

#[export] Instance connectionKey_countable : Countable connectionKey.
Proof.
  refine (inj_countable' (fun k => (ck_NodeName k, ck_ObserverPID k, ck_Source k, ck_Client k, ck_Server k))
    (fun '(a, b, c, d, e) => mkConnectionKey a b c d e) _).
  by intros [].
Defined.

#[export] Instance transportKey_countable : Countable transportKey.
Proof.
  refine (inj_countable' (fun k => (tk_NodeName k, tk_ObserverPID k, tk_Source k, tk_Low k, tk_High k))
    (fun '(a, b, c, d, e) => mkTransportKey a b c d e) _).
  by intros [].
Defined.

#[export] Instance directionKey_countable : Countable directionKey.
Proof.
  refine (inj_countable' (fun k => (dk_Transport k, dk_From k, dk_To k))
    (fun '(a, b, c) => mkDirectionKey a b c) _).
  by intros [].
Defined.

#[export] Instance http2StreamKey_countable : Countable http2StreamKey.
Proof.
  refine (inj_countable' (fun k => (sk_Connection k, sk_StreamID k))
    (fun '(a, b) => mkStreamKey a b) _).
  by intros [].
Defined.

Record observationIdentity := mkIdentity {
  oi_process : option Process;
  oi_source : option ResolvedEndpoint;
  oi_destination : option ResolvedEndpoint;
  oi_sourcePod : option Pod;
  oi_destinationPod : option Pod;
  oi_observerPod : option Pod
}.

Definition zeroIdentity : observationIdentity := mkIdentity None None None None None None.

Definition identityFrom (fragment : Fragment) : observationIdentity :=
  mkIdentity (without_cmdline <$> fr_Process fragment) (fr_SourceResolved fragment)
    (fr_DestinationResolved fragment) (fr_SourcePod fragment) (fr_DestinationPod fragment)
    (fr_ObserverPod fragment).

(** endpointLess, of http2.go and of collector/event.go *)
Definition endpointLess (left right : Endpoint) : bool :=
  if negb (bool_decide (ep_Address left = ep_Address right))
  then gocmp (ep_Address left) (ep_Address right) <? 0
  else ep_Port left <? ep_Port right.

Definition makeTransportKey (fragment : Fragment) : transportKey :=
  let low := fr_SourceEndpoint fragment in
  let high := fr_DestinationEndpoint fragment in
  let '(low, high) := if endpointLess high low then (high, low) else (low, high) in
  mkTransportKey (fr_NodeName fragment) (fr_ObserverPID fragment) (fr_Source fragment) low high.

Definition fragmentTimestampNS (fragment : Fragment) : Z :=
  if negb (fr_KernelTimestampNS fragment =? 0) then fr_KernelTimestampNS fragment
  else if time_IsZero (fr_ObservedAt fragment) then 0
  else u64 (time_UnixNano (fr_ObservedAt fragment)).

Definition newConnectionDrop (observedAt : Time) (key : connectionKey) (protocol reason : string) :
    Drop :=
  mkDrop SchemaVersion observedAt (ck_NodeName key) (ck_ObserverPID key) protocol (ck_Source key)
    "drop" reason 1.

(** ** Lemmas *)

Lemma endpointLess_asym x y : endpointLess x y = true -> endpointLess y x = false.
Proof.
  unfold endpointLess. destruct (decide (ep_Address x = ep_Address y)) as [E|E].
  - rewrite !bool_decide_true by done. simpl. rewrite Z.ltb_lt, Z.ltb_ge. lia.
  - rewrite !bool_decide_false by congruence. simpl.
    rewrite Z.ltb_lt, Z.ltb_ge, (gocmp_opp (ep_Address x)). lia.
Qed.

Lemma endpointLess_total x y : endpointLess x y = false -> endpointLess y x = false -> x = y.
Proof.
  unfold endpointLess. destruct x as [a p], y as [b q]. simpl.
  destruct (decide (a = b)) as [->|E].
  - rewrite !bool_decide_true by done. simpl. rewrite !Z.ltb_ge. intros. f_equal. lia.
  - rewrite !bool_decide_false by congruence. simpl. rewrite !Z.ltb_ge, (gocmp_opp a).
    intros. destruct E. apply gocmp_0. lia.
Qed.

(** The two directions of a connection have the same transport key. *)
Lemma ordered_pair_comm x y :
  (if endpointLess y x then (y, x) else (x, y)) = (if endpointLess x y then (x, y) else (y, x)).
Proof.
  destruct (endpointLess y x) eqn:E1, (endpointLess x y) eqn:E2; try done.
  - by rewrite (endpointLess_asym _ _ E1) in E2.
  - by rewrite (endpointLess_total x y).
Qed.
