(* ===== verification/Http2.v ===== *)
(** * internal/l7: the HTTP/2 frame reader of one direction

    http2DirectionState of http2.go. The HPACK decoder is golang.org/x/net's:
    a parameter with a state of its own, which DecodeFull advances. *)

From S2P Require Import Prelude Flow Text Http1 L7Types.

#[local] Open Scope Z_scope.

(** ** Definitions *)

Definition http2FrameHeaders : Z := 0x1.
Definition http2FrameContinuation : Z := 0x9.
Definition http2FlagEndHeaders : Z := 0x4.
Definition http2FlagPadded : Z := 0x8.
Definition http2FlagPriority : Z := 0x20.
Definition defaultMaxHTTP2BufferedBytes : Z := 65536.
Definition defaultMaxHTTP2HeaderBlock : Z := 16384.
Definition defaultMaxHTTP2DynamicTable : Z := 4096.

(** The errors of feed, by the drop reason their text begins with;
    [out_of_fuel] is the model's own and does not occur. *)
Inductive FrameError := invalid_http2 | header_block_too_large | out_of_fuel.

Definition HeaderField : Type := list byte * list byte.

(** hpack.NewDecoder and DecodeFull: the fields, or [None] on an error *)
Class Hpack (D : Type) := {
  NewDecoder : Z -> D;
  DecodeFull : D -> list byte -> D * option (list HeaderField)
}.

Record http2HeaderBlock := mkHeaderBlock {
  hb_streamID : Z;
  hb_startedNS : Z;
  hb_fields : list HeaderField;
  hb_identity : observationIdentity
}.

Record http2DirectionState (D : Type) := mkDirection {
  ds_buffer : list byte;
  ds_bufferStartedNS : Z;
  ds_bufferIdentity : observationIdentity;
  ds_lastSeenNS : Z;
  ds_poisoned : bool;
  ds_continuationStream : Z;
  ds_continuationStarted : Z;
  ds_continuationIdentity : observationIdentity;
  ds_continuationBlock : list byte;
  ds_decoder : D;
  ds_maxBufferedBytes : Z;
  ds_maxHeaderBlockBytes : Z
}.

Arguments mkDirection {D}.
Arguments ds_buffer {D}.
Arguments ds_bufferStartedNS {D}.
Arguments ds_bufferIdentity {D}.
Arguments ds_lastSeenNS {D}.
Arguments ds_poisoned {D}.
Arguments ds_continuationStream {D}.
Arguments ds_continuationStarted {D}.
Arguments ds_continuationIdentity {D}.
Arguments ds_continuationBlock {D}.
Arguments ds_decoder {D}.
Arguments ds_maxBufferedBytes {D}.
Arguments ds_maxHeaderBlockBytes {D}.

(** A flag of a frame header *)
Definition has_flag (flags flag : Z) : bool := negb (Z.land flags flag =? 0).

Definition http2HeadersFragment (payload : list byte) (flags : Z) : option (list byte) :=
  payload ←
    (if has_flag flags http2FlagPadded then
       match payload with
       | [] => None
       | first :: payload =>
           let padding := Z.to_nat (byte_val first) in
           if (length payload <? padding)%nat then None
           else Some (take (length payload - padding) payload)
       end
     else Some payload);
  if has_flag flags http2FlagPriority then
    if (length payload <? 5)%nat then None else Some (drop 5 payload)
  else Some payload.

(** The loop over the fields: the last pseudo-header of each name counts. *)
Definition http2_field (acc : list byte * list byte * Z) (field : HeaderField) :
    list byte * list byte * Z :=
  let '(method, path, status) := acc in
  if bool_decide (field.1 = lit ":method") then (field.2, path, status)
  else if bool_decide (field.1 = lit ":path") then (method, field.2, status)
  else if bool_decide (field.1 = lit ":status") then
    match ParseUint10 16 field.2 with
    | Some parsed => if (100 <=? parsed) && (parsed <=? 599) then (method, path, parsed) else acc
    | None => acc
    end
  else acc.

(** http2Identity; [None] when its ok is false *)
Definition http2Identity (fields : list HeaderField) (maxPathBytes : nat) :
    option (list byte * list byte * Z) :=
  let '(method, path, status) := foldl http2_field ([], [], 0) fields in
  let path := truncate_path maxPathBytes (drop_query path) in
  if (negb (bool_decide (method = [])) && negb (bool_decide (path = []))) || negb (status =? 0)
  then Some (method, path, status) else None.

Section direction.
Context {D : Type} {H : Hpack D}.
Implicit Types (state : http2DirectionState D).

Definition newHTTP2DirectionState (maxBufferedBytes maxHeaderBlockBytes : Z) : http2DirectionState D :=
  mkDirection [] 0 zeroIdentity 0 false 0 0 zeroIdentity []
    (NewDecoder defaultMaxHTTP2DynamicTable) maxBufferedBytes maxHeaderBlockBytes.

Definition set_buffer (buffer : list byte) (started : Z) (identity : observationIdentity) state :=
  mkDirection buffer started identity (ds_lastSeenNS state) (ds_poisoned state)
    (ds_continuationStream state) (ds_continuationStarted state) (ds_continuationIdentity state)
    (ds_continuationBlock state) (ds_decoder state) (ds_maxBufferedBytes state)
    (ds_maxHeaderBlockBytes state).

Definition set_continuation (stream started : Z) (identity : observationIdentity)
    (block : list byte) state :=
  mkDirection (ds_buffer state) (ds_bufferStartedNS state) (ds_bufferIdentity state)
    (ds_lastSeenNS state) (ds_poisoned state) stream started identity block
    (ds_decoder state) (ds_maxBufferedBytes state) (ds_maxHeaderBlockBytes state).

Definition set_decoder (decoder : D) state :=
  mkDirection (ds_buffer state) (ds_bufferStartedNS state) (ds_bufferIdentity state)
    (ds_lastSeenNS state) (ds_poisoned state) (ds_continuationStream state)
    (ds_continuationStarted state) (ds_continuationIdentity state) (ds_continuationBlock state)
    decoder (ds_maxBufferedBytes state) (ds_maxHeaderBlockBytes state).

Definition set_lastSeen (lastSeenNS : Z) state :=
  mkDirection (ds_buffer state) (ds_bufferStartedNS state) (ds_bufferIdentity state)
    lastSeenNS (ds_poisoned state) (ds_continuationStream state)
    (ds_continuationStarted state) (ds_continuationIdentity state) (ds_continuationBlock state)
    (ds_decoder state) (ds_maxBufferedBytes state) (ds_maxHeaderBlockBytes state).

Definition set_poisoned state :=
  mkDirection (ds_buffer state) (ds_bufferStartedNS state) (ds_bufferIdentity state)
    (ds_lastSeenNS state) true (ds_continuationStream state)
    (ds_continuationStarted state) (ds_continuationIdentity state) (ds_continuationBlock state)
    (ds_decoder state) (ds_maxBufferedBytes state) (ds_maxHeaderBlockBytes state).

Definition resetHeaderBlock state := set_continuation 0 0 zeroIdentity [] state.
Definition resetFrameState state := resetHeaderBlock (set_buffer [] 0 zeroIdentity state).
Definition poison state := resetFrameState (set_poisoned state).

(** The HEADERS case of the switch: the state, the block it completes, and an
    error, which ends feed. *)
Definition headers_frame state (flags streamID : Z) (framePayload : list byte) (frameStartedNS : Z)
    (frameIdentity : observationIdentity) :
    http2DirectionState D * list http2HeaderBlock * option FrameError :=
  if (streamID =? 0) || negb (ds_continuationStream state =? 0)
  then (resetHeaderBlock state, [], Some invalid_http2)
  else
    match http2HeadersFragment framePayload flags with
    | None => (state, [], Some invalid_http2)
    | Some fragment =>
        if ds_maxHeaderBlockBytes state <? Z.of_nat (length fragment)
        then (state, [], Some header_block_too_large)
        else if has_flag flags http2FlagEndHeaders then
          let '(decoder, fields) := DecodeFull (ds_decoder state) fragment in
          let state := set_decoder decoder state in
          match fields with
          | None => (state, [], Some invalid_http2)
          | Some fields =>
              (state, [mkHeaderBlock streamID frameStartedNS fields frameIdentity], None)
          end
        else (set_continuation streamID frameStartedNS frameIdentity fragment state, [], None)
    end.

(** The CONTINUATION case *)
Definition continuation_frame state (flags streamID : Z) (framePayload : list byte) :
    http2DirectionState D * list http2HeaderBlock * option FrameError :=
  if (streamID =? 0) || negb (streamID =? ds_continuationStream state)
  then (resetHeaderBlock state, [], Some invalid_http2)
  else if ds_maxHeaderBlockBytes state <?
          Z.of_nat (length (ds_continuationBlock state) + length framePayload)
  then (resetHeaderBlock state, [], Some header_block_too_large)
  else
    let block := ds_continuationBlock state ++ framePayload in
    let state := set_continuation (ds_continuationStream state) (ds_continuationStarted state)
                   (ds_continuationIdentity state) block state in
    if negb (has_flag flags http2FlagEndHeaders) then (state, [], None)
    else
      let '(decoder, fields) := DecodeFull (ds_decoder state) block in
      let state := set_decoder decoder state in
      match fields with
      | None => (resetHeaderBlock state, [], Some invalid_http2)
      | Some fields =>
          (resetHeaderBlock state,
           [mkHeaderBlock streamID (ds_continuationStarted state) fields
              (ds_continuationIdentity state)], None)
      end.

(** The switch on the frame type: other frames are skipped. *)
Definition dispatch_frame state (frameType flags streamID : Z) (framePayload : list byte)
    (frameStartedNS : Z) (frameIdentity : observationIdentity) :
    http2DirectionState D * list http2HeaderBlock * option FrameError :=
  if frameType =? http2FrameHeaders
  then headers_frame state flags streamID framePayload frameStartedNS frameIdentity
  else if frameType =? http2FrameContinuation
  then continuation_frame state flags streamID framePayload
  else (state, [], None).

(** The length of the first frame's payload: the first three bytes *)
Definition frame_length (buffer : list byte) : nat := Z.to_nat (be_uint (take 3 buffer)).

(** Taking the first frame out of the buffer: what remains came with the
    current fragment. *)
Definition consume_frame state (length_ : nat) (timestampNS : Z) (observation : Fragment) :
    http2DirectionState D :=
  let buffer := drop (9 + length_) (ds_buffer state) in
  match buffer with
  | [] => set_buffer [] 0 zeroIdentity state
  | _ => set_buffer buffer timestampNS (identityFrom observation) state
  end.

(** The loop of feed. Every iteration that continues consumes a frame of at
    least nine bytes. *)
Fixpoint feed_loop (fuel : nat) state (timestampNS : Z) (observation : Fragment)
    (blocks : list http2HeaderBlock) :
    http2DirectionState D * list http2HeaderBlock * option FrameError :=
  match fuel with
  | O => (state, blocks, Some out_of_fuel)
  | S fuel' =>
      let buffer := ds_buffer state in
      if (length buffer <? 9)%nat then (state, blocks, None)
      else
        let length_ := frame_length buffer in
        if ds_maxBufferedBytes state <? Z.of_nat length_
        then (resetFrameState state, blocks, Some invalid_http2)
        else if (length buffer <? 9 + length_)%nat then (state, blocks, None)
        else
          let frameType := byte_val (buffer !!! 3%nat) in
          let flags := byte_val (buffer !!! 4%nat) in
          let streamID := Z.land (be_uint (slice buffer 5 9)) 0x7fffffff in
          let framePayload := slice buffer 9 (9 + length_) in
          let frameStartedNS := ds_bufferStartedNS state in
          let frameIdentity := ds_bufferIdentity state in
          let '(state, new, err) :=
            dispatch_frame (consume_frame state length_ timestampNS observation)
              frameType flags streamID framePayload frameStartedNS frameIdentity in
          match err with
          | Some e => (state, blocks ++ new, Some e)
          | None => feed_loop fuel' state timestampNS observation (blocks ++ new)
          end
  end.

(** Appending the payload of a fragment to the buffer *)
Definition append_payload (payload : list byte) (timestampNS : Z) (observation : Fragment) state :
    http2DirectionState D :=
  match ds_buffer state, payload with
  | [], _ :: _ => set_buffer payload timestampNS (identityFrom observation) state
  | buffer, _ => set_buffer (buffer ++ payload) (ds_bufferStartedNS state) (ds_bufferIdentity state) state
  end.

(** A bound on the frames of a buffer *)
Definition feed_fuel state : nat := S (length (ds_buffer state)).

Definition feed state (payload : list byte) (timestampNS : Z) (observation : Fragment) :
    http2DirectionState D * list http2HeaderBlock * option FrameError :=
  let state := set_lastSeen timestampNS state in
  if ds_maxBufferedBytes state <? Z.of_nat (length (ds_buffer state) + length payload)
  then (resetFrameState state, [], Some invalid_http2)
  else
    let state := append_payload payload timestampNS observation state in
    feed_loop (feed_fuel state) state timestampNS observation [].

(** *** The invariant of a direction *)

(** A header block is kept only while it is being continued, and is bounded. *)
Definition block_inv state : Prop :=
  Z.of_nat (length (ds_continuationBlock state)) <= ds_maxHeaderBlockBytes state /\
  (ds_continuationStream state = 0 -> ds_continuationBlock state = []) /\
  0 <= ds_maxHeaderBlockBytes state.

Definition direction_inv state : Prop :=
  Z.of_nat (length (ds_buffer state)) <= ds_maxBufferedBytes state /\ block_inv state.

(** ** Lemmas *)

(** *** The switch does not look at the buffer *)

Lemma dispatch_set_buffer b t i state frameType flags streamID payload started identity :
  dispatch_frame (set_buffer b t i state) frameType flags streamID payload started identity =
    let '(state', new, err) := dispatch_frame state frameType flags streamID payload started identity in
    (set_buffer b t i state', new, err).
Proof.
  unfold dispatch_frame, headers_frame, continuation_frame. simpl.
  repeat (case_match; try done).
Qed.

Lemma dispatch_keeps state frameType flags streamID payload started identity :
  let '(state', _, _) := dispatch_frame state frameType flags streamID payload started identity in
  ds_buffer state' = ds_buffer state /\
  ds_bufferStartedNS state' = ds_bufferStartedNS state /\
  ds_bufferIdentity state' = ds_bufferIdentity state /\
  ds_maxBufferedBytes state' = ds_maxBufferedBytes state /\
  ds_maxHeaderBlockBytes state' = ds_maxHeaderBlockBytes state /\
  ds_lastSeenNS state' = ds_lastSeenNS state.
Proof.
  unfold dispatch_frame, headers_frame, continuation_frame.
  repeat (case_match; simplify_eq/=; try done).
Qed.

Lemma dispatch_block_inv state frameType flags streamID payload started identity :
  block_inv state ->
  let '(state', _, _) := dispatch_frame state frameType flags streamID payload started identity in
  block_inv state'.
Proof.
  intros (Hl & Hi & H0). unfold dispatch_frame, headers_frame, continuation_frame, block_inv in *.
  repeat case_match; simplify_eq/=; bool_to_Z; rewrite ?length_app; split_and!; try (done || lia).
Qed.

Lemma dispatch_error state frameType flags streamID payload started identity :
  let '(_, _, err) := dispatch_frame state frameType flags streamID payload started identity in
  err <> Some out_of_fuel.
Proof.
  unfold dispatch_frame, headers_frame, continuation_frame.
  repeat (case_match; simplify_eq/=; try done).
Qed.

(** *** Frames and chunks *)

Section chunks.
Context (timestampNS : Z) (observation : Fragment).

#[local] Abbreviation append p := (append_payload p timestampNS observation).
#[local] Abbreviation consume n state := (consume_frame state n timestampNS observation).

Lemma append_buffer p state : ds_buffer (append p state) = ds_buffer state ++ p.
Proof.
  unfold append_payload. destruct (ds_buffer state) as [|b l] eqn:E; [|done]. by destruct p.
Qed.

Lemma append_max p state : ds_maxBufferedBytes (append p state) = ds_maxBufferedBytes state.
Proof. unfold append_payload. by destruct (ds_buffer state), p. Qed.

Lemma consume_buffer n state : ds_buffer (consume n state) = drop (9 + n) (ds_buffer state).
Proof. unfold consume_frame. by destruct (drop (9 + n) (ds_buffer state)). Qed.

Lemma consume_max n state : ds_maxBufferedBytes (consume n state) = ds_maxBufferedBytes state.
Proof. unfold consume_frame. by destruct (drop (9 + n) (ds_buffer state)). Qed.

Lemma append_started p state :
  ds_buffer state <> [] ->
  ds_bufferStartedNS (append p state) = ds_bufferStartedNS state /\
  ds_bufferIdentity (append p state) = ds_bufferIdentity state.
Proof. intros Hb. unfold append_payload. by destruct (ds_buffer state), p. Qed.

(** Consuming a frame and appending a payload commute. *)
Lemma consume_append n p state :
  (9 + n <= length (ds_buffer state))%nat -> consume n (append p state) = append p (consume n state).
Proof.
  intros Hn. unfold consume_frame at 1. rewrite append_buffer, drop_app_le by done.
  unfold consume_frame. destruct (drop (9 + n) (ds_buffer state)) as [|b l] eqn:E.
  - unfold append_payload. simpl ds_buffer at 3. cbv iota.
    destruct p as [|b p]; simpl; destruct (ds_buffer state); [simpl in Hn; lia|done|simpl in Hn; lia|done].
  - unfold append_payload. simpl. by destruct (ds_buffer state), p; simpl in *; try lia.
Qed.

Lemma dispatch_append p state frameType flags streamID payload started identity :
  dispatch_frame (append p state) frameType flags streamID payload started identity =
    let '(state', new, err) := dispatch_frame state frameType flags streamID payload started identity in
    (append p state', new, err).
Proof.
  assert (E : exists b t i, forall state', ds_buffer state' = ds_buffer state ->
    ds_bufferStartedNS state' = ds_bufferStartedNS state ->
    ds_bufferIdentity state' = ds_bufferIdentity state -> append p state' = set_buffer b t i state').
  { unfold append_payload. destruct (ds_buffer state) as [|b0 l0] eqn:Eb.
    - destruct p as [|b1 p1].
      + exists [], (ds_bufferStartedNS state), (ds_bufferIdentity state). intros s' -> -> ->. done.
      + exists (b1 :: p1), timestampNS, (identityFrom observation). intros s' -> _ _. done.
    - exists ((b0 :: l0) ++ p), (ds_bufferStartedNS state), (ds_bufferIdentity state).
      intros s' -> -> ->. done. }
  destruct E as (b & t & i & E). rewrite (E state), dispatch_set_buffer by done.
  pose proof (dispatch_keeps state frameType flags streamID payload started identity) as K.
  destruct (dispatch_frame state frameType flags streamID payload started identity) as [[s' new] err].
  destruct K as (K1 & K2 & K3 & _). by rewrite (E s').
Qed.

Lemma slice_app_l {A} (l k : list A) i j : (j <= length l)%nat -> slice (l ++ k) i j = slice l i j.
Proof.
  intros Hj. unfold slice. destruct (decide (i <= length l)%nat).
  - rewrite drop_app_le by done. rewrite take_app_le; [done|]. rewrite length_drop. lia.
  - replace (j - i)%nat with 0%nat by lia. done.
Qed.

Lemma frame_length_app l k : (3 <= length l)%nat -> frame_length (l ++ k) = frame_length l.
Proof. intros. unfold frame_length. by rewrite take_app_le. Qed.

(** Enough fuel is as good as any. *)
Lemma feed_loop_fuel fuel fuel' state blocks :
  (length (ds_buffer state) < fuel)%nat -> (length (ds_buffer state) < fuel')%nat ->
  feed_loop fuel state timestampNS observation blocks =
  feed_loop fuel' state timestampNS observation blocks.
Proof.
  revert fuel' state blocks. induction fuel as [|fuel IH]; intros [|fuel'] state blocks Hf Hf'; try lia.
  cbn [feed_loop]. destruct (Nat.ltb_spec (length (ds_buffer state)) 9); [done|].
  destruct (_ <? Z.of_nat _); [done|].
  set (n := frame_length (ds_buffer state)).
  destruct (Nat.ltb_spec (length (ds_buffer state)) (9 + n)); [done|].
  pose proof (dispatch_keeps (consume n state) (byte_val (ds_buffer state !!! 3%nat))
    (byte_val (ds_buffer state !!! 4%nat)) (Z.land (be_uint (slice (ds_buffer state) 5 9)) 0x7fffffff)
    (slice (ds_buffer state) 9 (9 + n)) (ds_bufferStartedNS state) (ds_bufferIdentity state)) as K.
  destruct (dispatch_frame _ _ _ _ _ _ _) as [[s' new] [e|]]; [done|].
  destruct K as (K1 & _). rewrite consume_buffer in K1.
  apply IH; rewrite K1, length_drop; lia.
Qed.

(** The loop on a buffer that grows by [p] afterwards. *)
Lemma feed_loop_append fuel fuel' state blocks p :
  (length (ds_buffer state) < fuel)%nat -> (length (ds_buffer state) + length p < fuel')%nat ->
  match feed_loop fuel state timestampNS observation blocks with
  | (s1, b1, None) =>
      feed_loop fuel' (append p state) timestampNS observation blocks =
        feed_loop (feed_fuel (append p s1)) (append p s1) timestampNS observation b1
  | (_, b1, Some e) =>
      exists s2, feed_loop fuel' (append p state) timestampNS observation blocks = (s2, b1, Some e)
  end.
Proof.
  revert fuel' state blocks. induction fuel as [|fuel IH]; intros fuel' state blocks Hf Hf'; [lia|].
  cbn [feed_loop]. set (buffer := ds_buffer state) in *.
  destruct (Nat.ltb_spec (length buffer) 9) as [H9|H9].
  { unfold feed_fuel. apply feed_loop_fuel; rewrite append_buffer, length_app; unfold buffer in *; lia. }
  set (n := frame_length buffer).
  destruct (Z.ltb_spec (ds_maxBufferedBytes state) (Z.of_nat n)) as [Hm|Hm].
  { destruct fuel' as [|fuel']; [lia|]. cbn [feed_loop].
    rewrite append_buffer, append_max, length_app, frame_length_app by (unfold buffer in *; lia).
    fold buffer n. destruct (Nat.ltb_spec (length buffer + length p) 9); [lia|].
    destruct (Z.ltb_spec (ds_maxBufferedBytes state) (Z.of_nat n)); [by eexists|lia]. }
  destruct (Nat.ltb_spec (length buffer) (9 + n)) as [Hn|Hn].
  { unfold feed_fuel. apply feed_loop_fuel; rewrite append_buffer, length_app; unfold buffer in *; lia. }
  destruct fuel' as [|fuel']; [lia|].
  set (args := dispatch_frame (consume n state) _ _ _ _ _ _).
  assert (Estep : feed_loop (S fuel') (append p state) timestampNS observation blocks =
    let '(s', new, err) := args in
    match err with
    | Some e => (append p s', blocks ++ new, Some e)
    | None => feed_loop fuel' (append p s') timestampNS observation (blocks ++ new)
    end).
  { cbn [feed_loop]. destruct (append_started p state) as [-> ->].
    { fold buffer. destruct buffer; [simpl in H9; lia|done]. }
    rewrite append_buffer, append_max, length_app, frame_length_app by (fold buffer; lia). fold buffer n.
    destruct (Nat.ltb_spec (length buffer + length p) 9); [lia|].
    destruct (Z.ltb_spec (ds_maxBufferedBytes state) (Z.of_nat n)); [lia|].
    destruct (Nat.ltb_spec (length buffer + length p) (9 + n)); [lia|].
    rewrite !lookup_total_app_l, !slice_app_l, consume_append, dispatch_append by (fold buffer; lia).
    unfold args. fold buffer. by destruct (dispatch_frame _ _ _ _ _ _ _) as [[s' new] [e|]]. }
  rewrite Estep. clear Estep.
  pose proof (dispatch_keeps (consume n state) (byte_val (buffer !!! 3%nat))
    (byte_val (buffer !!! 4%nat)) (Z.land (be_uint (slice buffer 5 9)) 0x7fffffff)
    (slice buffer 9 (9 + n)) (ds_bufferStartedNS state) (ds_bufferIdentity state)) as K.
  fold args in K. destruct args as [[s' new] [e|]]; [by eexists|].
  destruct K as (K1 & _). rewrite consume_buffer in K1. fold buffer in K1.
  apply IH; rewrite K1, length_drop; lia.
Qed.

(** The blocks decoded so far are only carried along. *)
Lemma feed_loop_acc fuel state blocks :
  feed_loop fuel state timestampNS observation blocks =
    let '(s', new, err) := feed_loop fuel state timestampNS observation [] in
    (s', blocks ++ new, err).
Proof.
  revert state blocks. induction fuel as [|fuel IH]; intros state blocks; cbn [feed_loop];
    [by rewrite app_nil_r|].
  do 3 (case_match; [by rewrite app_nil_r|]).
  destruct (dispatch_frame _ _ _ _ _ _ _) as [[s' new] [e|]]; [done|].
  rewrite IH, (IH s' ([] ++ new)). destruct (feed_loop fuel s' _ _ []) as [[s2 b2] e2].
  by rewrite app_assoc.
Qed.

Lemma consume_lastSeen n state : ds_lastSeenNS (consume n state) = ds_lastSeenNS state.
Proof. unfold consume_frame. by destruct (drop (9 + n) (ds_buffer state)). Qed.

Lemma feed_loop_keeps fuel state blocks :
  let '(s', _, err) := feed_loop fuel state timestampNS observation blocks in
  ds_maxBufferedBytes s' = ds_maxBufferedBytes state /\
  ds_lastSeenNS s' = ds_lastSeenNS state /\
  (err = None -> (length (ds_buffer s') <= length (ds_buffer state))%nat).
Proof.
  revert state blocks. induction fuel as [|fuel IH]; intros state blocks; cbn [feed_loop]; [done|].
  destruct (length (ds_buffer state) <? 9)%nat; [done|].
  set (n := frame_length (ds_buffer state)).
  destruct (ds_maxBufferedBytes state <? Z.of_nat n); [by split_and!; simpl; try lia|].
  destruct (length (ds_buffer state) <? 9 + n)%nat; [done|].
  pose proof (dispatch_keeps (consume n state) (byte_val (ds_buffer state !!! 3%nat))
    (byte_val (ds_buffer state !!! 4%nat)) (Z.land (be_uint (slice (ds_buffer state) 5 9)) 0x7fffffff)
    (slice (ds_buffer state) 9 (9 + n)) (ds_bufferStartedNS state) (ds_bufferIdentity state)) as K.
  destruct (dispatch_frame _ _ _ _ _ _ _) as [[s' new] err].
  destruct K as (K1 & _ & _ & K4 & _ & K6).
  rewrite consume_buffer in K1. rewrite consume_max in K4. rewrite consume_lastSeen in K6.
  destruct err as [e|]; [by split_and!|].
  specialize (IH s' (blocks ++ new)). destruct (feed_loop fuel s' _ _ _) as [[s2 b2] e2].
  destruct IH as (I1 & I2 & I3). split_and!; [congruence..|].
  intros E. specialize (I3 E). rewrite K1, length_drop in I3. lia.
Qed.

Lemma append_append p q state : append (p ++ q) state = append q (append p state).
Proof.
  unfold append_payload. destruct (ds_buffer state) as [|b l] eqn:E.
  - destruct p as [|b p]; simpl; [by destruct q|done].
  - simpl. by rewrite <- app_assoc.
Qed.

Lemma append_lastSeen p state : ds_lastSeenNS (append p state) = ds_lastSeenNS state.
Proof. unfold append_payload. by destruct (ds_buffer state), p. Qed.

Lemma set_lastSeen_same state : ds_lastSeenNS state = timestampNS -> set_lastSeen timestampNS state = state.
Proof. intros <-. by destruct state. Qed.

Lemma feed_loop_inv fuel state blocks :
  (length (ds_buffer state) < fuel)%nat -> direction_inv state ->
  let '(s', _, err) := feed_loop fuel state timestampNS observation blocks in
  direction_inv s' /\ err <> Some out_of_fuel /\
  ds_maxBufferedBytes s' = ds_maxBufferedBytes state /\
  (err = None -> (length (ds_buffer s') <= length (ds_buffer state))%nat).
Proof.
  revert state blocks. induction fuel as [|fuel IH]; intros state blocks Hf Hi; [lia|].
  cbn [feed_loop]. destruct Hi as [Hb Hi].
  destruct (Nat.ltb_spec (length (ds_buffer state)) 9); [done|].
  set (n := frame_length (ds_buffer state)).
  destruct (Z.ltb_spec (ds_maxBufferedBytes state) (Z.of_nat n)).
  { assert (Hz : 0 <= ds_maxBufferedBytes state) by lia. destruct Hi as (_ & _ & Hi).
    split; [|by split_and!; simpl; try lia]. split; [done|]. by split_and!. }
  destruct (Nat.ltb_spec (length (ds_buffer state)) (9 + n)); [done|].
  set (c := consume n state). assert (Hc : block_inv c).
  { unfold c, consume_frame. by destruct (drop (9 + n) (ds_buffer state)). }
  pose proof (dispatch_keeps c (byte_val (ds_buffer state !!! 3%nat))
    (byte_val (ds_buffer state !!! 4%nat)) (Z.land (be_uint (slice (ds_buffer state) 5 9)) 0x7fffffff)
    (slice (ds_buffer state) 9 (9 + n)) (ds_bufferStartedNS state) (ds_bufferIdentity state)) as K.
  pose proof (dispatch_block_inv c (byte_val (ds_buffer state !!! 3%nat))
    (byte_val (ds_buffer state !!! 4%nat)) (Z.land (be_uint (slice (ds_buffer state) 5 9)) 0x7fffffff)
    (slice (ds_buffer state) 9 (9 + n)) (ds_bufferStartedNS state) (ds_bufferIdentity state) Hc) as B.
  pose proof (dispatch_error c (byte_val (ds_buffer state !!! 3%nat))
    (byte_val (ds_buffer state !!! 4%nat)) (Z.land (be_uint (slice (ds_buffer state) 5 9)) 0x7fffffff)
    (slice (ds_buffer state) 9 (9 + n)) (ds_bufferStartedNS state) (ds_bufferIdentity state)) as Er.
  destruct (dispatch_frame _ _ _ _ _ _ _) as [[s' new] err].
  destruct K as (K1 & _ & _ & K4 & _). unfold c in K1, K4. rewrite consume_buffer in K1.
  rewrite consume_max in K4.
  assert (Hl : (length (ds_buffer s') <= length (ds_buffer state) - 9)%nat)
    by (rewrite K1, length_drop; lia).
  assert (DI : direction_inv s') by (split; [lia|done]).
  destruct err as [e|]; [by split; [exact DI|split_and!]|].
  specialize (IH s' (blocks ++ new) ltac:(lia) DI).
  destruct (feed_loop fuel s' _ _ _) as [[s2 b2] e2]. destruct IH as (I1 & I2 & I3 & I4).
  split; [exact I1|]. split_and!; [done|congruence|]. intros E. specialize (I4 E). lia.
Qed.
End chunks.
End direction.

(** The states a direction can be in after any payloads *)
Fixpoint feed_all {D} {H : Hpack D} (state : http2DirectionState D)
    (payloads : list (list byte * Z * Fragment)) :
    http2DirectionState D * list (option FrameError) :=
  match payloads with
  | [] => (state, [])
  | (payload, timestampNS, observation) :: payloads' =>
      let '(state, _, err) := feed state payload timestampNS observation in
      let '(state, errs) := feed_all (if err is Some _ then poison state else state) payloads' in
      (state, err :: errs)
  end.

Lemma reset_inv {D} (state : http2DirectionState D) :
  0 <= ds_maxBufferedBytes state -> 0 <= ds_maxHeaderBlockBytes state ->
  direction_inv (resetFrameState state).
Proof. intros. by split. Qed.

Lemma feed_inv {D} {H : Hpack D} (state : http2DirectionState D) p timestampNS observation :
  direction_inv state ->
  let '(s', _, err) := feed state p timestampNS observation in
  direction_inv s' /\ err <> Some out_of_fuel /\ ds_maxBufferedBytes s' = ds_maxBufferedBytes state.
Proof.
  intros [Hb Hi]. unfold feed. set (s := set_lastSeen timestampNS state).
  change (ds_maxBufferedBytes s) with (ds_maxBufferedBytes state).
  change (ds_buffer s) with (ds_buffer state).
  destruct (Z.ltb_spec (ds_maxBufferedBytes state) (Z.of_nat (length (ds_buffer state) + length p))).
  { split; [|done]. apply reset_inv; simpl; [lia|apply Hi]. }
  set (s0 := append_payload p timestampNS observation s).
  assert (Hb0 : ds_buffer s0 = ds_buffer state ++ p) by (unfold s0; by rewrite append_buffer).
  assert (Hm0 : ds_maxBufferedBytes s0 = ds_maxBufferedBytes state) by (unfold s0; by rewrite append_max).
  assert (Hi0 : direction_inv s0).
  { split; [rewrite Hb0, Hm0, length_app; lia|]. unfold s0, append_payload.
    by destruct (ds_buffer s), p. }
  pose proof (feed_loop_inv timestampNS observation (feed_fuel s0) s0 [] ltac:(unfold feed_fuel; lia) Hi0) as L.
  destruct (feed_loop _ s0 _ _ _) as [[s1 b1] err]. destruct L as (L1 & L2 & L3 & _).
  split; [exact L1|]. split; [exact L2|]. congruence.
Qed.

(** A decoder for the examples: a header block is one field, its method. *)
Definition example_hpack : Hpack unit := {|
  NewDecoder _ := tt;
  DecodeFull d block := (d, Some [(lit ":method", block)])
|}.

Definition example_l7_fragment : Fragment :=
  mkFragment (unix_epoch + 5) 77 "node" 42 SourceKernelPlaintext (mkEndpoint "10.0.0.2" 40000)
    (mkEndpoint "10.0.0.3" 8080) 0 [] 0 None None None None None None.

(** A HEADERS frame of stream 1 with END_HEADERS and the block GET *)
Definition example_frame : list byte :=
  be_bytes 3 3 ++ be_bytes 1 http2FrameHeaders ++ be_bytes 1 http2FlagEndHeaders ++ be_bytes 4 1 ++ lit "GET".

Definition example_direction : http2DirectionState unit :=
  @newHTTP2DirectionState unit example_hpack 65536 16384.

(** ** Theorems *)

(** C33. How the kernel cuts a byte stream does not matter: while the buffer
    has room, feeding two payloads one after the other leaves the same state
    and decodes the same header blocks as feeding them at once, and an error
    in the first is the same error with the same blocks before it. *)
Theorem feed_chunks {D} {H : Hpack D} (state : http2DirectionState D) p q timestampNS observation :
  Z.of_nat (length (ds_buffer state) + length p + length q) <= ds_maxBufferedBytes state ->
  match feed state p timestampNS observation with
  | (s1, b1, None) =>
      feed state (p ++ q) timestampNS observation =
        let '(s2, b2, err) := feed s1 q timestampNS observation in (s2, b1 ++ b2, err)
  | (_, b1, Some e) =>
      exists s2, feed state (p ++ q) timestampNS observation = (s2, b1, Some e)
  end.
Proof.
  intros Hlen. unfold feed. rewrite length_app.
  change (ds_maxBufferedBytes (set_lastSeen timestampNS state)) with (ds_maxBufferedBytes state).
  change (ds_buffer (set_lastSeen timestampNS state)) with (ds_buffer state).
  destruct (Z.ltb_spec (ds_maxBufferedBytes state) (Z.of_nat (length (ds_buffer state) + length p))); [lia|].
  destruct (Z.ltb_spec (ds_maxBufferedBytes state)
    (Z.of_nat (length (ds_buffer state) + (length p + length q)))); [lia|].
  set (s0 := append_payload p timestampNS observation (set_lastSeen timestampNS state)).
  assert (Hb0 : ds_buffer s0 = ds_buffer state ++ p) by (unfold s0; by rewrite append_buffer).
  rewrite append_append. fold s0.
  pose proof (feed_loop_append timestampNS observation (feed_fuel s0)
    (feed_fuel (append_payload q timestampNS observation s0)) s0 [] q) as A.
  pose proof (feed_loop_keeps timestampNS observation (feed_fuel s0) s0 []) as K.
  destruct (feed_loop (feed_fuel s0) s0 timestampNS observation []) as [[s1 b1] [e|]].
  { apply A; unfold feed_fuel; rewrite ?append_buffer, ?length_app; lia. }
  destruct K as (K1 & K2 & K3). specialize (K3 eq_refl). rewrite Hb0, length_app in K3.
  assert (Em : ds_maxBufferedBytes s0 = ds_maxBufferedBytes state)
    by (unfold s0; by rewrite append_max).
  assert (El : ds_lastSeenNS s0 = timestampNS) by (unfold s0; by rewrite append_lastSeen).
  rewrite set_lastSeen_same by congruence. rewrite K1, Em.
  destruct (Z.ltb_spec (ds_maxBufferedBytes state) (Z.of_nat (length (ds_buffer s1) + length q))); [lia|].
  rewrite A by (unfold feed_fuel; rewrite ?append_buffer, ?length_app; lia).
  apply feed_loop_acc.
Qed.

Lemma feed_chunks_witness :
  exists s1 s2 b2, @feed unit example_hpack example_direction (take 5 example_frame) 7 example_l7_fragment
      = (s1, [], None) /\
    @feed unit example_hpack s1 (drop 5 example_frame) 7 example_l7_fragment = (s2, b2, None) /\
    @feed unit example_hpack example_direction (take 5 example_frame ++ drop 5 example_frame) 7
      example_l7_fragment = (s2, [] ++ b2, None) /\ length b2 = 1%nat.
Proof.
  pose proof (@feed_chunks unit example_hpack example_direction (take 5 example_frame)
    (drop 5 example_frame) 7 example_l7_fragment ltac:(vm_compute; discriminate)) as T.
  destruct (@feed unit example_hpack example_direction (take 5 example_frame) 7 example_l7_fragment)
    as [[s1 b1] e1] eqn:E1.
  vm_compute in E1. injection E1 as <- <- <-.
  destruct (@feed unit example_hpack _ (drop 5 example_frame) 7 example_l7_fragment)
    as [[s2 b2] e2] eqn:E2.
  pose proof E2 as E2'. vm_compute in E2'. injection E2' as Es Eb Ee. subst e2.
  eexists _, s2, b2. split; [reflexivity|]. split; [exact E2|]. split; [exact T|].
  by rewrite <- Eb.
Defined.

(** What a direction buffers is bounded: after any payloads, errors and
    the poisoning that follows them, the buffer holds at most
    MaxHTTP2BufferedBytes and the unfinished header block at most
    MaxHTTP2HeaderBlockBytes, and the frame loop has ended each time. *)
Theorem feed_bounded {D} {H : Hpack D} maxBuffered maxHeaderBlock payloads :
  0 <= maxBuffered -> 0 <= maxHeaderBlock ->
  let '(state, errs) := feed_all (newHTTP2DirectionState maxBuffered maxHeaderBlock) payloads in
  direction_inv state /\ ds_maxBufferedBytes state = maxBuffered /\
  Forall (fun err => err <> Some out_of_fuel) errs.
Proof.
  intros Hb Hh. set (s := newHTTP2DirectionState _ _).
  assert (Hi : direction_inv s) by by split.
  assert (Hm : ds_maxBufferedBytes s = maxBuffered) by done. clearbody s.
  revert s Hi Hm. induction payloads as [|[[p ts] obs] payloads IH]; intros s Hi Hm; cbn [feed_all]; [done|].
  pose proof (feed_inv s p ts obs Hi) as F.
  destruct (feed s p ts obs) as [[s1 b1] err]. destruct F as (F1 & F2 & F3).
  specialize (IH (if err is Some _ then poison s1 else s1)).
  assert (D1 : direction_inv (if err is Some _ then poison s1 else s1)).
  { destruct err; [|done]. apply reset_inv; [simpl; lia|apply F1]. }
  specialize (IH D1 ltac:(destruct err; simpl; congruence)).
  destruct (feed_all _ payloads) as [s2 errs]. destruct IH as (I1 & I2 & I3).
  split; [exact I1|]. split; [done|]. by constructor.
Qed.

Lemma feed_bounded_witness :
  let '(state, errs) := @feed_all unit example_hpack (@newHTTP2DirectionState unit example_hpack 16 16)
    [(take 5 example_frame, 7, example_l7_fragment); (drop 5 example_frame, 8, example_l7_fragment);
     (replicate 20 (byte_of 0), 9, example_l7_fragment)] in
  direction_inv state /\ ds_maxBufferedBytes state = 16 /\
  Forall (fun err => err <> Some out_of_fuel) errs.
Proof. apply (@feed_bounded unit example_hpack 16 16); lia. Defined.
