(* ===== verification/L7.v ===== *)
(** * internal/l7: the correlator

    Correlator of correlator.go: requests wait in maps for their responses,
    connections seen as ambiguous or as HTTP/2 are remembered, and every
    SweepEvery fragments what is older than the TTL is dropped. The order of
    the drops of a sweep is the maps' iteration order. *)

From S2P Require Import Prelude Flow Text Http1 L7Types Http2.

#[local] Open Scope Z_scope.

(** ** Definitions *)

(** pendingHTTP1, and pendingHTTP2 which has the same fields *)
Record pendingRequest := mkPending {
  pr_startedNS : Z;
  pr_method : list byte;
  pr_path : list byte;
  pr_identity : observationIdentity
}.

Record Config := mkConfig {
  cfg_MaxPathBytes : Z;
  cfg_MaxHTTP2BufferedBytes : Z;
  cfg_MaxHTTP2HeaderBlockBytes : Z;
  cfg_StateTTL : Duration;
  cfg_SweepEvery : Z;
  cfg_MaxTrackedConnections : Z;
  cfg_MaxHTTP2Streams : Z
}.

Record Correlator (D : Type) := mkCorrelator {
  cr_maxPathBytes : nat;
  cr_maxHTTP2BufferedBytes : Z;
  cr_maxHTTP2HeaderBlockBytes : Z;
  cr_stateTTLNS : Z;
  cr_sweepEvery : Z;
  cr_processed : Z;
  cr_maxTrackedConnections : Z;
  cr_maxHTTP2Streams : Z;
  cr_http1 : gmap connectionKey pendingRequest;
  cr_http1Ambiguous : gmap connectionKey Z;
  cr_http2Connections : gmap transportKey Z;
  cr_http2Directions : gmap directionKey (http2DirectionState D);
  cr_http2 : gmap http2StreamKey pendingRequest
}.

Arguments mkCorrelator {D}.
Arguments cr_maxPathBytes {D}.
Arguments cr_maxHTTP2BufferedBytes {D}.
Arguments cr_maxHTTP2HeaderBlockBytes {D}.
Arguments cr_stateTTLNS {D}.
Arguments cr_sweepEvery {D}.
Arguments cr_processed {D}.
Arguments cr_maxTrackedConnections {D}.
Arguments cr_maxHTTP2Streams {D}.
Arguments cr_http1 {D}.
Arguments cr_http1Ambiguous {D}.
Arguments cr_http2Connections {D}.
Arguments cr_http2Directions {D}.
Arguments cr_http2 {D}.

(** if value <= 0 { value = fallback } *)
Definition or_default (value fallback : Z) : Z := if value <=? 0 then fallback else value.

Definition http2ClientPreface : list byte :=
  lit "PRI * HTTP/2.0" ++ CRLF ++ CRLF ++ lit "SM" ++ CRLF ++ CRLF.

Definition expiredAt (now started ttl : Z) : bool :=
  negb (started =? 0) && (started <=? now) && (ttl <=? now - started).

Section correlator.
Context {D : Type} {H : Hpack D}.
Context {R1 : MapRange connectionKey pendingRequest} {R2 : MapRange http2StreamKey pendingRequest}.
Implicit Types (c : Correlator D).

Definition NewCorrelator (config : Config) : Correlator D :=
  mkCorrelator
    (Z.to_nat (or_default (cfg_MaxPathBytes config) 128))
    (or_default (cfg_MaxHTTP2BufferedBytes config) defaultMaxHTTP2BufferedBytes)
    (or_default (cfg_MaxHTTP2HeaderBlockBytes config) defaultMaxHTTP2HeaderBlock)
    (or_default (cfg_StateTTL config) (30 * Second))
    (if cfg_SweepEvery config =? 0 then 256 else cfg_SweepEvery config) 0
    (or_default (cfg_MaxTrackedConnections config) 16384)
    (or_default (cfg_MaxHTTP2Streams config) 65536)
    ∅ ∅ ∅ ∅ ∅.

Definition set_http1 (http1 : gmap connectionKey pendingRequest)
    (ambiguous : gmap connectionKey Z) c : Correlator D :=
  mkCorrelator (cr_maxPathBytes c) (cr_maxHTTP2BufferedBytes c) (cr_maxHTTP2HeaderBlockBytes c)
    (cr_stateTTLNS c) (cr_sweepEvery c) (cr_processed c) (cr_maxTrackedConnections c)
    (cr_maxHTTP2Streams c) http1 ambiguous (cr_http2Connections c) (cr_http2Directions c) (cr_http2 c).

Definition set_http2 (http2 : gmap http2StreamKey pendingRequest) c : Correlator D :=
  mkCorrelator (cr_maxPathBytes c) (cr_maxHTTP2BufferedBytes c) (cr_maxHTTP2HeaderBlockBytes c)
    (cr_stateTTLNS c) (cr_sweepEvery c) (cr_processed c) (cr_maxTrackedConnections c)
    (cr_maxHTTP2Streams c) (cr_http1 c) (cr_http1Ambiguous c) (cr_http2Connections c)
    (cr_http2Directions c) http2.

Definition set_transports (connections : gmap transportKey Z)
    (directions : gmap directionKey (http2DirectionState D)) c : Correlator D :=
  mkCorrelator (cr_maxPathBytes c) (cr_maxHTTP2BufferedBytes c) (cr_maxHTTP2HeaderBlockBytes c)
    (cr_stateTTLNS c) (cr_sweepEvery c) (cr_processed c) (cr_maxTrackedConnections c)
    (cr_maxHTTP2Streams c) (cr_http1 c) (cr_http1Ambiguous c) connections directions (cr_http2 c).

Definition set_processed (processed : Z) c : Correlator D :=
  mkCorrelator (cr_maxPathBytes c) (cr_maxHTTP2BufferedBytes c) (cr_maxHTTP2HeaderBlockBytes c)
    (cr_stateTTLNS c) (cr_sweepEvery c) processed (cr_maxTrackedConnections c)
    (cr_maxHTTP2Streams c) (cr_http1 c) (cr_http1Ambiguous c) (cr_http2Connections c)
    (cr_http2Directions c) (cr_http2 c).

Definition trackedConnections c : Z :=
  Z.of_nat (size (cr_http1 c) + size (cr_http1Ambiguous c) + size (cr_http2Connections c)).

(** expire. A range that only deletes the entries that satisfy a condition
    leaves the others, in any order. *)
Definition expire c (fragment : Fragment) : Correlator D * list Output :=
  let c := set_processed (u64 (cr_processed c + 1)) c in
  if negb (cr_processed c mod cr_sweepEvery c =? 0) then (c, [])
  else
    let now := fragmentTimestampNS fragment in
    if now =? 0 then (c, [])
    else
      let expired started := expiredAt now started (cr_stateTTLNS c) in
      let '(http1, timedOut1) := range_sweep (fun _ p => expired (pr_startedNS p)) (cr_http1 c) in
      let outputs1 := (fun kp => OutDrop (newConnectionDrop (fr_ObservedAt fragment) kp.1
                                            ProtocolHTTP1 DropResponseTimeout)) <$> timedOut1 in
      let ambiguous := filter (fun kt => expired kt.2 = false) (cr_http1Ambiguous c) in
      let '(http2, timedOut2) := range_sweep (fun _ p => expired (pr_startedNS p)) (cr_http2 c) in
      let outputs2 := (fun kp => OutDrop (newConnectionDrop (fr_ObservedAt fragment)
                                            (sk_Connection kp.1) ProtocolHTTP2 DropResponseTimeout))
                        <$> timedOut2 in
      let directions := filter (fun ks => expired (ds_lastSeenNS ks.2) = false) (cr_http2Directions c) in
      let connections := filter (fun kt => expired kt.2 = false) (cr_http2Connections c) in
      (set_http1 http1 ambiguous (set_http2 http2 (set_transports connections directions c)),
       outputs1 ++ outputs2).

Definition requestKey (f : Fragment) : connectionKey :=
  mkConnectionKey (fr_NodeName f) (fr_ObserverPID f) (fr_Source f) (fr_SourceEndpoint f)
    (fr_DestinationEndpoint f).

Definition responseKey (f : Fragment) : connectionKey :=
  mkConnectionKey (fr_NodeName f) (fr_ObserverPID f) (fr_Source f) (fr_DestinationEndpoint f)
    (fr_SourceEndpoint f).

(** The transaction of a response to a pending request *)
Definition newTransaction (f : Fragment) (key : connectionKey) (protocol boundary : string)
    (pending : pendingRequest) (status streamID completedNS : Z) : Transaction :=
  let identity := pr_identity pending in
  mkTransaction SchemaVersion (fr_ObservedAt f)
    (mkFlowKey (fr_NodeName f) "tcp" "client-to-server" (ck_Client key) (ck_Server key))
    (fr_ObserverPID f) protocol (fr_Source f) (pr_method pending) (pr_path pending) status streamID
    (u64 (completedNS - pr_startedNS pending) / Microsecond) boundary
    (oi_process identity) (oi_source identity) (oi_destination identity)
    (oi_sourcePod identity) (oi_destinationPod identity) (oi_observerPod identity).

(** One iteration of the loop over the decoded header blocks *)
Definition http2_block (f : Fragment) (cout : Correlator D * list Output) (block : http2HeaderBlock) :
    Correlator D * list Output :=
  let '(c, outputs) := cout in
  match http2Identity (hb_fields block) (cr_maxPathBytes c) with
  | None => (c, outputs)
  | Some (method, path, status) =>
      if negb (bool_decide (method = [])) then
        let key := mkStreamKey (requestKey f) (hb_streamID block) in
        match cr_http2 c !! key with
        | Some _ =>
            (set_http2 (delete key (cr_http2 c)) c,
             outputs ++ [OutDrop (newDrop f ProtocolHTTP2 DropInvalidHTTP2)])
        | None =>
            if cr_maxHTTP2Streams c <=? Z.of_nat (size (cr_http2 c))
            then (c, outputs ++ [OutDrop (newDrop f ProtocolHTTP2 DropStateCapacity)])
            else
              (set_http2 (<[key := mkPending (hb_startedNS block) method path (hb_identity block)]>
                            (cr_http2 c)) c, outputs)
        end
      else if status <? 200 then (c, outputs)
      else
        let key := mkStreamKey (responseKey f) (hb_streamID block) in
        match cr_http2 c !! key with
        | None => (c, outputs)
        | Some pending =>
            let c := set_http2 (delete key (cr_http2 c)) c in
            let completedNS := hb_startedNS block in
            if completedNS <=? pr_startedNS pending
            then (c, outputs ++ [OutDrop (newDrop f ProtocolHTTP2 DropInvalidLatency)])
            else (c, outputs ++ [OutTransaction (newTransaction f (sk_Connection key) ProtocolHTTP2
                    BoundaryResponseHeaders pending status (hb_streamID block) completedNS)])
        end
  end.

(** processHTTP2 on a connection that is active, with the payload that
    remains to be fed *)
Definition process_direction c (f : Fragment) (transport : transportKey) (payload : list byte)
    (timestampNS : Z) : Correlator D * list Output :=
  let key := mkDirectionKey transport (fr_SourceEndpoint f) (fr_DestinationEndpoint f) in
  let state := match cr_http2Directions c !! key with
               | Some state => state
               | None => newHTTP2DirectionState (cr_maxHTTP2BufferedBytes c)
                           (cr_maxHTTP2HeaderBlockBytes c)
               end in
  let state := set_lastSeen timestampNS state in
  let store state := set_transports (cr_http2Connections c) (<[key := state]> (cr_http2Directions c)) c in
  if ds_poisoned state then (store state, [])
  else if (0 <? fr_TotalLength f) && (u32 (Z.of_nat (length (fr_Payload f))) <? fr_TotalLength f)
  then (store (poison state), [OutDrop (newDrop f ProtocolHTTP2 DropHTTP2StreamDesync)])
  else
    let '(state, blocks, err) := feed state payload timestampNS f in
    match err with
    | Some _ => (store (poison state), [OutDrop (newDrop f ProtocolHTTP2 DropHTTP2StreamDesync)])
    | None => foldl (http2_block f) (store state, []) blocks
    end.

(** processHTTP2; [None] when the fragment is not handled *)
Definition processHTTP2 c (f : Fragment) : option (Correlator D * list Output) :=
  let transport := makeTransportKey f in
  let timestampNS := fragmentTimestampNS f in
  let activate c := set_transports (<[transport := timestampNS]> (cr_http2Connections c))
                      (cr_http2Directions c) c in
  match cr_http2Connections c !! transport with
  | None =>
      if negb (has_prefix (fr_Payload f) http2ClientPreface) then None
      else if cr_maxTrackedConnections c <=? trackedConnections c
      then Some (c, [OutDrop (newDrop f ProtocolHTTP2 DropStateCapacity)])
      else Some (process_direction (activate c) f transport
                   (drop (length http2ClientPreface) (fr_Payload f)) timestampNS)
  | Some _ => Some (process_direction (activate c) f transport (fr_Payload f) timestampNS)
  end.

(** The HTTP/1 request branch of Process *)
Definition processRequest c (f : Fragment) (method path : list byte) : Correlator D * list Output :=
  let key := requestKey f in
  let overlap :=
    (set_http1 (delete key (cr_http1 c)) (<[key := fragmentTimestampNS f]> (cr_http1Ambiguous c)) c,
     [OutDrop (newDrop f ProtocolHTTP1 DropOverlappingRequest)]) in
  match cr_http1Ambiguous c !! key with
  | Some _ => (c, [])
  | None =>
      if containsPipelinedHTTP1Request (fr_Payload f) (cr_maxPathBytes c) then overlap
      else
        match cr_http1 c !! key with
        | Some _ => overlap
        | None =>
            if cr_maxTrackedConnections c <=? trackedConnections c
            then (c, [OutDrop (newDrop f ProtocolHTTP1 DropStateCapacity)])
            else
              (set_http1 (<[key := mkPending (fragmentTimestampNS f) method path (identityFrom f)]>
                            (cr_http1 c)) (cr_http1Ambiguous c) c, [])
        end
  end.

(** The HTTP/1 response branch *)
Definition processResponse c (f : Fragment) (statusCode : Z) : Correlator D * list Output :=
  let key := responseKey f in
  match cr_http1Ambiguous c !! key with
  | Some _ => (c, [])
  | None =>
      if (statusCode <? 200) && negb (statusCode =? 101) then (c, [])
      else
        match cr_http1 c !! key with
        | None => (c, [])
        | Some pending =>
            let c := set_http1 (delete key (cr_http1 c)) (cr_http1Ambiguous c) c in
            if statusCode =? 101
            then (c, [OutDrop (newDrop f ProtocolHTTP1 DropProtocolUpgrade)])
            else
              let completedNS := fragmentTimestampNS f in
              if completedNS <=? pr_startedNS pending then (c, [])
              else (c, [OutTransaction (newTransaction f key ProtocolHTTP1 BoundaryResponseStatus
                          pending statusCode 0 completedNS)])
        end
  end.

(** The rest of Process once a fragment is known not to be HTTP/2 *)
Definition processHTTP1 c (f : Fragment) : Correlator D * list Output :=
  match parseHTTP1Request (fr_Payload f) (cr_maxPathBytes c) with
  | Some (method, path) => processRequest c f method path
  | None =>
      match parseHTTP1Response (fr_Payload f) with
      | Some statusCode => processResponse c f statusCode
      | None => (c, [])
      end
  end.

Definition Correlator_Process c (f : Fragment) : Correlator D * list Output :=
  let '(c, expired) := expire c f in
  let '(c, outputs) :=
    match processHTTP2 c f with
    | Some handled => handled
    | None => processHTTP1 c f
    end in
  (c, expired ++ outputs).

(** A capture: fragments in order, and what each returns *)
Fixpoint run c (fragments : list Fragment) : Correlator D * list (list Output) :=
  match fragments with
  | [] => (c, [])
  | f :: fragments' =>
      let '(c, out) := Correlator_Process c f in
      let '(c, outs) := run c fragments' in
      (c, out :: outs)
  end.

(** *** The invariant *)
Record correlator_inv c : Prop := {
  inv_tracked : Z.of_nat (size (cr_http1 c) + size (cr_http2Connections c)) <= cr_maxTrackedConnections c;
  inv_streams : Z.of_nat (size (cr_http2 c)) <= cr_maxHTTP2Streams c;
  inv_directions : map_Forall (fun _ state => direction_inv state) (cr_http2Directions c);
  inv_limits : 0 < cr_maxTrackedConnections c /\ 0 < cr_maxHTTP2Streams c /\
    0 <= cr_maxHTTP2BufferedBytes c /\ 0 <= cr_maxHTTP2HeaderBlockBytes c
}.

(** ** Lemmas *)

Lemma sweep_size {K A} `{MapRange K A} P (m : gmap K A) http1 out :
  range_sweep P m = (http1, out) -> (size http1 <= size m)%nat.
Proof. intros E. pose proof (range_sweep_size P m). by rewrite E in *. Qed.

Lemma filter_size {K A} `{Countable K} (P : K * A -> Prop) `{forall x, Decision (P x)} (m : gmap K A) :
  (size (filter P m) <= size m)%nat.
Proof. apply map_subseteq_size, map_filter_subseteq. Qed.

Lemma set_lastSeen_inv t (state : http2DirectionState D) :
  direction_inv state -> direction_inv (set_lastSeen t state).
Proof. done. Qed.

Lemma poison_inv (state : http2DirectionState D) : direction_inv state -> direction_inv (poison state).
Proof. intros [Hb (_ & _ & Hh)]. apply reset_inv; simpl; lia. Qed.

Lemma set_processed_inv n c : correlator_inv c -> correlator_inv (set_processed n c).
Proof. intros I. split; apply I. Qed.

Lemma expire_inv c f : correlator_inv c -> correlator_inv (expire c f).1.
Proof.
  intros I. unfold expire. do 2 (case_match; [by apply set_processed_inv|]).
  destruct (range_sweep _ (cr_http1 _)) as [h1 o1] eqn:E1.
  destruct (range_sweep _ (cr_http2 _)) as [h2 o2] eqn:E2.
  apply sweep_size in E1, E2. simpl in *.
  pose proof (inv_tracked _ I). pose proof (inv_streams _ I).
  split; simpl; try apply I.
  - pose proof (filter_size (fun kt => expiredAt (fragmentTimestampNS f) kt.2 (cr_stateTTLNS c) = false)
      (cr_http2Connections c)). lia.
  - lia.
  - intros k s [Hs _]%map_lookup_filter_Some. by apply (inv_directions _ I k s).
Qed.

Lemma http2_block_inv f c out block :
  correlator_inv c -> correlator_inv (http2_block f (c, out) block).1.
Proof.
  intros I. pose proof (inv_streams _ I). unfold http2_block.
  destruct (http2Identity _ _) as [[[method path] status]|]; [|done].
  destruct (negb _).
  - destruct (cr_http2 c !! _) as [p|] eqn:E; simpl.
    + split; simpl; try apply I. rewrite map_size_delete, E. simpl. lia.
    + destruct (Z.leb_spec (cr_maxHTTP2Streams c) (Z.of_nat (size (cr_http2 c)))); [done|].
      split; simpl; try apply I. rewrite map_size_insert, E. lia.
  - destruct (status <? 200); [done|]. destruct (cr_http2 c !! _) as [p|] eqn:E; [|done].
    case_match; split; simpl; try apply I; rewrite map_size_delete, E; simpl; lia.
Qed.

Lemma http2_blocks_inv f c out blocks :
  correlator_inv c -> correlator_inv (foldl (http2_block f) (c, out) blocks).1.
Proof.
  revert c out. induction blocks as [|b blocks IH]; intros c out I; [done|]. cbn [foldl].
  pose proof (http2_block_inv f c out b I). destruct (http2_block f (c, out) b). by apply IH.
Qed.

Lemma store_inv c directions key state :
  correlator_inv c -> directions = cr_http2Directions c -> direction_inv state ->
  correlator_inv (set_transports (cr_http2Connections c) (<[key := state]> directions) c).
Proof.
  intros I -> Hs. split; simpl; try apply I. apply map_Forall_insert_2; [done|apply I].
Qed.

Lemma process_direction_inv c f transport payload t :
  correlator_inv c -> correlator_inv (process_direction c f transport payload t).1.
Proof.
  intros I. unfold process_direction. set (key := mkDirectionKey _ _ _).
  set (state := set_lastSeen t _). assert (Hs : direction_inv state).
  { apply set_lastSeen_inv. destruct (cr_http2Directions c !! key) as [s|] eqn:E.
    - by apply (inv_directions _ I key s).
    - split; [apply I|]. split_and!; [apply I|done|apply I]. }
  destruct (ds_poisoned state); [by apply store_inv|].
  destruct (_ && _); [by apply store_inv, poison_inv|].
  pose proof (feed_inv state payload t f Hs) as F.
  destruct (feed state payload t f) as [[s1 blocks] [e|]]; destruct F as (F1 & _).
  - by apply store_inv, poison_inv.
  - apply http2_blocks_inv. by apply store_inv.
Qed.

Lemma activate_inv c transport t directions :
  correlator_inv c -> directions = cr_http2Directions c ->
  is_Some (cr_http2Connections c !! transport) \/ trackedConnections c < cr_maxTrackedConnections c ->
  correlator_inv (set_transports (<[transport := t]> (cr_http2Connections c)) directions c).
Proof.
  intros I -> Ha. pose proof (inv_tracked _ I). split; simpl; try apply I.
  rewrite map_size_insert. unfold trackedConnections in Ha.
  destruct (cr_http2Connections c !! transport); simpl; [lia|].
  destruct Ha as [[? ?]|]; [done|lia].
Qed.

Lemma processHTTP2_inv c f c' out :
  correlator_inv c -> processHTTP2 c f = Some (c', out) -> correlator_inv c'.
Proof.
  intros I. unfold processHTTP2. destruct (cr_http2Connections c !! _) as [t|] eqn:E.
  - intros [= Ep]. apply (f_equal fst) in Ep. simpl in Ep. subst c'. apply process_direction_inv.
    apply activate_inv; eauto.
  - destruct (negb _); [done|].
    destruct (Z.leb_spec (cr_maxTrackedConnections c) (trackedConnections c)); [by intros [= <- _]|].
    intros [= Ep]. apply (f_equal fst) in Ep. simpl in Ep. subst c'. apply process_direction_inv.
    apply activate_inv; auto.
Qed.

Lemma processHTTP1_inv c f : correlator_inv c -> correlator_inv (processHTTP1 c f).1.
Proof.
  intros I. pose proof (inv_tracked _ I). unfold processHTTP1.
  assert (Hdel : forall key, (size (delete key (cr_http1 c)) <= size (cr_http1 c))%nat).
  { intros key. apply map_subseteq_size, delete_subseteq. }
  destruct (parseHTTP1Request _ _) as [[method path]|].
  - unfold processRequest. pose proof (Hdel (requestKey f)).
    repeat (case_match; try done; try (split; simpl; try apply I; lia)).
    bool_to_Z. unfold trackedConnections in *. split; simpl; try apply I.
    rewrite map_size_insert. case_match; simpl; lia.
  - destruct (parseHTTP1Response _) as [status|]; [|done]. unfold processResponse.
    pose proof (Hdel (responseKey f)).
    repeat (case_match; try done; try (split; simpl; try apply I; lia)).
Qed.

Lemma process_inv c f : correlator_inv c -> correlator_inv (Correlator_Process c f).1.
Proof.
  intros I. unfold Correlator_Process. pose proof (expire_inv c f I) as I1.
  destruct (expire c f) as [c1 o1]. simpl in I1.
  destruct (processHTTP2 c1 f) as [[c2 o2]|] eqn:E.
  - by eapply processHTTP2_inv.
  - pose proof (processHTTP1_inv c1 f I1). by destruct (processHTTP1 c1 f).
Qed.

Lemma run_inv c fragments : correlator_inv c -> correlator_inv (run c fragments).1.
Proof.
  revert c. induction fragments as [|f fragments IH]; intros c I; [done|]. cbn [run].
  pose proof (process_inv c f I) as I1. destruct (Correlator_Process c f) as [c1 o1].
  specialize (IH c1 I1). by destruct (run c1 fragments).
Qed.

Lemma or_default_positive value fallback : 0 < fallback -> 0 < or_default value fallback.
Proof. unfold or_default. intros. destruct (Z.leb_spec value 0); lia. Qed.

Lemma NewCorrelator_inv config : correlator_inv (NewCorrelator config).
Proof.
  assert (P : forall v d, 0 < d -> 0 <= or_default v d)
    by (intros; apply Z.lt_le_incl; by apply or_default_positive).
  split; simpl; rewrite ?map_size_empty; [by apply P|by apply P|apply map_Forall_empty|].
  split_and!; by first [apply or_default_positive|apply P].
Qed.

(** *** Sweeps, key by key *)

Lemma expire_config c f :
  let c' := (expire c f).1 in
  cr_maxPathBytes c' = cr_maxPathBytes c /\ cr_stateTTLNS c' = cr_stateTTLNS c /\
  cr_maxTrackedConnections c' = cr_maxTrackedConnections c.
Proof.
  unfold expire. do 2 (case_match; [done|]).
  by destruct (range_sweep _ (cr_http1 _)), (range_sweep _ (cr_http2 _)).
Qed.

Lemma expire_http1 c f key :
  cr_http1 (expire c f).1 !! key = cr_http1 c !! key \/
  cr_http1 (expire c f).1 !! key =
    match cr_http1 c !! key with
    | Some p => if expiredAt (fragmentTimestampNS f) (pr_startedNS p) (cr_stateTTLNS c) then None else Some p
    | None => None
    end.
Proof.
  unfold expire. do 2 (case_match; [by left|]). right.
  pose proof (lookup_range_sweep (fun _ p => expiredAt (fragmentTimestampNS f) (pr_startedNS p)
    (cr_stateTTLNS c)) (cr_http1 c) key) as L. simpl in *.
  by destruct (range_sweep _ (cr_http1 c)), (range_sweep _ (cr_http2 c)).
Qed.

Lemma expire_http1_kept c f key p :
  cr_http1 c !! key = Some p ->
  expiredAt (fragmentTimestampNS f) (pr_startedNS p) (cr_stateTTLNS c) = false ->
  cr_http1 (expire c f).1 !! key = Some p.
Proof. intros Hk He. destruct (expire_http1 c f key) as [-> | ->]; rewrite Hk; [done|by rewrite He]. Qed.

Lemma expire_http1_None c f key :
  cr_http1 c !! key = None -> cr_http1 (expire c f).1 !! key = None.
Proof. intros Hk. by destruct (expire_http1 c f key) as [-> | ->]; rewrite Hk. Qed.

Lemma expire_None c f key transport :
  (cr_http1Ambiguous c !! key = None -> cr_http1Ambiguous (expire c f).1 !! key = None) /\
  (cr_http2Connections c !! transport = None -> cr_http2Connections (expire c f).1 !! transport = None).
Proof.
  unfold expire. do 2 (case_match; [done|]).
  destruct (range_sweep _ (cr_http1 _)), (range_sweep _ (cr_http2 _)). simpl.
  by split; intros Hk; apply map_lookup_filter_None; left.
Qed.

Lemma expire_tracked c f : trackedConnections (expire c f).1 <= trackedConnections c.
Proof.
  unfold expire, trackedConnections. do 2 (case_match; [done|]).
  destruct (range_sweep _ (cr_http1 _)) as [h1 o1] eqn:E1, (range_sweep _ (cr_http2 _)) as [h2 o2].
  apply sweep_size in E1. simpl in *.
  pose proof (filter_size (fun kt => expiredAt (fragmentTimestampNS f) kt.2 (cr_stateTTLNS c) = false)
      (cr_http2Connections c)).
  pose proof (filter_size (fun kt => expiredAt (fragmentTimestampNS f) kt.2 (cr_stateTTLNS c) = false)
      (cr_http1Ambiguous c)). lia.
Qed.

(** *** Telling the protocols apart *)

Lemma has_prefix_split l pre : has_prefix l pre = true -> exists rest, l = pre ++ rest.
Proof.
  unfold has_prefix. intros E%bool_decide_eq_true. exists (drop (length pre) l).
  by rewrite <- E at 1; rewrite take_drop.
Qed.

Lemma preface_not_http1 payload n :
  has_prefix payload http2ClientPreface = true ->
  parseHTTP1Request payload n = None /\ parseHTTP1Response payload = None.
Proof. intros [rest ->]%has_prefix_split. by split. Qed.

Lemma response_not_request payload n status :
  parseHTTP1Response payload = Some status -> parseHTTP1Request payload n = None.
Proof.
  unfold parseHTTP1Response, parseHTTP1Request.
  destruct (split_three space (firstLine payload)) as [|m [|t [|v [|]]]]; try done.
  destruct (has_prefix m (lit "HTTP/1.")) eqn:Em; [|done]. intros _.
  destruct (isHTTPMethod m) eqn:Hm; [|by rewrite orb_true_r].
  exfalso. unfold isHTTPMethod in Hm. apply bool_decide_eq_true in Hm.
  assert (HF : Forall (fun m => has_prefix m (lit "HTTP/1.") = false) (lit <$> http_methods))
    by (repeat constructor).
  rewrite Forall_forall in HF. rewrite (HF m Hm) in Em. done.
Qed.

Lemma http2_ignores c f :
  cr_http2Connections c !! makeTransportKey f = None ->
  has_prefix (fr_Payload f) http2ClientPreface = false -> processHTTP2 c f = None.
Proof. intros Hc Hp. unfold processHTTP2. by rewrite Hc, Hp. Qed.

Lemma swapped_transport f g :
  responseKey g = requestKey f -> makeTransportKey g = makeTransportKey f.
Proof.
  unfold responseKey, requestKey, makeTransportKey. intros [= -> -> -> E1 E2].
  by rewrite E1, E2, (ordered_pair_comm (fr_SourceEndpoint f) (fr_DestinationEndpoint f)).
Qed.

(** A request on a connection with nothing pending waits for its response. *)
Lemma request_pending c f method path :
  cr_http1 c !! requestKey f = None -> cr_http1Ambiguous c !! requestKey f = None ->
  cr_http2Connections c !! makeTransportKey f = None ->
  trackedConnections c < cr_maxTrackedConnections c ->
  parseHTTP1Request (fr_Payload f) (cr_maxPathBytes c) = Some (method, path) ->
  containsPipelinedHTTP1Request (fr_Payload f) (cr_maxPathBytes c) = false ->
  let '(c1, out) := Correlator_Process c f in
  out = (expire c f).2 /\
  cr_http1 c1 !! requestKey f = Some (mkPending (fragmentTimestampNS f) method path (identityFrom f)) /\
  cr_http1Ambiguous c1 !! requestKey f = None /\
  cr_http2Connections c1 !! makeTransportKey f = None /\
  cr_maxPathBytes c1 = cr_maxPathBytes c /\ cr_stateTTLNS c1 = cr_stateTTLNS c.
Proof.
  intros Hp Ha Ht Hroom Hreq Hpipe. unfold Correlator_Process.
  pose proof (expire_config c f) as (C1 & C2 & C3).
  pose proof (expire_http1_None c f _ Hp) as Hp0.
  destruct (expire_None c f (requestKey f) (makeTransportKey f)) as [Ha0 Ht0].
  specialize (Ha0 Ha). specialize (Ht0 Ht). pose proof (expire_tracked c f) as Hroom0.
  destruct (expire c f) as [c0 o0]. simpl in *.
  assert (Hpre : has_prefix (fr_Payload f) http2ClientPreface = false).
  { destruct (has_prefix _ _) eqn:E; [|done].
    destruct (preface_not_http1 _ (cr_maxPathBytes c) E) as [Hn _]. by rewrite Hn in Hreq. }
  rewrite http2_ignores by done. unfold processHTTP1. rewrite C1, Hreq. unfold processRequest.
  rewrite Ha0, C1, Hpipe, Hp0, C3.
  destruct (Z.leb_spec (cr_maxTrackedConnections c) (trackedConnections c0)); [lia|].
  rewrite app_nil_r. simpl. by rewrite lookup_insert, decide_True.
Qed.
End correlator.

(** ** Theorems *)

(** An HTTP/1 request and its response make one transaction: on a
    connection with nothing pending, not ambiguous and not HTTP/2, with room
    for the request, the response from the other side before the TTL yields
    the request's method and path, the response's status, the identity seen
    with the request and the time between the two in whole microseconds, and
    the request no longer waits. *)
Theorem http1_exchange {D} {H : Hpack D} {R1 : MapRange connectionKey pendingRequest}
    {R2 : MapRange http2StreamKey pendingRequest} (c : Correlator D) f g method path status :
  cr_http1 c !! requestKey f = None -> cr_http1Ambiguous c !! requestKey f = None ->
  cr_http2Connections c !! makeTransportKey f = None ->
  trackedConnections c < cr_maxTrackedConnections c ->
  parseHTTP1Request (fr_Payload f) (cr_maxPathBytes c) = Some (method, path) ->
  containsPipelinedHTTP1Request (fr_Payload f) (cr_maxPathBytes c) = false ->
  responseKey g = requestKey f -> parseHTTP1Response (fr_Payload g) = Some status -> 200 <= status ->
  0 <= fragmentTimestampNS f < fragmentTimestampNS g -> fragmentTimestampNS g < 2 ^ 64 ->
  fragmentTimestampNS g - fragmentTimestampNS f < cr_stateTTLNS c ->
  exists c2 expired t,
    run c [f; g] = (c2, [(expire c f).2; expired ++ [OutTransaction t]]) /\
    tx_Method t = method /\ tx_Path t = path /\ tx_StatusCode t = status /\
    tx_Process t = without_cmdline <$> fr_Process f /\ tx_SourcePod t = fr_SourcePod f /\
    fk_Source (tx_Flow t) = fr_SourceEndpoint f /\
    fk_Destination (tx_Flow t) = fr_DestinationEndpoint f /\
    tx_ResponseLatencyMicros t = (fragmentTimestampNS g - fragmentTimestampNS f) / 1000 /\
    cr_http1 c2 !! requestKey f = None.
Proof.
  intros Hp Ha Ht Hroom Hreq Hpipe Hkey Hresp Hst Hts Hmax Httl. cbn [run].
  pose proof (request_pending c f method path Hp Ha Ht Hroom Hreq Hpipe) as P.
  destruct (Correlator_Process c f) as [c1 out1]. destruct P as (-> & Hp1 & Ha1 & Ht1 & Hm1 & Httl1).
  unfold Correlator_Process.
  assert (Hkept := expire_http1_kept c1 g _ _ Hp1).
  destruct (expire_None c1 g (requestKey f) (makeTransportKey f)) as [Ha2 Ht2].
  specialize (Ha2 Ha1). specialize (Ht2 Ht1).
  destruct (expire c1 g) as [c1' expired]. simpl in *.
  assert (Hpre : has_prefix (fr_Payload g) http2ClientPreface = false).
  { destruct (has_prefix _ _) eqn:E; [|done].
    destruct (preface_not_http1 _ 0 E) as [_ Hn]. by rewrite Hn in Hresp. }
  rewrite http2_ignores by (by rewrite ?(swapped_transport f g)).
  unfold processHTTP1. rewrite (response_not_request _ _ _ Hresp), Hresp.
  unfold processResponse. rewrite Hkey, Ha2, Hkept.
  2: { unfold expiredAt. rewrite Httl1. simpl.
       destruct (Z.leb_spec (cr_stateTTLNS c) (fragmentTimestampNS g - fragmentTimestampNS f)); [lia|].
       apply andb_false_r. }
  destruct (Z.ltb_spec status 200); [lia|]. simpl andb. cbv iota.
  destruct (Z.eqb_spec status 101); [lia|]. simpl pr_startedNS.
  destruct (Z.leb_spec (fragmentTimestampNS g) (fragmentTimestampNS f)); [lia|].
  eexists _, expired, _. split; [done|]. simpl. unfold responseKey in Hkey.
  injection Hkey as E1 E2 E3 E4 E5. split_and!; try done.
  - by rewrite uint_small by lia.
  - by rewrite lookup_delete_eq.
Qed.

Definition example_request_payload : list byte := lit "GET /orders?id=7 HTTP/1.1" ++ CRLF ++ CRLF.
Definition example_response_payload : list byte := lit "HTTP/1.1 200 OK" ++ CRLF ++ CRLF.

Definition example_endpoint (port : Z) : Endpoint := mkEndpoint "10.0.0.2" port.
Definition example_server : Endpoint := mkEndpoint "10.0.0.3" 8080.

Definition example_message (kernel : Z) (source destination : Endpoint) (payload : list byte) : Fragment :=
  mkFragment (unix_epoch + kernel) kernel "node" 42 SourceKernelPlaintext source destination 0 payload 0
    (Some (mkProcess 42 7 "curl" "curl -u secret" "" "")) None None None None None.

Definition example_correlator : Correlator unit :=
  @NewCorrelator unit (mkConfig 0 0 0 0 0 1 0).

Lemma http1_exchange_witness :
  exists c2 expired t,
    @run unit example_hpack (canonical_range _ _) (canonical_range _ _) example_correlator
      [example_message 1000 (example_endpoint 40000) example_server example_request_payload;
       example_message 9500 example_server (example_endpoint 40000) example_response_payload] =
      (c2, [[]; expired ++ [OutTransaction t]]) /\
    tx_Path t = lit "/orders" /\ tx_StatusCode t = 200 /\ tx_ResponseLatencyMicros t = 8.
Proof.
  destruct (@http1_exchange unit example_hpack (canonical_range _ _) (canonical_range _ _)
    example_correlator
    (example_message 1000 (example_endpoint 40000) example_server example_request_payload)
    (example_message 9500 example_server (example_endpoint 40000) example_response_payload)
    (lit "GET") (lit "/orders") 200)
    as (c2 & expired & t & E & _ & Hp & Hs & _ & _ & _ & _ & Hl & _);
    [reflexivity|reflexivity|reflexivity|reflexivity|vm_compute; reflexivity|vm_compute; reflexivity
    |reflexivity|vm_compute; reflexivity|lia|vm_compute; split; [discriminate|reflexivity]
    |vm_compute; reflexivity|vm_compute; reflexivity|].
  exists c2, expired, t. split; [exact E|]. split; [exact Hp|]. split; [exact Hs|exact Hl].
Defined.

(** The limit is not enforced on connections that become ambiguous by a
    pipelined request: with room for one connection, two such fragments from
    different clients leave two tracked connections. *)
Lemma tracked_connections_exceed_limit :
  let pipelined := example_request_payload ++ example_request_payload in
  let c := (@run unit example_hpack (canonical_range _ _) (canonical_range _ _) example_correlator
    [example_message 1000 (example_endpoint 40000) example_server pipelined;
     example_message 2000 (example_endpoint 40001) example_server pipelined]).1 in
  cr_maxTrackedConnections c = 1 /\ trackedConnections c = 2.
Proof. vm_compute. split; reflexivity. Qed.
