(* ===== verification/L7State.v ===== *)
(** * internal/l7: how much the correlator keeps

    What bounds the maps of correlator.go and the buffers of http2.go: the
    limits of the configuration hold in every reachable state, a direction
    belongs to its transport, and, when the fragments of a transport come in
    the order of their times, a sweep leaves no direction behind whose
    connection is gone. *)

From S2P Require Import Prelude Flow Text Http1 L7Types Http2 L7.

#[local] Open Scope Z_scope.

(** ** Definitions *)

(** A limit of the configuration, or what stands for it when it is not set *)
Definition configured (value unset : Z) : Z := if 0 <? value then value else unset.

(** A direction goes from one endpoint of its transport to the other. *)
Definition placed (k : directionKey) : Prop :=
  let low := tk_Low (dk_Transport k) in
  let high := tk_High (dk_Transport k) in
  (dk_From k = low /\ dk_To k = high) \/ (dk_From k = high /\ dk_To k = low).

(** Fragments of one transport come in the order of their times. *)
Definition in_order (f g : Fragment) : Prop :=
  makeTransportKey f = makeTransportKey g -> fragmentTimestampNS f <= fragmentTimestampNS g.

Section state.
Context {D : Type} {H : Hpack D}.
Context {R1 : MapRange connectionKey pendingRequest} {R2 : MapRange http2StreamKey pendingRequest}.
Implicit Types (c : Correlator D).

Definition limits c : Z * Z * Z * Z :=
  (cr_maxHTTP2BufferedBytes c, cr_maxHTTP2HeaderBlockBytes c, cr_maxTrackedConnections c, cr_maxHTTP2Streams c).

(** A direction is limited as its correlator is. *)
Definition limited c (k : directionKey) (state : http2DirectionState D) : Prop :=
  placed k /\ ds_maxBufferedBytes state = cr_maxHTTP2BufferedBytes c /\
  ds_maxHeaderBlockBytes state = cr_maxHTTP2HeaderBlockBytes c.

(** Each direction was seen no later than its connection, and what is still to
    come of a connection is no earlier. *)
Record tracked (future : list Fragment) c : Prop := {
  tr_direction : map_Forall (fun k state => 0 < ds_lastSeenNS state /\
    exists t, cr_http2Connections c !! dk_Transport k = Some t /\ ds_lastSeenNS state <= t) (cr_http2Directions c);
  tr_future : map_Forall (fun k t => Forall (fun f => makeTransportKey f = k -> t <= fragmentTimestampNS f) future)
    (cr_http2Connections c)
}.

(** ** Lemmas *)

Lemma makeTransportKey_placed f : placed (mkDirectionKey (makeTransportKey f) (fr_SourceEndpoint f) (fr_DestinationEndpoint f)).
Proof. unfold placed, makeTransportKey. destruct (endpointLess _ _); cbn; auto. Qed.

(** *** A direction keeps its limits *)

Definition fixed (state : http2DirectionState D) : Z * Z * Z :=
  (ds_lastSeenNS state, ds_maxBufferedBytes state, ds_maxHeaderBlockBytes state).

Lemma feed_loop_fixed fuel timestampNS observation state blocks :
  fixed (feed_loop fuel state timestampNS observation blocks).1.1 = fixed state.
Proof.
  revert state blocks. induction fuel as [|fuel IH]; intros state blocks; [done|]. cbn [feed_loop].
  destruct (_ <? 9)%nat; [done|]. destruct (_ <? Z.of_nat _); [done|]. destruct (_ <? 9 + _)%nat; [done|].
  set (s := consume_frame _ _ _ _). assert (Es : fixed s = fixed state).
  { unfold s, consume_frame. by destruct (drop _ _). }
  match goal with |- context [dispatch_frame s ?a ?b ?d ?e ?g ?h] => pose proof (dispatch_keeps s a b d e g h) as K;
    destruct (dispatch_frame s a b d e g h) as [[s' new] err] end.
  destruct K as (_ & _ & _ & K1 & K2 & K3). assert (E : fixed s' = fixed state) by (unfold fixed in *; congruence).
  destruct err; [done|]. by rewrite IH.
Qed.

Lemma feed_fixed state p timestampNS observation :
  fixed (feed state p timestampNS observation).1.1 = fixed (set_lastSeen timestampNS state).
Proof.
  unfold feed. destruct (_ <? _); [done|]. rewrite feed_loop_fixed.
  unfold append_payload. by destruct (ds_buffer (set_lastSeen timestampNS state)), p.
Qed.

(** *** What the operations do to the transports *)

Definition transports c := (limits c, cr_http2Connections c, cr_http2Directions c).

Lemma http2_blocks_transports f c out blocks :
  transports (foldl (http2_block f) (c, out) blocks).1 = transports c.
Proof.
  revert c out. induction blocks as [|b blocks IH]; intros c out; [done|]. cbn [foldl].
  assert (E : transports (http2_block f (c, out) b).1 = transports c).
  { unfold http2_block. repeat (case_match; try done). }
  destruct (http2_block f (c, out) b) as [c1 out1]. by rewrite IH.
Qed.

Lemma processHTTP1_transports c f : transports (processHTTP1 c f).1 = transports c.
Proof. unfold processHTTP1, processRequest, processResponse. repeat (case_match; try done). Qed.

(** The connection is active and its direction as new as the fragment. *)
Definition touched c (f : Fragment) c' : Prop :=
  limits c' = limits c /\
  cr_http2Connections c' = <[makeTransportKey f := fragmentTimestampNS f]> (cr_http2Connections c) /\
  exists state, ds_lastSeenNS state = fragmentTimestampNS f /\
    let k := mkDirectionKey (makeTransportKey f) (fr_SourceEndpoint f) (fr_DestinationEndpoint f) in
    cr_http2Directions c' = <[k := state]> (cr_http2Directions c) /\
    (map_Forall (limited c) (cr_http2Directions c) -> limited c k state).

Lemma process_direction_touched c f payload :
  let connections := <[makeTransportKey f := fragmentTimestampNS f]> (cr_http2Connections c) in
  touched c f (process_direction (set_transports connections (cr_http2Directions c) c) f (makeTransportKey f) payload
    (fragmentTimestampNS f)).1.
Proof.
  intros connections. unfold process_direction. cbn [cr_http2Directions cr_http2Connections set_transports].
  set (k := mkDirectionKey _ _ _). set (start := match cr_http2Directions c !! k with Some s => s | None => _ end).
  set (store := fun s => set_transports connections (<[k := s]> (cr_http2Directions c)) (set_transports connections (cr_http2Directions c) c)).
  assert (T : forall s c', fixed s = fixed (set_lastSeen (fragmentTimestampNS f) start) -> transports c' = transports (store s) ->
    touched c f c').
  { intros s c' Es Ec. unfold transports in Ec. injection Ec as E1 E2 E3 E4 E5 E6. unfold fixed in Es. injection Es as F1 F2 F3.
    split; [unfold limits; cbn in *; congruence|]. split; [done|]. exists s. split; [done|]. split; [done|]. intros Hl.
    split; [apply makeTransportKey_placed|]. rewrite F2, F3. unfold start. cbn.
    destruct (cr_http2Directions c !! k) as [s0|] eqn:E0; [by apply (Hl k s0)|done]. }
  set (seen := set_lastSeen (fragmentTimestampNS f) start) in *.
  destruct (ds_poisoned _); [by apply (T seen)|]. destruct (_ && _); [by apply (T (poison seen))|].
  pose proof (feed_fixed seen payload (fragmentTimestampNS f) f) as F.
  destruct (feed _ payload _ f) as [[s1 blocks] [e|]]; cbn in F.
  - by apply (T (poison s1)).
  - apply (T s1); [done|]. apply http2_blocks_transports.
Qed.

Lemma processHTTP2_touched c f c' out :
  processHTTP2 c f = Some (c', out) -> transports c' = transports c \/ touched c f c'.
Proof.
  unfold processHTTP2. destruct (cr_http2Connections c !! _).
  - intros [= E]. right. apply (f_equal fst) in E. cbn in E. subst c'. apply process_direction_touched.
  - destruct (negb _); [done|]. destruct (_ <=? _); [intros [= <- _]; by left|].
    intros [= E]. right. apply (f_equal fst) in E. cbn in E. subst c'. apply process_direction_touched.
Qed.

(** A sweep takes away what is expired. *)
Lemma expire_transports c f :
  let c' := (expire c f).1 in
  transports c' = transports c \/
  limits c' = limits c /\
  let live t := expiredAt (fragmentTimestampNS f) t (cr_stateTTLNS c) = false in
  cr_http2Directions c' = filter (fun ks => live (ds_lastSeenNS ks.2)) (cr_http2Directions c) /\
  cr_http2Connections c' = filter (fun kt => live kt.2) (cr_http2Connections c).
Proof.
  unfold expire. destruct (negb _); [by left|]. destruct (_ =? 0); [by left|]. right.
  destruct (range_sweep _ (cr_http1 _)), (range_sweep _ (cr_http2 _)). done.
Qed.

(** *** The limits of the directions *)

Lemma limited_step c f :
  map_Forall (limited c) (cr_http2Directions c) ->
  let c' := (Correlator_Process c f).1 in limits c' = limits c /\ map_Forall (limited c') (cr_http2Directions c').
Proof.
  intros Hl. unfold Correlator_Process.
  assert (L : forall c1 c2, limits c1 = limits c2 -> forall k s, limited c1 k s -> limited c2 k s)
    by (unfold limits, limited; intros c1 c2 [=] k s; naive_solver congruence).
  assert (S : let c1 := (expire c f).1 in limits c1 = limits c /\ map_Forall (limited c1) (cr_http2Directions c1)).
  { destruct (expire_transports c f) as [E|(E & Ed & _)]; cbn.
    - unfold transports in E. injection E as E1 E2 E3 E4 _ E6. assert (El : limits (expire c f).1 = limits c) by (unfold limits; congruence).
      split; [done|]. rewrite E6. intros k s Hk. apply (L c); [done|by apply Hl].
    - split; [done|]. rewrite Ed. intros k s [Hk _]%map_lookup_filter_Some. apply (L c); [done|by apply Hl]. }
  destruct (expire c f) as [c1 o1]. cbn in S. destruct S as [S1 S2].
  assert (K : forall c2, transports c2 = transports c1 -> limits c2 = limits c /\ map_Forall (limited c2) (cr_http2Directions c2)).
  { intros c2 E. unfold transports in E. injection E as E1 E2 E3 E4 _ E6.
    assert (El : limits c2 = limits c1) by (unfold limits; congruence). split; [congruence|]. rewrite E6. intros k s Hk.
    apply (L c1); [done|by apply S2]. }
  destruct (processHTTP2 c1 f) as [[c2 o2]|] eqn:E.
  - destruct (processHTTP2_touched _ _ _ _ E) as [Et|(El & _ & s & _ & Ed & Hs)]; [by apply K|]. cbn.
    split; [congruence|]. rewrite Ed. apply map_Forall_insert_2; [by apply (L c1), Hs|].
    intros k s' Hk. apply (L c1); [done|by apply S2].
  - pose proof (processHTTP1_transports c1 f) as Et. destruct (processHTTP1 c1 f) as [c2 o2]. by apply K.
Qed.

Lemma run_limited c fragments :
  map_Forall (limited c) (cr_http2Directions c) ->
  let c' := (run c fragments).1 in limits c' = limits c /\ map_Forall (limited c') (cr_http2Directions c').
Proof.
  revert c. induction fragments as [|f fragments IH]; intros c Hl; [done|]. cbn [run].
  pose proof (limited_step c f Hl) as [E1 H1]. destruct (Correlator_Process c f) as [c1 o1].
  destruct (IH c1 H1) as [E2 H2]. destruct (run c1 fragments) as [c2 o2]. cbn in *. split; [congruence|done].
Qed.

(** *** Directions and connections *)

Lemma tracked_transports future c c' : transports c' = transports c -> tracked future c -> tracked future c'.
Proof. unfold transports. intros E [T1 T2]. injection E as _ _ _ _ Ec Ed. split; [by rewrite Ec, Ed|by rewrite Ec]. Qed.

Lemma tracked_later f future c : tracked (f :: future) c -> tracked future c.
Proof. intros [T1 T2]. split; [done|]. intros k t Hk. specialize (T2 k t Hk). cbn in T2. by apply Forall_cons in T2 as [_ ?]. Qed.

(** What is seen earlier expires earlier. *)
Lemma expiredAt_le now s t ttl : 0 < s <= t -> expiredAt now s ttl = false -> expiredAt now t ttl = false.
Proof.
  unfold expiredAt. intros Hs. destruct (Z.eqb_spec s 0), (Z.eqb_spec t 0), (Z.leb_spec s now), (Z.leb_spec t now),
    (Z.leb_spec ttl (now - s)), (Z.leb_spec ttl (now - t)); cbn; lia || done.
Qed.

Lemma expire_tracked_by future c f : tracked future c -> tracked future (expire c f).1.
Proof.
  intros T. destruct (expire_transports c f) as [E|(_ & Ed & Ec)]; [by eapply tracked_transports|].
  destruct T as [T1 T2]. split.
  - rewrite Ed, Ec. intros k s [Hk Hl]%map_lookup_filter_Some. destruct (T1 k s Hk) as [H0 (t & Ht & Hst)].
    split; [done|]. exists t. split; [|done]. apply map_lookup_filter_Some. split; [done|]. cbn in *. by eapply expiredAt_le.
  - rewrite Ec. intros k t [Hk _]%map_lookup_filter_Some. by apply T2.
Qed.

Lemma touched_tracked f future c c' :
  touched c f c' -> 0 < fragmentTimestampNS f -> Forall (in_order f) future -> tracked (f :: future) c -> tracked future c'.
Proof.
  intros (_ & Ec & s & Es & Ed & _) H0 Ho T. pose proof (tracked_later _ _ _ T) as [T1 T2].
  destruct T as [_ Tf]. split.
  - rewrite Ed, Ec. apply map_Forall_insert_2.
    { split; [lia|]. exists (fragmentTimestampNS f). cbn. rewrite lookup_insert, decide_True by done. split; [done|lia]. }
    intros k s' Hk. destruct (T1 k s' Hk) as [Hs (t & Ht & Hst)]. split; [done|].
    destruct (decide (makeTransportKey f = dk_Transport k)) as [E|E].
    + exists (fragmentTimestampNS f). rewrite lookup_insert, decide_True by done. split; [done|].
      specialize (Tf _ _ Ht). apply Forall_cons in Tf as [Tf _]. specialize (Tf E). lia.
    + exists t. by rewrite lookup_insert_ne.
  - rewrite Ec. apply map_Forall_insert_2; [|done]. eapply Forall_impl; [exact Ho|]. intros g Hg E. by apply Hg.
Qed.

Lemma process_tracked f future c :
  0 < fragmentTimestampNS f -> Forall (in_order f) future -> tracked (f :: future) c ->
  tracked future (Correlator_Process c f).1.
Proof.
  intros H0 Ho T. unfold Correlator_Process. pose proof (expire_tracked_by _ _ f T) as T1.
  destruct (expire c f) as [c1 o1]. cbn in T1. destruct (processHTTP2 c1 f) as [[c2 o2]|] eqn:E; cbn.
  - destruct (processHTTP2_touched _ _ _ _ E) as [Et|Et]; [|by eapply touched_tracked].
    eapply tracked_transports; [exact Et|by eapply tracked_later].
  - pose proof (processHTTP1_transports c1 f) as Et. destruct (processHTTP1 c1 f) as [c2 o2]. cbn in *.
    eapply tracked_transports; [exact Et|by eapply tracked_later].
Qed.

Lemma run_tracked c fragments :
  Forall (fun f => 0 < fragmentTimestampNS f) fragments -> StronglySorted in_order fragments ->
  tracked fragments c -> tracked [] (run c fragments).1.
Proof.
  revert c. induction fragments as [|f fragments IH]; intros c H0 Hs T; [done|]. cbn [run].
  apply Forall_cons in H0 as [Hf H0]. apply StronglySorted_inv in Hs as [Hs Ho].
  pose proof (process_tracked f fragments c Hf Ho T) as T1. destruct (Correlator_Process c f) as [c1 o1].
  specialize (IH c1 H0 Hs T1). by destruct (run c1 fragments).
Qed.

(** A transport has two directions. *)
Lemma directions_count {A} (connections : gmap transportKey A) (directions : gmap directionKey (http2DirectionState D)) :
  map_Forall (fun k _ => placed k /\ is_Some (connections !! dk_Transport k)) directions ->
  (size directions <= 2 * size connections)%nat.
Proof.
  intros Hd. set (both := fun t => [mkDirectionKey t (tk_Low t) (tk_High t); mkDirectionKey t (tk_High t) (tk_Low t)]).
  assert (L : length (flat_map both (map_to_list connections).*1) = (2 * size connections)%nat).
  { rewrite <- length_map_to_list. induction (map_to_list connections) as [|x l IH]; [done|]. cbn in *. lia. }
  rewrite <- L, <- length_map_to_list, <- (length_fmap fst). apply submseteq_length, NoDup_submseteq.
  { apply NoDup_fst_map_to_list. }
  intros k Hk. apply list_elem_of_fmap in Hk as ([k' s] & -> & Hk). apply elem_of_map_to_list in Hk.
  destruct (Hd k' s Hk) as [Hp [t Ht]]. apply list_elem_of_In, in_flat_map. exists (dk_Transport k'). split.
  - apply list_elem_of_In, list_elem_of_fmap. exists (dk_Transport k', t). split; [done|]. by apply elem_of_map_to_list.
  - destruct k' as [tr a b]. unfold placed in Hp. cbn in *. destruct Hp as [[-> ->]|[-> ->]]; auto.
Qed.
End state.

(** ** Theorems *)

(** C34. The correlator's state is bounded by its configuration, whose unset
    limits are 16384 connections, 65536 streams, 64 KiB of buffer and 16 KiB of
    header block. After any fragments at most so many HTTP/1 requests and HTTP/2
    connections together and so many HTTP/2 requests are kept; every direction
    kept is one of the two of its transport and holds at most so many bytes.
    When the fragments of a transport come in the order of their times, and all
    have a time, the transport of every direction is a tracked connection, so
    that there are at most two directions for each. *)
Theorem state_bounded {D} {H : Hpack D} {R1 : MapRange connectionKey pendingRequest}
    {R2 : MapRange http2StreamKey pendingRequest} config fragments :
  let c := (run (NewCorrelator config) fragments).1 in
  Z.of_nat (size (cr_http1 c) + size (cr_http2Connections c)) <= configured (cfg_MaxTrackedConnections config) 16384 /\
  Z.of_nat (size (cr_http2 c)) <= configured (cfg_MaxHTTP2Streams config) 65536 /\
  map_Forall (fun k state => placed k /\
    Z.of_nat (length (ds_buffer state)) <= configured (cfg_MaxHTTP2BufferedBytes config) 65536 /\
    Z.of_nat (length (ds_continuationBlock state)) <= configured (cfg_MaxHTTP2HeaderBlockBytes config) 16384)
    (cr_http2Directions c) /\
  (Forall (fun f => 0 < fragmentTimestampNS f) fragments -> StronglySorted in_order fragments ->
    map_Forall (fun k _ => is_Some (cr_http2Connections c !! dk_Transport k)) (cr_http2Directions c) /\
    (size (cr_http2Directions c) <= 2 * size (cr_http2Connections c))%nat).
Proof.
  intros c. pose proof (run_inv (NewCorrelator config) fragments (NewCorrelator_inv config)) as I.
  destruct (run_limited (NewCorrelator config) fragments (map_Forall_empty _)) as [El Hl]. fold c in I, El, Hl.
  assert (C : forall v d, or_default v d = configured v d)
    by (intros v d; unfold or_default, configured; destruct (Z.leb_spec v 0), (Z.ltb_spec 0 v); lia).
  unfold limits in El. cbn in El. rewrite !C in El. injection El as E1 E2 E3 E4. split_and!.
  - rewrite <- E3. apply I.
  - rewrite <- E4. apply I.
  - intros k s Hk. destruct (Hl k s Hk) as (Hp & Hb & Hh). destruct (inv_directions _ I k s Hk) as (Ib & Ih & _).
    rewrite Hb, E1 in Ib. rewrite Hh, E2 in Ih. done.
  - intros H0 Hs. destruct (run_tracked (NewCorrelator config) fragments H0 Hs) as [T _].
    { split; apply map_Forall_empty. }
    fold c in T. assert (A : map_Forall (fun k _ => is_Some (cr_http2Connections c !! dk_Transport k)) (cr_http2Directions c)).
    { intros k s Hk. destruct (T k s Hk) as [_ (t & -> & _)]. by eexists. }
    split; [done|]. apply directions_count. intros k s Hk. split; [by apply (Hl k s)|by apply (A k s)].
Qed.

(** Both directions of an HTTP/2 connection *)
Definition example_stream : list Fragment :=
  [example_message 1000 (example_endpoint 40000) example_server http2ClientPreface;
   example_message 2000 example_server (example_endpoint 40000) (lit "short")].

Lemma state_bounded_witness :
  let c := (@run unit example_hpack (canonical_range _ _) (canonical_range _ _) example_correlator example_stream).1 in
  size (cr_http2Directions c) = 2%nat /\ (size (cr_http2Directions c) <= 2 * size (cr_http2Connections c))%nat.
Proof.
  intros c. split; [vm_compute; reflexivity|].
  apply (@state_bounded unit example_hpack (canonical_range _ _) (canonical_range _ _) (mkConfig 0 0 0 0 0 1 0) example_stream).
  - repeat constructor.
  - repeat constructor; vm_compute; discriminate.
Defined.
