(* ===== verification/Collector.v ===== *)
(** * internal/collector: kernel events and what they become

    wire.go (the record the BPF programs write) and event.go (the conversions
    to a flow observation, an L7 fragment, a DNS fragment and a coverage
    drop, and the drop events of the kernel counters). The DNS and L7 records
    are those of their packages, named in full. *)

From S2P Require Import Prelude Flow NetIP Dns L7Types.

#[local] Open Scope Z_scope.

(** ** Definitions *)

Definition AddressFamilyIPv4 : Z := 2.
Definition AddressFamilyIPv6 : Z := 10.
Definition ProtocolTCP : Z := 6.
Definition TCPStateEstablished : Z := 1.
Definition TCPStateSynSent : Z := 2.
Definition TCPStateSynRecv : Z := 3.
Definition EventKindConnect : Z := 1.
Definition EventKindTCPSample : Z := 2.
Definition EventKindL7Fragment : Z := 3.
Definition EventKindL7CoverageDrop : Z := 4.
Definition EventKindDNS : Z := 5.
Definition EventSourceKernelPlaintext : Z := 1.
Definition EventSourceOpenSSL : Z := 2.
Definition DirectionSend : Z := 1.
Definition DropReasonTupleUnresolved : string := "tuple_unresolved".
Definition DropReasonKernelRingbufReserve : string := "kernel_ringbuf_reserve_failed".
Definition DropReasonKernelRingbufOutput : string := "kernel_ringbuf_output_failed".
Definition DropReasonKernelPayloadRead : string := "kernel_payload_read_failed".

Definition maxPayloadSize : Z := 256.
Definition bpfEventSize : nat := 360.

Inductive CollectorError :=
| bad_event_size (n : nat)
| payload_too_long (n : Z)
| unsupported_protocol (n : Z)
| unsupported_family (n : Z)
| wrong_kind (n : Z)
| wall_time_required
| drop_reason_required.

Record Event := mkEvent {
  ev_Kind : Z;
  ev_Source : Z;
  ev_Direction : Z;
  ev_TimestampNS : Z;
  ev_ConnectionID : Z;
  ev_PID : Z;
  ev_TID : Z;
  ev_Family : Z;
  ev_Protocol : Z;
  ev_OldState : Z;
  ev_NewState : Z;
  ev_SRTTMicros : Z;
  ev_RTTVarMicros : Z;
  ev_TotalLength : Z;
  ev_FD : Z;
  ev_SourcePort : Z;
  ev_DestinationPort : Z;
  ev_SourceAddress : list byte;
  ev_DestinationAddress : list byte;
  ev_Payload : list byte;
  ev_DropReason : string;
  ev_DropCount : Z
}.

(** *** wire.go *)

Record wireEvent := mkWire {
  we_TimestampNS : Z;
  we_ConnectionID : Z;
  we_PID : Z;
  we_TID : Z;
  we_OldState : Z;
  we_NewState : Z;
  we_SRTTMicros : Z;
  we_RTTVarMicros : Z;
  we_TotalLength : Z;
  we_FD : Z;
  we_Family : Z;
  we_Protocol : Z;
  we_SourcePort : Z;
  we_DestinationPort : Z;
  we_PayloadLength : Z;
  we_Kind : Z;
  we_Source : Z;
  we_Direction : Z;
  we_Flags : Z;
  we_Reserved16 : Z;
  we_SourceAddress : list byte;
  we_DestinationAddress : list byte;
  we_Payload : list byte;
  we_Reserved : Z
}.

(** The widths of wireEvent's fields, in order *)
Definition wire_sizes : list nat :=
  [8; 8; 4; 4; 4; 4; 4; 4; 4; 4; 2; 2; 2; 2; 2; 1; 1; 1; 1; 2; 16; 16; 256; 8]%nat.

Fixpoint chunks (sizes : list nat) (l : list byte) : list (list byte) :=
  match sizes with
  | [] => []
  | n :: sizes' => take n l :: chunks sizes' (drop n l)
  end.

(** binary.Read: the fields one after the other, in the given byte order *)
Definition wire_of_chunks (order : byte_order) (c : list (list byte)) : wireEvent :=
  let u i := order_uint order (nth i c []) in
  let raw i := nth i c [] in
  mkWire (u 0%nat) (u 1%nat) (u 2%nat) (u 3%nat) (u 4%nat) (u 5%nat) (u 6%nat) (u 7%nat) (u 8%nat)
    (i32 (u 9%nat)) (u 10%nat) (u 11%nat) (u 12%nat) (u 13%nat) (u 14%nat) (u 15%nat) (u 16%nat)
    (u 17%nat) (u 18%nat) (u 19%nat) (raw 20%nat) (raw 21%nat) (raw 22%nat) (u 23%nat).

Definition binary_Read (sample : list byte) (order : byte_order) : wireEvent :=
  wire_of_chunks order (chunks wire_sizes sample).

Definition event_of_wire (wire : wireEvent) : Event :=
  mkEvent (we_Kind wire) (we_Source wire) (we_Direction wire) (we_TimestampNS wire)
    (we_ConnectionID wire) (we_PID wire) (we_TID wire) (we_Family wire) (we_Protocol wire)
    (we_OldState wire) (we_NewState wire) (we_SRTTMicros wire) (we_RTTVarMicros wire)
    (we_TotalLength wire) (we_FD wire) (we_SourcePort wire) (we_DestinationPort wire)
    (we_SourceAddress wire) (we_DestinationAddress wire)
    (take (Z.to_nat (we_PayloadLength wire)) (we_Payload wire)) "" 0.

Definition decodeEvent (sample : list byte) (order : byte_order) : result CollectorError Event :=
  if negb (length sample =? bpfEventSize)%nat then Err (bad_event_size (length sample))
  else
    let wire := binary_Read sample order in
    if maxPayloadSize <? we_PayloadLength wire then Err (payload_too_long (we_PayloadLength wire))
    else Ok (event_of_wire wire).

(** What a BPF program of the same byte order writes *)
Definition wire_chunks (order : byte_order) (w : wireEvent) : list (list byte) :=
  let b := order_bytes order in
  [b 8%nat (we_TimestampNS w); b 8%nat (we_ConnectionID w); b 4%nat (we_PID w); b 4%nat (we_TID w);
   b 4%nat (we_OldState w); b 4%nat (we_NewState w); b 4%nat (we_SRTTMicros w); b 4%nat (we_RTTVarMicros w);
   b 4%nat (we_TotalLength w); b 4%nat (u32 (we_FD w)); b 2%nat (we_Family w); b 2%nat (we_Protocol w);
   b 2%nat (we_SourcePort w); b 2%nat (we_DestinationPort w); b 2%nat (we_PayloadLength w); b 1%nat (we_Kind w);
   b 1%nat (we_Source w); b 1%nat (we_Direction w); b 1%nat (we_Flags w); b 2%nat (we_Reserved16 w);
   we_SourceAddress w; we_DestinationAddress w; we_Payload w; b 8%nat (we_Reserved w)].

Definition encodeEvent (w : wireEvent) (order : byte_order) : list byte := concat (wire_chunks order w).

Record wire_ok (w : wireEvent) : Prop := {
  wo_u64 : Forall (fun z => 0 <= z < 2 ^ 64) [we_TimestampNS w; we_ConnectionID w; we_Reserved w];
  wo_u32 : Forall (fun z => 0 <= z < 2 ^ 32) [we_PID w; we_TID w; we_OldState w; we_NewState w;
    we_SRTTMicros w; we_RTTVarMicros w; we_TotalLength w];
  wo_i32 : - 2 ^ 31 <= we_FD w < 2 ^ 31;
  wo_u16 : Forall (fun z => 0 <= z < 2 ^ 16) [we_Family w; we_Protocol w; we_SourcePort w;
    we_DestinationPort w; we_PayloadLength w; we_Reserved16 w];
  wo_u8 : Forall (fun z => 0 <= z < 2 ^ 8) [we_Kind w; we_Source w; we_Direction w; we_Flags w];
  wo_addresses : length (we_SourceAddress w) = 16%nat /\ length (we_DestinationAddress w) = 16%nat;
  wo_payload : length (we_Payload w) = 256%nat
}.

(** *** Specification: where a sample keeps each field, by the layout of
    struct network_event of bpf/flow.bpf.c *)
Section layout.
Context (order : byte_order) (sample : list byte).

(** The unsigned integer in the bytes from [first] up to [last] *)
Definition field_at (first last : nat) : Z := order_uint order (slice sample first last).

(** The event a sample holds: its payload is cut at its payload length, and
    it reports no drop. *)
Record holds (e : Event) : Prop := {
  at_TimestampNS : ev_TimestampNS e = field_at 0 8;
  at_ConnectionID : ev_ConnectionID e = field_at 8 16;
  at_PID : ev_PID e = field_at 16 20;
  at_TID : ev_TID e = field_at 20 24;
  at_OldState : ev_OldState e = field_at 24 28;
  at_NewState : ev_NewState e = field_at 28 32;
  at_SRTTMicros : ev_SRTTMicros e = field_at 32 36;
  at_RTTVarMicros : ev_RTTVarMicros e = field_at 36 40;
  at_TotalLength : ev_TotalLength e = field_at 40 44;
  at_FD : ev_FD e = i32 (field_at 44 48);
  at_Family : ev_Family e = field_at 48 50;
  at_Protocol : ev_Protocol e = field_at 50 52;
  at_SourcePort : ev_SourcePort e = field_at 52 54;
  at_DestinationPort : ev_DestinationPort e = field_at 54 56;
  at_Kind : ev_Kind e = field_at 58 59;
  at_Source : ev_Source e = field_at 59 60;
  at_Direction : ev_Direction e = field_at 60 61;
  at_SourceAddress : ev_SourceAddress e = slice sample 64 80;
  at_DestinationAddress : ev_DestinationAddress e = slice sample 80 96;
  at_Payload : ev_Payload e = slice sample 96 (96 + Z.to_nat (field_at 56 58));
  at_DropReason : ev_DropReason e = "";
  at_DropCount : ev_DropCount e = 0
}.
End layout.

(** *** event.go *)

(** A snapshot has one counter for each reason. *)
Definition kernelDropReasons : list string :=
  [DropReasonKernelRingbufReserve; DropReasonKernelRingbufOutput; DropReasonKernelPayloadRead].

Definition zeroEvent : Event :=
  mkEvent 0 0 0 0 0 0 0 0 0 0 0 0 0 0 0 0 0 (replicate 16 (byte_of 0)) (replicate 16 (byte_of 0)) [] "" 0.

Definition dropEvent (reason : string) (count : Z) : Event :=
  mkEvent EventKindL7CoverageDrop EventSourceKernelPlaintext 0 0 0 0 0 0 0 0 0 0 0 0 0 0 0
    (replicate 16 (byte_of 0)) (replicate 16 (byte_of 0)) [] reason count.

Definition kernelDropDelta (previous current : Z) : Z :=
  if previous <=? current then u64 (current - previous) else current.

Definition kernelDropEvents (previous current : list Z) : list Event :=
  flat_map (fun '(reason, (p, value)) =>
    let delta := kernelDropDelta p value in
    if delta =? 0 then [] else [dropEvent reason delta])
    (zip kernelDropReasons (zip previous current)).

(** enrichL7Event; the enricher returns the event it wrote, or fails, and
    then the event passed is what it had written so far. *)
Definition enrichL7Event (event : Event) (enrich : Event -> Event * bool) : Event :=
  if negb (ev_Kind event =? EventKindL7Fragment) || negb (ev_Family event =? 0) then event
  else
    let '(event, ok) := enrich event in
    if ok then event
    else
      mkEvent EventKindL7CoverageDrop (ev_Source event) (ev_Direction event) (ev_TimestampNS event)
        (ev_ConnectionID event) (ev_PID event) (ev_TID event) (ev_Family event) (ev_Protocol event)
        (ev_OldState event) (ev_NewState event) (ev_SRTTMicros event) (ev_RTTVarMicros event)
        0 (ev_FD event) (ev_SourcePort event) (ev_DestinationPort event)
        (ev_SourceAddress event) (ev_DestinationAddress event) [] DropReasonTupleUnresolved
        (ev_DropCount event).

Definition formatAddress (family : Z) (raw : list byte) : result CollectorError string :=
  if family =? AddressFamilyIPv4 then Ok (IP_String (take 4 raw))
  else if family =? AddressFamilyIPv6 then Ok (IP_String raw)
  else Err (unsupported_family family).

Definition pointDistribution (value : Z) : Distribution := mkDistribution 1 value value value.

(** The direction, and the endpoints in the order they are reported *)
Definition orient (event : Event) (source destination : Endpoint) : string * (Endpoint * Endpoint) :=
  if ev_Kind event =? EventKindTCPSample then
    ("connection", if endpointLess destination source then (destination, source) else (source, destination))
  else if (ev_OldState event =? TCPStateSynSent) && (ev_NewState event =? TCPStateEstablished)
  then ("egress", (source, destination))
  else if (ev_OldState event =? TCPStateSynRecv) && (ev_NewState event =? TCPStateEstablished)
  then ("ingress", (source, destination))
  else ("unknown", (source, destination)).

(** Event.Observation *)
Definition Observation_of (event : Event) (nodeName : string) (observedAt : Time) :
    result CollectorError Observation :=
  if negb (ev_Protocol event =? ProtocolTCP) then Err (unsupported_protocol (ev_Protocol event))
  else if time_IsZero observedAt then Err wall_time_required
  else
    sourceAddress ← formatAddress (ev_Family event) (ev_SourceAddress event);
    destinationAddress ← formatAddress (ev_Family event) (ev_DestinationAddress event);
    let '(direction, (source, destination)) :=
      orient event (mkEndpoint sourceAddress (ev_SourcePort event))
        (mkEndpoint destinationAddress (ev_DestinationPort event)) in
    Ok (mkObservation None None None observedAt (ev_TimestampNS event)
      (mkFlowKey nodeName "tcp" direction source destination) None None None 0 0 0 0 0 0
      (if 0 <? ev_SRTTMicros event then pointDistribution (ev_SRTTMicros event) else zeroDistribution)
      (if 0 <? ev_RTTVarMicros event then pointDistribution (ev_RTTVarMicros event) else zeroDistribution)).

Definition l7Source (event : Event) : string :=
  if ev_Source event =? EventSourceOpenSSL then SourceOpenSSL else SourceKernelPlaintext.

(** Event.L7Fragment *)
Definition L7Fragment_of (event : Event) (nodeName : string) (observedAt : Time) :
    result CollectorError L7Types.Fragment :=
  if negb (ev_Kind event =? EventKindL7Fragment) then Err (wrong_kind (ev_Kind event))
  else if time_IsZero observedAt then Err wall_time_required
  else
    sourceAddress ← formatAddress (ev_Family event) (ev_SourceAddress event);
    destinationAddress ← formatAddress (ev_Family event) (ev_DestinationAddress event);
    Ok (L7Types.mkFragment observedAt (ev_TimestampNS event) nodeName (ev_PID event) (l7Source event)
      (mkEndpoint sourceAddress (ev_SourcePort event))
      (mkEndpoint destinationAddress (ev_DestinationPort event))
      (ev_TotalLength event) (ev_Payload event) 0 None None None None None None).

(** Event.DNSFragment *)
Definition DNSFragment_of (event : Event) (nodeName : string) (observedAt : Time) :
    result CollectorError Dns.Fragment :=
  if negb (ev_Kind event =? EventKindDNS) then Err (wrong_kind (ev_Kind event))
  else if time_IsZero observedAt then Err wall_time_required
  else
    sourceAddress ← formatAddress (ev_Family event) (ev_SourceAddress event);
    destinationAddress ← formatAddress (ev_Family event) (ev_DestinationAddress event);
    Ok (Dns.mkFragment observedAt (ev_TimestampNS event) nodeName 0 None None None None None None
      (mkEndpoint sourceAddress (ev_SourcePort event))
      (mkEndpoint destinationAddress (ev_DestinationPort event)) (ev_Payload event)).

(** Event.L7CoverageDrop *)
Definition L7CoverageDrop_of (event : Event) (nodeName : string) (observedAt : Time) :
    result CollectorError L7Types.Drop :=
  if negb (ev_Kind event =? EventKindL7CoverageDrop) then Err (wrong_kind (ev_Kind event))
  else if time_IsZero observedAt then Err wall_time_required
  else if bool_decide (ev_DropReason event = "") then Err drop_reason_required
  else
    let count := if ev_DropCount event =? 0 then 1 else ev_DropCount event in
    Ok (L7Types.mkDrop L7Types.SchemaVersion observedAt nodeName (ev_PID event) "" (l7Source event)
      "drop" (ev_DropReason event) count).

(** The same connection seen from its other end *)
Definition swap_endpoints (event : Event) : Event :=
  mkEvent (ev_Kind event) (ev_Source event) (ev_Direction event) (ev_TimestampNS event)
    (ev_ConnectionID event) (ev_PID event) (ev_TID event) (ev_Family event) (ev_Protocol event)
    (ev_OldState event) (ev_NewState event) (ev_SRTTMicros event) (ev_RTTVarMicros event)
    (ev_TotalLength event) (ev_FD event) (ev_DestinationPort event) (ev_SourcePort event)
    (ev_DestinationAddress event) (ev_SourceAddress event) (ev_Payload event)
    (ev_DropReason event) (ev_DropCount event).

(** ** Lemmas *)

Lemma chunks_concat sizes c : length <$> c = sizes -> chunks sizes (concat c) = c.
Proof.
  revert c. induction sizes as [|n sizes IH]; intros [|x c] E; simplify_eq/=; [done|].
  by rewrite take_app_length, drop_app_length, IH.
Qed.

Lemma concat_chunks sizes l : length l = sum_list sizes -> concat (chunks sizes l) = l.
Proof.
  revert l. induction sizes as [|n sizes IH]; intros l E; simpl in *; [by destruct l|].
  rewrite IH by (rewrite length_drop; lia). apply take_drop.
Qed.

Lemma length_chunks sizes l : length l = sum_list sizes -> length <$> chunks sizes l = sizes.
Proof.
  revert l. induction sizes as [|n sizes IH]; intros l E; simpl in *; [done|].
  rewrite length_take, IH by (rewrite length_drop; lia). f_equal. lia.
Qed.

Lemma wire_chunks_sizes order w : wire_ok w -> length <$> wire_chunks order w = wire_sizes.
Proof.
  intros [_ _ _ _ _ [Hs Hd] Hp]. unfold wire_chunks. cbn [fmap list_fmap].
  by rewrite !length_order_bytes, Hs, Hd, Hp.
Qed.

Lemma wire_of_wire_chunks order w : wire_ok w -> wire_of_chunks order (wire_chunks order w) = w.
Proof.
  intros [H64 H32 Hi H16 H8 _ _]. rewrite !Forall_cons in *.
  unfold wire_of_chunks, wire_chunks. cbn [nth]. rewrite !order_uint_bytes.
  change (256 ^ Z.of_nat 8) with (2 ^ 64). change (256 ^ Z.of_nat 4) with (2 ^ 32).
  change (256 ^ Z.of_nat 2) with (2 ^ 16). change (256 ^ Z.of_nat 1) with (2 ^ 8).
  fold (u32 (u32 (we_FD w))). rewrite uint_idemp, sint_uint, sint_small by lia.
  destruct w. simpl in *. f_equal; apply Z.mod_small; tauto.
Qed.

(** A sample of the right length is what some record encodes to. *)
Lemma wire_chunks_of order c :
  length <$> c = wire_sizes ->
  wire_ok (wire_of_chunks order c) /\ wire_chunks order (wire_of_chunks order c) = c.
Proof.
  intros E.
  assert (N : forall i, length (nth i c []) = nth i wire_sizes 0%nat)
    by (intros i; rewrite <- E; rewrite <- (map_nth length); done).
  assert (R : forall i, 0 <= order_uint order (nth i c []) < 256 ^ Z.of_nat (nth i wire_sizes 0%nat))
    by (intros i; rewrite <- N; apply order_uint_range).
  split.
  - unfold wire_of_chunks. split; simpl;
      try (repeat (apply Forall_cons; split; [exact (R _)|]); by apply Forall_nil).
    + apply (sint_range 32). lia.
    + split; apply N.
    + apply N.
  - assert (Hl : length c = 24%nat) by (rewrite <- (length_fmap length), E; done).
    unfold wire_chunks, wire_of_chunks. cbn -[uint sint order_bytes order_uint nth].
    rewrite uint_sint, uint_small by (lia || apply (R 9%nat)).
    rewrite !order_bytes_uint by (by rewrite N).
    do 24 (destruct c as [|? c]; [done|]). by destruct c.
Qed.

(** *** The layout of a sample *)

Lemma nth_chunks sizes l i :
  (i < length sizes)%nat -> nth i (chunks sizes l) [] = slice l (sum_list (take i sizes)) (sum_list (take (S i) sizes)).
Proof.
  revert l i. induction sizes as [|n sizes IH]; intros l [|i] Hi; cbn [length] in Hi; [lia..| |].
  - unfold slice. cbn. by rewrite drop_0, Nat.add_0_r, Nat.sub_0_r.
  - cbn [chunks nth]. rewrite IH by lia. unfold slice. cbn [take sum_list sum_list_with foldr]. rewrite drop_drop.
    f_equal. unfold sum_list. lia.
Qed.

Lemma wire_field i sample order :
  (i < 24)%nat ->
  field_at order sample (sum_list (take i wire_sizes)) (sum_list (take (S i) wire_sizes)) =
    order_uint order (nth i (chunks wire_sizes sample) []).
Proof. intros Hi. unfold field_at. by rewrite nth_chunks by done. Qed.

Lemma binary_Read_holds sample order :
  we_PayloadLength (binary_Read sample order) <= maxPayloadSize ->
  holds order sample (event_of_wire (binary_Read sample order)).
Proof.
  unfold binary_Read. set (c := chunks wire_sizes sample). intros Hp.
  assert (F : forall i, (i < 24)%nat -> order_uint order (nth i c []) =
    field_at order sample (sum_list (take i wire_sizes)) (sum_list (take (S i) wire_sizes)))
    by (intros i Hi; symmetry; by apply wire_field).
  split; try (apply F; simpl; lia); try (apply nth_chunks; simpl; lia); try done.
  - cbn. f_equal. apply (F 9%nat). simpl. lia.
  - cbn [ev_Payload event_of_wire we_Payload we_PayloadLength wire_of_chunks] in *. rewrite (F 14%nat) in * by lia.
    unfold c. rewrite nth_chunks by (simpl; lia).
    change (sum_list (take 22 wire_sizes)) with 96%nat. change (sum_list (take 23 wire_sizes)) with 352%nat.
    change (sum_list (take 14 wire_sizes)) with 56%nat in *. change (sum_list (take 15 wire_sizes)) with 58%nat in *.
    unfold slice. rewrite take_take. f_equal. unfold maxPayloadSize in Hp. lia.
Qed.

Lemma holds_unique order sample e e' : holds order sample e -> holds order sample e' -> e = e'.
Proof. destruct e, e'. intros [] []. cbn in *. by subst. Qed.

(** The samples of the right size are what the records in range encode to. *)
Lemma encodeEvent_onto sample order :
  length sample = bpfEventSize <-> exists w, wire_ok w /\ sample = encodeEvent w order.
Proof.
  split.
  - intros El. destruct (wire_chunks_of order (chunks wire_sizes sample) (length_chunks wire_sizes _ El)) as [Hw Hc].
    eexists. split; [exact Hw|]. unfold encodeEvent. by rewrite Hc, concat_chunks.
  - intros (w & Hw & ->). unfold encodeEvent. by rewrite length_concat, (wire_chunks_sizes _ _ Hw).
Qed.

Lemma decode_encode sample order w :
  wire_ok w -> we_PayloadLength w <= 256 -> sample = encodeEvent w order ->
  decodeEvent sample order = Ok (event_of_wire w).
Proof.
  intros Hw Hp Es. assert (El : length sample = bpfEventSize) by (apply (encodeEvent_onto sample order); by exists w).
  unfold decodeEvent. rewrite El, Nat.eqb_refl. simpl negb. cbv iota. unfold binary_Read. rewrite Es. unfold encodeEvent.
  rewrite chunks_concat, wire_of_wire_chunks by (done || by apply wire_chunks_sizes).
  unfold maxPayloadSize. by destruct (Z.ltb_spec 256 (we_PayloadLength w)); [lia|].
Qed.

Lemma observation_endpoints event source destination :
  let '(direction, (s, d)) := orient event source destination in
  (ev_Kind event = EventKindTCPSample -> endpointLess d s = false) /\
  (ev_Kind event <> EventKindTCPSample -> s = source /\ d = destination) /\
  ((s = source /\ d = destination) \/ (s = destination /\ d = source)).
Proof.
  unfold orient. destruct (Z.eqb_spec (ev_Kind event) EventKindTCPSample) as [E|E].
  - destruct (endpointLess destination source) eqn:L.
    + split; [intros _; by apply endpointLess_asym|]. split; [done|by right].
    + by split; [|split; [|left]].
  - destruct (_ && _); [|destruct (_ && _)]; by (split; [|split; [|left]]).
Qed.

(** ** Theorems *)

(** C38. decodeEvent reads the record of the BPF programs: it accepts exactly
    the samples of 360 bytes with a payload length of at most 256, and the
    event it returns has in every field what the sample holds at the field's
    place in the struct, with the payload cut at its length; a sample of
    another size is refused with its size, a longer payload with its length.
    The samples of 360 bytes are the records with fields in range as a program
    of the same byte order writes them, and they are read back. *)
Theorem decodeEvent_exact sample order :
  (forall e, decodeEvent sample order = Ok e <->
    length sample = 360%nat /\ field_at order sample 56 58 <= 256 /\ holds order sample e) /\
  (forall n, decodeEvent sample order = Err (bad_event_size n) <-> n = length sample /\ n <> 360%nat) /\
  (forall n, decodeEvent sample order = Err (payload_too_long n) <->
    length sample = 360%nat /\ n = field_at order sample 56 58 /\ 256 < n) /\
  (length sample = 360%nat <-> exists w, wire_ok w /\ sample = encodeEvent w order) /\
  (forall w, wire_ok w -> we_PayloadLength w <= 256 -> sample = encodeEvent w order ->
    decodeEvent sample order = Ok (event_of_wire w)).
Proof.
  assert (R : we_PayloadLength (binary_Read sample order) = field_at order sample 56 58)
    by (symmetry; apply (wire_field 14); simpl; lia).
  pose proof (decode_encode sample order) as W.
  pose proof (binary_Read_holds sample order) as B. rewrite R in B. change maxPayloadSize with 256 in B.
  unfold decodeEvent in *. rewrite R in *. change bpfEventSize with 360%nat in *. change maxPayloadSize with 256 in *.
  split_and!; [intros e|intros n|intros n|apply encodeEvent_onto|exact W];
    destruct (Nat.eqb_spec (length sample) 360) as [El|El]; simpl negb; cbv iota;
    try destruct (Z.ltb_spec 256 (field_at order sample 56 58)); split; try naive_solver lia.
  intros (_ & _ & He). f_equal. apply (holds_unique order sample); [by apply B|done].
Qed.

(** A TCP sample gives the same observation from either end of the
    connection: its flow has the lesser endpoint first and the direction
    "connection". A state change keeps the endpoints in the order of the
    event. *)
Theorem observation_canonical event nodeName observedAt o :
  Observation_of event nodeName observedAt = Ok o ->
  (ev_Kind event = EventKindTCPSample ->
    Observation_of (swap_endpoints event) nodeName observedAt = Ok o /\
    endpointLess (fk_Destination (ob_Flow o)) (fk_Source (ob_Flow o)) = false /\
    fk_Direction (ob_Flow o) = "connection") /\
  (ev_Kind event <> EventKindTCPSample ->
    formatAddress (ev_Family event) (ev_SourceAddress event) = Ok (ep_Address (fk_Source (ob_Flow o))) /\
    formatAddress (ev_Family event) (ev_DestinationAddress event) =
      Ok (ep_Address (fk_Destination (ob_Flow o))) /\
    ep_Port (fk_Source (ob_Flow o)) = ev_SourcePort event /\
    ep_Port (fk_Destination (ob_Flow o)) = ev_DestinationPort event).
Proof.
  unfold Observation_of. cbn [ev_Protocol ev_Family swap_endpoints ev_SourceAddress ev_DestinationAddress
    ev_SourcePort ev_DestinationPort ev_SRTTMicros ev_RTTVarMicros ev_TimestampNS].
  destruct (negb _); [done|]. destruct (time_IsZero observedAt); [done|].
  destruct (formatAddress _ (ev_SourceAddress event)) as [sa|] eqn:Es; [|done].
  destruct (formatAddress _ (ev_DestinationAddress event)) as [da|] eqn:Ed; [|done].
  cbn [mbind result_mbind result_bind].
  pose proof (observation_endpoints event (mkEndpoint sa (ev_SourcePort event))
    (mkEndpoint da (ev_DestinationPort event))) as H.
  destruct (orient event _ _) as [direction [s d]] eqn:Eo. intros [= <-]. split.
  - intros Hk. split; [|split; [by apply H|]].
    + unfold orient in *. cbn [swap_endpoints ev_Kind] in *. rewrite Hk in *. simpl Z.eqb in *.
      cbv iota in *. rewrite ordered_pair_comm. injection Eo as <- Eo. by rewrite Eo.
    + unfold orient in Eo. rewrite Hk in Eo. simpl in Eo. by simplify_eq/=.
  - intros Hk. destruct H as (_ & H & _). destruct (H Hk) as [-> ->]. done.
Qed.

Definition example_sample : Event :=
  mkEvent EventKindTCPSample 0 0 1000 0 42 42 AddressFamilyIPv4 ProtocolTCP 0 0 250 40 0 0 80 40000
    ((byte_of <$> [10; 0; 0; 9]) ++ replicate 12 (byte_of 0))
    ((byte_of <$> [10; 0; 0; 2]) ++ replicate 12 (byte_of 0)) [] "" 0.

Lemma observation_canonical_witness :
  exists o, Observation_of example_sample "node-a" unix_epoch = Ok o /\
    Observation_of (swap_endpoints example_sample) "node-a" unix_epoch = Ok o /\
    fk_Source (ob_Flow o) = mkEndpoint "10.0.0.2" 40000.
Proof.
  destruct (Observation_of example_sample "node-a" unix_epoch) as [o|] eqn:E; [|vm_compute in E; congruence].
  exists o. split; [reflexivity|].
  destruct (observation_canonical _ _ _ _ E) as [H _]. destruct (H eq_refl) as (E' & _ & _).
  split; [exact E'|]. vm_compute in E. injection E as <-. vm_compute. reflexivity.
Defined.
