(* ===== verification/SocketResolver.v ===== *)
(** * internal/collector: the socket resolver

    socket_resolver_linux.go: the bounded cache from (pid, fd) to the tuple
    of a socket, least recently used first out, and the /proc/<pid>/net/tcp
    tables its misses read. The cache is a map of entries that point into a
    doubly linked list of keys; a list element is a number, which names it,
    and the key it holds. What the kernel answers to a readlink or a read is
    an argument. *)

From S2P Require Import Prelude Text Collector.

#[local] Open Scope Z_scope.

(** ** Definitions *)

Definition defaultSocketResolverCacheEntries : Z := 4096.

Record processFD := mkProcessFD {
  pf_pid : Z;
  pf_fd : Z
}.

#[export] Instance processFD_eq_dec : EqDecision processFD.
Proof. solve_decision. Defined.
#[export] Instance processFD_countable : Countable processFD.
Proof. refine (inj_countable' (fun k => (pf_pid k, pf_fd k)) (fun t => mkProcessFD t.1 t.2) _). by intros []. Defined.

Record socketTuple := mkSocketTuple {
  st_family : Z;
  st_localAddress : list byte;
  st_remoteAddress : list byte;
  st_localPort : Z;
  st_remotePort : Z
}.

Record cachedSocket := mkCachedSocket {
  cs_inode : list byte;
  cs_tuple : socketTuple
}.

Record socketCacheEntry := mkCacheEntry {
  se_value : cachedSocket;
  se_element : nat
}.

(** [recency] holds the elements of the list from front to back; [fresh]
    names the next element *)
Record socketResolver := mkSocketResolver {
  sr_cache : gmap processFD socketCacheEntry;
  sr_recency : list (nat * processFD);
  sr_fresh : nat;
  sr_maxEntries : Z
}.

Definition newSocketResolverWithLimit (maxEntries : Z) : socketResolver :=
  mkSocketResolver ∅ [] 0 maxEntries.

Definition newSocketResolver : socketResolver :=
  newSocketResolverWithLimit defaultSocketResolverCacheEntries.

(** *** container/list *)

Definition list_Remove (element : nat) (l : list (nat * processFD)) : list (nat * processFD) :=
  filter (fun e => e.1 <> element) l.

Definition list_MoveToFront (element : nat) (l : list (nat * processFD)) : list (nat * processFD) :=
  filter (fun e => e.1 = element) l ++ list_Remove element l.

(** *** Operations *)

Definition cachedTuple (r : socketResolver) (key : processFD) (inode : list byte) :
    socketResolver * option socketTuple :=
  match sr_cache r !! key with
  | None => (r, None)
  | Some entry =>
      if negb (bool_decide (cs_inode (se_value entry) = inode)) then
        (mkSocketResolver (delete key (sr_cache r)) (list_Remove (se_element entry) (sr_recency r))
           (sr_fresh r) (sr_maxEntries r), None)
      else
        (mkSocketResolver (sr_cache r) (list_MoveToFront (se_element entry) (sr_recency r))
           (sr_fresh r) (sr_maxEntries r), Some (cs_tuple (se_value entry)))
  end.

Definition rememberTuple (r : socketResolver) (key : processFD) (inode : list byte) (tuple : socketTuple) :
    socketResolver :=
  if sr_maxEntries r <=? 0 then r
  else
    match sr_cache r !! key with
    | Some entry =>
        mkSocketResolver (<[key := mkCacheEntry (mkCachedSocket inode tuple) (se_element entry)]> (sr_cache r))
          (list_MoveToFront (se_element entry) (sr_recency r)) (sr_fresh r) (sr_maxEntries r)
    | None =>
        let element := sr_fresh r in
        let recency := (element, key) :: sr_recency r in
        let cache := <[key := mkCacheEntry (mkCachedSocket inode tuple) element]> (sr_cache r) in
        if Z.of_nat (size cache) <=? sr_maxEntries r then
          mkSocketResolver cache recency (S element) (sr_maxEntries r)
        else
          match last recency with
          | Some (oldest, oldestKey) =>
              mkSocketResolver (delete oldestKey cache) (list_Remove oldest recency) (S element)
                (sr_maxEntries r)
          | None => r (* Back of a list with an element *)
          end
    end.

(** *** /proc/<pid>/net/tcp *)

Inductive ProcError :=
| invalid_endpoint
| bad_endpoint_port
| bad_endpoint_address
| bad_address_length (n : nat)
| bad_family (family : Z).

(** The first 16 bytes of [l] and zeros: a [16]byte filled from the left *)
Definition array16 (l : list byte) : list byte := take 16 (l ++ replicate 16 (byte_of 0)).

(** The bytes of each word, which the kernel prints as a native integer, in
    reverse *)
Fixpoint reverse_words (words : nat) (raw : list byte) : list byte :=
  match words with
  | O => []
  | S words' => reverse (take 4 raw) ++ reverse_words words' (drop 4 raw)
  end.

Definition parseProcEndpoint (value : list byte) (family : Z) : result ProcError (list byte * Z) :=
  match cut_byte (byte_of 58) value with
  | None => Err invalid_endpoint
  | Some (addressHex, portHex) =>
      match ParseUint16 16 portHex with
      | None => Err bad_endpoint_port
      | Some port =>
          match hex_DecodeString addressHex with
          | None => Err bad_endpoint_address
          | Some raw =>
              if family =? AddressFamilyIPv4 then
                if negb (length raw =? 4)%nat then Err (bad_address_length (length raw))
                else Ok (array16 (reverse raw), port)
              else if family =? AddressFamilyIPv6 then
                if negb (length raw =? 16)%nat then Err (bad_address_length (length raw))
                else Ok (reverse_words 4 raw, port)
              else Err (bad_family family)
          end
      end
  end.

Fixpoint parse_lines (lines : list (list byte)) (wantedInode : list byte) (family : Z) :
    result ProcError (option socketTuple) :=
  match lines with
  | [] => Ok None
  | line :: lines' =>
      let fields := Fields line in
      if (length fields <? 10)%nat || negb (bool_decide (nth 9 fields [] = wantedInode))
      then parse_lines lines' wantedInode family
      else
        '(localAddress, localPort) ← parseProcEndpoint (nth 1 fields []) family;
        '(remoteAddress, remotePort) ← parseProcEndpoint (nth 2 fields []) family;
        Ok (Some (mkSocketTuple family localAddress remoteAddress localPort remotePort))
  end.

Definition parseProcNetTCP (content wantedInode : list byte) (family : Z) :
    result ProcError (option socketTuple) :=
  parse_lines (split_byte (byte_of 10) content) wantedInode family.

(** *** enrich *)

Inductive EnrichError :=
| readlink_failed
| not_a_socket
| table_error (e : ProcError)
| inode_not_found.

(** readProcessSocketTuple: [tcp] and [tcp6] are what reading the two tables
    gives *)
Definition readProcessSocketTuple (tcp tcp6 : option (list byte)) (inode : list byte) :
    result EnrichError socketTuple :=
  let read content family :=
    match content with
    | None => Ok None
    | Some content =>
        match parseProcNetTCP content inode family with
        | Err e => Err (table_error e)
        | Ok t => Ok t
        end
    end in
  v4 ← read tcp AddressFamilyIPv4;
  match v4 with
  | Some tuple => Ok tuple
  | None =>
      v6 ← read tcp6 AddressFamilyIPv6;
      match v6 with Some tuple => Ok tuple | None => Err inode_not_found end
  end.

(** strings.CutPrefix and the closing bracket *)
Definition socket_inode (linkTarget : list byte) : option (list byte) :=
  if has_prefix linkTarget (lit "socket:[") then
    let inode := drop (length (lit "socket:[")) linkTarget in
    match last inode with
    | Some b => if bool_decide (b = byte_of 93) then Some (take (length inode - 1) inode) else None
    | None => None
    end
  else None.

Definition with_tuple (event : Event) (tuple : socketTuple) : Event :=
  let send := ev_Direction event =? DirectionSend in
  mkEvent (ev_Kind event) (ev_Source event) (ev_Direction event) (ev_TimestampNS event)
    (ev_ConnectionID event) (ev_PID event) (ev_TID event) (st_family tuple) ProtocolTCP
    (ev_OldState event) (ev_NewState event) (ev_SRTTMicros event) (ev_RTTVarMicros event)
    (ev_TotalLength event) (ev_FD event)
    (if send then st_localPort tuple else st_remotePort tuple)
    (if send then st_remotePort tuple else st_localPort tuple)
    (if send then st_localAddress tuple else st_remoteAddress tuple)
    (if send then st_remoteAddress tuple else st_localAddress tuple)
    (ev_Payload event) (ev_DropReason event) (ev_DropCount event).

(** The two tables of the event's process, by table *)
Definition enrich (r : socketResolver) (event : Event) (link tcp tcp6 : option (list byte)) :
    socketResolver * result EnrichError Event :=
  let key := mkProcessFD (ev_PID event) (ev_FD event) in
  match link with
  | None => (r, Err readlink_failed)
  | Some linkTarget =>
      match socket_inode linkTarget with
      | None => (r, Err not_a_socket)
      | Some inode =>
          let '(r, cached) := cachedTuple r key inode in
          match cached with
          | Some tuple => (r, Ok (with_tuple event tuple))
          | None =>
              match readProcessSocketTuple tcp tcp6 inode with
              | Err e => (r, Err e)
              | Ok tuple => (rememberTuple r key inode tuple, Ok (with_tuple event tuple))
              end
          end
      end
  end.

(** *** Specification: a list of keys and values, most recent first *)

Abbreviation lru := (list (processFD * cachedSocket)).

Definition lru_remove (key : processFD) (l : lru) : lru := filter (fun e => e.1 <> key) l.

Definition lru_lookup (key : processFD) (l : lru) : option cachedSocket := (list_to_map l : gmap _ _) !! key.

Definition lru_get (l : lru) (key : processFD) (inode : list byte) : lru * option socketTuple :=
  match lru_lookup key l with
  | None => (l, None)
  | Some v =>
      if bool_decide (cs_inode v = inode) then ((key, v) :: lru_remove key l, Some (cs_tuple v))
      else (lru_remove key l, None)
  end.

Definition lru_put (max : Z) (l : lru) (key : processFD) (v : cachedSocket) : lru :=
  take (Z.to_nat max) ((key, v) :: lru_remove key l).

(** The cache and the list of keys hold the entries of [l]: the map points
    at the element of each key, and every element is distinct. *)
Record represents (r : socketResolver) (l : lru) : Prop := {
  rp_elements : NoDup (sr_recency r).*1;
  rp_fresh : Forall (fun e => e.1 < sr_fresh r)%nat (sr_recency r);
  rp_keys : NoDup l.*1;
  rp_order : (sr_recency r).*2 = l.*1;
  rp_cache key v id : sr_cache r !! key = Some (mkCacheEntry v id) <->
    (key, v) ∈ l /\ (id, key) ∈ sr_recency r
}.

Inductive cache_op :=
| Get (key : processFD) (inode : list byte)
| Put (key : processFD) (inode : list byte) (tuple : socketTuple).

Definition run_op (r : socketResolver) (op : cache_op) : socketResolver * option socketTuple :=
  match op with
  | Get key inode => cachedTuple r key inode
  | Put key inode tuple => (rememberTuple r key inode tuple, None)
  end.

Definition lru_op (max : Z) (l : lru) (op : cache_op) : lru * option socketTuple :=
  match op with
  | Get key inode => lru_get l key inode
  | Put key inode tuple => (lru_put max l key (mkCachedSocket inode tuple), None)
  end.

Fixpoint run_ops (r : socketResolver) (ops : list cache_op) : socketResolver * list (option socketTuple) :=
  match ops with
  | [] => (r, [])
  | op :: ops' => let '(r, out) := run_op r op in let '(r, outs) := run_ops r ops' in (r, out :: outs)
  end.

Fixpoint lru_ops (max : Z) (l : lru) (ops : list cache_op) : lru * list (option socketTuple) :=
  match ops with
  | [] => (l, [])
  | op :: ops' => let '(l, out) := lru_op max l op in let '(l, outs) := lru_ops max l ops' in (l, out :: outs)
  end.

(** *** What the kernel prints: a row of /proc/<pid>/net/tcp *)

(** The raw bytes of an address, in network order, and a port *)
Definition endpoint_text (address : list byte) (port : Z) : list byte :=
  hex_bytes (reverse_words (length address / 4) address) ++ byte_of 58 :: hex_bytes (be_bytes 2 port).

Record socket_row := mkRow {
  row_sl : list byte;
  row_localAddress : list byte;
  row_localPort : Z;
  row_remoteAddress : list byte;
  row_remotePort : Z;
  row_middle : list (list byte); (* st, queues, timers, retrnsmt, uid, timeout *)
  row_inode : list byte;
  row_rest : list (list byte)
}.

Definition row_fields (row : socket_row) : list (list byte) :=
  row_sl row :: endpoint_text (row_localAddress row) (row_localPort row) ::
  endpoint_text (row_remoteAddress row) (row_remotePort row) :: row_middle row ++
  row_inode row :: row_rest row.

(** Each field after some spaces, at least one but for the first, and the
    padding at the end of the line *)
Definition spaces (n : nat) : list byte := replicate n (byte_of 32).

Definition row_text (lead : nat) (gaps : nat) (row : socket_row) : list byte :=
  spaces lead ++ concat ((fun w => w ++ spaces (S gaps)) <$> row_fields row).

Definition table_text (header : list byte) (rows : list (nat * nat * socket_row)) : list byte :=
  header ++ byte_of 10 :: concat ((fun '(lead, gaps, row) => row_text lead gaps row ++ [byte_of 10]) <$> rows).

Definition word_ok (w : list byte) : Prop := w <> [] /\ Forall (fun b => is_graphic b = true) w.

Definition row_ok (family : Z) (row : socket_row) : Prop :=
  let size := (if (family =? AddressFamilyIPv4)%Z then 4 else 16)%nat in
  word_ok (row_sl row) /\ Forall word_ok (row_middle row) /\ length (row_middle row) = 6%nat /\
  word_ok (row_inode row) /\ Forall word_ok (row_rest row) /\
  length (row_localAddress row) = size /\ length (row_remoteAddress row) = size /\
  0 <= row_localPort row < 65536 /\ 0 <= row_remotePort row < 65536.

Definition row_tuple (family : Z) (row : socket_row) : socketTuple :=
  mkSocketTuple family (array16 (row_localAddress row)) (array16 (row_remoteAddress row))
    (row_localPort row) (row_remotePort row).

(** ** Lemmas *)

(** *** The cache *)

Lemma pair_unique {A B} (l : list (A * B)) a b b' :
  NoDup l.*1 -> (a, b) ∈ l -> (a, b') ∈ l -> b = b'.
Proof.
  intros Hn H1 H2. apply list_elem_of_lookup in H1 as [i Hi], H2 as [j Hj].
  assert (i = j) as <-; [|by rewrite Hi in Hj; simplify_eq].
  eapply NoDup_lookup; [done|by rewrite list_lookup_fmap, Hi|by rewrite list_lookup_fmap, Hj].
Qed.

Lemma pair_unique_2 {A B} (l : list (A * B)) a a' b :
  NoDup l.*2 -> (a, b) ∈ l -> (a', b) ∈ l -> a = a'.
Proof.
  intros Hn H1 H2. apply list_elem_of_lookup in H1 as [i Hi], H2 as [j Hj].
  assert (i = j) as <-; [|by rewrite Hi in Hj; simplify_eq].
  eapply NoDup_lookup; [done|by rewrite list_lookup_fmap, Hi|by rewrite list_lookup_fmap, Hj].
Qed.

Lemma filter_fst_keys {A B} `{EqDecision A} (key : A) (l : list (A * B)) :
  (filter (fun e => e.1 <> key) l).*1 = filter (fun k => k <> key) l.*1.
Proof. induction l as [|[k v] l IH]; [done|]. rewrite fmap_cons, !filter_cons. cbn [fst]. destruct (decide (k <> key)); cbn; by rewrite <- IH. Qed.

Lemma filter_snd_keys {A B} `{EqDecision B} (key : B) (l : list (A * B)) :
  (filter (fun e => e.2 <> key) l).*2 = filter (fun k => k <> key) l.*2.
Proof. induction l as [|[v k] l IH]; [done|]. rewrite fmap_cons, !filter_cons. cbn [snd]. destruct (decide (k <> key)); cbn; by rewrite <- IH. Qed.

Lemma lru_remove_absent key l : key ∉ l.*1 -> lru_remove key l = l.
Proof.
  intros H. unfold lru_remove. apply filter_all. intros [k v] Hin E. simpl in E. subst k.
  apply H. by apply (list_elem_of_fmap_2 fst) in Hin.
Qed.

Section represented.
Context (r : socketResolver) (l : lru) (R : represents r l).

Lemma rp_values : NoDup (sr_recency r).*2.
Proof. rewrite (rp_order _ _ R). apply R. Qed.

Lemma rp_lookup key : sr_cache r !! key = None <-> key ∉ l.*1.
Proof.
  rewrite eq_None_not_Some. split; intros H Hin; apply H.
  - pose proof Hin as Hin2. rewrite <- (rp_order _ _ R) in Hin2.
    apply list_elem_of_fmap in Hin as ([k v] & -> & Hin), Hin2 as ([id k'] & E & Hin2). simpl in *. subst k'.
    exists (mkCacheEntry v id). by apply (rp_cache _ _ R).
  - destruct Hin as [[v id] Hin]. apply (rp_cache _ _ R) in Hin as [Hin _].
    by apply (list_elem_of_fmap_2 fst) in Hin.
Qed.

Lemma rp_length : size (sr_cache r) = length l.
Proof.
  rewrite <- size_dom. replace (dom (sr_cache r)) with (list_to_set l.*1 : gset processFD).
  - rewrite size_list_to_set by apply R. apply length_fmap.
  - apply set_eq. intros k. rewrite elem_of_list_to_set, elem_of_dom, <- not_eq_None_Some, rp_lookup.
    split; [tauto|]. intros H. by apply dec_stable.
Qed.

Lemma rp_lru_lookup key v id : sr_cache r !! key = Some (mkCacheEntry v id) -> lru_lookup key l = Some v.
Proof. intros H. apply elem_of_list_to_map_1; [apply R|]. by apply (rp_cache _ _ R) in H as [? _]. Qed.

Lemma rp_lru_lookup_none key : sr_cache r !! key = None -> lru_lookup key l = None.
Proof. intros H. apply not_elem_of_list_to_map_1. by apply rp_lookup. Qed.

(** An element of the list of keys is removed by its name or by its key. *)
Lemma list_Remove_key id key :
  (id, key) ∈ sr_recency r -> list_Remove id (sr_recency r) = filter (fun e => e.2 <> key) (sr_recency r).
Proof.
  intros Hin. unfold list_Remove. apply filter_ext_in. intros [i k] Hi. simpl.
  split; intros Hne ->; apply Hne.
  - by apply (pair_unique_2 (sr_recency r) i id key rp_values).
  - by apply (pair_unique (sr_recency r) id k key (rp_elements _ _ R)).
Qed.
End represented.

Lemma represents_empty maxEntries : represents (newSocketResolverWithLimit maxEntries) [].
Proof.
  split; simpl; try constructor.
  - by rewrite lookup_empty.
  - intros [H _]. by apply not_elem_of_nil in H.
Qed.

Lemma remove_represents r l key v id :
  represents r l -> sr_cache r !! key = Some (mkCacheEntry v id) ->
  represents (mkSocketResolver (delete key (sr_cache r)) (list_Remove id (sr_recency r)) (sr_fresh r)
    (sr_maxEntries r)) (lru_remove key l).
Proof.
  intros R Hc. pose proof Hc as [Hl Hr]%(rp_cache _ _ R).
  split; cbn [sr_cache sr_recency sr_fresh]; rewrite ?(list_Remove_key r l R id key Hr).
  - eapply sublist_NoDup; [apply R|]. apply fmap_sublist, sublist_filter.
  - apply Forall_filter_keep, R.
  - unfold lru_remove. rewrite filter_fst_keys. apply NoDup_filter, R.
  - unfold lru_remove. by rewrite filter_snd_keys, filter_fst_keys, (rp_order _ _ R).
  - intros k w i. rewrite lookup_delete_Some, (rp_cache _ _ R). unfold lru_remove.
    rewrite !list_elem_of_filter. cbn [fst snd]. naive_solver.
Qed.

(** A hit, or a new value for a key of the cache *)
Lemma front_represents r l key v v' id :
  represents r l -> sr_cache r !! key = Some (mkCacheEntry v id) ->
  represents (mkSocketResolver (<[key := mkCacheEntry v' id]> (sr_cache r))
    (list_MoveToFront id (sr_recency r)) (sr_fresh r) (sr_maxEntries r)) ((key, v') :: lru_remove key l).
Proof.
  intros R Hc. pose proof Hc as [Hl Hr]%(rp_cache _ _ R).
  assert (E : list_MoveToFront id (sr_recency r) = (id, key) :: list_Remove id (sr_recency r)).
  { unfold list_MoveToFront. replace (filter _ _) with [(id, key)]; [done|]. symmetry.
    pose proof (rp_elements _ _ R) as Hn. clear -Hr Hn. induction (sr_recency r) as [|[i k] rec IH].
    { by apply not_elem_of_nil in Hr. }
    rewrite filter_cons. cbn [fst]. apply NoDup_cons in Hn as [Hi Hn].
    apply elem_of_cons in Hr as [[= <- <-]|Hr].
    - rewrite decide_True by done. f_equal. apply filter_none. intros [j k] Hj E. simpl in E. subst j.
      apply Hi. by apply (list_elem_of_fmap_2 fst) in Hj.
    - rewrite decide_False; [by apply IH|]. intros ->. apply Hi. by apply (list_elem_of_fmap_2 fst) in Hr. }
  pose proof (remove_represents r l key v id R Hc) as R'. rewrite E.
  destruct R' as [E1 E2 E3 E4 E5]. cbn [sr_cache sr_recency sr_fresh] in *.
  assert (Hid : id ∉ (list_Remove id (sr_recency r)).*1).
  { intros ([i k] & -> & Hin)%list_elem_of_fmap. apply list_elem_of_filter in Hin as [Hne _]. by apply Hne. }
  assert (Hkey : key ∉ (lru_remove key l).*1).
  { unfold lru_remove. rewrite filter_fst_keys. intros Hin. by apply list_elem_of_filter in Hin as [? _]. }
  split; cbn [sr_cache sr_recency sr_fresh fmap list_fmap fst snd].
  - by apply NoDup_cons.
  - apply Forall_cons. split; [|done]. pose proof (rp_fresh _ _ R) as F. rewrite Forall_forall in F.
    exact (F _ Hr).
  - by apply NoDup_cons.
  - by rewrite E4.
  - intros k w i. rewrite lookup_insert. destruct (decide (key = k)) as [<-|Hne].
    + rewrite !elem_of_cons. split.
      * intros [= <- <-]. auto.
      * intros [[Ew|Hin] [Ei|Hin']]; simplify_eq; [done|..]; exfalso.
        -- apply Hkey. rewrite <- E4. by apply (list_elem_of_fmap_2 snd) in Hin'.
        -- apply Hkey. by apply (list_elem_of_fmap_2 fst) in Hin.
        -- apply Hkey. by apply (list_elem_of_fmap_2 fst) in Hin.
    + rewrite !elem_of_cons. rewrite <- (lookup_delete_ne (sr_cache r) key k) by done.
      rewrite E5. naive_solver.
Qed.

Lemma push_represents r l key v :
  represents r l -> sr_cache r !! key = None ->
  represents (mkSocketResolver (<[key := mkCacheEntry v (sr_fresh r)]> (sr_cache r))
    ((sr_fresh r, key) :: sr_recency r) (S (sr_fresh r)) (sr_maxEntries r)) ((key, v) :: l).
Proof.
  intros R Hc. pose proof (proj1 (rp_lookup _ _ R key) Hc) as Hkey.
  assert (Hrec : key ∉ (sr_recency r).*2) by (by rewrite (rp_order _ _ R)).
  pose proof (rp_fresh _ _ R) as F. rewrite Forall_forall in F.
  assert (Hid : sr_fresh r ∉ (sr_recency r).*1).
  { intros ([i k] & E & Hin)%list_elem_of_fmap. simpl in E. apply F in Hin. simpl in Hin. lia. }
  split; cbn [sr_cache sr_recency sr_fresh fmap list_fmap fst snd].
  - apply NoDup_cons. split; [done|apply R].
  - apply Forall_forall. intros [i k] [E|Hin]%elem_of_cons; [simplify_eq; simpl; lia|].
    apply F in Hin. simpl in *. lia.
  - apply NoDup_cons. split; [done|apply R].
  - f_equal. apply R.
  - intros k w i. rewrite lookup_insert, !elem_of_cons. destruct (decide (key = k)) as [<-|Hne].
    + split; [intros [= <- <-]; auto|].
      intros [[Ew|Hin] [Ei|Hin']]; simplify_eq; [done|..]; exfalso.
      * apply Hrec. by apply (list_elem_of_fmap_2 snd) in Hin'.
      * apply Hkey. by apply (list_elem_of_fmap_2 fst) in Hin.
      * apply Hkey. by apply (list_elem_of_fmap_2 fst) in Hin.
    + rewrite (rp_cache _ _ R). naive_solver.
Qed.

(** Removing the last key of a list of distinct keys *)
Lemma lru_remove_last l k v : NoDup (l ++ [(k, v)]).*1 -> lru_remove k (l ++ [(k, v)]) = l.
Proof.
  rewrite fmap_app. intros (_ & H & _)%NoDup_app. unfold lru_remove. rewrite filter_app.
  rewrite filter_cons_False by (by intros Hne; apply Hne). rewrite app_nil_r.
  apply lru_remove_absent. intros Hin. by apply (H k Hin), list_elem_of_singleton.
Qed.

Lemma rememberTuple_put r l key inode tuple :
  represents r l -> (length l <= Z.to_nat (sr_maxEntries r))%nat ->
  represents (rememberTuple r key inode tuple) (lru_put (sr_maxEntries r) l key (mkCachedSocket inode tuple)).
Proof.
  intros R Hb. unfold rememberTuple, lru_put. destruct (Z.leb_spec (sr_maxEntries r) 0) as [Hm|Hm].
  { replace (Z.to_nat (sr_maxEntries r)) with 0%nat in * by lia. destruct l; [done|simpl in *; lia]. }
  set (v := mkCachedSocket inode tuple).
  destruct (sr_cache r !! key) as [[w id]|] eqn:Ec; cbn [se_element].
  - rewrite take_ge; [by eapply front_represents|].
    assert (Hin : (key, w) ∈ l) by (by apply (rp_cache _ _ R) in Ec as [? _]).
    assert (length (lru_remove key l) < length l)%nat; [|simpl; lia].
    unfold lru_remove. apply length_filter_lt with (x := (key, w)); [done|]. by intros Hne; apply Hne.
  - pose proof (push_represents r l key v R Ec) as P.
    rewrite (lru_remove_absent key l) by (by apply (rp_lookup _ _ R)).
    pose proof (rp_length _ _ P) as Hs. cbn [sr_cache] in Hs. rewrite Hs.
    set (l' := (key, v) :: l) in *.
    destruct (Z.leb_spec (Z.of_nat (length l')) (sr_maxEntries r)).
    { by rewrite take_ge by lia. }
    replace (Z.to_nat (sr_maxEntries r)) with (length l' - 1)%nat by (unfold l' in *; simpl in *; lia).
    pose proof (rp_order _ _ P) as Eo. cbn [sr_recency] in Eo.
    destruct (last ((sr_fresh r, key) :: sr_recency r)) as [[oldest oldestKey]|] eqn:El;
      [|by apply last_None in El].
    apply last_Some in El as [rec' Erec]. rewrite Erec, fmap_app in Eo. cbn [fmap list_fmap snd] in Eo.
    destruct (exists_last (l := l') ltac:(done)) as (l0 & [k0 v0] & E0). rewrite E0 in *.
    rewrite fmap_app in Eo. cbn [fmap list_fmap fst] in Eo. apply app_inj_tail in Eo as [_ ->].
    replace (take _ _) with (lru_remove k0 (l0 ++ [(k0, v0)])).
    2: { rewrite lru_remove_last by apply P. rewrite length_app. simpl. by rewrite Nat.add_sub, take_app_length. }
    assert (Hin : (oldest, k0) ∈ (sr_fresh r, key) :: sr_recency r) by (rewrite Erec; set_solver).
    apply (remove_represents _ _ k0 v0 oldest P). apply (rp_cache _ _ P). cbn [sr_recency].
    split; [set_solver|done].
Qed.

Lemma lru_get_length l key inode : (length (lru_get l key inode).1 <= length l)%nat.
Proof.
  unfold lru_get. destruct (lru_lookup key l) as [v|] eqn:E; [|done].
  unfold lru_lookup in E. apply elem_of_list_to_map_2 in E. unfold lru_remove. case_bool_decide; cbn [fst length].
  - apply (length_filter_lt (fun e => e.1 <> key) l (key, v) E). by intros Hne; apply Hne.
  - apply length_filter.
Qed.

Lemma cachedTuple_get r l key inode :
  represents r l ->
  represents (cachedTuple r key inode).1 (lru_get l key inode).1 /\
  (cachedTuple r key inode).2 = (lru_get l key inode).2.
Proof.
  intros R. unfold cachedTuple, lru_get. destruct (sr_cache r !! key) as [[v id]|] eqn:Ec.
  - rewrite (rp_lru_lookup _ _ R _ _ _ Ec). cbn [se_value se_element].
    case_bool_decide; cbn [negb fst snd]; (split; [|done]).
    + pose proof (front_represents r l key v v id R Ec) as F. by rewrite insert_id in F.
    + by apply remove_represents with (v := v).
  - by rewrite (rp_lru_lookup_none _ _ R _ Ec).
Qed.

Lemma run_op_max r op : sr_maxEntries (run_op r op).1 = sr_maxEntries r.
Proof.
  destruct op as [key inode|key inode tuple]; simpl.
  - unfold cachedTuple. destruct (_ !! key) as [e|]; [|done]. by destruct (negb _).
  - unfold rememberTuple. destruct (_ <=? 0); [done|]. destruct (_ !! key) as [e|]; [done|].
    destruct (_ <=? _); [done|]. by destruct (last _) as [[]|].
Qed.

Lemma run_op_simulates r l op :
  represents r l -> (length l <= Z.to_nat (sr_maxEntries r))%nat ->
  represents (run_op r op).1 (lru_op (sr_maxEntries r) l op).1 /\
  (run_op r op).2 = (lru_op (sr_maxEntries r) l op).2 /\
  (length (lru_op (sr_maxEntries r) l op).1 <= Z.to_nat (sr_maxEntries r))%nat.
Proof.
  intros R Hb. destruct op as [key inode|key inode tuple]; cbn [run_op lru_op fst snd].
  - destruct (cachedTuple_get r l key inode R) as [R' E]. split; [exact R'|split; [exact E|]].
    pose proof (lru_get_length l key inode). lia.
  - split; [by apply rememberTuple_put|split; [done|]]. unfold lru_put. rewrite length_take. lia.
Qed.

Lemma run_ops_simulates r l ops :
  represents r l -> (length l <= Z.to_nat (sr_maxEntries r))%nat ->
  (run_ops r ops).2 = (lru_ops (sr_maxEntries r) l ops).2 /\
  represents (run_ops r ops).1 (lru_ops (sr_maxEntries r) l ops).1 /\
  (length (lru_ops (sr_maxEntries r) l ops).1 <= Z.to_nat (sr_maxEntries r))%nat.
Proof.
  revert r l. induction ops as [|op ops IH]; intros r l R Hb; [done|]. cbn [run_ops lru_ops].
  destruct (run_op_simulates r l op R Hb) as (R1 & E1 & B1). pose proof (run_op_max r op) as Em.
  destruct (run_op r op) as [r1 out], (lru_op (sr_maxEntries r) l op) as [l1 out']. simpl in *.
  rewrite <- Em in B1. destruct (IH r1 l1 R1 B1) as (E2 & R2 & B2). rewrite Em in *.
  destruct (run_ops r1 ops), (lru_ops (sr_maxEntries r) l1 ops). simpl in *. by subst.
Qed.

(** *** The table *)

Lemma reverse_words_involutive words l :
  length l = (4 * words)%nat -> reverse_words words (reverse_words words l) = l.
Proof.
  revert l. induction words as [|words IH]; intros l Hl; [by destruct l|]. cbn [reverse_words].
  assert (H4 : length (reverse (take 4 l)) = 4%nat) by (rewrite length_reverse, length_take; lia).
  rewrite take_app_length', drop_app_length' by done. rewrite reverse_involutive, IH by (rewrite length_drop; lia).
  apply take_drop.
Qed.

Lemma length_reverse_words words l : length l = (4 * words)%nat -> length (reverse_words words l) = (4 * words)%nat.
Proof.
  revert l. induction words as [|words IH]; intros l Hl; [done|]. cbn [reverse_words].
  rewrite length_app, length_reverse, length_take, IH; rewrite ?length_drop; lia.
Qed.

Lemma hex_bytes_no_colon l : byte_of 58 ∉ hex_bytes l.
Proof.
  intros Hin. pose proof (hex_bytes_digits l) as F. rewrite Forall_forall in F.
  destruct (F _ Hin) as [H _]. by vm_compute in H.
Qed.

Lemma parseProcEndpoint_text family address port :
  family = AddressFamilyIPv4 \/ family = AddressFamilyIPv6 ->
  length address = (if (family =? AddressFamilyIPv4)%Z then 4 else 16)%nat -> 0 <= port < 65536 ->
  parseProcEndpoint (endpoint_text address port) family = Ok (array16 address, port).
Proof.
  intros Hf Hl Hp. unfold parseProcEndpoint, endpoint_text. rewrite cut_byte_app by apply hex_bytes_no_colon.
  pose proof (ParseUint16_bytes (be_bytes 2 port) 2 (length_be_bytes _ _) ltac:(lia)) as P.
  change (8 * Z.of_nat 2) with 16 in P. rewrite P, be_uint_bytes, Z.mod_small by done.
  rewrite hex_DecodeString_bytes. destruct Hf as [-> | ->]; simpl Z.eqb in *; cbv iota in *; rewrite Hl.
  - change (4 / 4)%nat with 1%nat. rewrite length_reverse_words by done. cbn [negb Nat.eqb Nat.mul Nat.add reverse_words].
    by rewrite app_nil_r, reverse_involutive, take_ge by lia.
  - change (16 / 4)%nat with 4%nat. rewrite length_reverse_words, reverse_words_involutive by done.
    simpl negb. cbv iota. unfold array16. by rewrite take_app_length'.
Qed.

Lemma Fields_spaces n l : Fields (spaces n ++ l) = Fields l.
Proof. induction n as [|n IH]; [done|]. cbn [spaces replicate app]. by rewrite Fields_space. Qed.

Lemma Fields_row lead gaps words :
  Forall word_ok words -> Fields (spaces lead ++ concat ((fun w => w ++ spaces (S gaps)) <$> words)) = words.
Proof.
  rewrite Fields_spaces. induction 1 as [|w words [H1 H2] Hw IH]; [done|].
  cbn [fmap list_fmap concat]. rewrite <- app_assoc.
  match goal with |- context [w ++ spaces (S gaps) ++ ?l] =>
    change (spaces (S gaps) ++ l) with (byte_of 32 :: (spaces gaps ++ l)) end.
  by rewrite Fields_word, Fields_spaces, IH.
Qed.

Lemma endpoint_text_ok address port : word_ok (endpoint_text address port).
Proof.
  unfold endpoint_text. split; [by destruct (hex_bytes _)|]. apply Forall_app. split.
  - eapply Forall_impl; [apply hex_bytes_digits|]. by intros b [_ H].
  - apply Forall_cons. split; [done|]. eapply Forall_impl; [apply hex_bytes_digits|]. by intros b [_ H].
Qed.

Lemma row_fields_ok family row : row_ok family row -> Forall word_ok (row_fields row).
Proof.
  intros (H1 & H2 & _ & H3 & H4 & _). unfold row_fields.
  repeat (apply Forall_cons; split; [done || apply endpoint_text_ok|]).
  apply Forall_app. split; [done|]. by apply Forall_cons.
Qed.

Lemma row_text_line family lead gaps row : row_ok family row -> byte_of 10 ∉ row_text lead gaps row.
Proof.
  intros Hrow. pose proof (row_fields_ok _ _ Hrow) as Hw. unfold row_text.
  assert (Hs : forall n, byte_of 10 ∉ spaces n) by (intros n H; by apply elem_of_replicate in H as [H _]).
  rewrite not_elem_of_app. split; [apply Hs|]. induction Hw as [|w words [H1 H2] Hw IH]; [set_solver|].
  cbn [fmap list_fmap concat]. rewrite !not_elem_of_app. split; [split; [|apply Hs]|done].
  intros Hin. rewrite Forall_forall in H2. by apply H2 in Hin.
Qed.

Lemma parse_lines_rows rows inode family :
  family = AddressFamilyIPv4 \/ family = AddressFamilyIPv6 -> Forall (fun r => row_ok family r.2) rows ->
  inode <> [] ->
  parse_lines (split_byte (byte_of 10)
    (concat ((fun '(lead, gaps, row) => row_text lead gaps row ++ [byte_of 10]) <$> rows))) inode family =
    Ok (row_tuple family <$> List.find (fun row => bool_decide (row_inode row = inode)) (snd <$> rows)).
Proof.
  intros Hf Hr Hi. induction Hr as [|[[lead gaps] row] rows Hrow Hr IH]; [done|].
  cbn [fmap list_fmap concat snd] in *. rewrite <- app_assoc. cbn [app].
  rewrite split_byte_line by by eapply row_text_line. cbn [parse_lines List.find].
  unfold row_text. rewrite Fields_row by by eapply row_fields_ok.
  destruct Hrow as (_ & _ & Hm & _ & _ & Hla & Hra & Hlp & Hrp).
  assert (E9 : nth 9 (row_fields row) [] = row_inode row).
  { unfold row_fields. cbn [nth]. rewrite app_nth2 by lia. by rewrite Hm. }
  assert (El : (10 <= length (row_fields row))%nat)
    by (unfold row_fields; cbn [length]; rewrite length_app, Hm; cbn [length]; lia).
  rewrite E9, (proj2 (Nat.ltb_ge _ _)) by done. cbn [orb].
  case_bool_decide; cbn [negb]; [|exact IH].
  unfold row_fields. cbn [nth]. rewrite !parseProcEndpoint_text by done. done.
Qed.

(** ** Theorems *)

(** C31. Over every sequence of lookups and insertions the cache answers
    what a bounded list of keys in order of last use answers: a hit needs the
    inode the tuple was remembered with, a stale inode removes the key, and
    the least recently used key makes room. Map and list never disagree and
    never exceed the bound. *)
Theorem socket_cache_refines_lru maxEntries ops :
  let '(r, outs) := run_ops (newSocketResolverWithLimit maxEntries) ops in
  let '(l, outs') := lru_ops maxEntries [] ops in
  outs = outs' /\ represents r l /\ size (sr_cache r) = length (sr_recency r) /\
  Z.of_nat (size (sr_cache r)) <= Z.max 0 maxEntries.
Proof.
  destruct (run_ops_simulates (newSocketResolverWithLimit maxEntries) [] ops) as (E & R & B);
    [apply represents_empty|simpl; lia|]. cbn [sr_maxEntries newSocketResolverWithLimit] in *.
  destruct (run_ops _ ops) as [r outs], (lru_ops maxEntries [] ops) as [l outs']. cbn [fst snd] in *.
  split; [exact E|split; [exact R|]]. pose proof (rp_length _ _ R) as Hs. split; [|lia].
  by rewrite Hs, <- (length_fmap fst l), <- (rp_order _ _ R), length_fmap.
Qed.

(** parseProcNetTCP finds the first row of the kernel's table with the
    inode asked for, whatever the spacing, and returns its two addresses,
    whose words the kernel prints as native integers, and its ports; without
    such a row it finds nothing. *)
Theorem parseProcNetTCP_finds header rows inode family :
  family = AddressFamilyIPv4 \/ family = AddressFamilyIPv6 ->
  Forall (fun r => row_ok family r.2) rows -> inode <> [] ->
  byte_of 10 ∉ header -> nth 9 (Fields header) [] <> inode ->
  parseProcNetTCP (table_text header rows) inode family =
    Ok (row_tuple family <$> List.find (fun row => bool_decide (row_inode row = inode)) (snd <$> rows)).
Proof.
  intros Hf Hr Hi Hh H9. unfold parseProcNetTCP, table_text. rewrite split_byte_line by done.
  cbn [parse_lines]. rewrite (bool_decide_false _ H9), orb_true_r. by apply parse_lines_rows.
Qed.

Definition example_row (inode : string) (last_byte port : Z) : socket_row :=
  mkRow (lit "0:") (byte_of <$> [10; 0; 0; last_byte]) port (byte_of <$> [10; 96; 0; 1]) 443
    (lit <$> ["01"; "00000000:00000000"; "00:00000000"; "00000000"; "1000"; "0"]) (lit inode) [lit "1"].

Lemma word_ok_bool w : (negb (bool_decide (w = [])) && forallb is_graphic w) = true -> word_ok w.
Proof.
  intros [H1 H2]%andb_true_iff. split; [by apply negb_true_iff, bool_decide_eq_false in H1|].
  by apply List.Forall_forall, List.forallb_forall.
Qed.

Lemma example_row_ok inode last_byte port :
  word_ok (lit inode) -> 0 <= port < 65536 -> row_ok AddressFamilyIPv4 (example_row inode last_byte port).
Proof.
  intros Hi Hp. split; [by apply word_ok_bool|].
  split; [repeat (apply Forall_cons; split; [by apply word_ok_bool|]); by apply Forall_nil|].
  split; [done|]. split; [exact Hi|].
  split; [apply Forall_cons; split; [by apply word_ok_bool|by apply Forall_nil]|].
  split; [done|]. split; [done|]. split; [exact Hp|]. simpl. lia.
Qed.

Lemma parseProcNetTCP_finds_witness :
  parseProcNetTCP (table_text (lit "  sl  local_address rem_address   st tx_queue")
    [(3, 0, example_row "41" 5 80); (3, 2, example_row "42" 7 8080)]%nat) (lit "42") AddressFamilyIPv4 =
  Ok (Some (mkSocketTuple AddressFamilyIPv4 (array16 (byte_of <$> [10; 0; 0; 7]))
    (array16 (byte_of <$> [10; 96; 0; 1])) 8080 443)).
Proof.
  rewrite parseProcNetTCP_finds.
  - vm_compute. reflexivity.
  - left. reflexivity.
  - repeat (apply Forall_cons; split;
      [apply example_row_ok; [by apply word_ok_bool|split; by vm_compute]|]). by apply Forall_nil.
  - by vm_compute.
  - intros H. apply (bool_decide_eq_true_2 _) in H. vm_compute in H. discriminate H.
  - by vm_compute.
Defined.
