(* ===== verification/Reader.v ===== *)
(** * internal/collector: the event reader

    The Read loop of loader_linux.go: pending coverage events first, a poll
    of the kernel's drop counters every second, then the ring buffer. What
    the clock, the counters, the ring buffer and /proc answer in an iteration
    is an input. *)

From S2P Require Import Prelude Collector SocketResolver.

#[local] Open Scope Z_scope.

(** ** Definitions *)

Definition kernelDropPollInterval : Duration := Second.

Inductive ring_result :=
| DeadlineExceeded
| RingError
| Sample (raw : list byte).

(** What one iteration of the loop sees; the counters have a value for each
    CPU, or their lookup fails. *)
Record read_input := mkInput {
  in_now : Time;
  in_counters : list (option (list Z));
  in_ring : ring_result;
  in_link : option (list byte);
  in_tcp : option (list byte);
  in_tcp6 : option (list byte)
}.

Inductive ReadError :=
| counter_error (index : nat)
| ring_error
| decode_error (e : CollectorError).

Record bpfReader := mkReader {
  br_resolver : socketResolver;
  br_dropSnapshot : list Z;
  br_pending : list Event;
  br_nextDropPollTime : Time
}.

(** What OpenBPF returns once its programs are attached *)
Definition opened : bpfReader := mkReader newSocketResolver [0; 0; 0] [] 0.

(** current[index] += value *)
Definition sum_values (values : list Z) : Z := foldl (fun acc value => u64 (acc + value)) 0 values.

Fixpoint read_counters (index : nat) (counters : list (option (list Z))) : result ReadError (list Z) :=
  match counters with
  | [] => Ok []
  | None :: _ => Err (counter_error index)
  | Some values :: counters' =>
      rest ← read_counters (S index) counters';
      Ok (sum_values values :: rest)
  end.

Definition pollKernelDrops (reader : bpfReader) (counters : list (option (list Z))) :
    result ReadError bpfReader :=
  current ← read_counters 0 counters;
  Ok (mkReader (br_resolver reader) current
    (br_pending reader ++ kernelDropEvents (br_dropSnapshot reader) current) (br_nextDropPollTime reader)).

(** The resolver as an eventEnricher *)
Definition resolver_enrich (r : socketResolver) (input : read_input) (event : Event) : Event * bool :=
  match (enrich r event (in_link input) (in_tcp input) (in_tcp6 input)).2 with
  | Ok event' => (event', true)
  | Err _ => (event, false)
  end.

(** One iteration: [None] when it continues *)
Definition read_iteration (order : byte_order) (reader : bpfReader) (input : read_input) :
    bpfReader * option (result ReadError Event) :=
  match br_pending reader with
  | event :: pending =>
      (mkReader (br_resolver reader) (br_dropSnapshot reader) pending (br_nextDropPollTime reader),
       Some (Ok event))
  | [] =>
      let now := in_now input in
      if time_IsZero (br_nextDropPollTime reader) || negb (time_Before now (br_nextDropPollTime reader)) then
        match pollKernelDrops reader (in_counters input) with
        | Err e => (reader, Some (Err e))
        | Ok polled =>
            (mkReader (br_resolver polled) (br_dropSnapshot polled) (br_pending polled)
               (time_Add now kernelDropPollInterval), None)
        end
      else
        match in_ring input with
        | DeadlineExceeded => (reader, None)
        | RingError => (reader, Some (Err ring_error))
        | Sample raw =>
            match decodeEvent raw order with
            | Err e => (reader, Some (Err (decode_error e)))
            | Ok event =>
                if (ev_Kind event =? EventKindL7Fragment) && (ev_Family event =? 0) then
                  let resolver := br_resolver reader in
                  (mkReader (enrich resolver event (in_link input) (in_tcp input) (in_tcp6 input)).1
                     (br_dropSnapshot reader) [] (br_nextDropPollTime reader),
                   Some (Ok (enrichL7Event event (resolver_enrich resolver input))))
                else (reader, Some (Ok event))
            end
        end
  end.

(** Read: iterations until one returns; [None] when the inputs end first *)
Fixpoint Read (order : byte_order) (reader : bpfReader) (inputs : list read_input) :
    bpfReader * option (result ReadError Event) * list read_input :=
  match inputs with
  | [] => (reader, None, [])
  | input :: inputs' =>
      let '(reader, outcome) := read_iteration order reader input in
      match outcome with
      | Some r => (reader, Some r, inputs')
      | None => Read order reader inputs'
      end
  end.

(** Calls of Read, and the events they return *)
Fixpoint Reads (n : nat) (order : byte_order) (reader : bpfReader) (inputs : list read_input) :
    bpfReader * list Event * list read_input :=
  match n with
  | O => (reader, [], inputs)
  | S n' =>
      let '(reader, outcome, inputs) := Read order reader inputs in
      let '(reader, events, inputs) := Reads n' order reader inputs in
      (reader, (if outcome is Some (Ok event) then [event] else []) ++ events, inputs)
  end.

(** The drops some events report for a reason *)
Definition drop_total (reason : string) (events : list Event) : Z :=
  foldr (fun e total => (if bool_decide (ev_DropReason e = reason) then ev_DropCount e else 0) + total) 0 events.

(** The counters a poll of this input would read *)
Definition snapshot_of (input : read_input) : option (list Z) :=
  match read_counters 0 (in_counters input) with Ok current => Some current | Err _ => None end.

Definition counters_grow (inputs : list read_input) : Prop :=
  Forall (fun input => length (in_counters input) = 3%nat) inputs /\
  StronglySorted (Forall2 Z.le) (omap snapshot_of inputs).

(** ** Lemmas *)

Lemma drop_total_app reason x y : drop_total reason (x ++ y) = drop_total reason x + drop_total reason y.
Proof. unfold drop_total. induction x as [|e x IH]; simpl in *; [done|]. rewrite IH. lia. Qed.

Definition totals (events : list Event) : list Z :=
  (fun reason => drop_total reason events) <$> kernelDropReasons.

Definition counter_ok (z : Z) : Prop := 0 <= z < 2 ^ 64.

Lemma kernelDropDelta_grow p c : counter_ok p -> counter_ok c -> p <= c -> kernelDropDelta p c = c - p.
Proof.
  unfold counter_ok. intros Hp Hc Hle. unfold kernelDropDelta. rewrite (proj2 (Z.leb_le _ _)) by done.
  apply uint_small. lia.
Qed.

(** What a poll reports is what the counters grew by. *)
Lemma kernelDropEvents_totals previous current x :
  length previous = 3%nat -> Forall2 Z.le previous current ->
  Forall counter_ok previous -> Forall counter_ok current ->
  totals x = previous -> totals (x ++ kernelDropEvents previous current) = current.
Proof.
  intros Hl Hle Hp Hc. destruct previous as [|p0 [|p1 [|p2 [|? ?]]]]; try done.
  apply Forall2_cons_inv_l in Hle as (c0 & ? & L0 & Hle & ->).
  apply Forall2_cons_inv_l in Hle as (c1 & ? & L1 & Hle & ->).
  apply Forall2_cons_inv_l in Hle as (c2 & ? & L2 & Hle & ->). apply Forall2_nil_inv_l in Hle as ->.
  rewrite !Forall_cons in Hp, Hc. unfold totals. cbn [fmap list_fmap kernelDropReasons].
  intros [= E0 E1 E2]. rewrite !drop_total_app. unfold kernelDropEvents. cbn [kernelDropReasons zip zip_with flat_map].
  rewrite !kernelDropDelta_grow by tauto.
  assert (D : forall reason n reason', drop_total reason (if n =? 0 then [] else [dropEvent reason' n]) =
    if bool_decide (reason' = reason) then n else 0).
  { intros reason n reason'. destruct (Z.eqb_spec n 0) as [->|]; [by case_bool_decide|].
    unfold drop_total. cbn [foldr dropEvent ev_DropReason ev_DropCount]. case_bool_decide; lia. }
  rewrite !drop_total_app, !D. cbn [drop_total foldr]. vm_compute (bool_decide _).
  repeat f_equal; lia.
Qed.

Lemma read_counters_ok index counters current :
  read_counters index counters = Ok current ->
  length current = length counters /\ Forall counter_ok current.
Proof.
  revert index current. induction counters as [|[values|] counters IH]; intros index current; cbn [read_counters]; [|..|done].
  - by intros [= <-].
  - destruct (read_counters (S index) counters) as [rest|] eqn:E; [|done]. intros [= <-].
    destruct (IH _ _ E) as [Hl Hc]. split; [simpl; by rewrite Hl|]. apply Forall_cons. split; [|done].
    unfold sum_values. assert (G : forall acc, counter_ok acc ->
      counter_ok (foldl (fun acc value => u64 (acc + value)) acc values)).
    { clear. induction values as [|v values IH]; intros acc Ha; [done|]. apply IH. by apply uint_range. }
    by apply G.
Qed.

(** Only polls write kernel drop reasons. *)
Lemma sample_no_drop order raw event f :
  decodeEvent raw order = Ok event -> (forall e, ev_DropReason (f e).1 = ev_DropReason e) ->
  totals [event] = [0; 0; 0] /\ totals [enrichL7Event event f] = [0; 0; 0].
Proof.
  intros Hd Hf. assert (E : ev_DropReason event = "").
  { unfold decodeEvent in Hd. destruct (negb _); [done|]. destruct (_ <? _); [done|]. by simplify_eq. }
  unfold totals, drop_total. cbn [fmap list_fmap kernelDropReasons foldr]. rewrite !E. split; [done|].
  assert (E' : ev_DropReason (enrichL7Event event f) = "" \/
    ev_DropReason (enrichL7Event event f) = DropReasonTupleUnresolved).
  { unfold enrichL7Event. destruct (_ || _); [by left|]. pose proof (Hf event) as Hfe. rewrite E in Hfe.
    destruct (f event) as [event' []]; [left; exact Hfe|by right]. }
  destruct E' as [-> | ->]; done.
Qed.

Lemma resolver_enrich_keeps r input e : ev_DropReason (resolver_enrich r input e).1 = ev_DropReason e.
Proof.
  unfold resolver_enrich, enrich. destruct (in_link input) as [target|]; [|done].
  destruct (socket_inode target) as [inode|]; [|done].
  destruct (cachedTuple r _ inode) as [r' [tuple|]]; [done|].
  by destruct (readProcessSocketTuple _ _ _).
Qed.

Definition event_of (outcome : option (result ReadError Event)) : list Event :=
  if outcome is Some (Ok event) then [event] else [].

(** The snapshot is what was reported and what is about to be. *)
Record conserved (reader : bpfReader) (delivered : list Event) (inputs : list read_input) : Prop := {
  cv_totals : totals (delivered ++ br_pending reader) = br_dropSnapshot reader;
  cv_ok : Forall counter_ok (br_dropSnapshot reader);
  cv_length : Forall (fun input => length (in_counters input) = 3%nat) inputs;
  cv_grow : StronglySorted (Forall2 Z.le) (br_dropSnapshot reader :: omap snapshot_of inputs)
}.

Lemma conserved_skip reader delivered input inputs :
  conserved reader delivered (input :: inputs) -> conserved reader delivered inputs.
Proof.
  intros [H1 H2 [_ H3]%Forall_cons H4]. split; [done..|]. cbn [omap list_omap] in H4.
  destruct (snapshot_of input); [|done]. apply StronglySorted_inv in H4 as [H4 F].
  apply StronglySorted_inv in H4 as [H4 _]. apply Forall_cons in F as [_ F]. by constructor.
Qed.

Lemma totals_zero x y : totals y = [0; 0; 0] -> totals (x ++ y) = totals x.
Proof.
  unfold totals. cbn [fmap list_fmap kernelDropReasons]. intros [= E0 E1 E2].
  rewrite !drop_total_app, E0, E1, E2. by rewrite !Z.add_0_r.
Qed.

Lemma conserved_report reader reader' delivered events inputs :
  conserved reader delivered inputs -> br_pending reader = [] -> br_pending reader' = [] ->
  br_dropSnapshot reader' = br_dropSnapshot reader -> totals events = [0; 0; 0] ->
  conserved reader' (delivered ++ events) inputs.
Proof.
  intros [H1 H2 H3 H4] P P' S T. split; rewrite ?P', ?S; try done.
  rewrite app_nil_r, totals_zero by done. by rewrite P, app_nil_r in H1.
Qed.

Lemma conserved_same reader delivered inputs :
  conserved reader delivered inputs -> conserved reader (delivered ++ []) inputs.
Proof. by rewrite app_nil_r. Qed.

Lemma poll_conserved reader delivered input inputs polled next :
  conserved reader delivered (input :: inputs) -> br_pending reader = [] ->
  pollKernelDrops reader (in_counters input) = Ok polled ->
  conserved (mkReader (br_resolver polled) (br_dropSnapshot polled) (br_pending polled) next)
    (delivered ++ []) inputs.
Proof.
  intros [H1 H2 H3 H4] P Hp. unfold pollKernelDrops in Hp.
  destruct (read_counters 0 (in_counters input)) as [current|] eqn:E; [|done].
  destruct (read_counters_ok _ _ _ E) as [Hl Hc]. apply Forall_cons in H3 as [H3 H3'].
  injection Hp as <-. cbn [omap list_omap] in H4. unfold snapshot_of in H4 at 1. rewrite E in H4.
  apply StronglySorted_inv in H4 as [H4 F]. apply Forall_cons in F as [F _].
  split; cbn [br_pending br_dropSnapshot]; try done.
  rewrite P, app_nil_r in *. cbn [app]. apply kernelDropEvents_totals; try done.
  by rewrite (Forall2_length _ _ _ F), Hl, H3.
Qed.

Lemma read_iteration_conserved order reader delivered input inputs :
  conserved reader delivered (input :: inputs) ->
  let '(reader', outcome) := read_iteration order reader input in
  conserved reader' (delivered ++ event_of outcome) inputs.
Proof.
  intros I. pose proof (conserved_skip _ _ _ _ I) as I'. unfold read_iteration.
  destruct (br_pending reader) as [|event pending] eqn:P.
  - destruct (time_IsZero _ || _).
    + destruct (pollKernelDrops reader (in_counters input)) as [polled|e] eqn:Hp; [|by apply conserved_same].
      by eapply poll_conserved.
    + destruct (in_ring input) as [| |raw]; [by apply conserved_same..|].
      destruct (decodeEvent raw order) as [event|e] eqn:Hd; [|by apply conserved_same].
      destruct (sample_no_drop _ _ _ (resolver_enrich (br_resolver reader) input) Hd
        (resolver_enrich_keeps _ _)) as [T1 T2].
      destruct (_ && _); by eapply conserved_report.
  - destruct I' as [H1 H2 H3 H4]. split; try done. cbn [br_pending event_of]. by rewrite <- app_assoc, <- H1, P.
Qed.

Lemma Read_conserved order reader delivered inputs :
  conserved reader delivered inputs ->
  let '(reader', outcome, inputs') := Read order reader inputs in
  conserved reader' (delivered ++ event_of outcome) inputs'.
Proof.
  revert reader. induction inputs as [|input inputs IH]; intros reader I; [by apply conserved_same|].
  cbn [Read]. pose proof (read_iteration_conserved order reader delivered input inputs I) as I'.
  destruct (read_iteration order reader input) as [reader' [r|]]; [done|].
  apply IH. by rewrite app_nil_r in I'.
Qed.

Lemma Reads_conserved n order reader delivered inputs :
  conserved reader delivered inputs ->
  let '(reader', events, inputs') := Reads n order reader inputs in
  conserved reader' (delivered ++ events) inputs'.
Proof.
  revert reader delivered inputs. induction n as [|n IH]; intros reader delivered inputs I.
  - by apply conserved_same.
  - cbn [Reads]. pose proof (Read_conserved order reader delivered inputs I) as I'.
    destruct (Read order reader inputs) as [[reader1 outcome] inputs1].
    specialize (IH reader1 _ inputs1 I'). destruct (Reads n order reader1 inputs1) as [[reader2 events] inputs2].
    by rewrite <- app_assoc in IH.
Qed.

(** The next poll, when there is nothing to return first *)
Lemma read_iteration_polls order reader input current :
  br_pending reader = [] -> br_nextDropPollTime reader <= in_now input ->
  snapshot_of input = Some current ->
  br_dropSnapshot (read_iteration order reader input).1 = current.
Proof.
  intros P Hn Hs. unfold read_iteration. rewrite P. unfold time_Before.
  rewrite (proj2 (Z.ltb_ge _ _)), orb_true_r by done. unfold snapshot_of, pollKernelDrops in *.
  destruct (read_counters 0 (in_counters input)); [|done]. by simplify_eq.
Qed.

(** ** Theorems *)

(** C32. No drop the kernel counted is lost or reported twice: while its
    counters grow, what the events returned by any number of reads report,
    with what is pending, is exactly what the last poll read, reason by
    reason; and whenever nothing is pending and the poll is due, an iteration
    reads the counters. *)
Theorem kernel_drops_conserved order n inputs :
  counters_grow inputs ->
  let '(reader, events, inputs') := Reads n order opened inputs in
  totals (events ++ br_pending reader) = br_dropSnapshot reader /\
  (forall input current, br_pending reader = [] -> br_nextDropPollTime reader <= in_now input ->
    snapshot_of input = Some current ->
    br_dropSnapshot (read_iteration order reader input).1 = current).
Proof.
  intros [Hl Hg]. pose proof (Reads_conserved n order opened [] inputs) as H.
  destruct (Reads n order opened inputs) as [[reader events] inputs']. split.
  - apply H. split; [done| |done|].
    + repeat (apply Forall_cons; split; [by split|]). by apply Forall_nil.
    + constructor; [done|]. rewrite Forall_forall. intros c (input & Hin & Hc)%list_elem_of_omap.
      rewrite Forall_forall in Hl. specialize (Hl _ Hin). unfold snapshot_of in Hc.
      destruct (read_counters 0 (in_counters input)) as [c'|] eqn:E; [|done]. injection Hc as ->.
      destruct (read_counters_ok _ _ _ E) as [Hl' Hc]. rewrite Hl in Hl'. cbn [br_dropSnapshot opened].
      destruct c as [|c0 [|c1 [|c2 [|? ?]]]]; try done. rewrite !Forall_cons in Hc.
      destruct Hc as ([? _] & [? _] & [? _] & _). by repeat constructor.
  - intros input current. apply read_iteration_polls.
Qed.

(** Two polls of two CPUs, the second after a second *)
Definition example_input (now a b : Z) : read_input :=
  mkInput (unix_epoch + now * Second) [Some [a; b]; Some [0; 0]; Some [b; 0]] DeadlineExceeded None None None.

Lemma kernel_drops_conserved_witness :
  let inputs := [example_input 0 1 2; example_input 0 1 2; example_input 0 1 2; example_input 1 4 2;
    example_input 1 4 2] in
  counters_grow inputs /\
  let '(reader, events, _) := Reads 3 LittleEndian opened inputs in
  totals (events ++ br_pending reader) = [6; 0; 2].
Proof.
  assert (G : counters_grow [example_input 0 1 2; example_input 0 1 2; example_input 0 1 2;
    example_input 1 4 2; example_input 1 4 2]).
  { split; [by repeat constructor|]. vm_compute (omap _ _).
    repeat constructor; by vm_compute. }
  split; [exact G|]. pose proof (kernel_drops_conserved LittleEndian 3 _ G) as H.
  destruct (Reads 3 LittleEndian opened _) as [[reader events] inputs'] eqn:E.
  destruct H as [H _]. rewrite H. apply (f_equal (fun t => br_dropSnapshot t.1.1)) in E. cbn [fst] in E.
  rewrite <- E. vm_compute. reflexivity.
Defined.
