(* ===== verification/Loader.v ===== *)
(** * internal/collector: loading and attaching the BPF programs

    OpenBPF, Close and InterruptRead of loader_linux.go, the OpenSSL probe
    coverage they check, and the close of the loaded objects (network_bpfel.go).
    What the kernel, the ELF files and the ring buffer answer is a [world];
    each resource that is acquired or released is an action of a trace, so
    that a leak, a double release or an order can be stated. A program and a
    map are known by their name in the ELF. *)

From S2P Require Import Prelude Collector SocketResolver Reader.

#[local] Open Scope Z_scope.

(** ** Definitions *)

(** *** OpenSSL probes *)

Record openSSLProbe := mkProbe {
  pb_symbol : string;
  pb_program : string;
  pb_returnProbe : bool
}.

Record openSSLCoverage := mkCoverage {
  sslSetFD : bool;
  sslSetBIO : bool;
  sslFree : bool;
  bioNewSocketEntry : bool;
  bioNewSocketReturn : bool;
  bioIntCtrl : bool;
  bioFree : bool;
  sslReadEntry : bool;
  sslReadReturn : bool;
  sslWriteEntry : bool;
  sslWriteReturn : bool;
  sslReadExEntry : bool;
  sslReadExReturn : bool;
  sslWriteExEntry : bool;
  sslWriteExReturn : bool
}.

(** openSSLCoverage{} *)
Definition no_coverage : openSSLCoverage :=
  mkCoverage false false false false false false false false false false false false false false false.

(** coverage.record(probe): the field of the probe becomes true. *)
Definition record (c : openSSLCoverage) (probe : openSSLProbe) : openSSLCoverage :=
  let 'mkCoverage fd bio fr nse nsr ic bf re rr we wr xre xrr xwe xwr := c in
  let s := pb_symbol probe in
  let ret := pb_returnProbe probe in
  if (s =? "SSL_set_fd")%string then mkCoverage true bio fr nse nsr ic bf re rr we wr xre xrr xwe xwr
  else if (s =? "SSL_set_bio")%string then mkCoverage fd true fr nse nsr ic bf re rr we wr xre xrr xwe xwr
  else if (s =? "SSL_free")%string then mkCoverage fd bio true nse nsr ic bf re rr we wr xre xrr xwe xwr
  else if (s =? "BIO_new_socket")%string then
    if ret then mkCoverage fd bio fr nse true ic bf re rr we wr xre xrr xwe xwr
    else mkCoverage fd bio fr true nsr ic bf re rr we wr xre xrr xwe xwr
  else if (s =? "BIO_int_ctrl")%string then mkCoverage fd bio fr nse nsr true bf re rr we wr xre xrr xwe xwr
  else if (s =? "BIO_free")%string then mkCoverage fd bio fr nse nsr ic true re rr we wr xre xrr xwe xwr
  else if (s =? "SSL_read")%string then
    if ret then mkCoverage fd bio fr nse nsr ic bf re true we wr xre xrr xwe xwr
    else mkCoverage fd bio fr nse nsr ic bf true rr we wr xre xrr xwe xwr
  else if (s =? "SSL_write")%string then
    if ret then mkCoverage fd bio fr nse nsr ic bf re rr we true xre xrr xwe xwr
    else mkCoverage fd bio fr nse nsr ic bf re rr true wr xre xrr xwe xwr
  else if (s =? "SSL_read_ex")%string then
    if ret then mkCoverage fd bio fr nse nsr ic bf re rr we wr xre true xwe xwr
    else mkCoverage fd bio fr nse nsr ic bf re rr we wr true xrr xwe xwr
  else if (s =? "SSL_write_ex")%string then
    if ret then mkCoverage fd bio fr nse nsr ic bf re rr we wr xre xrr xwe true
    else mkCoverage fd bio fr nse nsr ic bf re rr we wr xre xrr true xwr
  else c.

(** coverage.merge(other) *)
Definition merge (c o : openSSLCoverage) : openSSLCoverage :=
  mkCoverage (sslSetFD c || sslSetFD o) (sslSetBIO c || sslSetBIO o) (sslFree c || sslFree o)
    (bioNewSocketEntry c || bioNewSocketEntry o) (bioNewSocketReturn c || bioNewSocketReturn o)
    (bioIntCtrl c || bioIntCtrl o) (bioFree c || bioFree o)
    (sslReadEntry c || sslReadEntry o) (sslReadReturn c || sslReadReturn o)
    (sslWriteEntry c || sslWriteEntry o) (sslWriteReturn c || sslWriteReturn o)
    (sslReadExEntry c || sslReadExEntry o) (sslReadExReturn c || sslReadExReturn o)
    (sslWriteExEntry c || sslWriteExEntry o) (sslWriteExReturn c || sslWriteExReturn o).

(** coverage.validate(): what is missing, nil when nothing is *)
Definition validate (c : openSSLCoverage) : list string :=
  let readPair := (sslReadEntry c && sslReadReturn c) || (sslReadExEntry c && sslReadExReturn c) in
  let writePair := (sslWriteEntry c && sslWriteReturn c) || (sslWriteExEntry c && sslWriteExReturn c) in
  let bioMapping := sslSetBIO c && (bioIntCtrl c || (bioNewSocketEntry c && bioNewSocketReturn c)) in
  (if negb readPair then ["read entry/return pair"] else []) ++
  (if negb writePair then ["write entry/return pair"] else []) ++
  (if sslSetBIO c && negb bioMapping then ["BIO context-to-fd mapping"] else []) ++
  (if negb (sslSetFD c) && negb bioMapping then ["context-to-fd mapping"] else []) ++
  (if negb (sslFree c) then ["SSL_free lifecycle cleanup"] else []) ++
  (if bioMapping && negb (bioFree c) then ["BIO_free lifecycle cleanup"] else []).

Definition amd64_probes : list openSSLProbe :=
  [mkProbe "SSL_set_fd" "observe_ssl_set_fd_x86" false;
   mkProbe "BIO_new_socket" "observe_bio_new_socket_x86" false;
   mkProbe "BIO_new_socket" "observe_bio_new_socket_return_x86" true;
   mkProbe "BIO_int_ctrl" "observe_bio_int_ctrl_x86" false;
   mkProbe "SSL_set_bio" "observe_ssl_set_bio_x86" false;
   mkProbe "BIO_free" "observe_bio_free_x86" false;
   mkProbe "SSL_free" "observe_ssl_free_x86" false;
   mkProbe "SSL_read" "observe_ssl_read_x86" false;
   mkProbe "SSL_read" "observe_ssl_read_return_x86" true;
   mkProbe "SSL_write" "observe_ssl_write_x86" false;
   mkProbe "SSL_write" "observe_ssl_write_return_x86" true;
   mkProbe "SSL_read_ex" "observe_ssl_read_ex_x86" false;
   mkProbe "SSL_read_ex" "observe_ssl_read_ex_return_x86" true;
   mkProbe "SSL_write_ex" "observe_ssl_write_ex_x86" false;
   mkProbe "SSL_write_ex" "observe_ssl_write_ex_return_x86" true].

Definition arm64_probes : list openSSLProbe :=
  [mkProbe "SSL_set_fd" "observe_ssl_set_fd_arm64" false;
   mkProbe "BIO_new_socket" "observe_bio_new_socket_arm64" false;
   mkProbe "BIO_new_socket" "observe_bio_new_socket_return_arm64" true;
   mkProbe "BIO_int_ctrl" "observe_bio_int_ctrl_arm64" false;
   mkProbe "SSL_set_bio" "observe_ssl_set_bio_arm64" false;
   mkProbe "BIO_free" "observe_bio_free_arm64" false;
   mkProbe "SSL_free" "observe_ssl_free_arm64" false;
   mkProbe "SSL_read" "observe_ssl_read_arm64" false;
   mkProbe "SSL_read" "observe_ssl_read_return_arm64" true;
   mkProbe "SSL_write" "observe_ssl_write_arm64" false;
   mkProbe "SSL_write" "observe_ssl_write_return_arm64" true;
   mkProbe "SSL_read_ex" "observe_ssl_read_ex_arm64" false;
   mkProbe "SSL_read_ex" "observe_ssl_read_ex_return_arm64" true;
   mkProbe "SSL_write_ex" "observe_ssl_write_ex_arm64" false;
   mkProbe "SSL_write_ex" "observe_ssl_write_ex_return_arm64" true].

(** *** The loaded objects *)

(** The programs, in the order networkPrograms.Close closes them *)
Definition networkPrograms : list string :=
  ["observe_bio_free_arm64"; "observe_bio_free_x86"; "observe_bio_int_ctrl_arm64"; "observe_bio_int_ctrl_x86";
   "observe_bio_new_socket_arm64"; "observe_bio_new_socket_return_arm64"; "observe_bio_new_socket_return_x86";
   "observe_bio_new_socket_x86"; "observe_enter_close"; "observe_enter_read"; "observe_enter_recvfrom";
   "observe_enter_sendto"; "observe_enter_write"; "observe_exit_read"; "observe_exit_recvfrom";
   "observe_exit_sendto"; "observe_exit_write"; "observe_ssl_free_arm64"; "observe_ssl_free_x86";
   "observe_ssl_read_arm64"; "observe_ssl_read_ex_arm64"; "observe_ssl_read_ex_return_arm64";
   "observe_ssl_read_ex_return_x86"; "observe_ssl_read_ex_x86"; "observe_ssl_read_return_arm64";
   "observe_ssl_read_return_x86"; "observe_ssl_read_x86"; "observe_ssl_set_bio_arm64"; "observe_ssl_set_bio_x86";
   "observe_ssl_set_fd_arm64"; "observe_ssl_set_fd_x86"; "observe_ssl_write_arm64"; "observe_ssl_write_ex_arm64";
   "observe_ssl_write_ex_return_arm64"; "observe_ssl_write_ex_return_x86"; "observe_ssl_write_ex_x86";
   "observe_ssl_write_return_arm64"; "observe_ssl_write_return_x86"; "observe_ssl_write_x86"; "observe_tcp_connect";
   "observe_tcp_recvmsg"; "observe_tcp_sendmsg"; "observe_udp_recvmsg"; "observe_udp_sendmsg"].

Definition networkMaps : list string :=
  ["bio_fds"; "bio_new_socket_calls"; "drop_counters"; "events"; "http2_connections"; "io_calls"; "srtt_samples";
   "ssl_fds"; "ssl_read_calls"; "ssl_read_ex_calls"; "ssl_write_calls"; "ssl_write_ex_calls"].

(** *** Resources and traces *)

(** What a program is attached to *)
Inductive target :=
| Tracepoint (group name program : string)
| Fentry (program : string)
| Uprobe (path symbol program : string) (returnProbe : bool).

(** A link carries the length of the trace before its attachment, which tells
    it from every other link. *)
Record bpf_link := mkLink { ln_id : nat; ln_target : target }.

Inductive resource :=
| Object (name : string)
| ElfFile (path : string)
| Link (link : bpf_link)
| Ring.

(** A load acquires its objects by one call, in no order the program knows. *)
Inductive action := Acquire (r : resource) | Load (names : gset string) | Release (r : resource).

Definition trace : Type := list action.

#[export] Instance target_eq_dec : EqDecision target.
Proof. solve_decision. Defined.

#[export] Instance bpf_link_eq_dec : EqDecision bpf_link.
Proof. solve_decision. Defined.

#[export] Instance resource_eq_dec : EqDecision resource.
Proof. solve_decision. Defined.

Record Symbol := mkSymbol { sy_Name : string; sy_Section : Z }.

Definition SHN_UNDEF : Z := 0.

(** What the calls answer; those that can be made twice see what happened
    before. *)
Record world := mkWorld {
  w_RemoveMemlock : bool;
  w_load : bool;
  w_attach : trace -> target -> bool;
  w_elf_open : trace -> string -> bool;
  w_symbols : trace -> string -> option (list Symbol);
  w_OpenExecutable : trace -> string -> bool;
  w_ring : bool;
  w_close : trace -> resource -> bool;
  w_GOARCH : string;
  w_fentry : list (string * string) (* the iteration of the map of fentry programs *)
}.

Inductive LoadError :=
| options_error
| memlock_error
| load_error
| tracepoint_error (group name : string)
| fentry_error (name : string)
| symbols_error (path : string)
| executable_error (path : string)
| architecture_error (arch : string)
| attach_error (symbol path : string)
| no_symbols_error (path : string)
| coverage_error (missing : list string)
| ring_buffer_error.

(** *** Closing *)

(** A close: the error, if any, names the resource. *)
Definition close_one (w : world) (r : resource) (tr : trace) : option resource * trace :=
  (if w_close w tr r then None else Some r, tr ++ [Release r]).

(** The closes of a loop that goes on after an error: the errors that are not
    nil *)
Fixpoint close_all (w : world) (rs : list resource) (tr : trace) : list resource * trace :=
  match rs with
  | [] => ([], tr)
  | r :: rs' =>
      let '(e, tr) := close_one w r tr in
      let '(es, tr) := close_all w rs' tr in
      (option_list e ++ es, tr)
  end.

Definition closeLinks (w : world) (links : list bpf_link) (tr : trace) : list resource * trace :=
  close_all w (rev (Link <$> links)) tr.

(** _NetworkClose stops at the first error. *)
Fixpoint NetworkClose {A} (close : A -> trace -> option resource * trace) (closers : list A) (tr : trace) :
    option resource * trace :=
  match closers with
  | [] => (None, tr)
  | c :: closers' =>
      let '(e, tr) := close c tr in
      if e is Some r then (Some r, tr) else NetworkClose close closers' tr
  end.

Definition close_objects (w : world) (names : list string) (tr : trace) : option resource * trace :=
  NetworkClose (fun name => close_one w (Object name)) names tr.

(** networkObjects.Close *)
Definition objects_Close (w : world) (tr : trace) : option resource * trace :=
  NetworkClose (close_objects w) [networkPrograms; networkMaps] tr.

(** *** Attaching *)

Definition attach (w : world) (t : target) (tr : trace) : option bpf_link * trace :=
  if w_attach w tr t then let link := mkLink (length tr) t in (Some link, tr ++ [Acquire (Link link)]) else (None, tr).

Definition tracepoints : list (string * string * string) :=
  [("sock", "inet_sock_set_state", "observe_tcp_connect");
   ("syscalls", "sys_enter_close", "observe_enter_close");
   ("syscalls", "sys_enter_read", "observe_enter_read");
   ("syscalls", "sys_exit_read", "observe_exit_read");
   ("syscalls", "sys_enter_write", "observe_enter_write");
   ("syscalls", "sys_exit_write", "observe_exit_write");
   ("syscalls", "sys_enter_recvfrom", "observe_enter_recvfrom");
   ("syscalls", "sys_exit_recvfrom", "observe_exit_recvfrom");
   ("syscalls", "sys_enter_sendto", "observe_enter_sendto");
   ("syscalls", "sys_exit_sendto", "observe_exit_sendto")].

(** The entries of the map of fentry programs; a range visits them in any
    order. *)
Definition fentry_programs : list (string * string) :=
  [("tcp_sendmsg", "observe_tcp_sendmsg"); ("tcp_recvmsg", "observe_tcp_recvmsg");
   ("udp_sendmsg", "observe_udp_sendmsg"); ("udp_recvmsg", "observe_udp_recvmsg")].

Fixpoint attach_tracepoints (w : world) (tps : list (string * string * string)) (links : list bpf_link) (tr : trace) :
    result LoadError (list bpf_link) * trace :=
  match tps with
  | [] => (Ok links, tr)
  | (group, name, program) :: tps' =>
      match attach w (Tracepoint group name program) tr with
      | (None, tr) => (Err (tracepoint_error group name), (closeLinks w links tr).2)
      | (Some link, tr) => attach_tracepoints w tps' (links ++ [link]) tr
      end
  end.

Fixpoint attach_fentries (w : world) (fs : list (string * string)) (links : list bpf_link) (tr : trace) :
    result LoadError (list bpf_link) * trace :=
  match fs with
  | [] => (Ok links, tr)
  | (name, program) :: fs' =>
      match attach w (Fentry program) tr with
      | (None, tr) => (Err (fentry_error name), (closeLinks w links tr).2)
      | (Some link, tr) => attach_fentries w fs' (links ++ [link]) tr
      end
  end.

Definition attachKernelPrograms (w : world) (tr : trace) : result LoadError (list bpf_link) * trace :=
  match attach_tracepoints w tracepoints [] tr with
  | (Err e, tr) => (Err e, tr)
  | (Ok links, tr) => attach_fentries w (w_fentry w) links tr
  end.

Definition definedELFSymbolSet (symbols : list Symbol) : gset string :=
  foldl (fun defined symbol => if negb (sy_Section symbol =? SHN_UNDEF) then {[sy_Name symbol]} ∪ defined else defined)
    ∅ symbols.

(** definedELFSymbols: the file is closed whatever its symbols are; the error
    of that close is ignored. *)
Definition definedELFSymbols (w : world) (path : string) (tr : trace) : option (gset string) * trace :=
  if negb (w_elf_open w tr path) then (None, tr)
  else
    let tr := tr ++ [Acquire (ElfFile path)] in
    let symbols := w_symbols w tr path in
    let '(_, tr) := close_one w (ElfFile path) tr in
    (definedELFSymbolSet <$> symbols, tr).

Definition probes_for (arch : string) : option (list openSSLProbe) :=
  if (arch =? "amd64")%string then Some amd64_probes
  else if (arch =? "arm64")%string then Some arm64_probes
  else None.

Definition probe_target (path : string) (probe : openSSLProbe) : target :=
  Uprobe path (pb_symbol probe) (pb_program probe) (pb_returnProbe probe).

Fixpoint attach_probes (w : world) (path : string) (defined : gset string) (probes : list openSSLProbe)
    (links : list bpf_link) (coverage : openSSLCoverage) (tr : trace) :
    result LoadError (list bpf_link * openSSLCoverage) * trace :=
  match probes with
  | [] => (Ok (links, coverage), tr)
  | probe :: probes' =>
      if negb (bool_decide (pb_symbol probe ∈ defined)) then attach_probes w path defined probes' links coverage tr
      else
        match attach w (probe_target path probe) tr with
        | (None, tr) => (Err (attach_error (pb_symbol probe) path), (closeLinks w links tr).2)
        | (Some link, tr) => attach_probes w path defined probes' (links ++ [link]) (record coverage probe) tr
        end
  end.

Definition attachOpenSSL (w : world) (path : string) (tr : trace) :
    result LoadError (list bpf_link * openSSLCoverage) * trace :=
  match definedELFSymbols w path tr with
  | (None, tr) => (Err (symbols_error path), tr)
  | (Some defined, tr) =>
      if negb (w_OpenExecutable w tr path) then (Err (executable_error path), tr)
      else
        match probes_for (w_GOARCH w) with
        | None => (Err (architecture_error (w_GOARCH w)), tr)
        | Some probes =>
            match attach_probes w path defined probes [] no_coverage tr with
            | (Err e, tr) => (Err e, tr)
            | (Ok (links, coverage), tr) =>
                if (length links =? 0)%nat then (Err (no_symbols_error path), tr) else (Ok (links, coverage), tr)
            end
        end
  end.

(** *** Opening and closing the reader *)

Record bpf_reader := mkBpfReader {
  rd_links : list bpf_link;
  rd_reader : bpfReader
}.

(** The exit of OpenBPF on an error once the objects are loaded *)
Definition abandon (w : world) (links : list bpf_link) (tr : trace) : trace :=
  let '(_, tr) := closeLinks w links tr in (objects_Close w tr).2.

Fixpoint attach_libraries (w : world) (libraries : list string) (links : list bpf_link) (coverage : openSSLCoverage)
    (tr : trace) : result LoadError (list bpf_link * openSSLCoverage) * trace :=
  match libraries with
  | [] => (Ok (links, coverage), tr)
  | library :: libraries' =>
      match attachOpenSSL w library tr with
      | (Err e, tr) => (Err e, abandon w links tr)
      | (Ok (attached, libraryCoverage), tr) =>
          attach_libraries w libraries' (links ++ attached) (merge coverage libraryCoverage) tr
      end
  end.

(** loadNetworkObjects loads the programs and the maps of networkObjects, or
    fails and leaves none. *)
Definition loadNetworkObjects (w : world) (tr : trace) : bool * trace :=
  if w_load w then (true, tr ++ [Load (list_to_set (networkPrograms ++ networkMaps))]) else (false, tr).

(** OpenBPF(optionList...): an option is its OpenSSLLibraries. *)
Definition OpenBPF (w : world) (optionList : list (list string)) (tr : trace) : result LoadError bpf_reader * trace :=
  if (1 <? length optionList)%nat then (Err options_error, tr)
  else
    let libraries := default [] (head optionList) in
    if negb (w_RemoveMemlock w) then (Err memlock_error, tr)
    else
      let '(ok, tr) := loadNetworkObjects w tr in
      if negb ok then (Err load_error, tr)
      else
        match attachKernelPrograms w tr with
        | (Err e, tr) => (Err e, (objects_Close w tr).2)
        | (Ok links, tr) =>
            match attach_libraries w libraries links no_coverage tr with
            | (Err e, tr) => (Err e, tr)
            | (Ok (links, coverage), tr) =>
                let missing := if (0 <? length libraries)%nat then validate coverage else [] in
                if (0 <? length missing)%nat then (Err (coverage_error missing), abandon w links tr)
                else if negb (w_ring w) then (Err ring_buffer_error, abandon w links tr)
                else (Ok (mkBpfReader links opened), tr ++ [Acquire Ring])
            end
        end.

(** bpfReader.Close: the errors that are joined *)
Definition reader_Close (w : world) (reader : bpf_reader) (tr : trace) : list resource * trace :=
  let '(e1, tr) := close_one w Ring tr in
  let '(e2, tr) := closeLinks w (rd_links reader) tr in
  let '(e3, tr) := objects_Close w tr in
  (option_list e1 ++ e2 ++ option_list e3, tr).

Definition InterruptRead (w : world) (reader : bpf_reader) (tr : trace) : option resource * trace := close_one w Ring tr.

(** *** Specification *)

(** What one call acquired and is held *)
Inductive entry := One (r : resource) | Objects (names : gset string).

#[export] Instance entry_eq_dec : EqDecision entry.
Proof. solve_decision. Defined.

(** What is held, the last acquired first. Only what was acquired last can be
    released: of the objects of a load any one that is still open, when nothing
    acquired after the load is held. Closing the ring buffer again releases
    nothing. *)
Definition hold (held : list entry) (a : action) : option (list entry) :=
  match a with
  | Acquire r => Some (One r :: held)
  | Load names => Some (Objects names :: held)
  | Release r =>
      match r, held with
      | Object name, Objects names :: held' =>
          if decide (name ∈ names)
          then Some (if decide (names = {[name]}) then held' else Objects (names ∖ {[name]}) :: held')
          else None
      | Object _, _ => None
      | _, One r' :: held' =>
          if decide (r = r') then Some held' else if decide (r = Ring /\ One Ring ∉ held) then Some held else None
      | _, _ => if decide (r = Ring /\ One Ring ∉ held) then Some held else None
      end
  end.

Fixpoint run (held : list entry) (tr : trace) : option (list entry) :=
  match tr with
  | [] => Some held
  | a :: tr' => hold held a ≫= fun held => run held tr'
  end.

Definition held (tr : trace) : option (list entry) := run [] tr.

(** Links that are held *)
Definition stacked (links : list bpf_link) : list entry := rev ((fun link => One (Link link)) <$> links).

(** Objects that are held *)
Definition objects (names : list string) : list entry :=
  match names with [] => [] | _ => [Objects (list_to_set names)] end.

Definition all_objects : list entry := objects (networkPrograms ++ networkMaps).

(** What objects.Close leaves when the close of one fails: those after it *)
Definition left_over (rest : list entry) : Prop :=
  exists closed names, networkPrograms ++ networkMaps = closed ++ names /\ rest = objects names.

(** No close of an object fails. *)
Definition objects_close (w : world) : Prop := forall tr name, w_close w tr (Object name) = true.

(** The traffic of OpenSSL is covered when these probes are there; [P symbol
    return]. *)
Definition covered (P : string -> bool -> Prop) : Prop :=
  let pair symbol := P symbol false /\ P symbol true in
  let mapping := P "SSL_set_bio" false /\ (P "BIO_int_ctrl" false \/ pair "BIO_new_socket") in
  (pair "SSL_read" \/ pair "SSL_read_ex") /\ (pair "SSL_write" \/ pair "SSL_write_ex") /\
  (P "SSL_set_fd" false \/ mapping) /\ (P "SSL_set_bio" false -> mapping /\ P "BIO_free" false) /\ P "SSL_free" false.

(** What the links of a list are attached to, and the probes among it *)
Definition targets (links : list bpf_link) : list target := ln_target <$> links.

Definition probed (ts : list target) (symbol : string) (ret : bool) : Prop :=
  exists path program, Uprobe path symbol program ret ∈ ts.

(** The targets in the kernel, and those in a library that defines these
    symbols *)
Definition kernel_targets (w : world) : list target :=
  ((fun '(group, name, program) => Tracepoint group name program) <$> tracepoints) ++ ((fun f => Fentry f.2) <$> w_fentry w).

Definition defines (symbols : list Symbol) (name : string) : Prop :=
  Exists (fun symbol => sy_Name symbol = name /\ sy_Section symbol <> SHN_UNDEF) symbols.

#[export] Instance defines_dec symbols name : Decision (defines symbols name).
Proof. unfold defines. apply _. Defined.

Definition library_targets (path : string) (symbols : list Symbol) (probes : list openSSLProbe) : list target :=
  probe_target path <$> filter (fun probe => defines symbols (pb_symbol probe)) probes.

Definition program_of (t : target) : string :=
  match t with Tracepoint _ _ program | Fentry program | Uprobe _ _ program _ => program end.

(** What the attachment of a library attaches *)
Definition library_attached (w : world) (path : string) (ts : list target) : Prop :=
  exists tr symbols probes,
    w_symbols w tr path = Some symbols /\ probes_for (w_GOARCH w) = Some probes /\
    ts = library_targets path symbols probes /\ ts <> [].

(** What an error says *)
Definition cause (w : world) (libraries : list string) (e : LoadError) : Prop :=
  match e with
  | options_error => False
  | memlock_error => w_RemoveMemlock w = false
  | load_error => w_load w = false
  | tracepoint_error group name => exists tr program, w_attach w tr (Tracepoint group name program) = false
  | fentry_error name => exists tr program, (name, program) ∈ w_fentry w /\ w_attach w tr (Fentry program) = false
  | symbols_error path => path ∈ libraries /\ exists tr, w_elf_open w tr path = false \/ w_symbols w tr path = None
  | executable_error path => path ∈ libraries /\ exists tr, w_OpenExecutable w tr path = false
  | architecture_error arch => arch = w_GOARCH w /\ probes_for arch = None
  | attach_error symbol path =>
      path ∈ libraries /\ exists tr program ret, w_attach w tr (Uprobe path symbol program ret) = false
  | no_symbols_error path =>
      path ∈ libraries /\ exists tr symbols probes,
        w_symbols w tr path = Some symbols /\ probes_for (w_GOARCH w) = Some probes /\
        library_targets path symbols probes = []
  | coverage_error missing =>
      missing <> [] /\ libraries <> [] /\
      exists tss, Forall2 (library_attached w) libraries tss /\ ~ covered (probed (concat tss))
  | ring_buffer_error => w_ring w = false
  end.

(** ** Lemmas *)

(** *** Traces *)

Lemma run_app h t1 t2 : run h (t1 ++ t2) = run h t1 ≫= fun h' => run h' t2.
Proof.
  revert h. induction t1 as [|a t1 IH]; intros h; [done|]. cbn. destruct (hold h a); cbn; [apply IH|done].
Qed.

(** A step of the program from a trace to a longer one, and what is held *)
Definition extends (tr tr' : trace) (h h' : list entry) : Prop := exists t, tr' = tr ++ t /\ run h t = Some h'.

Lemma extends_refl tr h : extends tr tr h h.
Proof. exists []. by rewrite app_nil_r. Qed.

Lemma extends_trans tr1 tr2 tr3 h1 h2 h3 : extends tr1 tr2 h1 h2 -> extends tr2 tr3 h2 h3 -> extends tr1 tr3 h1 h3.
Proof.
  intros (t1 & -> & H1) (t2 & -> & H2). exists (t1 ++ t2). by rewrite app_assoc, run_app, H1.
Qed.

Lemma extends_acquire tr r h : extends tr (tr ++ [Acquire r]) h (One r :: h).
Proof. by eexists. Qed.

(** A resource that is not one of the loaded objects *)
Definition single (r : resource) : Prop := match r with Object _ => False | _ => True end.

Lemma extends_release tr r h : single r -> extends tr (tr ++ [Release r]) (One r :: h) h.
Proof. intros Hr. exists [Release r]. split; [done|]. cbn. destruct r; [done|..]; by rewrite decide_True. Qed.

Lemma extends_link tr link h : extends tr (tr ++ [Release (Link link)]) (One (Link link) :: h) h.
Proof. by apply extends_release. Qed.

(** An object is closed when nothing later is held and it is still open. *)
Lemma extends_object tr name names :
  NoDup (name :: names) -> extends tr (tr ++ [Release (Object name)]) (objects (name :: names)) (objects names).
Proof.
  intros [Hn _]%NoDup_cons. exists [Release (Object name)]. split; [done|]. cbn -[list_to_set difference].
  rewrite decide_True by (cbn; set_solver). cbn -[list_to_set difference]. destruct names as [|n names]; cbn [objects].
  - rewrite decide_True by (cbn; set_solver). done.
  - rewrite decide_False by (cbn; intros E; assert (Hin : n ∈ ({[name]} : gset string)) by (rewrite <- E; set_solver);
      apply elem_of_singleton in Hin; subst; apply Hn; by left).
    do 3 f_equal. cbn. set_solver.
Qed.

Lemma extends_held tr tr' h h' : held tr = Some h -> extends tr tr' h h' -> held tr' = Some h'.
Proof. intros H (t & -> & Ht). unfold held in *. by rewrite run_app, H. Qed.

Create HintDb extends.
#[local] Hint Resolve extends_refl extends_acquire extends_link : extends.

(** *** Closing *)

Lemma close_all_extends w rs tr h :
  Forall single rs -> extends tr (close_all w rs tr).2 ((One <$> rs) ++ h) h.
Proof.
  intros Hs. revert tr. induction Hs as [|r rs Hr Hs IH]; intros tr; [apply extends_refl|]. cbn.
  specialize (IH (tr ++ [Release r])). destruct (close_all _ _ _) as [es tr']. cbn in *.
  eapply extends_trans; [by apply extends_release|apply IH].
Qed.

Lemma closeLinks_extends w links tr h : extends tr (closeLinks w links tr).2 (stacked links ++ h) h.
Proof.
  assert (E : stacked links = One <$> rev (Link <$> links)).
  { unfold stacked. induction links as [|l links IH]; [done|]. cbn. by rewrite IH, fmap_app. }
  rewrite E. unfold closeLinks. apply close_all_extends.
  rewrite Forall_forall. intros r Hr. rewrite list_elem_of_In, <- in_rev, <- list_elem_of_In in Hr.
  by apply list_elem_of_fmap in Hr as (? & -> & _).
Qed.

(** A loop of _NetworkClose closes its objects up to the first that fails. *)
Lemma close_objects_extends w names more tr :
  NoDup (names ++ more) ->
  exists closed rest, names = closed ++ rest /\
    extends tr (close_objects w names tr).2 (objects (names ++ more)) (objects (rest ++ more)) /\
    ((close_objects w names tr).1 = None -> rest = []) /\
    (objects_close w -> (close_objects w names tr).1 = None).
Proof.
  revert tr. induction names as [|n names IH]; intros tr Hd.
  - exists [], []. split_and!; [done|apply extends_refl|done|done].
  - pose proof (extends_object tr n (names ++ more) Hd) as Hr. cbn in Hd. apply NoDup_cons in Hd as [_ Hd].
    unfold close_objects, close_one in *. cbn [NetworkClose app] in *. destruct (w_close w tr (Object n)) eqn:E.
    + specialize (IH (tr ++ [Release (Object n)]) Hd) as (closed & rest & -> & He & Hn & Ho). exists (n :: closed), rest.
      split_and!; [done| |done|done]. eapply extends_trans; [exact Hr|apply He].
    + exists [n], names. split_and!; [done|exact Hr|done|]. intros Ho. by rewrite Ho in E.
Qed.

(** No two of the loaded objects have one name. *)
Lemma objects_distinct : NoDup (networkPrograms ++ networkMaps).
Proof. apply (bool_decide_unpack _). vm_compute. exact I. Qed.

Lemma objects_Close_extends w tr :
  exists rest, left_over rest /\ extends tr (objects_Close w tr).2 all_objects rest /\
    ((objects_Close w tr).1 = None -> rest = []) /\ (objects_close w -> (objects_Close w tr).1 = None).
Proof.
  unfold objects_Close. cbn -[close_objects networkPrograms networkMaps all_objects].
  pose proof objects_distinct as Hd.
  destruct (close_objects_extends w networkPrograms networkMaps tr Hd) as (c1 & r1 & E1 & H1 & N1 & O1).
  destruct (close_objects w networkPrograms tr) as [[e|] tr1]; cbn [fst snd] in *.
  - exists (objects (r1 ++ networkMaps)). split_and!; [|exact H1|done|done].
    exists c1, (r1 ++ networkMaps). split; [|done]. by rewrite E1 at 1; rewrite app_assoc.
  - rewrite (N1 eq_refl) in H1. cbn [app] in H1. apply NoDup_app in Hd as (_ & _ & Hm).
    destruct (close_objects_extends w networkMaps [] tr1) as (c2 & r2 & E2 & H2 & N2 & O2); [by rewrite app_nil_r|].
    rewrite !app_nil_r in H2. exists (objects r2). destruct (close_objects w networkMaps tr1) as [[e|] tr2]; cbn [fst snd] in *;
      (split_and!; [exists (networkPrograms ++ c2), r2; by rewrite E2 at 1; rewrite app_assoc
        |eapply extends_trans; [exact H1|exact H2]|intros; try (rewrite N2 by done); done|done]).
Qed.

(** Abandoning releases the links, then the objects. *)
Lemma abandon_extends w links tr :
  exists rest, left_over rest /\ extends tr (abandon w links tr) (stacked links ++ all_objects) rest /\
    (objects_close w -> rest = []).
Proof.
  unfold abandon. pose proof (closeLinks_extends w links tr all_objects) as H.
  destruct (closeLinks w links tr) as [e tr']. cbn in H.
  destruct (objects_Close_extends w tr') as (rest & Hl & He & Hn & Ho). exists rest.
  split_and!; [done|by eapply extends_trans|]. intros O. by apply Hn, Ho.
Qed.

(** *** Attaching *)

Lemma targets_app ls1 ls2 : targets (ls1 ++ ls2) = targets ls1 ++ targets ls2.
Proof. apply fmap_app. Qed.

Lemma stacked_app ls1 ls2 : stacked (ls1 ++ ls2) = stacked ls2 ++ stacked ls1.
Proof. unfold stacked. by rewrite fmap_app, rev_app_distr. Qed.

Lemma stacked_unit links link : stacked (links ++ [link]) = One (Link link) :: stacked links.
Proof. by rewrite stacked_app. Qed.

Lemma attach_tracepoints_spec w libraries tps links tr h :
  match attach_tracepoints w tps links tr with
  | (Ok ls, tr') =>
      targets ls = targets links ++ ((fun '(group, name, program) => Tracepoint group name program) <$> tps) /\
      extends tr tr' (stacked links ++ h) (stacked ls ++ h)
  | (Err e, tr') => cause w libraries e /\ extends tr tr' (stacked links ++ h) h
  end.
Proof.
  revert links tr. induction tps as [|[[g n] p] tps IH]; intros links tr; cbn.
  - rewrite app_nil_r. eauto with extends.
  - unfold attach. destruct (w_attach _ _ _) eqn:E.
    + set (link := mkLink _ _). specialize (IH (links ++ [link]) (tr ++ [Acquire (Link link)])).
      rewrite stacked_unit in IH. destruct (attach_tracepoints _ _ _ _) as [[ls|e] tr'].
      * destruct IH as [-> He]. split; [by rewrite targets_app, <- app_assoc|].
        eapply extends_trans; [apply extends_acquire|exact He].
      * split; [apply IH|]. eapply extends_trans; [apply extends_acquire|apply IH].
    + split; [by eexists _, _|apply closeLinks_extends].
Qed.

Lemma attach_fentries_spec w libraries fs links tr h :
  (forall f, f ∈ fs -> f ∈ w_fentry w) ->
  match attach_fentries w fs links tr with
  | (Ok ls, tr') => targets ls = targets links ++ ((fun f => Fentry f.2) <$> fs) /\ extends tr tr' (stacked links ++ h) (stacked ls ++ h)
  | (Err e, tr') => cause w libraries e /\ extends tr tr' (stacked links ++ h) h
  end.
Proof.
  revert links tr. induction fs as [|[n p] fs IH]; intros links tr Hfs; cbn.
  - rewrite app_nil_r. eauto with extends.
  - unfold attach. destruct (w_attach _ _ _) eqn:E.
    + set (link := mkLink _ _).
      specialize (IH (links ++ [link]) (tr ++ [Acquire (Link link)]) (fun f Hf => Hfs f (list_elem_of_further _ _ _ Hf))).
      rewrite stacked_unit in IH. destruct (attach_fentries _ _ _ _) as [[ls|e] tr'].
      * destruct IH as [-> He]. split; [by rewrite targets_app, <- app_assoc|].
        eapply extends_trans; [apply extends_acquire|exact He].
      * split; [apply IH|]. eapply extends_trans; [apply extends_acquire|apply IH].
    + split; [|apply closeLinks_extends]. exists tr, p. split; [apply Hfs; by left|done].
Qed.

Lemma attachKernelPrograms_spec w libraries tr h :
  match attachKernelPrograms w tr with
  | (Ok ls, tr') => targets ls = kernel_targets w /\ extends tr tr' h (stacked ls ++ h)
  | (Err e, tr') => cause w libraries e /\ extends tr tr' h h
  end.
Proof.
  unfold attachKernelPrograms. pose proof (attach_tracepoints_spec w libraries tracepoints [] tr h) as H1.
  destruct (attach_tracepoints _ _ _ _) as [[ls|e] tr1]; [|exact H1]. destruct H1 as [E1 H1].
  pose proof (attach_fentries_spec w libraries (w_fentry w) ls tr1 h (fun _ Hf => Hf)) as H2.
  destruct (attach_fentries _ _ _ _) as [[ls'|e] tr2].
  - destruct H2 as [-> H2]. split; [by rewrite E1|by eapply extends_trans].
  - destruct H2. split; [done|by eapply extends_trans].
Qed.

(** *** Coverage *)

(** The fields of a coverage, each with its probe *)
Definition fields : list (string * bool * (openSSLCoverage -> bool)) :=
  [("SSL_set_fd", false, sslSetFD); ("SSL_set_bio", false, sslSetBIO); ("SSL_free", false, sslFree);
   ("BIO_new_socket", false, bioNewSocketEntry); ("BIO_new_socket", true, bioNewSocketReturn);
   ("BIO_int_ctrl", false, bioIntCtrl); ("BIO_free", false, bioFree); ("SSL_read", false, sslReadEntry);
   ("SSL_read", true, sslReadReturn); ("SSL_write", false, sslWriteEntry); ("SSL_write", true, sslWriteReturn);
   ("SSL_read_ex", false, sslReadExEntry); ("SSL_read_ex", true, sslReadExReturn);
   ("SSL_write_ex", false, sslWriteExEntry); ("SSL_write_ex", true, sslWriteExReturn)].

(** A coverage says which probes there are. *)
Definition agrees (c : openSSLCoverage) (P : string -> bool -> Prop) : Prop :=
  Forall (fun '(s, ret, f) => f c = true <-> P s ret) fields.

Definition is_probe (probe : openSSLProbe) (s : string) (ret : bool) : bool :=
  (s =? pb_symbol probe)%string && Bool.eqb ret (pb_returnProbe probe).

Lemma record_fields c :
  Forall (fun probe => Forall (fun '(s, ret, f) => f (record c probe) = is_probe probe s ret || f c) fields)
    (amd64_probes ++ arm64_probes).
Proof. destruct c. repeat constructor. Qed.

Lemma merge_fields c o : Forall (fun '(s, ret, f) => f (merge c o) = f c || f o) fields.
Proof. destruct c, o. repeat constructor. Qed.

Lemma agrees_record c P probe :
  probe ∈ amd64_probes ++ arm64_probes -> agrees c P -> agrees (record c probe) (fun s ret => is_probe probe s ret = true \/ P s ret).
Proof.
  intros Hp H. pose proof (proj1 (Forall_forall _ _) (record_fields c) probe Hp) as Hr. unfold agrees in *.
  rewrite Forall_forall in *. intros [[s ret] f] Hf. specialize (H _ Hf). specialize (Hr _ Hf). cbn in *.
  rewrite Hr, orb_true_iff, H. done.
Qed.

Lemma agrees_merge c o P Q : agrees c P -> agrees o Q -> agrees (merge c o) (fun s ret => P s ret \/ Q s ret).
Proof.
  unfold agrees. pose proof (merge_fields c o) as Hm. rewrite !Forall_forall in *. intros H1 H2 [[s ret] f] Hf.
  specialize (Hm _ Hf). specialize (H1 _ Hf). specialize (H2 _ Hf). cbn in *. rewrite Hm, orb_true_iff, H1, H2. done.
Qed.

Lemma agrees_iff c P Q : (forall s ret, P s ret <-> Q s ret) -> agrees c P -> agrees c Q.
Proof.
  unfold agrees. intros HPQ H. eapply Forall_impl; [exact H|]. intros [[s ret] f]. cbn. by rewrite HPQ.
Qed.

Lemma agrees_none : agrees no_coverage (fun _ _ => False).
Proof. unfold agrees. repeat constructor; done. Qed.

Lemma missing_nil (b : bool) (s : string) : (if b then [s] else []) = [] <-> b = false.
Proof. by destruct b. Qed.

(** validate finds nothing missing exactly when the traffic is covered. *)
Lemma validate_covered c P : agrees c P -> validate c = [] <-> covered P.
Proof.
  intros H. unfold agrees, fields in H. rewrite !Forall_cons in H.
  destruct H as (Hfd & Hbio & Hfree & Hnse & Hnsr & Hic & Hbf & Hre & Hrr & Hwe & Hwr & Hxre & Hxrr & Hxwe & Hxwr & _).
  unfold validate, covered. cbv zeta. rewrite !app_nil, !missing_nil, !negb_false_iff, !orb_true_iff, !andb_true_iff.
  rewrite <- Hfd, <- Hbio, <- Hfree, <- Hnse, <- Hnsr, <- Hic, <- Hbf, <- Hre, <- Hrr, <- Hwe, <- Hwr, <- Hxre, <- Hxrr,
    <- Hxwe, <- Hxwr.
  clear. generalize (sslReadEntry c = true /\ sslReadReturn c = true \/ sslReadExEntry c = true /\ sslReadExReturn c = true).
  generalize (sslWriteEntry c = true /\ sslWriteReturn c = true \/ sslWriteExEntry c = true /\ sslWriteExReturn c = true).
  intros W R. destruct (sslSetFD c), (sslSetBIO c), (bioIntCtrl c), (bioNewSocketEntry c), (bioNewSocketReturn c), (bioFree c);
    cbn [andb orb negb]; intuition congruence.
Qed.

Lemma probed_app ts1 ts2 s ret : probed (ts1 ++ ts2) s ret <-> probed ts1 s ret \/ probed ts2 s ret.
Proof. unfold probed. setoid_rewrite elem_of_app. naive_solver. Qed.

Lemma probed_probe path probe s ret : probed [probe_target path probe] s ret <-> is_probe probe s ret = true.
Proof.
  unfold probed, is_probe, probe_target. setoid_rewrite list_elem_of_singleton.
  rewrite andb_true_iff, String.eqb_eq, Bool.eqb_true_iff. destruct probe; cbn. split; [naive_solver|].
  intros [-> ->]. by eexists _, _.
Qed.

Lemma probed_kernel w s ret : ~ probed (kernel_targets w) s ret.
Proof.
  intros (path & program & [H|H]%elem_of_app); apply list_elem_of_fmap in H as (x & Hx & _); [|done]. by destruct x as [[??]?].
Qed.

Lemma definedELFSymbolSet_spec symbols name : name ∈ definedELFSymbolSet symbols <-> defines symbols name.
Proof.
  unfold definedELFSymbolSet. assert (H : forall acc : gset string, name ∈ foldl
    (fun defined symbol => if negb (sy_Section symbol =? SHN_UNDEF) then {[sy_Name symbol]} ∪ defined else defined) acc symbols <->
    name ∈ acc \/ defines symbols name).
  { induction symbols as [|s symbols IH]; intros acc; cbn; [unfold defines; rewrite Exists_nil; tauto|].
    rewrite IH. unfold defines. rewrite Exists_cons. destruct (Z.eqb_spec (sy_Section s) SHN_UNDEF); cbn [negb]; [tauto|].
    rewrite elem_of_union, elem_of_singleton. split; [intros [[->|?]|?]|intros [?|[[<- _]|?]]]; tauto. }
  rewrite H. rewrite elem_of_empty. tauto.
Qed.

Lemma library_targets_set path symbols probes :
  library_targets path symbols probes =
  probe_target path <$> filter (fun probe => pb_symbol probe ∈ definedELFSymbolSet symbols) probes.
Proof. unfold library_targets. f_equal. apply list_filter_iff. intros p. by rewrite definedELFSymbolSet_spec. Qed.

Lemma attach_probes_spec w libraries path defined probes links coverage tr h :
  path ∈ libraries ->
  (forall probe, probe ∈ probes -> probe ∈ amd64_probes ++ arm64_probes) ->
  agrees coverage (probed (targets links)) ->
  match attach_probes w path defined probes links coverage tr with
  | (Ok (ls, coverage'), tr') =>
      targets ls = targets links ++ (probe_target path <$> filter (fun probe => pb_symbol probe ∈ defined) probes) /\
      agrees coverage' (probed (targets ls)) /\
      extends tr tr' (stacked links ++ h) (stacked ls ++ h)
  | (Err e, tr') => cause w libraries e /\ extends tr tr' (stacked links ++ h) h
  end.
Proof.
  intros Hpath. revert links coverage tr. induction probes as [|p probes IH]; intros links coverage tr Hp Ha; cbn [attach_probes].
  - rewrite app_nil_r. split_and!; [done|done|apply extends_refl].
  - assert (Hp' : forall probe, probe ∈ probes -> probe ∈ amd64_probes ++ arm64_probes).
    { intros q Hq. apply Hp. by right. }
    rewrite filter_cons. case_bool_decide as Hd; cbn [negb]; [rewrite decide_True by done|rewrite decide_False by done; by apply IH].
    unfold attach. destruct (w_attach _ _ _) eqn:E; [|split; [split; [done|by eexists _, _, _]|apply closeLinks_extends]].
    set (link := mkLink _ _). specialize (IH (links ++ [link]) (record coverage p) (tr ++ [Acquire (Link link)]) Hp').
    rewrite stacked_unit in IH. rewrite targets_app in IH. change (targets [link]) with [probe_target path p] in IH.
    assert (Ha' : agrees (record coverage p) (probed (targets links ++ [probe_target path p]))).
    { eapply agrees_iff; [|apply agrees_record; [apply Hp; by left|exact Ha]]. cbn. intros s ret.
      rewrite probed_app, probed_probe. tauto. }
    specialize (IH Ha'). destruct (attach_probes _ _ _ _ _ _ _) as [[[ls cov]|e] tr'].
    + destruct IH as (-> & Hc & He). split_and!; [by rewrite <- app_assoc|done|].
      eapply extends_trans; [apply extends_acquire|exact He].
    + split; [apply IH|]. eapply extends_trans; [apply extends_acquire|apply IH].
Qed.

Lemma probes_supported arch probes probe :
  probes_for arch = Some probes -> probe ∈ probes -> probe ∈ amd64_probes ++ arm64_probes.
Proof.
  unfold probes_for. rewrite elem_of_app. destruct (arch =? "amd64")%string; [intros [= <-]; by left|].
  destruct (arch =? "arm64")%string; [intros [= <-]; by right|done].
Qed.

Lemma definedELFSymbols_spec w path tr h :
  extends tr (definedELFSymbols w path tr).2 h h /\
  ((definedELFSymbols w path tr).1 = None -> exists tr', w_elf_open w tr' path = false \/ w_symbols w tr' path = None) /\
  forall defined, (definedELFSymbols w path tr).1 = Some defined ->
    exists tr' symbols, w_symbols w tr' path = Some symbols /\ defined = definedELFSymbolSet symbols.
Proof.
  unfold definedELFSymbols. destruct (w_elf_open w tr path) eqn:Eo; cbn.
  2: { split_and!; [apply extends_refl| |done]. exists tr. by left. }
  split_and!.
  - eapply extends_trans; [apply extends_acquire|by apply extends_release].
  - destruct (w_symbols _ _ _) as [symbols|] eqn:E; [done|]. eauto.
  - intros defined. destruct (w_symbols _ _ _) as [symbols|] eqn:E; [|done]. intros [= <-]. eauto.
Qed.

Lemma attachOpenSSL_spec w libraries path tr h :
  path ∈ libraries ->
  match attachOpenSSL w path tr with
  | (Ok (ls, coverage), tr') =>
      library_attached w path (targets ls) /\ agrees coverage (probed (targets ls)) /\ extends tr tr' h (stacked ls ++ h)
  | (Err e, tr') => cause w libraries e /\ extends tr tr' h h
  end.
Proof.
  intros Hpath. unfold attachOpenSSL. pose proof (definedELFSymbols_spec w path tr h) as (He & Hno & Hd).
  destruct (definedELFSymbols w path tr) as [[defined|] tr1]; cbn in *; [|by split; [split; [done|by apply Hno]|]].
  destruct (w_OpenExecutable _ _ _) eqn:Ex; cbn; [|by split; [split; [done|by eexists]|]].
  destruct (probes_for (w_GOARCH w)) as [probes|] eqn:Ep; [|by split].
  pose proof (attach_probes_spec w libraries path defined probes [] no_coverage tr1 h) as H.
  specialize (H Hpath (fun probe => probes_supported _ _ probe Ep)).
  assert (H0 : agrees no_coverage (probed (targets []))).
  { eapply agrees_iff; [|apply agrees_none]. cbn. intros s ret. split; [done|]. by intros (? & ? & ?%elem_of_nil). }
  specialize (H H0).
  destruct (attach_probes _ _ _ _ _ _ _) as [[[ls cov]|e] tr2]; [|by split; [apply H|eapply extends_trans; [exact He|apply H]]].
  destruct H as (Ht & Ha & He2). destruct (Hd defined eq_refl) as (tr' & symbols & Hs & ->).
  destruct ls as [|l ls]; cbn [length Nat.eqb].
  - split; [|by eapply extends_trans]. split; [done|]. exists tr', symbols, probes. rewrite library_targets_set. by split_and!.
  - split_and!; [|done|by eapply extends_trans]. exists tr', symbols, probes. rewrite library_targets_set. split_and!; [done|done|done|].
    intros E. done.
Qed.

Lemma attach_libraries_spec w all libraries links coverage tr :
  (forall path, path ∈ libraries -> path ∈ all) ->
  agrees coverage (probed (targets links)) ->
  match attach_libraries w libraries links coverage tr with
  | (Ok (ls, coverage'), tr') =>
      (exists tss, Forall2 (library_attached w) libraries tss /\ targets ls = targets links ++ concat tss) /\
      agrees coverage' (probed (targets ls)) /\ extends tr tr' (stacked links ++ all_objects) (stacked ls ++ all_objects)
  | (Err e, tr') =>
      cause w all e /\
      exists rest, left_over rest /\ extends tr tr' (stacked links ++ all_objects) rest /\ (objects_close w -> rest = [])
  end.
Proof.
  revert links coverage tr. induction libraries as [|path libraries IH]; intros links coverage tr Hall Ha; cbn.
  - split_and!; [|done|apply extends_refl]. exists []. split; [done|]. by rewrite app_nil_r.
  - pose proof (attachOpenSSL_spec w all path tr (stacked links ++ all_objects) (Hall path (list_elem_of_here _ _))) as H.
    assert (Hall' : forall q, q ∈ libraries -> q ∈ all) by (intros q Hq; apply Hall; by right).
    destruct (attachOpenSSL w path tr) as [[[ls cov]|e] tr1].
    + destruct H as (Hl & Hc & He).
      assert (Ha' : agrees (merge coverage cov) (probed (targets (links ++ ls)))).
      { eapply agrees_iff; [|by apply agrees_merge]. intros s ret. by rewrite targets_app, probed_app. }
      rewrite app_assoc, <- stacked_app in He. specialize (IH (links ++ ls) (merge coverage cov) tr1 Hall' Ha').
      destruct (attach_libraries _ _ _ _ _) as [[[ls' cov']|e] tr2].
      * destruct IH as ((tss & Hf & Ht) & Hc' & He'). split_and!; [|done|by eapply extends_trans].
        exists (targets ls :: tss). split; [by constructor|]. by rewrite Ht, targets_app, <- app_assoc.
      * destruct IH as (Hc' & rest & ? & ? & ?). split; [done|]. exists rest. split_and!; [done|by eapply extends_trans|done].
    + destruct (abandon_extends w links tr1) as (rest & ? & ? & ?). destruct H as [Hc H]. split; [done|]. exists rest.
      split_and!; [done|by eapply extends_trans|done].
Qed.

Lemma load_extends tr h : extends tr (tr ++ [Load (list_to_set (networkPrograms ++ networkMaps))]) h (all_objects ++ h).
Proof. by eexists. Qed.

(** OpenBPF opens, or returns an error with nothing held but what a failed
    close of an object leaves. *)
Lemma OpenBPF_spec w libraries tr :
  match OpenBPF w (option_list libraries) tr with
  | (Ok rd, tr') =>
      exists coverage tss,
        Forall2 (library_attached w) (default [] libraries) tss /\
        targets (rd_links rd) = kernel_targets w ++ concat tss /\
        agrees coverage (probed (targets (rd_links rd))) /\
        (default [] libraries <> [] -> validate coverage = []) /\
        extends tr tr' [] (One Ring :: stacked (rd_links rd) ++ all_objects)
  | (Err e, tr') =>
      cause w (default [] libraries) e /\
      exists rest, left_over rest /\ extends tr tr' [] rest /\ (objects_close w -> rest = [])
  end.
Proof.
  assert (Hnone : forall tr, exists rest, left_over rest /\ extends tr tr [] rest /\ (objects_close w -> rest = [])).
  { intros t. exists []. split_and!; [exists (networkPrograms ++ networkMaps), []; by rewrite app_nil_r|apply extends_refl|done]. }
  unfold OpenBPF. replace (1 <? length (option_list libraries))%nat with false by by destruct libraries.
  replace (head (option_list libraries)) with libraries by by destruct libraries. set (libs := default [] libraries).
  destruct (w_RemoveMemlock w) eqn:Em; cbn [negb]; [|by split].
  unfold loadNetworkObjects. destruct (w_load w) eqn:El; cbn [negb]; [|by split].
  pose proof (load_extends tr []) as H0. rewrite app_nil_r in H0.
  set (loaded := tr ++ _) in *.
  pose proof (attachKernelPrograms_spec w libs loaded all_objects) as H1.
  destruct (attachKernelPrograms _ _) as [[links|e] tr1].
  2: { destruct (objects_Close_extends w tr1) as (rest & Hl & He & Hn & Ho), H1 as [Hc H1]. split; [done|]. exists rest.
       split_and!; [done|by do 2 (eapply extends_trans; [eassumption|])|]. intros O. by apply Hn, Ho. }
  destruct H1 as [Ht H1].
  assert (Ha : agrees no_coverage (probed (targets links))).
  { eapply agrees_iff; [|apply agrees_none]. intros s ret. rewrite Ht. split; [done|apply probed_kernel]. }
  pose proof (attach_libraries_spec w libs libs links no_coverage tr1 (fun _ H => H) Ha) as H2.
  pose proof (extends_trans _ _ _ _ _ _ H0 H1) as H01.
  destruct (attach_libraries _ _ _ _ _) as [[[ls cov]|e] tr2].
  2: { destruct H2 as (Hc & rest & ? & ? & ?). split; [done|]. exists rest. split_and!; [done|by eapply extends_trans|done]. }
  destruct H2 as ((tss & Hf & Ht2) & Hc & H2). pose proof (extends_trans _ _ _ _ _ _ H01 H2) as H02.
  destruct (abandon_extends w ls tr2) as (rest & Hl & He & Ho).
  assert (exists rest, left_over rest /\ extends tr (abandon w ls tr2) [] rest /\ (objects_close w -> rest = [])).
  { exists rest. split_and!; [done|by eapply extends_trans|done]. }
  rewrite Ht in Ht2. set (missing := if (0 <? length libs)%nat then _ else _).
  destruct missing as [|m ms] eqn:Ems; cbn [length Nat.ltb Nat.leb].
  - destruct (w_ring w) eqn:Er; cbn [negb]; [|by split]. cbn [rd_links].
    exists cov, tss. split_and!; [done|done|done| |eapply extends_trans; [exact H02|apply extends_acquire]].
    unfold missing in Ems. by destruct libs.
  - split; [|done]. unfold missing in Ems. destruct libs as [|l libs]; [done|]. cbn [length Nat.ltb Nat.leb] in Ems.
    split_and!; [done|done|]. exists tss. split; [done|]. intros Hcov.
    apply (agrees_iff _ _ (probed (concat tss))), validate_covered in Hc as [_ Hc]; [by rewrite Hc in Ems|].
    intros s ret. rewrite Ht2, probed_app. pose proof (probed_kernel w s ret). tauto.
Qed.


Lemma ring_not_held links : One Ring ∉ stacked links ++ all_objects.
Proof.
  intros [H|H]%elem_of_app; [|by apply list_elem_of_singleton in H].
  unfold stacked in H. rewrite list_elem_of_In, <- in_rev, <- list_elem_of_In in H.
  by apply list_elem_of_fmap in H as (? & ? & _).
Qed.

(** Closing the ring buffer again releases nothing. *)
Lemma extends_ring_again tr h : One Ring ∉ h -> extends tr (tr ++ [Release Ring]) h h.
Proof.
  intros H. exists [Release Ring]. split; [done|]. cbn. destruct h as [|[r|names] h]; cbn; [by rewrite decide_True| |by rewrite decide_True].
  rewrite decide_False by (intros <-; apply H; by left). by rewrite decide_True.
Qed.

Lemma reader_Close_extends w rd tr h :
  h = One Ring :: stacked (rd_links rd) ++ all_objects \/ h = stacked (rd_links rd) ++ all_objects ->
  exists rest, left_over rest /\ extends tr (reader_Close w rd tr).2 h rest /\
    ((reader_Close w rd tr).1 = [] -> rest = []) /\ (objects_close w -> rest = []).
Proof.
  intros Hh. unfold reader_Close. cbn [close_one].
  assert (H1 : extends tr (tr ++ [Release Ring]) h (stacked (rd_links rd) ++ all_objects)).
  { destruct Hh as [-> | ->]; [by apply extends_release|apply extends_ring_again, ring_not_held]. }
  pose proof (closeLinks_extends w (rd_links rd) (tr ++ [Release Ring]) all_objects) as H2.
  unfold close_one. destruct (closeLinks _ _ _) as [e2 tr2]. cbn in H2.
  destruct (objects_Close_extends w tr2) as (rest & Hl & H3 & Hn & Ho). exists rest.
  destruct (objects_Close w tr2) as [e3 tr3]. cbn in *. split_and!; [done| | |].
  - by do 2 (eapply extends_trans; [eassumption|]).
  - intros [_ [_ E]%app_nil]%app_nil. apply Hn. by destruct e3.
  - intros O. by apply Hn, Ho.
Qed.

(** The programs attached are those that are loaded. *)
Lemma probes_loaded : Forall (fun probe => pb_program probe ∈ networkPrograms) (amd64_probes ++ arm64_probes).
Proof. apply (bool_decide_unpack _). vm_compute. exact I. Qed.

Lemma kernel_loaded :
  Forall (fun tp => tp.2 ∈ networkPrograms) tracepoints /\ Forall (fun f => f.2 ∈ networkPrograms) fentry_programs.
Proof. split; apply (bool_decide_unpack _); vm_compute; exact I. Qed.

Lemma library_loaded w path ts t : library_attached w path ts -> t ∈ ts -> program_of t ∈ networkPrograms.
Proof.
  intros (tr & symbols & probes & _ & Hp & -> & _) (probe & -> & [_ H]%list_elem_of_filter)%list_elem_of_fmap.
  eapply probes_supported in H; [|exact Hp]. exact (proj1 (Forall_forall _ _) probes_loaded probe H).
Qed.

Lemma libraries_loaded w libraries tss t :
  Forall2 (library_attached w) libraries tss -> t ∈ concat tss -> program_of t ∈ networkPrograms.
Proof.
  induction 1 as [|path ts libraries tss Ha _ IH]; cbn; [by intros ?%elem_of_nil|].
  intros [H|H]%elem_of_app; [by eapply library_loaded|by apply IH].
Qed.

(** ** Theorems *)

(** C24. OpenBPF attaches what it should, or says why not. When it succeeds,
    its links are, whatever the order the map of fentry programs is ranged
    over, the ten tracepoints, the four fentry programs, and for each OpenSSL
    library in turn the probes of the architecture whose symbol the library
    defines, at least one; every program attached is one that was loaded; and
    when libraries are given, the probes together cover reads, writes, the
    mapping of a context to its descriptor, and the cleanup of what they map.
    An error is never spurious: it names a call that failed, or probes that do
    not cover. *)
Theorem opened_observes w libraries :
  w_fentry w ≡ₚ fentry_programs ->
  match (OpenBPF w (option_list libraries) []).1 with
  | Ok rd =>
      exists tss, Forall2 (library_attached w) (default [] libraries) tss /\
        targets (rd_links rd) ≡ₚ
          ((fun '(group, name, program) => Tracepoint group name program) <$> tracepoints) ++
          ((fun f => Fentry f.2) <$> fentry_programs) ++ concat tss /\
        (forall t, t ∈ targets (rd_links rd) -> program_of t ∈ networkPrograms) /\
        (default [] libraries <> [] -> covered (probed (targets (rd_links rd))))
  | Err e => cause w (default [] libraries) e
  end.
Proof.
  intros Hw. pose proof (OpenBPF_spec w libraries []) as H. destruct (OpenBPF _ _ _) as [[rd|e] tr]; [|apply H].
  destruct H as (cov & tss & Hf & Ht & Ha & Hv & _). exists tss. split; [done|].
  assert (Hp : targets (rd_links rd) ≡ₚ ((fun '(group, name, program) => Tracepoint group name program) <$> tracepoints) ++
          ((fun f => Fentry f.2) <$> fentry_programs) ++ concat tss).
  { rewrite Ht. unfold kernel_targets. by rewrite <- app_assoc, Hw. }
  split_and!; [done| |].
  - intros t. rewrite Hp, !elem_of_app. destruct kernel_loaded as [K1 K2].
    intros [(tp & -> & Htp)%list_elem_of_fmap|[(f & -> & Hin)%list_elem_of_fmap|H]].
    + apply (proj1 (Forall_forall _ _) K1) in Htp. by destruct tp as [[??]?].
    + exact (proj1 (Forall_forall _ _) K2 f Hin).
    + by eapply libraries_loaded.
  - intros Hl. apply (validate_covered cov); [done|by apply Hv].
Qed.

(** C23. The loader holds everything or nothing, and Close gives everything
    back. Links, files and the ring buffer are released in the reverse of the
    order of acquisition; the objects, which one call loads, when nothing
    acquired after them is held, so that a program is detached before it is
    closed; and nothing is released twice. On every error OpenBPF has released
    all it acquired; when it succeeds the reader holds the objects, the links
    and the ring buffer; InterruptRead releases the ring buffer only; and Close,
    whether the read was interrupted or not, releases all of them even when some
    release fails, except that an object whose close fails keeps those after it
    open, which Close then reports. *)
Theorem loader_releases w libraries :
  match OpenBPF w (option_list libraries) [] with
  | (Err _, tr) => exists rest, held tr = Some rest /\ left_over rest /\ (objects_close w -> rest = [])
  | (Ok rd, tr) =>
      held tr = Some (One Ring :: stacked (rd_links rd) ++ all_objects) /\
      held (InterruptRead w rd tr).2 = Some (stacked (rd_links rd) ++ all_objects) /\
      forall interrupted : bool,
        let '(errors, tr) := reader_Close w rd (if interrupted then (InterruptRead w rd tr).2 else tr) in
        exists rest, held tr = Some rest /\ left_over rest /\ (errors = [] -> rest = []) /\ (objects_close w -> rest = [])
  end.
Proof.
  pose proof (OpenBPF_spec w libraries []) as H. destruct (OpenBPF _ _ _) as [[rd|e] tr].
  - destruct H as (cov & tss & _ & _ & _ & _ & He). apply (extends_held [] _ []) in He as Hh; [|done].
    assert (Hi : held (InterruptRead w rd tr).2 = Some (stacked (rd_links rd) ++ all_objects)).
    { eapply extends_held; [exact Hh|by apply extends_release]. }
    split_and!; [done|done|]. intros interrupted.
    destruct (reader_Close_extends w rd (if interrupted then (InterruptRead w rd tr).2 else tr)
      (if interrupted then stacked (rd_links rd) ++ all_objects else One Ring :: stacked (rd_links rd) ++ all_objects))
      as (rest & Hl & Hx & Hn & Ho); [destruct interrupted; auto|].
    destruct (reader_Close _ _ _) as [errors tr']. exists rest. split_and!; [|done|done|done].
    eapply extends_held; [|exact Hx]. by destruct interrupted.
  - destruct H as (_ & rest & Hl & He & Ho). exists rest. split_and!; [by eapply (extends_held [] _ [])|done|done].
Qed.

(** *** Witnesses *)

(** A machine where everything works, and a library that defines the symbols
    of SSL_read, SSL_write, SSL_set_fd and SSL_free *)
Definition sample_world : world :=
  mkWorld true true (fun _ _ => true) (fun _ _ => true)
    (fun _ _ => Some (((fun name => mkSymbol name 12) <$> ["SSL_read"; "SSL_write"; "SSL_set_fd"; "SSL_free"]) ++ [mkSymbol "BIO_free" 0]))
    (fun _ _ => true) true (fun _ _ => true) "amd64" (rev fentry_programs).

Lemma sample_opened :
  exists rd, (OpenBPF sample_world [["/usr/lib/libssl.so.3"]] []).1 = Ok rd /\ length (rd_links rd) = 20%nat.
Proof. eexists. split; [vm_compute; reflexivity|reflexivity]. Qed.

Lemma opened_observes_witness :
  exists rd, (OpenBPF sample_world [["/usr/lib/libssl.so.3"]] []).1 = Ok rd /\ covered (probed (targets (rd_links rd))).
Proof.
  pose proof (opened_observes sample_world (Some ["/usr/lib/libssl.so.3"])) as H.
  destruct sample_opened as (rd & E & _). exists rd. split; [exact E|]. cbn [option_list] in H.
  change (option_list (Some ?x)) with [x] in H. rewrite E in H.
  destruct H as (tss & _ & _ & _ & Hc); [symmetry; apply Permutation_rev|]. apply Hc. done.
Defined.
