(* ===== verification/Process.v ===== *)
(** * internal/process: procfs identity

    process.go. The files of procfs are read one after the other while the
    kernel creates and ends processes: [ProcFS] is what a read of a file gives
    at each read of a history, counted from its start. os.ReadFile of one
    procfs file is one read. The event loop's goroutine is the only caller of
    Lookup, so its mutex is not contended. *)

From S2P Require Import Prelude Text Flow.

#[local] Open Scope Z_scope.

(** ** Definitions *)

Definition Via : string := "procfs".
Definition defaultTTL : Duration := 30 * Second.
Definition defaultMaxCmdline : Z := 512.
Definition defaultMaxEntries : Z := 8192.

(** *** Parsing *)

(** bytes.LastIndexByte: what is before and after the last separator *)
Fixpoint cut_last (sep : byte) (l : list byte) : option (list byte * list byte) :=
  match l with
  | [] => None
  | b :: l' =>
      match cut_last sep l' with
      | Some (x, y) => Some (b :: x, y)
      | None => if bool_decide (b = sep) then Some ([], l') else None
      end
  end.

Definition open_paren : byte := byte_of 40.
Definition close_paren : byte := byte_of 41.

Definition parseStat (stat : list byte) : option (list byte * Z) :=
  match cut_byte open_paren stat, cut_last close_paren stat with
  | Some (before, _), Some (upto, after) =>
      let open := length before in
      let close := length upto in
      if (close <? open)%nat then None
      else
        let comm := slice stat (S open) close in
        let fields := Fields after in
        if (length fields <? 20)%nat then None
        else (fun startTime => (comm, startTime)) <$> ParseUint10 64 (fields !!! 19%nat)
  | _, _ => None
  end.

(** bytes.TrimRight of one byte *)
Fixpoint trim_right (sep : byte) (l : list byte) : list byte :=
  match l with
  | [] => []
  | b :: l' =>
      match trim_right sep l' with
      | [] => if bool_decide (b = sep) then [] else [b]
      | t => b :: t
      end
  end.

Definition NUL : byte := byte_of 0.

Definition formatCmdline (raw : list byte) (limit : Z) : list byte :=
  let raw := trim_right NUL raw in
  let text := (fun b => if bool_decide (b = NUL) then byte_of 32 else b) <$> raw in
  if (0 <? limit) && (limit <? Z.of_nat (length text)) then take (Z.to_nat limit) text else text.

(** containerIDPattern on one segment of a path: at its end, maybe before
    ".scope", sixty-four lower-case hexadecimal digits that start the segment
    or follow a slash or a hyphen *)
Definition is_id_digit (b : byte) : bool := is_decimal_digit b || ((97 <=? byte_val b) && (byte_val b <=? 102)).

Definition without_scope (segment : list byte) : list byte :=
  let n := (length segment - 6)%nat in
  if bool_decide (drop n segment = lit ".scope") then take n segment else segment.

Definition containerIDPattern (segment : list byte) : option (list byte) :=
  let s := without_scope segment in
  let n := (length s - 64)%nat in
  if (length s <? 64)%nat || negb (forallb is_id_digit (drop n s)) then None
  else if (n =? 0)%nat || bool_decide (s !! (n - 1)%nat ∈ [Some (byte_of 47); Some (byte_of 45)])
  then Some (drop n s) else None.

Fixpoint first_match (segments : list (list byte)) : option (list byte) :=
  match segments with
  | [] => None
  | segment :: segments' =>
      match containerIDPattern segment with
      | Some id => Some id
      | None => first_match segments'
      end
  end.

(** The loop over the lines *)
Fixpoint container_of_lines (lines : list (list byte)) : list byte :=
  match lines with
  | [] => []
  | line :: lines' =>
      match split_three (byte_of 58) line with
      | [_; _; path] =>
          match first_match (split_byte (byte_of 47) path) with
          | Some id => id
          | None => container_of_lines lines'
          end
      | _ => container_of_lines lines'
      end
  end.

Definition ParseContainerID (cgroup : list byte) : list byte := container_of_lines (split_byte (byte_of 10) cgroup).

(** *** The resolver *)

Record entry := mkEntry {
  en_process : Process;
  en_expiresAt : Time
}.

Record Resolver := mkResolver {
  rs_ttl : Duration;
  rs_maxCmdline : Z;
  rs_maxEntries : Z;
  rs_cache : gmap Z entry
}.

(** What os.ReadFile returns at the n-th read, for each file of a PID *)
Class ProcFS := {
  stat_file : nat -> Z -> option (list byte);
  cmdline_file : nat -> Z -> option (list byte);
  cgroup_file : nat -> Z -> option (list byte)
}.

Inductive Option_ := WithTTL (ttl : Duration) | WithMaxCmdline (n : Z).

Definition apply_option (r : Resolver) (o : Option_) : Resolver :=
  match o with
  | WithTTL ttl => if 0 <? ttl then mkResolver ttl (rs_maxCmdline r) (rs_maxEntries r) (rs_cache r) else r
  | WithMaxCmdline n => if 0 <? n then mkResolver (rs_ttl r) n (rs_maxEntries r) (rs_cache r) else r
  end.

Definition NewResolver (options : list Option_) : Resolver :=
  foldl apply_option (mkResolver defaultTTL defaultMaxCmdline defaultMaxEntries ∅) options.

Definition set_cache (cache : gmap Z entry) (r : Resolver) : Resolver :=
  mkResolver (rs_ttl r) (rs_maxCmdline r) (rs_maxEntries r) cache.

Definition evictExpiredLocked (now : Time) (cache : gmap Z entry) : gmap Z entry :=
  filter (fun kv => time_Before now (en_expiresAt kv.2) = true) cache.

Section resolver.
Context {fs : ProcFS}.

(** A read is at the instant [n]; the next one is at a later instant. *)
Definition readStat (n : nat) (pid : Z) : option (list byte * Z) := stat ← stat_file n pid; parseStat stat.

Definition readProcess (n : nat) (pid maxCmdline : Z) : nat * option Process :=
  match readStat n pid with
  | None => (S n, None)
  | Some (comm, startTime) =>
      let cmdline := match cmdline_file (1 + n) pid with Some raw => formatCmdline raw maxCmdline | None => [] end in
      let container := match cgroup_file (2 + n) pid with Some cgroup => ParseContainerID cgroup | None => [] end in
      let process := mkProcess pid startTime (string_of_bytes comm) (string_of_bytes cmdline)
                       (string_of_bytes container) Via in
      match readStat (3 + n) pid with
      | None => ((4 + n)%nat, None)
      | Some (_, finalStartTime) => ((4 + n)%nat, if negb (finalStartTime =? startTime) then None else Some process)
      end
  end.

(** Lookup after the cache was no help *)
Definition lookup_fresh (r : Resolver) (n : nat) (now : Time) (pid : Z) : Resolver * nat * option Process :=
  match readProcess n pid (rs_maxCmdline r) with
  | (n, None) => (set_cache (delete pid (rs_cache r)) r, n, None)
  | (n, Some process) =>
      let cache := delete pid (rs_cache r) in
      let cache := if rs_maxEntries r <=? Z.of_nat (size cache) then evictExpiredLocked now cache else cache in
      let cache := if Z.of_nat (size cache) <? rs_maxEntries r
                   then <[pid := mkEntry process (time_Add now (rs_ttl r))]> cache else cache in
      (set_cache cache r, n, Some process)
  end.

(** Lookup: the resolver, the next instant and the process *)
Definition Lookup (r : Resolver) (n : nat) (now : Time) (pid : Z) : Resolver * nat * option Process :=
  if pid =? 0 then (r, n, None)
  else
    match rs_cache r !! pid with
    | Some cached =>
        if time_Before now (en_expiresAt cached) then
          match readStat n pid with
          | None => (set_cache (delete pid (rs_cache r)) r, S n, None)
          | Some (_, startTime) =>
              if startTime =? pr_StartTimeTicks (en_process cached) then (r, S n, Some (en_process cached))
              else lookup_fresh r (S n) now pid
          end
        else lookup_fresh r n now pid
    | None => lookup_fresh r n now pid
    end.

(** A history: the wall clock and the PID of each call *)
Fixpoint lookups (r : Resolver) (n : nat) (calls : list (Time * Z)) : Resolver * nat * list (option Process * nat) :=
  match calls with
  | [] => (r, n, [])
  | (now, pid) :: calls' =>
      let '(r, n, process) := Lookup r n now pid in
      let '(r, m, answers) := lookups r n calls' in
      (r, m, (process, n) :: answers)
  end.
End resolver.

(** *** What the kernel guarantees *)

(** [holder n pid] is the start time of the process that holds the PID at the
    n-th read. The stat file carries it, a file is readable only while a
    process holds the PID, and a later holder of a PID started later. *)
Class Kernel (fs : ProcFS) := {
  holder : nat -> Z -> option Z;
  kernel_stat n pid stat comm start :
    stat_file n pid = Some stat -> parseStat stat = Some (comm, start) -> holder n pid = Some start;
  kernel_order n m pid start start' :
    (n <= m)%nat -> holder n pid = Some start -> holder m pid = Some start' -> start <= start'
}.

(** [p] was put together from the reads that begin at [n]. *)
Definition assembled {fs : ProcFS} (maxCmdline : Z) (n : nat) (p : Process) : Prop :=
  exists comm,
    readStat n (pr_PID p) = Some (comm, pr_StartTimeTicks p) /\
    p = mkProcess (pr_PID p) (pr_StartTimeTicks p) (string_of_bytes comm)
          (string_of_bytes match cmdline_file (1 + n) (pr_PID p) with
                           | Some raw => formatCmdline raw maxCmdline | None => [] end)
          (string_of_bytes match cgroup_file (2 + n) (pr_PID p) with
                           | Some cgroup => ParseContainerID cgroup | None => [] end) Via.

(** From [n] to [m], no other process held the PID. *)
Definition same_process {fs : ProcFS} {K : Kernel fs} (pid start : Z) (n m : nat) : Prop :=
  forall i, (n <= i <= m)%nat -> holder i pid = None \/ holder i pid = Some start.

(** ** Lemmas *)

Lemma cut_last_Some sep l x y : cut_last sep l = Some (x, y) -> l = x ++ sep :: y /\ sep ∉ y.
Proof.
  revert x y. induction l as [|b l IH]; intros x y; cbn; [done|].
  destruct (cut_last sep l) as [[x' y']|] eqn:E.
  - intros [= <- <-]. destruct (IH _ _ eq_refl) as [-> H]. done.
  - case_bool_decide as Hb; [|done]. intros [= <- <-]. subst b. split; [done|]. clear IH.
    induction l as [|c l IH]; [apply not_elem_of_nil|]. cbn in E. destruct (cut_last sep l) as [[]|]; [done|].
    case_bool_decide; [done|]. rewrite not_elem_of_cons. split; [congruence|by apply IH].
Qed.

Lemma cut_last_app sep x y : sep ∉ y -> cut_last sep (x ++ sep :: y) = Some (x, y).
Proof.
  intros Hy. induction x as [|b x IH]; cbn.
  - assert (E : cut_last sep y = None).
    { clear -Hy. induction y as [|b y IH]; [done|]. rewrite not_elem_of_cons in Hy. cbn. rewrite IH by tauto.
      case_bool_decide; [|done]. destruct Hy. congruence. }
    by rewrite E, bool_decide_true.
  - by rewrite IH.
Qed.

Lemma readStat_holder {fs : ProcFS} {K : Kernel fs} n pid comm start :
  readStat n pid = Some (comm, start) -> holder n pid = Some start.
Proof.
  unfold readStat. destruct (stat_file n pid) as [stat|] eqn:E; [|done]. cbn. intros H. by eapply kernel_stat.
Qed.

(** Two reads of the same start time have no other process between them. *)
Lemma same_start {fs : ProcFS} {K : Kernel fs} n m pid start :
  holder n pid = Some start -> holder m pid = Some start -> same_process pid start n m.
Proof.
  intros Hn Hm i [H1 H2]. destruct (holder i pid) as [s|] eqn:E; [|by left]. right. f_equal.
  pose proof (kernel_order _ _ _ _ _ H1 Hn E). pose proof (kernel_order _ _ _ _ _ H2 E Hm). lia.
Qed.

Section lookup.
Context {fs : ProcFS} {K : Kernel fs}.

(** A process read at [n], with the last read at [m] *)
Definition identified (maxCmdline : Z) (pid : Z) (n m : nat) (p : Process) : Prop :=
  pr_PID p = pid /\ assembled maxCmdline n p /\ (n + 3 <= m)%nat /\ holder m pid = Some (pr_StartTimeTicks p) /\
  same_process pid (pr_StartTimeTicks p) n m.

Lemma readProcess_identified n pid maxCmdline m p :
  readProcess n pid maxCmdline = (m, Some p) -> m = (4 + n)%nat /\ identified maxCmdline pid n (3 + n) p.
Proof.
  unfold readProcess. destruct (readStat n pid) as [[comm start]|] eqn:E1; [|done].
  destruct (readStat (3 + n) pid) as [[comm' final]|] eqn:E2; [|done].
  destruct (Z.eqb_spec final start) as [->|]; [|done]. cbn [negb]. intros H.
  assert (Em : m = (4 + n)%nat) by congruence. assert (Ep : Some p = (readProcess n pid maxCmdline).2).
  { unfold readProcess. rewrite E1, E2, Z.eqb_refl. cbn [negb snd]. congruence. }
  split; [exact Em|]. unfold readProcess in Ep. rewrite E1, E2, Z.eqb_refl in Ep. cbn [negb snd] in Ep.
  injection Ep as ->. apply readStat_holder in E2. split; [done|]. cbn [pr_PID pr_StartTimeTicks].
  split; [by exists comm|]. split; [lia|]. split; [done|]. apply same_start; [|done].
  by eapply readStat_holder.
Qed.

Lemma readProcess_next n pid maxCmdline : (n <= (readProcess n pid maxCmdline).1)%nat.
Proof.
  unfold readProcess. destruct (readStat n pid) as [[comm start]|]; cbn; [|lia].
  destruct (readStat _ pid) as [[comm' final]|]; cbn; lia.
Qed.

(** The cache: every entry was read before [n], in one process *)
Definition cached_ok (r : Resolver) (n : nat) (pid : Z) (e : entry) : Prop :=
  exists n0 m, (m < n)%nat /\ identified (rs_maxCmdline r) pid n0 m (en_process e).

Record resolver_inv (r : Resolver) (n : nat) : Prop := {
  ri_ttl : 0 < rs_ttl r;
  ri_size : Z.of_nat (size (rs_cache r)) <= rs_maxEntries r;
  ri_cache : map_Forall (cached_ok r n) (rs_cache r)
}.

(** What Lookup answers at the read [m], the last it made *)
Definition answer_ok (r : Resolver) (pid : Z) (next : nat) (answer : option Process) : Prop :=
  match answer with
  | None => True
  | Some p => exists n0 m, next = S m /\ identified (rs_maxCmdline r) pid n0 m p
  end.

Lemma cached_later r n n' pid e : (n <= n')%nat -> cached_ok r n pid e -> cached_ok r n' pid e.
Proof. intros Hn (n0 & m & Hm & H). exists n0, m. split; [lia|exact H]. Qed.

Lemma inv_cache r n n' cache :
  (n <= n')%nat -> resolver_inv r n -> (forall pid e, cache !! pid = Some e -> cached_ok r n' pid e) ->
  Z.of_nat (size cache) <= rs_maxEntries r -> resolver_inv (set_cache cache r) n'.
Proof. intros Hn [H1 H2 H3] Hc Hs. split; [exact H1|exact Hs|]. intros pid e He. by apply Hc. Qed.

Lemma delete_size (m : gmap Z entry) pid : (size (delete pid m) <= size m)%nat.
Proof. apply map_subseteq_size, delete_subseteq. Qed.

Lemma inv_delete r n n' pid : (n <= n')%nat -> resolver_inv r n -> resolver_inv (set_cache (delete pid (rs_cache r)) r) n'.
Proof.
  intros Hn I. eapply inv_cache; [exact Hn|exact I| |].
  - intros k e [_ He]%lookup_delete_Some. eapply cached_later; [exact Hn|]. by apply (ri_cache _ _ I).
  - pose proof (delete_size (rs_cache r) pid). pose proof (ri_size _ _ I). lia.
Qed.

Lemma fresh_ok r n now pid :
  resolver_inv r n ->
  let '(r', n', answer) := lookup_fresh r n now pid in
  (n <= n')%nat /\ resolver_inv r' n' /\ rs_maxCmdline r' = rs_maxCmdline r /\ answer_ok r pid n' answer.
Proof.
  intros I. unfold lookup_fresh. pose proof (readProcess_next n pid (rs_maxCmdline r)) as Hn.
  destruct (readProcess n pid (rs_maxCmdline r)) as [n' [p|]] eqn:E; cbn [fst] in Hn.
  - apply readProcess_identified in E as [-> Hp].
    assert (A : answer_ok r pid (4 + n) (Some p)) by (exists n, (3 + n)%nat; done).
    set (cache := if _ <=? _ then _ else _).
    assert (Hc : forall k e, cache !! k = Some e -> cached_ok r (4 + n) k e).
    { intros k e He. assert (Hk : delete pid (rs_cache r) !! k = Some e).
      { unfold cache in He. destruct (_ <=? _); [|done]. by apply map_lookup_filter_Some in He as [He _]. }
      apply lookup_delete_Some in Hk as [_ Hk]. eapply cached_later; [exact Hn|]. by apply (ri_cache _ _ I). }
    assert (Hs : Z.of_nat (size cache) <= rs_maxEntries r).
    { pose proof (delete_size (rs_cache r) pid). pose proof (ri_size _ _ I). unfold cache.
      destruct (_ <=? _); [|lia]. unfold evictExpiredLocked.
      pose proof (map_subseteq_size _ _ (map_filter_subseteq
        (fun kv : Z * entry => time_Before now (en_expiresAt kv.2) = true) (delete pid (rs_cache r)))). lia. }
    split; [done|]. split; [|by split]. eapply inv_cache; [exact Hn|exact I| |].
    + intros k e. destruct (_ <? _); [|apply Hc]. rewrite lookup_insert_Some. intros [[<- <-]|[_ He]]; [|by apply Hc].
      exists n, (3 + n)%nat. split; [lia|done].
    + destruct (Z.ltb_spec (Z.of_nat (size cache)) (rs_maxEntries r)); [|lia]. rewrite map_size_insert. case_match; cbn; lia.
  - split; [done|]. split; [by eapply inv_delete|done].
Qed.

Lemma Lookup_ok r n now pid :
  resolver_inv r n ->
  let '(r', n', answer) := Lookup r n now pid in
  (n <= n')%nat /\ resolver_inv r' n' /\ rs_maxCmdline r' = rs_maxCmdline r /\ answer_ok r pid n' answer.
Proof.
  intros I. unfold Lookup. destruct (pid =? 0); [done|].
  destruct (rs_cache r !! pid) as [e|] eqn:Ee; [|by apply fresh_ok].
  destruct (time_Before now (en_expiresAt e)); [|by apply fresh_ok].
  pose proof (inv_delete r n (S n) pid ltac:(lia) I) as Hd.
  assert (I' : resolver_inv r (S n)).
  { destruct I as [H1 H2 H3]. split; [done|done|]. intros k e' He. eapply cached_later; [|by apply H3]. lia. }
  destruct (readStat n pid) as [[comm start]|] eqn:Es; [|split; [lia|by split]].
  destruct (Z.eqb_spec start (pr_StartTimeTicks (en_process e))) as [->|].
  - split; [lia|]. split; [done|]. split; [done|].
    destruct (ri_cache _ _ I _ _ Ee) as (n0 & m & Hm & H1 & H2 & H3 & H4 & H5).
    apply readStat_holder in Es. exists n0, n. split; [done|]. split; [done|]. split; [done|]. split; [lia|]. split; [done|].
    apply same_start; [|done].
    destruct H2 as (c & H2 & _). rewrite H1 in H2. by apply readStat_holder in H2.
  - pose proof (fresh_ok r (S n) now pid I') as F.
    destruct (lookup_fresh r (S n) now pid) as [[r' n'] answer]. destruct F as (F1 & F2). split; [lia|exact F2].
Qed.

Lemma apply_option_inv options r : 0 < rs_ttl r -> rs_cache r = ∅ -> 0 < rs_maxEntries r ->
  resolver_inv (foldl apply_option r options) 0.
Proof.
  revert r. induction options as [|o options IH]; intros r H1 H2 H3; cbn.
  - split; [done| |]; rewrite H2; [rewrite map_size_empty; lia|apply map_Forall_empty].
  - apply IH; unfold apply_option; destruct o; destruct (Z.ltb_spec 0 ttl) || destruct (Z.ltb_spec 0 n); done.
Qed.

(** What is answered is right, for every call of a history *)
Definition history_ok (maxCmdline : Z) (call : Time * Z) (answer : option Process * nat) : Prop :=
  match answer.1 with
  | None => True
  | Some p => exists n0 m, answer.2 = S m /\ identified maxCmdline call.2 n0 m p
  end.

Lemma lookups_ok r n calls :
  resolver_inv r n ->
  let '(r', n', answers) := lookups r n calls in
  resolver_inv r' n' /\ Forall2 (history_ok (rs_maxCmdline r)) calls answers.
Proof.
  revert r n. induction calls as [|[now pid] calls IH]; intros r n I; cbn [lookups]; [done|].
  pose proof (Lookup_ok r n now pid I) as L. destruct (Lookup r n now pid) as [[r1 n1] answer].
  destruct L as (_ & L2 & L3 & L4). specialize (IH r1 n1 L2). destruct (lookups r1 n1 calls) as [[r2 n2] answers].
  destruct IH as [IH1 IH2]. split; [exact IH1|]. constructor; [|by rewrite <- L3].
  by destruct answer as [p|].
Qed.
End lookup.

(** *** The parsers *)

(** A comm may hold any bytes, spaces and parentheses among them: the last
    closing parenthesis of the line ends it. *)
Lemma parseStat_line pid comm tail start :
  open_paren ∉ pid -> close_paren ∉ tail -> (20 <= length (Fields tail))%nat ->
  ParseUint10 64 (Fields tail !!! 19%nat) = Some start ->
  parseStat (pid ++ open_paren :: comm ++ close_paren :: tail) = Some (comm, start).
Proof.
  intros Hp Ht Hf Hs. unfold parseStat. rewrite cut_byte_app by done.
  replace (pid ++ open_paren :: comm ++ close_paren :: tail) with ((pid ++ open_paren :: comm) ++ close_paren :: tail)
    by (by rewrite <- app_assoc).
  rewrite cut_last_app by done. rewrite length_app. cbn [length].
  destruct (Nat.ltb_spec (length pid + S (length comm)) (length pid)); [lia|].
  destruct (Nat.ltb_spec (length (Fields tail)) 20); [lia|]. rewrite Hs. cbn. do 2 f_equal.
  unfold slice. rewrite <- app_assoc, drop_app_ge by lia.
  replace (S (length pid) - length pid)%nat with 1%nat by lia. cbn [app drop].
  replace (length pid + S (length comm) - S (length pid))%nat with (length comm) by lia.
  by rewrite drop_0, take_app_length.
Qed.

(** A cgroup line of a container runtime names the container: the prefix ends
    with a hyphen, and the scope suffix may be there or not. *)
Lemma containerIDPattern_name prefix id (scope : bool) :
  length id = 64%nat -> Forall (fun b => is_id_digit b = true) id -> last prefix ∈ [None; Some (byte_of 45)] ->
  containerIDPattern (prefix ++ id ++ (if scope then lit ".scope" else [])) = Some id.
Proof.
  intros Hl Hid Hp.
  assert (E : without_scope (prefix ++ id ++ (if scope then lit ".scope" else [])) = prefix ++ id).
  { unfold without_scope. rewrite app_assoc, length_app. destruct scope.
    - change (length (lit ".scope")) with 6%nat. rewrite Nat.add_sub, drop_app_length, bool_decide_true by done.
      by rewrite take_app_length.
    - rewrite app_nil_r, Nat.add_0_r. case_bool_decide as Hd; [|done]. exfalso.
      rewrite length_app, drop_app_ge in Hd by lia.
      apply (Forall_drop _ (length prefix + length id - 6 - length prefix)) in Hid. rewrite Hd in Hid.
      by apply Forall_inv in Hid. }
  unfold containerIDPattern. rewrite E, length_app, Hl.
  destruct (Nat.ltb_spec (length prefix + 64) 64); [lia|]. rewrite Nat.add_sub, drop_app_length.
  rewrite (proj2 (List.forallb_forall _ _) (proj1 (List.Forall_forall _ _) Hid)). cbn [negb orb].
  destruct (Nat.eqb_spec (length prefix) 0) as [|Hn]; [done|]. rewrite lookup_app_l by lia. cbn [orb].
  rewrite bool_decide_true; [done|]. rewrite last_lookup in Hp.
  replace (length prefix - 1)%nat with (pred (length prefix)) by lia.
  destruct (lookup_lt_is_Some_2 prefix (pred (length prefix)) ltac:(lia)) as [b Hb]. rewrite Hb in Hp |- *. set_solver.
Qed.

(** ** Theorems *)

(** C11. The identity attached to a PID is never that of another process that
    held the PID: whenever Lookup answers, from procfs or from its cache, the
    start time, comm, command line and container of the answer were read while
    one process held the PID, no other process has held it since, and that
    process holds it at the lookup's last read. The cache stays within its
    bound. *)
Theorem lookup_generation {fs : ProcFS} {K : Kernel fs} options calls :
  let '(r, _, answers) := lookups (NewResolver options) 0 calls in
  Z.of_nat (size (rs_cache r)) <= rs_maxEntries r /\
  Forall2 (fun call answer => forall p, answer.1 = Some p -> exists n m,
      answer.2 = S m /\ (n + 3 <= m)%nat /\ pr_PID p = call.2 /\
      assembled (rs_maxCmdline (NewResolver options)) n p /\
      same_process call.2 (pr_StartTimeTicks p) n m /\ holder m call.2 = Some (pr_StartTimeTicks p)) calls answers.
Proof.
  assert (I : resolver_inv (NewResolver options) 0) by (by apply apply_option_inv).
  pose proof (lookups_ok (NewResolver options) 0 calls I) as L.
  destruct (lookups (NewResolver options) 0 calls) as [[r n] answers]. destruct L as [L1 L2].
  split; [apply (ri_size _ _ L1)|]. eapply Forall2_impl; [exact L2|]. intros call answer Ha p Hp. unfold history_ok in Ha.
  rewrite Hp in Ha. destruct Ha as (n0 & m & H1 & H2 & H3 & H4 & H5 & H6). by exists n0, m.
Qed.

(** A process that holds its PID through a lookup and can be read is found. *)
Lemma lookup_finds {fs : ProcFS} r n now pid start :
  pid <> 0 -> (forall i, (n <= i)%nat -> exists comm, readStat i pid = Some (comm, start)) ->
  exists p, (Lookup r n now pid).2 = Some p /\ pr_StartTimeTicks p = start.
Proof.
  intros Hpid Hs.
  assert (Hf : forall i, (n <= i)%nat -> exists p, (lookup_fresh r i now pid).2 = Some p /\ pr_StartTimeTicks p = start).
  { intros i Hi. unfold lookup_fresh, readProcess. destruct (Hs i Hi) as [c ->], (Hs (3 + i)%nat ltac:(lia)) as [c' ->].
    rewrite Z.eqb_refl. cbn [negb snd]. by eexists. }
  unfold Lookup. destruct (Z.eqb_spec pid 0); [done|]. destruct (rs_cache r !! pid) as [e|]; [|by apply Hf].
  destruct (time_Before _ _); [|by apply Hf]. destruct (Hs n ltac:(lia)) as [c ->].
  destruct (Z.eqb_spec start (pr_StartTimeTicks (en_process e))) as [->|]; [by eexists|]. apply Hf. lia.
Qed.

(** A procfs in which the PID 42 is reused at the seventh read *)
Definition example_stat (start : string) : list byte :=
  lit "42 (a (b) c) S 1 2 3 4 5 6 7 8 9 10 11 12 13 14 15 16 17 18 " ++ lit start ++ lit " 0".

Definition example_start (n : nat) : Z := if (n <? 6)%nat then 100 else 200.

Lemma example_parse :
  parseStat (example_stat "100") = Some (lit "a (b) c", 100) /\
  parseStat (example_stat "200") = Some (lit "a (b) c", 200).
Proof. split; vm_compute; reflexivity. Qed.

#[local] Instance example_procfs : ProcFS := {
  stat_file n pid := if pid =? 42 then Some (example_stat (if (n <? 6)%nat then "100" else "200")) else None;
  cmdline_file _ _ := Some (lit "a" ++ [NUL] ++ lit "b" ++ [NUL]);
  cgroup_file _ _ := None
}.

#[local] Instance example_kernel : Kernel example_procfs.
Proof.
  exists (fun n pid => if pid =? 42 then Some (example_start n) else None); unfold example_start.
  - intros n pid stat comm start. cbn [stat_file example_procfs]. destruct (pid =? 42); [|done].
    intros H. apply (inj Some) in H as <-. destruct example_parse as [E1 E2].
    destruct (n <? 6)%nat; [rewrite E1|rewrite E2]; by intros [= _ <-].
  - intros n m pid start start' Hnm. destruct (pid =? 42); [|done].
    destruct (Nat.ltb_spec n 6), (Nat.ltb_spec m 6); intros [= <-] [= <-]; lia.
Defined.

Definition example_lookups : list (Time * Z) := [(Second, 42); (2 * Second, 42); (3 * Second, 42); (4 * Second, 42)].

Definition answer_start (answer : option Process * nat) : option Z := pr_StartTimeTicks <$> answer.1.

Lemma lookup_generation_witness :
  exists r n answers, lookups (NewResolver []) 0 example_lookups = (r, n, answers) /\
    List.map answer_start answers = [Some 100; Some 100; Some 100; Some 200] /\
    Forall2 (fun call answer => forall p, answer.1 = Some p -> exists m,
      answer.2 = S m /\ pr_PID p = call.2 /\ holder m call.2 = Some (pr_StartTimeTicks p)) example_lookups answers.
Proof.
  assert (S : List.map answer_start (lookups (NewResolver []) 0 example_lookups).2 =
    [Some 100; Some 100; Some 100; Some 200]) by (vm_compute; reflexivity).
  pose proof (lookup_generation [] example_lookups) as T.
  destruct (lookups (NewResolver []) 0 example_lookups) as [[r n] answers]. destruct T as [_ T].
  exists r, n, answers. split; [reflexivity|]. split; [exact S|].
  eapply Forall2_impl; [exact T|]. intros call answer Ha p Hp. destruct (Ha p Hp) as (n0 & m & H1 & _ & H2 & _ & _ & H3).
  exists m. exact (conj H1 (conj H2 H3)).
Defined.
