(* ===== verification/PodIdentity.v ===== *)
(** * internal/podidentity: the Pod cache

    cache.go. The store of Pods is client-go's indexer, a parameter: ByIndex
    answers with the objects that an index function gives the key. *)

From S2P Require Import Prelude Text Flow NetIP NetAddr.

#[local] Open Scope Z_scope.

(** ** Definitions *)

(** The fields of core.Pod the code reads; the container IDs of the three
    status lists *)
Record core_Pod := mkCorePod {
  kp_UID : string;
  kp_Namespace : string;
  kp_Name : string;
  kp_HostNetwork : bool;
  kp_CreationTimestamp : Time;
  kp_PodIP : string;
  kp_PodIPs : list string;
  kp_ContainerStatuses : list string;
  kp_InitContainerStatuses : list string;
  kp_EphemeralContainerStatuses : list string
}.

#[export] Instance core_Pod_eq_dec : EqDecision core_Pod.
Proof. solve_decision. Defined.

(** netip.Addr's String, of an address without a mapped prefix *)
Definition Addr_String (ip : Addr) : string :=
  if Is4 ip then ipv4_string (ad_bytes ip)
  else ipv6_string (ad_bytes ip) +:+ (if (length (ad_zone ip) =? 0)%nat then "" else "%" +:+ string_of_bytes (ad_zone ip)).

Definition ipKey (s : string) : string :=
  match ParseAddr (bytes_of_string s) with
  | None => ""
  | Some a => Addr_String (Unmap a)
  end.

(** strings.Cut at "://" *)
Definition containerKey (s : string) : string :=
  match bytes_index (bytes_of_string s) (lit "://") with
  | Some i => string_of_bytes (drop (i + 3) (bytes_of_string s))
  | None => s
  end.

Section cache.
Context {R : MapRange string bool}.

Definition nonempty (keys : gmap string bool) : list string :=
  filter (fun k => k <> "") (map_range keys).*1.

Definition set_keys (key : string -> string) (l : list string) (keys : gmap string bool) : gmap string bool :=
  foldl (fun keys s => <[key s := true]> keys) keys l.

Definition index_ip (p : core_Pod) : list string :=
  nonempty (set_keys ipKey (kp_PodIPs p) (<[ipKey (kp_PodIP p) := true]> ∅)).

Definition index_container (p : core_Pod) : list string :=
  nonempty (foldl (fun keys statuses => set_keys containerKey statuses keys) ∅
              [kp_ContainerStatuses p; kp_InitContainerStatuses p; kp_EphemeralContainerStatuses p]).

Definition Indexers (index : string) : option (core_Pod -> list string) :=
  if bool_decide (index = "ip") then Some index_ip
  else if bool_decide (index = "container") then Some index_container
  else None.
End cache.

Definition PodIndexer : Type := string -> string -> option (list core_Pod).

Record Cache := mkCache {
  ca_index : PodIndexer;
  ca_synced : bool
}.

Definition lookup (c : Cache) (index key : string) (at_ : Time) : option Pod :=
  if bool_decide (key = "") || negb (ca_synced c) then None
  else
    match ca_index c index key with
    | Some [p] =>
        if bool_decide (kp_UID p = "") || (bool_decide (index = "ip") && kp_HostNetwork p) ||
           (negb (time_IsZero at_) && negb (time_IsZero (kp_CreationTimestamp p)) &&
            time_Before at_ (kp_CreationTimestamp p))
        then None
        else Some (mkPod (kp_UID p) (kp_Namespace p) (kp_Name p))
    | _ => None
    end.

(** The three assignments of Enrich *)
Definition with_pods (source destination observer : option Pod) (o : Observation) : Observation :=
  mkObservation source destination observer (ob_ObservedAt o) (ob_KernelTimestampNS o) (ob_Flow o)
    (ob_SourceResolved o) (ob_DestinationResolved o) (ob_Process o) (ob_BytesTx o) (ob_BytesRx o) (ob_PacketsTx o)
    (ob_PacketsRx o) (ob_Retransmissions o) (ob_Losses o) (ob_RTT o) (ob_Jitter o).

(** The address a Pod is looked up by: the resolved one when there is one *)
Definition effective (e : Endpoint) (resolved : option ResolvedEndpoint) : string :=
  match resolved with Some r => re_Address r | None => ep_Address e end.

Definition Enrich (c : Cache) (o : Observation) : Observation :=
  let source := effective (fk_Source (ob_Flow o)) (ob_SourceResolved o) in
  let destination := effective (fk_Destination (ob_Flow o)) (ob_DestinationResolved o) in
  let observer :=
    match ob_Process o with
    | Some p => lookup c "container" (containerKey (pr_ContainerID p)) (ob_ObservedAt o)
    | None => None
    end in
  with_pods (lookup c "ip" (ipKey source) (ob_ObservedAt o)) (lookup c "ip" (ipKey destination) (ob_ObservedAt o))
    observer o.

(** *** What the indexer guarantees: ByIndex of an index it was built with
    gives the stored objects that the index function gives the key, in any
    order, and an error for any other index. *)
Definition indexes {R : MapRange string bool} (pods : list core_Pod) (index : PodIndexer) : Prop :=
  forall name key,
    match Indexers name with
    | Some keys => exists l, index name key = Some l /\ l ≡ₚ filter (fun p => key ∈ keys p) pods
    | None => index name key = None
    end.

(** *** Specification *)

(** A Pod has an address, a container *)
Definition has_ip (p : core_Pod) (key : string) : Prop := exists s, s ∈ kp_PodIP p :: kp_PodIPs p /\ ipKey s = key.
Definition has_container (p : core_Pod) (key : string) : Prop :=
  exists s, s ∈ kp_ContainerStatuses p ++ kp_InitContainerStatuses p ++ kp_EphemeralContainerStatuses p /\
    containerKey s = key.

(** The Pod existed at an instant, as far as the two times are known. *)
Definition existed (p : core_Pod) (at_ : Time) : Prop :=
  at_ = 0 \/ kp_CreationTimestamp p = 0 \/ kp_CreationTimestamp p <= at_.

(** [q] names the only stored Pod with the property. *)
Definition only_pod (pods : list core_Pod) (P : core_Pod -> Prop) (at_ : Time) (q : Pod) : Prop :=
  exists p, p ∈ pods /\ P p /\ (forall p', p' ∈ pods -> P p' -> p' = p) /\ existed p at_ /\
    kp_UID p <> "" /\ q = mkPod (kp_UID p) (kp_Namespace p) (kp_Name p).

(** The only Pod with an address, and not one of the host's network *)
Definition pod_of_ip (pods : list core_Pod) (key : string) (at_ : Time) (q : Pod) : Prop :=
  key <> "" /\ only_pod pods (fun p => has_ip p key) at_ q /\
  (forall p, p ∈ pods -> has_ip p key -> kp_HostNetwork p = false).

Definition pod_of_container (pods : list core_Pod) (key : string) (at_ : Time) (q : Pod) : Prop :=
  key <> "" /\ only_pod pods (fun p => has_container p key) at_ q.

(** ** Lemmas *)

Section lemmas.
Context {R : MapRange string bool}.

Lemma elem_of_set_keys key l keys k :
  is_Some (set_keys key l keys !! k) <-> is_Some (keys !! k) \/ exists s, s ∈ l /\ key s = k.
Proof.
  revert keys. induction l as [|s l IH]; intros keys; cbn.
  - split; [by left|]. intros [H|(s & H & _)]; [done|by apply not_elem_of_nil in H].
  - fold (set_keys key l (<[key s:=true]> keys)). rewrite IH, lookup_insert_is_Some. split.
    + intros [[H|[_ H]]|(s' & H & E)]; [right; exists s; by split; [left|]|by left|right; exists s'; by split; [right|]].
    + intros [H|(s' & H & E)].
      * left. destruct (decide (key s = k)); [by left|by right].
      * apply elem_of_cons in H as [->|H]; [left; by left|right; by exists s'].
Qed.

Lemma elem_of_nonempty keys k : k ∈ nonempty keys <-> k <> "" /\ is_Some (keys !! k).
Proof.
  unfold nonempty. rewrite list_elem_of_filter. apply and_iff_compat_l. rewrite list_elem_of_fmap. split.
  - intros ([k' v] & -> & H). apply elem_of_map_range in H. by exists v.
  - intros [v H]. exists (k, v). split; [done|]. by apply elem_of_map_range.
Qed.

Lemma elem_of_index_ip p k : k ∈ index_ip p <-> k <> "" /\ has_ip p k.
Proof.
  unfold index_ip, has_ip. rewrite elem_of_nonempty, elem_of_set_keys, lookup_insert_is_Some.
  apply and_iff_compat_l. split.
  - intros [[E|[_ [v H]]]|(s & H & E)]; [exists (kp_PodIP p); by split; [left|]| |exists s; by split; [right|]].
    by rewrite lookup_empty in H.
  - intros (s & [->|H]%elem_of_cons & E); [left; by left|right; by exists s].
Qed.

Lemma elem_of_index_container p k : k ∈ index_container p <-> k <> "" /\ has_container p k.
Proof.
  unfold index_container, has_container. cbn. rewrite elem_of_nonempty, !elem_of_set_keys, lookup_empty.
  apply and_iff_compat_l. split.
  - intros [[[[v H]|(s & H & E)]|(s & H & E)]|(s & H & E)]; [done|..]; exists s; split; try done;
      rewrite !elem_of_app; tauto.
  - intros (s & H & E). rewrite !elem_of_app in H. destruct H as [H|[H|H]];
      [left; left; right|left; right|right]; by exists s.
Qed.

Lemma filter_single (P : core_Pod -> Prop) `{forall p, Decision (P p)} pods p :
  NoDup pods ->
  filter P pods = [p] <-> p ∈ pods /\ P p /\ (forall p', p' ∈ pods -> P p' -> p' = p).
Proof.
  intros Hnd. split.
  - intros E. assert (Hin : p ∈ filter P pods) by (rewrite E; by left).
    apply list_elem_of_filter in Hin as [Hp Hin]. split_and!; [done|done|]. intros p' Hin' Hp'.
    assert (H' : p' ∈ filter P pods) by by apply list_elem_of_filter. rewrite E in H'.
    by apply list_elem_of_singleton in H'.
  - intros (Hin & Hp & Hu). apply Permutation_singleton_r. symmetry. apply NoDup_Permutation; [by repeat constructor; apply not_elem_of_nil|by apply NoDup_filter|].
    intros p'. rewrite list_elem_of_singleton, list_elem_of_filter. split; [by intros ->|]. intros [? ?]. by apply Hu.
Qed.

(** A lookup finds a Pod exactly when it is the only one with the key. *)
Lemma lookup_exact pods c name keys key at_ q :
  NoDup pods -> indexes pods (ca_index c) -> Indexers name = Some keys ->
  lookup c name key at_ = Some q <->
  ca_synced c = true /\ key <> "" /\
  exists p, (p ∈ pods /\ key ∈ keys p /\ forall p', p' ∈ pods -> key ∈ keys p' -> p' = p) /\
    kp_UID p <> "" /\ (name = "ip" -> kp_HostNetwork p = false) /\ existed p at_ /\
    q = mkPod (kp_UID p) (kp_Namespace p) (kp_Name p).
Proof.
  intros Hnd Hi Hk. specialize (Hi name key). rewrite Hk in Hi. destruct Hi as (l & El & Hl). unfold lookup. rewrite El.
  destruct (decide (key = "")) as [->|Hkey]; [rewrite bool_decide_true by done; cbn; split; [done|]; by intros (_ & ? & _)|].
  rewrite bool_decide_false by done. cbn [orb]. destruct (ca_synced c); cbn [negb]; [|split; [done|by intros (? & _)]].
  assert (Hone : forall p, l = [p] <-> (p ∈ pods /\ key ∈ keys p /\ forall p', p' ∈ pods -> key ∈ keys p' -> p' = p)).
  { intros p. rewrite <- (filter_single (fun p => key ∈ keys p) pods p Hnd). split; intros E; [|].
    - rewrite E in Hl. by apply Permutation_singleton_l in Hl.
    - rewrite E in Hl. by apply Permutation_singleton_r in Hl. }
  assert (Hex : forall p, negb (time_IsZero at_) && negb (time_IsZero (kp_CreationTimestamp p)) &&
            time_Before at_ (kp_CreationTimestamp p) = false <-> existed p at_).
  { intros p. unfold existed, time_IsZero, time_Before. destruct (Z.eqb_spec at_ 0), (Z.eqb_spec (kp_CreationTimestamp p) 0),
      (Z.ltb_spec at_ (kp_CreationTimestamp p)); cbn; split; (done || lia). }
  destruct l as [|p [|p' l']].
  - split; [done|]. intros (_ & _ & p & Hp & _). by apply Hone in Hp.
  - destruct (Hone p) as [Hp _]. specialize (Hp eq_refl). specialize (Hex p).
    destruct (decide (kp_UID p = "")) as [Hu|Hu].
    { rewrite bool_decide_true by done. split; [done|]. intros (_ & _ & p' & Hp' & Hu' & _). apply Hone in Hp'. congruence. }
    rewrite (bool_decide_false (kp_UID p = "")) by done. cbn [orb].
    destruct (bool_decide (name = "ip") && kp_HostNetwork p) eqn:Eh.
    { split; [done|]. intros (_ & _ & p' & Hp' & _ & Hh & _). apply Hone in Hp'.
      apply andb_true_iff in Eh as [En%bool_decide_eq_true Eh]. specialize (Hh En). congruence. }
    cbn [orb]. destruct (_ && time_Before _ _).
    { split; [done|]. intros (_ & _ & p' & Hp' & _ & _ & He & _). apply Hone in Hp'. injection Hp' as <-. by apply Hex in He. }
    split.
    + intros [= <-]. split; [done|]. split; [done|]. exists p. split; [done|]. split; [done|]. split; [|by split; [apply Hex|]].
      intros En. rewrite bool_decide_true in Eh by done. done.
    + intros (_ & _ & p' & Hp' & _ & _ & _ & ->). apply Hone in Hp'. by injection Hp' as <-.
  - split; [done|]. intros (_ & _ & p0 & Hp & _). by apply Hone in Hp.
Qed.

Lemma lookup_ip pods c key at_ q :
  NoDup pods -> indexes pods (ca_index c) -> ca_synced c = true ->
  lookup c "ip" key at_ = Some q <-> pod_of_ip pods key at_ q.
Proof.
  intros Hnd Hi Hs. rewrite (lookup_exact pods c "ip" index_ip) by done. unfold pod_of_ip, only_pod. split.
  - intros (_ & Hk & p & (H1 & H2 & H3) & H4 & H5 & H6 & H7).
    assert (Hu : forall p', p' ∈ pods -> has_ip p' key -> p' = p) by (intros; by apply H3; [|apply elem_of_index_ip]).
    apply elem_of_index_ip in H2 as [_ H2]. split; [done|]. split; [by exists p|].
    intros p' Hp' Hip. rewrite (Hu p' Hp' Hip). by apply H5.
  - intros (Hk & (p & H1 & H2 & H3 & H4 & H5 & H6) & H7). split; [done|]. split; [done|]. exists p.
    split_and!; try done; [by apply elem_of_index_ip| |by intros; apply H7].
    intros p' Hp' [_ Hip]%elem_of_index_ip. by apply H3.
Qed.

Lemma lookup_container pods c key at_ q :
  NoDup pods -> indexes pods (ca_index c) -> ca_synced c = true ->
  lookup c "container" key at_ = Some q <-> pod_of_container pods key at_ q.
Proof.
  intros Hnd Hi Hs. rewrite (lookup_exact pods c "container" index_container) by done.
  unfold pod_of_container, only_pod. split.
  - intros (_ & Hk & p & (H1 & H2 & H3) & H4 & _ & H6 & H7). apply elem_of_index_container in H2 as [_ H2].
    split; [done|]. exists p. split_and!; try done. intros p' Hp' Hc. by apply H3; [|apply elem_of_index_container].
  - intros (Hk & p & H1 & H2 & H3 & H4 & H5 & H6). split; [done|]. split; [done|]. exists p.
    split_and!; try done; [by apply elem_of_index_container|]. intros p' Hp' [_ Hc]%elem_of_index_container. by apply H3.
Qed.
End lemmas.

(** The text of an IPv4 address is its own key, and so is the text of the
    mapped IPv6 address. *)
Lemma ipKey_ipv4 raw : length raw = 4%nat -> ipKey (ipv4_string raw) = ipv4_string raw.
Proof.
  intros Hl. unfold ipKey. rewrite ParseAddr_ipv4_string by done. unfold Unmap, Addr_String, Is4. cbn [ad_bytes].
  rewrite Hl. cbn. by rewrite Hl.
Qed.

Example ipKey_mapped : ipKey "::ffff:10.0.0.1" = "10.0.0.1" /\ ipKey "2001:DB8:0::1" = "2001:db8::1".
Proof. vm_compute. split; reflexivity. Qed.

(** An endpoint gets the identity of a Pod exactly when one Pod of the
    synced cache, and only one, has its address: not a Pod of the host's
    network and not one created after the observation. An observer gets it
    exactly when one Pod has its container. Two Pods with the same address
    give no identity, an unsynced cache gives none, what the observation said
    before is replaced, and nothing it measured is changed. *)
Lemma Enrich_exact {R : MapRange string bool} pods c o :
  NoDup pods -> indexes pods (ca_index c) ->
  let o' := Enrich c o in
  let at_ := ob_ObservedAt o in
  o' = with_pods (ob_SourcePod o') (ob_DestinationPod o') (ob_ObserverPod o') o /\
  (forall q, ob_SourcePod o' = Some q <-> ca_synced c = true /\
     pod_of_ip pods (ipKey (effective (fk_Source (ob_Flow o)) (ob_SourceResolved o))) at_ q) /\
  (forall q, ob_DestinationPod o' = Some q <-> ca_synced c = true /\
     pod_of_ip pods (ipKey (effective (fk_Destination (ob_Flow o)) (ob_DestinationResolved o))) at_ q) /\
  (forall q, ob_ObserverPod o' = Some q <-> ca_synced c = true /\
     exists p, ob_Process o = Some p /\ pod_of_container pods (containerKey (pr_ContainerID p)) at_ q).
Proof.
  intros Hnd Hi. cbn. split; [done|]. destruct (ca_synced c) eqn:Es.
  - split; [|split]; intros q.
    + rewrite (lookup_ip pods) by done. tauto.
    + rewrite (lookup_ip pods) by done. tauto.
    + destruct (ob_Process o) as [p|].
      * rewrite (lookup_container pods) by done. split; [intros H; split; [done|by exists p]|].
        intros (_ & p' & [= <-] & H). exact H.
      * split; [done|]. by intros (_ & p & ? & _).
  - assert (Hn : forall name key t, lookup c name key t = None).
    { intros. unfold lookup. by rewrite Es, orb_true_r. }
    rewrite !Hn. split; [|split]; intros q; [split; [done|by intros [? _]]..|].
    destruct (ob_Process o); rewrite ?Hn; split; try done; by intros [? _].
Qed.

(** An indexer over a list *)
Definition example_indexer (pods : list core_Pod) : PodIndexer := fun name key =>
  (fun keys => filter (fun p => key ∈ keys p) pods) <$> @Indexers (canonical_range _ _) name.

Definition example_pod (uid ip : string) (created : Time) : core_Pod :=
  mkCorePod uid "shop" uid false created ip [ip] ["containerd://" +:+ uid] [] [].

(** Two Pods share an address, as when one has ended. *)
Definition example_pods : list core_Pod :=
  [example_pod "web" "10.0.0.2" 5; example_pod "db" "10.0.0.3" 5; example_pod "old" "10.0.0.2" 1].

Definition example_observed : Observation :=
  mkObservation None None None 7 0 (mkFlowKey "node" "tcp" "" (mkEndpoint "10.0.0.2" 40000) (mkEndpoint "::ffff:10.0.0.3" 80))
    None None None 1 2 3 4 0 0 (mkDistribution 0 0 0 0) (mkDistribution 0 0 0 0).
