(* ===== verification/PodInformer.v ===== *)
(** * internal/podidentity: the informer

    Start of informer.go: one informer over the Pods of the cluster, the wait
    for its first list, the function that stops it, and the cache over its
    store. The informer is client-go's: what it does between two actions of
    the program is a list of [informer_event]s, of which those that cannot
    happen have no effect. *)

From S2P Require Import Prelude Text Flow NetIP NetAddr PodIdentity.

#[local] Open Scope Z_scope.

(** ** Definitions *)

(** The context of the informer, its goroutine, HasSynced and its store *)
Record informer := mkInformer {
  if_cancelled : bool;
  if_running : bool;
  if_synced : bool;
  if_pods : list core_Pod
}.

Inductive informer_event :=
| ParentCancelled
| Listed (pods : list core_Pod)
| Changed (pods : list core_Pod)
| RunReturned.

(** RunWithContext lists and watches while it runs, and returns once its
    context is done. *)
Definition happen (i : informer) (e : informer_event) : informer :=
  match e with
  | ParentCancelled => mkInformer true (if_running i) (if_synced i) (if_pods i)
  | Listed pods => if if_running i then mkInformer (if_cancelled i) true true pods else i
  | Changed pods =>
      if if_running i && if_synced i then mkInformer (if_cancelled i) true true pods else i
  | RunReturned => if if_cancelled i then mkInformer true false (if_synced i) (if_pods i) else i
  end.

Definition happens (i : informer) (es : list informer_event) : informer := foldl happen i es.

Inductive InformerError :=
| arguments_error
| client_error
| sync_error (shutdown_timeout : bool). (* joined with the error of stop *)

Inductive stop_error := shutdown_timeout_error.

(** The goroutine is started. *)
Definition started : informer := mkInformer false true false [].

(** The function Start returns: cancel, then wait for the goroutine for a
    time, in which [es] happens *)
Definition stop (i : informer) (es : list informer_event) : informer * option stop_error :=
  let i := mkInformer true (if_running i) (if_synced i) (if_pods i) in
  let i := happens i es in
  (i, if if_running i then Some shutdown_timeout_error else None).

(** What Start is given and sees *)
Record start_world := mkStartWorld {
  sw_parent : bool; (* parent is not nil *)
  sw_config : bool; (* config is not nil *)
  sw_syncTimeout : Duration;
  sw_client : bool; (* NewForConfig returns no error *)
  sw_waiting : list informer_event; (* during WaitForCacheSync *)
  sw_in_time : bool; (* its stop channel is not closed first *)
  sw_stopping : list informer_event (* during stop, if it fails *)
}.

(** Start: the informer, if one was started, and an error *)
Definition Start (w : start_world) : option informer * option InformerError :=
  if negb (sw_parent w) || negb (sw_config w) || (sw_syncTimeout w <=? 0) then (None, Some arguments_error)
  else if negb (sw_client w) then (None, Some client_error)
  else
    let i := happens started (sw_waiting w) in
    if negb (sw_in_time w && if_synced i) then
      let '(i, err) := stop i (sw_stopping w) in
      (Some i, Some (sync_error (if err is Some _ then true else false)))
    else (Some i, None).

(** The Cache Start returns, at the moment of a lookup; [index] is
    GetIndexer. *)
Definition cache_of (index : list core_Pod -> PodIndexer) (i : informer) : Cache :=
  mkCache (index (if_pods i)) (negb (if_cancelled i) && if_synced i).

(** *** Specification *)

(** The events carry stores without duplicates: client-go keys Pods by
    namespace and name. *)
Definition store_ok (e : informer_event) : Prop :=
  match e with Listed pods | Changed pods => NoDup pods | _ => True end.

(** ** Lemmas *)

Lemma happens_cancelled i es : if_cancelled i = true -> if_cancelled (happens i es) = true.
Proof.
  unfold happens. revert i. induction es as [|e es IH]; intros i H; [done|]. apply IH.
  destruct e; cbn; [done| | |]; repeat case_match; cbn in *; congruence || eauto.
Qed.

Lemma happens_synced i es : if_synced i = true -> if_synced (happens i es) = true.
Proof.
  unfold happens. revert i. induction es as [|e es IH]; intros i H; [done|]. apply IH.
  destruct e; cbn; [done| | |]; repeat case_match; cbn in *; congruence || eauto.
Qed.

Lemma happens_store i es : NoDup (if_pods i) -> Forall store_ok es -> NoDup (if_pods (happens i es)).
Proof.
  unfold happens. intros H Hes. revert i H. induction Hes as [|e es He _ IH]; intros i H; [done|]. apply IH.
  destruct e; cbn in *; [done| | |]; repeat case_match; cbn in *; congruence || eauto.
Qed.

(** The goroutine ends only once the context is done. *)
Lemma happens_running i es :
  (if_running i = false -> if_cancelled i = true) -> if_running (happens i es) = false -> if_cancelled (happens i es) = true.
Proof.
  unfold happens. revert i. induction es as [|e es IH]; intros i H; [done|]. apply IH.
  destruct e; cbn; [done| | |]; repeat case_match; cbn in *; congruence || eauto.
Qed.

Lemma stop_cancels i es : if_cancelled (stop i es).1 = true.
Proof. unfold stop. cbn. by apply happens_cancelled. Qed.

(** Once its context is done the cache gives nothing. *)
Lemma Enrich_off (index : list core_Pod -> PodIndexer) i o :
  if_cancelled i = true -> Enrich (cache_of index i) o = with_pods None None None o.
Proof.
  intros Hi. assert (Hl : forall name key at_, lookup (cache_of index i) name key at_ = None).
  { intros. unfold lookup. cbn. by rewrite Hi, orb_true_r. }
  unfold Enrich. rewrite !Hl. by destruct (ob_Process o); rewrite ?Hl.
Qed.

(** ** Theorems *)

(** C40. Pods are attributed exactly, for as long as the informer runs, and it
    is never left behind. If Start fails after it started an informer, the
    context is done, and unless the error says that the shutdown timed out the
    goroutine has ended. If Start succeeds the first list has been stored; at
    any later moment an endpoint gets a Pod exactly when the context is not
    done and that Pod is the only one of the store of the moment with the
    address, not on the host's network and not created after the observation,
    an observer exactly when one Pod has its container, and nothing else of
    the observation changes. After stop no observation gets a Pod again, and a
    stop without an error has seen the goroutine end. *)
Theorem pods_attributed {R : MapRange string bool} (index : list core_Pod -> PodIndexer) w later es o :
  (forall pods, indexes pods (index pods)) ->
  Forall store_ok (sw_waiting w) -> Forall store_ok later ->
  match Start w with
  | (None, err) => is_Some err
  | (Some i, Some err) => if_cancelled i = true /\ (err = sync_error false -> if_running i = false)
  | (Some i, None) =>
      let at_ := ob_ObservedAt o in
      let now := happens i later in
      let o' := Enrich (cache_of index now) o in
      if_synced i = true /\
      o' = with_pods (ob_SourcePod o') (ob_DestinationPod o') (ob_ObserverPod o') o /\
      (forall q, ob_SourcePod o' = Some q <-> if_cancelled now = false /\
         pod_of_ip (if_pods now) (ipKey (effective (fk_Source (ob_Flow o)) (ob_SourceResolved o))) at_ q) /\
      (forall q, ob_DestinationPod o' = Some q <-> if_cancelled now = false /\
         pod_of_ip (if_pods now) (ipKey (effective (fk_Destination (ob_Flow o)) (ob_DestinationResolved o))) at_ q) /\
      (forall q, ob_ObserverPod o' = Some q <-> if_cancelled now = false /\
         exists p, ob_Process o = Some p /\ pod_of_container (if_pods now) (containerKey (pr_ContainerID p)) at_ q) /\
      (let '(stopped, err) := stop now es in
       if_cancelled stopped = true /\ (err = None -> if_running stopped = false) /\
       forall after, Enrich (cache_of index (happens stopped after)) o = with_pods None None None o)
  end.
Proof.
  intros Hindex Hw Hlater. unfold Start. destruct (_ || _); [done|]. destruct (sw_client w); cbn [negb]; [|done].
  set (i := happens started (sw_waiting w)). assert (Hnd : NoDup (if_pods i)) by (apply happens_store; [apply NoDup_nil_2|done]).
  destruct (sw_in_time w && if_synced i) eqn:Es; cbn [negb].
  - apply andb_true_iff in Es as [_ Es]. cbn zeta. set (now := happens i later).
    assert (Hnow : NoDup (if_pods now)) by by apply happens_store.
    assert (Hs : if_synced now = true) by by apply happens_synced.
    destruct (Enrich_exact (if_pods now) (cache_of index now) o Hnow (Hindex _)) as (H1 & H2 & H3 & H4).
    assert (Ec : ca_synced (cache_of index now) = true <-> if_cancelled now = false).
    { cbn. rewrite Hs. by destruct (if_cancelled now). }
    split; [done|]. split; [exact H1|]. split; [|split; [|split]].
    + intros q. rewrite <- Ec. apply H2.
    + intros q. rewrite <- Ec. apply H3.
    + intros q. rewrite <- Ec. apply H4.
    + pose proof (stop_cancels now es) as Hc. destruct (stop now es) as [stopped err] eqn:E. cbn in Hc.
      split; [done|]. split; [|intros after; by apply Enrich_off, happens_cancelled].
      unfold stop in E. injection E as <- <-. by destruct (if_running (happens _ _)).
  - pose proof (stop_cancels i (sw_stopping w)) as Hc. destruct (stop i (sw_stopping w)) as [stopped err] eqn:E. cbn in Hc.
    split; [done|]. unfold stop in E. injection E as <- <-. by destruct (if_running (happens _ _)).
Qed.

(** *** Witness: the first list arrives in time, then a Pod ends. *)

Definition example_start : start_world :=
  mkStartWorld true true Second true [Listed example_pods] true [].

Lemma pods_attributed_witness :
  exists i, Start example_start = (Some i, None) /\
    ob_DestinationPod (Enrich (cache_of example_indexer i) example_observed) = Some (mkPod "db" "shop" "db") /\
    pod_of_ip (if_pods i) "10.0.0.3" 7 (mkPod "db" "shop" "db") /\
    Enrich (cache_of example_indexer (stop i [RunReturned]).1) example_observed = with_pods None None None example_observed.
Proof.
  eexists. split; [reflexivity|].
  assert (Hi : forall pods, @indexes (canonical_range _ _) pods (example_indexer pods)).
  { intros pods name key. unfold example_indexer. destruct (Indexers name); [|reflexivity]. eexists. split; reflexivity. }
  assert (Hnd : NoDup example_pods) by (apply (bool_decide_unpack _); vm_compute; reflexivity).
  pose proof (@pods_attributed (canonical_range _ _) example_indexer example_start [] [RunReturned] example_observed Hi
    (Forall_cons_2 store_ok (Listed example_pods) [] Hnd (Forall_nil_2 _)) (Forall_nil_2 _)) as (_ & _ & _ & H & _ & _ & _ & Ho).
  assert (E : ob_DestinationPod (Enrich (cache_of example_indexer (happens started [Listed example_pods])) example_observed) = Some (mkPod "db" "shop" "db"))
    by (vm_compute; reflexivity).
  split; [exact E|]. split; [exact (proj2 (proj1 (H _) E))|exact (Ho [])].
Defined.
