(* ===== verification/HostPort.v ===== *)
(** * Host and port texts

    strings.TrimSpace, net.JoinHostPort and net.SplitHostPort, and
    validServer of whatap/client.go, which checks a collector's address. *)

From S2P Require Import Prelude Text NetIP NetAddr Process.

#[local] Open Scope Z_scope.

(** ** Definitions *)

(** *** strings.TrimSpace *)

(** The length of the white space rune a reversed string starts with: the
    rune the string ends with *)
Definition last_space_length (l : list byte) : nat :=
  match l with
  | c :: b :: a :: _ =>
      if space_1 (byte_val c) then 1
      else if space_2 (byte_val b) (byte_val c) then 2
      else if space_3 (byte_val a) (byte_val b) (byte_val c) then 3 else 0
  | [c; b] => if space_1 (byte_val c) then 1 else if space_2 (byte_val b) (byte_val c) then 2 else 0
  | [c] => if space_1 (byte_val c) then 1 else 0
  | [] => 0
  end.

(** Dropping runes from the head; [skip] bytes of one are still to be dropped *)
Fixpoint trim_runes (rune_length : list byte -> nat) (skip : nat) (l : list byte) : list byte :=
  match l with
  | [] => []
  | b :: l' =>
      match skip with
      | S skip' => trim_runes rune_length skip' l'
      | O => match rune_length (b :: l') with
             | O => b :: l'
             | S skip' => trim_runes rune_length skip' l'
             end
      end
  end.

Definition TrimSpace (l : list byte) : list byte :=
  reverse (trim_runes last_space_length 0 (reverse (trim_runes space_length 0 l))).

(** unicode.IsControl or IsSpace of some rune. The first byte of such a rune
    never occurs inside another rune. *)
Definition control_1 (a : Z) : bool := (a <? 32) || (a =? 127).
Definition control_2 (a b : Z) : bool := (a =? 0xc2) && (0x80 <=? b) && (b <=? 0x9f).

Fixpoint has_space_or_control (l : list byte) : bool :=
  match l with
  | [] => false
  | a :: l' =>
      negb (space_length l =? 0)%nat || control_1 (byte_val a) ||
      match l' with b :: _ => control_2 (byte_val a) (byte_val b) | [] => false end ||
      has_space_or_control l'
  end.

(** *** package net *)

Definition colon : byte := byte_of 58.
Definition left_bracket : byte := byte_of 91.
Definition right_bracket : byte := byte_of 93.

Definition Contains (l : list byte) (b : byte) : bool := bool_decide (b ∈ l).

Definition JoinHostPort (host port : list byte) : list byte :=
  if Contains host colon then left_bracket :: host ++ right_bracket :: colon :: port else host ++ colon :: port.

Definition SplitHostPort (hostport : list byte) : option (list byte * list byte) :=
  match cut_last colon hostport with
  | None => None
  | Some (before, port) =>
      let i := length before in
      if bool_decide (head hostport = Some left_bracket) then
        match cut_byte right_bracket hostport with
        | None => None
        | Some (upto, _) =>
            let end_ := length upto in
            if negb (S end_ =? i)%nat then None
            else
              let host := slice hostport 1 end_ in
              if Contains (drop 1 hostport) left_bracket || Contains (drop (S end_) hostport) right_bracket then None
              else Some (host, port)
        end
      else if Contains before colon then None
      else if Contains hostport left_bracket || Contains hostport right_bracket then None
      else Some (before, port)
  end.

(** *** validServer *)

Definition is_zone_byte (b : byte) : bool :=
  let z := byte_val b in
  ((97 <=? z) && (z <=? 122)) || ((65 <=? z) && (z <=? 90)) || is_decimal_digit b || (z =? 45) || (z =? 95) || (z =? 46).

(** The loop over a label's bytes *)
Definition is_label_byte (b : byte) : bool :=
  let z := byte_val b in
  ((97 <=? z) && (z <=? 122)) || ((65 <=? z) && (z <=? 90)) || is_decimal_digit b || (z =? 45).

Definition label_ok (label : list byte) : bool :=
  negb ((length label =? 0)%nat || (63 <? length label)%nat || bool_decide (head label = Some (byte_of 45)) ||
        bool_decide (last label = Some (byte_of 45))) && forallb is_label_byte label.

Definition TrimSuffix_dot (l : list byte) : list byte :=
  if bool_decide (last l = Some (byte_of 46)) then take (length l - 1) l else l.

Definition broadcast : Addr := mkAddr (replicate 4 (byte_of 255)) [].

(** The decision on an address and on a name *)
Definition valid_address (bracketed : bool) (ip : Addr) : bool :=
  if bracketed && (length (ad_bytes ip) =? 4)%nat then false
  else if negb (forallb is_zone_byte (ad_zone ip)) then false
  else
    let ip := Unmap (mkAddr (ad_bytes ip) []) in
    negb (IsUnspecified ip) && negb (IsMulticast ip) && negb (bool_decide (ip = broadcast)).

Definition valid_name (host : list byte) : bool :=
  let host := TrimSuffix_dot host in
  if (length host =? 0)%nat || (253 <? length host)%nat ||
     forallb (fun b => is_decimal_digit b || bool_decide (b = byte_of 46)) host
  then false
  else forallb label_ok (split_byte (byte_of 46) host).

Definition validServer (server : list byte) : bool :=
  if (length server =? 0)%nat || (320 <? length server)%nat then false
  else if negb (forallb is_graphic server) then false
  else
    match SplitHostPort server with
    | None => false
    | Some (host, port) =>
        if (length host =? 0)%nat || (length port =? 0)%nat || (5 <? length port)%nat then false
        else if negb (forallb is_decimal_digit port) then false
        else
          let n := digits_value 10 port in
          if (n <? 1) || (65535 <? n) then false
          else
            let bracketed := bool_decide (head server = Some left_bracket) in
            match ParseAddr host with
            | Some ip => valid_address bracketed ip
            | None => if bracketed then false else valid_name host
            end
    end.

(** ** Lemmas *)

Example server_name : validServer (lit "collector-1.example.:6600") = true.
Proof. vm_compute. reflexivity. Qed.

Example server_zone : validServer (lit "[fe80::1%eth0]:6600") = true /\ validServer (lit "[fe80::1%e/0]:6600") = false.
Proof. vm_compute. split; reflexivity. Qed.

Example server_rejected :
  Forall (fun s => validServer (lit s) = false)
    ["10.0.0.1"; "10.0.0.1:0"; "10.0.0.1:65536"; "0.0.0.0:6600"; "224.0.0.1:6600"; "255.255.255.255:6600"; "[10.0.0.1]:6600";
     "::1:6600"; "1.2.3:6600"; "a..b:6600"; "-a:6600"; "[::ffff:0.0.0.0]:6600"; "[::]:6600"; "a b:6600"].
Proof. repeat (apply Forall_cons; split; [vm_compute; reflexivity|]). apply Forall_nil. exact I. Qed.

Lemma trim_runes_suffix rune_length skip l : exists pre, l = pre ++ trim_runes rune_length skip l.
Proof.
  revert skip. induction l as [|b l IH]; intros skip; cbn; [by exists []|].
  destruct skip as [|skip].
  - destruct (rune_length (b :: l)) as [|skip]; [by exists []|].
    destruct (IH skip) as [pre E]. exists (b :: pre). cbn. by f_equal.
  - destruct (IH skip) as [pre E]. exists (b :: pre). cbn. by f_equal.
Qed.

Lemma trim_runes_none rune_length l : rune_length l = 0%nat -> trim_runes rune_length 0 l = l.
Proof. destruct l as [|b l]; [done|]. cbn. by intros ->. Qed.

Lemma trim_runes_fixed rune_length l :
  rune_length [] = 0%nat -> trim_runes rune_length 0 l = l -> rune_length l = 0%nat.
Proof.
  intros H0. destruct l as [|b l]; [done|]. cbn. destruct (rune_length (b :: l)) as [|skip]; [done|]. intros E.
  destruct (trim_runes_suffix rune_length skip l) as [pre Ep]. apply (f_equal length) in E, Ep.
  rewrite length_app in Ep. cbn in E. lia.
Qed.

(** A text is trimmed when neither end is white space. *)
Lemma TrimSpace_fixed l : TrimSpace l = l <-> space_length l = 0%nat /\ last_space_length (reverse l) = 0%nat.
Proof.
  unfold TrimSpace. split.
  - intros E. destruct (trim_runes_suffix space_length 0 l) as [pre E1].
    destruct (trim_runes_suffix last_space_length 0 (reverse (trim_runes space_length 0 l))) as [pre' E2].
    pose proof (f_equal length E) as L. pose proof (f_equal length E1) as L1. pose proof (f_equal length E2) as L2.
    rewrite length_reverse in L. rewrite length_app in L1. rewrite length_app, length_reverse in L2.
    destruct pre; [|cbn [length] in L1; lia]. destruct pre'; [|cbn [length] in L2; lia]. cbn [app] in E1, E2.
    rewrite <- E1 in E2. split; by apply trim_runes_fixed.
  - intros [H1 H2]. rewrite (trim_runes_none _ _ H1), (trim_runes_none _ _ H2). apply reverse_involutive.
Qed.

(** What follows a text that does not start with white space does not matter,
    when it starts with an ASCII byte; likewise at the end. *)
Lemma space_length_app l b r :
  l <> [] -> byte_val b < 128 -> space_length l = 0%nat -> space_length (l ++ b :: r) = 0%nat.
Proof.
  intros Hl Hb. pose proof (byte_val_range b).
  assert (H2 : forall a, space_2 (byte_val a) (byte_val b) = false).
  { intros a. unfold space_2. destruct (Z.eqb_spec (byte_val b) 0x85), (Z.eqb_spec (byte_val b) 0xa0); [lia..|apply andb_false_r]. }
  assert (H3 : forall a c, space_3 (byte_val a) (byte_val b) (byte_val c) = false /\ space_3 (byte_val a) (byte_val c) (byte_val b) = false).
  { intros a c. unfold space_3. split; repeat match goal with
      | |- context [Z.eqb (byte_val b) ?n] => destruct (Z.eqb_spec (byte_val b) n); [lia|]
      | |- context [Z.leb 0x80 (byte_val b)] => destruct (Z.leb_spec 0x80 (byte_val b)); [lia|] end;
      cbn [andb orb]; rewrite ?andb_false_r; reflexivity. }
  destruct l as [|x [|y [|z l]]]; cbn [app space_length]; [done| | |done].
  - destruct (space_1 (byte_val x)); [done|]. intros _. rewrite H2.
    destruct r as [|c r]; [done|]. by destruct (H3 x c) as [-> _].
  - destruct (space_1 (byte_val x)); [done|]. destruct (space_2 (byte_val x) (byte_val y)); [done|]. intros _.
    by destruct (H3 x y) as [_ ->].
Qed.

Lemma last_space_length_app l b r :
  l <> [] -> byte_val b < 128 -> last_space_length l = 0%nat -> last_space_length (l ++ b :: r) = 0%nat.
Proof.
  intros Hl Hb.
  assert (H2 : forall a, space_2 (byte_val b) (byte_val a) = false).
  { intros a. unfold space_2. destruct (Z.eqb_spec (byte_val b) 0xc2); [lia|done]. }
  assert (H3 : forall a c, space_3 (byte_val b) (byte_val a) (byte_val c) = false /\ space_3 (byte_val a) (byte_val b) (byte_val c) = false).
  { intros a c. unfold space_3. split; repeat match goal with
      | |- context [Z.eqb (byte_val b) ?n] => destruct (Z.eqb_spec (byte_val b) n); [lia|] end;
      cbn [andb orb]; rewrite ?andb_false_r; reflexivity. }
  destruct l as [|x [|y [|z l]]]; cbn [app last_space_length]; [done| | |done].
  - destruct (space_1 (byte_val x)); [done|]. intros _. rewrite H2.
    destruct r as [|c r]; [done|]. by destruct (H3 c x) as [_ ->].
  - destruct (space_1 (byte_val x)); [done|]. destruct (space_2 (byte_val y) (byte_val x)); [done|]. intros _.
    by destruct (H3 y x) as [-> _].
Qed.

(** A host without brackets and a port without colons are read back. *)
Lemma SplitHostPort_Join host port :
  left_bracket ∉ host -> right_bracket ∉ host -> colon ∉ port -> left_bracket ∉ port -> right_bracket ∉ port ->
  SplitHostPort (JoinHostPort host port) = Some (host, port).
Proof.
  intros H1 H2 P1 P2 P3. unfold JoinHostPort, Contains. case_bool_decide as Hc.
  - unfold SplitHostPort.
    replace (left_bracket :: host ++ right_bracket :: colon :: port)
      with ((left_bracket :: host ++ [right_bracket]) ++ colon :: port) by (cbn; by rewrite <- app_assoc).
    rewrite cut_last_app by done. rewrite (bool_decide_true (head _ = _)) by done.
    replace ((left_bracket :: host ++ [right_bracket]) ++ colon :: port)
      with ((left_bracket :: host) ++ right_bracket :: colon :: port) by (cbn; by rewrite <- app_assoc).
    rewrite cut_byte_app by (rewrite not_elem_of_cons; split; [by apply (bool_decide_unpack _)|done]).
    cbn [length]. rewrite length_app. cbn [length].
    destruct (Nat.eqb_spec (S (S (length host))) (S (length host + 1))); [|lia]. cbn [negb].
    unfold Contains. change (drop 1 ((left_bracket :: host) ++ right_bracket :: colon :: port))
      with (host ++ right_bracket :: colon :: port).
    replace (drop (S (S (length host))) ((left_bracket :: host) ++ right_bracket :: colon :: port)) with (colon :: port).
    + rewrite !bool_decide_false.
      * cbn [orb]. do 2 f_equal. unfold slice. cbn [app drop].
        replace (S (length host) - 1)%nat with (length host) by lia. rewrite drop_0. by rewrite take_app_length.
      * rewrite not_elem_of_cons. split; [by apply (bool_decide_unpack _)|done].
      * rewrite elem_of_app, !elem_of_cons. intros [?|[?|[?|?]]]; done.
    + rewrite drop_app_ge by (cbn; lia). cbn [length].
      by replace (S (S (length host)) - S (length host))%nat with 1%nat by lia.
  - unfold SplitHostPort. rewrite cut_last_app by done.
    rewrite (bool_decide_false (head _ = _)).
    2: { destruct host as [|b host]; [done|]. cbn. intros [= ->]. apply H1. by left. }
    unfold Contains. rewrite !bool_decide_false; [done|..]; rewrite ?elem_of_app, ?elem_of_cons; try done; intros [?|[?|?]]; done.
Qed.
