(* ===== verification/BridgeClient.v ===== *)
(** * internal/bridge: the client

    client.go: NewClient, Send and readAck. The connection is an environment
    that reacts; golib's MapValue, written and read back, is a parameter. The
    deadline and the cancellation of the context close the connection, so the
    reactions of the environment include them. *)

From S2P Require Import Prelude Text Flow Window NetIP NetAddr Process HostPort Bridge.

#[local] Open Scope Z_scope.

(** ** Definitions *)

(** *** NewClient *)

(** netip.ParseAddrPort *)
Definition ParseAddrPort (s : list byte) : option (Addr * Z) :=
  match cut_last colon s with
  | None => None
  | Some (ip, port) =>
      if (length ip =? 0)%nat || (length port =? 0)%nat then None
      else
        let v6 := bool_decide (head ip = Some left_bracket) in
        if v6 && ((length ip <? 2)%nat || negb (bool_decide (last ip = Some right_bracket))) then None
        else
          let ip := if v6 then slice ip 1 (length ip - 1) else ip in
          match ParseUint10 16 port, ParseAddr ip with
          | Some port, Some a => if Bool.eqb v6 (Is4 a) then None else Some (a, port)
          | _, _ => None
          end
  end.

Definition IsLoopback (ip : Addr) : bool :=
  let ip := Unmap ip in
  if Is4 ip then byte_val (ad_bytes ip !!! 0%nat) =? 127
  else bool_decide (ad_bytes ip = be_bytes 16 1).

Record Client := mkClient {
  bc_address : list byte;
  bc_timeout : Duration
}.

Definition NewClient (address : list byte) (timeout : Duration) : option Client :=
  match ParseAddrPort address with
  | None => None
  | Some (a, port) =>
      if negb (IsLoopback a) || negb (length (ad_zone a) =? 0)%nat || (port =? 0) || (timeout <=? 0) then None
      else Some (mkClient address timeout)
  end.

(** *** The reply *)

(** golib's value.MapValue as readAck looks at one; GetValueType of the value
    of a key, nil as [None] *)
Class MapReader (M : Type) := {
  ReadMapValue : list byte -> option M;
  GetValueType : M -> string -> option Z;
  GetString : M -> string -> string;
  GetLong : M -> string -> Z;
  GetBool : M -> string -> bool;
  ContainsKey : M -> string -> bool;
  Size : M -> Z;
  Keys : M -> list string
}.

Inductive ack_value := AText (s : string) | ALong (n : Z) | ABool (b : bool) | AOther (type : Z).

Definition value_type (v : ack_value) : Z :=
  match v with AText _ => 50 | ALong _ => 20 | ABool _ => 10 | AOther type => type end.

(** What is relied on: it is a map, the getters return the values of their
    type, and the enumeration visits every key once. *)
Class MapReaderLaws (M : Type) `{MapReader M} := {
  ack_contents : M -> gmap string ack_value;
  law_GetValueType m k : GetValueType m k = value_type <$> ack_contents m !! k;
  law_types m k n : ack_contents m !! k = Some (AOther n) -> n ≠ 50 /\ n ≠ 20 /\ n ≠ 10;
  law_GetString m k s : ack_contents m !! k = Some (AText s) -> GetString m k = s;
  law_GetLong m k n : ack_contents m !! k = Some (ALong n) -> GetLong m k = n;
  law_GetBool m k b : ack_contents m !! k = Some (ABool b) -> GetBool m k = b;
  law_ContainsKey m k : ContainsKey m k = bool_decide (is_Some (ack_contents m !! k));
  law_Size m : Size m = Z.of_nat (size (ack_contents m));
  law_Keys m : Keys m ≡ₚ (map_to_list (ack_contents m)).*1
}.

Inductive AckError :=
| read_error (n : Z)
| invalid_ack_frame
| invalid_map
| invalid_ack
| invalid_field_type
| unknown_ack_key
| invalid_ack_time
| success_with_code
| invalid_rejection
| ErrRejected (code : string).

Definition magic : list byte := be_bytes 2 0xcafe.

(** The body's length, when the frame header is valid *)
Definition ack_length (h : list byte) : option nat :=
  let n := i32 (be_uint (drop 2 h)) in
  if negb (be_uint (take 2 h) =? 0xcafe) || (n <? 1) || (4096 <? n) then None else Some (Z.to_nat n).

Definition ack_types : list (string * Z) := [("request_id", 50); ("ok", 10); ("stage", 50); ("now", 20)].

Section decode.
Context {M : Type} {MR : MapReader M}.

(** The loops return one error, whatever the order of the iteration. *)
Definition typed (m : M) (f : string * Z) : bool := bool_decide (GetValueType m f.1 = Some f.2).

Definition known_key (k : string) : bool := bool_decide (k ∈ ack_types.*1) || bool_decide (k = "code").

(** readAck from the body on *)
Definition decode_ack (b : list byte) (id : string) : result AckError M :=
  if negb (preflightMap b) then Err invalid_map
  else
    match ReadMapValue b with
    | None => Err invalid_ack
    | Some m =>
        if negb (bool_decide (GetString m "request_id" = id)) || negb (bool_decide (GetString m "stage" = "node_queue"))
        then Err invalid_ack
        else if negb (forallb (typed m) ack_types) then Err invalid_field_type
        else if negb (forallb known_key (Keys m)) then Err unknown_ack_key
        else if (GetLong m "now" <=? 0) || (maxSafe <? GetLong m "now") then Err invalid_ack_time
        else if GetBool m "ok" then
          if ContainsKey m "code" || negb (Size m =? 4) then Err success_with_code else Ok m
        else
          if negb (bool_decide (GetValueType m "code" = Some 50)) || negb (token (bytes_of_string (GetString m "code"))) ||
             negb (Size m =? 5)
          then Err invalid_rejection
          else Err (ErrRejected (GetString m "code"))
    end.
End decode.

(** *** Send *)

Inductive SendError :=
| window_error (e : BridgeError)
| conn_error (n : Z)
| body_out_of_bounds
| preflight_failed
| rejected (code : string)
| ambiguous_write (n : Z)
| ambiguous_short
| ambiguous_ack (e : AckError)
| slice_panic
| fuel_exhausted.

(** errors.Is(err, ErrAmbiguousDelivery) *)
Definition is_ambiguous (e : SendError) : bool :=
  match e with ambiguous_write _ | ambiguous_short | ambiguous_ack _ => true | _ => false end.

(** The network; a connection is a name it gives. *)
Class Net (W : Type) := {
  net_dial : list byte -> W -> W * (Z + Z);
  net_SetDeadline : Z -> W -> W * option Z;
  net_Write : Z -> list byte -> W -> W * Z * option Z;
  net_ReadFull : Z -> nat -> W -> W * (list byte + Z);
  net_Close : Z -> W -> W
}.

(** The contracts of io.Writer and io.ReadFull *)
Class NetLaws (W : Type) `{Net W} : Prop := {
  Write_count c p (w w' : W) n err : net_Write c p w = (w', n, err) -> 0 <= n <= Z.of_nat (length p);
  ReadFull_length c n (w w' : W) b : net_ReadFull c n w = (w', inl b) -> length b = n
}.

(** The world, and what passed over the connection: the calls of Write with
    their counts, the bytes read, and whether it is closed *)
Record State (W : Type) := mkState {
  st_world : W;
  st_writes : list (list byte * Z);
  st_read : list byte;
  st_dialed : bool;
  st_closed : bool
}.

Arguments mkState {W}.
Arguments st_world {W}.
Arguments st_writes {W}.
Arguments st_read {W}.
Arguments st_dialed {W}.
Arguments st_closed {W}.

Section send.
Context {W : Type} {N : Net W} {M : Type} {MR : MapReader M}.
Context (digest : Window -> string).
(** WriteValue(m).ToByteArray() of a map of these puts *)
Context (WriteValue : list (string * field_value) -> list byte).

#[local] Abbreviation state := (State W).

Definition Write (conn : Z) (p : list byte) (st : state) : state * Z * option Z :=
  let '(w, n, err) := net_Write conn p (st_world st) in
  (mkState w (st_writes st ++ [(p, n)]) (st_read st) (st_dialed st) (st_closed st), n, err).

Definition ReadFull (conn : Z) (n : nat) (st : state) : state * (list byte + Z) :=
  let '(w, r) := net_ReadFull conn n (st_world st) in
  (mkState w (st_writes st) (st_read st ++ match r with inl b => b | inr _ => [] end) (st_dialed st) (st_closed st), r).

Definition Close (conn : Z) (st : state) : state :=
  mkState (net_Close conn (st_world st)) (st_writes st) (st_read st) (st_dialed st) true.

(** The write loop; an iteration that continues consumes a byte. *)
Fixpoint write_payload (fuel : nat) (conn : Z) (payload : list byte) (st : state) : state * option SendError :=
  match payload with
  | [] => (st, None)
  | _ =>
      match fuel with
      | O => (st, Some fuel_exhausted)
      | S fuel' =>
          let '(st, n, err) := Write conn payload st in
          match err with
          | Some e => (st, Some (ambiguous_write e))
          | None =>
              if n =? 0 then (st, Some ambiguous_short)
              else if (n <? 0) || (Z.of_nat (length payload) <? n) then (st, Some slice_panic)
              else write_payload fuel' conn (drop (Z.to_nat n) payload) st
          end
      end
  end.

Definition readAck (conn : Z) (id : string) (st : state) : state * result AckError M :=
  match ReadFull conn 6 st with
  | (st, inr e) => (st, Err (read_error e))
  | (st, inl h) =>
      match ack_length h with
      | None => (st, Err invalid_ack_frame)
      | Some n =>
          match ReadFull conn n st with
          | (st, inr e) => (st, Err (read_error e))
          | (st, inl b) => (st, decode_ack b id)
          end
      end
  end.

(** GetString of the request's map: the last put of a key *)
Definition put_string (fields : list (string * field_value)) (key : string) : string :=
  match (list_to_map (reverse fields) : gmap string field_value) !! key with
  | Some (FString s) => s
  | _ => ""
  end.

Definition frame (b : list byte) : list byte := magic ++ be_bytes 4 (u32 (Z.of_nat (length b))) ++ b.

(** Send between the dial and the deferred Close *)
Definition exchange (conn : Z) (fields : list (string * field_value)) (st : state) : state * option SendError :=
  let '(w, err) := net_SetDeadline conn (st_world st) in
  let st := mkState w (st_writes st) (st_read st) (st_dialed st) (st_closed st) in
  match err with
  | Some e => (st, Some (conn_error e))
  | None =>
      let b := WriteValue fields in
      if (length b <? 1)%nat || (Z.to_nat 65536 <? length b)%nat then (st, Some body_out_of_bounds)
      else if negb (preflightMap b) then (st, Some preflight_failed)
      else
        match write_payload (length (frame b)) conn (frame b) st with
        | (st, Some e) => (st, Some e)
        | (st, None) =>
            match readAck conn (put_string fields "request_id") st with
            | (st, Ok _) => (st, None)
            | (st, Err (ErrRejected code)) => (st, Some (rejected code))
            | (st, Err e) => (st, Some (ambiguous_ack e))
            end
        end
  end.

(** Send; [None] is its nil error. *)
Definition Send (c : Client) (w : Window) (world : W) : state * option SendError :=
  match RequestForWindow digest w with
  | Err e => (mkState world [] [] false false, Some (window_error e))
  | Ok fields =>
      let '(world, dialed) := net_dial (bc_address c) world in
      match dialed with
      | inr e => (mkState world [] [] false false, Some (conn_error e))
      | inl conn =>
          let '(st, err) := exchange conn fields (mkState world [] [] true false) in
          (Close conn st, err)
      end
  end.
End send.

(** *** Specification *)

(** The contents of a reply: an acceptance, or a rejection with a code *)
Definition ack_map (id : string) (code : option string) (t : Z) : gmap string ack_value :=
  <["request_id" := AText id]> (<["stage" := AText "node_queue"]> (<["ok" := ABool (bool_decide (code = None))]>
    (<["now" := ALong t]> (match code with Some c => {["code" := AText c]} | None => ∅ end)))).

Definition code_ok (code : option string) : bool :=
  match code with Some c => token (bytes_of_string c) | None => true end.

(** The bytes [b] are the body of such a reply, the bytes [l] its frame. *)
Definition says {M} `{MapReaderLaws M} (b : list byte) (id : string) (code : option string) : Prop :=
  exists m t, preflightMap b = true /\ ReadMapValue b = Some m /\ ack_contents m = ack_map id code t /\
    0 < t <= maxSafe /\ code_ok code = true.

Definition acknowledges {M} `{MapReaderLaws M} (l : list byte) (id : string) (code : option string) : Prop :=
  exists b, l = magic ++ be_bytes 4 (Z.of_nat (length b)) ++ b /\ (1 <= length b <= 4096)%nat /\ says b id code.

(** The bytes that left, of a list of calls of Write *)
Definition sent (writes : list (list byte * Z)) : list byte :=
  flat_map (fun x => take (Z.to_nat x.2) x.1) writes.

(** What an outcome of Send says, for the frame of its window *)
Definition outcome_ok {W M} `{ML : MapReaderLaws M} (frame : list byte) (id : string) (st : State W) (err : option SendError) : Prop :=
  sent (st_writes st) `prefix_of` frame /\
  st_closed st = st_dialed st /\
  match err with
  | None => sent (st_writes st) = frame /\ acknowledges (st_read st) id None
  | Some (rejected code) => sent (st_writes st) = frame /\ acknowledges (st_read st) id (Some code)
  | Some e =>
      (forall code, ~ acknowledges (st_read st) id code) /\
      if is_ambiguous e then st_writes st <> [] else st_writes st = [] /\ e <> slice_panic /\ e <> fuel_exhausted
  end.

Definition window_frame digest WriteValue (w : Window) : list byte :=
  match RequestForWindow digest w with Ok fields => frame (WriteValue fields) | Err _ => [] end.

(** ** Lemmas *)

Example client_loopback : NewClient (lit "127.0.0.1:6610") Second = Some (mkClient (lit "127.0.0.1:6610") Second).
Proof. vm_compute. reflexivity. Qed.

Example client_refused :
  (fun a => NewClient (lit a) Second) <$>
    ["10.0.0.1:6610"; "localhost:6610"; "127.0.0.1:0"; "127.0.0.1"; "[127.0.0.1]:6610"; "::1:6610"; "[::1%lo]:6610"; "127.0.0.1:65536"]
  = replicate 8 None.
Proof. vm_compute. reflexivity. Qed.

Example client_loopback_six : is_Some (NewClient (lit "[::1]:6610") 1) /\ is_Some (NewClient (lit "[::ffff:127.9.9.9]:1") 1).
Proof. vm_compute. eauto. Qed.

(** *** The reply *)

Section replies.
Context {M : Type} {MR : MapReader M} {ML : MapReaderLaws M}.

Lemma typed_text (m : M) k : GetValueType m k = Some 50 -> ack_contents m !! k = Some (AText (GetString m k)).
Proof.
  rewrite law_GetValueType. destruct (ack_contents m !! k) as [[s|n|b|n]|] eqn:E; simpl; intros [=]; subst.
  - by rewrite (law_GetString m k s E).
  - by destruct (law_types m k 50 E).
Qed.

Lemma typed_long (m : M) k : GetValueType m k = Some 20 -> ack_contents m !! k = Some (ALong (GetLong m k)).
Proof.
  rewrite law_GetValueType. destruct (ack_contents m !! k) as [[s|n|b|n]|] eqn:E; simpl; intros [=]; subst.
  - by rewrite (law_GetLong m k n E).
  - by destruct (law_types m k 20 E) as (_ & ? & _).
Qed.

Lemma typed_bool (m : M) k : GetValueType m k = Some 10 -> ack_contents m !! k = Some (ABool (GetBool m k)).
Proof.
  rewrite law_GetValueType. destruct (ack_contents m !! k) as [[s|n|b|n]|] eqn:E; simpl; intros [=]; subst.
  - by rewrite (law_GetBool m k b E).
  - by destruct (law_types m k 10 E) as (_ & _ & ?).
Qed.

Lemma unknown_absent (m : M) k : forallb known_key (Keys m) = true -> known_key k = false -> ack_contents m !! k = None.
Proof.
  intros Hf Hk. destruct (ack_contents m !! k) as [v|] eqn:E; [|done]. exfalso.
  rewrite forallb_forall in Hf. enough (known_key k = true) by congruence. apply Hf.
  apply list_elem_of_In. rewrite law_Keys. apply list_elem_of_fmap.
  exists (k, v). split; [done|]. by apply elem_of_map_to_list.
Qed.

(** The map of a reply is determined by its typed fields. *)
Lemma reply_map (m : M) id code :
  forallb (typed m) ack_types = true -> forallb known_key (Keys m) = true ->
  GetString m "request_id" = id -> GetString m "stage" = "node_queue" ->
  GetBool m "ok" = bool_decide (code = None) ->
  ack_contents m !! "code" = AText <$> code ->
  ack_contents m = ack_map id code (GetLong m "now").
Proof.
  intros Ht Hk Hid Hst Hok Hc. cbn in Ht. unfold typed in Ht. cbn in Ht.
  rewrite !andb_true_iff, !bool_decide_eq_true in Ht. destruct Ht as (H1 & H2 & H3 & H4 & _).
  apply typed_text in H1, H3. apply typed_bool in H2. apply typed_long in H4. subst id. rewrite Hst in H3. rewrite Hok in H2.
  apply map_eq. intros k. unfold ack_map.
  destruct (decide (k = "request_id")) as [->|N1]; [by rewrite lookup_insert_eq|]. rewrite lookup_insert_ne by done.
  destruct (decide (k = "stage")) as [->|N2]; [by rewrite lookup_insert_eq|]. rewrite lookup_insert_ne by done.
  destruct (decide (k = "ok")) as [->|N3]; [by rewrite lookup_insert_eq|]. rewrite lookup_insert_ne by done.
  destruct (decide (k = "now")) as [->|N4]; [by rewrite lookup_insert_eq|]. rewrite lookup_insert_ne by done.
  destruct (decide (k = "code")) as [->|N5].
  { rewrite Hc. by destruct code; [rewrite lookup_singleton_eq|rewrite lookup_empty]. }
  rewrite (unknown_absent m k Hk).
  2: { unfold known_key. rewrite !bool_decide_eq_false_2; [done|done|]. cbn. rewrite !elem_of_cons, elem_of_nil. tauto. }
  by destruct code; [rewrite lookup_singleton_ne|rewrite lookup_empty].
Qed.

Lemma decode_ack_sound b id r code :
  decode_ack b id = r -> (exists m : M, r = Ok m /\ code = None) \/ (exists c, r = Err (ErrRejected c) /\ code = Some c) ->
  says b id code.
Proof.
  intros E Hr. unfold decode_ack in E.
  destruct (preflightMap b) eqn:Ep; [|naive_solver]. cbn [negb] in E.
  destruct (ReadMapValue b) as [m|] eqn:Em; [|naive_solver].
  case_bool_decide as Hid; [|naive_solver]. case_bool_decide as Hst; [|naive_solver]. cbn [negb orb] in E.
  destruct (forallb (typed m) ack_types) eqn:Et; [|naive_solver]. cbn [negb] in E.
  destruct (forallb known_key (Keys m)) eqn:Ek; [|naive_solver]. cbn [negb] in E.
  destruct (_ || _) eqn:En in E; [naive_solver|]. apply orb_false_iff in En as [Hn1 Hn2]. bool_to_Z.
  destruct (GetBool m "ok") eqn:Eo.
  - destruct (_ || _) eqn:Ec in E; [naive_solver|]. apply orb_false_iff in Ec as [Hc _].
    destruct Hr as [(m' & -> & ->)|(c & -> & ->)]; [|done].
    exists m, (GetLong m "now"). split_and!; try done. apply reply_map; [done..|].
    rewrite law_ContainsKey in Hc. apply bool_decide_eq_false in Hc. by apply eq_None_not_Some.
  - destruct (_ || _) eqn:Ec in E; [naive_solver|]. apply orb_false_iff in Ec as [[Hc Ht]%orb_false_iff _].
    apply negb_false_iff in Ht. apply negb_false_iff, bool_decide_eq_true in Hc.
    destruct Hr as [(m' & -> & ->)|(c & -> & ->)]; [done|]. injection E as <-.
    exists m, (GetLong m "now"). split_and!; try done. apply reply_map; [done..|]. by rewrite (typed_text m "code" Hc).
Qed.

Lemma size_ack_map id code t : size (ack_map id code t) = match code with Some _ => 5%nat | None => 4%nat end.
Proof.
  unfold ack_map. rewrite !map_size_insert_None; [by destruct code; [rewrite map_size_singleton|rewrite map_size_empty]|..];
    rewrite ?lookup_insert_ne by done; destruct code; rewrite ?lookup_singleton_ne by done; done.
Qed.

Lemma ack_map_lookups id code t :
  ack_map id code t !! "request_id" = Some (AText id) /\
  ack_map id code t !! "stage" = Some (AText "node_queue") /\
  ack_map id code t !! "ok" = Some (ABool (bool_decide (code = None))) /\
  ack_map id code t !! "now" = Some (ALong t) /\
  ack_map id code t !! "code" = AText <$> code.
Proof.
  unfold ack_map. split_and!; rewrite ?lookup_insert_ne, ?lookup_insert_eq by done; try done.
  by destruct code; [rewrite lookup_singleton_eq|rewrite lookup_empty].
Qed.

Lemma ack_map_keys id code t k v : ack_map id code t !! k = Some v -> known_key k = true.
Proof.
  unfold ack_map, known_key, ack_types. rewrite !lookup_insert_Some. cbn [fmap list_fmap fst].
  intros [[<- _]|[_ [[<- _]|[_ [[<- _]|[_ [[<- _]|[_ Hc]]]]]]]]; [done..|].
  destruct code; [|done]. by apply lookup_singleton_Some in Hc as [<- _].
Qed.

Lemma decode_ack_complete b id code :
  says b id code -> exists m : M, decode_ack b id = match code with None => Ok m | Some c => Err (ErrRejected c) end.
Proof.
  intros (m & t & Hp & Hm & Hc & Ht & Hk). exists m. unfold decode_ack. rewrite Hp, Hm. cbn [negb].
  destruct (ack_map_lookups id code t) as (L1 & L2 & L3 & L4 & L5). rewrite <- Hc in L1, L2, L3, L4, L5.
  rewrite (law_GetString m _ _ L1), (law_GetString m _ _ L2), !bool_decide_true by done. cbn [negb orb].
  replace (forallb (typed m) ack_types) with true.
  2: { cbn [forallb ack_types]. unfold typed. cbn [fst snd]. by rewrite !law_GetValueType, L1, L2, L3, L4. }
  replace (forallb known_key (Keys m)) with true.
  2: { symmetry. apply forallb_forall. intros k Hin. apply list_elem_of_In in Hin. rewrite law_Keys in Hin.
       apply list_elem_of_fmap in Hin as ([k' v] & -> & Hin). apply elem_of_map_to_list in Hin.
       rewrite Hc in Hin. by eapply ack_map_keys. }
  cbn [negb]. rewrite (law_GetLong m _ _ L4), (law_GetBool m _ _ L3), law_Size, Hc, size_ack_map.
  rewrite (proj2 (Z.leb_gt t 0)), (proj2 (Z.ltb_ge maxSafe t)) by lia. cbn [orb].
  rewrite law_ContainsKey, law_GetValueType, L5. destruct code as [c|]; cbn; [|done].
  cbn in L5, Hk. by rewrite (law_GetString m _ _ L5), Hk.
Qed.
End replies.

(** *** The exchange *)

Lemma frame_length b : length (frame b) = (6 + length b)%nat.
Proof. unfold frame, magic. rewrite !length_app, !length_be_bytes. lia. Qed.

Lemma ack_length_frame (b : list byte) :
  (1 <= length b <= 4096)%nat -> ack_length (magic ++ be_bytes 4 (Z.of_nat (length b))) = Some (length b).
Proof.
  intros Hb. unfold ack_length. set (h := magic ++ _).
  assert (Ht : take 2 h = magic) by by apply take_app_length'.
  assert (Hd : drop 2 h = be_bytes 4 (Z.of_nat (length b))) by by apply drop_app_length'.
  rewrite Ht, Hd. unfold magic. rewrite !be_uint_bytes, (Z.mod_small (Z.of_nat (length b))) by lia.
  rewrite (sint_small 32) by lia. change (0xcafe mod 256 ^ Z.of_nat 2 =? 0xcafe) with true.
  rewrite (proj2 (Z.ltb_ge (Z.of_nat (length b)) 1)), (proj2 (Z.ltb_ge 4096 (Z.of_nat (length b)))) by lia.
  cbn [negb orb]. by rewrite Nat2Z.id.
Qed.


Lemma ack_length_inv (h : list byte) n :
  length h = 6%nat -> ack_length h = Some n -> h = magic ++ be_bytes 4 (Z.of_nat n) /\ (1 <= n <= 4096)%nat.
Proof.
  intros Hl. unfold ack_length. destruct (_ || _) eqn:E; [done|]. intros [= <-].
  apply orb_false_iff in E as [[Hm H1]%orb_false_iff H2]. bool_to_Z.
  assert (Hd : length (drop 2 h) = 4%nat) by (rewrite length_drop; lia).
  assert (Hr : 0 <= be_uint (drop 2 h) < 2 ^ 32) by (pose proof (be_uint_range (drop 2 h)) as Hr; rewrite Hd in Hr; exact Hr).
  pose proof (i32_be_bytes (drop 2 h) Hd ltac:(lia)) as [Hi _]. rewrite Z2Nat.id by lia. split; [|lia].
  rewrite <- Hi, <- (take_drop 2 h) at 1. f_equal.
  - unfold magic. rewrite <- Hm. symmetry. replace 2%nat with (length (take 2 h)) at 1 by (rewrite length_take; lia).
    apply be_bytes_uint.
  - rewrite <- Hd. symmetry. apply be_bytes_uint.
Qed.

Section exchanges.
Context {W : Type} {N : Net W} {NL : NetLaws W} {M : Type} {MR : MapReader M} {ML : MapReaderLaws M}.
Context (digest : Window -> string) (WriteValue : list (string * field_value) -> list byte).

Implicit Types (st : State W).

(** What a part of the exchange leaves alone *)
Definition same_connection st st' : Prop := st_dialed st' = st_dialed st /\ st_closed st' = st_closed st.

Lemma write_payload_spec fuel conn payload st st' r :
  (length payload <= fuel)%nat -> write_payload fuel conn payload st = (st', r) ->
  exists ws, st_writes st' = st_writes st ++ ws /\ st_read st' = st_read st /\ same_connection st st' /\
    sent ws `prefix_of` payload /\ (payload <> [] -> ws <> []) /\
    match r with None => sent ws = payload | Some e => is_ambiguous e = true end.
Proof.
  revert payload st. induction fuel as [|fuel IH]; intros payload st Hf E; destruct payload as [|x payload].
  1,3: injection E as <- <-; exists []; rewrite app_nil_r; done.
  { simpl in Hf. lia. }
  cbn [write_payload] in E. set (l := x :: payload) in *. destruct (Write conn l st) as [[st1 n] err] eqn:Ew.
  unfold Write in Ew. destruct (net_Write conn l (st_world st)) as [[w' n'] err'] eqn:En. injection Ew as <- <- <-.
  pose proof (Write_count _ _ _ _ _ _ En) as Hn.
  assert (Hone : sent [(l, n')] = take (Z.to_nat n') l) by (unfold sent; simpl; by rewrite app_nil_r).
  destruct err' as [e|].
  { injection E as <- <-. exists [(l, n')]. rewrite Hone. split_and!; try done. by exists (drop (Z.to_nat n') l); rewrite take_drop. }
  destruct (Z.eqb_spec n' 0) as [->|Hz].
  { injection E as <- <-. exists [(l, 0)]. rewrite Hone. split_and!; try done. apply prefix_nil. }
  rewrite (proj2 (Z.ltb_ge n' 0)), (proj2 (Z.ltb_ge (Z.of_nat (length l)) n')) in E by lia. cbn [orb] in E.
  apply IH in E as (ws & Hw & Hr & Hc & Hp & _ & Hres); [|rewrite length_drop; simpl in *; lia].
  exists ((l, n') :: ws). cbn [st_writes st_read] in *. rewrite Hw, <- app_assoc.
  assert (Hs : sent ((l, n') :: ws) = take (Z.to_nat n') l ++ sent ws) by done. rewrite Hs.
  split_and!; try done.
  - rewrite <- (take_drop (Z.to_nat n') l) at 2. by apply prefix_app.
  - destruct r; [done|]. rewrite Hres. apply take_drop.
Qed.

Lemma readAck_spec conn id st st' (r : result AckError M) :
  st_read st = [] -> readAck conn id st = (st', r) ->
  st_writes st' = st_writes st /\ same_connection st st' /\
  (forall code, acknowledges (st_read st') id code <->
    (exists m, r = Ok m /\ code = None) \/ (exists c, r = Err (ErrRejected c) /\ code = Some c)).
Proof.
  intros H0. unfold readAck, ReadFull. destruct (net_ReadFull conn 6 (st_world st)) as [w1 [h|e]] eqn:Eh.
  2: { intros [= <- <-]. split_and!; [done..|]. intros code. cbn [st_read]. rewrite H0. split; [|naive_solver].
       intros (b & Hb & ? & _). apply (f_equal length) in Hb. rewrite !length_app in Hb. simpl in Hb. lia. }
  apply ReadFull_length in Eh. cbn [st_world st_read st_writes st_dialed st_closed]. rewrite H0. cbn [app].
  destruct (ack_length h) as [n|] eqn:En.
  2: { intros [= <- <-]. split_and!; [done..|]. intros code. cbn [st_read]. split; [|naive_solver].
       intros (b & Hb & ? & _). exfalso.
       assert (h = magic ++ be_bytes 4 (Z.of_nat (length b))) as ->.
       { apply (f_equal (take 6)) in Hb. rewrite take_ge in Hb by lia. rewrite Hb. by rewrite app_assoc, take_app_length'. }
       by rewrite ack_length_frame in En. }
  apply ack_length_inv in En as [Hh Hn]; [|done].
  destruct (net_ReadFull conn n w1) as [w2 [b|e]] eqn:Eb.
  2: { intros [= <- <-]. split_and!; [done..|]. intros code. cbn [st_read]. rewrite app_nil_r, Hh. split; [|naive_solver].
       intros (b & Hb & ? & _). exfalso. apply (f_equal length) in Hb. revert Hb.
       rewrite !length_app, !length_be_bytes. lia. }
  apply ReadFull_length in Eb. subst n. intros [= <- <-]. split_and!; [done..|]. intros code. cbn [st_read]. rewrite Hh, <- app_assoc.
  split.
  - intros (b' & Hb & _ & Hs).
    assert (b' = b) as ->.
    { apply (f_equal (drop 6)) in Hb. rewrite !app_assoc, !drop_app_length' in Hb by done. done. }
    apply decode_ack_complete in Hs as [m ->]. destruct code; naive_solver.
  - intros Hr. exists b. split_and!; [done|lia|lia|]. by eapply decode_ack_sound.
Qed.
End exchanges.

Lemma put_last fields k s : put_string (fields ++ [(k, FString s)]) k = s.
Proof.
  unfold put_string. rewrite reverse_app. cbn [reverse rev_append app list_to_map foldr fst snd].
  by rewrite lookup_insert_eq.
Qed.

Lemma request_id_put digest w fields :
  RequestForWindow digest w = Ok fields -> put_string fields "request_id" = digest (snapshot_window w).
Proof.
  unfold RequestForWindow. generalize (request_fields w). intros l.
  destruct (negb _), (wi_Partial w), (Count (wi_RTT w) =? 0), (validateWindow w); intros [= <-]. apply put_last.
Qed.

Lemma Send_outcome {W M} `{NL : NetLaws W} `{ML : MapReaderLaws M} digest WriteValue c w (world : W) st err :
  Send (M := M) digest WriteValue c w world = (st, err) ->
  outcome_ok (window_frame digest WriteValue w) (digest (snapshot_window w)) st err.
Proof.
  unfold outcome_ok, window_frame.
  assert (Hnil : forall id code, ~ acknowledges [] id code).
  { intros id code (b & Hb & _). apply (f_equal length) in Hb. rewrite !length_app in Hb. simpl in Hb. lia. }
  unfold Send. destruct (RequestForWindow digest w) as [fields|e] eqn:Er.
  2: { intros [= <- <-]. cbn. split_and!; try done. }
  destruct (net_dial _ world) as [w1 [conn|e]].
  2: { intros [= <- <-]. cbn. split_and!; try done. apply prefix_nil. }
  destruct (exchange _ _ _ _) as [st1 err1] eqn:Ee. intros [= <- <-]. cbn [st_writes st_closed st_dialed st_read Close].
  pose proof (request_id_put _ _ _ Er) as Hid. revert Ee. unfold exchange.
  destruct (net_SetDeadline conn _) as [w2 [e|]].
  { intros [= <- <-]. cbn. split_and!; try done. apply prefix_nil. }
  destruct (_ || _). { intros [= <- <-]. cbn. split_and!; try done. apply prefix_nil. }
  destruct (negb _). { intros [= <- <-]. cbn. split_and!; try done. apply prefix_nil. }
  cbn [st_writes st_read st_dialed st_closed].
  destruct (write_payload _ _ _ _) as [st2 r] eqn:Ew.
  apply write_payload_spec in Ew as (ws & Hw & Hr & [Hd _] & Hp & Hne & Hres); [|done].
  assert (Hf : frame (WriteValue fields) <> []) by done. specialize (Hne Hf).
  cbn [st_writes st_read st_dialed st_closed app] in Hw, Hr, Hd. destruct r as [e|].
  { intros [= <- <-]. rewrite Hw, Hr, Hd. split_and!; try done. destruct e; done. }
  destruct (readAck conn _ st2) as [st3 a] eqn:Ea. rewrite Hid in Ea.
  apply readAck_spec in Ea as (Hw' & [Hd' _] & Hack); [|done].
  assert (Hdial : true = st_dialed st3) by congruence.
  assert (Hw3 : st_writes st3 = ws) by (by rewrite Hw').
  assert (Hs : sent (st_writes st3) = frame (WriteValue fields)) by by rewrite Hw3.
  destruct a as [m|e]; [|destruct e]; intros [= <- <-]; rewrite Hs; (split; [done|split; [done|]]);
    first [split; [done|apply Hack; by eauto] | split; [intros code Ha; apply Hack in Ha; naive_solver|cbn; by rewrite Hw3]].
Qed.

(** ** Theorems *)

(** C15. What Send reports is what happened. Whatever the network does, at most
    one copy of the request leaves, in order, the connection is closed, and:
    no error means that the whole frame left and the reply accepts this
    window's request; a rejection means that the whole frame left and the
    reply rejects it with that code; an ambiguous error means that a write was
    tried and that no valid reply to the request came back; every other error
    means that nothing was written, so another attempt duplicates nothing. *)
Theorem send_outcome {W M} `{NL : NetLaws W} `{ML : MapReaderLaws M} digest WriteValue c w (world : W) st err :
  Send (M := M) digest WriteValue c w world = (st, err) ->
  let frame := match RequestForWindow digest w with Ok fields => frame (WriteValue fields) | Err _ => [] end in
  let id := digest (snapshot_window w) in
  sent (st_writes st) `prefix_of` frame /\
  st_closed st = st_dialed st /\
  match err with
  | None => sent (st_writes st) = frame /\ acknowledges (st_read st) id None
  | Some (rejected code) => sent (st_writes st) = frame /\ acknowledges (st_read st) id (Some code)
  | Some e =>
      (forall code, ~ acknowledges (st_read st) id code) /\
      if is_ambiguous e then st_writes st <> [] else st_writes st = [] /\ e <> slice_panic /\ e <> fuel_exhausted
  end.
Proof. apply Send_outcome. Qed.

(** A network that takes four bytes a write and answers with an acceptance *)
Definition example_body : list byte := [byte_of 80; byte_of 0].

Definition example_reply : list byte := magic ++ be_bytes 4 2 ++ example_body.

Definition example_net : Net (list byte) := {|
  net_dial _ w := (w, inl 1);
  net_SetDeadline _ w := (w, None);
  net_Write _ p w := (w, Z.min 4 (Z.of_nat (length p)), None);
  net_ReadFull _ n w := if (length w <? n)%nat then (w, inr 5) else (drop n w, inl (take n w));
  net_Close _ w := []
|}.

Lemma example_net_laws : @NetLaws _ example_net.
Proof.
  split.
  - intros c p w w' n err E. cbn [net_Write example_net] in E. injection E as _ <- _. lia.
  - intros c n w w' b. cbn [net_ReadFull example_net]. destruct (Nat.ltb_spec (length w) n); intros E; [done|]. injection E as _ <-. rewrite length_take. lia.
Qed.

Definition example_map : gmap string ack_value := ack_map "id-1" None 7.

Definition example_reader : MapReader unit := {|
  ReadMapValue b := if bool_decide (b = example_body) then Some tt else None;
  GetValueType _ k := value_type <$> example_map !! k;
  GetString _ k := match example_map !! k with Some (AText s) => s | _ => "" end;
  GetLong _ k := match example_map !! k with Some (ALong n) => n | _ => 0 end;
  GetBool _ k := match example_map !! k with Some (ABool b) => b | _ => false end;
  ContainsKey _ k := bool_decide (is_Some (example_map !! k));
  Size _ := Z.of_nat (size example_map);
  Keys _ := (map_to_list example_map).*1
|}.

Definition example_reader_laws : @MapReaderLaws _ example_reader.
Proof.
  refine {| ack_contents (_ : unit) := example_map |}; cbn; try done.
  - intros _ k n. unfold example_map, ack_map. rewrite !lookup_insert_Some, lookup_empty. naive_solver.
  - by intros _ k s ->.
  - by intros _ k s ->.
  - by intros _ k s ->.
Defined.

Definition example_send : State (list byte) * option SendError :=
  @Send _ example_net _ example_reader (fun _ => "id-1") (fun _ => example_body)
    (mkClient (lit "127.0.0.1:6610") Second) example_window example_reply.

(** The request leaves in two writes and is accepted; a reply cut short is
    ambiguous; nothing is written for a partial window. *)
Example send_accepted : example_send.2 = None /\ (snd <$> st_writes example_send.1) = [4; 4].
Proof. vm_compute. done. Qed.

Lemma send_outcome_witness :
  sent (st_writes example_send.1) = frame example_body /\
  @acknowledges _ example_reader example_reader_laws (st_read example_send.1) "id-1" None.
Proof.
  pose proof (@send_outcome _ _ example_net example_net_laws example_reader example_reader_laws
    (fun _ => "id-1") (fun _ => example_body) (mkClient (lit "127.0.0.1:6610") Second) example_window example_reply
    example_send.1 example_send.2 ltac:(vm_compute; reflexivity)) as (_ & _ & H).
  exact H.
Defined.
