(* ===== verification/TagConfig.v ===== *)
(** * internal/tagcount: the collector's configuration

    config.go: the properties file, the environment and the list of servers.
    What os.Stat, os.Open and the reads of the file return, and the
    environment, are arguments. Values are lists of bytes. *)

From S2P Require Import Prelude Text NetIP NetAddr Process HostPort.

#[local] Open Scope Z_scope.

(** ** Definitions *)

Definition maxConfigFileSize : Z := 65536.

Inductive ConfigError :=
| bad_file
| bad_encoding
| bad_syntax (line : nat)
| duplicate_setting (line : nat)
| conflicting_configuration
| conflicting_environment
| access_key_required
| timeout_required
| object_name_required
| badPort
| badHosts.

(** The file: what Stat says of the path (is it regular, its size), whether it
    opens, what Stat says of the opened file, and its content *)
Record ConfigFile := mkConfigFile {
  cf_stat : option (bool * Z);
  cf_open : bool;
  cf_fstat : option (bool * Z);
  cf_content : option (list byte)
}.

Definition stat_ok (info : option (bool * Z)) : bool :=
  match info with Some (regular, size) => regular && (size <=? maxConfigFileSize) | None => false end.

Definition settings : list string :=
  ["accesskey"; "license"; "whatap.server.host"; "whatap.server.port"; "net_udp_port"; "whatap.name"].

Definition newline : byte := byte_of 10.
Definition equals_sign : byte := byte_of 61.
Definition BOM : list byte := [byte_of 0xef; byte_of 0xbb; byte_of 0xbf].

Definition TrimPrefix (l pre : list byte) : list byte := if has_prefix l pre then drop (length pre) l else l.

(** The loop over the lines; [line] counts from one. *)
Fixpoint parse_lines (line : nat) (properties : gmap string (list byte)) (lines : list (list byte)) :
    result ConfigError (gmap string (list byte)) :=
  match lines with
  | [] => Ok properties
  | text :: lines' =>
      let text := TrimSpace text in
      if (length text =? 0)%nat || has_prefix text [byte_of 35] || has_prefix text [byte_of 33]
      then parse_lines (S line) properties lines'
      else
        match cut_byte equals_sign text with
        | None => Err (bad_syntax line)
        | Some (key, val) =>
            let key := string_of_bytes (TrimSpace key) in
            if bool_decide (key = "") then Err (bad_syntax line)
            else if negb (bool_decide (key ∈ settings)) then parse_lines (S line) properties lines'
            else
              match properties !! key with
              | Some _ => Err (duplicate_setting line)
              | None => parse_lines (S line) (<[key := TrimSpace val]> properties) lines'
              end
        end
  end.

Definition parse_properties (data : list byte) : result ConfigError (gmap string (list byte)) :=
  if negb (utf8_Valid data) || bool_decide (NUL ∈ data) then Err bad_encoding
  else parse_lines 1 ∅ (split_byte newline (TrimPrefix data BOM)).

Definition readConfigProperties (file : ConfigFile) : result ConfigError (gmap string (list byte)) :=
  if negb (stat_ok (cf_stat file)) then Err bad_file
  else if negb (cf_open file) then Err bad_file
  else if negb (stat_ok (cf_fstat file)) then Err bad_file
  else
    match take (Z.to_nat (maxConfigFileSize + 1)) <$> cf_content file with
    | None => Err bad_file
    | Some data => if maxConfigFileSize <? Z.of_nat (length data) then Err bad_file else parse_properties data
    end.

(** *** Servers *)

Definition is_meta (b : byte) : bool := bool_decide (b ∈ lit "[]\,@?#").

(** One host of the list, without the brackets of an IPv6 address *)
Definition config_host (part : list byte) : option (list byte) :=
  let host := TrimSpace part in
  let bracketed := bool_decide (head host = Some left_bracket) && bool_decide (last host = Some right_bracket) in
  let inner := slice host 1 (length host - 1) in
  if bracketed && match ParseAddr inner with Some ip => Is4 ip | None => true end then None
  else
    let host := if bracketed then inner else host in
    if (length host =? 0)%nat || existsb is_meta host then None
    else if has_space_or_control host then None
    else if Contains host colon then match ParseAddr host with Some _ => Some host | None => None end
    else if Contains host (byte_of 37) then None
    else Some host.

Definition configServers (hosts port : list byte) : result ConfigError (list (list byte)) :=
  let port := TrimSpace port in
  if negb (forallb is_decimal_digit port) then Err badPort
  else
    match ParseUint10 16 port with
    | None => Err badPort
    | Some n =>
        if n =? 0 then Err badPort
        else
          let port := lit (decimal n) in
          match mapM config_host (split_byte (byte_of 47) hosts) with
          | None => Err badHosts
          | Some hosts => Ok ((fun host => JoinHostPort host port) <$> hosts)
          end
    end.

(** *** LoadConfig *)

(** whatap.Config *)
Record Config := mkConfig {
  cg_AccessKey : list byte;
  cg_Servers : list (list byte);
  cg_ObjectName : list byte;
  cg_Timeout : Duration
}.

Section load.
(** os.LookupEnv *)
Context (LookupEnv : string -> option (list byte)).

Definition configSetting (properties : gmap string (list byte)) (key env : string) (fallback : list byte) : list byte :=
  match LookupEnv env with
  | Some val => val
  | None => match properties !! key with Some val => val | None => fallback end
  end.

(** Two aliases of a setting with different values *)
Definition conflict (x y : option (list byte)) : bool :=
  match x, y with Some a, Some b => negb (bool_decide (a = b)) | _, _ => false end.

(** [file] is the file of a nonempty path. *)
Definition LoadConfig (file : option ConfigFile) (nodeName : list byte) (timeout : Duration) : result ConfigError Config :=
  match (match file with Some file => readConfigProperties file | None => Ok ∅ end) with
  | Err e => Err e
  | Ok properties =>
      let accessKey := properties !! "accesskey" in
      let license := properties !! "license" in
      if conflict accessKey license then Err conflicting_configuration
      else
        let key := default [] (match accessKey with Some k => Some k | None => license end) in
        let envAccessKey := LookupEnv "WHATAP_ACCESSKEY" in
        let envLicense := LookupEnv "WHATAP_LICENSE" in
        if conflict envAccessKey envLicense then Err conflicting_environment
        else
          let key := match envAccessKey with Some k => k | None => match envLicense with Some k => k | None => key end end in
          if (length (TrimSpace key) =? 0)%nat then Err access_key_required
          else if timeout <=? 0 then Err timeout_required
          else
            let objectName := configSetting properties "whatap.name" "WHATAP_OBJECT_NAME" (lit "kube-network-" ++ nodeName) in
            if (length (TrimSpace objectName) =? 0)%nat then Err object_name_required
            else
              let port := default (lit "6600") (properties !! "net_udp_port") in
              let port := configSetting properties "whatap.server.port" "WHATAP_SERVER_PORT" port in
              let hosts := configSetting properties "whatap.server.host" "WHATAP_SERVER_HOST" [] in
              match configServers hosts port with
              | Err e => Err e
              | Ok servers => Ok (mkConfig key servers objectName timeout)
              end
  end.
End load.

(** *** Specification: what a properties file says *)

Inductive item := Blank | Remark_ (mark : bool) (text : list byte) | Setting (key val : list byte).

Definition render_item (i : item) : list byte :=
  match i with
  | Blank => []
  | Remark_ mark text => byte_of (if mark then 35 else 33) :: text
  | Setting key val => key ++ equals_sign :: val
  end.

(** Each line ends with a newline. *)
Definition render (items : list item) : list byte := flat_map (fun i => render_item i ++ [newline]) items.

Definition item_ok (i : item) : Prop :=
  match i with
  | Blank => True
  | Remark_ _ text => newline ∉ text
  | Setting key val =>
      key <> [] /\ newline ∉ key /\ newline ∉ val /\ equals_sign ∉ key /\ TrimSpace key = key /\ TrimSpace val = val /\
      head key <> Some (byte_of 35) /\ head key <> Some (byte_of 33)
  end.

(** The settings the agent knows, in the order of the file *)
Fixpoint known (items : list item) : list (string * list byte) :=
  match items with
  | [] => []
  | Setting key val :: items' =>
      if bool_decide (string_of_bytes key ∈ settings) then (string_of_bytes key, val) :: known items' else known items'
  | _ :: items' => known items'
  end.

(** ** Lemmas *)

Lemma newline_ok i : item_ok i -> newline ∉ render_item i.
Proof.
  destruct i as [|mark text|key val]; cbn; [intros _; apply not_elem_of_nil| |].
  - intros H. rewrite not_elem_of_cons. split; [by destruct mark|done].
  - intros (_ & H1 & H2 & _). rewrite elem_of_app, elem_of_cons. intros [?|[?|?]]; done.
Qed.

Lemma split_render items : Forall item_ok items -> split_byte newline (render items) = (render_item <$> items) ++ [[]].
Proof.
  induction 1 as [|i items Hi Hs IH]; [done|]. cbn. rewrite <- app_assoc. cbn [app].
  rewrite split_byte_line by by apply newline_ok. by rewrite <- IH.
Qed.

Lemma has_prefix_1 b l : has_prefix l [b] = bool_decide (head l = Some b).
Proof.
  unfold has_prefix. destruct l as [|c l]; cbn.
  - by rewrite !bool_decide_false.
  - rewrite take_0. apply bool_decide_ext. split; congruence.
Qed.

Lemma graphic_not_last_space b l : is_graphic b = true -> last_space_length (b :: l) = 0%nat.
Proof.
  unfold is_graphic. intros Hb. bool_to_Z.
  assert (H1 : space_1 (byte_val b) = false).
  { unfold space_1. destruct (Z.leb_spec 9 (byte_val b)), (Z.leb_spec (byte_val b) 13), (Z.eqb_spec (byte_val b) 32);
      (done || lia). }
  assert (H2 : forall a, space_2 a (byte_val b) = false).
  { intros a. unfold space_2. destruct (Z.eqb_spec (byte_val b) 0x85), (Z.eqb_spec (byte_val b) 0xa0);
      [lia..|apply andb_false_r]. }
  assert (H3 : forall a c, space_3 a c (byte_val b) = false).
  { intros a c. unfold space_3. repeat match goal with
      | |- context [Z.eqb (byte_val b) ?n] => destruct (Z.eqb_spec (byte_val b) n); [lia|]
      | |- context [Z.leb 0x80 (byte_val b)] => destruct (Z.leb_spec 0x80 (byte_val b)); [lia|] end.
    cbn [andb orb]. by rewrite !andb_false_r. }
  destruct l as [|c [|d l]]; cbn [last_space_length]; by rewrite H1, ?H2, ?H3.
Qed.

Lemma TrimSpace_setting key val :
  key <> [] -> TrimSpace key = key -> TrimSpace val = val -> TrimSpace (key ++ equals_sign :: val) = key ++ equals_sign :: val.
Proof.
  intros Hk [K1 _]%TrimSpace_fixed [_ V2]%TrimSpace_fixed. apply TrimSpace_fixed. split.
  - by apply space_length_app.
  - rewrite reverse_app, reverse_cons, <- app_assoc. cbn [app]. destruct (decide (val = [])) as [->|Hv].
    + cbn [reverse app]. rewrite reverse_nil. cbn [app]. by apply graphic_not_last_space.
    + apply last_space_length_app; [|done|done]. intros E. apply Hv. by apply (f_equal reverse) in E; rewrite reverse_involutive in E.
Qed.

(** A comment is passed over, whatever white space ends it. *)
Lemma TrimSpace_remark b text : byte_val b = 35 \/ byte_val b = 33 -> head (TrimSpace (b :: text)) = Some b.
Proof.
  intros Hb. unfold TrimSpace.
  assert (E1 : space_length (b :: text) = 0%nat).
  { assert (Hg : is_graphic b = true) by (unfold is_graphic; destruct Hb as [-> | ->]; done). by apply graphic_not_space. }
  rewrite (trim_runes_none _ _ E1), reverse_cons.
  assert (E2 : forall l, last_space_length [b] = 0%nat /\ exists l', trim_runes last_space_length 0 (l ++ [b]) = l' ++ [b]).
  { intros l. split; [cbn; unfold space_1; destruct Hb as [-> | ->]; done|].
    assert (G : forall n skip l, (length l <= n)%nat -> (skip <= length l)%nat ->
      exists l', trim_runes last_space_length skip (l ++ [b]) = l' ++ [b]).
    { assert (Hb1 : forall c, space_2 (byte_val b) (byte_val c) = false) by (intros c; unfold space_2; destruct Hb as [-> | ->]; done).
      assert (Hb3 : forall c d, space_3 (byte_val b) (byte_val c) (byte_val d) = false)
        by (intros c d; unfold space_3; destruct Hb as [-> | ->]; done).
      assert (Hb0 : space_1 (byte_val b) = false) by (unfold space_1; destruct Hb as [-> | ->]; done).
      clear l. induction n as [|n IH]; intros skip l Hn Hs.
      - destruct l; [|cbn in Hn; lia]. destruct skip; [|cbn in Hs; lia]. exists []. cbn. by rewrite Hb0.
      - destruct l as [|c l]; [destruct skip; [|cbn in Hs; lia]; exists []; cbn; by rewrite Hb0|].
        cbn [length] in Hn, Hs. cbn [app trim_runes]. destruct skip as [|skip]; [|apply IH; lia].
        destruct (last_space_length (c :: l ++ [b])) as [|skip] eqn:E; [by exists (c :: l)|].
        apply IH; [lia|]. destruct l as [|d [|e l]]; cbn in E |- *;
          repeat (case_match; simplify_eq; try lia); rewrite ?Hb1, ?Hb3 in *; (done || lia). }
    apply (G (length l) 0%nat l); lia. }
  destruct (E2 (reverse text)) as [_ [l' ->]]. by rewrite reverse_app.
Qed.

(** The loop reads exactly the settings it knows, and ends with an error when
    one of them is there twice. *)
Lemma parse_render line items properties m :
  Forall item_ok items ->
  parse_lines line properties ((render_item <$> items) ++ [[]]) = Ok m <->
  NoDup (known items).*1 /\ (forall k, k ∈ (known items).*1 -> properties !! k = None) /\
  m = list_to_map (known items) ∪ properties.
Proof.
  intros Hs. revert line properties. induction Hs as [|i items Hi Hs IH]; intros line properties.
  - cbn. split.
    + intros [= <-]. split; [constructor|]. split; [intros k Hk; by apply not_elem_of_nil in Hk|]. by rewrite (left_id_L ∅ (∪)).
    + intros (_ & _ & ->). f_equal. by rewrite (left_id_L ∅ (∪)).
  - destruct i as [|mark text|key val].
    + cbn [fmap list_fmap app render_item parse_lines known]. apply IH.
    + cbn [fmap list_fmap app render_item parse_lines known]. rewrite !has_prefix_1.
      rewrite TrimSpace_remark by (destruct mark; [left|right]; reflexivity).
      destruct mark; rewrite ?(bool_decide_true (Some _ = Some _)) by done; rewrite ?orb_true_r; cbn [orb]; apply IH.
    + destruct Hi as (Hk & _ & _ & Heq & Tk & Tv & N1 & N2).
      cbn [fmap list_fmap app render_item parse_lines known]. rewrite TrimSpace_setting by done.
      destruct (Nat.eqb_spec (length (key ++ equals_sign :: val)) 0) as [E|_]; [rewrite length_app in E; cbn in E; lia|].
      rewrite !has_prefix_1.
      assert (Eh : head (key ++ equals_sign :: val) = head key) by by destruct key.
      rewrite Eh, !bool_decide_false by done. cbn [orb]. rewrite cut_byte_app by done. rewrite Tk, Tv.
      rewrite bool_decide_false.
      2: { intros E. apply Hk. apply (f_equal bytes_of_string) in E. by rewrite bytes_of_string_of_bytes in E. }
      destruct (decide (string_of_bytes key ∈ settings)) as [Hin|Hin].
      * rewrite !bool_decide_true by done. cbn [negb]. set (k := string_of_bytes key) in *.
        destruct (properties !! k) as [v|] eqn:Ep.
        -- split; [done|]. intros (_ & Hn & _). cbn in Hn. rewrite Hn in Ep by (by left). done.
        -- rewrite IH. cbn [fmap list_fmap fst]. rewrite NoDup_cons. split.
           ++ intros (H1 & H2 & ->). split; [split; [|done]|].
              { intros Hk'. specialize (H2 k Hk'). by rewrite lookup_insert_eq in H2. }
              split.
              { intros k' [->|Hk']%elem_of_cons; [done|]. specialize (H2 k' Hk').
                by apply lookup_insert_None in H2 as [? _]. }
              cbn [list_to_map foldr]. rewrite <- insert_union_l, insert_union_r; [done|].
              apply not_elem_of_list_to_map_1. intros Hk'. specialize (H2 k Hk'). by rewrite lookup_insert_eq in H2.
           ++ intros ([H0 H1] & H2 & ->). split; [done|]. split.
              { intros k' Hk'. rewrite lookup_insert_None. split; [apply H2; by right|]. intros ->. done. }
              cbn [list_to_map foldr]. rewrite <- insert_union_l, insert_union_r; [done|].
              by apply not_elem_of_list_to_map_1.
      * rewrite !bool_decide_false by done. cbn [negb]. apply IH.
Qed.

Lemma utf8_BOM l : utf8_Valid (BOM ++ l) = utf8_Valid l.
Proof. reflexivity. Qed.

Lemma config_host_Some part host :
  config_host part = Some host ->
  host <> [] /\ Forall (fun b => is_meta b = false) host /\ has_space_or_control host = false /\
  (colon ∈ host -> is_Some (ParseAddr host)).
Proof.
  unfold config_host. destruct (_ && match ParseAddr _ with Some _ => _ | None => _ end); [done|].
  set (h := if _ && _ then _ else _).
  destruct (Nat.eqb_spec (length h) 0) as [|Hl]; [done|]. destruct (existsb is_meta h) eqn:Em; [done|]. cbn [orb].
  destruct (has_space_or_control h) eqn:Es; [done|].
  assert (Hm : Forall (fun b => is_meta b = false) h).
  { apply Forall_forall. intros b Hb. destruct (is_meta b) eqn:E; [|done]. exfalso.
    assert (X : existsb is_meta h = true) by (apply existsb_exists; exists b; split; [by apply list_elem_of_In|done]).
    congruence. }
  assert (Hne : h <> []) by (intros ->; done).
  unfold Contains. case_bool_decide as Hc.
  - destruct (ParseAddr h) as [ip|] eqn:Ep; [|done]. intros [= <-]. split; [done|]. split; [done|]. split; [done|]. intros _. rewrite Ep. by eexists.
  - case_bool_decide; [done|]. intros [= <-]. split; [done|]. split; [done|]. split; [done|]. done.
Qed.

(** ** Theorems *)

(** A properties file means what it says: for a file of at most 64 KiB
    made of settings, comments and blank lines, with or without a byte order
    mark, the settings the agent knows are read with their values whatever
    else is there; the file is refused exactly when one of them appears
    twice. *)
Theorem properties_roundtrip (items : list item) (bom : bool) size size' m :
  Forall item_ok items ->
  utf8_Valid (render items) = true -> NUL ∉ render items -> (bom = false -> has_prefix (render items) BOM = false) ->
  size <= maxConfigFileSize -> size' <= maxConfigFileSize -> Z.of_nat (length (render items)) + 3 <= maxConfigFileSize ->
  readConfigProperties (mkConfigFile (Some (true, size)) true (Some (true, size'))
                          (Some ((if bom then BOM else []) ++ render items))) = Ok m <->
  NoDup (known items).*1 /\ m = list_to_map (known items).
Proof.
  intros Hi Hu Hn Hb Hs Hs' Hl. unfold readConfigProperties, stat_ok. cbn [cf_stat cf_open cf_fstat cf_content].
  destruct (Z.leb_spec size maxConfigFileSize); [|lia]. destruct (Z.leb_spec size' maxConfigFileSize); [|lia].
  cbn [andb negb]. change (fmap (M:=option) ?f (Some ?x)) with (Some (f x)).
  set (data := (if bom then BOM else []) ++ render items).
  assert (Hd : Z.of_nat (length data) <= maxConfigFileSize).
  { unfold data. rewrite length_app. destruct bom; cbn [length BOM]; lia. }
  assert (Et : take (Z.to_nat (maxConfigFileSize + 1)) data = data) by (apply take_ge; lia). cbn [fmap option_fmap option_map].
  rewrite Et. destruct (Z.ltb_spec maxConfigFileSize (Z.of_nat (length data))); [lia|]. unfold parse_properties.
  assert (E1 : utf8_Valid data = true) by (unfold data; destruct bom; [by rewrite utf8_BOM|done]).
  assert (E2 : NUL ∉ data) by (unfold data; destruct bom; [|done]; cbn; rewrite !not_elem_of_cons; by split_and!).
  assert (E3 : TrimPrefix data BOM = render items).
  { unfold TrimPrefix, data. destruct bom; [|cbn [app]; by rewrite Hb]. unfold has_prefix.
    rewrite take_app_length, bool_decide_true by done. by rewrite drop_app_length. }
  rewrite E1, (bool_decide_false _ E2), E3, split_render by done. cbn [negb orb]. rewrite parse_render by done.
  rewrite (right_id_L ∅ (∪)). split; [tauto|]. intros [K1 K2]. split; [done|]. split; [|done]. intros k _. apply lookup_empty.
Qed.

(** The list of servers the configuration gives is what the client
    connects to: with a decimal port from 1 to 65535, each part of the list is
    a host without white space, control characters or any of []\,@?#, and its
    server splits back to that host and that port; no other list is accepted. *)
Theorem servers_roundtrip hosts port servers :
  configServers hosts port = Ok servers <->
  exists n, ParseUint10 16 (TrimSpace port) = Some n /\ 1 <= n < 65536 /\
    Forall2 (fun part server => exists host,
        config_host part = Some host /\ server = JoinHostPort host (lit (decimal n)) /\
        SplitHostPort server = Some (host, lit (decimal n)) /\ has_space_or_control host = false /\
        Forall (fun b => is_meta b = false) host)
      (split_byte (byte_of 47) hosts) servers.
Proof.
  unfold configServers. unfold ParseUint10 at 1. unfold ParseUint10 at 1.
  destruct (forallb is_decimal_digit (TrimSpace port)) eqn:Ed; cbn [negb].
  2: { rewrite orb_true_r. split; [done|]. by intros (n & ? & _). }
  rewrite orb_false_r. destruct (length (TrimSpace port) =? 0)%nat; [split; [done|]; by intros (n & ? & _)|].
  destruct (Z.ltb_spec (digits_value 10 (TrimSpace port)) (2 ^ 16)) as [Hn|]; [|split; [done|]; by intros (n & ? & _)].
  set (n := digits_value 10 (TrimSpace port)) in *.
  assert (H0 : 0 <= n) by (apply decimal_nonneg; [lia|exact Ed]).
  destruct (Z.eqb_spec n 0) as [Ez|Hz].
  { split; [done|]. intros (n' & [= <-] & ? & _). lia. }
  assert (Hport : Forall (fun b => is_decimal_digit b = true) (lit (decimal n))) by apply decimal_digits.
  assert (Hin : forall b, is_decimal_digit b = false -> b ∉ lit (decimal n)).
  { intros b Hb Hin. rewrite Forall_forall in Hport. apply Hport in Hin. congruence. }
  assert (Hsplit : forall part host, config_host part = Some host ->
    SplitHostPort (JoinHostPort host (lit (decimal n))) = Some (host, lit (decimal n)) /\
    has_space_or_control host = false /\ Forall (fun b => is_meta b = false) host).
  { intros part host Hh. destruct (config_host_Some part host Hh) as (_ & Hm & Hs & _). split; [|done].
    rewrite Forall_forall in Hm.
    apply SplitHostPort_Join; try (by apply Hin); intros Hb; apply Hm in Hb; vm_compute in Hb; discriminate. }
  destruct (mapM config_host (split_byte (byte_of 47) hosts)) as [hs|] eqn:Em.
  - apply mapM_Some in Em. split.
    + intros [= <-]. exists n. split; [done|]. split; [lia|]. apply Forall2_fmap_r.
      eapply Forall2_impl; [exact Em|]. intros part host Hh. exists host. split; [done|]. split; [done|]. apply (Hsplit part host Hh).
    + intros (n' & [= <-] & _ & HF). f_equal. revert servers HF.
      induction Em as [|part host parts hs Hh Em IH]; intros servers HF; inversion HF as [|? server ? servers' Hh' HF']; subst; [done|].
      cbn. destruct Hh' as (host' & Hh' & -> & _). assert (host' = host) as -> by congruence. f_equal. by apply IH.
  - split; [done|]. intros (n' & [= <-] & _ & HF). exfalso.
    assert (is_Some (mapM config_host (split_byte (byte_of 47) hosts))) as [? ?]; [|congruence].
    apply mapM_is_Some. eapply Forall2_Forall_l; [exact HF|]. apply Forall_true. intros server part (host & Hh & _). by exists host.
Qed.

(** Where the access key comes from, and what makes LoadConfig fail *)
Definition first_present (l : list (option (list byte))) : option (list byte) := head (omap id l).

Lemma conflict_iff (x y : option (list byte)) : conflict x y = false <-> (forall a b, x = Some a -> y = Some b -> a = b).
Proof.
  destruct x as [a|], y as [b|]; cbn; try by split. destruct (decide (a = b)) as [->|Hn].
  - rewrite bool_decide_true by done. split; [|done]. congruence.
  - rewrite bool_decide_false by done. split; [done|]. intros H. by destruct Hn, (H a b).
Qed.

Lemma blank_iff (l : list byte) : (length l =? 0)%nat = false <-> l <> [].
Proof. by destruct l. Qed.

Lemma key_present (envA envL fileA fileL : option (list byte)) key :
  TrimSpace key <> [] ->
  first_present [envA; envL; fileA; fileL] = Some key <->
  match envA with
  | Some k => k
  | None => match envL with
            | Some k => k
            | None => default [] (match fileA with Some k => Some k | None => fileL end)
            end
  end = key.
Proof.
  intros Hk. unfold first_present. destruct envA, envL, fileA, fileL; cbn; split; try congruence. intros <-. by destruct Hk.
Qed.

(** LoadConfig accepts exactly the complete and unambiguous
    configurations: the file is readable, neither the file nor the environment
    gives two different access keys, the first key of the environment's
    WHATAP_ACCESSKEY and WHATAP_LICENSE and the file's accesskey and license
    is not blank, the timeout is positive, the object name is not blank and the
    servers are valid; everything else is an error. *)
Theorem config_exact (LookupEnv : string -> option (list byte)) file nodeName timeout c :
  LoadConfig LookupEnv file nodeName timeout = Ok c <->
  exists properties,
    (match file with Some file => readConfigProperties file | None => Ok ∅ end) = Ok properties /\
    (forall a b, properties !! "accesskey" = Some a -> properties !! "license" = Some b -> a = b) /\
    (forall a b, LookupEnv "WHATAP_ACCESSKEY" = Some a -> LookupEnv "WHATAP_LICENSE" = Some b -> a = b) /\
    first_present [LookupEnv "WHATAP_ACCESSKEY"; LookupEnv "WHATAP_LICENSE"; properties !! "accesskey"; properties !! "license"]
      = Some (cg_AccessKey c) /\
    TrimSpace (cg_AccessKey c) <> [] /\
    0 < timeout /\ cg_Timeout c = timeout /\
    cg_ObjectName c = configSetting LookupEnv properties "whatap.name" "WHATAP_OBJECT_NAME" (lit "kube-network-" ++ nodeName) /\
    TrimSpace (cg_ObjectName c) <> [] /\
    configServers (configSetting LookupEnv properties "whatap.server.host" "WHATAP_SERVER_HOST" [])
      (configSetting LookupEnv properties "whatap.server.port" "WHATAP_SERVER_PORT"
         (default (lit "6600") (properties !! "net_udp_port"))) = Ok (cg_Servers c).
Proof.
  unfold LoadConfig. split.
  - destruct (match file with Some _ => _ | None => _ end) as [properties|e]; [|done].
    destruct (conflict (properties !! _) _) eqn:C1; [done|]. destruct (conflict (LookupEnv _) _) eqn:C2; [done|].
    pose proof (key_present (LookupEnv "WHATAP_ACCESSKEY") (LookupEnv "WHATAP_LICENSE") (properties !! "accesskey")
      (properties !! "license")) as K.
    destruct (length (TrimSpace (match LookupEnv _ with Some _ => _ | None => _ end)) =? 0)%nat eqn:E1; [done|].
    apply blank_iff in E1. destruct (Z.leb_spec timeout 0); [done|].
    destruct (length (TrimSpace (configSetting _ _ _ _ _)) =? 0)%nat eqn:E2; [done|]. apply blank_iff in E2.
    destruct (configServers _ _) as [servers|e] eqn:E3; [|done]. intros [= <-]. exists properties.
    pose proof (proj1 (conflict_iff _ _) C1). pose proof (proj1 (conflict_iff _ _) C2). cbn [cg_AccessKey cg_Servers cg_ObjectName cg_Timeout].
    split_and!; try assumption; try reflexivity. by apply K.
  - intros (properties & -> & C1 & C2 & K1 & K2 & Ht & T & O1 & O2 & Es).
    rewrite (proj2 (conflict_iff _ _) C1), (proj2 (conflict_iff _ _) C2). apply key_present in K1 as K3; [|done]. rewrite K3.
    apply blank_iff in K2, O2. rewrite K2, <- O1, O2, Es. destruct (Z.leb_spec timeout 0); [lia|].
    rewrite <- T. by destruct c.
Qed.

Definition example_items : list item :=
  [Remark_ true (lit " collector "); Setting (lit "license") (lit "x1 - y"); Blank; Setting (lit "other") (lit "=");
   Setting (lit "net_udp_port") []].

Lemma properties_roundtrip_witness :
  Forall item_ok example_items /\
  readConfigProperties (mkConfigFile (Some (true, 60)) true (Some (true, 60)) (Some (BOM ++ render example_items))) =
    Ok (list_to_map [("license", lit "x1 - y"); ("net_udp_port", [])]).
Proof.
  assert (Hi : Forall item_ok example_items).
  { repeat (apply Forall_cons; split); try exact I; try (apply Forall_nil; exact I);
      [by apply (bool_decide_unpack _)|..];
      (split_and!; try discriminate; try (by apply (bool_decide_unpack _)); vm_compute; reflexivity). }
  split; [exact Hi|].
  assert (Hn : NUL ∉ render example_items) by by apply (bool_decide_unpack _).
  apply (properties_roundtrip example_items true 60 60 _ Hi ltac:(vm_compute; reflexivity) Hn ltac:(discriminate)
    ltac:(vm_compute; discriminate) ltac:(vm_compute; discriminate) ltac:(vm_compute; discriminate)).
  split; [by apply (bool_decide_unpack _)|reflexivity].
Defined.
