(* ===== verification/Submit.v ===== *)
(** * cmd/network-edge-submit

    main.go: the lines of the standard input, the records that are windows,
    the outcome of the client's Send on each, the summary and the exit code.
    encoding/json is a parameter; the input is the bytes it delivers and the
    error it ends with. *)

From S2P Require Import Prelude Text Flow Window NetAddr HostPort Bridge TagConfig BridgeClient.

#[local] Open Scope Z_scope.

(** ** Definitions *)

(** *** bufio.Scanner with ScanLines and a buffer of at most a mebibyte *)

Definition maxLine : Z := 1024 * 1024.

Definition carriage_return : byte := byte_of 13.

Definition dropCR (l : list byte) : list byte :=
  if bool_decide (last l = Some carriage_return) then take (length l - 1) l else l.

Inductive ScanError := ErrTooLong | read_failed (n : Z).

(** The tokens and the error of the scanner, for the pieces between newlines;
    the last piece is a token when it is not empty, after an error too. *)
Fixpoint scan_pieces (pieces : list (list byte)) (err : option ScanError) : list (list byte) * option ScanError :=
  match pieces with
  | [] => ([], err)
  | p :: pieces' =>
      if (length pieces' =? 0)%nat && (length p =? 0)%nat then ([], err)
      else if maxLine <=? Z.of_nat (length p) then ([], Some ErrTooLong)
      else let '(lines, err) := scan_pieces pieces' err in (dropCR p :: lines, err)
  end.

Definition Scan (data : list byte) (readErr : option Z) : list (list byte) * option ScanError :=
  scan_pieces (split_byte newline data) (read_failed <$> readErr).

(** *** The summary *)

Record Summary := mkSummary {
  sm_Accepted : Z;
  sm_Failed : Z;
  sm_Skipped : Z;
  sm_Partial : Z;
  sm_Unmeasured : Z;
  sm_Incomplete : Z;
  sm_Ignored : Z
}.

Definition count_accepted (s : Summary) : Summary :=
  mkSummary (sm_Accepted s + 1) (sm_Failed s) (sm_Skipped s) (sm_Partial s) (sm_Unmeasured s) (sm_Incomplete s) (sm_Ignored s).

Definition count_failed (s : Summary) : Summary :=
  mkSummary (sm_Accepted s) (sm_Failed s + 1) (sm_Skipped s) (sm_Partial s) (sm_Unmeasured s) (sm_Incomplete s) (sm_Ignored s).

Definition count_ignored (s : Summary) : Summary :=
  mkSummary (sm_Accepted s) (sm_Failed s) (sm_Skipped s) (sm_Partial s) (sm_Unmeasured s) (sm_Incomplete s) (sm_Ignored s + 1).

(** The three cases of a window that is not to be sent *)
Definition count_skipped (e : BridgeError) (s : Summary) : Summary :=
  mkSummary (sm_Accepted s) (sm_Failed s) (sm_Skipped s + 1)
    (sm_Partial s + match e with ErrPartialWindow => 1 | _ => 0 end)
    (sm_Unmeasured s + match e with ErrNoSamples => 1 | _ => 0 end)
    (sm_Incomplete s + match e with ErrIncompleteTuple => 1 | _ => 0 end) (sm_Ignored s).

Definition is_skip (e : BridgeError) : bool :=
  match e with ErrPartialWindow | ErrNoSamples | ErrIncompleteTuple => true | _ => false end.

Inductive SubmitError :=
| bad_utf8
| json_error
| missing_schema
| unsupported_window_schema
| send_failed (e : SendError)
| scan_failed (e : ScanError).

Section run.
Context {W : Type} {N : Net W} {M : Type} {MR : MapReader M}.
Context (digest : Window -> string) (WriteValue : list (string * field_value) -> list byte).
(** json.Unmarshal of a line into the header's schema, and into a window *)
Context (Unmarshal_schema : list byte -> option (list byte)) (Unmarshal_window : list byte -> option Window).

(** What a call of Send did: the window, its connection and its error *)
Record sending := mkSending {
  sd_window : Window;
  sd_state : State W;
  sd_error : option SendError
}.

Record loop_state := mkLoop {
  lo_world : W;
  lo_summary : Summary;
  lo_sends : list sending
}.

Definition fail (e : SubmitError) (st : loop_state) : loop_state * option SubmitError :=
  (mkLoop (lo_world st) (count_failed (lo_summary st)) (lo_sends st), Some e).

Definition tally (f : Summary -> Summary) (st : loop_state) : loop_state * option SubmitError :=
  (mkLoop (lo_world st) (f (lo_summary st)) (lo_sends st), None).

(** One line; [None] continues the loop. *)
Definition submit_line (c : Client) (b : list byte) (st : loop_state) : loop_state * option SubmitError :=
  if negb (utf8_Valid b) then fail bad_utf8 st
  else
    match Unmarshal_schema b with
    | None => fail json_error st
    | Some schema =>
        if (length schema =? 0)%nat then fail missing_schema st
        else if negb (bool_decide (schema = bytes_of_string SchemaVersion)) then
          if has_prefix schema (lit "network.flow/") || has_prefix schema (lit "network.window/")
          then fail unsupported_window_schema st
          else tally count_ignored st
        else
          match Unmarshal_window b with
          | None => fail json_error st
          | Some w =>
              let '(s, err) := Send (M := M) digest WriteValue c w (lo_world st) in
              let st := mkLoop (st_world s) (lo_summary st) (lo_sends st ++ [mkSending w s err]) in
              match err with
              | Some (window_error e) => if is_skip e then tally (count_skipped e) st else fail (send_failed (window_error e)) st
              | Some e => fail (send_failed e) st
              | None => tally count_accepted st
              end
          end
    end.

Fixpoint submit_lines (c : Client) (lines : list (list byte)) (st : loop_state) : loop_state * option SubmitError :=
  match lines with
  | [] => (st, None)
  | b :: lines' =>
      match submit_line c b st with
      | (st, None) => submit_lines c lines' st
      | (st, Some e) => (st, Some e)
      end
  end.

(** The flags after a Parse without error, and how many arguments are left *)
Record Flags := mkFlags {
  fl_address : list byte;
  fl_timeout : Duration;
  fl_NArg : nat
}.

(** run: the exit code, and the final state when a summary is written;
    [encoded] says that writing it succeeds. *)
Definition run (flags : option Flags) (data : list byte) (readErr : option Z) (encoded : bool) (world : W) :
    Z * option loop_state :=
  match flags with
  | None => (2, None)
  | Some flags =>
      if negb (fl_NArg flags =? 0)%nat then (2, None)
      else
        match NewClient (fl_address flags) (fl_timeout flags) with
        | None => (2, None)
        | Some c =>
            let '(lines, scanErr) := Scan data readErr in
            let '(st, err) := submit_lines c lines (mkLoop world (mkSummary 0 0 0 0 0 0 0) []) in
            let '(st, code) :=
              match err, scanErr with
              | Some _, _ => (st, 1)
              | None, Some e => ((fail (scan_failed e) st).1, 1)
              | None, None => (st, 0)
              end in
            (if negb encoded && (code =? 0) then 1 else code, Some st)
        end
  end.
End run.

Arguments mkSending {W}.
Arguments sd_window {W}.
Arguments sd_state {W}.
Arguments sd_error {W}.
Arguments mkLoop {W}.
Arguments lo_world {W}.
Arguments lo_summary {W}.
Arguments lo_sends {W}.

(** *** Specification *)

Definition is_accepted (e : option SendError) : bool := match e with None => true | _ => false end.
Definition is_partial (e : option SendError) : bool := match e with Some (window_error ErrPartialWindow) => true | _ => false end.
Definition is_unmeasured (e : option SendError) : bool := match e with Some (window_error ErrNoSamples) => true | _ => false end.
Definition is_incomplete (e : option SendError) : bool := match e with Some (window_error ErrIncompleteTuple) => true | _ => false end.
Definition is_settled (e : option SendError) : bool := is_accepted e || is_partial e || is_unmeasured e || is_incomplete e.

Fixpoint tally_of (f : option SendError -> bool) (l : list (option SendError)) : Z :=
  match l with
  | [] => 0
  | e :: l' => (if f e then 1 else 0) + tally_of f l'
  end.

Section specification.
Context (Unmarshal_schema : list byte -> option (list byte)) (Unmarshal_window : list byte -> option Window).

(** The window of a line that has one *)
Definition window_line (b : list byte) : option Window :=
  if utf8_Valid b then
    match Unmarshal_schema b with
    | Some schema => if bool_decide (schema = bytes_of_string SchemaVersion) then Unmarshal_window b else None
    | None => None
    end
  else None.

Definition errors_of {W} (sends : list (sending (W := W))) : list (option SendError) := sd_error <$> sends.

(** The books after the lines [lines], [counted] of which were counted and
    [failed] failed *)
Record booked {W M} `{ML : MapReaderLaws M} digest WriteValue (lines : list (list byte)) (counted failed : nat)
    (st : loop_state (W := W)) : Prop := {
  bo_accepted : sm_Accepted (lo_summary st) = tally_of is_accepted (errors_of (lo_sends st));
  bo_partial : sm_Partial (lo_summary st) = tally_of is_partial (errors_of (lo_sends st));
  bo_unmeasured : sm_Unmeasured (lo_summary st) = tally_of is_unmeasured (errors_of (lo_sends st));
  bo_incomplete : sm_Incomplete (lo_summary st) = tally_of is_incomplete (errors_of (lo_sends st));
  bo_skipped : sm_Skipped (lo_summary st) =
    sm_Partial (lo_summary st) + sm_Unmeasured (lo_summary st) + sm_Incomplete (lo_summary st);
  bo_counted : sm_Accepted (lo_summary st) + sm_Skipped (lo_summary st) + sm_Ignored (lo_summary st) = Z.of_nat counted;
  bo_failed : sm_Failed (lo_summary st) = Z.of_nat failed;
  bo_windows : sd_window <$> lo_sends st = omap window_line lines;
  bo_settled : failed = 0%nat -> forallb is_settled (errors_of (lo_sends st)) = true;
  bo_outcomes : Forall (fun x => outcome_ok (window_frame digest WriteValue (sd_window x))
    (digest (snapshot_window (sd_window x))) (sd_state x) (sd_error x)) (lo_sends st)
}.
End specification.

(** ** Lemmas *)

Lemma tally_app f l k : tally_of f (l ++ k) = tally_of f l + tally_of f k.
Proof. induction l as [|e l IH]; cbn; [done|rewrite IH; lia]. Qed.

Example scan_lines :
  Scan (lit "a" ++ [carriage_return; newline] ++ [newline] ++ lit "b") None = ([lit "a"; []; lit "b"], None) /\
  Scan (lit "a" ++ [newline]) (Some 5) = ([lit "a"], Some (read_failed 5)) /\ Scan [] None = ([], None).
Proof. vm_compute. done. Qed.

Section loop.
Context {W : Type} {N : Net W} {NL : NetLaws W} {M : Type} {MR : MapReader M} {ML : MapReaderLaws M}.
Context (digest : Window -> string) (WriteValue : list (string * field_value) -> list byte).
Context (Unmarshal_schema : list byte -> option (list byte)) (Unmarshal_window : list byte -> option Window).

#[local] Abbreviation books := (booked Unmarshal_schema Unmarshal_window digest WriteValue).
#[local] Abbreviation line := (submit_line digest WriteValue Unmarshal_schema Unmarshal_window).
Implicit Types (st : loop_state (W := W)).

(** A line without a window adds to no book but its own. *)
Lemma books_failed ls b n st :
  window_line Unmarshal_schema Unmarshal_window b = None -> books ls n 0 st ->
  books (ls ++ [b]) n 1 (mkLoop (lo_world st) (count_failed (lo_summary st)) (lo_sends st)).
Proof.
  intros Hb [H1 H2 H3 H4 H5 H6 H7 H8 H9 H10]. split; cbn; try done; try lia.
  rewrite omap_app. cbn. by rewrite Hb, app_nil_r.
Qed.

Lemma books_ignored ls b n st :
  window_line Unmarshal_schema Unmarshal_window b = None -> books ls n 0 st ->
  books (ls ++ [b]) (S n) 0 (mkLoop (lo_world st) (count_ignored (lo_summary st)) (lo_sends st)).
Proof.
  intros Hb [H1 H2 H3 H4 H5 H6 H7 H8 H9 H10]. split; cbn; try done; try lia.
  rewrite omap_app. cbn. by rewrite Hb, app_nil_r.
Qed.

(** A sending, with the summary its outcome gives *)
Lemma books_sent ls b n failed st w s err wd sm :
  window_line Unmarshal_schema Unmarshal_window b = Some w -> books ls n 0 st ->
  outcome_ok (window_frame digest WriteValue w) (digest (snapshot_window w)) s err ->
  is_settled err = (failed =? 0)%nat ->
  sm = mkSummary (sm_Accepted (lo_summary st) + tally_of is_accepted [err]) (Z.of_nat failed)
         (sm_Skipped (lo_summary st) + (tally_of is_partial [err] + tally_of is_unmeasured [err] + tally_of is_incomplete [err]))
         (sm_Partial (lo_summary st) + tally_of is_partial [err]) (sm_Unmeasured (lo_summary st) + tally_of is_unmeasured [err])
         (sm_Incomplete (lo_summary st) + tally_of is_incomplete [err]) (sm_Ignored (lo_summary st)) ->
  books (ls ++ [b]) (if is_settled err then S n else n) failed (mkLoop wd sm (lo_sends st ++ [mkSending w s err])).
Proof.
  intros Hb [H1 H2 H3 H4 H5 H6 H7 H8 H9 H10] Ho Hs ->.
  assert (He : forall f, tally_of f (errors_of (lo_sends st ++ [mkSending w s err])) =
    tally_of f (errors_of (lo_sends st)) + tally_of f [err]).
  { intros f. unfold errors_of. rewrite fmap_app. apply tally_app. }
  split; cbn [lo_summary lo_sends sm_Accepted sm_Partial sm_Unmeasured sm_Incomplete sm_Skipped sm_Failed sm_Ignored];
    rewrite ?He; try lia.
  - assert (tally_of is_accepted [err] + tally_of is_partial [err] + tally_of is_unmeasured [err] + tally_of is_incomplete [err] =
      if is_settled err then 1 else 0) by (by destruct err as [[[]|? | | |?|?| |?| |]|]).
    destruct (is_settled err); lia.
  - rewrite fmap_app, omap_app, H8. cbn. by rewrite Hb.
  - intros ->. unfold errors_of in *. rewrite fmap_app, forallb_app, H9 by done. cbn. by rewrite Hs.
  - by apply Forall_app; split; [|constructor].
Qed.

Lemma submit_line_books c b ls st st' r :
  books ls (length ls) 0 st -> line c b st = (st', r) ->
  match r with
  | None => books (ls ++ [b]) (length (ls ++ [b])) 0 st'
  | Some _ => books (ls ++ [b]) (length ls) 1 st'
  end.
Proof.
  intros Hb E. unfold submit_line in E. rewrite length_app, Nat.add_comm. cbn [length Nat.add].
  assert (Hline : window_line Unmarshal_schema Unmarshal_window b =
    if utf8_Valid b then match Unmarshal_schema b with
      | Some schema => if bool_decide (schema = bytes_of_string SchemaVersion) then Unmarshal_window b else None
      | None => None end else None) by done.
  destruct (utf8_Valid b). 2: { injection E as <- <-. by apply books_failed. }
  destruct (Unmarshal_schema b) as [schema|]. 2: { injection E as <- <-. by apply books_failed. }
  destruct (Nat.eqb_spec (length schema) 0) as [Hz|_].
  { injection E as <- <-. apply books_failed; [|done]. rewrite Hline. by destruct schema. }
  cbn [negb] in E. case_bool_decide as Hs; cbn [negb] in E.
  2: { destruct (_ || _); injection E as <- <-; [by apply books_failed|by apply books_ignored]. }
  destruct (Unmarshal_window b) as [w|]. 2: { injection E as <- <-. by apply books_failed. }
  destruct (Send _ _ _ _ _) as [s err] eqn:Es. pose proof (Send_outcome _ _ _ _ _ _ _ Es) as Ho.
  destruct err as [[[]|? | | |?|?| |?| |]|]; injection E as <- <-;
    first [apply (books_sent ls b (length ls) 0 st w s (Some _) _ _ Hline Hb Ho eq_refl)
          |apply (books_sent ls b (length ls) 1 st w s (Some _) _ _ Hline Hb Ho eq_refl)
          |apply (books_sent ls b (length ls) 0 st w s None _ _ Hline Hb Ho eq_refl)];
    destruct Hb as [? ? ? ? ? ? Hf]; unfold count_skipped, count_accepted, count_failed; cbn; rewrite ?Hf, ?Z.add_0_r; done.
Qed.

Lemma submit_lines_books c lines ls st st' r :
  books ls (length ls) 0 st ->
  submit_lines digest WriteValue Unmarshal_schema Unmarshal_window c lines st = (st', r) ->
  match r with
  | None => books (ls ++ lines) (length (ls ++ lines)) 0 st'
  | Some _ => exists k n, (k <= length lines)%nat /\ books (ls ++ take k lines) n 1 st'
  end.
Proof.
  revert ls st. induction lines as [|b lines IH]; intros ls st Hb E; cbn [submit_lines] in E.
  { injection E as <- <-. by rewrite app_nil_r. }
  destruct (line c b st) as [st1 [e|]] eqn:El; apply (submit_line_books _ _ _ _ _ _ Hb) in El.
  - injection E as <- <-. exists 1%nat, (length ls). split; [cbn; lia|exact El].
  - apply (IH _ _ El) in E. rewrite <- !app_assoc in E. destruct r as [e|]; [|exact E].
    destruct E as (k & n & Hk & E). exists (S k), n. rewrite <- app_assoc in E. split; [cbn; lia|exact E].
Qed.

Lemma books_scan_failed ls n st :
  books ls n 0 st -> books ls n 1 (mkLoop (lo_world st) (count_failed (lo_summary st)) (lo_sends st)).
Proof. intros [H1 H2 H3 H4 H5 H6 H7 H8 H9 H10]. split; cbn; try done; lia. Qed.

Lemma books_start (world : W) : books [] 0 0 (mkLoop world (mkSummary 0 0 0 0 0 0 0) []).
Proof. by split. Qed.
End loop.

(** ** Theorems *)

(** C16. network-edge-submit accounts for its input. The windows it sends are
    those of the lines it reads, in order, each once; the summary counts how
    they ended; every window counted as accepted left as one whole request
    whose reply accepts it. At most one failure is counted, it ends the run,
    and the exit code is zero exactly when there is none and the summary is
    written: then every line was read, every line is counted, and every window
    is accepted or is one that is not to be sent. *)
Theorem submit_accounts {W M} `{NL : NetLaws W} `{ML : MapReaderLaws M} digest WriteValue Unmarshal_schema Unmarshal_window
    flags data readErr encoded (world : W) code st :
  run (M := M) digest WriteValue Unmarshal_schema Unmarshal_window flags data readErr encoded world = (code, Some st) ->
  let lines := (Scan data readErr).1 in
  let s := lo_summary st in
  let errors := sd_error <$> lo_sends st in
  exists k,
  sd_window <$> lo_sends st = omap (window_line Unmarshal_schema Unmarshal_window) (take k lines) /\
  sm_Accepted s = tally_of is_accepted errors /\ sm_Partial s = tally_of is_partial errors /\
  sm_Unmeasured s = tally_of is_unmeasured errors /\ sm_Incomplete s = tally_of is_incomplete errors /\
  sm_Skipped s = sm_Partial s + sm_Unmeasured s + sm_Incomplete s /\
  Forall (fun x => sd_error x = None ->
    sent (st_writes (sd_state x)) = window_frame digest WriteValue (sd_window x) /\
    acknowledges (st_read (sd_state x)) (digest (snapshot_window (sd_window x))) None) (lo_sends st) /\
  (sm_Failed s = 0 \/ sm_Failed s = 1) /\
  code = (if (sm_Failed s =? 0) && encoded then 0 else 1) /\
  (sm_Failed s = 0 ->
    take k lines = lines /\ (Scan data readErr).2 = None /\
    sm_Accepted s + sm_Skipped s + sm_Ignored s = Z.of_nat (length lines) /\ forallb is_settled errors = true).
Proof.
  unfold run. destruct flags as [flags|]; [|done]. destruct (negb _); [done|].
  destruct (NewClient _ _) as [c|]; [|done]. destruct (Scan data readErr) as [lines scanErr] eqn:Es. cbn [fst snd].
  destruct (submit_lines _ _ _ _ _ _ _) as [st1 err] eqn:El.
  apply (submit_lines_books digest WriteValue Unmarshal_schema Unmarshal_window c lines []) in El; [|apply books_start].
  cbn [app] in El. intros E.
  assert (exists k n failed, booked Unmarshal_schema Unmarshal_window digest WriteValue (take k lines) n failed st /\
    (failed <= 1)%nat /\ code = (if (failed =? 0)%nat && encoded then 0 else 1) /\
    (failed = 0%nat -> take k lines = lines /\ scanErr = None /\ n = length lines)) as (k & n & failed & Hb & Hf & -> & Hz).
  { destruct err as [e|]; [|destruct scanErr as [e|]]; destruct encoded; injection E as <- <-.
    1,2: destruct El as (k & n & _ & Hb); exists k, n, 1%nat; split_and!; (done || lia).
    1,2: exists (length lines), (length lines), 1%nat; rewrite take_ge by done; split_and!; first [by apply books_scan_failed|done|lia].
    all: exists (length lines), (length lines), 0%nat; rewrite take_ge by done; split_and!; (done || lia). }
  exists k. destruct Hb as [H1 H2 H3 H4 H5 H6 H7 H8 H9 H10]. rewrite H7. split_and!; try done.
  - eapply Forall_impl; [exact H10|]. intros x (_ & _ & Hx) E0. by rewrite E0 in Hx.
  - lia.
  - by destruct failed as [|[|]].
  - intros E0. destruct (Hz ltac:(lia)) as (Hk & He & ->). split_and!; [done..|lia|apply H9; lia].
Qed.

(** A window, a record of another kind and a window of another version *)
Definition example_schema (b : list byte) : option (list byte) :=
  if has_prefix b (lit "w") then Some (bytes_of_string SchemaVersion)
  else if has_prefix b (lit "d") then Some (lit "network.dns/v1") else Some (lit "network.flow/v2").

Definition example_run (data : list byte) (world : list byte) :=
  @run _ example_net _ example_reader (fun _ => "id-1") (fun _ => example_body) example_schema (fun _ => Some example_window)
    (Some (mkFlags (lit "127.0.0.1:6610") Second 0)) data None true world.

Definition shown (r : Z * option (loop_state (W := list byte))) : Z * option (Summary * nat) :=
  (r.1, (fun st => (lo_summary st, length (lo_sends st))) <$> r.2).

Example run_accepts :
  shown (example_run (lit "w1" ++ [newline] ++ lit "d2" ++ [newline]) example_reply) = (0, Some (mkSummary 1 0 0 0 0 0 1, 1%nat)).
Proof. vm_compute. reflexivity. Qed.

Example run_stops :
  shown (example_run (lit "d1" ++ [newline] ++ lit "x" ++ [newline] ++ lit "w2") example_reply) =
  (1, Some (mkSummary 0 1 0 0 0 0 1, 0%nat)).
Proof. vm_compute. reflexivity. Qed.

(** The second window finds the connection without an answer. *)
Definition example_input : list byte := lit "w1" ++ [newline] ++ lit "w2".

Definition example_final : loop_state (W := list byte) :=
  match (example_run example_input example_reply).2 with
  | Some st => st
  | None => mkLoop [] (mkSummary 0 0 0 0 0 0 0) []
  end.

Lemma submit_accounts_witness :
  example_run example_input example_reply = (1, Some example_final) /\
  Forall (fun x => sd_error x = None ->
    @acknowledges _ example_reader example_reader_laws (st_read (sd_state x)) "id-1" None) (lo_sends example_final).
Proof.
  assert (E : example_run example_input example_reply = (1, Some example_final)) by (vm_compute; reflexivity).
  split; [exact E|].
  pose proof (@submit_accounts _ _ example_net example_net_laws example_reader example_reader_laws (fun _ => "id-1")
    (fun _ => example_body) example_schema (fun _ => Some example_window) (Some (mkFlags (lit "127.0.0.1:6610") Second 0))
    example_input None true example_reply 1 example_final E) as (k & _ & _ & _ & _ & _ & _ & H & _).
  eapply Forall_impl; [exact H|]. intros x Hx Hn. apply Hx, Hn.
Defined.
