(* ===== verification/Output.v ===== *)
(** * internal/app: the queued output

    output.go. The event loop calls Encode and Close, a writer goroutine runs
    beside it; a step is what one of them does between two operations on the
    queue, the channels or the counters. The writer of the caller and the clock
    answer the steps that use them; encoding/json is a parameter. *)

From S2P Require Import Prelude.

#[local] Open Scope Z_scope.

(** ** Definitions *)

Definition defaultOutputQueueCapacity : Z := 4096.
Definition defaultOutputDrainTimeout : Duration := 5 * Second.
Definition maxOutputRecordBytes : Z := 65536.

Inductive OutputError :=
| ErrShortWrite
| write_error (code : Z)
| encode_error (code : Z)
| record_too_large
| drain_timeout (queued dropped : Z).

(** A write of the writer goroutine: a record, or a report of loss *)
Inductive written := WroteRecord (record : list byte) | WroteLoss (count total : Z) (record : list byte).

Definition written_bytes (w : written) : list byte :=
  match w with WroteRecord record => record | WroteLoss _ _ record => record end.

(** Where the writer goroutine is; [final] is after the loop over the queue. *)
Inductive writer_state :=
| w_idle (* at the range over the queue *)
| w_write (record : list byte)
| w_loss (final : bool) (* before the load of the counter *)
| w_write_loss (final : bool) (count total : Z) (record : list byte)
| w_fail (err : OutputError) (* before fail *)
| w_signal (* in fail, before the close of failed *)
| w_done.

Inductive close_phase := not_closed | waiting | closed (err : option OutputError).

Record queuedOutput := mkQueuedOutput {
  qo_discard : bool;
  qo_capacity : Z;
  qo_drainTimeout : Duration;
  qo_queue : list (list byte);
  qo_closed : bool;
  qo_err : option OutputError;
  qo_failed : bool;
  qo_reportedLost : Z;
  qo_totalLost : Z;
  qo_writer : writer_state;
  qo_close : close_phase;
  (* The history: the records that got room in the queue, those that did not,
     and every write with its error *)
  qo_accepted : list (list byte);
  qo_lost : list (list byte);
  qo_writes : list (written * option OutputError)
}.

(** [discard] says that the output is io.Discard. *)
Definition newQueuedOutput (discard : bool) (capacity : Z) (drainTimeout : Duration) : option queuedOutput :=
  let capacity := if capacity =? 0 then defaultOutputQueueCapacity else capacity in
  let drainTimeout := if drainTimeout =? 0 then defaultOutputDrainTimeout else drainTimeout in
  if (capacity <? 0) || (drainTimeout <? 0) then None
  else Some (mkQueuedOutput discard capacity drainTimeout [] false None false 0 0 (if discard then w_done else w_idle)
               not_closed [] [] []).

Section output.
Context {V : Type}.
(** encoder.Encode of a value, or an error *)
Context (json : V -> Z + list byte).
(** The record of a loss, at an instant; None when it cannot be encoded *)
Context (loss_json : Time -> Z -> Z -> option (list byte)).
Implicit Types (q : queuedOutput).

Definition set_queue (queue accepted lost : list (list byte)) (totalLost : Z) q : queuedOutput :=
  mkQueuedOutput (qo_discard q) (qo_capacity q) (qo_drainTimeout q) queue (qo_closed q) (qo_err q) (qo_failed q)
    (qo_reportedLost q) totalLost (qo_writer q) (qo_close q) accepted lost (qo_writes q).

Definition set_writer (reportedLost : Z) (w : writer_state) (writes : list (written * option OutputError)) q : queuedOutput :=
  mkQueuedOutput (qo_discard q) (qo_capacity q) (qo_drainTimeout q) (qo_queue q) (qo_closed q) (qo_err q) (qo_failed q)
    reportedLost (qo_totalLost q) w (qo_close q) (qo_accepted q) (qo_lost q) writes.

Definition pop_queue (queue : list (list byte)) q : queuedOutput :=
  set_queue queue (qo_accepted q) (qo_lost q) (qo_totalLost q) q.

Definition set_failure (err : option OutputError) (failed : bool) (w : writer_state) q : queuedOutput :=
  mkQueuedOutput (qo_discard q) (qo_capacity q) (qo_drainTimeout q) (qo_queue q) (qo_closed q) err failed
    (qo_reportedLost q) (qo_totalLost q) w (qo_close q) (qo_accepted q) (qo_lost q) (qo_writes q).

Definition set_phase (closed : bool) (c : close_phase) q : queuedOutput :=
  mkQueuedOutput (qo_discard q) (qo_capacity q) (qo_drainTimeout q) (qo_queue q) closed (qo_err q) (qo_failed q)
    (qo_reportedLost q) (qo_totalLost q) (qo_writer q) c (qo_accepted q) (qo_lost q) (qo_writes q).

(** Encode; [None] when it panics on the closed queue *)
Definition Encode (value : V) q : option (queuedOutput * option OutputError) :=
  if qo_discard q then Some (q, None)
  else if qo_failed q then Some (q, qo_err q)
  else
    match json value with
    | inl code => Some (q, Some (encode_error code))
    | inr record =>
        if maxOutputRecordBytes <? Z.of_nat (length record) then Some (q, Some record_too_large)
        else if qo_closed q then None
        else if Z.of_nat (length (qo_queue q)) <? qo_capacity q
        then Some (set_queue (qo_queue q ++ [record]) (qo_accepted q ++ [record]) (qo_lost q) (qo_totalLost q) q, None)
        else Some (set_queue (qo_queue q) (qo_accepted q) (qo_lost q ++ [record]) (u64 (qo_totalLost q + 1)) q, None)
    end.

(** write: what the output's Write returned for the record *)
Definition write (record : list byte) (n : Z) (err : option Z) : option OutputError :=
  match err with
  | Some code => Some (write_error code)
  | None => if negb (n =? Z.of_nat (length record)) then Some ErrShortWrite else None
  end.

(** After writeLoss: the next iteration, or the return of run *)
Definition after_loss (final : bool) : writer_state := if final then w_done else w_idle.

(** run: one step of the writer goroutine, with the clock's and the output's
    answers. [None] while it waits on an empty queue, and once it has ended. *)
Definition writer_step (now : Time) (n : Z) (err : option Z) q : option queuedOutput :=
  match qo_writer q with
  | w_idle =>
      match qo_queue q with
      | record :: queue => Some (set_writer (qo_reportedLost q) (w_write record) (qo_writes q) (pop_queue queue q))
      | [] => if qo_closed q then Some (set_writer (qo_reportedLost q) (w_loss true) (qo_writes q) q) else None
      end
  | w_write record =>
      let failure := write record n err in
      Some (set_writer (qo_reportedLost q) (match failure with Some e => w_fail e | None => w_loss false end)
              (qo_writes q ++ [(WroteRecord record, failure)]) q)
  | w_loss final =>
      let total := qo_totalLost q in
      let count := u64 (total - qo_reportedLost q) in
      if count =? 0 then Some (set_writer (qo_reportedLost q) (after_loss final) (qo_writes q) q)
      else
        match loss_json now count total with
        | None => Some (set_writer total (w_fail (encode_error 0)) (qo_writes q) q)
        | Some record => Some (set_writer total (w_write_loss final count total record) (qo_writes q) q)
        end
  | w_write_loss final count total record =>
      let failure := write record n err in
      Some (set_writer (qo_reportedLost q) (match failure with Some e => w_fail e | None => after_loss final end)
              (qo_writes q ++ [(WroteLoss count total record, failure)]) q)
  | w_fail e => Some (set_failure (Some e) (qo_failed q) w_signal q)
  | w_signal => Some (set_failure (qo_err q) true w_done q)
  | w_done => None
  end.

Definition is_done q : bool := match qo_writer q with w_done => true | _ => false end.

(** The first call of Close, one step; [timer] is the case the select takes
    when the drain timeout has passed. *)
Definition close_step (timer : bool) q : option queuedOutput :=
  match qo_close q with
  | not_closed => Some (if qo_discard q then set_phase (qo_closed q) (closed None) q else set_phase true waiting q)
  | waiting =>
      if timer then Some (set_phase true (closed (Some (drain_timeout (Z.of_nat (length (qo_queue q))) (qo_totalLost q)))) q)
      else if is_done q then Some (set_phase true (closed (qo_err q)) q)
      else None
  | closed _ => None
  end.

Inductive label := StepEncode (value : V) | StepWriter (now : Time) (n : Z) (err : option Z) | StepClose (timer : bool).

Definition step q (l : label) : option queuedOutput :=
  match l with
  | StepEncode value => fst <$> Encode value q
  | StepWriter now n err => writer_step now n err q
  | StepClose timer => close_step timer q
  end.

Fixpoint steps q (ls : list label) : option queuedOutput :=
  match ls with
  | [] => Some q
  | l :: ls' => q ← step q l; steps q ls'
  end.

(** *** Specification *)

Definition records (writes : list (written * option OutputError)) : list (list byte) :=
  omap (fun w => match w.1 with WroteRecord record => Some record | WroteLoss _ _ _ => None end) writes.

(** The losses reported, added up *)
Definition reported (writes : list (written * option OutputError)) : Z :=
  foldr (fun w n => match w.1 with WroteRecord _ => n | WroteLoss count _ _ => count + n end) 0 writes.

Definition in_hand q : list (list byte) := match qo_writer q with w_write record => [record] | _ => [] end.
Definition pending_loss q : Z := match qo_writer q with w_write_loss _ count _ _ => count | _ => 0 end.

(** The writer has failed, or is about to say so. *)
Definition failing q : Prop := qo_err q <> None \/ exists e, qo_writer q = w_fail e.

(** What each state of the writer has established *)
Definition writer_ok q : Prop :=
  match qo_writer q with
  | w_idle | w_write _ | w_loss false | w_write_loss false _ _ _ => qo_err q = None
  | w_loss true => qo_err q = None /\ qo_closed q = true /\ qo_queue q = []
  | w_write_loss true _ total _ => qo_err q = None /\ qo_closed q = true /\ qo_queue q = [] /\ qo_reportedLost q = qo_totalLost q
  | w_fail _ => qo_err q = None
  | w_signal => qo_err q <> None
  | w_done => qo_err q <> None \/ (qo_closed q = true /\ qo_queue q = [] /\ qo_reportedLost q = qo_totalLost q)
  end.

#[local] Arguments reported : simpl never.
#[local] Arguments records : simpl never.

(** ** Lemmas *)

Definition close_ok q : Prop :=
  match qo_close q with
  | not_closed => True
  | waiting => qo_closed q = true
  | closed err => err = None -> qo_closed q = true /\ qo_writer q = w_done /\ qo_err q = None
  end.

Record inv q : Prop := {
  iv_output : qo_discard q = false;
  iv_order : qo_accepted q = records (qo_writes q) ++ in_hand q ++ qo_queue q;
  iv_capacity : Z.of_nat (length (qo_queue q)) <= qo_capacity q;
  iv_lost : qo_totalLost q = Z.of_nat (length (qo_lost q));
  iv_reported : 0 <= qo_reportedLost q <= qo_totalLost q;
  iv_sum : ~ failing q -> qo_reportedLost q = reported (qo_writes q) + pending_loss q;
  iv_writes : ~ failing q -> Forall (fun w => w.2 = None) (qo_writes q);
  iv_writer : writer_ok q;
  iv_close : close_ok q
}.

Lemma records_app ws w : records (ws ++ w) = records ws ++ records w.
Proof. apply omap_app. Qed.

Lemma reported_app ws w : reported (ws ++ w) = reported ws + reported w.
Proof. unfold reported. induction ws as [|[[]] ws IH]; cbn in *; lia. Qed.

Lemma Encode_inv value q q' err :
  inv q -> Encode value q = Some (q', err) -> Z.of_nat (length (qo_lost q)) + 1 < 2 ^ 64 -> inv q'.
Proof.
  intros [I0 I1 I2 I3 I4 I5 I6 I7 I8] H Hb. unfold Encode in H. rewrite I0 in H.
  destruct (qo_failed q); [by injection H as <- _|]. destruct (json value) as [code|record]; [by injection H as <- _|].
  destruct (_ <? _); [by injection H as <- _|]. destruct (qo_closed q) eqn:Ec; [done|].
  assert (Hw : forall queue accepted lost total, writer_ok (set_queue queue accepted lost total q)).
  { intros. unfold writer_ok in *. cbn. destruct (qo_writer q) as [| |[]|[]| | |]; try exact I7;
      [destruct I7 as (_ & ? & _); congruence|destruct I7 as (_ & ? & _); congruence|].
    destruct I7 as [?|(? & _)]; [by left|congruence]. }
  assert (Hk : forall queue accepted lost total, close_ok (set_queue queue accepted lost total q)) by (intros; exact I8).
  destruct (Z.ltb_spec (Z.of_nat (length (qo_queue q))) (qo_capacity q)); injection H as <- _; split; try apply Hw; try apply Hk;
    try exact I0; try exact I5; try exact I6; cbn.
  - rewrite I1. unfold in_hand. cbn. by rewrite <- !app_assoc.
  - rewrite length_app. cbn. lia.
  - exact I3.
  - exact I4.
  - exact I1.
  - exact I2.
  - rewrite length_app. cbn. rewrite uint_small; lia.
  - rewrite uint_small; lia.
Qed.

Lemma not_failing q : qo_err q = None -> (forall e, qo_writer q <> w_fail e) -> ~ failing q.
Proof. intros H1 H2 [H|[e H]]; [done|by destruct (H2 e)]. Qed.

(** What is claimed only while the writer has not failed *)
Ltac quit := match goal with |- ~ failing _ -> _ => intros Hquit; destruct Hquit; first [by left | right; by eexists] end.

(** A writer that has not ended keeps what the phases of Close say. *)
Lemma running_close q q' : inv q -> qo_writer q <> w_done -> qo_close q' = qo_close q -> qo_closed q' = qo_closed q -> close_ok q'.
Proof.
  intros I Hd Ec Ed. pose proof (iv_close _ I) as K. unfold close_ok in *. rewrite Ec, Ed.
  destruct (qo_close q); try done. intros Hn. by destruct (K Hn) as (_ & ? & _).
Qed.

(** A point of the writer where it has not failed *)
Lemma writing_facts q :
  inv q -> qo_writer q <> w_done -> qo_writer q <> w_signal -> (forall e, qo_writer q <> w_fail e) -> qo_err q = None /\ ~ failing q.
Proof.
  intros I H1 H2 H3. assert (He : qo_err q = None); [|split; [done|by apply not_failing]].
  pose proof (iv_writer _ I) as K. unfold writer_ok in K. destruct (qo_writer q) as [| |[]|[]|e| |]; try done; try by destruct K.
Qed.

(** What is known at such a point [Ew]: the invariant, opened, and that a step
    of the writer keeps what it says of Close *)
Ltac writing I Ew :=
  destruct (writing_facts _ I) as [He Hf]; [congruence..|];
  match type of I with inv ?q =>
    assert (Hclose : forall q', qo_close q' = qo_close q -> qo_closed q' = qo_closed q -> close_ok q')
      by (intros; eapply running_close; [exact I|congruence|done..])
  end;
  destruct I as [I0 I1 I2 I3 I4 I5 I6 I7 I8]; specialize (I5 Hf); specialize (I6 Hf);
  unfold in_hand in I1; unfold pending_loss in I5; unfold writer_ok in I7; rewrite Ew in *.

Lemma writer_idle_inv now n err q q' : inv q -> qo_writer q = w_idle -> writer_step now n err q = Some q' -> inv q'.
Proof.
  intros I Ew H. unfold writer_step in H. rewrite Ew in H. writing I Ew.
  destruct (qo_queue q) as [|record queue] eqn:Eq.
  - destruct (qo_closed q) eqn:Ec; [|done]. injection H as <-. split; cbn; rewrite ?Eq; try done. by apply Hclose.
  - injection H as <-. cbn [length] in I2. split; cbn; try done; [lia|by apply Hclose].
Qed.

Lemma writer_write_inv now n err q record q' :
  inv q -> qo_writer q = w_write record -> writer_step now n err q = Some q' -> inv q'.
Proof.
  intros I Ew H. unfold writer_step in H. rewrite Ew in H. injection H as <-. writing I Ew.
  assert (Ho : qo_accepted q = records (qo_writes q ++ [(WroteRecord record, write record n err)]) ++ [] ++ qo_queue q).
  { rewrite records_app, I1. unfold records at 3. cbn. by rewrite <- !app_assoc. }
  destruct (write record n err) as [e|]; split; try exact Ho; cbn; try done; try (by apply Hclose); try quit.
  - intros _. rewrite I5, reported_app. unfold reported at 3. cbn. lia.
  - intros _. apply Forall_app. split; [done|by constructor].
Qed.

Lemma writer_loss_inv now n err q final q' :
  inv q -> Z.of_nat (length (qo_lost q)) < 2 ^ 64 -> qo_writer q = w_loss final -> writer_step now n err q = Some q' -> inv q'.
Proof.
  intros I Hb Ew H. unfold writer_step in H. rewrite Ew in H. writing I Ew.
  rewrite (uint_small 64 (qo_totalLost q - qo_reportedLost q)) in H by lia.
  destruct (Z.eqb_spec (qo_totalLost q - qo_reportedLost q) 0); [|destruct (loss_json now _ _) as [record|]]; injection H as <-;
    split; cbn; try done; try lia; try (by apply Hclose); try quit.
  - by destruct final.
  - intros _. rewrite I5. by destruct final.
  - destruct final; cbn; [|done]. right. split_and!; [apply I7|apply I7|lia].
  - destruct final; [|done]. by destruct I7 as (? & ? & ?).
Qed.

Lemma writer_write_loss_inv now n err q final count total record q' :
  inv q -> qo_writer q = w_write_loss final count total record -> writer_step now n err q = Some q' -> inv q'.
Proof.
  intros I Ew H. unfold writer_step in H. rewrite Ew in H. injection H as <-. writing I Ew.
  assert (Ho : forall w, qo_accepted q = records (qo_writes q ++ [(WroteLoss count total record, w)]) ++ [] ++ qo_queue q).
  { intros w. rewrite records_app, I1. unfold records at 3. cbn. by rewrite app_nil_r. }
  destruct (write record n err) as [e|]; split; try apply Ho; cbn; try done; try (by apply Hclose); try quit.
  - destruct final; apply Ho.
  - intros _. rewrite reported_app, I5. unfold reported at 3. destruct final; cbn; lia.
  - intros _. apply Forall_app. split; [done|by constructor].
  - destruct final; cbn; [|done]. right. split_and!; apply I7.
Qed.

Lemma output_writer_inv now n err q q' : inv q -> Z.of_nat (length (qo_lost q)) < 2 ^ 64 -> writer_step now n err q = Some q' -> inv q'.
Proof.
  intros I Hb H. destruct (qo_writer q) as [|record|final|final count total record|e| |] eqn:Ew.
  - by eapply writer_idle_inv.
  - by eapply writer_write_inv.
  - by eapply writer_loss_inv.
  - by eapply writer_write_loss_inv.
  - unfold writer_step in H. rewrite Ew in H. injection H as <-.
    pose proof (running_close q (set_failure (Some e) (qo_failed q) w_signal q) I ltac:(congruence) eq_refl eq_refl).
    destruct I. unfold in_hand, pending_loss in *. rewrite Ew in *. split; try done; quit.
  - unfold writer_step in H. rewrite Ew in H. injection H as <-.
    pose proof (running_close q (set_failure (qo_err q) true w_done q) I ltac:(congruence) eq_refl eq_refl).
    destruct I as [??????? K ?]. unfold in_hand, pending_loss, writer_ok in *. rewrite Ew in *. split; try done; try quit. by left.
  - unfold writer_step in H. by rewrite Ew in H.
Qed.

Lemma output_close_inv timer q q' : inv q -> close_step timer q = Some q' -> inv q'.
Proof.
  intros [I0 I1 I2 I3 I4 I5 I6 I7 I8] H. unfold close_step in H. rewrite I0 in H. unfold close_ok in I8.
  assert (Hw : forall c, writer_ok (set_phase true c q)).
  { intros c. unfold writer_ok in *. cbn. destruct (qo_writer q) as [| |[]|[]| | |]; try exact I7;
      [destruct I7 as (? & _ & ?); done|destruct I7 as (? & _ & ? & ?); done|].
    destruct I7 as [?|(_ & ? & ?)]; [by left|by right]. }
  destruct (qo_close q) eqn:Ec; [injection H as <-; split; try done; apply Hw| |done].
  destruct timer; [injection H as <-; split; try done; apply Hw|].
  destruct (is_done q) eqn:Ed; [|done]. injection H as <-. split; try done; try apply Hw. unfold close_ok. cbn. intros Hn.
  unfold is_done in Ed. by destruct (qo_writer q).
Qed.

Lemma step_lost q l q' : step q l = Some q' -> (length (qo_lost q') <= length (qo_lost q) + 1)%nat.
Proof.
  destruct l as [value|now n err|timer]; cbn [step].
  - unfold Encode. intros H. repeat case_match; simplify_eq/=; rewrite ?length_app; cbn; lia.
  - unfold writer_step. intros H. repeat case_match; simplify_eq/=; lia.
  - unfold close_step. intros H. repeat case_match; simplify_eq/=; lia.
Qed.

Lemma output_step_inv q l q' : inv q -> Z.of_nat (length (qo_lost q)) + 1 < 2 ^ 64 -> step q l = Some q' -> inv q'.
Proof.
  intros I Hb. destruct l as [value|now n err|timer]; cbn [step].
  - destruct (Encode value q) as [[q1 err]|] eqn:E; [|done]. intros [= <-]. by eapply Encode_inv.
  - intros H. eapply output_writer_inv; [exact I|lia|exact H].
  - by apply output_close_inv.
Qed.

Lemma output_steps_inv ls q q' :
  inv q -> Z.of_nat (length (qo_lost q) + length ls) < 2 ^ 64 -> steps q ls = Some q' -> inv q'.
Proof.
  revert q. induction ls as [|l ls IH]; intros q I Hb; cbn [steps]; [by intros [= <-]|].
  destruct (step q l) as [q1|] eqn:E; [|done]. cbn. cbn [length] in Hb.
  pose proof (step_lost q l q1 E). apply IH; [|lia]. eapply output_step_inv; [exact I| |exact E]. lia.
Qed.
End output.

Lemma output_new_inv capacity drainTimeout q :
  newQueuedOutput false capacity drainTimeout = Some q -> inv q.
Proof.
  unfold newQueuedOutput. destruct (_ || _) eqn:E; [done|]. intros [= <-]. apply orb_false_iff in E as [E1 E2]. bool_to_Z.
  by split; cbn.
Qed.

(** The output never loses a record silently: when Close returns nil, the
    records Encode took were written, in order and each once, no write failed,
    and the losses reported add up to the records it could not take. *)
Lemma close_accounts (q : queuedOutput) :
  inv q -> qo_close q = closed None ->
  records (qo_writes q) = qo_accepted q /\ Forall (fun w => w.2 = None) (qo_writes q) /\
  reported (qo_writes q) = Z.of_nat (length (qo_lost q)).
Proof.
  intros I Hc. pose proof (iv_close _ I) as K. unfold close_ok in K. rewrite Hc in K. destruct (K eq_refl) as (_ & Kd & Ke).
  pose proof (iv_writer _ I) as W. unfold writer_ok in W. rewrite Kd in W. destruct W as [W|(_ & Wq & Wl)]; [done|].
  assert (Hf : ~ failing q) by (apply not_failing; [done|by rewrite Kd]).
  pose proof (iv_order _ I) as O. pose proof (iv_sum _ I Hf) as S. unfold in_hand in O. unfold pending_loss in S. rewrite Kd in O, S.
  rewrite Wq, !app_nil_r in O. split; [done|]. split; [apply (iv_writes _ I Hf)|].
  rewrite <- (iv_lost _ I), <- Wl, S. lia.
Qed.
