(* ===== verification/App.v ===== *)
(** * internal/app: the event loop and its output

    events.go (RunEventsWithOptions), event_stream.go (the pump, the capture
    progress and pending resolutions) and pipeline.go (eventOutput). The
    goroutines meet in a select: a step of the model is what the pump does
    with one read or what the loop does with the case it chose. The clock,
    the resolvers, the Pod enricher, the bounded output queue and the
    exporter are a world that answers calls. *)

From S2P Require Import Prelude Flow Window Stream Dns L7Types Http2 L7 Collector.

#[local] Open Scope Z_scope.

(** ** Definitions *)

Definition resolutionGrace : Duration := 250 * Millisecond.
Definition maxPendingResolutions : nat := 1024.
Definition pump_capacity : nat := 64.

(** An error is a list of causes: nil is the empty list and errors.Join is
    concatenation. *)
Inductive AppError :=
| read_error
| convert_error (e : CollectorError)
| flow_error (e : FlowError)
| output_error (code : Z)
| export_error (code : Z)
| output_failed
| export_failed
| dns_panic.

Abbreviation errors := (list AppError).

Definition nil_error (e : errors) : bool := match e with [] => true | _ => false end.

(** resolutionEvidence *)
Record resolutionEvidence := mkEvidence {
  rv_Status : string;
  rv_Reason : string;
  rv_Attempts : Z
}.

(** What is written to the output queue *)
Inductive record :=
| RecObservation (o : Observation)
| RecResolved (o : Observation) (evidence : resolutionEvidence)
| RecWindow (w : Window)
| RecL7 (t : L7Types.Transaction)
| RecDrop (d : L7Types.Drop)
| RecDNS (t : Dns.Transaction)
| RecAggregationDrop (observedAt observationTime : Time) (key : FlowKey) (reason : string)
| RecExportDrop (observedAt : Time) (nodeName : string) (dropped total : Z).

(** The outside of the loop. An answer with a code is an error. *)
Class World (W : Type) := {
  world_now : W -> W * Time;
  world_elapsed : W -> W * Time;
  world_Resolve : string -> Endpoint -> Endpoint -> W -> W * option (Endpoint * string);
  world_ResolveAfter : string -> Endpoint -> Endpoint -> Time -> W -> W * option (Endpoint * string);
  world_Lookup : Z -> W -> W * option Process;
  world_Enrich : Observation -> W -> W * Observation;
  world_Encode : record -> W -> W * option Z;
  world_Export : Window -> W -> W * option Z;
  world_ExportTyped : record -> W -> W * option Z;
  world_Dropped : W -> W * Z
}.

(** What is relied on: the wall clock does not go back, and enriching an
    observation does not change when it was made. *)
Class WorldLaws (W : Type) `{World W} := {
  clock : W -> Time;
  clock_now w : clock w <= (world_now w).2 /\ (world_now w).2 <= clock (world_now w).1;
  clock_elapsed w : clock w <= clock (world_elapsed w).1;
  clock_Resolve p s d w : clock w <= clock (world_Resolve p s d w).1;
  clock_ResolveAfter p s d t w : clock w <= clock (world_ResolveAfter p s d t w).1;
  clock_Lookup pid w : clock w <= clock (world_Lookup pid w).1;
  clock_Enrich o w : clock w <= clock (world_Enrich o w).1;
  clock_Encode r w : clock w <= clock (world_Encode r w).1;
  clock_Export win w : clock w <= clock (world_Export win w).1;
  clock_ExportTyped r w : clock w <= clock (world_ExportTyped r w).1;
  clock_Dropped w : clock w <= clock (world_Dropped w).1;
  Enrich_time o w : ob_ObservedAt (world_Enrich o w).2 = ob_ObservedAt o
}.

(** The options, and which of the optional collaborators are not nil *)
Record options := mkOptions {
  op_node : string;
  op_mode : string;
  op_maxEvents : Z;
  op_resolver : bool;
  op_fresh : bool; (* the resolver has ResolveAfter *)
  op_processes : bool;
  op_pods : bool;
  op_exporter : bool;
  op_typed : bool (* the exporter takes typed events *)
}.

Record timedEvent := mkTimed {
  te_event : option Event; (* None with an error *)
  te_eof : bool;
  te_observedAt : Time
}.

Record captureProgress := mkProgress {
  cp_cutoff : Time;
  cp_ended : bool;
  cp_outstanding : list Time
}.

Record pendingResolution := mkPendingResolution {
  pn_observation : Observation;
  pn_deadline : Time;
  pn_attempts : Z
}.

(** eventOutput, without the queue it writes to *)
Record eventOutput := mkOutput {
  eo_stream : option Stream;
  eo_exportLost : Z;
  eo_exportFailure : errors
}.

Record app (W D : Type) := mkApp {
  ap_world : W;
  ap_log : list record; (* every record given to the output queue *)
  ap_output : eventOutput;
  ap_progress : captureProgress;
  ap_inflight : list timedEvent;
  ap_pumping : bool;
  ap_count : Z;
  ap_open : bool; (* stream != nil *)
  ap_cancelled : bool;
  ap_pending : list pendingResolution;
  ap_readErr : errors;
  ap_l7 : L7.Correlator D;
  ap_dns : Dns.Correlator
}.

Arguments mkApp {W D}.
Arguments ap_world {W D}.
Arguments ap_log {W D}.
Arguments ap_output {W D}.
Arguments ap_progress {W D}.
Arguments ap_inflight {W D}.
Arguments ap_pumping {W D}.
Arguments ap_count {W D}.
Arguments ap_open {W D}.
Arguments ap_cancelled {W D}.
Arguments ap_pending {W D}.
Arguments ap_readErr {W D}.
Arguments ap_l7 {W D}.
Arguments ap_dns {W D}.

Section app.
Context {W : Type} {WW : World W}.
Context {D : Type} {HD : Hpack D}.
Context {R1 : MapRange connectionKey pendingRequest} {R2 : MapRange http2StreamKey pendingRequest}.
Context {RW : MapRange aggregateKey Window}.
Context (opts : options).

#[local] Abbreviation state := (app W D).

(** *** A state monad *)
Definition M (A : Type) : Type := state -> state * A.

Definition ret {A} (a : A) : M A := fun st => (st, a).
Definition bind {A B} (m : M A) (f : A -> M B) : M B :=
  fun st => let '(st, a) := m st in f a st.

#[local] Notation "x <- m ; k" := (bind m (fun x => k)) (at level 100, m at next level, right associativity).
#[local] Notation "m ;; k" := (bind m (fun _ => k)) (at level 100, right associativity).

(** [if err := m; err != nil { return err }; k] *)
Definition try_ (m : M errors) (k : M errors) : M errors :=
  e <- m; if nil_error e then k else ret e.

Definition react {A} (f : W -> W * A) : M A :=
  fun st => let '(w, a) := f (ap_world st) in
    (mkApp w (ap_log st) (ap_output st) (ap_progress st) (ap_inflight st) (ap_pumping st) (ap_count st)
       (ap_open st) (ap_cancelled st) (ap_pending st) (ap_readErr st) (ap_l7 st) (ap_dns st), a).

Definition get {A} (f : state -> A) : M A := fun st => (st, f st).

Definition set_output (o : eventOutput) : M unit :=
  fun st => (mkApp (ap_world st) (ap_log st) o (ap_progress st) (ap_inflight st) (ap_pumping st) (ap_count st)
    (ap_open st) (ap_cancelled st) (ap_pending st) (ap_readErr st) (ap_l7 st) (ap_dns st), tt).

Definition set_progress (p : captureProgress) : M unit :=
  fun st => (mkApp (ap_world st) (ap_log st) (ap_output st) p (ap_inflight st) (ap_pumping st) (ap_count st)
    (ap_open st) (ap_cancelled st) (ap_pending st) (ap_readErr st) (ap_l7 st) (ap_dns st), tt).

Definition set_inflight (l : list timedEvent) : M unit :=
  fun st => (mkApp (ap_world st) (ap_log st) (ap_output st) (ap_progress st) l (ap_pumping st) (ap_count st)
    (ap_open st) (ap_cancelled st) (ap_pending st) (ap_readErr st) (ap_l7 st) (ap_dns st), tt).

Definition set_pumping (b : bool) (count : Z) : M unit :=
  fun st => (mkApp (ap_world st) (ap_log st) (ap_output st) (ap_progress st) (ap_inflight st) b count
    (ap_open st) (ap_cancelled st) (ap_pending st) (ap_readErr st) (ap_l7 st) (ap_dns st), tt).

Definition set_loop (opened cancelled : bool) (readErr : errors) : M unit :=
  fun st => (mkApp (ap_world st) (ap_log st) (ap_output st) (ap_progress st) (ap_inflight st) (ap_pumping st)
    (ap_count st) opened cancelled (ap_pending st) readErr (ap_l7 st) (ap_dns st), tt).

Definition set_pending (l : list pendingResolution) : M unit :=
  fun st => (mkApp (ap_world st) (ap_log st) (ap_output st) (ap_progress st) (ap_inflight st) (ap_pumping st)
    (ap_count st) (ap_open st) (ap_cancelled st) l (ap_readErr st) (ap_l7 st) (ap_dns st), tt).

Definition set_l7 (c : L7.Correlator D) : M unit :=
  fun st => (mkApp (ap_world st) (ap_log st) (ap_output st) (ap_progress st) (ap_inflight st) (ap_pumping st)
    (ap_count st) (ap_open st) (ap_cancelled st) (ap_pending st) (ap_readErr st) c (ap_dns st), tt).

Definition set_dns (c : Dns.Correlator) : M unit :=
  fun st => (mkApp (ap_world st) (ap_log st) (ap_output st) (ap_progress st) (ap_inflight st) (ap_pumping st)
    (ap_count st) (ap_open st) (ap_cancelled st) (ap_pending st) (ap_readErr st) (ap_l7 st) c, tt).

(** *** captureProgress *)

Definition now : M Time := react world_now.

Definition progress_accept (terminal : bool) : M Time :=
  at_ <- now;
  p <- get ap_progress;
  let '(cutoff, ended) := if terminal && negb (cp_ended p) then (at_, true) else (cp_cutoff p, cp_ended p) in
  set_progress (mkProgress cutoff ended (cp_outstanding p ++ [at_]));;
  ret at_.

Definition progress_consume : M unit :=
  p <- get ap_progress;
  set_progress (mkProgress (cp_cutoff p) (cp_ended p) (tail (cp_outstanding p))).

Definition progress_finish : M unit :=
  p <- get ap_progress;
  if cp_ended p then ret tt
  else at_ <- now; set_progress (mkProgress at_ true (cp_outstanding p)).

Definition progress_time : M Time :=
  p <- get ap_progress;
  if cp_ended p then ret (cp_cutoff p) else now.

Definition earliest (at_ : Time) (times : list Time) : Time :=
  foldl (fun at_ pending => if time_Before pending at_ then pending else at_) at_ times.

Definition progress_watermark : M Time :=
  p <- get ap_progress;
  at_ <- (if cp_ended p then ret (cp_cutoff p) else now);
  ret (earliest at_ (cp_outstanding p)).

(** *** eventOutput *)

(** queuedOutput.Encode *)
Definition write (r : record) : M errors :=
  e <- react (world_Encode r);
  (fun st => (mkApp (ap_world st) (ap_log st ++ [r]) (ap_output st) (ap_progress st) (ap_inflight st)
    (ap_pumping st) (ap_count st) (ap_open st) (ap_cancelled st) (ap_pending st) (ap_readErr st)
    (ap_l7 st) (ap_dns st), match e with Some n => [output_error n] | None => [] end)).

Definition set_failure (e : errors) : M unit :=
  o <- get ap_output; set_output (mkOutput (eo_stream o) (eo_exportLost o) e).

Definition set_stream (s : Stream) : M unit :=
  o <- get ap_output; set_output (mkOutput (Some s) (eo_exportLost o) (eo_exportFailure o)).

(** exportTyped *)
Definition exportTyped (r : record) : M errors :=
  o <- get ap_output;
  if negb (nil_error (eo_exportFailure o)) then ret (eo_exportFailure o)
  else if negb (op_exporter opts && op_typed opts) then ret []
  else
    e <- react (world_ExportTyped r);
    match e with
    | Some n => set_failure [export_error n];; ret [export_error n]
    | None => ret []
    end.

(** Encode of a transaction or a drop *)
Definition encode_typed (r : record) : M errors := try_ (write r) (exportTyped r).

(** The stream's part of Encode; the error it returns ends the call *)
Definition aggregate_observation (o : Observation) : M errors :=
  out <- get ap_output;
  match eo_stream out with
  | None => ret []
  | Some s =>
      let '(s, err) := Stream.Add s o in
      set_stream s;;
      let drop reason :=
        t <- now; write (RecAggregationDrop t (ob_ObservedAt o) (ob_Flow o) reason) in
      match err with
      | None => ret []
      | Some ErrLateObservation => drop "late_observation"
      | Some ErrWindowCapacity => drop "window_capacity"
      | Some e => ret [flow_error e]
      end
  end.

(** Encode of an observation; [wrap] is the record around it *)
Definition encode_observation (wrap : Observation -> record) (o : Observation) : M errors :=
  o <- (if op_pods opts then react (world_Enrich o) else ret o);
  try_ (aggregate_observation o)
    (if bool_decide (op_mode opts = "windows") then ret [] else write (wrap o)).

(** encodeWindows; [exportErr] is the error so far *)
Fixpoint encodeWindows (windows : list Window) (exportErr : errors) : M errors :=
  match windows with
  | [] => ret exportErr
  | w :: windows' =>
      e <- write (RecWindow w);
      if negb (nil_error e) then ret (exportErr ++ e)
      else
        o <- get ap_output;
        if nil_error (eo_exportFailure o) && op_exporter opts then
          e <- react (world_Export w);
          match e with
          | Some n => set_failure [export_error n];; encodeWindows windows' [export_error n]
          | None => encodeWindows windows' exportErr
          end
        else encodeWindows windows' exportErr
  end.

Definition reportExportLoss : M errors :=
  if negb (op_exporter opts) then ret []
  else
    total <- react world_Dropped;
    o <- get ap_output;
    if total =? eo_exportLost o then ret []
    else
      t <- now;
      set_output (mkOutput (eo_stream o) total (eo_exportFailure o));;
      write (RecExportDrop t (op_node opts) (u64 (total - eo_exportLost o)) total).

Definition output_Flush (at_ : Time) : M errors :=
  o <- get ap_output;
  match eo_stream o with
  | None => ret []
  | Some s =>
      let '(s, windows) := Stream.Flush s at_ in
      set_stream s;;
      e1 <- encodeWindows windows [];
      e2 <- reportExportLoss;
      ret (e1 ++ e2)
  end.

(** Close, up to the queue's own Close *)
Definition output_Close : M errors :=
  o <- get ap_output;
  e1 <- match eo_stream o with
        | None => ret []
        | Some s =>
            t <- progress_time;
            let '(s, windows) := Stream.Finish s t in
            set_stream s;; encodeWindows windows []
        end;
  e2 <- reportExportLoss;
  ret (e1 ++ e2).

(** encodeCollected: every record is encoded; the first error is returned *)
Fixpoint encodeCollected (records : list record) (firstErr : errors) : M errors :=
  match records with
  | [] => ret firstErr
  | r :: records' =>
      e <- encode_typed r;
      encodeCollected records' (if nil_error firstErr then e else firstErr)
  end.

Definition l7_record (o : L7Types.Output) : record :=
  match o with OutTransaction t => RecL7 t | OutDrop d => RecDrop d end.

(** *** Enrichment *)

Definition resolved_endpoint (r : Endpoint * string) : ResolvedEndpoint :=
  mkResolvedEndpoint (ep_Address r.1) (ep_Port r.1) r.2.

Definition with_resolved (o : Observation) (source destination : option ResolvedEndpoint) : Observation :=
  mkObservation (ob_SourcePod o) (ob_DestinationPod o) (ob_ObserverPod o) (ob_ObservedAt o)
    (ob_KernelTimestampNS o) (ob_Flow o) source destination (ob_Process o) (ob_BytesTx o) (ob_BytesRx o)
    (ob_PacketsTx o) (ob_PacketsRx o) (ob_Retransmissions o) (ob_Losses o) (ob_RTT o) (ob_Jitter o).

Definition with_process (o : Observation) (p : option Process) : Observation :=
  mkObservation (ob_SourcePod o) (ob_DestinationPod o) (ob_ObserverPod o) (ob_ObservedAt o)
    (ob_KernelTimestampNS o) (ob_Flow o) (ob_SourceResolved o) (ob_DestinationResolved o) p (ob_BytesTx o)
    (ob_BytesRx o) (ob_PacketsTx o) (ob_PacketsRx o) (ob_Retransmissions o) (ob_Losses o) (ob_RTT o) (ob_Jitter o).

Definition resolveObservation (o : Observation) : M Observation :=
  if negb (op_resolver opts) then ret o
  else
    let key := ob_Flow o in
    if bool_decide (fk_Direction key = "egress") && op_fresh opts then
      r <- react (world_ResolveAfter (fk_Protocol key) (fk_Source key) (fk_Destination key) (ob_ObservedAt o));
      ret match r with
          | Some r => with_resolved o (ob_SourceResolved o) (Some (resolved_endpoint r))
          | None => o
          end
    else
      r <- react (world_Resolve (fk_Protocol key) (fk_Source key) (fk_Destination key));
      match r with
      | Some r => ret (with_resolved o (ob_SourceResolved o) (Some (resolved_endpoint r)))
      | None =>
          r <- react (world_Resolve (fk_Protocol key) (fk_Destination key) (fk_Source key));
          ret match r with
              | Some r => with_resolved o (Some (resolved_endpoint r)) (ob_DestinationResolved o)
              | None => o
              end
      end.

Definition attachProcess (pid : Z) (o : Observation) : M Observation :=
  let bare := with_process o (Some (mkProcess pid 0 "" "" "" "")) in
  if pid =? 0 then ret o
  else if op_processes opts then
    p <- react (world_Lookup pid);
    ret match p with
        | Some p => with_process o (Some (mkProcess pid (pr_StartTimeTicks p) (pr_Comm p) (pr_Cmdline p)
                                            (pr_ContainerID p) (pr_Via p)))
        | None => bare
        end
  else ret bare.

(** The enrichment of a DNS or HTTP fragment *)
Definition enrich_fragment (protocol : string) (pid : Z) (observedAt : Time) (source destination : Endpoint) :
    M Observation :=
  let o := mkObservation None None None observedAt 0
    (mkFlowKey (op_node opts) protocol "connection" source destination) None None None 0 0 0 0 0 0
    zeroDistribution zeroDistribution in
  o <- resolveObservation o;
  o <- attachProcess pid o;
  if op_pods opts then react (world_Enrich o) else ret o.

Definition dns_fragment (f : Dns.Fragment) (pid : Z) (o : Observation) : Dns.Fragment :=
  Dns.mkFragment (Dns.fr_ObservedAt f) (Dns.fr_KernelTimestampNS f) (Dns.fr_NodeName f) pid
    (ob_Process o) (ob_SourceResolved o) (ob_DestinationResolved o) (ob_SourcePod o) (ob_DestinationPod o)
    (ob_ObserverPod o) (Dns.fr_Source f) (Dns.fr_Destination f) (Dns.fr_Payload f).

Definition l7_fragment (f : L7Types.Fragment) (o : Observation) : L7Types.Fragment :=
  L7Types.mkFragment (L7Types.fr_ObservedAt f) (L7Types.fr_KernelTimestampNS f) (L7Types.fr_NodeName f)
    (L7Types.fr_ObserverPID f) (L7Types.fr_Source f) (fr_SourceEndpoint f) (fr_DestinationEndpoint f)
    (fr_TotalLength f) (L7Types.fr_Payload f) (fr_TCPSequence f) (ob_Process o) (ob_SourceResolved o)
    (ob_DestinationResolved o) (ob_SourcePod o) (ob_DestinationPod o) (ob_ObserverPod o).

(** *** The event loop *)

(** resolutionRecord *)
Definition resolution (item : pendingResolution) (reason : string) : Observation -> record :=
  let resolved := bool_decide (is_Some (ob_DestinationResolved (pn_observation item))) in
  fun o => RecResolved o
    (if resolved then mkEvidence "resolved" "" (pn_attempts item)
     else mkEvidence "unresolved" reason (pn_attempts item)).

Definition encode_resolution (item : pendingResolution) (reason : string) : M errors :=
  encode_observation (resolution item reason) (pn_observation item).

(** The retry of every pending item; what remains *)
Fixpoint retry_pending (items remaining : list pendingResolution) : M (errors * list pendingResolution) :=
  match items with
  | [] => ret ([], remaining)
  | item :: items' =>
      o <- resolveObservation (pn_observation item);
      let item := mkPendingResolution o (pn_deadline item) (pn_attempts item + 1) in
      t <- (if bool_decide (is_Some (ob_DestinationResolved o)) then ret None
            else t <- react world_elapsed; ret (Some t));
      if bool_decide (is_Some (ob_DestinationResolved o)) ||
         negb (match t with Some t => time_Before t (pn_deadline item) | None => false end) then
        e <- encode_resolution item "retry_deadline";
        if nil_error e then retry_pending items' remaining else ret (e, remaining ++ item :: items')
      else retry_pending items' (remaining ++ [item])
  end.

(** case <-retryTick *)
Definition tick : M errors :=
  items <- get ap_pending;
  r <- retry_pending items [];
  let '(e, remaining) := r in
  set_pending remaining;;
  if negb (nil_error e) then ret e
  else
    t <- progress_watermark;
    c <- get ap_dns;
    match Dns.Expire c t with
    | None => ret [dns_panic]
    | Some (c, transactions) =>
        set_dns c;;
        try_ (encodeCollected (RecDNS <$> transactions) [])
          (t <- progress_watermark;
           items <- get ap_pending;
           output_Flush (earliest t ((fun item => ob_ObservedAt (pn_observation item)) <$> items)))
    end.

(** Earlier items with the same tuple are encoded; the others remain. *)
Fixpoint supersede (key : FlowKey) (items remaining : list pendingResolution) :
    M (errors * list pendingResolution) :=
  match items with
  | [] => ret ([], remaining)
  | item :: items' =>
      if bool_decide (ob_Flow (pn_observation item) = key) then
        e <- encode_resolution item "tuple_reused";
        if nil_error e then supersede key items' remaining else ret (e, remaining ++ item :: items')
      else supersede key items' (remaining ++ [item])
  end.

(** A new establishment: wait for its backend, or encode it *)
Definition handle_egress (o : Observation) : M errors :=
  items <- get ap_pending;
  r <- supersede (ob_Flow o) items [];
  let '(e, remaining) := r in
  set_pending remaining;;
  if negb (nil_error e) then ret e
  else
    t <- react world_elapsed;
    let item := mkPendingResolution o (time_Add t resolutionGrace) 1 in
    if negb (bool_decide (is_Some (ob_DestinationResolved o))) &&
       (length remaining <? maxPendingResolutions)%nat
    then set_pending (remaining ++ [item]);; ret []
    else encode_resolution item "queue_full".

Definition handle_flow (event : Event) (observedAt : Time) : M errors :=
  match Observation_of event (op_node opts) observedAt with
  | Err e => ret [convert_error e]
  | Ok o =>
      o <- resolveObservation o;
      o <- attachProcess (ev_PID event) o;
      if op_resolver opts && (ev_Kind event =? EventKindConnect) &&
         bool_decide (fk_Direction (ob_Flow o) = "egress")
      then handle_egress o
      else encode_observation RecObservation o
  end.

Definition handle_dns (event : Event) (observedAt : Time) : M errors :=
  match DNSFragment_of event (op_node opts) observedAt with
  | Err e => ret [convert_error e]
  | Ok f =>
      o <- enrich_fragment "udp" (ev_PID event) observedAt (Dns.fr_Source f) (Dns.fr_Destination f);
      c <- get ap_dns;
      match Dns.Correlator_Process c (dns_fragment f (ev_PID event) o) with
      | None => ret [dns_panic]
      | Some (c, transactions) => set_dns c;; encodeCollected (RecDNS <$> transactions) []
      end
  end.

Definition handle_l7 (event : Event) (observedAt : Time) : M errors :=
  match L7Fragment_of event (op_node opts) observedAt with
  | Err e => ret [convert_error e]
  | Ok f =>
      o <- enrich_fragment "tcp" (ev_PID event) observedAt (fr_SourceEndpoint f) (fr_DestinationEndpoint f);
      c <- get ap_l7;
      let '(c, outputs) := L7.Correlator_Process c (l7_fragment f o) in
      set_l7 c;; encodeCollected (l7_record <$> outputs) []
  end.

Definition handle_event (event : Event) (observedAt : Time) : M errors :=
  if ev_Kind event =? EventKindL7CoverageDrop then
    match L7CoverageDrop_of event (op_node opts) observedAt with
    | Err e => ret [convert_error e]
    | Ok d => encode_typed (RecDrop d)
    end
  else if ev_Kind event =? EventKindDNS then handle_dns event observedAt
  else if ev_Kind event =? EventKindL7Fragment then handle_l7 event observedAt
  else handle_flow event observedAt.

(** What a Read of the pump returned *)
Inductive read_result :=
| ReadEvent (event : Event)
| ReadEOF
| ReadFailed.

(** One read of the pump: it is accepted and goes to the channel, and the
    pump ends after an error or the last event asked for. *)
Definition pump (r : read_result) : M unit :=
  count <- get ap_count;
  let last := negb (op_maxEvents opts =? 0) && (count + 1 =? op_maxEvents opts) in
  let failed := match r with ReadEvent _ => false | _ => true end in
  at_ <- progress_accept (failed || last);
  l <- get ap_inflight;
  set_inflight (l ++ [mkTimed (match r with ReadEvent e => Some e | _ => None end)
                        (match r with ReadEOF => true | _ => false end) at_]);;
  set_pumping (negb (failed || last)) (count + 1).

(** The choice of a step: a read of the pump, or a case of the select. A
    cancellation joins the pump, which completes some more reads before it sees
    that it is to stop. *)
Inductive choice :=
| Pump (r : read_result)
| Receive
| Tick
| Cancel (reads : list read_result)
| OutputFailed
| ExportFailed.

(** Whether the pump can complete a read: it runs, and does not wait for room
    in the channel. *)
Definition reading (st : state) : bool := ap_pumping st && (length (ap_inflight st) <=? pump_capacity)%nat.

(** Whether the loop can take the choice *)
Definition enabled (st : state) (c : choice) : bool :=
  match c with
  | Pump _ => reading st
  | Receive => ap_open st && (negb (length (ap_inflight st) =? 0)%nat || negb (ap_pumping st))
  | Tick => negb (ap_cancelled st)
  | Cancel _ => negb (ap_cancelled st)
  | OutputFailed => true
  | ExportFailed => op_exporter opts
  end.

(** case value, ok := <-stream *)
Definition receive : M errors :=
  l <- get ap_inflight;
  cancelled <- get ap_cancelled;
  readErr <- get ap_readErr;
  match l with
  | [] => set_loop false cancelled readErr;; ret []
  | incoming :: l =>
      set_inflight l;;
      progress_consume;;
      match te_event incoming with
      | None =>
          set_loop false cancelled (if te_eof incoming then readErr else [read_error]);; ret []
      | Some event => handle_event event (te_observedAt incoming)
      end
  end.

(** The reads the pump completes while it is stopped: after progress.finish it
    goes on until it sees that stop is closed, or waits for room in the channel;
    what it then holds is the unsent event, which drain returns last. *)
Fixpoint last_reads (reads : list read_result) : M unit :=
  match reads with
  | [] => ret tt
  | r :: reads' =>
      b <- get reading;
      if b : bool then pump r;; last_reads reads' else ret tt
  end.

(** The function pumpEvents returns: stop the pump and join it *)
Definition stop_pump (reads : list read_result) : M unit :=
  progress_finish;;
  last_reads reads;;
  count <- get ap_count;
  set_pumping false count.

(** case <-ctxDone *)
Definition cancel (reads : list read_result) : M errors :=
  stop_pump reads;;
  readErr <- get ap_readErr;
  set_loop true true readErr;;
  ret [].

(** The items left when the capture ends *)
Fixpoint finalize (items : list pendingResolution) : M errors :=
  match items with
  | [] => ret []
  | item :: items' => try_ (encode_resolution item "capture_ended") (finalize items')
  end.

(** One choice; errors make the loop return. *)
Definition take_choice (c : choice) : M errors :=
  match c with
  | Pump r => pump r;; ret []
  | Receive => receive
  | Tick => tick
  | Cancel reads => cancel reads
  | OutputFailed => ret [output_failed]
  | ExportFailed => ret [export_failed]
  end.

(** The loop on a sequence of choices; a choice that is not enabled is
    skipped. It returns when its condition fails, on an error, or, once
    cancelled, with the items that are left. *)
Fixpoint loop (choices : list choice) : M errors :=
  opened <- get ap_open;
  items <- get ap_pending;
  cancelled <- get ap_cancelled;
  if negb (opened || negb (length items =? 0)%nat) then ret []
  else if cancelled && negb opened then finalize items
  else
    match choices with
    | [] => ret []
    | c :: choices' =>
        b <- get (fun st => enabled st c);
        if b : bool then try_ (take_choice c) (loop choices') else loop choices'
    end.

(** RunEventsWithOptions once its output exists: the loop, then the deferred
    calls, last registered first. [last] is what the pump reads while it is
    joined. *)
Definition RunEvents (choices : list choice) (last : list read_result) : M errors :=
  retErr <- loop choices;
  cancelled <- get ap_cancelled;
  (if cancelled : bool then ret tt else stop_pump last);;
  t <- progress_time;
  c <- get ap_dns;
  e <- match Dns.Finish c t with
       | None => ret [dns_panic]
       | Some (c, transactions) => set_dns c;; encodeCollected (RecDNS <$> transactions) []
       end;
  closeErr <- output_Close;
  readErr <- get ap_readErr;
  ret (readErr ++ (retErr ++ e) ++ closeErr).

(** The state the loop starts in *)
Definition start (w : W) (stream : option Stream) : state :=
  mkApp w [] (mkOutput stream 0 []) (mkProgress 0 false []) [] true 0 true false [] []
    (L7.NewCorrelator (L7.mkConfig 0 0 0 0 0 0 0)) (Dns.NewCorrelator 0).

(** ** Lemmas *)

Context {WL : WorldLaws W}.

(** What decides lateness: the configuration and the watermark of the stream *)
Definition marks (st : state) : option (StreamConfig * bool * Time) :=
  (fun s => (st_config s, st_hasWatermark s, st_watermark s)) <$> eo_stream (ap_output st).

(** An observation made at [t] is not late. *)
Definition mark_le (st : state) (t : Time) : Prop := forall c w, marks st = Some (c, true, w) -> w <= t.

Definition stream_ok (st : state) : Prop :=
  forall c b w, marks st = Some (c, b, w) -> 0 < WindowSize c /\ 0 <= AllowedLateness c.

Definition is_late (r : record) : Prop :=
  match r with RecAggregationDrop _ _ _ reason => reason = "late_observation" | _ => False end.

Definition no_late (log : list record) : Prop := Forall (fun r => ~ is_late r) log.

(** What calls that neither flush nor capture leave as it was *)
Record frame (st st' : state) : Prop := {
  fr_clock : clock (ap_world st) <= clock (ap_world st');
  fr_marks : marks st' = marks st;
  fr_progress : ap_progress st' = ap_progress st;
  fr_inflight : ap_inflight st' = ap_inflight st;
  fr_pending : ap_pending st' = ap_pending st;
  fr_log : no_late (ap_log st) -> no_late (ap_log st')
}.

Lemma frame_refl st : frame st st.
Proof. by split. Qed.

Lemma frame_trans st1 st2 st3 : frame st1 st2 -> frame st2 st3 -> frame st1 st3.
Proof. intros [] []. split; [lia|congruence..|auto]. Qed.

Lemma frame_mark_le st st' t : frame st st' -> mark_le st t -> mark_le st' t.
Proof. intros F H c w E. apply (H c). by rewrite <- (fr_marks _ _ F). Qed.

Lemma frame_stream_ok st st' : frame st st' -> stream_ok st -> stream_ok st'.
Proof. intros F H c b w E. apply (H c b w). by rewrite <- (fr_marks _ _ F). Qed.

(** [m] keeps the frame where observations made at [ts] are not late, and
    its result satisfies [Q]. *)
Definition keeps {A} (ts : list Time) (Q : A -> Prop) (m : M A) : Prop :=
  forall st, stream_ok st -> Forall (mark_le st) ts -> frame st (m st).1 /\ Q (m st).2.

Lemma keeps_ret {A} ts (Q : A -> Prop) a : Q a -> keeps ts Q (ret a).
Proof. intros Ha st _ _. split; [apply frame_refl|done]. Qed.

Lemma keeps_bind {A B} ts (Q : A -> Prop) (Q' : B -> Prop) (m : M A) (f : A -> M B) :
  keeps ts Q m -> (forall a, Q a -> keeps ts Q' (f a)) -> keeps ts Q' (bind m f).
Proof.
  intros Hm Hf st Hs Ht. unfold bind. destruct (Hm st Hs Ht) as [F Ha]. destruct (m st) as [st1 a].
  simpl in *. assert (Ht1 : Forall (mark_le st1) ts).
  { eapply Forall_impl; [exact Ht|]. intros t. by apply frame_mark_le. }
  destruct (Hf a Ha st1 (frame_stream_ok _ _ F Hs) Ht1) as [F' Hb]. split; [by eapply frame_trans|done].
Qed.

Lemma keeps_get {A} ts (f : state -> A) : keeps ts (fun _ => True) (get f).
Proof. intros st _ _. split; [apply frame_refl|done]. Qed.

Lemma keeps_react {A} ts (Q : A -> Prop) (f : W -> W * A) :
  (forall w, clock w <= clock (f w).1) -> (forall w, Q (f w).2) -> keeps ts Q (react f).
Proof.
  intros Hc HQ st _ _. specialize (Hc (ap_world st)). specialize (HQ (ap_world st)). unfold react.
  destruct (f (ap_world st)) as [w a]. split; [by split|done].
Qed.

Lemma keeps_try ts (m k : M errors) :
  keeps ts (fun _ => True) m -> keeps ts (fun _ => True) k -> keeps ts (fun _ => True) (try_ m k).
Proof.
  intros Hm Hk. eapply keeps_bind; [exact Hm|]. intros e _. destruct (nil_error e); [done|]. by apply keeps_ret.
Qed.

Lemma keeps_subset {A} ts ts' (Q : A -> Prop) m : ts ⊆ ts' -> keeps ts Q m -> keeps ts' Q m.
Proof.
  intros Hsub Hm st Hs Ht. apply Hm; [done|]. rewrite Forall_forall in *. intros t Hin. apply Ht. by apply Hsub.
Qed.

Lemma keeps_now ts : keeps ts (fun _ => True) now.
Proof. apply keeps_react; [|done]. intros w. destruct (clock_now w). lia. Qed.

Lemma keeps_write ts r : ~ is_late r -> keeps ts (fun _ => True) (write r).
Proof.
  intros Hr. eapply keeps_bind; [apply (keeps_react ts (fun _ => True)); [apply clock_Encode|done]|].
  intros e _ st _ _. split; [|done]. split; try done. cbn [ap_log fst]. intros H. apply Forall_app. split; [done|].
  apply Forall_cons. split; [done|]. by apply Forall_nil.
Qed.

Lemma keeps_progress_time ts : keeps ts (fun _ => True) progress_time.
Proof.
  eapply keeps_bind; [apply keeps_get|]. intros p _. destruct (cp_ended p); [by apply keeps_ret|apply keeps_now].
Qed.

Create HintDb keeps.
#[local] Hint Resolve keeps_get keeps_now keeps_try keeps_progress_time : keeps.

Lemma keeps_set_failure ts e : keeps ts (fun _ => True) (set_failure e).
Proof. intros st _ _. split; [|done]. by split. Qed.

(** Straight-line code whose parts keep the frame *)
Ltac keep :=
  repeat first
    [ progress intros
    | solve [eauto with keeps]
    | apply keeps_ret; [done]
    | apply keeps_write; [intros H; exact H]
    | apply keeps_set_failure
    | apply keeps_try
    | apply (keeps_react _ (fun _ => True)); [first [apply clock_elapsed | apply clock_Resolve | apply clock_ResolveAfter
        | apply clock_Lookup | apply clock_Enrich | apply clock_Export | apply clock_ExportTyped | apply clock_Dropped]|done]
    | apply (keeps_bind _ (fun _ => True))
    | match goal with |- keeps _ _ (if ?b then _ else _) => destruct b end
    | match goal with |- keeps _ _ (match ?x with _ => _ end) => destruct x end ].

Lemma keeps_exportTyped ts r : keeps ts (fun _ => True) (exportTyped r).
Proof. unfold exportTyped. keep. Qed.

Lemma keeps_encode_typed ts r : ~ is_late r -> keeps ts (fun _ => True) (encode_typed r).
Proof. intros Hr. apply keeps_try; [by apply keeps_write|apply keeps_exportTyped]. Qed.

Lemma keeps_encodeWindows ts windows exportErr : keeps ts (fun _ => True) (encodeWindows windows exportErr).
Proof. revert exportErr. induction windows as [|w windows IH]; intros exportErr; cbn [encodeWindows]; keep; apply IH. Qed.

Lemma keeps_encodeCollected ts records firstErr :
  Forall (fun r => ~ is_late r) records -> keeps ts (fun _ => True) (encodeCollected records firstErr).
Proof.
  intros H. revert firstErr. induction H as [|r records Hr H IH]; intros firstErr; cbn [encodeCollected].
  - by apply keeps_ret.
  - eapply keeps_bind; [by apply keeps_encode_typed|]. intros e _. apply IH.
Qed.

(** *** Adding an observation *)

Lemma Add_marks s o :
  st_config (Stream.Add s o).1 = st_config s /\ st_hasWatermark (Stream.Add s o).1 = st_hasWatermark s /\
  st_watermark (Stream.Add s o).1 = st_watermark s.
Proof.
  unfold Stream.Add. destruct (st_finished s); [done|]. destruct (time_IsZero _); [done|].
  destruct (_ && _); [done|]. destruct (_ !! _); [done|]. by destruct (_ <=? _).
Qed.

Lemma Add_not_late s o :
  0 < WindowSize (st_config s) -> (st_hasWatermark s = true -> st_watermark s <= ob_ObservedAt o) ->
  (Stream.Add s o).2 <> Some ErrLateObservation.
Proof.
  intros Hw Hm. unfold Stream.Add. destruct (st_finished s); [done|]. destruct (time_IsZero _); [done|].
  destruct (st_hasWatermark s && _) eqn:E.
  - exfalso. apply andb_true_iff in E as [E1 E2]. specialize (Hm E1).
    destruct (Truncate_interval (ob_ObservedAt o) _ Hw) as [T _].
    unfold time_After, time_Add, keyFor in E2. cbn [ak_Start] in E2. bool_to_Z. lia.
  - destruct (_ !! _); [done|]. by destruct (_ <=? _).
Qed.

Lemma keeps_aggregate ts o : ob_ObservedAt o ∈ ts -> keeps ts (fun _ => True) (aggregate_observation o).
Proof.
  intros Hin st Hs Ht. rewrite Forall_forall in Ht. specialize (Ht _ Hin).
  unfold aggregate_observation, bind, get. destruct (eo_stream (ap_output st)) as [s|] eqn:Es;
    [|by split; [apply frame_refl|]].
  assert (Em : marks st = Some (st_config s, st_hasWatermark s, st_watermark s)) by (unfold marks; by rewrite Es).
  destruct (Add_marks s o) as (M1 & M2 & M3). destruct (Hs _ _ _ Em) as [Hw _].
  pose proof (Add_not_late s o Hw) as Hl. destruct (Stream.Add s o) as [s' err]. cbn [fst snd] in *.
  assert (Hle : st_hasWatermark s = true -> st_watermark s <= ob_ObservedAt o).
  { intros Eh. apply (Ht (st_config s)). by rewrite Em, Eh. }
  specialize (Hl Hle). unfold set_stream, bind, get, set_output. cbn [ap_output].
  set (st1 := mkApp _ _ _ _ _ _ _ _ _ _ _ _ _).
  assert (F : frame st st1).
  { split; try done. unfold marks. cbn. by rewrite M1, M2, M3, Es. }
  assert (K : forall reason, reason <> "late_observation" ->
    keeps [] (fun _ => True) (t <- now; write (RecAggregationDrop t (ob_ObservedAt o) (ob_Flow o) reason))).
  { intros reason Hr. eapply keeps_bind; [apply keeps_now|]. intros t _. apply keeps_write. exact Hr. }
  assert (G : forall (m : M errors), keeps [] (fun _ => True) m -> frame st (m st1).1 /\ True).
  { intros m Hm. split; [|done]. eapply frame_trans; [exact F|]. apply Hm; [by eapply frame_stream_ok|by apply Forall_nil]. }
  destruct err as [[]|]; try done; first [refine (G (bind now _) _); apply K; done|apply (G (ret _)), keeps_ret; done].
Qed.

Lemma keeps_encode_observation ts wrap o :
  ob_ObservedAt o ∈ ts -> (forall o, ~ is_late (wrap o)) -> keeps ts (fun _ => True) (encode_observation wrap o).
Proof.
  intros Hin Hw. unfold encode_observation.
  apply (keeps_bind ts (fun o' => ob_ObservedAt o' = ob_ObservedAt o)).
  - destruct (op_pods opts); [|by apply keeps_ret].
    apply keeps_react; [apply clock_Enrich|apply Enrich_time].
  - intros o' Eo. apply keeps_try; [apply keeps_aggregate; by rewrite Eo|].
    destruct (bool_decide _); [by apply keeps_ret|by apply keeps_write].
Qed.

Lemma keeps_encode_resolution ts item reason :
  ob_ObservedAt (pn_observation item) ∈ ts -> keeps ts (fun _ => True) (encode_resolution item reason).
Proof. intros Hin. apply keeps_encode_observation; [done|]. intros o H. exact H. Qed.

Lemma keeps_reportExportLoss ts : keeps ts (fun _ => True) reportExportLoss.
Proof.
  unfold reportExportLoss. destruct (negb _); [by apply keeps_ret|].
  apply (keeps_bind _ (fun _ => True)); [apply keeps_react; [apply clock_Dropped|done]|]. intros total _ st Hs Ht.
  unfold bind at 1, get. destruct (total =? _); [by split; [apply frame_refl|]|].
  unfold bind at 1. destruct (keeps_now ts st Hs Ht) as [F _]. pose proof F as [F1 F2 F3 F4 F5 F6].
  assert (Eo : ap_output (now st).1 = ap_output st).
  { unfold now, react. by destruct (world_now (ap_world st)). }
  destruct (now st) as [st1 t]. cbn [fst] in *. unfold bind at 1, set_output.
  set (st2 := mkApp _ _ _ _ _ _ _ _ _ _ _ _ _).
  assert (F' : frame st st2) by (split; done).
  destruct (keeps_write [] (RecExportDrop t (op_node opts) (u64 (total - eo_exportLost (ap_output st))) total)
    ltac:(intros H; exact H) st2) as [F'' _]; [by eapply frame_stream_ok|by apply Forall_nil|].
  split; [by eapply frame_trans|done].
Qed.

Lemma resolved_time o source destination : ob_ObservedAt (with_resolved o source destination) = ob_ObservedAt o.
Proof. done. Qed.

Lemma keeps_resolveObservation ts o :
  keeps ts (fun o' => ob_ObservedAt o' = ob_ObservedAt o) (resolveObservation o).
Proof.
  unfold resolveObservation. destruct (negb _); [by apply keeps_ret|]. destruct (_ && _).
  - apply (keeps_bind _ (fun _ => True)); [apply keeps_react; [apply clock_ResolveAfter|done]|].
    intros [r|] _; by apply keeps_ret.
  - apply (keeps_bind _ (fun _ => True)); [apply keeps_react; [apply clock_Resolve|done]|].
    intros [r|] _; [by apply keeps_ret|].
    apply (keeps_bind _ (fun _ => True)); [apply keeps_react; [apply clock_Resolve|done]|].
    intros [r|] _; by apply keeps_ret.
Qed.

Lemma keeps_attachProcess ts pid o :
  keeps ts (fun o' => ob_ObservedAt o' = ob_ObservedAt o) (attachProcess pid o).
Proof.
  unfold attachProcess. destruct (pid =? 0); [by apply keeps_ret|].
  destruct (op_processes opts); [|by apply keeps_ret].
  apply (keeps_bind _ (fun _ => True)); [apply keeps_react; [apply clock_Lookup|done]|].
  intros [p|] _; by apply keeps_ret.
Qed.

Lemma keeps_enrich_fragment ts protocol pid t s d : keeps ts (fun _ => True) (enrich_fragment protocol pid t s d).
Proof.
  unfold enrich_fragment. eapply keeps_bind; [apply keeps_resolveObservation|]. intros o1 _.
  eapply keeps_bind; [apply keeps_attachProcess|]. intros o2 _.
  destruct (op_pods opts); [apply keeps_react; [apply clock_Enrich|done]|by apply keeps_ret].
Qed.

(** *** Pending resolutions *)

Definition item_in (ts : list Time) (item : pendingResolution) : Prop := ob_ObservedAt (pn_observation item) ∈ ts.

(** Items made at [ts], and no more than [n] of them *)
Definition remains (ts : list Time) (n : nat) (items : list pendingResolution) : Prop :=
  Forall (item_in ts) items /\ (length items <= n)%nat.

Lemma remains_app ts n items item items' :
  remains ts n (items ++ item :: items') -> remains ts n ((items ++ [item]) ++ items').
Proof. by rewrite <- (assoc_L (++)). Qed.

Lemma remains_change ts n items item item' items' :
  item_in ts item' -> remains ts n (items ++ item :: items') -> remains ts n (items ++ item' :: items').
Proof.
  intros H [H1 H2]. split; [|by rewrite length_app in *].
  apply Forall_app in H1 as [H1 H3]. apply Forall_app. split; [done|]. by apply Forall_cons in H3 as [_ H3]; constructor.
Qed.

Lemma remains_drop ts n items item items' : remains ts n (items ++ item :: items') -> remains ts n (items ++ items').
Proof.
  intros [H1 H2]. rewrite length_app in H2. cbn in H2. split; [|rewrite length_app; lia].
  apply Forall_app in H1 as [H1 H3]. apply Forall_app. split; [done|]. by apply Forall_cons in H3 as [_ H3].
Qed.

Lemma remains_in ts n items item items' : remains ts n (items ++ item :: items') -> item_in ts item.
Proof. intros [H _]. apply Forall_app in H as [_ H]. by apply Forall_cons in H as [H _]. Qed.

Lemma keeps_retry ts n items remaining :
  remains ts n (remaining ++ items) -> keeps ts (fun r => remains ts n r.2) (retry_pending items remaining).
Proof.
  revert remaining. induction items as [|item items IH]; intros remaining Hr; cbn [retry_pending].
  - apply keeps_ret. by rewrite app_nil_r in Hr.
  - eapply keeps_bind; [apply keeps_resolveObservation|]. intros o Eo.
    apply (keeps_bind _ (fun _ => True)).
    { destruct (bool_decide _); [by apply keeps_ret|].
      apply (keeps_bind _ (fun _ => True)); [apply keeps_react; [apply clock_elapsed|done]|].
      intros t _. by apply keeps_ret. }
    intros t _. set (item' := mkPendingResolution o _ _).
    assert (Hitem : item_in ts item') by (unfold item_in; cbn; rewrite Eo; by eapply remains_in).
    apply (remains_change _ _ _ _ _ _ Hitem) in Hr. destruct (_ || _).
    + eapply keeps_bind; [by apply keeps_encode_resolution|]. intros e _.
      destruct (nil_error e); [apply IH; by eapply remains_drop|by apply keeps_ret].
    + apply IH. by apply remains_app.
Qed.

Lemma keeps_supersede ts n key items remaining :
  remains ts n (remaining ++ items) -> keeps ts (fun r => remains ts n r.2) (supersede key items remaining).
Proof.
  revert remaining. induction items as [|item items IH]; intros remaining Hr; cbn [supersede].
  - apply keeps_ret. by rewrite app_nil_r in Hr.
  - destruct (bool_decide _).
    + eapply keeps_bind; [eapply keeps_encode_resolution; by eapply remains_in|]. intros e _.
      destruct (nil_error e); [apply IH; by eapply remains_drop|by apply keeps_ret].
    + apply IH. by apply remains_app.
Qed.

Lemma keeps_finalize ts items : Forall (item_in ts) items -> keeps ts (fun _ => True) (finalize items).
Proof.
  induction 1 as [|item items Hitem Hi IH]; cbn [finalize]; [by apply keeps_ret|].
  apply keeps_try; [by apply keeps_encode_resolution|done].
Qed.

(** *** The invariant *)

(** The watermark is behind the clock and behind every observation that is
    still on its way to the stream. *)
Record inv (st : state) : Prop := {
  iv_stream : stream_ok st;
  iv_clock : mark_le st (clock (ap_world st));
  iv_cutoff : cp_ended (ap_progress st) = true -> cp_cutoff (ap_progress st) <= clock (ap_world st);
  iv_outstanding : Forall (mark_le st) (cp_outstanding (ap_progress st));
  iv_inflight : te_observedAt <$> ap_inflight st = cp_outstanding (ap_progress st);
  iv_pending : Forall (fun item => mark_le st (ob_ObservedAt (pn_observation item))) (ap_pending st);
  iv_log : no_late (ap_log st);
  iv_capacity : (length (ap_inflight st) <= S pump_capacity)%nat;
  iv_max : (length (ap_pending st) <= maxPendingResolutions)%nat
}.

Lemma mark_le_trans st t t' : mark_le st t -> t <= t' -> mark_le st t'.
Proof. intros H Hle c w E. specialize (H c w E). lia. Qed.

Lemma inv_frame st st' : inv st -> frame st st' -> inv st'.
Proof.
  intros [I1 I2 I3 I4 I5 I6 I7 I8 I9] F. pose proof F as [F1 F2 F3 F4 F5 F6].
  split; rewrite ?F3, ?F4, ?F5; try done.
  - by eapply frame_stream_ok.
  - eapply mark_le_trans; [by eapply frame_mark_le|done].
  - intros H. specialize (I3 H). lia.
  - eapply Forall_impl; [exact I4|]. intros t. by apply frame_mark_le.
  - eapply Forall_impl; [exact I6|]. intros item. by apply frame_mark_le.
  - auto.
Qed.

Definition pending_times (st : state) : list Time := (fun item => ob_ObservedAt (pn_observation item)) <$> ap_pending st.

Lemma inv_keeps {A} st ts (Q : A -> Prop) (m : M A) :
  inv st -> keeps ts Q m -> Forall (mark_le st) ts ->
  inv (m st).1 /\ frame st (m st).1 /\ Q (m st).2.
Proof.
  intros I Hm Ht. destruct (Hm st (iv_stream _ I) Ht) as [F HQ]. split; [by eapply inv_frame|done].
Qed.

Lemma inv_pending_times st : inv st -> Forall (mark_le st) (pending_times st).
Proof. intros I. unfold pending_times. rewrite Forall_fmap. apply I. Qed.

Lemma pending_item_in st : Forall (item_in (pending_times st)) (ap_pending st).
Proof.
  apply Forall_forall. intros item Hin. unfold item_in, pending_times. 
  by apply (list_elem_of_fmap_2 (fun item => ob_ObservedAt (pn_observation item))).
Qed.

Lemma pending_remains st ts : inv st -> pending_times st ⊆ ts -> remains ts maxPendingResolutions ([] ++ ap_pending st).
Proof.
  intros I Hsub. split; [|apply I]. eapply Forall_impl; [apply pending_item_in|]. intros item. apply Hsub.
Qed.

(** Replacing the pending items by others that are not late *)
Lemma inv_set_pending st ts items :
  inv st -> Forall (mark_le st) ts -> remains ts maxPendingResolutions items -> inv (set_pending items st).1.
Proof.
  intros [I1 I2 I3 I4 I5 I6 I7 I8 I9] Ht [Hi Hn]. split; try done. cbn [ap_pending set_pending fst].
  eapply Forall_impl; [exact Hi|]. intros item Hin. rewrite Forall_forall in Ht. by apply (Ht _ Hin).
Qed.

(** The same fields, or the same up to what no invariant looks at *)
Lemma frame_set_dns st c : frame st (set_dns c st).1.
Proof. by split. Qed.

Lemma frame_set_l7 st c : frame st (set_l7 c st).1.
Proof. by split. Qed.

Lemma frame_set_loop st a b c : frame st (set_loop a b c st).1.
Proof. by split. Qed.

Lemma frame_set_pumping st a b : frame st (set_pumping a b st).1.
Proof. by split. Qed.

Lemma earliest_cons t x l : earliest t (x :: l) = earliest (if x <? t then x else t) l.
Proof. done. Qed.

Lemma earliest_le t l : earliest t l <= t /\ Forall (fun x => earliest t l <= x) l.
Proof.
  revert t. induction l as [|x l IH]; intros t; [by split|]. rewrite earliest_cons.
  destruct (IH (if x <? t then x else t)) as [H1 H2]. revert H1 H2.
  generalize (earliest (if x <? t then x else t) l). intros e H1 H2.
  assert (e <= x /\ e <= t) as [E1 E2] by (destruct (Z.ltb_spec x t); lia).
  split; [done|]. by apply Forall_cons.
Qed.

Lemma watermark_spec st :
  inv st ->
  let '(st', t) := progress_watermark st in
  frame st st' /\ t <= clock (ap_world st') /\ Forall (fun x => t <= x) (cp_outstanding (ap_progress st')).
Proof.
  intros I. unfold progress_watermark, bind at 1, get.
  assert (G : forall st1 at_, frame st st1 -> at_ <= clock (ap_world st1) ->
    frame st st1 /\ earliest at_ (cp_outstanding (ap_progress st)) <= clock (ap_world st1) /\
    Forall (fun x => earliest at_ (cp_outstanding (ap_progress st)) <= x) (cp_outstanding (ap_progress st1))).
  { intros st1 at_ F Hle. destruct (earliest_le at_ (cp_outstanding (ap_progress st))) as [E1 E2].
    split; [done|]. split; [lia|]. by rewrite (fr_progress _ _ F). }
  destruct (cp_ended (ap_progress st)) eqn:Ee.
  - apply (G st); [apply frame_refl|by apply I].
  - unfold bind. destruct (keeps_now [] st (iv_stream _ I) (Forall_nil_2 _)) as [F _].
    assert (Hle : (now st).2 <= clock (ap_world (now st).1)).
    { unfold now, react. destruct (clock_now (ap_world st)) as [_ H]. by destruct (world_now (ap_world st)). }
    destruct (now st) as [st1 at_]. by apply G.
Qed.

(** A flush up to a time that is behind everything on its way *)
Lemma Flush_marks s t :
  let s' := (Stream.Flush s t).1 in
  st_config s' = st_config s /\
  (st_watermark s' = st_watermark s /\ st_hasWatermark s = true \/
   st_watermark s' = t - AllowedLateness (st_config s)).
Proof.
  unfold Stream.Flush, next_watermark, time_Add. cbn. split; [done|].
  destruct (st_hasWatermark s); cbn; [destruct (time_After _ _)|]; auto.
Qed.

Lemma output_Flush_inv st t :
  inv st -> t <= clock (ap_world st) -> Forall (fun x => t <= x) (cp_outstanding (ap_progress st)) ->
  Forall (fun x => t <= x) (pending_times st) -> inv (output_Flush t st).1.
Proof.
  intros I Hc Ho Hp. unfold output_Flush, bind at 1, get.
  destruct (eo_stream (ap_output st)) as [s|] eqn:Es; [|done].
  assert (Em : marks st = Some (st_config s, st_hasWatermark s, st_watermark s)) by (unfold marks; by rewrite Es).
  destruct (iv_stream _ I _ _ _ Em) as [_ Hlate].
  destruct (Flush_marks s t) as [M1 M2]. destruct (Stream.Flush s t) as [s' windows]. cbn [fst] in *.
  unfold bind at 1. destruct (set_stream s' st) as [st1 []] eqn:Est.
  assert (E1 : st1 = (set_stream s' st).1) by (by rewrite Est). clear Est.
  assert (L : forall x, t <= x -> mark_le st x -> mark_le st1 x).
  { intros x Hx Hm c w. subst st1. unfold marks. cbn. intros [= _ _ <-]. destruct M2 as [[-> Eh]| ->]; [|lia].
    apply (Hm (st_config s)). by rewrite Em, Eh. }
  assert (I1 : inv st1).
  { destruct I as [I1 I2 I3 I4 I5 I6 I7 I8 I9]. split; try (subst st1; done).
    - subst st1. intros c b w. unfold marks. cbn. intros [= <- _ _]. rewrite M1. by apply (I1 _ _ _ Em).
    - subst st1. cbn. by apply L.
    - replace (ap_progress st1) with (ap_progress st) by (by subst st1). rewrite Forall_forall in *. auto.
    - replace (ap_pending st1) with (ap_pending st) by (by subst st1). unfold pending_times in Hp.
      rewrite Forall_fmap, Forall_forall in Hp. rewrite Forall_forall in *. intros item Hin.
      apply L; [by apply Hp|by apply I6]. }
  clear E1. eapply (inv_keeps st1 [] (fun _ => True)); [exact I1| |by apply Forall_nil].
  eapply keeps_bind; [apply keeps_encodeWindows|]. intros e1 _.
  eapply keeps_bind; [apply keeps_reportExportLoss|]. intros e2 _. by apply keeps_ret.
Qed.

(** *** The steps *)

Lemma now_spec st : frame st (now st).1 /\ clock (ap_world st) <= (now st).2 <= clock (ap_world (now st).1).
Proof.
  unfold now, react. pose proof (clock_now (ap_world st)) as [H1 H2].
  destruct (world_now (ap_world st)) as [w t]. cbn [fst snd] in *. split; [|done]. split; try done. cbn. lia.
Qed.

Lemma inv_bind {A B} st ts (Q : A -> Prop) (m : M A) (f : A -> M B) :
  inv st -> keeps ts Q m -> Forall (mark_le st) ts ->
  (forall st' a, inv st' -> frame st st' -> Q a -> inv (f a st').1) -> inv (bind m f st).1.
Proof.
  intros I Hm Ht Hf. destruct (inv_keeps st ts Q m I Hm Ht) as (I' & F & HQ). unfold bind.
  destruct (m st) as [st' a]. by apply Hf.
Qed.

Lemma inv_try st (m k : M errors) : inv (m st).1 -> (forall st', inv st' -> inv (k st').1) -> inv (try_ m k st).1.
Proof.
  intros I Hk. unfold try_, bind. destruct (m st) as [st' e]. cbn [fst] in I.
  destruct (nil_error e); [by apply Hk|done].
Qed.

Lemma inv_done {A} st ts (Q : A -> Prop) (m : M A) : inv st -> keeps ts Q m -> Forall (mark_le st) ts -> inv (m st).1.
Proof. intros I Hm Ht. by destruct (inv_keeps st ts Q m I Hm Ht). Qed.

Lemma pump_inv st r : inv st -> (length (ap_inflight st) <= pump_capacity)%nat -> inv (pump r st).1.
Proof.
  intros [I1 I2 I3 I4 I5 I6 I7 I8 I9] Hc. unfold pump, progress_accept, bind, get. cbn [ap_count].
  destruct (now_spec st) as [[F1 F2 F3 F4 F5 F6] [H1 H2]]. destruct (now st) as [st1 at_]. cbn [fst snd] in *.
  assert (L : forall t, mark_le st t -> mark_le st1 t) by (intros t H c w E; apply (H c); by rewrite <- F2).
  assert (La : mark_le st1 at_) by (apply L; eapply mark_le_trans; [exact I2|done]).
  destruct (_ && _) eqn:Et; (split; cbn;
    [intros c b w E; apply (I1 c b w); by rewrite <- F2
    |eapply mark_le_trans; [exact La|done]
    |
    |apply Forall_app; split;
      [rewrite F3; eapply Forall_impl; [exact I4|exact L]|by apply Forall_cons; split; [|apply Forall_nil]]
    |rewrite F3, F4, fmap_app, I5; done
    |rewrite F5; eapply Forall_impl; [exact I6|]; intros item; apply L
    |auto
    |rewrite F4, length_app; cbn [length]; lia
    |by rewrite F5]).
  - done.
  - rewrite F3. intros H. specialize (I3 H). lia.
Qed.

Lemma progress_finish_inv st : inv st -> inv (progress_finish st).1.
Proof.
  intros I. unfold progress_finish, bind at 1, get. destruct (cp_ended (ap_progress st)); [done|].
  destruct (now_spec st) as [F [_ H2]]. unfold bind. destruct (now st) as [st1 at_]. cbn [fst snd] in *.
  pose proof (inv_frame _ _ I F) as [I1 I2 I3 I4 I5 I6 I7 I8 I9]. rewrite (fr_progress _ _ F) in *. by split.
Qed.

Lemma last_reads_inv st reads : inv st -> inv (last_reads reads st).1.
Proof.
  revert st. induction reads as [|r reads IH]; intros st I; cbn [last_reads]; [done|]. unfold bind at 1, get.
  destruct (reading st) eqn:Hr; [|done]. apply andb_true_iff in Hr as [_ Hr]. apply Nat.leb_le in Hr.
  unfold bind. pose proof (pump_inv st r I Hr) as I1. destruct (pump r st) as [st1 []]. by apply IH.
Qed.

Lemma stop_pump_inv st reads : inv st -> inv (stop_pump reads st).1.
Proof.
  intros I. unfold stop_pump, bind. pose proof (progress_finish_inv st I) as I1.
  destruct (progress_finish st) as [st1 []]. cbn [fst] in I1. pose proof (last_reads_inv st1 reads I1) as I2.
  destruct (last_reads reads st1) as [st2 []]. cbn [fst get] in *.
  eapply inv_frame; [exact I2|apply frame_set_pumping].
Qed.

Lemma cancel_inv st reads : inv st -> inv (cancel reads st).1.
Proof.
  intros I. unfold cancel, bind. pose proof (stop_pump_inv st reads I) as I1.
  destruct (stop_pump reads st) as [st1 []]. cbn [fst get ret] in *.
  eapply inv_frame; [exact I1|apply frame_set_loop].
Qed.

Lemma mark_le_in st ts t : Forall (mark_le st) ts -> t ∈ ts -> mark_le st t.
Proof. rewrite Forall_forall. auto. Qed.

Lemma Observation_time event node t o : Observation_of event node t = Ok o -> ob_ObservedAt o = t.
Proof.
  unfold Observation_of. destruct (negb _); [done|]. destruct (time_IsZero t); [done|].
  destruct (formatAddress _ (ev_SourceAddress event)) as [a|e]; [|by intros H].
  destruct (formatAddress _ (ev_DestinationAddress event)) as [b|e]; [|by intros H].
  cbn. destruct (orient _ _ _) as [d [x y]]. by intros [= <-].
Qed.

Lemma not_late_map {A} (f : A -> record) l : (forall a, ~ is_late (f a)) -> Forall (fun r => ~ is_late r) (f <$> l).
Proof. intros H. rewrite Forall_fmap. apply Forall_true. exact H. Qed.

Lemma l7_record_not_late o : ~ is_late (l7_record o).
Proof. destruct o; intros H; exact H. Qed.

Lemma keeps_set_dns ts c : keeps ts (fun _ => True) (set_dns c).
Proof. intros st _ _. split; [apply frame_set_dns|done]. Qed.

Lemma keeps_set_l7 ts c : keeps ts (fun _ => True) (set_l7 c).
Proof. intros st _ _. split; [apply frame_set_l7|done]. Qed.

Lemma keeps_handle_dns ts event t : keeps ts (fun _ => True) (handle_dns event t).
Proof.
  unfold handle_dns. destruct (DNSFragment_of _ _ _) as [f|e]; [|by apply keeps_ret].
  eapply keeps_bind; [apply keeps_enrich_fragment|]. intros o _.
  eapply keeps_bind; [apply keeps_get|]. intros c _.
  destruct (Dns.Correlator_Process c _) as [[c' transactions]|]; [|by apply keeps_ret].
  eapply keeps_bind; [apply keeps_set_dns|]. intros _ _.
  apply keeps_encodeCollected, not_late_map. intros a H. exact H.
Qed.

Lemma keeps_handle_l7 ts event t : keeps ts (fun _ => True) (handle_l7 event t).
Proof.
  unfold handle_l7. destruct (L7Fragment_of _ _ _) as [f|e]; [|by apply keeps_ret].
  eapply keeps_bind; [apply keeps_enrich_fragment|]. intros o _.
  eapply keeps_bind; [apply keeps_get|]. intros c _.
  destruct (L7.Correlator_Process c _) as [c' outputs].
  eapply keeps_bind; [apply keeps_set_l7|]. intros _ _.
  apply keeps_encodeCollected, not_late_map, l7_record_not_late.
Qed.

Lemma handle_egress_inv st o : inv st -> mark_le st (ob_ObservedAt o) -> inv (handle_egress o st).1.
Proof.
  intros I Ho. unfold handle_egress.
  set (ts := ob_ObservedAt o :: pending_times st).
  assert (Hts : Forall (mark_le st) ts) by (apply Forall_cons; split; [done|by apply inv_pending_times]).
  assert (Hsub : pending_times st ⊆ ts) by (intros x; apply list_elem_of_further).
  unfold bind at 1, get.
  eapply (inv_bind st ts); [done|by apply keeps_supersede, pending_remains|done|].
  intros st1 [e remaining] I1 F1 Hr. cbn [snd] in Hr.
  assert (Hts1 : Forall (mark_le st1) ts).
  { eapply Forall_impl; [exact Hts|]. intros t. by apply frame_mark_le. }
  pose proof (inv_set_pending st1 ts remaining I1 Hts1 Hr) as I2. unfold bind at 1.
  destruct (set_pending remaining st1) as [st2 []] eqn:E2. cbn [fst] in I2.
  assert (Hts2 : Forall (mark_le st2) ts) by (replace st2 with (set_pending remaining st1).1 by (by rewrite E2); done).
  clear E2. destruct (negb (nil_error e)); [done|].
  apply (inv_bind st2 ts (fun _ => True)); [done|apply keeps_react; [apply clock_elapsed|done]|done|].
  intros st3 t I3 F3 _. set (item := mkPendingResolution o _ _).
  assert (Hts3 : Forall (mark_le st3) ts).
  { eapply Forall_impl; [exact Hts2|]. intros x. by apply frame_mark_le. }
  assert (Hitem : item_in ts item) by (unfold item_in; cbn; apply list_elem_of_here).
  destruct (_ && (length remaining <? maxPendingResolutions)%nat) eqn:Em.
  - apply andb_true_iff in Em as [_ Em]. apply Nat.ltb_lt in Em. destruct Hr as [Hr _].
    apply (inv_set_pending st3 ts); [done|done|]. split; [|rewrite length_app; cbn [length]; lia].
    apply Forall_app. split; [done|]. apply Forall_cons. by split; [|apply Forall_nil].
  - eapply (inv_done st3 ts); [done|by apply keeps_encode_resolution|done].
Qed.

Lemma handle_flow_inv st event t : inv st -> mark_le st t -> inv (handle_flow event t st).1.
Proof.
  intros I Ht. unfold handle_flow. destruct (Observation_of _ _ _) as [o|e] eqn:Eo; [|done].
  apply Observation_time in Eo.
  eapply (inv_bind st []); [done|apply keeps_resolveObservation|by apply Forall_nil|].
  intros st1 o1 I1 F1 E1.
  eapply (inv_bind st1 []); [done|apply keeps_attachProcess|by apply Forall_nil|].
  intros st2 o2 I2 F2 E2.
  assert (H2 : mark_le st2 (ob_ObservedAt o2)).
  { rewrite E2, E1, Eo. eapply frame_mark_le; [exact F2|]. by eapply frame_mark_le. }
  destruct (_ && _); [by apply handle_egress_inv|].
  eapply (inv_done st2 [ob_ObservedAt o2]); [done| |by apply Forall_cons; split; [|apply Forall_nil]].
  apply keeps_encode_observation; [apply list_elem_of_here|]. intros o' H. exact H.
Qed.

Lemma handle_event_inv st event t : inv st -> mark_le st t -> inv (handle_event event t st).1.
Proof.
  intros I Ht. unfold handle_event. destruct (_ =? _).
  - destruct (L7CoverageDrop_of _ _ _) as [d|e]; [|done].
    eapply (inv_done st []); [done|apply keeps_encode_typed; intros H; exact H|by apply Forall_nil].
  - destruct (_ =? _); [eapply (inv_done st []); [done|apply keeps_handle_dns|by apply Forall_nil]|].
    destruct (_ =? _); [eapply (inv_done st []); [done|apply keeps_handle_l7|by apply Forall_nil]|].
    by apply handle_flow_inv.
Qed.

Lemma receive_inv st : inv st -> inv (receive st).1.
Proof.
  intros I. unfold receive, bind at 1 2 3, get. destruct (ap_inflight st) as [|incoming l] eqn:El.
  { eapply inv_frame; [exact I|apply frame_set_loop]. }
  unfold bind at 1. destruct (set_inflight l st) as [st1 []] eqn:E1.
  unfold bind at 1. destruct (progress_consume st1) as [st2 []] eqn:E2.
  unfold set_inflight in E1. unfold progress_consume, bind, get, set_progress in E2.
  injection E1 as <-. injection E2 as <-. cbn [ap_progress].
  assert (Hin : te_observedAt incoming ∈ cp_outstanding (ap_progress st)).
  { rewrite <- (iv_inflight _ I), El. apply list_elem_of_here. }
  assert (Ht : mark_le st (te_observedAt incoming)) by (eapply mark_le_in; [apply I|done]).
  assert (I2 : inv (mkApp (ap_world st) (ap_log st) (ap_output st)
      (mkProgress (cp_cutoff (ap_progress st)) (cp_ended (ap_progress st)) (tail (cp_outstanding (ap_progress st))))
      l (ap_pumping st) (ap_count st) (ap_open st) (ap_cancelled st) (ap_pending st) (ap_readErr st) (ap_l7 st)
      (ap_dns st))).
  { destruct I as [I1 I2 I3 I4 I5 I6 I7 I8 I9]. rewrite El in I8. cbn [length] in I8.
    split; try done; try (cbn [ap_inflight]; lia); cbn.
    - destruct (cp_outstanding (ap_progress st)); [done|]. by apply Forall_cons in I4 as [_ I4].
    - rewrite <- I5, El. done. }
  destruct (te_event incoming) as [event|]; [by apply handle_event_inv|].
  eapply inv_frame; [exact I2|apply frame_set_loop].
Qed.

Lemma tick_inv st : inv st -> inv (tick st).1.
Proof.
  intros I. unfold tick. set (ts := pending_times st).
  assert (Hts : Forall (mark_le st) ts) by (by apply inv_pending_times). unfold bind at 1, get at 1.
  eapply (inv_bind st ts); [done|by apply keeps_retry, pending_remains|done|].
  intros st1 [e remaining] I1 F1 Hr. cbn [snd] in Hr.
  assert (Hts1 : Forall (mark_le st1) ts).
  { eapply Forall_impl; [exact Hts|]. intros t. by apply frame_mark_le. }
  pose proof (inv_set_pending st1 ts remaining I1 Hts1 Hr) as I2. unfold bind at 1.
  destruct (set_pending remaining st1) as [st2 []]. cbn [fst] in I2.
  destruct (negb (nil_error e)); [done|]. unfold bind at 1.
  pose proof (watermark_spec st2 I2) as Hw. destruct (progress_watermark st2) as [st3 t3].
  destruct Hw as (F3 & _ & _). pose proof (inv_frame _ _ I2 F3) as I3. unfold bind at 1, get at 1.
  destruct (Dns.Expire (ap_dns st3) t3) as [[c transactions]|]; [|done]. unfold bind at 1.
  pose proof (inv_frame _ _ I3 (frame_set_dns st3 c)) as I4. destruct (set_dns c st3) as [st4 []]. cbn [fst] in I4.
  apply inv_try.
  - eapply (inv_done st4 []); [done| |by apply Forall_nil].
    apply keeps_encodeCollected, not_late_map. intros a H. exact H.
  - intros st5 I5. unfold bind at 1. pose proof (watermark_spec st5 I5) as Hw.
    destruct (progress_watermark st5) as [st6 t6]. destruct Hw as (F6 & Hc & Ho).
    unfold bind at 1, get at 1. destruct (earliest_le t6 (pending_times st6)) as [L1 L2].
    apply output_Flush_inv; [by eapply inv_frame|unfold pending_times in *; lia| |done].
    eapply Forall_impl; [exact Ho|]. cbn. unfold pending_times in *. lia.
Qed.

Lemma take_choice_inv st c : inv st -> enabled st c = true -> inv (take_choice c st).1.
Proof.
  intros I He. destruct c as [r| | |r| |]; cbn [take_choice enabled] in *; try done;
    try apply andb_true_iff in He as [_ He].
  - apply Nat.leb_le in He. unfold bind. pose proof (pump_inv st r I He). by destruct (pump r st).
  - by apply receive_inv.
  - by apply tick_inv.
  - by apply cancel_inv.
Qed.

Lemma loop_inv choices st : inv st -> inv (loop choices st).1.
Proof.
  revert st. induction choices as [|c choices IH]; intros st I; cbn [loop]; unfold bind, get;
    (destruct (negb (_ || _)); [done|]); (destruct (_ && _); [|]).
  1, 3: eapply (inv_done st (pending_times st)); [done|apply keeps_finalize, pending_item_in|by apply inv_pending_times].
  - done.
  - destruct (enabled st c) eqn:He; [|by apply IH]. apply inv_try; [by apply take_choice_inv|exact IH].
Qed.

(** *** The end of a run *)

Lemma Finish_config s t : st_config (Stream.Finish s t).1 = st_config s.
Proof.
  unfold Stream.Finish. destruct (st_finished s); [done|]. destruct (Flush_marks s t) as [E _].
  by destruct (Stream.Flush s t).
Qed.

Lemma output_Close_no_late st : stream_ok st -> no_late (ap_log st) -> no_late (ap_log (output_Close st).1).
Proof.
  intros Hs Hl. unfold output_Close, bind at 1, get.
  assert (K : forall (m : M errors) st1, stream_ok st1 -> no_late (ap_log st1) -> keeps [] (fun _ => True) m ->
    no_late (ap_log (m st1).1)).
  { intros m st1 Hs1 Hl1 Hm. destruct (Hm st1 Hs1 (Forall_nil_2 _)) as [F _]. by apply F. }
  destruct (eo_stream (ap_output st)) as [s|] eqn:Es.
  2: { apply K; [done|done|]. eapply keeps_bind; [by apply (keeps_ret _ (fun _ => True))|]. intros e1 _.
       eapply keeps_bind; [apply keeps_reportExportLoss|]. intros e2 _. by apply keeps_ret. }
  unfold bind at 1 2. destruct (keeps_progress_time [] st Hs (Forall_nil_2 _)) as [F _].
  destruct (progress_time st) as [st1 t]. cbn [fst] in F. pose proof (Finish_config s t) as Ec.
  destruct (Stream.Finish s t) as [s' windows]. cbn [fst] in Ec. unfold bind at 1.
  destruct (set_stream s' st1) as [st2 []] eqn:E2.
  assert (E : st2 = (set_stream s' st1).1) by (by rewrite E2). clear E2.
  assert (Hs2 : stream_ok st2).
  { subst st2. intros c b w. unfold marks. cbn. intros [= <- _ _].
    apply (Hs _ (st_hasWatermark s) (st_watermark s)). unfold marks. rewrite Es. cbn. by rewrite Ec. }
  assert (Hl2 : no_late (ap_log st2)) by (subst st2; by apply (fr_log _ _ F)).
  clear E. destruct (keeps_encodeWindows [] windows [] st2 Hs2 (Forall_nil_2 _)) as [F2 _].
  destruct (encodeWindows windows [] st2) as [st3 e1]. cbn [fst] in F2.
  apply K; [by eapply frame_stream_ok|by apply F2|].
  eapply keeps_bind; [apply keeps_reportExportLoss|]. intros e2 _. by apply keeps_ret.
Qed.

Lemma start_inv w stream :
  stream = None \/ (exists config s, NewStream config = Ok s /\ stream = Some s) -> inv (start w stream).
Proof.
  intros H. assert (Hm : forall c b x, marks (start w stream) = Some (c, b, x) ->
    b = false /\ 0 < WindowSize c /\ 0 <= AllowedLateness c).
  { destruct H as [->|(config & s & Hs & ->)]; [by intros c b x Hx|]. unfold NewStream in Hs.
    destruct (Z.leb_spec (WindowSize config) 0); [done|].
    destruct (Z.ltb_spec (AllowedLateness config) 0); [done|].
    destruct (MaxWindows config <? 0); [done|]. injection Hs as <-.
    intros c b x. unfold marks. cbn. intros [= <- <- <-]. destruct (_ =? _); cbn; lia. }
  split; try done; try (by apply Forall_nil); try apply Nat.le_0_l.
  - intros c b x Hx. by apply Hm in Hx as [_ Hx].
  - intros c x Hx. by apply Hm in Hx as [Hx _].
Qed.

Lemma RunEvents_no_late choices last st : inv st -> no_late (ap_log (RunEvents choices last st).1).
Proof.
  intros I. unfold RunEvents, bind at 1 2, get.
  pose proof (loop_inv choices st I) as I1. destruct (loop choices st) as [st1 retErr]. cbn [fst] in I1.
  unfold bind at 1. set (m := if ap_cancelled st1 then ret tt else _).
  assert (I2 : inv (m st1).1) by (
    unfold m; destruct (ap_cancelled st1); [done|by apply stop_pump_inv]).
  destruct (m st1) as [st2 []]. cbn [fst] in I2. clear m. unfold bind at 1.
  destruct (keeps_progress_time [] st2 (iv_stream _ I2) (Forall_nil_2 _)) as [F _].
  destruct (progress_time st2) as [st3 t]. cbn [fst] in F. pose proof (inv_frame _ _ I2 F) as I3.
  unfold bind at 1 2, get.
  set (m := match Dns.Finish _ _ with Some _ => _ | None => _ end).
  assert (I4 : inv (m st3).1).
  { unfold m. destruct (Dns.Finish (ap_dns st3) t) as [[c transactions]|]; [|done].
    eapply (inv_done st3 []); [done| |by apply Forall_nil].
    eapply keeps_bind; [apply keeps_set_dns|]. intros _ _. apply keeps_encodeCollected, not_late_map. intros a H. exact H. }
  destruct (m st3) as [st4 e]. cbn [fst] in I4. clear m. unfold bind at 1.
  pose proof (output_Close_no_late st4 (iv_stream _ I4) (iv_log _ I4)) as H.
  destruct (output_Close st4) as [st5 closeErr]. exact H.
Qed.

(** *** The drain after a cancellation *)

(** What decides which choices are enabled *)
Definition control (st : state) : list timedEvent * bool * bool * bool :=
  (ap_inflight st, ap_pumping st, ap_open st, ap_cancelled st).

Definition stays {A} (m : M A) : Prop := forall st, control (m st).1 = control st.

Lemma stays_ret {A} (a : A) : stays (ret a).
Proof. done. Qed.

Lemma stays_get {A} (f : state -> A) : stays (get f).
Proof. done. Qed.

Lemma stays_react {A} (f : W -> W * A) : stays (react f).
Proof. intros st. unfold react. by destruct (f (ap_world st)). Qed.

Lemma stays_bind {A B} (m : M A) (f : A -> M B) : stays m -> (forall a, stays (f a)) -> stays (bind m f).
Proof.
  intros Hm Hf st. unfold bind. specialize (Hm st). destruct (m st) as [st' a]. cbn [fst] in Hm.
  rewrite <- Hm. apply Hf.
Qed.

Lemma stays_write r : stays (write r).
Proof. apply stays_bind; [apply stays_react|done]. Qed.

Create HintDb stays.
#[local] Hint Resolve stays_ret stays_get stays_react stays_bind stays_write : stays.

(** Straight-line code whose parts do not touch the loop's control *)
Ltac stay :=
  repeat first
    [ progress intros
    | solve [auto with stays]
    | apply stays_bind
    | match goal with |- stays (if ?b then _ else _) => destruct b end
    | match goal with |- stays (match ?x with _ => _ end) => destruct x end ].

Lemma stays_set_output o : stays (set_output o).
Proof. done. Qed.
Lemma stays_set_pending l : stays (set_pending l).
Proof. done. Qed.
Lemma stays_set_dns c : stays (set_dns c).
Proof. done. Qed.
Lemma stays_set_l7 c : stays (set_l7 c).
Proof. done. Qed.

#[local] Hint Resolve stays_set_output stays_set_pending stays_set_dns stays_set_l7 : stays.

Lemma stays_encode_typed r : stays (encode_typed r).
Proof. unfold encode_typed, try_, exportTyped, set_failure. stay. Qed.

Lemma stays_encode_observation wrap o : stays (encode_observation wrap o).
Proof. unfold encode_observation, try_, aggregate_observation, set_stream, now. stay. Qed.

Lemma stays_encodeCollected records e : stays (encodeCollected records e).
Proof.
  revert e. induction records as [|r records IH]; intros e; cbn [encodeCollected]; [done|].
  apply stays_bind; [apply stays_encode_typed|auto].
Qed.

Lemma stays_resolveObservation o : stays (resolveObservation o).
Proof. unfold resolveObservation. stay. Qed.

Lemma stays_attachProcess pid o : stays (attachProcess pid o).
Proof. unfold attachProcess. stay. Qed.

#[local] Hint Resolve stays_encode_typed stays_encode_observation stays_encodeCollected stays_resolveObservation
  stays_attachProcess : stays.

Lemma stays_supersede key items remaining : stays (supersede key items remaining).
Proof.
  revert remaining. induction items as [|item items IH]; intros remaining; cbn [supersede]; [done|].
  unfold encode_resolution. stay.
Qed.

Lemma stays_finalize items : stays (finalize items).
Proof. induction items as [|item items IH]; cbn [finalize]; [done|]. unfold try_, encode_resolution. stay. Qed.

#[local] Hint Resolve stays_supersede stays_finalize : stays.

Lemma stays_handle_event event t : stays (handle_event event t).
Proof.
  unfold handle_event, handle_dns, handle_l7, handle_flow, handle_egress, enrich_fragment, encode_resolution. stay.
Qed.

(** How many receives the loop is from its end *)
Definition distance (st : state) : nat := if ap_open st then S (length (ap_inflight st)) else 0.

Definition draining (st : state) : Prop := ap_cancelled st = true /\ ap_pumping st = false.

Lemma receive_drains st :
  draining st -> ap_open st = true -> draining (receive st).1 /\ (distance (receive st).1 < distance st)%nat.
Proof.
  intros [Hc Hp] Ho. destruct (receive st) as [st' e] eqn:E. cbn [fst]. unfold distance at 2. rewrite Ho.
  unfold receive, bind at 1 2 3, get in E. destruct (ap_inflight st) as [|incoming l].
  { cbn in E. injection E as <- <-. cbn. rewrite Hc. split; [by split|lia]. }
  unfold progress_consume, set_inflight, set_progress, bind, get in E. cbn [ap_progress] in E.
  destruct (te_event incoming) as [event|].
  - set (st1 := mkApp _ _ _ _ _ _ _ _ _ _ _ _ _) in E.
    pose proof (stays_handle_event event (te_observedAt incoming) st1) as E1. rewrite E in E1.
    unfold control in E1. injection E1 as El Ep Eo Ec. unfold draining, distance.
    rewrite Ec, Ep, Eo, El. cbn. rewrite Ho. cbn. split; [by split|lia].
  - cbn in E. injection E as <- <-. cbn. split; [by split|lia].
Qed.

Fixpoint receives (choices : list choice) : nat :=
  match choices with
  | [] => 0
  | Receive :: choices' => S (receives choices')
  | _ :: choices' => receives choices'
  end.

Lemma loop_drains choices more st :
  draining st -> (distance st <= receives choices)%nat ->
  loop (choices ++ more) st = loop choices st /\
  ((loop choices st).2 = [] -> ap_open (loop choices st).1 = false).
Proof.
  revert st. induction choices as [|c choices IH]; intros st Hd Hn.
  - destruct Hd as [Hc Hp]. unfold distance in Hn. cbn in Hn.
    destruct (ap_open st) eqn:Ho; [lia|]. rewrite app_nil_l.
    destruct more as [|c more]; cbn [loop]; unfold bind, get; rewrite Ho, Hc; cbn [andb orb negb];
      (destruct (negb _); [by cbn; rewrite ?Ho|]); split; try done; intros _;
      pose proof (stays_finalize (ap_pending st) st) as E; unfold control in E; congruence.
  - pose proof Hd as [Hc Hp]. rewrite <- app_comm_cons. cbn [loop]. unfold bind, get. rewrite Hc.
    destruct (negb (ap_open st || _)) eqn:E1.
    { split; [done|]. cbn. intros _. apply negb_true_iff, orb_false_iff in E1. apply E1. }
    destruct (ap_open st) eqn:Ho; cbn [andb negb].
    2: { split; [done|]. intros _. pose proof (stays_finalize (ap_pending st) st) as E. unfold control in E. congruence. }
    destruct (enabled st c) eqn:He.
    2: { apply IH; [done|]. destruct c; cbn in Hn; try exact Hn.
         unfold enabled in He. rewrite Ho, Hp in He. cbn in He. by rewrite orb_true_r in He. }
    destruct c as [r| | |r| |]; cbn [enabled] in He; unfold reading in He; rewrite ?Hc, ?Hp in He; try done;
      unfold try_, bind; cbn [take_choice].
    destruct (receive_drains st Hd Ho) as [Hd' Hn']. destruct (receive st) as [st' e]. cbn [fst] in *.
    destruct (nil_error e) eqn:Ee; [|split; [done|]; cbn; by intros ->].
    apply IH; [done|]. cbn in Hn. lia.
Qed.

Lemma cancel_draining st r : draining (cancel r st).1.
Proof.
  unfold cancel, bind. destruct (stop_pump r st) as [st1 []] eqn:E. cbn. split; [done|].
  unfold stop_pump, bind in E. destruct (progress_finish st) as [st2 []].
  destruct (last_reads r st2) as [st3 []]. cbn in E. by injection E as <-.
Qed.

(** C4. The event loop never loses an observation to its own watermark:
    whatever the pump reads and whichever case each select takes, with reads
    still in the channel, establishments waiting for their backend, a
    cancellation or an early return, no observation of a capture is reported
    as late. The watermark a tick flushes to is behind every read that has not
    been received and every item that has not been resolved. *)
Theorem never_late config s w choices last :
  NewStream config = Ok s -> no_late (ap_log (RunEvents choices last (start w (Some s))).1).
Proof. intros Hs. apply RunEvents_no_late, start_inv. right. by exists config, s. Qed.

(** C20. The memory of the event loop is bounded in every output mode and at
    every point of every run: no more events than the channel holds and the
    one blocked behind it have been read and not received, each of them pins
    the watermark, and no more than maxPendingResolutions establishments wait
    for their backend. *)
Theorem memory_bounded w stream choices :
  (stream = None \/ exists config s, NewStream config = Ok s /\ stream = Some s) ->
  let st := (loop choices (start w stream)).1 in
  (length (ap_inflight st) <= S pump_capacity)%nat /\
  te_observedAt <$> ap_inflight st = cp_outstanding (ap_progress st) /\
  (length (ap_pending st) <= maxPendingResolutions)%nat.
Proof. intros H. destruct (loop_inv choices _ (start_inv w stream H)). done. Qed.

(** C19. A cancellation ends the loop: wherever it arrives, once the select
    has taken the stream's case as often as the channel has room, and twice
    more, the loop has returned, so that no further choice changes what it
    did; without an error it has received the whole stream. *)
Theorem cancel_ends w stream before reads choices more :
  (stream = None \/ exists config s, NewStream config = Ok s /\ stream = Some s) ->
  enabled (loop before (start w stream)).1 (Cancel reads) = true ->
  (S (S pump_capacity) <= receives choices)%nat ->
  let st := (cancel reads (loop before (start w stream)).1).1 in
  loop (choices ++ more) st = loop choices st /\
  ((loop choices st).2 = [] -> ap_open (loop choices st).1 = false).
Proof.
  intros Hs He Hn. pose proof (loop_inv before _ (start_inv w stream Hs)) as I.
  pose proof (iv_capacity _ (cancel_inv _ reads I)) as Hl.
  apply loop_drains; [apply cancel_draining|]. unfold distance. destruct (ap_open _); lia.
Qed.
End app.

(** ** A concrete run *)

(** A clock that ticks at every reading; no resolver, process, Pod or exporter
    answers. *)
#[local] Instance example_world : World Time := {|
  world_now w := (w + 1, w);
  world_elapsed w := (w + 1, w);
  world_Resolve _ _ _ w := (w, None);
  world_ResolveAfter _ _ _ _ w := (w, None);
  world_Lookup _ w := (w, None);
  world_Enrich o w := (w, o);
  world_Encode _ w := (w, None);
  world_Export _ w := (w, None);
  world_ExportTyped _ w := (w, None);
  world_Dropped w := (w, 0)
|}.

#[local] Instance example_world_laws : WorldLaws Time.
Proof. by exists (fun w => w); intros; cbn; try lia. Defined.

#[local] Instance example_hpack : Hpack unit := Http2.example_hpack.
#[local] Instance example_range1 : MapRange connectionKey pendingRequest := canonical_range _ _.
#[local] Instance example_range2 : MapRange http2StreamKey pendingRequest := canonical_range _ _.
#[local] Instance example_range3 : MapRange aggregateKey Window := canonical_range _ _.

Definition example_options : options := mkOptions "node" "both" 0 true true true true false false.
Definition example_config : StreamConfig := mkStreamConfig 5 0 16.

Definition example_connect (port : Z) : Event :=
  mkEvent EventKindConnect 0 0 77 1 42 42 AddressFamilyIPv4 ProtocolTCP TCPStateSynSent TCPStateEstablished
    0 0 0 0 port 443 (replicate 16 x0a) (replicate 16 x0b) [] "" 0.

(** Two establishments are read; one is received and waits for its backend
    while ticks flush, and the capture is cancelled with the other in flight. *)
Definition example_choices : list choice :=
  [Pump (ReadEvent (example_connect 40000)); Pump (ReadEvent (example_connect 40001)); Tick; Receive;
   Tick; Tick; Tick; Tick; Cancel [ReadEvent (example_connect 40002); ReadEOF]; Receive; Receive; Receive].


Definition example_stream : Stream := mkStream example_config ∅ 0 false false.

Definition example_start : app Time unit := start unix_epoch (Some example_stream).

Lemma never_late_witness :
  NewStream example_config = Ok example_stream /\
  length (ap_log (RunEvents example_options example_choices [] example_start).1) = 6%nat /\
  no_late (ap_log (RunEvents example_options example_choices [] example_start).1).
Proof.
  split; [reflexivity|]. split; [vm_compute; reflexivity|].
  apply (never_late example_options example_config). reflexivity.
Defined.

Lemma memory_bounded_witness :
  let st := (loop example_options (take 5 example_choices) example_start).1 in
  length (ap_inflight st) = 1%nat /\ length (ap_pending st) = 1%nat /\
  te_observedAt <$> ap_inflight st = cp_outstanding (ap_progress st).
Proof.
  split; [vm_compute; reflexivity|]. split; [vm_compute; reflexivity|].
  apply (memory_bounded example_options unix_epoch (Some example_stream) (take 5 example_choices)).
  right. exists example_config, example_stream. split; reflexivity.
Defined.

Lemma cancel_ends_witness :
  let st := (cancel example_options [ReadEvent (example_connect 40002); ReadEOF] (loop example_options (take 8 example_choices) example_start).1).1 in
  length (ap_inflight st) = 3%nat /\
  loop example_options (replicate 66 Receive ++ [OutputFailed]) st = loop example_options (replicate 66 Receive) st.
Proof.
  split; [vm_compute; reflexivity|].
  apply (cancel_ends example_options unix_epoch (Some example_stream) (take 8 example_choices) [ReadEvent (example_connect 40002); ReadEOF]
    (replicate 66 Receive) [OutputFailed]).
  - right. exists example_config, example_stream. split; reflexivity.
  - vm_compute. reflexivity.
  - vm_compute. lia.
Defined.
