(* ===== verification/AppLogic.v ===== *)
(** * internal/app: invariants of the event loop

    What a part of the event loop of [App] keeps, when it returns no error:
    rules for the state monad, and the loop as a whole, for any property of
    the state that the reactions of the world, the bookkeeping and the writes
    of records keep. [AppOutput] and [AppDelivery] are two such properties. *)

From S2P Require Import Prelude Flow Window Stream Dns L7Types Http2 L7 Collector App.

#[local] Open Scope Z_scope.

(** ** Definitions *)

Section logic.
Context {W : Type} {WW : World W}.
Context {D : Type} {HD : Hpack D}.
Context {R1 : MapRange connectionKey pendingRequest} {R2 : MapRange http2StreamKey pendingRequest}.
Context {RW : MapRange aggregateKey Window}.
Context (opts : options).

#[local] Abbreviation state := (app W D).
#[local] Abbreviation Act := (App.M (W := W) (D := D)).
#[local] Abbreviation failures := (list AppError).

Section rules.
Context (P : state -> Prop).

(** Some code takes [P] to [Q], or keeps it, when its result is good. *)
Definition ends (Q : state -> Prop) {A} (good : A -> Prop) (m : Act A) : Prop :=
  forall st, P st -> good (m st).2 -> Q (m st).1.

Definition safe {A} (good : A -> Prop) (m : Act A) : Prop := ends P good m.

#[local] Abbreviation quiet := (safe (fun _ => True)).
#[local] Abbreviation clean := (safe (fun e : failures => e = [])).

(** Encode of a record that is exported *)
Definition typed (r : record) : Prop := match r with RecL7 _ | RecDNS _ | RecDrop _ => True | _ => False end.

(** A record about an observation *)
Definition observed (r : record) : Prop :=
  match r with RecObservation _ | RecResolved _ _ | RecAggregationDrop _ _ _ _ => True | _ => False end.

(** What the loop is built of keeps [P]. *)
Class Kept : Prop := {
  kept_now : quiet (react world_now);
  kept_elapsed : quiet (react world_elapsed);
  kept_Resolve p s d : quiet (react (world_Resolve p s d));
  kept_ResolveAfter p s d t : quiet (react (world_ResolveAfter p s d t));
  kept_Lookup pid : quiet (react (world_Lookup pid));
  kept_Enrich o : quiet (react (world_Enrich o));
  kept_progress p : quiet (set_progress p);
  kept_inflight l : quiet (set_inflight l);
  kept_pumping b c : quiet (set_pumping b c);
  kept_loop a b e : quiet (set_loop a b e);
  kept_pending l : quiet (set_pending l);
  kept_l7 c : quiet (set_l7 c);
  kept_dns c : quiet (set_dns c);
  kept_stream s : quiet (set_stream s);
  kept_write r : observed r -> clean (write r);
  kept_typed r : typed r -> clean (encode_typed opts r);
  kept_windows windows e : clean (encodeWindows opts windows e);
  kept_report : clean (reportExportLoss opts)
}.

(** ** Lemmas *)

Lemma safe_ret {A} (good : A -> Prop) a : safe good (ret a).
Proof. by intros st H _. Qed.

Lemma safe_get {A} (good : A -> Prop) (f : state -> A) : safe good (get f).
Proof. by intros st H _. Qed.

Lemma safe_quiet {A} (good : A -> Prop) (m : Act A) : quiet m -> safe good m.
Proof. intros Hm st H _. by apply Hm. Qed.

Lemma clean_quiet m : quiet m -> clean m.
Proof. apply safe_quiet. Qed.

Lemma ends_bind Q {A B} (mid : A -> Prop) (good : B -> Prop) (m : Act A) f :
  safe mid m -> (forall a, ends Q good (f a)) -> (forall a st, good (f a st).2 -> mid a) -> ends Q good (bind m f).
Proof.
  intros Hm Hf Hg st H. specialize (Hm st H). unfold bind. destruct (m st) as [st1 a]. cbn in Hm. intros G.
  apply Hf; [|done]. eapply Hm, Hg, G.
Qed.

Lemma ends_then Q {A B} (good : B -> Prop) (m : Act A) f :
  quiet m -> (forall a, ends Q good (f a)) -> ends Q good (bind m f).
Proof. intros Hm Hf. by eapply ends_bind. Qed.

(** What follows leaves the state as it is. *)
Lemma ends_last Q {A B} (good : A -> Prop) (good' : B -> Prop) (m : Act A) f :
  ends Q good m -> (forall a st, (f a st).1 = st) -> (forall a st, good' (f a st).2 -> good a) -> ends Q good' (bind m f).
Proof.
  intros Hm Hf Hg st H. specialize (Hm st H). unfold bind. destruct (m st) as [st1 a]. cbn in Hm.
  intros G. rewrite Hf. eapply Hm, Hg, G.
Qed.

Lemma safe_bind {A B} (mid : A -> Prop) (good : B -> Prop) (m : Act A) f :
  safe mid m -> (forall a, safe good (f a)) -> (forall a st, good (f a st).2 -> mid a) -> safe good (bind m f).
Proof. apply ends_bind. Qed.

Lemma safe_then {A B} (good : B -> Prop) (m : Act A) f : quiet m -> (forall a, safe good (f a)) -> safe good (bind m f).
Proof. apply ends_then. Qed.

Lemma clean_try (m k : Act failures) : clean m -> clean k -> clean (try_ m k).
Proof.
  intros Hm Hk. unfold try_. eapply safe_bind; [exact Hm| |].
  - intros e. destruct (nil_error e); [exact Hk|apply safe_ret].
  - intros e st. destruct e; [done|]. cbn. by intros ->.
Qed.

Lemma clean_both (m k : Act failures) : clean m -> clean k -> clean (bind m (fun e1 => bind k (fun e2 => ret (e1 ++ e2)))).
Proof.
  intros Hm Hk. eapply safe_bind; [exact Hm| |].
  - intros e1. eapply safe_bind; [exact Hk|intros e2; apply safe_ret|]. intros e2 st. cbn. by intros [_ ->]%app_eq_nil.
  - intros e1 st. unfold bind. destruct (k st) as [st' e2]. cbn. by intros [-> _]%app_eq_nil.
Qed.

Context {K : Kept}.

Create HintDb kept.
#[local] Hint Resolve safe_ret safe_get kept_now kept_elapsed kept_Resolve kept_ResolveAfter kept_Lookup kept_Enrich
  kept_progress kept_inflight kept_pumping kept_loop kept_pending kept_l7 kept_dns kept_stream kept_windows kept_report
  kept_typed : kept.

(** Straight-line code: quiet parts, then a part that keeps [P] *)
Ltac walk :=
  repeat first
    [ match goal with |- forall _, _ => intro end
    | solve [auto with kept]
    | match goal with
      | |- safe _ (bind _ (fun e1 => bind _ (fun e2 => ret (e1 ++ e2)))) => apply clean_both
      | |- safe _ (bind _ _) => apply safe_then; [solve [walk]|]
      | |- safe _ (try_ _ _) => apply clean_try
      | |- safe _ (if ?b then _ else _) => destruct b
      | |- safe _ (match ?x with _ => _ end) => destruct x
      end ].

(** *** Records *)

Lemma clean_aggregate_observation o : clean (aggregate_observation o).
Proof. unfold aggregate_observation, now. walk; by apply kept_write. Qed.

Lemma clean_encode_observation wrap o : (forall o, observed (wrap o)) -> clean (encode_observation opts wrap o).
Proof.
  intros Hw. unfold encode_observation. walk; [apply clean_aggregate_observation|by apply kept_write].
Qed.

Lemma clean_encode_resolution item reason : clean (encode_resolution opts item reason).
Proof. by apply clean_encode_observation. Qed.

(** Every record of a list is encoded, and the first error is returned. *)
Lemma encodeCollected_first records (first : failures) (st : state) : (encodeCollected opts records first st).2 = [] -> first = [].
Proof.
  revert first st. induction records as [|x l IHl]; intros first st; cbn [encodeCollected]; [done|]. unfold bind.
  destruct (encode_typed opts x st) as [st1 a]. intros Ha%IHl. by destruct first.
Qed.

Lemma clean_encodeCollected records e : Forall typed records -> clean (encodeCollected opts records e).
Proof.
  intros H. revert e. induction H as [|r records Hr _ IH]; intros e; cbn [encodeCollected]; [apply safe_ret|].
  eapply safe_bind; [by apply kept_typed|intros a; apply IH|].
  intros a st Ha%encodeCollected_first. by destruct e.
Qed.

Lemma typed_dns (ts : list Dns.Transaction) : Forall typed (RecDNS <$> ts).
Proof. by apply Forall_fmap, Forall_true. Qed.

Lemma typed_l7 (os : list Output) : Forall typed (l7_record <$> os).
Proof. apply Forall_fmap, Forall_true. by intros []. Qed.

Lemma clean_output_Flush t : clean (output_Flush opts t).
Proof.
  unfold output_Flush. walk.
Qed.

#[local] Hint Resolve clean_encode_resolution clean_output_Flush : kept.

(** *** Steps of the loop *)

Lemma quiet_resolveObservation o : quiet (resolveObservation opts o).
Proof. unfold resolveObservation. walk. Qed.

Lemma quiet_attachProcess pid o : quiet (attachProcess opts pid o).
Proof. unfold attachProcess. walk. Qed.

#[local] Hint Resolve quiet_resolveObservation quiet_attachProcess : kept.

Lemma quiet_enrich_fragment protocol pid t s d : quiet (enrich_fragment opts protocol pid t s d).
Proof. unfold enrich_fragment. walk. Qed.

Lemma quiet_progress_watermark : quiet progress_watermark.
Proof. unfold progress_watermark, now. walk. Qed.

Lemma quiet_progress_time : quiet progress_time.
Proof. unfold progress_time, now. walk. Qed.

Lemma quiet_pump r : quiet (pump opts r).
Proof. unfold pump, progress_accept, now. walk. Qed.

#[local] Hint Resolve quiet_enrich_fragment quiet_progress_watermark quiet_progress_time quiet_pump : kept.

Lemma quiet_last_reads reads : quiet (last_reads opts reads).
Proof. induction reads as [|r reads IH]; cbn [last_reads]; walk. Qed.

#[local] Hint Resolve quiet_last_reads : kept.

Lemma quiet_stop_pump reads : quiet (stop_pump opts reads).
Proof. unfold stop_pump, progress_finish, now. walk. Qed.

#[local] Hint Resolve quiet_stop_pump : kept.

(** A pass over the pending items that returns an error, and what remains *)
#[local] Abbreviation passing := (safe (fun r : failures * list pendingResolution => r.1 = [])).

Lemma passing_encode (m : Act failures) k rest :
  clean m -> passing k -> passing (bind m (fun e => if nil_error e then k else ret (e, rest))).
Proof.
  intros Hm Hk. eapply safe_bind; [exact Hm| |].
  - intros e. destruct (nil_error e); [exact Hk|apply safe_ret].
  - intros e st. by destruct e.
Qed.

Lemma passing_supersede key items remaining : passing (supersede opts key items remaining).
Proof.
  revert remaining. induction items as [|item items IH]; intros remaining; cbn [supersede]; [apply safe_ret|].
  destruct (bool_decide _); [apply passing_encode; [apply clean_encode_resolution|]|]; apply IH.
Qed.

Lemma passing_retry items remaining : passing (retry_pending opts items remaining).
Proof.
  revert remaining. induction items as [|item items IH]; intros remaining; cbn [retry_pending]; [apply safe_ret|].
  walk. apply passing_encode; [apply clean_encode_resolution|apply IH].
Qed.

(** Such a pass, then the store of what remains, then [k] *)
Lemma clean_pass (m : list pendingResolution -> Act (failures * list pendingResolution)) k :
  (forall items, passing (m items)) -> (forall remaining, clean (k remaining)) ->
  clean (bind (get ap_pending) (fun items => bind (m items) (fun r =>
    let '(e, remaining) := r in
    bind (set_pending remaining) (fun _ => if negb (nil_error e) then ret e else k remaining)))).
Proof.
  intros Hm Hk. apply safe_then; [apply safe_get|]. intros items. eapply safe_bind; [apply Hm| |].
  - intros [e remaining]. walk.
  - intros [e remaining] st. by destruct e.
Qed.

Lemma clean_handle_egress o : clean (handle_egress opts o).
Proof.
  apply (clean_pass (fun items => supersede opts (ob_Flow o) items [])
    (fun remaining => bind (react world_elapsed) (fun t =>
       let item := mkPendingResolution o (time_Add t resolutionGrace) 1 in
       if negb (bool_decide (is_Some (ob_DestinationResolved o))) && (length remaining <? maxPendingResolutions)%nat
       then bind (set_pending (remaining ++ [item])) (fun _ => ret [])
       else encode_resolution opts item "queue_full"))).
  - intros items. apply passing_supersede.
  - intros remaining. cbn zeta. walk.
Qed.

Lemma clean_handle_event event at_ : clean (handle_event opts event at_).
Proof.
  unfold handle_event, handle_dns, handle_l7, handle_flow. walk;
    first [by apply kept_typed | apply clean_encodeCollected; first [apply typed_dns | apply typed_l7] |
      apply clean_handle_egress | by apply clean_encode_observation].
Qed.

Lemma clean_tick : clean (tick opts).
Proof.
  apply (clean_pass (fun items => retry_pending opts items []) (fun _ => bind progress_watermark (fun t =>
    bind (get ap_dns) (fun c => match Dns.Expire c t with
    | None => ret [dns_panic]
    | Some (c, transactions) =>
        bind (set_dns c) (fun _ => try_ (encodeCollected opts (RecDNS <$> transactions) [])
          (bind progress_watermark (fun t => bind (get ap_pending) (fun items =>
             output_Flush opts (earliest t ((fun item => ob_ObservedAt (pn_observation item)) <$> items))))))
    end)))).
  - intros items. apply passing_retry.
  - walk. apply clean_encodeCollected, typed_dns.
Qed.

Lemma clean_finalize items : clean (finalize opts items).
Proof. induction items as [|item items IH]; cbn [finalize]; walk. Qed.

Lemma clean_take_choice c : clean (take_choice opts c).
Proof.
  destruct c; cbn [take_choice]; [walk| |apply clean_tick|unfold cancel; walk|apply safe_ret..].
  unfold receive, progress_consume. walk. apply clean_handle_event.
Qed.

Lemma clean_loop choices : clean (loop opts choices).
Proof.
  induction choices as [|c choices IH]; cbn [loop]; walk; try apply clean_finalize; apply clean_take_choice.
Qed.

(** The windows of the end of the output *)
Lemma clean_finish :
  clean (bind (get ap_output) (fun o => match eo_stream o with
    | None => ret []
    | Some s => bind progress_time (fun t =>
        let '(s, windows) := Stream.Finish s t in bind (set_stream s) (fun _ => encodeWindows opts windows []))
    end)).
Proof. walk. Qed.

(** The end of the output reports the losses last. *)
Lemma output_Close_ends Q : ends Q (fun e => e = []) (reportExportLoss opts) -> ends Q (fun e => e = []) (output_Close opts).
Proof.
  intros HQ. unfold output_Close. apply ends_then; [apply safe_get|]. intros o. eapply ends_bind.
  - instantiate (1 := fun e => e = []). walk.
  - intros e1. eapply ends_last; [exact HQ|done|]. intros e2 st. cbn. by intros [_ ->]%app_eq_nil.
  - intros e1 st. unfold bind. destruct (reportExportLoss opts st). cbn. by intros [-> _]%app_eq_nil.
Qed.

(** A run without errors keeps [P], and ends with what the last report
    establishes. *)
Lemma RunEvents_ends Q choices last :
  ends Q (fun e => e = []) (reportExportLoss opts) -> ends Q (fun e => e = []) (RunEvents opts choices last).
Proof.
  intros HQ. unfold RunEvents. eapply ends_bind; [apply clean_loop| |].
  2: { intros retErr st. unfold bind. repeat case_match; cbn; intros [_ [[-> _]%app_eq_nil _]%app_eq_nil]%app_eq_nil; done. }
  intros retErr. apply ends_then; [apply safe_get|]. intros cancelled.
  apply ends_then; [walk|]. intros _. apply ends_then; [walk|]. intros t.
  apply ends_then; [apply safe_get|]. intros c. eapply ends_bind.
  - instantiate (1 := fun e => e = []). destruct (Dns.Finish c t) as [[c' ts]|]; walk. apply clean_encodeCollected, typed_dns.
  - intros e. eapply ends_last; [by apply output_Close_ends|done|].
    intros e' st. cbn. intros [_ [_ ->]%app_eq_nil]%app_eq_nil. done.
  - intros e st. unfold bind. repeat case_match; cbn; intros [_ [[_ ->]%app_eq_nil _]%app_eq_nil]%app_eq_nil; done.
Qed.

End rules.
End logic.
