(* ===== verification/AppAccounts.v ===== *)
(** * internal/app and internal/flow: where every event of a capture goes

    The event loop of [App] drives the stream of [Stream]: what a run outputs
    is compared with the batch aggregation of what it read. Nothing here is
    code but the definitions both files have; the specification says which
    events are flows and what of an observation enrichment leaves alone. *)

From S2P Require Import Prelude NetIP NetAddr PodIdentity Flow Window Stream Dns L7Types Http2 L7 Collector App.

#[local] Open Scope Z_scope.

(** ** Specification *)

(** What was measured: the observation without what the program adds to it *)
Definition bare (o : Observation) : Observation :=
  mkObservation None None None (ob_ObservedAt o) (ob_KernelTimestampNS o) (ob_Flow o) None None None
    (ob_BytesTx o) (ob_BytesRx o) (ob_PacketsTx o) (ob_PacketsRx o) (ob_Retransmissions o) (ob_Losses o)
    (ob_RTT o) (ob_Jitter o).

(** The events that make an observation *)
Definition is_flow (event : Event) : bool :=
  negb (ev_Kind event =? EventKindL7CoverageDrop) && negb (ev_Kind event =? EventKindDNS) &&
  negb (ev_Kind event =? EventKindL7Fragment).

(** What an entry of the channel measures *)
Definition measured_by (node : string) (te : timedEvent) : list Observation :=
  match te_event te with
  | Some event =>
      if is_flow event then
        match Observation_of event node (te_observedAt te) with Ok o => [bare o] | Err _ => [] end
      else []
  | None => []
  end.

Definition measured (node : string) (l : list timedEvent) : list Observation := concat (measured_by node <$> l).

(** The windows and the drops of a log *)
Definition windows_of (log : list record) : list Window :=
  omap (fun r => match r with RecWindow w => Some w | _ => None end) log.

Definition drops_of (log : list record) : list (Time * FlowKey * string) :=
  omap (fun r => match r with RecAggregationDrop _ t key reason => Some (t, key, reason) | _ => None end) log.

(** A drop says which observation it is about, and why. *)
Definition drop_about (o : Observation) (d : Time * FlowKey * string) : Prop :=
  exists reason, reason ∈ ["late_observation"; "window_capacity"] /\ d = (ob_ObservedAt o, ob_Flow o, reason).

Section accounts.
Context {W : Type} {WW : World W}.
Context {D : Type} {HD : Hpack D}.
Context {R1 : MapRange connectionKey pendingRequest} {R2 : MapRange http2StreamKey pendingRequest}.
Context {RW : MapRange aggregateKey Window}.
Context (opts : options).
(** What is relied on: enriching an observation changes nothing measured. *)
Context (Enrich_bare : forall o (w : W), bare (world_Enrich o w).2 = bare o).
(** The stream the run starts with *)
Context (s0 : Stream).

#[local] Abbreviation state := (app W D).

(** The loop has returned, and not because the choices ended. *)
Definition ended (st : state) : Prop := ap_open st = false /\ (ap_pending st = [] \/ ap_cancelled st = true).

(** The entries the pump puts in the channel in a run of the loop *)
Fixpoint accepted (choices : list choice) (st : state) : list timedEvent :=
  match choices with
  | [] => []
  | c :: choices' =>
      if negb (ap_open st || negb (length (ap_pending st) =? 0)%nat) || (ap_cancelled st && negb (ap_open st)) then []
      else if enabled opts st c then
        let '(st', e) := take_choice opts c st in
        (match c with Pump _ | Cancel _ => drop (length (ap_inflight st)) (ap_inflight st') | _ => [] end) ++
        (if nil_error e then accepted choices' st' else [])
      else accepted choices' st
  end.

(** What the history of the stream emitted is in the log, or is still to be
    written, and what was encoded, [E], it accepted or dropped. *)
Definition follows (h : history) (E : list Observation) (unwritten : list Window) (st : state) : Prop :=
  exists dropped,
    eo_stream (ap_output st) = Some (hi_stream h) /\
    hi_emitted h = windows_of (ap_log st) ++ unwritten /\
    Forall2 drop_about dropped (drops_of (ap_log st)) /\
    bare <$> hi_accepted h ++ dropped ≡ₚ E.

(** The run so far is a run of the stream. *)
Definition tracks (E : list Observation) (st : state) : Prop := exists ops, follows (Stream.run s0 ops) E [] st.

(** Some code that returns no error encodes the observations [l], and does not
    change what is pending. *)
Definition encodes (m : M (W := W) (D := D) errors) (l : list Observation) : Prop :=
  forall E st, tracks E st ->
    let '(st', e) := m st in e = [] -> ap_pending st' = ap_pending st /\ tracks (E ++ l) st'.

(** Some code encodes nothing, whatever it returns. *)
Definition neutral {A} (Q : A -> Prop) (m : M (W := W) (D := D) A) : Prop :=
  forall h E st, follows h E [] st -> ap_pending (m st).1 = ap_pending st /\ follows h E [] (m st).1 /\ Q (m st).2.

(** ** Lemmas *)

Lemma nil_error_true (e : errors) : nil_error e = true <-> e = [].
Proof. by destruct e. Qed.

Lemma tracks_perm E E' st : E ≡ₚ E' -> tracks E st -> tracks E' st.
Proof. intros HE (ops & dropped & H1 & H2 & H3 & H4). exists ops, dropped. split_and!; [done..|by transitivity E]. Qed.

(** Only the stream and the log matter. *)
Lemma follows_same h E u (st st' : state) :
  eo_stream (ap_output st') = eo_stream (ap_output st) -> windows_of (ap_log st') = windows_of (ap_log st) ->
  drops_of (ap_log st') = drops_of (ap_log st) -> follows h E u st -> follows h E u st'.
Proof. intros H1 H2 H3 (dropped & ?). exists dropped. by rewrite H1, H2, H3. Qed.

Lemma neutral_tracks {A} (Q : A -> Prop) m E st :
  neutral Q m -> tracks E st -> ap_pending (m st).1 = ap_pending st /\ tracks E (m st).1 /\ Q (m st).2.
Proof. intros H [ops HE]. destruct (H _ _ _ HE) as (? & ? & ?). split_and!; [done|by exists ops|done]. Qed.

Lemma encodes_neutral m : neutral (fun _ => True) m -> encodes m [].
Proof. intros H E st HE. destruct (neutral_tracks _ _ _ _ H HE) as (Hp & Ht & _). rewrite app_nil_r. by destruct (m st). Qed.

Lemma neutral_ret {A} (Q : A -> Prop) a : Q a -> neutral Q (ret a).
Proof. by intros Ha h E st HE. Qed.

Lemma neutral_get {A} (f : state -> A) : neutral (fun _ => True) (get f).
Proof. by intros h E st HE. Qed.

Lemma neutral_bind {A B} (Q : A -> Prop) (Q' : B -> Prop) m (f : A -> M B) :
  neutral Q m -> (forall a, Q a -> neutral Q' (f a)) -> neutral Q' (bind m f).
Proof.
  intros Hm Hf h E st HE. unfold bind. destruct (Hm h E st HE) as (Hp & Ht & Ha). destruct (m st) as [st1 a]. cbn in *.
  destruct (Hf a Ha h E st1 Ht) as (Hp' & Ht' & Hb). split_and!; [congruence|done|done].
Qed.

Lemma neutral_weaken {A} (Q Q' : A -> Prop) m : (forall a, Q a -> Q' a) -> neutral Q m -> neutral Q' m.
Proof. intros HQ Hm h E st HE. destruct (Hm h E st HE) as (? & ? & ?). auto. Qed.

Lemma neutral_react {A} (Q : A -> Prop) (f : W -> W * A) : (forall w, Q (f w).2) -> neutral Q (react f).
Proof.
  intros HQ h E st HE. unfold react. specialize (HQ (ap_world st)). destruct (f (ap_world st)) as [w a]. cbn.
  split_and!; [done| |done]. by eapply follows_same; [..|exact HE].
Qed.

(** A record that is not a window nor an aggregation drop *)
Definition plain (r : record) : Prop := match r with RecWindow _ | RecAggregationDrop _ _ _ _ => False | _ => True end.

Lemma neutral_write r : plain r -> neutral (fun _ => True) (write r).
Proof.
  intros Hr h E st HE. unfold write, bind, react. destruct (world_Encode r (ap_world st)) as [w e]. cbn.
  split_and!; [done| |done]. eapply follows_same; [..|exact HE]; cbn; [done|..];
    unfold windows_of, drops_of; rewrite omap_app; cbn; destruct r; try done; apply app_nil_r.
Qed.

Lemma neutral_set_dns c : neutral (fun _ => True) (set_dns c).
Proof. intros h E st HE. split_and!; [done| |done]. by eapply follows_same; [..|exact HE]. Qed.

Lemma neutral_set_l7 c : neutral (fun _ => True) (set_l7 c).
Proof. intros h E st HE. split_and!; [done| |done]. by eapply follows_same; [..|exact HE]. Qed.

Lemma neutral_set_progress p : neutral (fun _ => True) (set_progress p).
Proof. intros h E st HE. split_and!; [done| |done]. by eapply follows_same; [..|exact HE]. Qed.

Lemma neutral_set_failure e : neutral (fun _ => True) (set_failure e).
Proof. intros h E st HE. split_and!; [done| |done]. by eapply follows_same; [..|exact HE]. Qed.

Create HintDb neutral.
#[local] Hint Resolve neutral_get neutral_set_dns neutral_set_l7 neutral_set_progress neutral_set_failure : neutral.

(** Straight-line code that encodes nothing *)
Ltac calm :=
  repeat first
    [ progress intros
    | solve [auto with neutral]
    | apply neutral_ret; exact I
    | apply neutral_react; done
    | apply neutral_write; done
    | eapply (neutral_bind (fun _ => True)); [|intros ? _]
    | match goal with |- neutral _ (if ?b then _ else _) => destruct b end
    | match goal with |- neutral _ (match ?x with _ => _ end) => destruct x end ].

Lemma neutral_encode_typed r : plain r -> neutral (fun _ => True) (encode_typed opts r).
Proof. intros Hr. unfold encode_typed, try_, exportTyped. calm. Qed.

Lemma neutral_encodeCollected records e : Forall plain records -> neutral (fun _ => True) (encodeCollected opts records e).
Proof.
  intros H. revert e. induction H as [|r records Hr _ IH]; intros e; cbn [encodeCollected]; [calm|].
  eapply (neutral_bind (fun _ => True)); [by apply neutral_encode_typed|auto].
Qed.

Lemma neutral_reportExportLoss : neutral (fun _ => True) (reportExportLoss opts).
Proof.
  intros h E st HE. unfold reportExportLoss, now, bind, react, get. destruct (negb _); [done|].
  destruct (world_Dropped (ap_world st)) as [w total]. cbn -[write]. destruct (total =? _).
  - split_and!; [done| |done]. by eapply follows_same; [..|exact HE].
  - cbn -[write]. destruct (world_now w) as [w' t]. cbn -[write].
    match goal with |- context [write ?r ?s] => exact (neutral_write r I h E s (follows_same h E [] st s eq_refl eq_refl eq_refl HE)) end.
Qed.

Lemma encodes_bind {A} (Q : A -> Prop) (m : M A) f l : neutral Q m -> (forall a, Q a -> encodes (f a) l) -> encodes (bind m f) l.
Proof.
  intros Hm Hf E st HE. unfold bind. destruct (neutral_tracks _ _ _ _ Hm HE) as (Hp & Ht & Ha). destruct (m st) as [st1 a].
  cbn in *. specialize (Hf a Ha E st1 Ht). destruct (f a st1) as [st2 e]. intros He. destruct (Hf He). split; [congruence|done].
Qed.

Lemma encodes_try m k l1 l2 : encodes m l1 -> encodes k l2 -> encodes (try_ m k) (l1 ++ l2).
Proof.
  intros Hm Hk E st HE. unfold try_, bind. specialize (Hm E st HE). destruct (m st) as [st1 e].
  destruct (nil_error e) eqn:Ee; [|cbn; by intros ->].
  apply nil_error_true in Ee. destruct (Hm Ee) as [Hp Ht]. specialize (Hk (E ++ l1) st1 Ht). rewrite app_assoc.
  destruct (k st1) as [st2 e2]. intros He. destruct (Hk He). split; [congruence|done].
Qed.

Lemma run_snoc ops op : Stream.run s0 (ops ++ [op]) = Stream.step (Stream.run s0 ops) op.
Proof. unfold Stream.run. by rewrite foldl_app. Qed.

(** The stream accepts the observation, or a record says that it does not. *)
Lemma encodes_aggregate o : encodes (aggregate_observation o) [bare o].
Proof.
  intros E st (ops & dropped & Hs & Hem & Hd & HE). cbn zeta in *. unfold aggregate_observation, bind, get. rewrite Hs.
  destruct (Stream.Add _ o) as [s err] eqn:EA.
  assert (Hrun : Stream.run s0 (ops ++ [OpAdd o]) =
    mkHistory s (hi_emitted (Stream.run s0 ops))
      (match err with None => hi_accepted (Stream.run s0 ops) ++ [o] | Some _ => hi_accepted (Stream.run s0 ops) end)).
  { rewrite run_snoc. unfold Stream.step. by rewrite EA. }
  assert (Hdrop : forall reason (st' : state),
    eo_stream (ap_output st') = Some s -> ap_log st' = ap_log st ++ [reason] ->
    match reason with
    | RecAggregationDrop _ t k why => t = ob_ObservedAt o /\ k = ob_Flow o /\ why ∈ ["late_observation"; "window_capacity"]
    | _ => False
    end ->
    is_Some err -> tracks (E ++ [bare o]) st').
  { intros r st' Ho Hl Hr [e ->]. destruct r; try done. destruct Hr as (-> & -> & Hwhy).
    exists (ops ++ [OpAdd o]), (dropped ++ [o]). cbn zeta. rewrite Hrun. cbn [hi_stream hi_emitted hi_accepted]. split_and!.
    - done.
    - rewrite Hl, Hem. unfold windows_of. rewrite omap_app. cbn. by rewrite !app_nil_r.
    - rewrite Hl. unfold drops_of. rewrite omap_app. cbn. apply Forall2_app; [done|]. constructor; [by eexists; split; [exact Hwhy|]|constructor].
    - rewrite app_assoc, fmap_app, HE. done. }
  cbn [ret bind set_stream get set_output]. unfold set_stream, bind, get, set_output. cbn -[write now].
  destruct err as [e|].
  - assert (Hw : forall reason (st1 : state), reason ∈ ["late_observation"; "window_capacity"] -> eo_stream (ap_output st1) = Some s -> ap_log st1 = ap_log st -> ap_pending st1 = ap_pending st ->
      let st' := bind now (fun t => write (RecAggregationDrop t (ob_ObservedAt o) (ob_Flow o) reason)) st1 in
      let '(st2, e2) := st' in e2 = [] -> ap_pending st2 = ap_pending st /\ tracks (E ++ [bare o]) st2).
    { intros reason st1 Hwhy H1 H2 H3. unfold bind, now, write, bind, react. destruct (world_now (ap_world st1)) as [w t]. cbn.
      destruct (world_Encode _ w) as [w' e']. cbn. intros _. split; [done|].
      eapply Hdrop; cbn; [exact H1|by rewrite H2|by split_and!|done]. }
    destruct e; try discriminate; apply Hw; by repeat constructor.
  - intros _. split; [done|]. exists (ops ++ [OpAdd o]), dropped. cbn zeta. rewrite Hrun. cbn. split_and!; [done|by rewrite Hem|done|].
    rewrite <- HE, !fmap_app. cbn. rewrite <- !app_assoc. apply Permutation_app_head, Permutation_app_comm.
Qed.

Lemma encodes_bare m o o' : bare o = bare o' -> encodes m [bare o'] -> encodes m [bare o].
Proof. by intros ->. Qed.

Lemma encodes_encode_observation wrap o : (forall o, plain (wrap o)) -> encodes (encode_observation opts wrap o) [bare o].
Proof.
  intros Hwrap. unfold encode_observation. apply (encodes_bind (fun o' => bare o' = bare o)).
  - destruct (op_pods opts); [apply neutral_react; intros w; apply Enrich_bare|by apply neutral_ret].
  - intros o' Ho. rewrite <- (app_nil_r [bare o]). apply encodes_try.
    + eapply encodes_bare; [symmetry; exact Ho|apply encodes_aggregate].
    + apply encodes_neutral. calm.
Qed.

Lemma encodes_encode_resolution item reason :
  encodes (encode_resolution opts item reason) [bare (pn_observation item)].
Proof. apply encodes_encode_observation. done. Qed.

(** *** Windows *)

(** The windows that remain to be written are written, in order. *)
Lemma encodeWindows_follows h windows exportErr E st :
  follows h E windows st ->
  let '(st', e) := encodeWindows opts windows exportErr st in
  e = [] -> ap_pending st' = ap_pending st /\ follows h E [] st'.
Proof.
  revert exportErr st. induction windows as [|w windows IH]; intros exportErr st HE; [done|]. cbn [encodeWindows].
  assert (Hw : forall (st1 : state) (e : errors), write (RecWindow w) st = (st1, e) -> follows h E windows st1 /\ ap_pending st1 = ap_pending st).
  { intros st1 e. unfold write, bind, react. destruct (world_Encode _ _) as [w' e']. intros [= <- <-]. split; [|done].
    destruct HE as (dropped & H1 & H2 & H3 & H4). exists dropped. split_and!; [done| | |done]; cbn.
    - rewrite H2. unfold windows_of. rewrite omap_app. cbn. by rewrite <- app_assoc.
    - unfold drops_of. rewrite omap_app. cbn. by rewrite app_nil_r. }
  unfold bind at 1. destruct (write (RecWindow w) st) as [st1 e]. destruct (Hw st1 e eq_refl) as [H1 Hp]. clear Hw.
  destruct (nil_error e) eqn:Ee; cbn [negb].
  2: { cbn. intros [-> ->]%app_nil. done. }
  unfold bind, get. destruct (nil_error _ && _); [|by rewrite <- Hp; apply IH].
  unfold react. destruct (world_Export w (ap_world st1)) as [w' [n|]]; cbn -[encodeWindows].
  - rewrite <- Hp. unfold set_failure, bind, get, set_output. cbn -[encodeWindows].
    match goal with |- context [encodeWindows opts windows [export_error n] ?s] =>
      exact (IH [export_error n] s (follows_same h E windows st1 s eq_refl eq_refl eq_refl H1)) end.
  - rewrite <- Hp. match goal with |- context [encodeWindows opts windows exportErr ?s] =>
      exact (IH exportErr s (follows_same h E windows st1 s eq_refl eq_refl eq_refl H1)) end.
Qed.

(** A sweep of the stream, its windows, then the export losses: the end of
    Flush and of Close *)
Lemma sweep_follows h op s' windows E st :
  Stream.step h op = mkHistory s' (hi_emitted h ++ windows) (hi_accepted h) -> follows h E [] st ->
  let '(st', e) :=
    bind (bind (set_stream s') (fun _ => encodeWindows opts windows []))
      (fun e1 => bind (reportExportLoss opts) (fun e2 => ret (e1 ++ e2))) st in
  e = [] -> ap_pending st' = ap_pending st /\ follows (Stream.step h op) E [] st'.
Proof.
  intros Hop (dropped & H1 & H2 & H3 & H4).
  assert (HE : follows (Stream.step h op) E windows (set_stream s' st).1).
  { exists dropped. rewrite Hop. cbn. rewrite H2, app_nil_r. by split_and!. }
  assert (Hp0 : ap_pending (set_stream s' st).1 = ap_pending st) by done.
  unfold bind at 1 2. destruct (set_stream s' st) as [st0 []]. cbn [fst] in HE, Hp0.
  pose proof (encodeWindows_follows _ windows [] E st0 HE) as Hw. destruct (encodeWindows opts windows [] st0) as [st1 e1].
  unfold bind at 1. destruct (reportExportLoss opts st1) as [st2 e2] eqn:Er. cbn. intros [-> ->]%app_nil.
  destruct (Hw eq_refl) as [Hp Ht]. destruct (neutral_reportExportLoss _ _ st1 Ht) as (Hp' & Ht' & _). rewrite Er in Hp', Ht'.
  cbn in Hp', Ht'. split; [congruence|done].
Qed.

Lemma bind_assoc {A B C} (m : M (W := W) (D := D) A) (f : A -> M B) (g : B -> M C) st :
  bind (bind m f) g st = bind m (fun x => bind (f x) g) st.
Proof. unfold bind. by destruct (m st). Qed.

Lemma encodes_output_Flush t : encodes (output_Flush opts t) [].
Proof.
  intros E st [ops HE]. unfold output_Flush, bind at 1, get. rewrite app_nil_r.
  pose proof HE as (dr & H1 & _). rewrite H1. destruct (Stream.Flush _ t) as [s' windows] eqn:EF.
  pose proof (sweep_follows (Stream.run s0 ops) (Stream.OpFlush t) s' windows E st) as H.
  specialize (H ltac:(unfold Stream.step; by rewrite EF) HE). rewrite bind_assoc in H.
  destruct (bind _ _ st) as [st' e]. intros He. destruct (H He) as [Hp Hf]. split; [done|].
  exists (ops ++ [Stream.OpFlush t]). by rewrite run_snoc.
Qed.

(** Close finishes the stream. *)
Lemma output_Close_follows E st :
  tracks E st ->
  let '(st', e) := output_Close opts st in
  e = [] -> exists ops now, follows (Stream.run s0 (ops ++ [Stream.OpFinish now])) E [] st'.
Proof.
  intros [ops HE]. unfold output_Close, bind at 1, get. pose proof HE as (dr & H1 & _). rewrite H1.
  rewrite bind_assoc. unfold bind at 1.
  assert (Ht : neutral (fun _ => True) progress_time) by (unfold progress_time, now; calm).
  destruct (Ht _ _ _ HE) as (_ & HE' & _). destruct (progress_time st) as [st1 t]. cbn [fst] in HE'. clear H1 HE dr Ht.
  destruct (Stream.Finish _ t) as [s' windows] eqn:EF.
  pose proof (sweep_follows (Stream.run s0 ops) (Stream.OpFinish t) s' windows E st1) as H.
  specialize (H ltac:(unfold Stream.step; by rewrite EF) HE').
  destruct (bind _ _ st1) as [st' e]. intros He. destruct (H He) as [Hp Hf]. exists ops, t. by rewrite run_snoc.
Qed.

(** *** Enrichment and pending items *)

Lemma bare_resolved o s d : bare (with_resolved o s d) = bare o.
Proof. done. Qed.

Lemma bare_process o p : bare (with_process o p) = bare o.
Proof. done. Qed.

Lemma neutral_resolveObservation o : neutral (fun o' => bare o' = bare o) (resolveObservation opts o).
Proof.
  unfold resolveObservation. destruct (negb _); [by apply neutral_ret|]. cbn zeta. destruct (_ && _).
  - eapply (neutral_bind (fun _ => True)); [by apply neutral_react|]. intros r _. apply neutral_ret. by destruct r.
  - eapply (neutral_bind (fun _ => True)); [by apply neutral_react|]. intros r _. destruct r; [by apply neutral_ret|].
    eapply (neutral_bind (fun _ => True)); [by apply neutral_react|]. intros r _. apply neutral_ret. by destruct r.
Qed.

Lemma neutral_attachProcess pid o : neutral (fun o' => bare o' = bare o) (attachProcess opts pid o).
Proof.
  unfold attachProcess. destruct (pid =? 0); [by apply neutral_ret|]. destruct (op_processes opts); [|by apply neutral_ret].
  eapply (neutral_bind (fun _ => True)); [by apply neutral_react|]. intros p _. apply neutral_ret. by destruct p.
Qed.

Definition pend (items : list pendingResolution) : list Observation := (fun item => bare (pn_observation item)) <$> items.

Lemma encodes_finalize items : encodes (finalize opts items) (pend items).
Proof.
  induction items as [|item items IH]; cbn [finalize]; [by apply encodes_neutral, neutral_ret|].
  change (pend (item :: items)) with ([bare (pn_observation item)] ++ pend items).
  apply encodes_try; [apply encodes_encode_resolution|exact IH].
Qed.

(** A pass over the pending items encodes those that do not remain. *)
Definition passes (m : M (W := W) (D := D) (errors * list pendingResolution)) (before : list Observation) : Prop :=
  forall E st, tracks E st ->
    let '(st', (e, remaining)) := m st in
    e = [] -> ap_pending st' = ap_pending st /\ exists l, tracks (E ++ l) st' /\ l ++ pend remaining ≡ₚ before.

Lemma passes_ret remaining : passes (ret ([], remaining)) (pend remaining).
Proof. intros E st HE _. split; [done|]. exists []. by rewrite app_nil_r. Qed.

Lemma passes_perm m l l' : l ≡ₚ l' -> passes m l -> passes m l'.
Proof.
  intros Hl Hm E st HE. specialize (Hm E st HE). destruct (m st) as [st' [e remaining]]. intros He.
  destruct (Hm He) as (Hp & l0 & ? & ?). split; [done|]. exists l0. split; [done|]. by rewrite <- Hl.
Qed.

Lemma passes_bind {A} (Q : A -> Prop) (m : M A) f l : neutral Q m -> (forall a, Q a -> passes (f a) l) -> passes (bind m f) l.
Proof.
  intros Hm Hf E st HE. unfold bind. destruct (neutral_tracks _ _ _ _ Hm HE) as (Hp & Ht & Ha). destruct (m st) as [st1 a].
  cbn in *. specialize (Hf a Ha E st1 Ht). destruct (f a st1) as [st2 [e remaining]]. intros He.
  destruct (Hf He) as [? ?]. split; [congruence|done].
Qed.

Lemma passes_encode m o k rest l :
  encodes m [o] -> passes k l ->
  passes (bind m (fun e => if nil_error e then k else ret (e, rest))) (o :: l).
Proof.
  intros Hm Hk E st HE. unfold bind. specialize (Hm E st HE). destruct (m st) as [st1 e].
  destruct (nil_error e) eqn:Ee; [|cbn; by intros ->]. apply nil_error_true in Ee. destruct (Hm Ee) as [Hp Ht].
  specialize (Hk (E ++ [o]) st1 Ht). destruct (k st1) as [st2 [e2 remaining]]. intros He.
  destruct (Hk He) as (Hp' & l0 & Ht' & Hl). split; [congruence|]. exists (o :: l0). rewrite <- app_assoc in Ht'.
  split; [exact Ht'|]. cbn. by rewrite Hl.
Qed.

Lemma pend_app l l' : pend (l ++ l') = pend l ++ pend l'.
Proof. apply fmap_app. Qed.

Lemma passes_supersede key items remaining :
  passes (supersede opts key items remaining) (pend items ++ pend remaining).
Proof.
  revert remaining. induction items as [|item items IH]; intros remaining; cbn [supersede]; [apply passes_ret|].
  destruct (bool_decide _).
  - apply (passes_encode _ (bare (pn_observation item))); [apply encodes_encode_resolution|apply IH].
  - eapply passes_perm; [|apply IH]. rewrite pend_app. cbn. rewrite app_assoc. symmetry. apply Permutation_cons_append.
Qed.

Lemma passes_retry items remaining :
  passes (retry_pending opts items remaining) (pend items ++ pend remaining).
Proof.
  revert remaining. induction items as [|item items IH]; intros remaining; cbn [retry_pending]; [apply passes_ret|].
  eapply passes_bind; [apply neutral_resolveObservation|]. intros o Ho. cbn zeta.
  eapply (passes_bind (fun _ => True)); [calm|]. intros t _.
  destruct (_ || _).
  - change (pend (item :: items) ++ pend remaining) with (bare (pn_observation item) :: pend items ++ pend remaining).
    rewrite <- Ho. eapply (passes_encode _ (bare o)); [|apply IH].
    exact (encodes_encode_resolution (mkPendingResolution o (pn_deadline item) (pn_attempts item + 1)) "retry_deadline").
  - eapply passes_perm; [|apply IH]. rewrite pend_app. cbn. rewrite Ho, app_assoc. symmetry. apply Permutation_cons_append.
Qed.

(** *** Steps of the loop *)

(** A step that measures [l] encodes, or adds to what is pending. *)
Definition moves (m : M (W := W) (D := D) errors) (l : list Observation) : Prop :=
  forall E st, tracks E st ->
    let '(st', e) := m st in
    e = [] -> exists l', tracks (E ++ l') st' /\ l' ++ pend (ap_pending st') ≡ₚ pend (ap_pending st) ++ l.

Lemma encodes_moves m l : encodes m l -> moves m l.
Proof.
  intros Hm E st HE. specialize (Hm E st HE). destruct (m st) as [st' e]. intros He. destruct (Hm He) as [-> Ht].
  exists l. split; [done|apply Permutation_app_comm].
Qed.

Lemma moves_bind {A} (Q : A -> Prop) (m : M A) f l : neutral Q m -> (forall a, Q a -> moves (f a) l) -> moves (bind m f) l.
Proof.
  intros Hm Hf E st HE. unfold bind. destruct (neutral_tracks _ _ _ _ Hm HE) as (Hp & Ht & Ha). destruct (m st) as [st1 a].
  cbn in *. specialize (Hf a Ha E st1 Ht). destruct (f a st1) as [st2 e]. by rewrite <- Hp.
Qed.

(** A pass over the pending items, what remains, and then [k] *)
Lemma moves_pass m k l :
  (forall items, passes (m items) (pend items)) ->
  (forall remaining E st, tracks E st -> ap_pending st = remaining ->
     let '(st', e) := k remaining st in
     e = [] -> exists l', tracks (E ++ l') st' /\ l' ++ pend (ap_pending st') ≡ₚ pend remaining ++ l) ->
  moves (bind (get ap_pending) (fun items => bind (m items) (fun r =>
    let '(e, remaining) := r in
    bind (set_pending remaining) (fun _ => if negb (nil_error e) then ret e else k remaining)))) l.
Proof.
  intros Hm Hk E st HE. unfold bind at 1, get. specialize (Hm (ap_pending st) E st HE). unfold bind at 1.
  destruct (m (ap_pending st) st) as [st1 [e remaining]]. unfold bind at 1.
  set (st2 := (set_pending remaining st1).1).
  assert (Hp2 : ap_pending st2 = remaining) by done.
  assert (Ht2 : forall F, tracks F st1 -> tracks F st2).
  { intros F [ops HF]. exists ops. by eapply follows_same; [..|exact HF]. }
  change (set_pending remaining st1) with (st2, tt). destruct (nil_error e) eqn:Ee; cbn [negb]; [|cbn; by intros ->].
  apply nil_error_true in Ee. destruct (Hm Ee) as (Hp & l1 & Ht & Hl). specialize (Hk remaining (E ++ l1) st2 (Ht2 _ Ht) Hp2).
  destruct (k remaining st2) as [st3 e3]. intros He. destruct (Hk He) as (l2 & Ht3 & Hl2).
  exists (l1 ++ l2). rewrite app_assoc. split; [done|]. by rewrite <- app_assoc, Hl2, app_assoc, Hl.
Qed.

Lemma moves_handle_egress o : moves (handle_egress opts o) [bare o].
Proof.
  unfold handle_egress. apply (moves_pass (fun items => supersede opts (ob_Flow o) items []) _ [bare o]).
  - intros items. rewrite <- (app_nil_r (pend items)). apply passes_supersede.
  - intros remaining E st HE Hp. unfold bind at 1.
    destruct (neutral_tracks (fun _ => True) (react world_elapsed) E st) as (Hp' & Ht & _); [by apply neutral_react|done|].
    destruct (react world_elapsed st) as [st1 t]. cbn [fst] in *. cbn zeta. destruct (_ && _).
    + cbn. intros _. exists []. rewrite app_nil_r. split.
      * destruct Ht as [ops HF]. exists ops. by eapply follows_same; [..|exact HF].
      * by rewrite pend_app.
    + pose proof (encodes_moves _ _ (encodes_encode_resolution (mkPendingResolution o (time_Add t resolutionGrace) 1) "queue_full")) as H.
      specialize (H E st1 Ht). rewrite Hp', Hp in H. exact H.
Qed.

Lemma neutral_enrich_fragment protocol pid t s d : neutral (fun _ => True) (enrich_fragment opts protocol pid t s d).
Proof.
  unfold enrich_fragment. cbn zeta. eapply neutral_bind; [apply neutral_resolveObservation|]. intros o _.
  eapply neutral_bind; [apply neutral_attachProcess|]. intros o' _.
  destruct (op_pods opts); [by apply neutral_react|by apply neutral_ret].
Qed.

(** An event is measured by its handler. *)
Lemma moves_handle_event event at_ :
  moves (handle_event opts event at_) (measured_by (op_node opts) (mkTimed (Some event) false at_)).
Proof.
  unfold handle_event, measured_by, is_flow. cbn [te_event te_observedAt].
  destruct (ev_Kind event =? EventKindL7CoverageDrop); cbn [negb andb].
  { destruct (L7CoverageDrop_of _ _ _); [|by intros E st HE]. by apply encodes_moves, encodes_neutral, neutral_encode_typed. }
  destruct (ev_Kind event =? EventKindDNS); cbn [negb andb].
  { unfold handle_dns. destruct (DNSFragment_of _ _ _); [|by intros E st HE].
    apply encodes_moves, encodes_neutral. eapply (neutral_bind (fun _ => True)); [apply neutral_enrich_fragment|]. intros o _. eapply (neutral_bind (fun _ => True)); [calm|]. intros c _. destruct (Dns.Correlator_Process _ _) as [[c' ts]|]; [|calm].
    eapply (neutral_bind (fun _ => True)); [calm|]. intros _ _. apply neutral_encodeCollected, Forall_fmap, Forall_true. done. }
  destruct (ev_Kind event =? EventKindL7Fragment); cbn [negb andb].
  { unfold handle_l7. destruct (L7Fragment_of _ _ _); [|by intros E st HE].
    apply encodes_moves, encodes_neutral. eapply (neutral_bind (fun _ => True)); [apply neutral_enrich_fragment|]. intros o _. eapply (neutral_bind (fun _ => True)); [calm|]. intros c _. destruct (L7.Correlator_Process _ _) as [c' os].
    eapply (neutral_bind (fun _ => True)); [calm|]. intros _ _. apply neutral_encodeCollected, Forall_fmap, Forall_true. by intros []. }
  unfold handle_flow. destruct (Observation_of _ _ _) as [o|e]; [|by intros E st HE].
  eapply moves_bind; [apply neutral_resolveObservation|]. intros o1 H1. eapply moves_bind; [apply neutral_attachProcess|].
  intros o2 H2. rewrite <- H1, <- H2. destruct (_ && _); [apply moves_handle_egress|].
  by apply encodes_moves, encodes_encode_observation.
Qed.

Lemma neutral_progress_watermark : neutral (fun _ => True) progress_watermark.
Proof. unfold progress_watermark, now. calm. Qed.

Lemma moves_tick : moves (tick opts) [].
Proof.
  unfold tick. apply (moves_pass (fun items => retry_pending opts items []) _ []).
  - intros items. rewrite <- (app_nil_r (pend items)). apply passes_retry.
  - intros remaining E st HE <-.
    match goal with |- let '(_, _) := ?m st in _ => assert (H : encodes m []) end.
    + apply (encodes_bind (fun _ => True)); [apply neutral_progress_watermark|]. intros t _.
      apply (encodes_bind (fun _ => True)); [calm|]. intros c _. destruct (Dns.Expire c t) as [[c' ts]|]; [|by intros F st'].
      apply (encodes_bind (fun _ => True)); [calm|]. intros _ _. change (@nil Observation) with (@nil Observation ++ []).
      apply encodes_try; [apply encodes_neutral, neutral_encodeCollected, Forall_fmap, Forall_true; done|].
      apply (encodes_bind (fun _ => True)); [apply neutral_progress_watermark|]. intros t' _.
      apply (encodes_bind (fun _ => True)); [calm|]. intros items _. apply encodes_output_Flush.
    + exact (encodes_moves _ _ H E st HE).
Qed.

(** *** The channel and the loop *)

(** An entry without an event is the last, and the pump has ended. *)
Definition tail_ok (st : state) : Prop :=
  forall l1 x l2, ap_inflight st = l1 ++ x :: l2 -> te_event x = None -> l2 = [] /\ ap_pumping st = false.

(** A closed channel is empty. *)
Definition channel_ok (st : state) : Prop :=
  (ap_open st = false -> ap_inflight st = [] /\ ap_pumping st = false) /\ tail_ok st.

(** Everything measured so far, [l], is encoded, pending or in the channel. *)
Definition accounts (l : list Observation) (st : state) : Prop :=
  channel_ok st /\
  exists E, tracks E st /\ E ++ pend (ap_pending st) ++ measured (op_node opts) (ap_inflight st) ≡ₚ l.

Lemma measured_app node l1 l2 : measured node (l1 ++ l2) = measured node l1 ++ measured node l2.
Proof. unfold measured. by rewrite fmap_app, concat_app. Qed.

Lemma neutral_set_inflight l : neutral (fun _ => True) (set_inflight l).
Proof. intros h E st HE. split_and!; [done| |done]. by eapply follows_same; [..|exact HE]. Qed.

Lemma neutral_set_pumping b c : neutral (fun _ => True) (set_pumping b c).
Proof. intros h E st HE. split_and!; [done| |done]. by eapply follows_same; [..|exact HE]. Qed.

Lemma neutral_set_loop a b c : neutral (fun _ => True) (set_loop a b c).
Proof. intros h E st HE. split_and!; [done| |done]. by eapply follows_same; [..|exact HE]. Qed.

#[local] Hint Resolve neutral_set_inflight neutral_set_pumping neutral_set_loop : neutral.

Lemma neutral_pump r : neutral (fun _ => True) (pump opts r).
Proof. unfold pump, progress_accept, now. calm. Qed.

Lemma neutral_progress_finish : neutral (fun _ => True) progress_finish.
Proof. unfold progress_finish, now. calm. Qed.

Lemma neutral_last_reads reads : neutral (fun _ => True) (last_reads opts reads).
Proof.
  induction reads as [|r reads IH]; cbn [last_reads]; [by apply neutral_ret|].
  eapply (neutral_bind (fun _ => True)); [calm|]. intros [] _; [|by apply neutral_ret].
  eapply (neutral_bind (fun _ => True)); [apply neutral_pump|]. done.
Qed.

Lemma neutral_stop_pump reads : neutral (fun _ => True) (stop_pump opts reads).
Proof.
  unfold stop_pump. eapply (neutral_bind (fun _ => True)); [apply neutral_progress_finish|]. intros _ _.
  eapply (neutral_bind (fun _ => True)); [apply neutral_last_reads|]. intros _ _. calm.
Qed.

(** The entry a read of the pump puts in the channel *)
Lemma pump_entry r (st : state) :
  let '(st', _) := pump opts r st in
  exists x, ap_inflight st' = ap_inflight st ++ [x] /\ (te_event x = None -> ap_pumping st' = false) /\
    ap_open st' = ap_open st.
Proof.
  unfold pump, progress_accept, now, bind, react, get. destruct (world_now _) as [w t]. cbn.
  destruct (if _ : bool then _ else _) as [cutoff ended']. cbn. eexists. split; [done|]. split; [|done].
  cbn. by destruct r.
Qed.

Lemma progress_finish_control (st : state) : let '(st', _) := progress_finish st in control st' = control st.
Proof. unfold progress_finish, now, bind, react, get. destruct (cp_ended _); [done|]. by destruct (world_now _). Qed.

(** A running pump keeps the channel in order. *)
Lemma pump_tail r (st : state) : ap_pumping st = true -> tail_ok st -> tail_ok (pump opts r st).1.
Proof.
  intros Hpu Ht. pose proof (pump_entry r st) as Hp. destruct (pump opts r st) as [st' []]. cbn [fst].
  destruct Hp as (x & Hi & Hx & _). intros l1 y l2 Hl1 Hy. rewrite Hi in Hl1. destruct l2 as [|z l2 _] using rev_ind.
  - split; [done|]. apply app_inj_tail in Hl1 as [_ <-]. by apply Hx.
  - rewrite app_comm_cons, app_assoc in Hl1. apply app_inj_tail in Hl1 as [Hl1 _].
    destruct (Ht _ _ _ Hl1 Hy) as [_ Hf]. by rewrite Hf in Hpu.
Qed.

Lemma last_reads_entries reads (st : state) :
  let '(st', _) := last_reads opts reads st in
  (exists new, ap_inflight st' = ap_inflight st ++ new) /\ ap_open st' = ap_open st /\ (tail_ok st -> tail_ok st').
Proof.
  revert st. induction reads as [|r reads IH]; intros st; cbn [last_reads]; [split_and!; [exists []; by rewrite app_nil_r|done|done]|].
  unfold bind at 1, get. destruct (reading st) eqn:Hr; [|split_and!; [exists []; by rewrite app_nil_r|done|done]].
  apply andb_true_iff in Hr as [Hr _]. unfold bind. pose proof (pump_tail r st Hr) as Ht. pose proof (pump_entry r st) as Hp.
  destruct (pump opts r st) as [st1 []]. cbn [fst] in Ht. destruct Hp as (x & Hi & _ & Ho). specialize (IH st1).
  destruct (last_reads opts reads st1) as [st2 []]. destruct IH as ([new Hn] & Ho2 & Ht2). split_and!.
  - exists (x :: new). by rewrite Hn, Hi, <- app_assoc.
  - congruence.
  - auto.
Qed.

Lemma stop_pump_entries reads (st : state) :
  let '(st', _) := stop_pump opts reads st in
  (exists new, ap_inflight st' = ap_inflight st ++ new) /\ ap_open st' = ap_open st /\ ap_pumping st' = false /\
  (tail_ok st -> tail_ok st').
Proof.
  unfold stop_pump. unfold bind at 1. pose proof (progress_finish_control st) as Hc. destruct (progress_finish st) as [st1 []].
  injection Hc as Hi Hpu Ho _. unfold bind at 1. pose proof (last_reads_entries reads st1) as H.
  destruct (last_reads opts reads st1) as [st2 []]. destruct H as ([new Hn] & Ho2 & Ht). cbn.
  split_and!; [exists new; congruence|congruence|done|].
  intros Hst. intros l1 x l2 Hl1 Hx. split; [|done]. cbn in Hl1. apply (Ht) with (l1 := l1) (x := x); [|done|done].
  unfold tail_ok. by rewrite Hi, Hpu.
Qed.

(** What a receive does to the channel *)
Lemma moves_receive st :
  channel_ok st -> enabled opts st Receive = true ->
  forall E, tracks E st ->
    let '(st', e) := receive opts st in
    e = [] -> channel_ok st' /\ exists l', tracks (E ++ l') st' /\
      l' ++ pend (ap_pending st') ++ measured (op_node opts) (ap_inflight st') ≡ₚ
      pend (ap_pending st) ++ measured (op_node opts) (ap_inflight st).
Proof.
  intros [Hc1 Hc2] He E HE. unfold tail_ok in Hc2. cbn [enabled] in He. apply andb_true_iff in He as [Ho He].
  unfold receive, bind at 1 2 3, get. destruct (ap_inflight st) as [|x l] eqn:El.
  - assert (Hp : ap_pumping st = false) by (cbn in He; by destruct (ap_pumping st)).
    cbn. intros _. split; [split; cbn; [by rewrite El|intros l1 x l2; rewrite El; by destruct l1]|]. exists [].
    rewrite !app_nil_r, El. split; [|by rewrite app_nil_r]. destruct HE as [ops HE]. exists ops. by eapply follows_same; [..|exact HE].
  - unfold bind at 1. set (st1 := (set_inflight l st).1). change (set_inflight l st) with (st1, tt).
    assert (HE1 : tracks E st1) by (destruct HE as [ops HE]; exists ops; by eapply follows_same; [..|exact HE]).
    unfold bind at 1. assert (Hn : neutral (fun _ => True) progress_consume) by (unfold progress_consume; calm).
    destruct (neutral_tracks _ _ _ _ Hn HE1) as (Hp2 & HE2 & _).
    assert (Hctl : control (progress_consume st1).1 = control st1) by done.
    destruct (progress_consume st1) as [st2 []]. cbn [fst] in *. injection Hctl as Hi2 Hpu2 Ho2 _.
    change (ap_inflight st1) with l in Hi2. change (ap_pumping st1) with (ap_pumping st) in Hpu2.
    change (ap_open st1) with (ap_open st) in Ho2. change (ap_pending st1) with (ap_pending st) in Hp2.
    assert (Hsuffix : forall l1 y l2, l = l1 ++ y :: l2 -> te_event y = None -> l2 = [] /\ ap_pumping st = false).
    { intros l1 y l2 -> Hy. by apply (Hc2 (x :: l1) y l2). }
    destruct (te_event x) as [event|] eqn:Ex.
    + pose proof (moves_handle_event event (te_observedAt x) E st2 HE2) as H.
      pose proof (stays_handle_event opts event (te_observedAt x) st2) as Hs.
      destruct (handle_event opts event (te_observedAt x) st2) as [st3 e]. cbn [fst] in Hs. injection Hs as Hi3 Hpu3 Ho3 _.
      intros Hnil. destruct (H Hnil) as (l' & Ht & Hl). split.
      * split; [intros E3; rewrite Ho3, Ho2, Ho in E3; done|]. unfold tail_ok. rewrite Hi3, Hi2, Hpu3, Hpu2. exact Hsuffix.
      * exists l'. split; [done|]. rewrite Hi3, Hi2, app_assoc, Hl, Hp2, <- app_assoc. apply Permutation_app_head.
        change (measured (op_node opts) (x :: l)) with (measured_by (op_node opts) x ++ measured (op_node opts) l).
        apply Permutation_app_tail. unfold measured_by. by rewrite Ex.
    + destruct (Hc2 [] x l eq_refl Ex) as [-> Hp]. cbn. intros _. split.
      * split; cbn; rewrite ?Hi2; [by rewrite Hpu2|intros l1 y l2; by destruct l1].
      * exists []. rewrite app_nil_r. split; [destruct HE2 as [ops HE2]; exists ops; by eapply follows_same; [..|exact HE2]|].
        cbn. rewrite Hi2, Hp2. unfold measured. cbn. unfold measured_by. by rewrite Ex.
Qed.

#[local] Hint Resolve stays_ret stays_get stays_react stays_bind stays_write stays_set_output stays_set_pending stays_set_dns
  stays_set_l7 stays_encodeCollected stays_encode_observation stays_resolveObservation : neutral.

(** Straight-line code that leaves the channel alone *)
Ltac still :=
  repeat first
    [ progress intros
    | solve [auto with neutral]
    | apply stays_bind
    | match goal with |- stays (if ?b then _ else _) => destruct b end
    | match goal with |- stays (match ?x with _ => _ end) => destruct x end ].

Lemma stays_encodeWindows windows e : stays (encodeWindows (W := W) (D := D) opts windows e).
Proof.
  revert e. induction windows as [|w windows IH]; intros e; cbn [encodeWindows]; [done|]. unfold set_failure. still.
Qed.

Lemma stays_retry_pending items remaining : stays (retry_pending (W := W) (D := D) opts items remaining).
Proof.
  revert remaining. induction items as [|item items IH]; intros remaining; cbn [retry_pending]; [done|].
  unfold encode_resolution. still.
Qed.

#[local] Hint Resolve stays_encodeWindows stays_retry_pending : neutral.

Lemma stays_progress_watermark : stays (W := W) (D := D) progress_watermark.
Proof. unfold progress_watermark, now. still. Qed.

#[local] Hint Resolve stays_progress_watermark : neutral.

Lemma stays_tick : stays (tick (W := W) (D := D) opts).
Proof. unfold tick, try_, output_Flush, reportExportLoss, set_stream, now. still. Qed.

(** A step of the loop keeps the account. *)
Lemma step_accounts c l st :
  enabled opts st c = true -> accounts l st ->
  let '(st', e) := take_choice opts c st in
  e = [] ->
  accounts (l ++ measured (op_node opts)
    (match c with Pump _ | Cancel _ => drop (length (ap_inflight st)) (ap_inflight st') | _ => [] end)) st'.
Proof.
  intros He [Hc (E & HE & Hl)]. pose proof Hc as [Hc1 Hc2]. destruct c as [r| | |reads| |]; cbn [take_choice].
  - apply andb_true_iff in He as [Hpu _]. unfold bind. pose proof (pump_entry r st) as Hp.
    pose proof (pump_tail r st Hpu Hc2) as Ht. destruct (neutral_tracks _ _ _ _ (neutral_pump r) HE) as (Hpe & HE' & _).
    destruct (pump opts r st) as [st' []]. cbn [fst] in *. destruct Hp as (x & Hi & Hx & Ho). cbn. intros _.
    rewrite Hi, drop_app_length. split.
    + split; [intros E1; rewrite Ho in E1; apply Hc1 in E1; by destruct E1 as [_ E1]; rewrite E1 in Hpu|exact Ht].
    + exists E. split; [done|]. rewrite Hpe, Hi, measured_app, <- Hl, !app_assoc. done.
  - pose proof (moves_receive st Hc He E HE) as H. destruct (receive opts st) as [st' e]. intros Hnil.
    destruct (H Hnil) as (Hc' & l' & Ht & Hl'). change (measured (op_node opts) []) with (@nil Observation). rewrite app_nil_r. split; [done|]. exists (E ++ l'). split; [done|].
    by rewrite <- app_assoc, Hl'.
  - pose proof (moves_tick E st HE) as H. pose proof (stays_tick st) as Hs. destruct (tick opts st) as [st' e]. cbn [fst] in Hs.
    injection Hs as Hi Hpu Ho _. intros Hnil. destruct (H Hnil) as (l' & Ht & Hl').
    change (measured (op_node opts) []) with (@nil Observation). rewrite app_nil_r. split.
    + split; unfold tail_ok; rewrite Hi, Hpu; [by rewrite Ho|done].
    + exists (E ++ l'). split; [done|]. rewrite app_nil_r in Hl'. by rewrite Hi, <- app_assoc, (app_assoc l'), Hl', Hl.
  - unfold cancel, bind at 1. pose proof (stop_pump_entries reads st) as Hp.
    destruct (neutral_tracks _ _ _ _ (neutral_stop_pump reads) HE) as (Hpe & HE' & _).
    destruct (stop_pump opts reads st) as [st1 []]. cbn [fst] in *. destruct Hp as ([new Hi] & Ho & Hpu & Ht). cbn. intros _.
    assert (Hd : drop (length (ap_inflight st)) (ap_inflight st1) = new) by (by rewrite Hi, drop_app_length).
    rewrite Hd. split; [split; [done|exact (Ht Hc2)]|].
    + exists E. split; [destruct HE' as [ops HE']; exists ops; by eapply follows_same; [..|exact HE']|].
      cbn [ap_pending ap_inflight]. rewrite Hpe, Hi, measured_app, <- Hl, !app_assoc. done.
  - done.
  - done.
Qed.

(** Once the channel is closed everything is encoded or pending. *)
Lemma accounts_closed l st :
  accounts l st -> ap_open st = false ->
  ap_pumping st = false /\ exists E, tracks E st /\ E ++ pend (ap_pending st) ≡ₚ l ++ measured (op_node opts) [].
Proof.
  intros [[Hc1 _] (E & HE & Hl)] Ho. destruct (Hc1 Ho) as [Hi Hpu]. split; [done|]. exists E. split; [done|].
  rewrite Hi in Hl. change (measured (op_node opts) []) with (@nil Observation) in *. by rewrite app_nil_r in *.
Qed.

(** A run of the loop that ends has encoded everything it read. *)
Lemma loop_accounts choices l st :
  accounts l st ->
  let '(st', e) := loop opts choices st in
  e = [] -> ended st' ->
  ap_pumping st' = false /\ exists E, tracks E st' /\ E ≡ₚ l ++ measured (op_node opts) (accepted choices st).
Proof.
  revert l st. induction choices as [|c choices IH]; intros l st HA;
    cbn [loop accepted]; unfold bind at 1 2 3, get;
    (destruct (negb (ap_open st || _)) eqn:E1;
     [apply negb_true_iff, orb_false_iff in E1 as [Ho Hp]; destruct (accounts_closed l st HA Ho) as (Hpu & E & HE & Hl);
      intros _ _; split; [done|]; exists E; split; [done|];
      apply negb_false_iff, Nat.eqb_eq, length_zero_iff_nil in Hp; rewrite Hp in Hl; cbn in Hl; by rewrite app_nil_r in Hl|]);
    (destruct (ap_cancelled st && negb (ap_open st)) eqn:E2;
     [apply andb_true_iff in E2 as [_ Ho]; apply negb_true_iff in Ho; destruct (accounts_closed l st HA Ho) as (Hpu & E & HE & Hl);
      pose proof (encodes_finalize (ap_pending st) E st HE) as H; pose proof (stays_finalize opts (ap_pending st) st) as Hs;
      destruct (finalize opts (ap_pending st) st) as [st' e]; cbn [fst] in Hs; injection Hs as _ Hpu' _ _;
      intros Hnil _; destruct (H Hnil) as [_ Ht]; split; [congruence|]; by exists (E ++ pend (ap_pending st))|]).
  - cbn. intros _ [Ho [Hp|Hca]]; exfalso; rewrite Ho in E1, E2; [rewrite Hp in E1|rewrite Hca in E2]; done.
  - cbn [orb]. unfold bind at 1. destruct (enabled opts st c) eqn:He; [|by apply IH].
    unfold try_, bind. pose proof (step_accounts c l st He HA) as H. destruct (take_choice opts c st) as [st1 e] eqn:Ec.
    destruct (nil_error e) eqn:Ee; [|cbn; by intros ->]. apply nil_error_true in Ee. specialize (H Ee).
    specialize (IH _ st1 H). destruct (loop opts choices st1) as [st' e']. intros He' Hend.
    destruct (IH He' Hend) as (Hpu & E' & Ht & HE''). split; [done|]. exists E'. split; [done|].
    by rewrite HE'', measured_app, app_assoc.
Qed.

(** The whole run: after the loop, the pump is joined, the DNS queries are
    finished and the output is closed. *)
Lemma RunEvents_follows choices last w :
  let '(st, e) := RunEvents opts choices last (start w (Some s0)) in
  ended (loop opts choices (start w (Some s0))).1 -> e = [] ->
  exists ops now E, follows (Stream.run s0 (ops ++ [Stream.OpFinish now])) E [] st /\
    E ≡ₚ measured (op_node opts) (accepted choices (start w (Some s0))).
Proof.
  assert (HA : accounts [] (start w (Some s0))).
  { split; [split; [done|intros l1 x l2 Hl; by destruct l1]|]. exists []. split; [|done]. exists [], []. by split_and!. }
  unfold RunEvents. unfold bind at 1. pose proof (loop_accounts choices [] _ HA) as H.
  destruct (loop opts choices (start w (Some s0))) as [st1 retErr]. unfold bind at 1, get. cbn [fst].
  unfold bind at 1.
  set (m := if ap_cancelled st1 then ret tt else stop_pump opts last).
  assert (Hm : neutral (fun _ => True) m) by (unfold m; destruct (ap_cancelled st1); [by apply neutral_ret|apply neutral_stop_pump]).
  destruct (m st1) as [st2 []] eqn:Em. unfold bind at 1.
  assert (Ht : neutral (fun _ => True) progress_time) by (unfold progress_time, now; calm).
  destruct (progress_time st2) as [st3 t] eqn:Et. unfold bind at 1. unfold bind at 1.
  set (m4 := match Dns.Finish (ap_dns st3) t with Some (c, ts) => _ | None => _ end).
  assert (Hm4 : neutral (fun _ => True) m4).
  { unfold m4. destruct (Dns.Finish _ _) as [[c ts]|]; [|by apply neutral_ret].
    eapply (neutral_bind (fun _ => True)); [calm|]. intros _ _. apply neutral_encodeCollected, Forall_fmap, Forall_true. done. }
  destruct (m4 st3) as [st4 e4] eqn:E4. unfold bind at 1. destruct (output_Close opts st4) as [st5 closeErr] eqn:E5.
  unfold bind at 1. cbn. intros Hend [_ [[-> _]%app_nil ->]%app_nil]%app_nil.
  destruct (H eq_refl Hend) as (_ & E & HE & Hl).
  destruct (neutral_tracks _ _ _ _ Hm HE) as (_ & H2 & _). rewrite Em in H2.
  destruct (neutral_tracks _ _ _ _ Ht H2) as (_ & H3 & _). cbn [fst] in H3. rewrite Et in H3.
  destruct (neutral_tracks _ _ _ _ Hm4 H3) as (_ & H4 & _). cbn [fst] in H4. rewrite E4 in H4.
  pose proof (output_Close_follows E st4 H4) as H5. rewrite E5 in H5. destruct (H5 eq_refl) as (ops & t' & Hf).
  by exists ops, t', E.
Qed.
End accounts.

(** Drops that are not late are for lack of room. *)
Lemma drops_capacity log dropped :
  no_late log -> Forall2 drop_about dropped (drops_of log) ->
  Forall2 (fun o d => d = (ob_ObservedAt o, ob_Flow o, "window_capacity")) dropped (drops_of log).
Proof.
  intros Hno Hd. assert (Hr : forall d, d ∈ drops_of log -> d.2 <> "late_observation").
  { intros d (r & Hr & Er)%list_elem_of_omap. unfold no_late in Hno. rewrite Forall_forall in Hno. specialize (Hno r Hr).
    destruct r; try done. injection Er as <-. exact Hno. }
  induction Hd as [|o d dropped ds (reason & Hin & ->) Hd IH]; [constructor|]. constructor.
  - specialize (Hr _ (list_elem_of_here _ _)). cbn in Hr. set_solver.
  - apply IH. intros d Hin'. apply Hr. by right.
Qed.

(** The Pod enricher of the program measures nothing anew. *)
Lemma Enrich_bare_cache {R : MapRange string bool} (c : Cache) o : bare (PodIdentity.Enrich c o) = bare o.
Proof. done. Qed.

(** ** Theorems *)

(** C1. Every connection and sample event of a capture is in the output,
    once. When a run of the event loop ends, by the end of its source, by its
    number of events or by a cancellation, and reports no error, then the
    flow events its pump read, in whatever order the loop received them, held
    them back for their backend and gave up on them, are exactly the
    observations it aggregated and those it dropped; the windows it wrote are
    those Aggregate makes of the former, partial marks aside; and each of the
    latter has a record that names its time, its flow and the reason, which is
    the bound on open windows and never lateness. *)
Theorem capture_accounted {W} {WW : World W} {WL : WorldLaws W} {D} {HD : Hpack D}
    {R1 : MapRange connectionKey pendingRequest} {R2 : MapRange http2StreamKey pendingRequest}
    {RW : MapRange aggregateKey Window} opts config s (w : W) choices last :
  (forall o (w : W), bare (world_Enrich o w).2 = bare o) ->
  NewStream config = Ok s ->
  let '(st, e) := RunEvents (D := D) opts choices last (start w (Some s)) in
  ended (loop (D := D) opts choices (start w (Some s))).1 -> e = [] ->
  exists aggregated dropped windows,
    bare <$> aggregated ++ dropped ≡ₚ measured (op_node opts) (accepted (D := D) opts choices (start w (Some s))) /\
    Aggregate aggregated (WindowSize config) = Ok windows /\
    set_partial false <$> windows_of (ap_log st) ≡ₚ windows /\
    Forall2 (fun o d => d = (ob_ObservedAt o, ob_Flow o, "window_capacity")) dropped (drops_of (ap_log st)).
Proof.
  intros Hb Hs. pose proof (RunEvents_follows (D := D) opts Hb s choices last w) as H.
  pose proof (RunEvents_no_late (D := D) opts choices last (start w (Some s))) as Hlate.
  destruct (RunEvents opts choices last (start w (Some s))) as [st e]. intros Hend He.
  destruct (H Hend He) as (ops & t & E & (dropped & _ & Hem & Hd & HE) & Hl).
  destruct (run_aggregates RW config s ops t Hs) as (windows & Ha & Hw).
  exists (hi_accepted (Stream.run s (ops ++ [Stream.OpFinish t]))), dropped, windows. split_and!; [by rewrite HE|done| |].
  - by rewrite Hem, app_nil_r in Hw.
  - assert (Hno : no_late (ap_log st)) by (apply Hlate, start_inv; right; by exists config, s).
    by apply drops_capacity.
Qed.

(** *** Witness: a connection and two samples of it are read; the connection
    waits for its backend until the capture is cancelled. *)

#[local] Instance sample_world : World Time := {|
  world_now w := (w + 1, w);
  world_elapsed w := (w + 1, w);
  world_Resolve _ _ _ w := (w, None);
  world_ResolveAfter _ _ _ _ w := (w, None);
  world_Lookup _ w := (w, None);
  world_Enrich o w := (w, with_pods None None None o);
  world_Encode _ w := (w, None);
  world_Export _ w := (w, None);
  world_ExportTyped _ w := (w, None);
  world_Dropped w := (w, 0)
|}.

#[local] Instance sample_world_laws : WorldLaws Time.
Proof. by exists (fun w => w); intros; cbn; try lia. Defined.

#[local] Instance sample_hpack : Hpack unit := Http2.example_hpack.
#[local] Instance sample_range1 : MapRange connectionKey pendingRequest := canonical_range _ _.
#[local] Instance sample_range2 : MapRange http2StreamKey pendingRequest := canonical_range _ _.
#[local] Instance sample_range3 : MapRange aggregateKey Window := canonical_range _ _.

Definition sample_options : options := mkOptions "node" "both" 0 true true true true false false.
Definition sample_config : StreamConfig := mkStreamConfig 5 0 1.
Definition sample_stream : Stream := mkStream sample_config ∅ 0 false false.

Definition sample_event (kind port srtt : Z) : Event :=
  mkEvent kind 0 0 77 1 42 42 AddressFamilyIPv4 ProtocolTCP TCPStateSynSent TCPStateEstablished
    srtt 0 0 0 port 443 (replicate 16 x0a) (replicate 16 x0b) [] "" 0.

Definition sample_choices : list choice :=
  [Pump (ReadEvent (sample_event EventKindConnect 40000 0)); Pump (ReadEvent (sample_event EventKindTCPSample 40000 300));
   Tick; Receive; Receive; Pump (ReadEvent (sample_event EventKindTCPSample 40001 200)); Tick;
   Cancel [ReadEOF]; Receive; Receive; Receive].

Lemma capture_accounted_witness :
  let st := (RunEvents sample_options sample_choices [] (start unix_epoch (Some sample_stream) : app Time unit)).1 in
  length (measured "node" (accepted sample_options sample_choices (start unix_epoch (Some sample_stream) : app Time unit))) = 3%nat /\
  (length (drops_of (ap_log st)) <= 3)%nat /\
  exists aggregated windows,
    Aggregate aggregated 5 = Ok windows /\ set_partial false <$> windows_of (ap_log st) ≡ₚ windows.
Proof.
  pose proof (capture_accounted (D := unit) sample_options sample_config sample_stream unix_epoch sample_choices []
    (fun _ _ => eq_refl) eq_refl) as H.
  destruct (RunEvents sample_options sample_choices [] _) as [st e] eqn:E.
  assert (Ee : e = []) by (apply (f_equal snd) in E; cbn [snd] in E; rewrite <- E; vm_compute; reflexivity).
  destruct (H ltac:(split; [vm_compute; reflexivity|right; vm_compute; reflexivity]) Ee) as (aggregated & dropped & windows & Hp & Ha & Hw & Hd).
  assert (Hl : length (measured "node" (accepted sample_options sample_choices (start unix_epoch (Some sample_stream) : app Time unit))) = 3%nat)
    by (vm_compute; reflexivity).
  split; [exact Hl|]. split.
  - cbn [fst]. rewrite <- (Forall2_length _ _ _ Hd). apply Permutation_length in Hp. rewrite length_fmap, length_app in Hp.
    cbn [op_node sample_options] in Hp. rewrite Hl in Hp. lia.
  - exists aggregated, windows. split; [exact Ha|exact Hw].
Defined.
