(* ===== verification/Pack.v ===== *)
(** * internal/tagcount: packs

    pack.go, pack_coverage.go and pack_events.go: the tags and the data of a
    pack for a window, an HTTP or a DNS transaction and a coverage record, and
    the identity of an event record. golib's MapValue and SHA-256 are
    parameters. *)

From stdpp Require Import pretty.
From S2P Require Import Prelude Text Flow NetAddr L7Types DnsParse Dns DnsSpec Bridge.

#[local] Open Scope Z_scope.

(** ** Definitions *)

(** *** golib's MapValue *)

Class MapValue (M : Type) := {
  NewMapValue : M;
  PutString : M -> string -> string -> M;
  PutLong : M -> string -> Z -> M;
  GetString : M -> string -> string;
  GetLong : M -> string -> Z;
  ContainsKey : M -> string -> bool;
  Keys : M -> list string (* in the order of its enumeration *)
}.

Definition text_of (v : option field_value) : string := match v with Some (FString s) => s | _ => "" end.
Definition long_of (v : option field_value) : Z := match v with Some (FLong n) => n | _ => 0 end.

(** What is relied on: it is a map, and the enumeration visits every key
    once, in any order. *)
Class MapValueLaws (M : Type) `{MapValue M} := {
  contents : M -> gmap string field_value;
  contents_new : contents NewMapValue = ∅;
  contents_PutString m k s : contents (PutString m k s) = <[k := FString s]> (contents m);
  contents_PutLong m k n : contents (PutLong m k n) = <[k := FLong n]> (contents m);
  contents_GetString m k : GetString m k = text_of (contents m !! k);
  contents_GetLong m k : GetLong m k = long_of (contents m !! k);
  contents_ContainsKey m k : ContainsKey m k = bool_decide (is_Some (contents m !! k));
  contents_Keys m : Keys m ≡ₚ (map_to_list (contents m)).*1
}.

Inductive PackError :=
| invalid_identity
| request_error (e : BridgeError)
| invalid_http
| invalid_dns
| invalid_dns_outcome
| unmeasured_latency
| metadata_without_response
| invalid_dns_reason
| invalid_coverage.

(** pack.TagCountPack *)
Record TagCountPack (M : Type) := mkPack {
  p_Pcode : Z;
  p_Oid : Z;
  p_Time : Z;
  p_Category : string;
  p_Tags : M;
  p_Data : M
}.

Arguments mkPack {M}.
Arguments p_Pcode {M}.
Arguments p_Oid {M}.
Arguments p_Time {M}.
Arguments p_Category {M}.
Arguments p_Tags {M}.
Arguments p_Data {M}.

Definition Category : string := "kube_network_edge_v1alpha1".
Definition CoverageCategory : string := "kube_network_coverage_v1alpha1".
Definition HTTPCategory : string := "kube_network_http_v1alpha1".
Definition DNSCategory : string := "kube_network_dns_v1alpha1".

(** *** Validation *)

(** eventASCII *)
Definition eventASCII (s : list byte) (max : nat) : bool :=
  if (length s =? 0)%nat || (max <? length s)%nat then false else forallb is_graphic s.

(** validCoverageToken ranges over runes: up to the first byte past ASCII,
    which is rejected, they are the bytes. *)
Definition validCoverageToken (value : list byte) (limit : nat) : bool :=
  if (length value =? 0)%nat || (limit <? length value)%nat then false
  else forallb (fun b => negb ((byte_val b <=? 32) || (126 <? byte_val b))) value.

Definition validEventEndpoint (e : Endpoint) : bool :=
  match ParseAddr (bytes_of_string (ep_Address e)) with
  | None => false
  | Some ip => (length (ad_zone ip) =? 0)%nat && negb (IsUnspecified ip) && negb (IsMulticast ip) &&
               negb (ep_Port e =? 0)
  end.

Definition validDNSObservedEndpoint (e : Endpoint) : bool :=
  match ParseAddr (bytes_of_string (ep_Address e)) with
  | None => false
  | Some ip => (length (ad_zone ip) =? 0)%nat
  end.

(** eventResolutionVia is the pattern of a bridge token. *)
Definition validEventResolved (r : option ResolvedEndpoint) : bool :=
  match r with
  | None => true
  | Some r => validEventEndpoint (mkEndpoint (re_Address r) (re_Port r)) && token (bytes_of_string (re_Via r))
  end.

Definition validEventEnvelope (observed : Time) (node : string) (pid : Z) (process : option Process)
    (pcode oid : Z) : bool :=
  let sec := time_Unix observed in
  let subMS := time_Nanosecond observed / Millisecond in
  if (pcode <=? 0) || (oid =? 0) || (sec <? 0) || ((MaxInt64 - subMS) / 1000 <? sec) ||
     (time_UnixMilli observed <=? 0) || negb (eventASCII (bytes_of_string node) 253) then false
  else match process with
       | None => true
       | Some process =>
           if negb (pid =? 0) && negb (pr_PID process =? 0) && negb (pid =? pr_PID process) then false
           else if negb (bool_decide (pr_ContainerID process = "")) &&
                   negb (eventASCII (bytes_of_string (pr_ContainerID process)) 128) then false
           else true
       end.

Definition HTTP_methods : list (list byte) :=
  lit <$> ["GET"; "POST"; "PUT"; "DELETE"; "HEAD"; "OPTIONS"; "PATCH"; "TRACE"; "CONNECT"].

Definition validHTTPMethod (method : list byte) : bool := bool_decide (method ∈ HTTP_methods).

Definition validHTTPBoundary (t : L7Types.Transaction) : bool :=
  (bool_decide (L7Types.tx_Protocol t = ProtocolHTTP1) && bool_decide (tx_LatencyBoundary t = BoundaryResponseStatus)) ||
  (bool_decide (L7Types.tx_Protocol t = ProtocolHTTP2) && bool_decide (tx_LatencyBoundary t = BoundaryResponseHeaders)).

(** *** The record identity *)

(** strconv.FormatInt in base ten *)
Definition FormatInt (n : Z) : list byte := bytes_of_string (pretty n).

Definition hex_EncodeToString (l : list byte) : string :=
  string_of_bytes (flat_map (fun b => [digit_byte (byte_val b / 16); digit_byte (byte_val b mod 16)]) l).

(** field: Sprintf of length, colon and text *)
Definition field (s : list byte) : list byte := FormatInt (Z.of_nat (length s)) ++ byte_of 58 :: s.

(** sort.Strings *)
Definition sort_Strings (l : list string) : list string := sort_Slice (fun x y => gocmp x y <? 0) l.

Section pack.
Context {M : Type} {MV : MapValue M}.
Context (Sum256 : list byte -> list byte).
(** The JSON of a coverage record's identity *)
Context (coverage_json : string -> Time -> string -> Z -> string -> string -> string -> Z -> list byte).
(** The hexadecimal SHA-256 of a window's JSON *)
Context (digest : Window -> string).

Definition NewTagCountPack (pcode oid time : Z) (category : string) : TagCountPack M :=
  mkPack pcode oid time category NewMapValue NewMapValue.

Definition put_tag (key value : string) (p : TagCountPack M) : TagCountPack M :=
  mkPack (p_Pcode p) (p_Oid p) (p_Time p) (p_Category p) (PutString (p_Tags p) key value) (p_Data p).

Definition put_data (key : string) (value : Z) (p : TagCountPack M) : TagCountPack M :=
  mkPack (p_Pcode p) (p_Oid p) (p_Time p) (p_Category p) (p_Tags p) (PutLong (p_Data p) key value).

(** The parts of the tags or of the data that are hashed *)
Definition map_fields (m : M) (value : string -> list byte) : list (list byte) :=
  let keys := sort_Strings (Keys m) in
  FormatInt (Z.of_nat (length keys)) :: flat_map (fun k => [bytes_of_string k; value k]) keys.

Definition record_fields (p : TagCountPack M) (observed : Time) (process : option Process) : list (list byte) :=
  [bytes_of_string (p_Category p); FormatInt (p_Pcode p); FormatInt (p_Oid p); FormatInt (time_Unix observed);
   FormatInt (time_Nanosecond observed);
   FormatInt (match process with Some process => pr_StartTimeTicks process | None => 0 end)] ++
  map_fields (p_Tags p) (fun k => bytes_of_string (GetString (p_Tags p) k)) ++
  map_fields (p_Data p) (fun k => FormatInt (GetLong (p_Data p) k)).

(** What is written to the hash *)
Definition record_preimage (p : TagCountPack M) (observed : Time) (process : option Process) : list byte :=
  flat_map field (record_fields p observed process).

Definition eventRecordID (p : TagCountPack M) (observed : Time) (process : option Process) : string :=
  hex_EncodeToString (Sum256 (record_preimage p observed process)).

(** *** The packs *)

Definition putEventObserver (pid : Z) (process : option Process) (p : TagCountPack M) : TagCountPack M :=
  let '(pid, p) :=
    match process with
    | None => (pid, p)
    | Some process =>
        (if pid =? 0 then pr_PID process else pid,
         if bool_decide (pr_ContainerID process = "") then p
         else put_tag "observer_container_id" (pr_ContainerID process) p)
    end in
  if pid =? 0 then p else put_data "observer_pid" pid p.

Definition putEventResolved (prefix : string) (r : option ResolvedEndpoint) (p : TagCountPack M) : TagCountPack M :=
  match r with
  | None => p
  | Some r =>
      put_data (prefix +:+ "_resolved_port") (re_Port r)
        (put_tag (prefix +:+ "_resolution_via") (re_Via r)
           (put_tag (prefix +:+ "_resolved_addr") (re_Address r) p))
  end.

Definition putEventPod (prefix : string) (pod : option Pod) (p : TagCountPack M) : TagCountPack M :=
  match pod with
  | None => p
  | Some pod =>
      if bool_decide (pod_UID pod = "") then p
      else put_tag (prefix +:+ "_pod_name") (pod_Name pod)
             (put_tag (prefix +:+ "_pod_namespace") (pod_Namespace pod)
                (put_tag (prefix +:+ "_pod_uid") (pod_UID pod) p))
  end.

(** [when b f p] is [if b { f }]. *)
Definition when (b : bool) (f : TagCountPack M -> TagCountPack M) (p : TagCountPack M) : TagCountPack M :=
  if b then f p else p.

#[local] Notation "p |> f" := (f p) (at level 62, left associativity, only parsing).

(** PackForWindow *)
Definition request_of (fields : list (string * field_value)) : M :=
  foldl (fun m kv => match kv.2 with FString s => PutString m kv.1 s | FLong n => PutLong m kv.1 n end)
    NewMapValue fields.

Definition window_tags : list string :=
  ["schema"; "observer_node"; "protocol"; "src_addr"; "dst_addr"; "observer_role"; "observer_container_id";
   "src_resolved_addr"; "src_resolution_via"; "dst_resolved_addr"; "dst_resolution_via"].

Definition window_data : list string :=
  ["src_port"; "dst_port"; "window_start_ms"; "window_end_ms"; "srtt_count"; "srtt_sum_us"; "srtt_min_us";
   "srtt_max_us"; "src_resolved_port"; "dst_resolved_port"].

Definition copy_tags (request : M) (keys : list string) (p : TagCountPack M) : TagCountPack M :=
  foldl (fun p key => when (ContainsKey request key) (put_tag key (GetString request key)) p) p keys.

Definition copy_data (request : M) (keys : list string) (p : TagCountPack M) : TagCountPack M :=
  foldl (fun p key => when (ContainsKey request key) (put_data key (GetLong request key)) p) p keys.

Definition PackForWindow (w : Window) (pcode oid : Z) : result PackError (TagCountPack M) :=
  if (pcode <=? 0) || (oid =? 0) then Err invalid_identity
  else
    match RequestForWindow digest w with
    | Err e => Err (request_error e)
    | Ok fields =>
        let request := request_of fields in
        Ok (NewTagCountPack pcode oid (GetLong request "window_start_ms") Category
            |> putEventPod "src" (wi_SourcePod w)
            |> putEventPod "dst" (wi_DestinationPod w)
            |> putEventPod "observer" (wi_ObserverPod w)
            |> copy_tags request window_tags
            |> copy_data request window_data)
    end.

(** PackForL7 *)
Definition PackForL7 (t : L7Types.Transaction) (pcode oid : Z) : result PackError (TagCountPack M) :=
  let key := tx_Flow t in
  if negb (validEventEnvelope (L7Types.tx_ObservedAt t) (fk_NodeName key) (L7Types.tx_ObserverPID t)
             (L7Types.tx_Process t) pcode oid) ||
     negb (bool_decide (L7Types.tx_SchemaVersion t = L7Types.SchemaVersion)) ||
     negb (bool_decide (fk_Protocol key = "tcp")) || negb (bool_decide (fk_Direction key = "client-to-server")) ||
     (negb (bool_decide (L7Types.tx_Protocol t = ProtocolHTTP1)) &&
      negb (bool_decide (L7Types.tx_Protocol t = ProtocolHTTP2))) ||
     (negb (bool_decide (tx_Source t = SourceKernelPlaintext)) && negb (bool_decide (tx_Source t = SourceOpenSSL))) ||
     negb (validHTTPBoundary t) || (tx_StatusCode t <? 200) || (599 <? tx_StatusCode t) ||
     (MaxInt64 <? tx_ResponseLatencyMicros t) || negb (validHTTPMethod (tx_Method t)) ||
     (bool_decide (L7Types.tx_Protocol t = ProtocolHTTP1) && negb (tx_StreamID t =? 0)) ||
     (bool_decide (L7Types.tx_Protocol t = ProtocolHTTP2) && (tx_StreamID t =? 0)) ||
     (2 ^ 31 - 1 <? tx_StreamID t) ||
     negb (validEventEndpoint (fk_Source key)) || negb (validEventEndpoint (fk_Destination key)) ||
     negb (validEventResolved (tx_SourceResolved t)) || negb (validEventResolved (tx_DestinationResolved t))
  then Err invalid_http
  else
    let time := time_UnixMilli (L7Types.tx_ObservedAt t) in
    let p :=
      NewTagCountPack pcode oid time HTTPCategory
      |> put_tag "schema" (L7Types.tx_SchemaVersion t)
      |> put_tag "observer_node" (fk_NodeName key)
      |> put_tag "protocol" (L7Types.tx_Protocol t)
      |> put_tag "source" (tx_Source t)
      |> put_tag "src_addr" (ep_Address (fk_Source key))
      |> put_tag "dst_addr" (ep_Address (fk_Destination key))
      |> put_tag "http_method" (string_of_bytes (tx_Method t))
      |> put_tag "latency_boundary" (tx_LatencyBoundary t)
      |> put_data "src_port" (ep_Port (fk_Source key))
      |> put_data "dst_port" (ep_Port (fk_Destination key))
      |> put_data "observed_at_ms" time
      |> put_data "http_status" (tx_StatusCode t)
      |> put_data "latency_us" (i64 (tx_ResponseLatencyMicros t))
      |> put_data "transaction_count" 1
      |> putEventObserver (L7Types.tx_ObserverPID t) (L7Types.tx_Process t)
      |> putEventResolved "src" (tx_SourceResolved t)
      |> putEventResolved "dst" (tx_DestinationResolved t)
      |> putEventPod "src" (tx_SourcePod t)
      |> putEventPod "dst" (tx_DestinationPod t)
      |> putEventPod "observer" (L7Types.tx_ObserverPod t)
      |> when (negb (tx_StreamID t =? 0)) (put_data "stream_id" (tx_StreamID t)) in
    Ok (p |> put_tag "record_id" (eventRecordID p (L7Types.tx_ObservedAt t) (L7Types.tx_Process t))).

(** PackForDNS *)
Definition dns_outcome_known (outcome : string) : bool :=
  bool_decide (outcome ∈ [OutcomeResponse; OutcomeNoResponse; OutcomeParseError; OutcomeIncomplete]).

Definition PackForDNS (t : Dns.Transaction) (pcode oid : Z) : result PackError (TagCountPack M) :=
  if negb (validEventEnvelope (tx_ObservedAt t) (tx_NodeName t) (tx_ObserverPID t) (tx_Process t) pcode oid) ||
     negb (bool_decide (tx_SchemaVersion t = SchemaVersion)) || negb (bool_decide (tx_Protocol t = "udp")) ||
     negb (validDNSObservedEndpoint (tx_Client t)) || negb (validDNSObservedEndpoint (tx_Server t)) ||
     negb (validEventResolved (tx_ClientResolved t)) || negb (validEventResolved (tx_ServerResolved t)) ||
     negb (ValidQuestionName (bytes_of_string (tx_QueryName t))) ||
     (negb (bool_decide (tx_QueryType t = "")) && negb (eventASCII (bytes_of_string (tx_QueryType t)) 32)) ||
     (negb (bool_decide (tx_ResponseCode t = "")) && negb (eventASCII (bytes_of_string (tx_ResponseCode t)) 16)) ||
     (MaxInt64 <? tx_LatencyMicros t)
  then Err invalid_dns
  else if negb (dns_outcome_known (tx_Outcome t)) then Err invalid_dns_outcome
  else if negb (tx_LatencyMeasured t) && negb (tx_LatencyMicros t =? 0) then Err unmeasured_latency
  else if negb (bool_decide (tx_Outcome t = OutcomeResponse)) &&
          (negb (bool_decide (tx_ResponseCode t = "")) || tx_LatencyMeasured t || negb (tx_LatencyMicros t =? 0))
  then Err metadata_without_response
  else if negb (bool_decide (tx_Reason t = "")) &&
          (negb (bool_decide (tx_Outcome t = OutcomeIncomplete)) ||
           (negb (bool_decide (tx_Reason t = ReasonCaptureEnded)) &&
            negb (bool_decide (tx_Reason t = ReasonStateCapacity))))
  then Err invalid_dns_reason
  else
    let time := time_UnixMilli (tx_ObservedAt t) in
    let p :=
      NewTagCountPack pcode oid time DNSCategory
      |> put_tag "schema" (tx_SchemaVersion t)
      |> put_tag "observer_node" (tx_NodeName t)
      |> put_tag "protocol" (tx_Protocol t)
      |> put_tag "client_addr" (ep_Address (tx_Client t))
      |> put_tag "server_addr" (ep_Address (tx_Server t))
      |> when (negb (bool_decide (tx_QueryName t = ""))) (put_tag "query_name" (tx_QueryName t))
      |> when (negb (bool_decide (tx_QueryType t = ""))) (put_tag "query_type" (tx_QueryType t))
      |> put_tag "outcome" (tx_Outcome t)
      |> when (negb (bool_decide (tx_Reason t = ""))) (put_tag "reason" (tx_Reason t))
      |> when (negb (bool_decide (tx_ResponseCode t = ""))) (put_tag "rcode" (tx_ResponseCode t))
      |> put_data "client_port" (ep_Port (tx_Client t))
      |> put_data "server_port" (ep_Port (tx_Server t))
      |> put_data "observed_at_ms" time
      |> put_data "transaction_count" 1
      |> put_data "response_count" 0
      |> when (bool_decide (tx_Outcome t = OutcomeResponse)) (put_data "response_count" 1)
      |> when (tx_LatencyMeasured t) (put_data "latency_us" (i64 (tx_LatencyMicros t)))
      |> putEventObserver (tx_ObserverPID t) (tx_Process t)
      |> putEventResolved "client" (tx_ClientResolved t)
      |> putEventResolved "server" (tx_ServerResolved t)
      |> putEventPod "client" (tx_ClientPod t)
      |> putEventPod "server" (tx_ServerPod t)
      |> putEventPod "observer" (tx_ObserverPod t) in
    Ok (p |> put_tag "record_id" (eventRecordID p (tx_ObservedAt t) (tx_Process t))).

(** PackForL7Drop. The year of the instant is taken in UTC. *)
Definition year_10000 : Time := unix_epoch + 253402300800 * Second.

Definition PackForL7Drop (d : Drop) (pcode oid : Z) : result PackError (TagCountPack M) :=
  if (pcode <=? 0) || (oid =? 0) then Err invalid_identity
  else if negb (bool_decide (dr_SchemaVersion d = L7Types.SchemaVersion)) || negb (bool_decide (dr_Outcome d = "drop"))
  then Err invalid_coverage
  else if time_IsZero (dr_ObservedAt d) || (time_UnixMilli (dr_ObservedAt d) <=? 0) || (year_10000 <=? dr_ObservedAt d)
  then Err invalid_coverage
  else if negb (validCoverageToken (bytes_of_string (dr_NodeName d)) 253) ||
          negb (validCoverageToken (bytes_of_string (dr_Reason d)) 128)
  then Err invalid_coverage
  else if negb (bool_decide (dr_Source d ∈ [""; SourceKernelPlaintext; SourceOpenSSL])) then Err invalid_coverage
  else if negb (bool_decide (dr_Protocol d ∈ [""; ProtocolHTTP1; ProtocolHTTP2])) then Err invalid_coverage
  else if (dr_Count d =? 0) || (2 ^ 53 - 1 <? dr_Count d) then Err invalid_coverage
  else
    let time := time_UnixMilli (dr_ObservedAt d) in
    let key := coverage_json (dr_SchemaVersion d) (dr_ObservedAt d) (dr_NodeName d) (dr_ObserverPID d)
                 (dr_Protocol d) (dr_Source d) (dr_Reason d) (dr_Count d) in
    Ok (NewTagCountPack pcode oid time CoverageCategory
        |> put_tag "schema" (dr_SchemaVersion d)
        |> put_tag "observer_node" (dr_NodeName d)
        |> put_tag "outcome" (dr_Outcome d)
        |> put_tag "reason" (dr_Reason d)
        |> when (negb (bool_decide (dr_Source d = ""))) (put_tag "source" (dr_Source d))
        |> when (negb (bool_decide (dr_Protocol d = ""))) (put_tag "protocol" (dr_Protocol d))
        |> put_data "observed_at_ms" time
        |> put_data "coverage_record_count" 1
        |> put_data "reported_count" (i64 (dr_Count d))
        |> when (negb (dr_ObserverPID d =? 0)) (put_data "observer_pid" (dr_ObserverPID d))
        |> put_tag "record_id" (hex_EncodeToString (Sum256 key))).
End pack.

(** ** Lemmas *)

Lemma Ok_inj {E A} (x y : A) : @Ok E A x = Ok y -> x = y.
Proof. by intros [= ->]. Qed.

(** *** Framing *)

Lemma FormatInt_digits n : 0 <= n -> Forall (fun b => is_decimal_digit b = true) (FormatInt n).
Proof.
  intros Hn. unfold FormatInt, pretty, pretty_Z. destruct n as [|p|p]; [by repeat constructor| |lia].
  unfold pretty, pretty_positive, pretty, pretty_N. case_decide; [done|]. apply pretty_N_go_digits. constructor.
Qed.

#[export] Instance bytes_of_string_inj : Inj (=) (=) bytes_of_string.
Proof.
  intros x y E. unfold bytes_of_string in E.
  rewrite <- (String.string_of_list_byte_of_string x), <- (String.string_of_list_byte_of_string y). by f_equal.
Qed.

#[export] Instance FormatInt_inj : Inj (=) (=) FormatInt.
Proof. intros x y E. by apply (inj bytes_of_string), (inj pretty) in E. Qed.

Lemma FormatInt_no_colon n : 0 <= n -> byte_of 58 ∉ FormatInt n.
Proof.
  intros Hn Hin. pose proof (FormatInt_digits n Hn) as H. rewrite Forall_forall in H. by apply H in Hin.
Qed.

Lemma field_inj s s' r r' : field s ++ r = field s' ++ r' -> s = s' /\ r = r'.
Proof.
  unfold field. rewrite <- !app_assoc. cbn [app]. intros E.
  pose proof (cut_byte_app (byte_of 58) (FormatInt (Z.of_nat (length s))) (s ++ r)
    (FormatInt_no_colon (Z.of_nat (length s)) ltac:(lia))) as H.
  rewrite E, cut_byte_app in H by (apply FormatInt_no_colon; lia).
  injection H as H1 H2. apply (inj FormatInt) in H1. apply Nat2Z.inj in H1.
  symmetry in H2. by apply app_inj_1 in H2 as [-> ->].
Qed.

Lemma fields_inj l l' : flat_map field l = flat_map field l' -> l = l'.
Proof.
  revert l'. induction l as [|s l IH]; intros [|s' l']; cbn [flat_map]; [done| | |].
  1, 2: unfold field; destruct (FormatInt _); done.
  intros E. apply field_inj in E as [-> E]. f_equal. by apply IH.
Qed.

Lemma pairs_inj {A} (f g f' g' : A -> list byte) (l l' : list A) :
  Inj (=) (=) f -> f = f' -> flat_map (fun k => [f k; g k]) l = flat_map (fun k => [f' k; g' k]) l' ->
  l = l' /\ Forall (fun k => g k = g' k) l.
Proof.
  intros Hf <-. revert l'. induction l as [|k l IH]; intros [|k' l']; cbn; try done. intros [= E1 E2 E3].
  apply (inj f) in E1 as ->. destruct (IH _ E3) as [-> H]. split; [done|]. by apply Forall_cons.
Qed.

Lemma flat_map_pairs_length {A B} (f g : A -> B) (l : list A) : length (flat_map (fun k => [f k; g k]) l) = (2 * length l)%nat.
Proof. induction l as [|x l IH]; cbn; [done|]. cbn in IH. lia. Qed.

(** *** Packs *)

Section laws.
Context {M : Type} {MV : MapValue M} {ML : MapValueLaws M}.
#[local] Abbreviation pack := (TagCountPack M).

(** Tags are texts and data are numbers *)
Definition typed (p : pack) : Prop :=
  map_Forall (fun _ v => exists s, v = FString s) (contents (p_Tags p)) /\
  map_Forall (fun _ v => exists n, v = FLong n) (contents (p_Data p)).

Lemma sorted_keys_unique (m m' : M) :
  (map_to_list (contents m)).*1 ≡ₚ (map_to_list (contents m')).*1 -> sort_Strings (Keys m) = sort_Strings (Keys m').
Proof.
  intros Hp. unfold sort_Strings. apply (sort_Slice_Proper id); [done|by rewrite !contents_Keys|done].
Qed.

Lemma map_fields_length (m : M) value :
  length (map_fields m value) = S (2 * length (sort_Strings (Keys m))).
Proof. unfold map_fields. cbn [length]. by rewrite (flat_map_pairs_length bytes_of_string). Qed.

(** The fields of a map determine what they were read from, and what follows. *)
Lemma map_fields_inj (m m' : M) value value' r r' :
  map_fields m value ++ r = map_fields m' value' ++ r' ->
  sort_Strings (Keys m) = sort_Strings (Keys m') /\ r = r' /\
  (forall k, is_Some (contents m !! k) -> value k = value' k).
Proof.
  intros E. assert (El : length (map_fields m value) = length (map_fields m' value')).
  { rewrite !map_fields_length. unfold map_fields in E. cbn [app] in E. injection E as E _.
    apply (inj FormatInt) in E. lia. }
  apply app_inj_1 in E as [E ->]; [|done]. unfold map_fields in E. injection E as _ E.
  apply pairs_inj in E as [Ek Ev]; [|apply _|done]. split; [done|]. split; [done|]. intros k [v Hk].
  rewrite Forall_forall in Ev. apply Ev. unfold sort_Strings. rewrite sort_Slice_perm, contents_Keys.
  apply list_elem_of_fmap. exists (k, v). split; [done|]. by apply elem_of_map_to_list.
Qed.

Lemma sorted_keys_dom (m m' : M) :
  sort_Strings (Keys m) = sort_Strings (Keys m') ->
  forall k, is_Some (contents m !! k) <-> is_Some (contents m' !! k).
Proof.
  intros E. assert (H : forall m : M, forall k, k ∈ sort_Strings (Keys m) <-> is_Some (contents m !! k)).
  { intros m0 k. unfold sort_Strings. rewrite sort_Slice_perm, contents_Keys, list_elem_of_fmap. split.
    - intros ([k' v] & -> & Hin). apply elem_of_map_to_list in Hin. by exists v.
    - intros [v Hv]. exists (k, v). split; [done|]. by apply elem_of_map_to_list. }
  intros k. by rewrite <- !H, E.
Qed.

(** Equal fields of typed maps come from equal contents. *)
Lemma contents_eq (m m' : M) (P : field_value -> Prop) {B} (get : option field_value -> B) :
  (forall v v', P v -> P v' -> get (Some v) = get (Some v') -> v = v') ->
  map_Forall (fun _ => P) (contents m) -> map_Forall (fun _ => P) (contents m') ->
  sort_Strings (Keys m) = sort_Strings (Keys m') ->
  (forall k, is_Some (contents m !! k) -> get (contents m !! k) = get (contents m' !! k)) ->
  contents m = contents m'.
Proof.
  intros Hinj HP HP' Hk Hv. apply map_eq. intros k. pose proof (sorted_keys_dom _ _ Hk k) as Hd.
  specialize (Hv k). destruct (contents m !! k) as [v|] eqn:E, (contents m' !! k) as [v'|] eqn:E'; [|naive_solver..|done].
  f_equal. apply Hinj; [by apply (HP k)|by apply (HP' k)|by apply Hv].
Qed.

Lemma map_fields_eq (m m' : M) value value' :
  contents m = contents m' -> (forall k, value k = value' k) -> map_fields m value = map_fields m' value'.
Proof.
  intros E Ev. unfold map_fields. rewrite (sorted_keys_unique m m') by (by rewrite E). f_equal.
  induction (sort_Strings (Keys m')) as [|k l IH]; cbn; [done|]. by rewrite Ev, IH.
Qed.

Lemma time_parts (t t' : Time) : time_Unix t = time_Unix t' -> time_Nanosecond t = time_Nanosecond t' -> t = t'.
Proof.
  unfold time_Unix, time_Nanosecond. intros E1 E2.
  pose proof (Z.div_mod (t - unix_epoch) Second ltac:(done)). pose proof (Z.div_mod (t' - unix_epoch) Second ltac:(done)).
  lia.
Qed.

(** *** The schema *)

Definition tag_keys : list string :=
  ["schema"; "observer_node"; "protocol"; "source"; "src_addr"; "dst_addr"; "client_addr"; "server_addr";
   "http_method"; "latency_boundary"; "query_name"; "query_type"; "outcome"; "reason"; "rcode"; "observer_role";
   "observer_container_id"; "src_resolved_addr"; "src_resolution_via"; "dst_resolved_addr"; "dst_resolution_via";
   "client_resolved_addr"; "client_resolution_via"; "server_resolved_addr"; "server_resolution_via";
   "src_pod_uid"; "src_pod_namespace"; "src_pod_name"; "dst_pod_uid"; "dst_pod_namespace"; "dst_pod_name";
   "client_pod_uid"; "client_pod_namespace"; "client_pod_name"; "server_pod_uid"; "server_pod_namespace";
   "server_pod_name"; "observer_pod_uid"; "observer_pod_namespace"; "observer_pod_name"; "record_id"].

Definition data_keys : list string :=
  ["src_port"; "dst_port"; "client_port"; "server_port"; "observed_at_ms"; "http_status"; "latency_us";
   "transaction_count"; "response_count"; "stream_id"; "observer_pid"; "window_start_ms"; "window_end_ms";
   "srtt_count"; "srtt_sum_us"; "srtt_min_us"; "srtt_max_us"; "src_resolved_port"; "dst_resolved_port";
   "client_resolved_port"; "server_resolved_port"; "coverage_record_count"; "reported_count"].

(** Typed, and every key is one of the schema's *)
Definition schema (p : pack) : Prop :=
  map_Forall (fun k v => k ∈ tag_keys /\ exists s, v = FString s) (contents (p_Tags p)) /\
  map_Forall (fun k v => k ∈ data_keys /\ exists n, v = FLong n) (contents (p_Data p)).

Lemma schema_typed p : schema p -> typed p.
Proof. intros [H1 H2]. split; eapply map_Forall_impl; [exact H1| |exact H2|]; naive_solver. Qed.

Lemma schema_new pcode oid time category : schema (NewTagCountPack pcode oid time category).
Proof. split; cbn; rewrite contents_new; apply map_Forall_empty. Qed.

Lemma schema_tag k v p : bool_decide (k ∈ tag_keys) = true -> schema p -> schema (put_tag k v p).
Proof.
  intros Hk%bool_decide_eq_true [H1 H2]. split; [|done]. cbn. rewrite contents_PutString.
  apply map_Forall_insert_2; [|done]. split; [done|]. by exists v.
Qed.

Lemma schema_data k n p : bool_decide (k ∈ data_keys) = true -> schema p -> schema (put_data k n p).
Proof.
  intros Hk%bool_decide_eq_true [H1 H2]. split; [done|]. cbn. rewrite contents_PutLong.
  apply map_Forall_insert_2; [|done]. split; [done|]. by exists n.
Qed.

Lemma schema_when b f p : (schema p -> schema (f p)) -> schema p -> schema (when b f p).
Proof. destruct b; auto. Qed.

Lemma schema_observer pid process p : schema p -> schema (putEventObserver pid process p).
Proof.
  intros Hp. unfold putEventObserver. destruct process as [process|].
  - set (p' := if bool_decide _ then _ else _).
    assert (schema p') by (unfold p'; destruct (bool_decide _); [done|by apply schema_tag]).
    destruct (_ =? 0); [done|by apply schema_data].
  - destruct (pid =? 0); [done|by apply schema_data].
Qed.

Definition prefixes : list string := ["src"; "dst"; "client"; "server"].

Lemma schema_resolved prefix r p : prefix ∈ prefixes -> schema p -> schema (putEventResolved prefix r p).
Proof.
  intros Hin Hp. destruct r as [r|]; [|done]. unfold prefixes in Hin. rewrite !elem_of_cons in Hin.
  destruct Hin as [->|[->|[->|[->|Hin]]]]; [..|by apply not_elem_of_nil in Hin];
    by apply schema_data; [vm_compute|apply schema_tag; [vm_compute|apply schema_tag; [vm_compute|]]].
Qed.

Lemma schema_pod prefix pod p : prefix ∈ "observer" :: prefixes -> schema p -> schema (putEventPod prefix pod p).
Proof.
  intros Hin Hp. destruct pod as [pod|]; [|done]. cbn. destruct (bool_decide _); [done|].
  unfold prefixes in Hin. rewrite !elem_of_cons in Hin.
  destruct Hin as [->|[->|[->|[->|[->|Hin]]]]]; [..|by apply not_elem_of_nil in Hin];
    by apply schema_tag; [vm_compute|apply schema_tag; [vm_compute|apply schema_tag; [vm_compute|]]].
Qed.

Lemma schema_copy_tags request keys p :
  forallb (fun k => bool_decide (k ∈ tag_keys)) keys = true -> schema p -> schema (copy_tags request keys p).
Proof.
  revert p. induction keys as [|k keys IH]; intros p; cbn [forallb copy_tags foldl]; [done|].
  intros [Hk H]%andb_true_iff Hp. apply IH; [done|]. apply schema_when; [|done]. by apply schema_tag.
Qed.

Lemma schema_copy_data request keys p :
  forallb (fun k => bool_decide (k ∈ data_keys)) keys = true -> schema p -> schema (copy_data request keys p).
Proof.
  revert p. induction keys as [|k keys IH]; intros p; cbn [forallb copy_data foldl]; [done|].
  intros [Hk H]%andb_true_iff Hp. apply IH; [done|]. apply schema_when; [|done]. by apply schema_data.
Qed.

(** The conditions under which a function returned an error *)
Ltac err_cases H :=
  repeat match type of H with (if ?b then Err _ else _) = Ok _ => destruct b eqn:?; [discriminate H|] end.

Context (Sum256 : list byte -> list byte).
Context (coverage_json : string -> Time -> string -> Z -> string -> string -> string -> Z -> list byte).
Context (digest : Window -> string).

(** A pack one of the four functions made *)
Inductive built (pcode oid : Z) : pack -> Prop :=
| built_window w p : PackForWindow digest w pcode oid = Ok p -> built pcode oid p
| built_l7 t p : PackForL7 Sum256 t pcode oid = Ok p -> built pcode oid p
| built_dns t p : PackForDNS Sum256 t pcode oid = Ok p -> built pcode oid p
| built_drop d p : PackForL7Drop Sum256 coverage_json d pcode oid = Ok p -> built pcode oid p.

(** Straight-line construction *)
Ltac schema :=
  repeat match goal with
    | H : schema ?p |- schema ?p => exact H
    | |- schema (when _ _ _) => apply schema_when; [intros ?|]
    | |- schema (put_tag _ _ _) => apply schema_tag; [vm_compute; reflexivity|]
    | |- schema (put_data _ _ _) => apply schema_data; [vm_compute; reflexivity|]
    | |- schema (putEventObserver _ _ _) => apply schema_observer
    | |- schema (putEventResolved _ _ _) => apply schema_resolved; [apply (bool_decide_unpack _); vm_compute; reflexivity|]
    | |- schema (putEventPod _ _ _) => apply schema_pod; [apply (bool_decide_unpack _); vm_compute; reflexivity|]
    | |- schema (copy_tags _ _ _) => apply schema_copy_tags; [vm_compute; reflexivity|]
    | |- schema (copy_data _ _ _) => apply schema_copy_data; [vm_compute; reflexivity|]
    | |- schema (NewTagCountPack _ _ _ _) => apply schema_new
    end.

Lemma built_schema pcode oid p : built pcode oid p -> schema p.
Proof.
  intros [w p0 H|t p0 H|t p0 H|d p0 H].
  - unfold PackForWindow in H. destruct (_ || _); [done|]. destruct (RequestForWindow digest w); [|done].
    injection H as <-. schema.
  - unfold PackForL7 in H. destruct (_ || _); [done|]. injection H as <-. schema.
  - unfold PackForDNS in H. err_cases H. injection H as <-. schema.
  - unfold PackForL7Drop in H. err_cases H. injection H as <-. schema.
Qed.

Definition categories : list string := [Category; HTTPCategory; DNSCategory; CoverageCategory].

Lemma envelope_valid observed node pid process pcode oid :
  validEventEnvelope observed node pid process pcode oid = true ->
  0 < pcode /\ oid <> 0 /\ 0 < time_UnixMilli observed.
Proof.
  unfold validEventEnvelope. destruct (_ || _) eqn:E; [done|]. intros _.
  rewrite !orb_false_iff in E. bool_to_Z. destruct E as [[[[[H1 H2] H3] H4] H5] H6]. bool_to_Z. lia.
Qed.

Lemma has_tag k v p : is_Some (contents (p_Tags (put_tag k v p)) !! k).
Proof. cbn. rewrite contents_PutString, lookup_insert_eq. by eexists. Qed.

(** The scalars of a pack, which the puts do not change *)
Definition envelope (p : pack) : Z * Z * Z * string := (p_Pcode p, p_Oid p, p_Time p, p_Category p).

Lemma envelope_when b f p : (forall p, envelope (f p) = envelope p) -> envelope (when b f p) = envelope p.
Proof. destruct b; cbn; auto. Qed.

Lemma envelope_observer pid process p : envelope (putEventObserver pid process p) = envelope p.
Proof.
  unfold putEventObserver. destruct process as [process|]; [|by destruct (pid =? 0)].
  by destruct (_ =? 0), (bool_decide _).
Qed.

Lemma envelope_resolved prefix r p : envelope (putEventResolved prefix r p) = envelope p.
Proof. by destruct r. Qed.

Lemma envelope_pod prefix pod p : envelope (putEventPod prefix pod p) = envelope p.
Proof. destruct pod as [pod|]; [|done]. cbn. by destruct (bool_decide _). Qed.

Lemma envelope_tag k v p : envelope (put_tag k v p) = envelope p.
Proof. done. Qed.

Lemma envelope_data k n p : envelope (put_data k n p) = envelope p.
Proof. done. Qed.

Lemma envelope_copy_tags request keys p : envelope (copy_tags request keys p) = envelope p.
Proof.
  revert p. induction keys as [|k keys IH]; intros p; [done|].
  transitivity (envelope (when (ContainsKey request k) (put_tag k (GetString request k)) p)); [apply IH|].
  by apply envelope_when.
Qed.

Lemma envelope_copy_data request keys p : envelope (copy_data request keys p) = envelope p.
Proof.
  revert p. induction keys as [|k keys IH]; intros p; [done|].
  transitivity (envelope (when (ContainsKey request k) (put_data k (GetLong request k)) p)); [apply IH|].
  by apply envelope_when.
Qed.

(** One construction step at a time *)
Ltac envelope :=
  repeat (etransitivity;
    [lazymatch goal with
     | |- envelope (when _ _ _) = _ => apply envelope_when; intros ?
     | |- envelope (put_tag _ _ _) = _ => apply envelope_tag
     | |- envelope (put_data _ _ _) = _ => apply envelope_data
     | |- envelope (putEventObserver _ _ _) = _ => apply envelope_observer
     | |- envelope (putEventResolved _ _ _) = _ => apply envelope_resolved
     | |- envelope (putEventPod _ _ _) = _ => apply envelope_pod
     | |- envelope (copy_tags _ _ _) = _ => apply envelope_copy_tags
     | |- envelope (copy_data _ _ _) = _ => apply envelope_copy_data
     end|]); reflexivity.

(** *** The request of a window *)

Definition put_field (m : M) (kv : string * field_value) : M :=
  match kv.2 with FString s => PutString m kv.1 s | FLong n => PutLong m kv.1 n end.

Lemma contents_put m kv : contents (put_field m kv) = <[kv.1 := kv.2]> (contents m).
Proof. destruct kv as [k [s|n]]; cbn; [apply contents_PutString|apply contents_PutLong]. Qed.

Lemma contents_puts fields m k :
  NoDup fields.*1 ->
  contents (foldl put_field m fields) !! k =
    match (list_to_map fields : gmap string field_value) !! k with Some v => Some v | None => contents m !! k end.
Proof.
  revert m. induction fields as [|[k' v] fields IH]; intros m; cbn [foldl fmap list_fmap fst]; [done|].
  intros [Hk Hn]%NoDup_cons. rewrite IH by done. cbn [list_to_map foldr]. rewrite contents_put. cbn [fst snd].
  destruct (decide (k = k')) as [->|Hne].
  - rewrite !lookup_insert_eq. by rewrite (proj1 (not_elem_of_list_to_map _ _) Hk).
  - by rewrite !lookup_insert_ne by done.
Qed.

Lemma request_fields_NoDup w x : NoDup (request_fields w ++ [("request_id", FString x)]).*1.
Proof.
  unfold request_fields, resolved_fields. destruct (wi_Process w) as [process|]; [destruct (bool_decide _)|];
    destruct (wi_SourceResolved w), (wi_DestinationResolved w); cbn [fmap list_fmap app fst];
    apply (bool_decide_unpack _); vm_compute; reflexivity.
Qed.

(** Looking a field of a request up *)
Lemma request_lookup w fields k v :
  RequestForWindow digest w = Ok fields -> (k, v) ∈ fields -> contents (request_of fields) !! k = Some v.
Proof.
  unfold RequestForWindow. destruct (negb _); [done|]. destruct (wi_Partial w); [done|]. destruct (_ =? 0); [done|].
  destruct (validateWindow w); [done|]. intros H Hin. pose proof (request_fields_NoDup w (digest (snapshot_window w))) as Hn.
  assert (fields = request_fields w ++ [("request_id", FString (digest (snapshot_window w)))]) as E by congruence.
  rewrite <- E in Hn. etransitivity; [exact (contents_puts fields NewMapValue k Hn)|].
  by rewrite (elem_of_list_to_map_1 _ _ _ Hn Hin).
Qed.

Lemma window_start w fields :
  RequestForWindow digest w = Ok fields -> 0 < GetLong (request_of fields) "window_start_ms".
Proof.
  intros H. rewrite contents_GetLong.
  rewrite (request_lookup w fields _ (FLong (time_UnixMilli (wi_WindowStart w))) H).
  - unfold RequestForWindow, validateWindow in H. destruct (negb _); [done|]. destruct (wi_Partial w); [done|].
    destruct (_ =? 0); [done|]. destruct (bad_times w) eqn:E; [done|]. unfold bad_times in E.
    rewrite !orb_false_iff in E. destruct E as [[[[_ E] _] _] _]. cbn. bool_to_Z. lia.
  - unfold RequestForWindow in H. destruct (negb _); [done|]. destruct (wi_Partial w); [done|].
    destruct (_ =? 0); [done|]. destruct (validateWindow w); [done|]. injection H as <-.
    apply (list_elem_of_lookup_2 _ 2). reflexivity.
Qed.

Lemma built_envelope pcode oid p :
  built pcode oid p ->
  (p_Pcode p = pcode /\ p_Oid p = oid) /\ (0 < pcode /\ oid <> 0 /\ 0 < p_Time p) /\ p_Category p ∈ categories /\
  (p_Category p <> Category -> is_Some (contents (p_Tags p) !! "record_id")).
Proof.
  assert (G : forall p time category, envelope p = (pcode, oid, time, category) ->
    0 < pcode -> oid <> 0 -> 0 < time -> category ∈ categories ->
    (category <> Category -> is_Some (contents (p_Tags p) !! "record_id")) ->
    (p_Pcode p = pcode /\ p_Oid p = oid) /\ (0 < pcode /\ oid <> 0 /\ 0 < p_Time p) /\ p_Category p ∈ categories /\
    (p_Category p <> Category -> is_Some (contents (p_Tags p) !! "record_id"))).
  { intros p0 time category [= -> -> -> ->]. auto. }
  intros [w p0 H|t p0 H|t p0 H|d p0 H].
  - unfold PackForWindow in H. destruct (_ || _) eqn:Ei; [done|].
    destruct (RequestForWindow digest w) as [fields|] eqn:Er; [|done]. injection H as <-.
    rewrite orb_false_iff in Ei. destruct Ei as [E1 E2]. bool_to_Z.
    eapply G; [envelope|done|done|by eapply window_start| |done]. apply (bool_decide_unpack _); vm_compute; reflexivity.
  - unfold PackForL7 in H. destruct (_ || _) eqn:Ei; [done|]. injection H as <-. rewrite !orb_false_iff in Ei.
    destruct_and! Ei. match goal with E : negb (validEventEnvelope _ _ _ _ _ _) = false |- _ =>
      apply negb_false_iff, envelope_valid in E as (? & ? & ?) end.
    eapply G; [envelope|done|done|done| |intros _; apply has_tag]. apply (bool_decide_unpack _); vm_compute; reflexivity.
  - unfold PackForDNS in H. destruct (_ || _) eqn:Ei; [done|]. err_cases H. injection H as <-. rewrite !orb_false_iff in Ei.
    destruct_and! Ei. match goal with E : negb (validEventEnvelope _ _ _ _ _ _) = false |- _ =>
      apply negb_false_iff, envelope_valid in E as (? & ? & ?) end.
    eapply G; [envelope|done|done|done| |intros _; apply has_tag]. apply (bool_decide_unpack _); vm_compute; reflexivity.
  - unfold PackForL7Drop in H. err_cases H. injection H as <-.
    repeat match goal with E : _ || _ = false |- _ => apply orb_false_iff in E as [] end. bool_to_Z.
    eapply G; [envelope|done|done|done| |intros _; apply has_tag]. apply (bool_decide_unpack _); vm_compute; reflexivity.
Qed.
(** *** The record identity of a pack that was built *)

Definition record_id (p : pack) : string := GetString (p_Tags p) "record_id".

Lemma record_id_put x p : record_id (put_tag "record_id" x p) = x.
Proof. unfold record_id. cbn. by rewrite contents_GetString, contents_PutString, lookup_insert_eq. Qed.

Lemma record_id_tag k v p : k <> "record_id" -> record_id (put_tag k v p) = record_id p.
Proof.
  intros Hk. unfold record_id. cbn. by rewrite !contents_GetString, contents_PutString, lookup_insert_ne.
Qed.

Lemma record_id_pod prefix pod p :
  prefix ∈ ["src"; "dst"; "observer"] -> record_id (putEventPod prefix pod p) = record_id p.
Proof.
  intros Hin. destruct pod as [pod|]; [|done]. cbn. destruct (bool_decide _); [done|].
  rewrite !elem_of_cons in Hin. destruct Hin as [->|[->|[->|Hin]]]; [..|by apply not_elem_of_nil in Hin];
    by rewrite !record_id_tag.
Qed.

Lemma record_id_copy_tags request keys p :
  "record_id" ∉ keys -> record_id (copy_tags request keys p) = record_id p.
Proof.
  revert p. induction keys as [|k keys IH]; intros p; [done|]. rewrite not_elem_of_cons. intros [Hk Hn].
  transitivity (record_id (when (ContainsKey request k) (put_tag k (GetString request k)) p)); [by apply IH|].
  destruct (ContainsKey request k); [by apply record_id_tag|done].
Qed.

Lemma record_id_copy_data request keys p : record_id (copy_data request keys p) = record_id p.
Proof.
  revert p. induction keys as [|k keys IH]; intros p; [done|].
  transitivity (record_id (when (ContainsKey request k) (put_data k (GetLong request k)) p)); [by apply IH|].
  by destruct (ContainsKey request k).
Qed.

Lemma hex_no_dot l : byte_of 46 ∉ bytes_of_string (hex_EncodeToString l).
Proof.
  unfold hex_EncodeToString, bytes_of_string, string_of_bytes. rewrite String.list_byte_of_string_of_list_byte.
  induction l as [|b l IH]; cbn [flat_map app]; [apply not_elem_of_nil|].
  assert (H : forall d, 0 <= d < 16 -> byte_of 46 <> digit_byte d).
  { intros d Hd. assert (HF : Forall (fun d => byte_of 46 <> digit_byte d) (seqZ 0 16)) by (by repeat constructor).
    rewrite Forall_forall in HF. apply HF. apply elem_of_seqZ. lia. }
  pose proof (byte_val_range b). rewrite !not_elem_of_cons. split_and!; [apply H|apply H|exact IH].
  - split; [apply Z.div_pos; lia|apply Z.div_lt_upper_bound; lia].
  - apply Z.mod_pos_bound. lia.
Qed.

Lemma built_record_id pcode oid p : built pcode oid p -> byte_of 46 ∉ bytes_of_string (record_id p).
Proof.
  intros [w p0 H|t p0 H|t p0 H|d p0 H].
  - unfold PackForWindow in H. destruct (_ || _); [done|]. destruct (RequestForWindow digest w); [|done].
    apply Ok_inj in H as <-. rewrite record_id_copy_data, record_id_copy_tags by (apply (bool_decide_unpack _); vm_compute; reflexivity).
    rewrite !record_id_pod by set_solver. unfold record_id. cbn. rewrite contents_GetString, contents_new. apply not_elem_of_nil.
  - unfold PackForL7 in H. destruct (_ || _); [done|]. injection H as <-. rewrite record_id_put. apply hex_no_dot.
  - unfold PackForDNS in H. err_cases H. injection H as <-. rewrite record_id_put. apply hex_no_dot.
  - unfold PackForL7Drop in H. err_cases H. injection H as <-. rewrite record_id_put. apply hex_no_dot.
Qed.
End laws.

(** ** Theorems *)

(** C25. The identity of an event record is hashed from a text that determines
    the record: two packs write the same bytes exactly when their category,
    project, object, observation time to the nanosecond, process generation,
    tags and data agree. The order of the puts does not matter, and no tag,
    whatever bytes it holds, can be read as another field. *)
Theorem record_identity {M} {MV : MapValue M} {ML : MapValueLaws M} (p p' : TagCountPack M)
    (t t' : Time) (q q' : option Process) :
  typed p -> typed p' ->
  record_preimage p t q = record_preimage p' t' q' <->
  (p_Category p = p_Category p' /\ p_Pcode p = p_Pcode p' /\ p_Oid p = p_Oid p' /\ t = t' /\
   from_option pr_StartTimeTicks 0 q = from_option pr_StartTimeTicks 0 q' /\
   contents (p_Tags p) = contents (p_Tags p') /\ contents (p_Data p) = contents (p_Data p')).
Proof.
  intros [T1 T2] [T1' T2']. unfold record_preimage. split.
  - intros E%fields_inj. unfold record_fields in E. apply app_inj_1 in E as [E0 E]; [|done].
    injection E0 as E1 E2 E3 E4 E5 E6.
    apply (inj bytes_of_string) in E1. apply (inj FormatInt) in E2, E3, E4, E5, E6.
    apply map_fields_inj in E as (K1 & E & V1). rewrite <- (app_nil_r (map_fields _ _)) in E.
    rewrite <- (app_nil_r (map_fields (p_Data p') _)) in E. apply map_fields_inj in E as (K2 & _ & V2).
    split_and!; [done|done|done|by apply time_parts|by destruct q, q'| |].
    + apply (contents_eq _ _ (fun v => exists s, v = FString s) text_of); [|done..|].
      * intros v v' [x ->] [x' ->]. cbn. congruence.
      * intros k Hk. apply V1 in Hk. apply (inj bytes_of_string) in Hk. by rewrite !contents_GetString in Hk.
    + apply (contents_eq _ _ (fun v => exists n, v = FLong n) long_of); [|done..|].
      * intros v v' [x ->] [x' ->]. cbn. congruence.
      * intros k Hk. apply V2 in Hk. apply (inj FormatInt) in Hk. by rewrite !contents_GetLong in Hk.
  - intros (E1 & E2 & E3 & -> & E5 & E6 & E7). unfold record_fields. rewrite E1, E2, E3.
    replace (match q with Some process => pr_StartTimeTicks process | None => 0 end)
      with (match q' with Some process => pr_StartTimeTicks process | None => 0 end) by (by destruct q, q').
    rewrite (map_fields_eq _ _ _ (fun k => bytes_of_string (GetString (p_Tags p') k)) E6)
      by (intros k; by rewrite !contents_GetString, E6).
    rewrite (map_fields_eq _ _ _ (fun k => FormatInt (GetLong (p_Data p') k)) E7)
      by (intros k; by rewrite !contents_GetLong, E7). done.
Qed.

(** C26. Every pack the exporter can send is well formed: a positive project
    and a nonzero object, a positive time in milliseconds, one of the four
    categories, a record identity on events, tags that are texts and data that
    are numbers, and only keys of the documented schema: no path, command
    line, command name or payload can be among them. *)
Theorem pack_schema {M} {MV : MapValue M} {ML : MapValueLaws M} Sum256 coverage_json digest pcode oid
    (p : TagCountPack M) :
  built Sum256 coverage_json digest pcode oid p ->
  (p_Pcode p = pcode /\ p_Oid p = oid) /\ (0 < pcode /\ oid <> 0 /\ 0 < p_Time p) /\ p_Category p ∈ categories /\
  (p_Category p <> Category -> is_Some (contents (p_Tags p) !! "record_id")) /\ schema p.
Proof.
  intros H. destruct (built_envelope _ _ _ _ _ _ H) as (H1 & H2 & H3 & H4). split_and!; try apply H1; try apply H2; [done|done|].
  by eapply built_schema.
Qed.

(** *** A concrete MapValue *)

#[export] Instance gmap_MapValue : MapValue (gmap string field_value) := {|
  NewMapValue := ∅;
  PutString m k s := <[k := FString s]> m;
  PutLong m k n := <[k := FLong n]> m;
  GetString m k := text_of (m !! k);
  GetLong m k := long_of (m !! k);
  ContainsKey m k := bool_decide (is_Some (m !! k));
  Keys m := (map_to_list m).*1
|}.

#[export] Instance gmap_MapValueLaws : MapValueLaws (gmap string field_value).
Proof. by exists (fun m => m). Defined.

Definition example_pack : TagCountPack (gmap string field_value) :=
  put_data "latency_us" 8 (put_tag "rcode" "NOERROR" (put_tag "query_name" "db.svc" (NewTagCountPack 7 3 1000 DNSCategory))).

(** The same puts in another order *)
Definition example_pack' : TagCountPack (gmap string field_value) :=
  put_tag "query_name" "db.svc" (put_data "latency_us" 8 (put_tag "rcode" "NOERROR" (NewTagCountPack 7 3 1000 DNSCategory))).

Lemma example_typed : typed example_pack /\ typed example_pack'.
Proof.
  split; apply schema_typed; repeat first
    [apply schema_tag; [vm_compute; reflexivity|]|apply schema_data; [vm_compute; reflexivity|]|apply schema_new].
Qed.

Lemma record_identity_witness :
  record_preimage example_pack unix_epoch None = record_preimage example_pack' unix_epoch None /\
  record_preimage example_pack unix_epoch None <> record_preimage example_pack (unix_epoch + 1) None.
Proof.
  destruct example_typed as [T T']. split.
  - apply (record_identity example_pack example_pack' unix_epoch unix_epoch None None T T').
    split_and!; try reflexivity; apply map_eq; intros k; vm_compute; reflexivity.
  - intros E. apply (record_identity example_pack example_pack unix_epoch (unix_epoch + 1) None None T T) in E.
    destruct E as (_ & _ & _ & E & _). unfold unix_epoch, Second in E. lia.
Defined.

Definition example_tx : Dns.Transaction :=
  Dns.mkTransaction SchemaVersion (unix_epoch + 5 * Second) "node-a" 42 (Some (mkProcess 42 7 "curl" "curl --secret" "" "procfs"))
    None (Some (mkResolvedEndpoint "10.0.0.9" 53 "conntrack")) None None None "udp" (mkEndpoint "10.0.0.2" 40000)
    (mkEndpoint "10.96.0.10" 53) "db.svc" "A" OutcomeResponse "" "NOERROR" true 250.

Definition example_result : result PackError (TagCountPack (gmap string field_value)) :=
  PackForDNS (fun l => take 32 l) example_tx 7 3.

Lemma pack_schema_witness :
  exists p, example_result = Ok p /\ 0 < p_Time p /\ schema p /\ is_Some (contents (p_Tags p) !! "record_id").
Proof.
  assert (C : match example_result with Ok p => p_Category p | Err _ => "" end = DNSCategory) by (vm_compute; reflexivity).
  destruct example_result as [p|e] eqn:E; [|discriminate C].
  assert (B : built (fun l => take 32 l) (fun _ _ _ _ _ _ _ _ => []) (fun _ => "") 7 3 p) by (eapply built_dns; exact E).
  destruct (pack_schema _ _ _ _ _ _ B) as (_ & (_ & _ & H1) & _ & H2 & H3).
  exists p. split; [reflexivity|]. split; [exact H1|]. split; [exact H3|]. apply H2. rewrite C. discriminate.
Defined.
