(* ===== verification/Exporter.v ===== *)
(** * internal/tagcount: the exporter

    exporter.go and export_events.go. The goroutine of run, the callers of
    Export and of the typed exports, and Close share the exporter's mutex,
    queue and channels. A step is what one of them does under the mutex or
    between two channel operations; the sender, which is a collector client,
    answers each Send and its Close. *)

From stdpp Require Import pretty.
From S2P Require Import Prelude Text Flow Dns L7Types Bridge Pack.

#[local] Open Scope Z_scope.

(** ** Definitions *)

Definition MaxQueueCapacity : Z := 16384.

Inductive ExportError :=
| ErrClosed
| ErrQueueLoss (dropped : Z)
| ErrDrainTimeout
| ErrPending (pending : Z)
| node_mismatch
| pack_error (e : PackError)
| send_error (code : Z)
| close_error (code : Z).

(** nil is the empty list, errors.Join is concatenation. *)
Abbreviation errors := (list ExportError).

Record ExporterConfig := mkExporterConfig {
  ec_NodeName : string;
  ec_QueueCapacity : Z;
  ec_DrainTimeout : Duration
}.

Record Summary := mkSummary {
  su_Queued : Z;
  su_Written : Z;
  su_Failed : Z;
  su_Dropped : Z;
  su_Pending : Z;
  su_SkippedPartial : Z;
  su_SkippedUnmeasured : Z;
  su_SkippedIncompleteTuple : Z
}.

(** Where the goroutine of run is *)
Inductive run_state (P : Type) :=
| run_idle (* at the range over the queue *)
| run_received (p : P) (* before the check of the context *)
| run_sending (p : P) (* in Send *)
| run_failed (code : Z) (* before fail *)
| run_closing (* in the deferred closeSender *)
| run_done.

Arguments run_idle {P}.
Arguments run_received {P} p.
Arguments run_sending {P} p.
Arguments run_failed {P} code.
Arguments run_closing {P}.
Arguments run_done {P}.

(** Where the first call of Close is *)
Inductive close_state :=
| close_none
| close_waiting
| close_timed_out (* before closeSender *)
| close_reading (timeoutErr : errors) (* before reading the error *)
| close_counting (closeErr : errors) (* before the snapshot *)
| close_done (closeErr : errors).

Record Exporter (M : Type) := mkExporter {
  ex_config : ExporterConfig;
  ex_pcode : Z;
  ex_oid : Z;
  ex_queue : list (TagCountPack M);
  ex_closing : bool;
  ex_err : errors;
  ex_cancelled : bool;
  ex_summary : Summary;
  ex_sender_closed : bool;
  ex_run : run_state (TagCountPack M);
  ex_close : close_state;
  (* The history: every pack that got room in the queue or did not, and what
     the sender saw, every Send with its error *)
  ex_accepted : list (TagCountPack M);
  ex_rejected : list (TagCountPack M);
  ex_sent : list (TagCountPack M * option Z)
}.

Arguments mkExporter {M}.
Arguments ex_config {M}.
Arguments ex_pcode {M}.
Arguments ex_oid {M}.
Arguments ex_queue {M}.
Arguments ex_closing {M}.
Arguments ex_err {M}.
Arguments ex_cancelled {M}.
Arguments ex_summary {M}.
Arguments ex_sender_closed {M}.
Arguments ex_run {M}.
Arguments ex_close {M}.
Arguments ex_accepted {M}.
Arguments ex_rejected {M}.
Arguments ex_sent {M}.

(** NewExporter; the sender is there *)
Definition printable_rune (b : byte) : bool := negb ((byte_val b <? 33) || (126 <? byte_val b)).

Definition NewExporter {M} (config : ExporterConfig) (pcode oid : Z) : option (Exporter M) :=
  let name := bytes_of_string (ec_NodeName config) in
  if (ec_QueueCapacity config <? 1) || (MaxQueueCapacity <? ec_QueueCapacity config) || (ec_DrainTimeout config <=? 0)
  then None
  else if (length name <? 1)%nat || (253 <? length name)%nat then None
  else if negb (forallb printable_rune name) then None
  else if (pcode <=? 0) || (oid =? 0) then None
  else Some (mkExporter config pcode oid [] false [] false (mkSummary 0 0 0 0 0 0 0 0) false run_idle close_none [] [] []).

Section exporter.
Context {M : Type} {MV : MapValue M}.
Context (Sum256 : list byte -> list byte).
Context (coverage_json : string -> Time -> string -> Z -> string -> string -> string -> Z -> list byte).
Context (digest : Window -> string).

#[local] Abbreviation pack := (TagCountPack M).
Implicit Types (e : Exporter M).

Definition set_queue (queue : list pack) (summary : Summary) e : Exporter M :=
  mkExporter (ex_config e) (ex_pcode e) (ex_oid e) queue (ex_closing e) (ex_err e) (ex_cancelled e) summary
    (ex_sender_closed e) (ex_run e) (ex_close e) (ex_accepted e) (ex_rejected e) (ex_sent e).

Definition set_run (r : run_state pack) e : Exporter M :=
  mkExporter (ex_config e) (ex_pcode e) (ex_oid e) (ex_queue e) (ex_closing e) (ex_err e) (ex_cancelled e)
    (ex_summary e) (ex_sender_closed e) r (ex_close e) (ex_accepted e) (ex_rejected e) (ex_sent e).

Definition set_close (closing cancelled : bool) (c : close_state) e : Exporter M :=
  mkExporter (ex_config e) (ex_pcode e) (ex_oid e) (ex_queue e) closing (ex_err e) cancelled (ex_summary e)
    (ex_sender_closed e) (ex_run e) c (ex_accepted e) (ex_rejected e) (ex_sent e).

Definition set_sent (sent : list (pack * option Z)) e : Exporter M :=
  mkExporter (ex_config e) (ex_pcode e) (ex_oid e) (ex_queue e) (ex_closing e) (ex_err e) (ex_cancelled e)
    (ex_summary e) (ex_sender_closed e) (ex_run e) (ex_close e) (ex_accepted e) (ex_rejected e) sent.

Definition set_history (accepted rejected : list pack) e : Exporter M :=
  mkExporter (ex_config e) (ex_pcode e) (ex_oid e) (ex_queue e) (ex_closing e) (ex_err e) (ex_cancelled e)
    (ex_summary e) (ex_sender_closed e) (ex_run e) (ex_close e) accepted rejected (ex_sent e).

Definition fail (err : ExportError) e : Exporter M :=
  mkExporter (ex_config e) (ex_pcode e) (ex_oid e) (ex_queue e) (ex_closing e) (ex_err e ++ [err]) (ex_cancelled e)
    (ex_summary e) (ex_sender_closed e) (ex_run e) (ex_close e) (ex_accepted e) (ex_rejected e) (ex_sent e).

Definition set_sender_closed e : Exporter M :=
  mkExporter (ex_config e) (ex_pcode e) (ex_oid e) (ex_queue e) (ex_closing e) (ex_err e) (ex_cancelled e)
    (ex_summary e) true (ex_run e) (ex_close e) (ex_accepted e) (ex_rejected e) (ex_sent e).

(** closeSender; [answer] is what the sender's Close returns *)
Definition closeSender (answer : option Z) e : Exporter M :=
  if ex_sender_closed e then e
  else match answer with
       | None => set_sender_closed e
       | Some n => fail (close_error n) (set_sender_closed e)
       end.

Definition count_queued (s : Summary) : Summary :=
  mkSummary (u64 (su_Queued s + 1)) (su_Written s) (su_Failed s) (su_Dropped s) (su_Pending s) (su_SkippedPartial s)
    (su_SkippedUnmeasured s) (su_SkippedIncompleteTuple s).
Definition count_dropped (s : Summary) : Summary :=
  mkSummary (su_Queued s) (su_Written s) (su_Failed s) (u64 (su_Dropped s + 1)) (su_Pending s) (su_SkippedPartial s)
    (su_SkippedUnmeasured s) (su_SkippedIncompleteTuple s).
Definition count_result (failed : bool) (s : Summary) : Summary :=
  mkSummary (su_Queued s) (if failed then su_Written s else u64 (su_Written s + 1))
    (if failed then u64 (su_Failed s + 1) else su_Failed s) (su_Dropped s) (su_Pending s) (su_SkippedPartial s)
    (su_SkippedUnmeasured s) (su_SkippedIncompleteTuple s).
Definition count_skipped (err : BridgeError) (s : Summary) : Summary :=
  let skip partial unmeasured incomplete :=
    mkSummary (su_Queued s) (su_Written s) (su_Failed s) (su_Dropped s) (su_Pending s) partial unmeasured incomplete in
  match err with
  | ErrPartialWindow => skip (u64 (su_SkippedPartial s + 1)) (su_SkippedUnmeasured s) (su_SkippedIncompleteTuple s)
  | ErrNoSamples => skip (su_SkippedPartial s) (u64 (su_SkippedUnmeasured s + 1)) (su_SkippedIncompleteTuple s)
  | ErrIncompleteTuple => skip (su_SkippedPartial s) (su_SkippedUnmeasured s) (u64 (su_SkippedIncompleteTuple s + 1))
  | _ => s
  end.

(** enqueueLocked *)
Definition with_ordinal (ordinal : Z) (p : pack) : pack :=
  let id := GetString (p_Tags p) "record_id" in
  if bool_decide (id = "") then p else put_tag "record_id" (id +:+ "." +:+ pretty ordinal) p.

Definition enqueueLocked (p : pack) e : Exporter M :=
  let s := ex_summary e in
  let p := with_ordinal (u64 (su_Queued s + su_Dropped s + 1)) p in
  if Z.of_nat (length (ex_queue e)) <? ec_QueueCapacity (ex_config e)
  then set_history (ex_accepted e ++ [p]) (ex_rejected e) (set_queue (ex_queue e ++ [p]) (count_queued s) e)
  else set_history (ex_accepted e) (ex_rejected e ++ [p]) (set_queue (ex_queue e) (count_dropped s) e).

(** Export *)
Definition Export (w : Window) e : Exporter M * errors :=
  if ex_closing e then (e, [ErrClosed])
  else
    match ex_err e with
    | _ :: _ => (e, ex_err e)
    | [] =>
        if negb (bool_decide (fk_NodeName (wi_Flow w) = ec_NodeName (ex_config e))) then (e, [node_mismatch])
        else
          match PackForWindow digest w (ex_pcode e) (ex_oid e) with
          | Ok p => (enqueueLocked p e, [])
          | Err (request_error ((ErrPartialWindow | ErrNoSamples | ErrIncompleteTuple) as err)) =>
              (set_queue (ex_queue e) (count_skipped err (ex_summary e)) e, [])
          | Err err => (e, [pack_error err])
          end
    end.

(** ExportL7, ExportDNS and ExportL7Drop *)
Inductive event :=
| EventL7 (t : L7Types.Transaction)
| EventDNS (t : Dns.Transaction)
| EventDrop (d : Drop).

Definition event_node (event : event) : string :=
  match event with
  | EventL7 t => fk_NodeName (tx_Flow t)
  | EventDNS t => Dns.tx_NodeName t
  | EventDrop d => dr_NodeName d
  end.

Definition event_pack (event : event) e : result PackError pack :=
  match event with
  | EventL7 t => PackForL7 Sum256 t (ex_pcode e) (ex_oid e)
  | EventDNS t => PackForDNS Sum256 t (ex_pcode e) (ex_oid e)
  | EventDrop d => PackForL7Drop Sum256 coverage_json d (ex_pcode e) (ex_oid e)
  end.

Definition exportEvent (event : event) e : Exporter M * errors :=
  if ex_closing e then (e, [ErrClosed])
  else
    match ex_err e with
    | _ :: _ => (e, ex_err e)
    | [] =>
        if negb (bool_decide (event_node event = ec_NodeName (ex_config e))) then (e, [node_mismatch])
        else
          match event_pack event e with
          | Ok p => (enqueueLocked p e, [])
          | Err err => (e, [pack_error err])
          end
    end.

Definition Dropped e : Z := su_Dropped (ex_summary e).

Definition Snapshot e : Summary :=
  let s := ex_summary e in
  mkSummary (su_Queued s) (su_Written s) (su_Failed s) (su_Dropped s)
    (u64 (u64 (su_Queued s - su_Written s) - su_Failed s)) (su_SkippedPartial s) (su_SkippedUnmeasured s)
    (su_SkippedIncompleteTuple s).

(** run: one step of its goroutine; [answer] is what the sender returns in the
    states that call it. [None] while it waits on an empty queue, and once it
    has ended. *)
Definition run_step (answer : option Z) e : option (Exporter M) :=
  match ex_run e with
  | run_idle =>
      match ex_queue e with
      | p :: queue => Some (set_run (run_received p) (set_queue queue (ex_summary e) e))
      | [] => if ex_closing e then Some (set_run run_closing e) else None
      end
  | run_received p => Some (set_run (if ex_cancelled e then run_closing else run_sending p) e)
  | run_sending p =>
      let e := set_sent (ex_sent e ++ [(p, answer)]) e in
      let e := set_queue (ex_queue e) (count_result (bool_decide (is_Some answer)) (ex_summary e)) e in
      Some (set_run (match answer with Some n => run_failed n | None => run_idle end) e)
  | run_failed n => Some (set_run run_closing (fail (send_error n) e))
  | run_closing => Some (set_run run_done (closeSender answer e))
  | run_done => None
  end.

Definition is_done e : bool := match ex_run e with run_done => true | _ => false end.

(** Close: one step of its first call. [timer] is the case the select takes
    when the drain timeout has passed; [answer] is what the sender's Close
    returns. *)
Definition close_step (timer : bool) (answer : option Z) e : option (Exporter M) :=
  match ex_close e with
  | close_none => Some (set_close true (ex_cancelled e) close_waiting e)
  | close_waiting =>
      if timer then Some (set_close true true close_timed_out e)
      else if is_done e then Some (set_close true (ex_cancelled e) (close_reading []) e)
      else None
  | close_timed_out => Some (set_close true true (close_reading [ErrDrainTimeout]) (closeSender answer e))
  | close_reading timeoutErr => Some (set_close true (ex_cancelled e) (close_counting (ex_err e ++ timeoutErr)) e)
  | close_counting closeErr =>
      let summary := Snapshot e in
      let closeErr := if 0 <? su_Dropped summary then closeErr ++ [ErrQueueLoss (su_Dropped summary)] else closeErr in
      let closeErr := if 0 <? su_Pending summary then closeErr ++ [ErrPending (su_Pending summary)] else closeErr in
      Some (set_close true true (close_done closeErr) e)
  | close_done _ => None
  end.

(** The goroutines interleave. *)
Inductive label :=
| StepExport (w : Window)
| StepEvent (event : event)
| StepRun (answer : option Z)
| StepClose (timer : bool) (answer : option Z).

Definition step e (l : label) : option (Exporter M) :=
  match l with
  | StepExport w => Some (Export w e).1
  | StepEvent event => Some (exportEvent event e).1
  | StepRun answer => run_step answer e
  | StepClose timer answer => close_step timer answer e
  end.

Fixpoint steps e (ls : list label) : option (Exporter M) :=
  match ls with
  | [] => Some e
  | l :: ls' => e ← step e l; steps e ls'
  end.

(** ** Lemmas *)

(** The pack run has taken out of the queue *)
Definition in_hand e : list pack :=
  match ex_run e with run_received p | run_sending p => [p] | _ => [] end.

Definition run_ended e : Prop := ex_run e = run_closing \/ ex_run e = run_done.

(** Every Send but the last succeeded, and after a failure there is no other. *)
Definition sends_ok e : Prop :=
  exists ok,
    (ex_sent e = (fun p => (p, None)) <$> ok /\ forall n, ex_run e <> run_failed n) \/
    (exists p n, ex_sent e = ((fun p => (p, None)) <$> ok) ++ [(p, Some n)] /\
      (ex_run e = run_failed n \/ run_ended e /\ ex_err e <> [])).

(** Why run has ended *)
Definition exit_ok e : Prop :=
  run_ended e -> (ex_closing e = true /\ ex_queue e = []) \/ ex_err e <> [] \/ ex_cancelled e = true.

(** What each phase of Close has established *)
Definition close_ok e : Prop :=
  match ex_close e with
  | close_none => ex_closing e = false /\ ex_cancelled e = false
  | close_waiting => ex_closing e = true /\ ex_cancelled e = false
  | close_timed_out => ex_closing e = true
  | close_reading timeoutErr =>
      ex_closing e = true /\ (timeoutErr = [] -> ex_run e = run_done /\ ex_cancelled e = false)
  | close_counting closeErr =>
      ex_closing e = true /\ (closeErr = [] -> ex_run e = run_done /\ ex_cancelled e = false /\ ex_err e = [])
  | close_done closeErr =>
      ex_closing e = true /\
      (closeErr = [] -> ex_run e = run_done /\ ex_err e = [] /\ u64 (Z.of_nat (length (ex_rejected e))) = 0 /\
         ex_accepted e = (ex_sent e).*1)
  end.

Definition successes (sent : list (pack * option Z)) : nat := length (filter (fun x => x.2 = None) sent).

#[local] Arguments successes : simpl never.

Record inv e : Prop := {
  iv_order : exists lost, ex_accepted e = (ex_sent e).*1 ++ in_hand e ++ lost ++ ex_queue e /\
    (length lost <= 1)%nat /\ (lost <> [] -> ex_cancelled e = true /\ run_ended e);
  iv_capacity : Z.of_nat (length (ex_queue e)) <= ec_QueueCapacity (ex_config e);
  iv_queued : su_Queued (ex_summary e) = u64 (Z.of_nat (length (ex_accepted e)));
  iv_dropped : su_Dropped (ex_summary e) = u64 (Z.of_nat (length (ex_rejected e)));
  iv_written : su_Written (ex_summary e) = u64 (Z.of_nat (successes (ex_sent e)));
  iv_failed : su_Failed (ex_summary e) = u64 (Z.of_nat (length (ex_sent e) - successes (ex_sent e)));
  iv_sends : sends_ok e;
  iv_exit : exit_ok e;
  iv_close : close_ok e
}.

Lemma u64_succ n : u64 (u64 (Z.of_nat n) + 1) = u64 (Z.of_nat (S n)).
Proof. unfold uint. rewrite Zplus_mod_idemp_l. f_equal. lia. Qed.

Lemma successes_le sent : (successes sent <= length sent)%nat.
Proof. apply length_filter. Qed.

Lemma successes_app sent p answer :
  successes (sent ++ [(p, answer)]) = (successes sent + match answer with Some _ => 0 | None => 1 end)%nat.
Proof.
  unfold successes. rewrite filter_app, length_app. f_equal.
  destruct answer; [by rewrite filter_cons_False|by rewrite filter_cons_True].
Qed.

(** Close returns only after Close has been called. *)
Lemma closing_close_ok e : ex_closing e = false -> close_ok e -> ex_close e = close_none /\ ex_cancelled e = false.
Proof. unfold close_ok. intros E. destruct (ex_close e); rewrite E; naive_solver. Qed.

Lemma enqueue_inv p e : ex_closing e = false -> ex_err e = [] -> inv e -> inv (enqueueLocked p e).
Proof.
  intros Hc He [I1 I2 I3 I4 I5 I6 I7 I8 I9]. unfold enqueueLocked.
  set (q := with_ordinal _ p). destruct (closing_close_ok e Hc I9) as [Hn Hx].
  assert (Hne : ~ run_ended e).
  { intros Hr. destruct (I8 Hr) as [[H _]|[H|H]]; [by rewrite Hc in H|by rewrite He in H|by rewrite Hx in H]. }
  destruct (Z.ltb_spec (Z.of_nat (length (ex_queue e))) (ec_QueueCapacity (ex_config e))); split; cbn; try done.
  - destruct I1 as (lost & E & Hn1 & Hl). exists lost. split_and!; [|done|done]. unfold in_hand in *. cbn. by rewrite E, <- !app_assoc.
  - rewrite length_app. cbn. lia.
  - rewrite I3, u64_succ, length_app. f_equal. cbn. lia.
  - intros Hr. by destruct Hne.
  - unfold close_ok in *. cbn. by rewrite Hn in *.
  - rewrite I4, u64_succ, length_app. f_equal. cbn. lia.
  - unfold close_ok in *. cbn. by rewrite Hn in *.
Qed.

Lemma skip_inv s e :
  su_Queued s = su_Queued (ex_summary e) -> su_Dropped s = su_Dropped (ex_summary e) ->
  su_Written s = su_Written (ex_summary e) -> su_Failed s = su_Failed (ex_summary e) ->
  inv e -> inv (set_queue (ex_queue e) s e).
Proof.
  intros E1 E2 E3 E4 [I1 I2 I3 I4 I5 I6 I7 I8 I9].
  split; [exact I1|exact I2|by etransitivity; [exact E1|]|by etransitivity; [exact E2|]|by etransitivity; [exact E3|]
    |by etransitivity; [exact E4|]|exact I7|exact I8|exact I9].
Qed.

Lemma Export_inv w e : inv e -> inv (Export w e).1.
Proof.
  intros I. unfold Export. destruct (ex_closing e) eqn:Hc; [done|]. destruct (ex_err e) eqn:He; [|done].
  destruct (negb _); [done|].
  destruct (PackForWindow _ _ _ _) as [p|[| []| | | | | | |]]; try done; [by apply enqueue_inv|by apply skip_inv..].
Qed.

Lemma exportEvent_inv event e : inv e -> inv (exportEvent event e).1.
Proof.
  intros I. unfold exportEvent. destruct (ex_closing e) eqn:Hc; [done|]. destruct (ex_err e) eqn:He; [|done].
  destruct (negb _); [done|]. destruct (event_pack event e); [by apply enqueue_inv|done].
Qed.

Lemma closeSender_frame answer e :
  let e' := closeSender answer e in
  ex_config e' = ex_config e /\ ex_queue e' = ex_queue e /\ ex_closing e' = ex_closing e /\
  ex_cancelled e' = ex_cancelled e /\ ex_summary e' = ex_summary e /\ ex_run e' = ex_run e /\ ex_close e' = ex_close e /\
  ex_accepted e' = ex_accepted e /\ ex_rejected e' = ex_rejected e /\ ex_sent e' = ex_sent e /\
  (ex_err e <> [] -> ex_err e' <> []).
Proof.
  unfold closeSender. destruct (ex_sender_closed e); [done|]. destruct answer; cbn; split_and!; try done.
  intros _. by destruct (ex_err e).
Qed.

(** A change of phase that the close phases allow *)
Definition early e : Prop :=
  match ex_close e with
  | close_reading [] | close_counting [] | close_done [] => False
  | _ => True
  end.

Lemma running_early e : close_ok e -> ex_run e <> run_done -> early e.
Proof.
  unfold close_ok, early. destruct (ex_close e) as [| | |[|]|[|]|[|]]; try done; naive_solver.
Qed.

Lemma early_close_ok e e' :
  ex_close e' = ex_close e -> ex_closing e' = ex_closing e -> ex_cancelled e' = ex_cancelled e -> early e ->
  close_ok e -> close_ok e'.
Proof.
  unfold close_ok, early. intros -> -> ->. destruct (ex_close e) as [| | |[|]|[|]|[|]]; try done; naive_solver.
Qed.

(** While the goroutine goes through the queue nothing is missing and every
    Send has succeeded. *)
Definition running e : Prop :=
  match ex_run e with run_idle | run_received _ | run_sending _ => True | _ => False end.

Lemma running_facts e :
  inv e -> running e ->
  ex_accepted e = (ex_sent e).*1 ++ in_hand e ++ ex_queue e /\
  (exists ok, ex_sent e = (fun p => (p, None)) <$> ok) /\ early e.
Proof.
  unfold running. intros I Hr. split_and!.
  - destruct (iv_order _ I) as (lost & E & Hn1 & Hl). assert (lost = []) as ->; [|exact E].
    destruct lost; [done|]. destruct Hl as [_ [H|H]]; [done|by rewrite H in Hr..].
  - destruct (iv_sends _ I) as [ok [[H _]|(p & n & _ & [H|[[H|H] _]])]]; [by exists ok|by rewrite H in Hr..].
  - apply (running_early e (iv_close _ I)). intros H. by rewrite H in Hr.
Qed.

(** The goroutine moves from a point of its loop to [r]; it may leave the loop
    when it has a reason to, and leave packs behind when it is cancelled. *)
Lemma run_move_inv r lost queue e :
  inv e -> running e ->
  in_hand e ++ ex_queue e = in_hand (set_run r e) ++ lost ++ queue ->
  (length queue <= length (ex_queue e))%nat -> (length lost <= 1)%nat -> (lost <> [] -> ex_cancelled e = true /\ r = run_closing) ->
  match r with
  | run_failed _ | run_done => False
  | run_closing => ex_closing e = true /\ queue = [] \/ ex_cancelled e = true
  | _ => True
  end ->
  inv (set_run r (set_queue queue (ex_summary e) e)).
Proof.
  intros I Hr Hq Hlen Hn1 Hl Hout. destruct (running_facts e I Hr) as (E & [ok Es] & Hy). destruct I as [I1 I2 I3 I4 I5 I6 I7 I8 I9].
  split; cbn; try done.
  - exists lost. split_and!; [by rewrite E, Hq|done|]. intros Hn. destruct (Hl Hn) as [? ->]. split; [done|by left].
  - lia.
  - exists ok. left. split; [done|]. cbn. intros n ->. done.
  - unfold exit_ok, run_ended. cbn. intros [-> | ->]; [|done]. destruct Hout as [?|?]; [by left|by right; right].
  - by apply (early_close_ok e).
Qed.

Lemma run_sending_inv answer p e :
  inv e -> ex_run e = run_sending p ->
  inv (set_run (match answer with Some n => run_failed n | None => run_idle end)
    (set_queue (ex_queue e) (count_result (bool_decide (is_Some answer)) (ex_summary e)) (set_sent (ex_sent e ++ [(p, answer)]) e))).
Proof.
  intros I Er. assert (Hr : running e) by (unfold running; by rewrite Er).
  destruct (running_facts e I Hr) as (E & [ok Es] & Hy). unfold in_hand in E. rewrite Er in E.
  destruct I as [I1 I2 I3 I4 I5 I6 I7 I8 I9]. pose proof (successes_le (ex_sent e)).
  split; cbn; try by destruct answer.
  - exists []. split_and!; [|cbn; lia|done]. rewrite E, fmap_app, <- !app_assoc. by destruct answer.
  - rewrite successes_app, I5. destruct answer; cbn; [by rewrite Nat.add_0_r|]. rewrite u64_succ. do 2 f_equal. lia.
  - rewrite I6, successes_app, length_app. destruct answer; cbn; [rewrite u64_succ|]; do 2 f_equal; lia.
  - destruct answer as [n|]; [exists ok; right; exists p, n; split; [by rewrite <- Es|by left]|].
    exists (ok ++ [p]). left. split; [by rewrite fmap_app, <- Es|done].
  - unfold exit_ok, run_ended. cbn. destruct answer; by intros [?|?].
  - by apply (early_close_ok e).
Qed.

Lemma run_failed_inv n e : inv e -> ex_run e = run_failed n -> inv (set_run run_closing (fail (send_error n) e)).
Proof.
  intros [I1 I2 I3 I4 I5 I6 I7 I8 I9] Er. split; cbn; try done.
  - destruct I1 as (lost & E & Hn1 & Hl). unfold in_hand in E. rewrite Er in E. exists lost. split_and!; [done|done|].
    intros Hn. destruct (Hl Hn) as [_ [?|?]]; congruence.
  - destruct I7 as [ok [[H1 H2]|(p' & n' & H1 & H2)]]; [by destruct (H2 n)|].
    exists ok. right. exists p', n'. split; [done|]. right. split; [by left|]. cbn; by destruct (ex_err e).
  - intros _. right. left. cbn; by destruct (ex_err e).
  - apply (early_close_ok e); try done. apply (running_early e I9). by rewrite Er.
Qed.

Lemma run_closing_inv answer e : inv e -> ex_run e = run_closing -> inv (set_run run_done (closeSender answer e)).
Proof.
  intros [I1 I2 I3 I4 I5 I6 I7 I8 I9] Er.
  destruct (closeSender_frame answer e) as (F1 & F2 & F3 & F4 & F5 & F6 & F7 & F8 & F9 & F10 & F11).
  split; cbn; rewrite ?F1, ?F2, ?F5, ?F8, ?F9, ?F10; try done.
  - destruct I1 as (lost & E & Hn1 & Hl). unfold in_hand in E. rewrite Er in E.
    exists lost. split_and!; [done|done|]. cbn. rewrite F4. intros Hn. split; [by apply Hl|by right].
  - destruct I7 as [ok [[H1 H2]|(p' & n & H1 & H2)]]; exists ok; cbn; rewrite F10; [by left|right].
    exists p', n. split; [done|]. right. split; [by right|]. apply F11.
    destruct H2 as [H2|[_ H2]]; [by rewrite Er in H2|done].
  - intros _. cbn. rewrite F2, F3, F4.
    destruct (I8 (or_introl Er)) as [?|[?|?]]; [by left|right; left; by apply F11|by right; right].
  - apply (early_close_ok e); try done. apply (running_early e I9). by rewrite Er.
Qed.

Lemma run_step_inv answer e e' : inv e -> run_step answer e = Some e' -> inv e'.
Proof.
  intros I H. unfold run_step in H.
  assert (Hset : forall r, set_run r e = set_run r (set_queue (ex_queue e) (ex_summary e) e)) by done.
  destruct (ex_run e) as [|p|p|n| |] eqn:Er; [| | | | |done].
  - assert (Hr : running e) by (unfold running; by rewrite Er).
    destruct (ex_queue e) as [|p queue] eqn:Eq.
    + destruct (ex_closing e) eqn:Ec; [|done]. injection H as <-. rewrite Hset.
      apply (run_move_inv _ []); [done|done|unfold in_hand; by rewrite Er, Eq|cbn; lia|cbn; lia|done|by left].
    + injection H as <-. apply (run_move_inv _ []); [done|done|unfold in_hand; by rewrite Er, Eq|rewrite Eq; cbn; lia|cbn; lia|done|done].
  - assert (Hr : running e) by (unfold running; by rewrite Er). injection H as <-. rewrite Hset.
    destruct (ex_cancelled e) eqn:Ec.
    + apply (run_move_inv _ [p]); [done|done|unfold in_hand; by rewrite Er|lia|cbn; lia|done|by right].
    + apply (run_move_inv _ []); [done|done|unfold in_hand; by rewrite Er|lia|cbn; lia|done|done].
  - injection H as <-. by apply run_sending_inv.
  - injection H as <-. by apply run_failed_inv.
  - injection H as <-. by apply run_closing_inv.
Qed.

(** A step of Close that leaves the rest alone *)
Lemma set_close_inv closing cancelled c e :
  (ex_closing e = true -> closing = true) -> (ex_cancelled e = true -> cancelled = true) ->
  close_ok (set_close closing cancelled c e) -> inv e -> inv (set_close closing cancelled c e).
Proof.
  intros H1 H2 Hok [I1 I2 I3 I4 I5 I6 I7 I8 I9]. split; try done.
  - destruct I1 as (lost & E & Hn1 & Hl). exists lost. split_and!; [done|done|]. intros Hn. destruct (Hl Hn). split; [by apply H2|done].
  - intros Hr. cbn. destruct (I8 Hr) as [[? ?]|[?|?]]; [left; auto|auto..].
Qed.

Lemma closeSender_inv answer e : ex_close e = close_timed_out -> inv e -> inv (closeSender answer e).
Proof.
  intros Hc [I1 I2 I3 I4 I5 I6 I7 I8 I9].
  destruct (closeSender_frame answer e) as (F1 & F2 & F3 & F4 & F5 & F6 & F7 & F8 & F9 & F10 & F11).
  split; rewrite ?F1, ?F2, ?F5, ?F8, ?F9, ?F10; try done.
  - unfold in_hand, run_ended. by rewrite F4, F6.
  - destruct I7 as [ok [[H1 H2]|(p' & n & H1 & H2)]]; exists ok; rewrite F10; [left; split; [done|by rewrite F6]|right].
    exists p', n. split; [done|]. unfold run_ended. rewrite F6. destruct H2 as [?|[? ?]]; auto.
  - unfold exit_ok, run_ended. rewrite F2, F3, F4, F6. intros Hr. destruct (I8 Hr) as [?|[?|?]]; auto.
  - unfold close_ok in *. by rewrite F7, F3, Hc in *.
Qed.

Lemma close_done_complete e :
  inv e -> ex_run e = run_done -> ex_cancelled e = false -> ex_err e = [] -> ex_accepted e = (ex_sent e).*1.
Proof.
  intros [I1 I2 I3 I4 I5 I6 I7 I8 I9] Hr Hc He. destruct I1 as (lost & E & Hn1 & Hl). unfold in_hand in E. rewrite Hr in E.
  assert (lost = []) as -> by (destruct lost; [done|]; destruct Hl as [H _]; [done|by rewrite Hc in H]).
  destruct (I8 (or_intror Hr)) as [[_ Hq]|[H|H]]; [|by rewrite He in H|by rewrite Hc in H].
  by rewrite E, Hq, app_nil_r.
Qed.

Lemma close_step_inv timer answer e e' : inv e -> close_step timer answer e = Some e' -> inv e'.
Proof.
  intros I H. unfold close_step in H. pose proof (iv_close _ I) as Hok. unfold close_ok in Hok.
  destruct (ex_close e) as [| | |t|c|c] eqn:Ec.
  - injection H as <-. apply set_close_inv; [done|done| |done]. unfold close_ok. cbn. by destruct Hok.
  - destruct timer.
    + injection H as <-. apply set_close_inv; done.
    + unfold is_done in H. destruct (ex_run e) eqn:Er; try done. injection H as <-.
      apply set_close_inv; [done|done| |done]. unfold close_ok. cbn. by destruct Hok.
  - injection H as <-. apply set_close_inv; [done|done|done|by apply closeSender_inv].
  - injection H as <-. apply set_close_inv; [done|done| |done]. unfold close_ok. cbn. split; [done|].
    intros [He Ht]%app_eq_nil. by destruct Hok as [_ [? ?]].
  - injection H as <-. apply set_close_inv; [done|done| |done]. unfold close_ok. cbn [ex_close set_close ex_closing].
    split; [done|]. destruct Hok as [_ Hok]. cbn [Snapshot su_Pending su_Dropped].
    destruct (0 <? u64 _); [by intros [_ Hn]%app_eq_nil|].
    destruct (Z.ltb_spec 0 (su_Dropped (ex_summary e))) as [|Hd]; [by intros [_ Hn]%app_eq_nil|]. intros Hn.
    destruct (Hok Hn) as (Hr & Hx & He). split; [done|]. split; [done|]. split; [|by apply (close_done_complete e)].
    rewrite (iv_dropped _ I) in Hd. cbn.
    pose proof (uint_range 64 (Z.of_nat (length (ex_rejected e))) ltac:(done)). lia.
  - done.
Qed.

Lemma exporter_step_inv e l e' : inv e -> step e l = Some e' -> inv e'.
Proof.
  intros I. destruct l as [w|event|answer|timer answer]; cbn [step].
  - intros [= <-]. by apply Export_inv.
  - intros [= <-]. by apply exportEvent_inv.
  - by apply run_step_inv.
  - by apply close_step_inv.
Qed.

Lemma exporter_steps_inv ls e e' : inv e -> steps e ls = Some e' -> inv e'.
Proof.
  revert e. induction ls as [|l ls IH]; intros e I; cbn [steps]; [by intros [= <-]|].
  destruct (step e l) as [e1|] eqn:E; [|done]. cbn. apply IH. by eapply exporter_step_inv.
Qed.

Lemma NewExporter_inv config pcode oid e : NewExporter config pcode oid = Some e -> inv e.
Proof.
  unfold NewExporter. destruct (_ || (ec_DrainTimeout config <=? 0)) eqn:Ec; [done|].
  destruct (_ || (253 <? _)%nat); [done|]. destruct (negb _); [done|]. destruct (_ || (oid =? 0)); [done|].
  intros [= <-]. rewrite !orb_false_iff in Ec. bool_to_Z.
  split; cbn; try done.
  - exists []. split_and!; [done|cbn; lia|done].
  - lia.
  - exists []. by left.
  - by intros [?|?].
Qed.

(** *** How many packs there can be *)

Definition offered e : nat := length (ex_accepted e) + length (ex_rejected e).

Lemma enqueue_offered p e : offered (enqueueLocked p e) = S (offered e).
Proof. unfold enqueueLocked, offered. destruct (_ <? _); cbn; rewrite length_app; cbn; lia. Qed.

(** What a step does to the history *)
Lemma step_history e l e' :
  step e l = Some e' ->
  (ex_accepted e' = ex_accepted e /\ ex_rejected e' = ex_rejected e) \/
  exists p, built Sum256 coverage_json digest (ex_pcode e) (ex_oid e) p /\
    ex_accepted e' = ex_accepted (enqueueLocked p e) /\ ex_rejected e' = ex_rejected (enqueueLocked p e).
Proof.
  destruct l as [w|event|answer|timer answer]; cbn [step].
  - unfold Export. intros [= <-]. destruct (ex_closing e); [by left|]. destruct (ex_err e); [|by left].
    destruct (negb _); [by left|]. destruct (PackForWindow _ _ _ _) as [p|[| []| | | | | | |]] eqn:Ep; try by left.
    right. exists p. split; [by eapply built_window|done].
  - unfold exportEvent. intros [= <-]. destruct (ex_closing e); [by left|]. destruct (ex_err e); [|by left].
    destruct (negb _); [by left|]. destruct (event_pack event e) as [p|] eqn:Ep; [|by left].
    right. exists p. split; [|done]. destruct event; [by eapply built_l7|by eapply built_dns|by eapply built_drop].
  - unfold run_step. destruct (closeSender_frame answer e) as (_ & _ & _ & _ & _ & _ & _ & F8 & F9 & _).
    left. repeat case_match; simplify_eq/=; auto.
  - unfold close_step. destruct (closeSender_frame answer e) as (_ & _ & _ & _ & _ & _ & _ & F8 & F9 & _).
    left. repeat case_match; simplify_eq/=; auto.
Qed.

Lemma steps_offered ls e e' : steps e ls = Some e' -> (offered e' <= offered e + length ls)%nat.
Proof.
  revert e. induction ls as [|l ls IH]; intros e; cbn [steps length]; [intros [= <-]; lia|].
  destruct (step e l) as [e1|] eqn:E; [|done]. cbn. intros H%IH.
  apply step_history in E as [[E1 E2]|(p & _ & E1 & E2)].
  - unfold offered in *. rewrite E1, E2 in H. lia.
  - pose proof (enqueue_offered p e). unfold offered in *. rewrite E1, E2 in H. lia.
Qed.

Lemma step_identity e l e' : step e l = Some e' -> ex_pcode e' = ex_pcode e /\ ex_oid e' = ex_oid e.
Proof.
  destruct l as [w|event|answer|timer answer]; cbn [step]; unfold Export, exportEvent, enqueueLocked, run_step, close_step, closeSender;
    intros H; repeat case_match; simplify_eq/=; auto.
Qed.

(** *** Ordinals *)

Context {ML : MapValueLaws M}.

Lemma record_id_ordinal n p :
  record_id (with_ordinal n p) = if bool_decide (record_id p = "") then "" else record_id p +:+ "." +:+ pretty n.
Proof.
  unfold with_ordinal. fold (record_id p). destruct (bool_decide (record_id p = "")) eqn:E.
  - by apply bool_decide_eq_true in E.
  - by rewrite record_id_put.
Qed.

(** Every accepted pack is a built pack with the ordinal of its attempt. *)
Definition numbered e : Prop :=
  exists l : list (nat * pack),
    ex_accepted e = (fun x => with_ordinal (u64 (Z.of_nat (S x.1))) x.2) <$> l /\
    StronglySorted lt l.*1 /\ Forall (fun x => (x.1 < offered e)%nat) l /\
    Forall (fun x => built Sum256 coverage_json digest (ex_pcode e) (ex_oid e) x.2) l.

Lemma ordinal_offered e : inv e -> u64 (su_Queued (ex_summary e) + su_Dropped (ex_summary e) + 1) = u64 (Z.of_nat (S (offered e))).
Proof.
  intros I. rewrite (iv_queued _ I), (iv_dropped _ I). unfold offered.
  rewrite <- Z.add_assoc, uint_add_l, (Z.add_comm (Z.of_nat _)), <- Z.add_assoc, uint_add_l. f_equal. lia.
Qed.

Lemma sorted_snoc (l : list nat) n : StronglySorted lt l -> Forall (fun x => (x < n)%nat) l -> StronglySorted lt (l ++ [n]).
Proof.
  induction 1 as [|x l Hs IH Hx]; cbn; intros Hn; [by repeat constructor|].
  apply Forall_cons in Hn as [H1 H2]. constructor; [by apply IH|]. apply Forall_app. split; [done|]. by constructor.
Qed.

Lemma sorted_NoDup (l : list nat) : StronglySorted lt l -> NoDup l.
Proof.
  induction 1 as [|x l Hs IH Hx]; constructor; [|done]. intros Hin. rewrite Forall_forall in Hx.
  specialize (Hx _ Hin). lia.
Qed.

Lemma numbered_step e l e' : inv e -> numbered e -> step e l = Some e' -> numbered e'.
Proof.
  intros I (ps & E & Hs & Hl & Hb) H. destruct (step_identity _ _ _ H) as [Ep Eo].
  unfold numbered. rewrite Ep, Eo.
  apply step_history in H as [[E1 E2]|(p & Hp & E1 & E2)].
  { exists ps. unfold offered in *. by rewrite E1, E2. }
  pose proof (enqueue_offered p e) as En.
  assert (Eoff : offered e' = S (offered e)) by (unfold offered in *; by rewrite E1, E2).
  assert (Hl' : Forall (fun x => (x.1 < S (offered e))%nat) ps).
  { eapply Forall_impl; [exact Hl|]. cbn. lia. }
  rewrite Eoff, E1. unfold enqueueLocked. destruct (_ <? _); cbn [ex_accepted set_history].
  - exists (ps ++ [(offered e, p)]). rewrite !fmap_app, E, (ordinal_offered e I). cbn. split; [done|]. split.
    + apply sorted_snoc; [done|]. rewrite Forall_fmap. exact Hl.
    + split; apply Forall_app; (split; [done|]); (constructor; [|by constructor]); [cbn; lia|done].
  - exists ps. by rewrite E.
Qed.

Lemma steps_numbered ls e e' : inv e -> numbered e -> steps e ls = Some e' -> numbered e'.
Proof.
  revert e. induction ls as [|l ls IH]; intros e I Hn; cbn [steps]; [by intros [= <-]|].
  destruct (step e l) as [e1|] eqn:E; [|done]. cbn. apply IH; [by eapply exporter_step_inv|by eapply numbered_step].
Qed.

Lemma NewExporter_start config pcode oid e :
  NewExporter config pcode oid = Some e -> ex_accepted e = [] /\ ex_rejected e = [].
Proof. unfold NewExporter. intros H. repeat case_match; by simplify_eq/=. Qed.

(** A nil error of Close is a confirmation: every pack the exporter ever
    accepted was sent, in the order of acceptance and exactly once, every Send
    returned nil, and no pack was turned away because the queue was full. *)
Lemma close_confirmed e :
  inv e -> Z.of_nat (length (ex_rejected e)) < 2 ^ 64 -> ex_close e = close_done [] ->
  ex_sent e = (fun p => (p, None)) <$> ex_accepted e /\ ex_rejected e = [].
Proof.
  intros I Hd Hc. pose proof (iv_close _ I) as Hok. unfold close_ok in Hok. rewrite Hc in Hok.
  destruct Hok as [_ Hok]. destruct (Hok eq_refl) as (Hr & He & Hz & Hacc). split.
  - destruct (iv_sends _ I) as [ok [[H _]|(p & n & H & [Hf|[_ Hf]])]]; [|by rewrite Hr in Hf|done].
    rewrite Hacc, H. f_equal. clear. induction ok as [|x ok IH]; cbn; [done|by f_equal].
  - rewrite uint_small in Hz by lia. destruct (ex_rejected e); [done|]. cbn in Hz. lia.
Qed.

(** A separator splits a text in one way. *)
Lemma separator_inj (x y : string) n m :
  byte_of 46 ∉ bytes_of_string x -> byte_of 46 ∉ bytes_of_string y ->
  x +:+ "." +:+ pretty (n : Z) = y +:+ "." +:+ pretty (m : Z) -> n = m.
Proof.
  intros Hx Hy E. apply (f_equal bytes_of_string) in E. rewrite !NetAddr.bytes_of_string_app in E.
  change (bytes_of_string ".") with [byte_of 46] in E. cbn [app] in E.
  pose proof (cut_byte_app (byte_of 46) _ (bytes_of_string (pretty n)) Hx) as C.
  rewrite E, cut_byte_app in C by done. injection C as _ C.
  apply (inj bytes_of_string) in C. symmetry. by apply (inj pretty) in C.
Qed.
End exporter.

(** ** Theorems *)

(** C10. The exporter accounts for every pack under every interleaving of its
    callers, its goroutine, its sender and Close: the queue keeps within its
    capacity; the packs that were sent, the one in hand and the queue are the
    accepted packs in order, each once, but for at most one pack, the one the
    goroutine had in hand when it saw the cancellation and ended; nothing is sent after a failure; and the summary
    counts exactly the accepted, written, failed and rejected packs and, as
    pending, those whose writing is not confirmed. *)
Theorem exporter_accounts {M} {MV : MapValue M} Sum256 coverage_json digest config pcode oid (e0 : Exporter M) ls e :
  NewExporter config pcode oid = Some e0 -> Z.of_nat (length ls) < 2 ^ 64 ->
  steps Sum256 coverage_json digest e0 ls = Some e ->
  Z.of_nat (length (ex_queue e)) <= ec_QueueCapacity (ex_config e) /\
  (exists lost, ex_accepted e = (ex_sent e).*1 ++ in_hand e ++ lost ++ ex_queue e /\ (length lost <= 1)%nat /\
     (lost <> [] -> ex_cancelled e = true /\ run_ended e)) /\
  (exists ok, ex_sent e = (fun p => (p, None)) <$> ok \/
     exists p n, ex_sent e = ((fun p => (p, None)) <$> ok) ++ [(p, Some n)]) /\
  (let s := Snapshot e in
   su_Queued s = Z.of_nat (length (ex_accepted e)) /\ su_Dropped s = Z.of_nat (length (ex_rejected e)) /\
   su_Written s = Z.of_nat (successes (ex_sent e)) /\
   su_Written s + su_Failed s = Z.of_nat (length (ex_sent e)) /\
   su_Pending s = Z.of_nat (length (ex_accepted e) - length (ex_sent e))).
Proof.
  intros Hnew Hls Hsteps. pose proof (exporter_steps_inv _ _ _ _ _ _ (NewExporter_inv _ _ _ _ Hnew) Hsteps) as I.
  pose proof (steps_offered _ _ _ _ _ _ Hsteps) as Hoff. unfold offered in Hoff.
  destruct (NewExporter_start _ _ _ _ Hnew) as [Ea Er]. rewrite Ea, Er in Hoff. cbn [length Nat.add] in Hoff.
  destruct I as [I1 I2 I3 I4 I5 I6 I7 I8 I9]. split; [done|]. split.
  { exact I1. }
  split.
  { destruct I7 as [ok [[H _]|(p & n & H & _)]]; exists ok; [by left|right; by exists p, n]. }
  destruct I1 as (lost & E & _). apply (f_equal length) in E. rewrite !length_app, length_fmap in E.
  pose proof (successes_le (ex_sent e)). cbn [Snapshot su_Queued su_Dropped su_Written su_Failed su_Pending].
  rewrite I3, I4, I5, I6, !(uint_small 64 (Z.of_nat _)) by lia.
  split_and!; [lia..|].
  rewrite (uint_small 64 (Z.of_nat (length (ex_accepted e)) - Z.of_nat (successes (ex_sent e)))) by lia.
  rewrite uint_small; lia.
Qed.

(** No two packs share a record identity: the ordinal of the attempt
    keeps even identical observations, and those after rejected ones, apart. *)
Theorem record_ids_distinct {M} {MV : MapValue M} {ML : MapValueLaws M} Sum256 coverage_json digest config pcode oid
    (e0 : Exporter M) ls e i j p q :
  NewExporter config pcode oid = Some e0 -> Z.of_nat (length ls) < 2 ^ 64 ->
  steps Sum256 coverage_json digest e0 ls = Some e ->
  ex_accepted e !! i = Some p -> ex_accepted e !! j = Some q -> record_id p <> "" -> record_id p = record_id q -> i = j.
Proof.
  intros Hnew Hls Hsteps Hi Hj Hne Heq. pose proof (NewExporter_inv _ _ _ _ Hnew) as I0.
  destruct (NewExporter_start _ _ _ _ Hnew) as [Ea Er].
  assert (N0 : numbered Sum256 coverage_json digest e0).
  { exists []. rewrite Ea. repeat split; constructor. }
  pose proof (steps_offered _ _ _ _ _ _ Hsteps) as Hoff. unfold offered in Hoff at 2. rewrite Ea, Er in Hoff. cbn [length Nat.add] in Hoff.
  destruct (steps_numbered _ _ _ _ _ _ I0 N0 Hsteps) as (l & E & Hs & Hl & Hb).
  rewrite E in Hi, Hj. rewrite list_lookup_fmap in Hi, Hj.
  destruct (l !! i) as [[n x]|] eqn:Ei; [|done]. destruct (l !! j) as [[m y]|] eqn:Ej; [|done].
  cbn in Hi, Hj. injection Hi as <-. injection Hj as <-. rewrite !record_id_ordinal in Heq. rewrite record_id_ordinal in Hne.
  destruct (bool_decide (record_id x = "")); [done|].
  destruct (bool_decide (record_id y = "")); [by destruct (record_id x)|].
  rewrite Forall_forall in Hb, Hl.
  pose proof (Hl _ (list_elem_of_lookup_2 _ _ _ Ei)) as Hn. pose proof (Hl _ (list_elem_of_lookup_2 _ _ _ Ej)) as Hm.
  cbn [fst] in Hn, Hm. apply separator_inj in Heq.
  2: { apply (built_record_id _ _ _ _ _ _ (Hb _ (list_elem_of_lookup_2 _ _ _ Ei))). }
  2: { apply (built_record_id _ _ _ _ _ _ (Hb _ (list_elem_of_lookup_2 _ _ _ Ej))). }
  rewrite !uint_small in Heq by lia. assert (n = m) as -> by lia.
  pose proof (sorted_NoDup _ Hs) as Hnd.
  apply (NoDup_lookup l.*1 i j m Hnd); rewrite list_lookup_fmap; [by rewrite Ei|by rewrite Ej].
Qed.

(** *** A concrete run *)

Definition example_exporter_config : ExporterConfig := mkExporterConfig "node-a" 2 Second.

Definition example_exporter : Exporter (gmap string field_value) :=
  mkExporter example_exporter_config 7 3 [] false [] false (mkSummary 0 0 0 0 0 0 0 0) false run_idle close_none [] [] [].

(** The same observation three times: the third finds the queue full. *)
Definition example_offers : list label := replicate 3 (StepEvent (EventDNS example_tx)).

Definition example_drain : list label :=
  StepClose false None :: replicate 8 (StepRun None) ++ replicate 3 (StepClose false None).

Definition example_sum (l : list byte) : list byte := take 32 l.
Definition example_json (_ : string) (_ : Time) (_ : string) (_ : Z) (_ _ _ : string) (_ : Z) : list byte := [].
Definition example_digest (_ : Window) : string := "".

Abbreviation example_steps ls := (steps example_sum example_json example_digest example_exporter ls).

Lemma example_new : NewExporter example_exporter_config 7 3 = Some example_exporter.
Proof. reflexivity. Qed.

(** What a run shows *)
Definition shown (o : option (Exporter (gmap string field_value))) : option (nat * nat * nat * ExporterConfig * bool * bool) :=
  e ← o;
  Some (length (ex_accepted e), length (ex_rejected e), length (ex_sent e), ex_config e,
        match ex_close e with close_done [] => true | _ => false end,
        forallb (fun p => negb (bool_decide (record_id p = ""))) (ex_accepted e)).

Lemma exporter_accounts_witness :
  exists e, example_steps (example_offers ++ [StepRun None]) = Some e /\
    su_Queued (Snapshot e) = 2 /\ su_Dropped (Snapshot e) = 1 /\ su_Pending (Snapshot e) = 2 /\
    Z.of_nat (length (ex_queue e)) <= 2.
Proof.
  assert (S : shown (example_steps (example_offers ++ [StepRun None])) =
    Some (2, 1, 0, example_exporter_config, false, true)%nat) by (vm_compute; reflexivity).
  destruct (example_steps (example_offers ++ [StepRun None])) as [e|] eqn:E; [|discriminate S].
  injection S as S1 S2 S3 S4 _ _.
  destruct (exporter_accounts example_sum example_json example_digest example_exporter_config 7 3 example_exporter
    (example_offers ++ [StepRun None]) e example_new eq_refl E)
    as (H1 & _ & _ & H2 & H3 & _ & _ & H4).
  rewrite S4 in H1. rewrite S1 in H2, H4. rewrite S2 in H3. rewrite S3 in H4.
  exists e. split; [reflexivity|]. split; [exact H2|]. split; [exact H3|]. split; [exact H4|exact H1].
Defined.

Lemma record_ids_distinct_witness :
  exists e p q, example_steps (take 2 example_offers) = Some e /\ ex_accepted e = [p; q] /\
    record_id p <> "" /\ record_id p <> record_id q.
Proof.
  assert (S : shown (example_steps (take 2 example_offers)) = Some (2, 0, 0, example_exporter_config, false, true)%nat)
    by (vm_compute; reflexivity).
  destruct (example_steps (take 2 example_offers)) as [e|] eqn:E; [|discriminate S].
  injection S as S1 _ _ _ _ S6. destruct (ex_accepted e) as [|p [|q [|]]] eqn:Ea; try discriminate S1.
  cbn [forallb] in S6. apply andb_true_iff in S6 as [Hp _]. apply negb_true_iff, bool_decide_eq_false in Hp.
  exists e, p, q. split; [reflexivity|]. split; [exact Ea|]. split; [exact Hp|]. intros C.
  assert (0%nat = 1%nat) as D; [|discriminate D].
  apply (record_ids_distinct example_sum example_json example_digest example_exporter_config 7 3 example_exporter
    (take 2 example_offers) e 0 1 p q example_new eq_refl E);
    [by rewrite Ea..|done|done].
Defined.
