(* ===== verification/AppDelivery.v ===== *)
(** * internal/app and internal/tagcount: what a capture delivers

    The event loop of [App] over the exporter of [Exporter]: the world of the
    loop is any world whose exporter is the modelled one, its goroutine taking
    turns between the calls. The specification says which packs a log of
    output records stands for. No code of its own. *)

From S2P Require Import Prelude Flow Window Stream Dns L7Types Http2 L7 Bridge Pack App AppLogic Exporter.

#[local] Open Scope Z_scope.

(** ** Definitions *)

(** A world, an exporter, and for each call of the exporter the answers of
    the sender to the turn its goroutine takes before the call *)
Record carrier (W M : Type) := mkCarrier {
  ca_world : W;
  ca_exporter : Exporter M;
  ca_turns : list (list (option Z))
}.

Arguments mkCarrier {W M}.
Arguments ca_world {W M}.
Arguments ca_exporter {W M}.
Arguments ca_turns {W M}.

Section world.
Context {W : Type} {WW : World W} {M : Type} {MV : MapValue M}.
Context (Sum256 : list byte -> list byte).
Context (coverage_json : string -> Time -> string -> Z -> string -> string -> string -> Z -> list byte).
Context (digest : Window -> string).

#[local] Abbreviation pack := (TagCountPack M).

(** The goroutine of run, until it waits *)
Fixpoint run_turn (answers : list (option Z)) (e : Exporter M) : Exporter M :=
  match answers with
  | [] => e
  | answer :: answers' => match run_step answer e with Some e' => run_turn answers' e' | None => e end
  end.

Definition take_turn (c : carrier W M) : carrier W M :=
  match ca_turns c with
  | [] => c
  | turn :: turns => mkCarrier (ca_world c) (run_turn turn (ca_exporter c)) turns
  end.

Definition lift {A} (f : W -> W * A) (c : carrier W M) : carrier W M * A :=
  let '(w, a) := f (ca_world c) in (mkCarrier w (ca_exporter c) (ca_turns c), a).

(** A call of the exporter; an error is a code. *)
Definition call (f : Exporter M -> Exporter M * Exporter.errors) (c : carrier W M) : carrier W M * option Z :=
  let c := take_turn c in
  let '(e, err) := f (ca_exporter c) in
  (mkCarrier (ca_world c) e (ca_turns c), match err with [] => None | _ => Some 0 end).

Definition typed_event (r : record) : option event :=
  match r with
  | RecL7 t => Some (EventL7 t)
  | RecDNS t => Some (EventDNS t)
  | RecDrop d => Some (EventDrop d)
  | _ => None
  end.

Definition carrier_world : World (carrier W M) := {|
  world_now := lift world_now;
  world_elapsed := lift world_elapsed;
  world_Resolve p s d := lift (world_Resolve p s d);
  world_ResolveAfter p s d t := lift (world_ResolveAfter p s d t);
  world_Lookup pid := lift (world_Lookup pid);
  world_Enrich o := lift (world_Enrich o);
  world_Encode r := lift (world_Encode r);
  world_Export w := call (Export digest w);
  world_ExportTyped r :=
    match typed_event r with
    | Some event => call (exportEvent Sum256 coverage_json event)
    | None => fun c => (c, None)
    end;
  world_Dropped c := let c := take_turn c in (c, Dropped (ca_exporter c))
|}.

(** *** Specification *)

(** The pack of a record, if records of its kind have one *)
Definition pack_of (pcode oid : Z) (r : record) : option (result PackError pack) :=
  match r with
  | RecWindow w => Some (PackForWindow digest w pcode oid)
  | RecL7 t => Some (PackForL7 Sum256 t pcode oid)
  | RecDNS t => Some (PackForDNS Sum256 t pcode oid)
  | RecDrop d => Some (PackForL7Drop Sum256 coverage_json d pcode oid)
  | _ => None
  end.

Definition record_node (r : record) : string :=
  match r with
  | RecWindow w => fk_NodeName (wi_Flow w)
  | RecL7 t => fk_NodeName (tx_Flow t)
  | RecDNS t => Dns.tx_NodeName t
  | RecDrop d => dr_NodeName d
  | _ => ""
  end.

(** The windows without a pack, by reason *)
Inductive skip := skip_partial | skip_unmeasured | skip_incomplete.

#[export] Instance skip_eq_dec : EqDecision skip.
Proof. solve_decision. Defined.

Definition skip_of (pcode oid : Z) (r : record) : option skip :=
  match r, pack_of pcode oid r with
  | RecWindow _, Some (Err (request_error ErrPartialWindow)) => Some skip_partial
  | RecWindow _, Some (Err (request_error ErrNoSamples)) => Some skip_unmeasured
  | RecWindow _, Some (Err (request_error ErrIncompleteTuple)) => Some skip_incomplete
  | _, _ => None
  end.

(** A record of a kind that is exported is of the node, and has a pack or is
    skipped. *)
Definition exportable (node : string) (pcode oid : Z) (r : record) : Prop :=
  match pack_of pcode oid r with
  | None => True
  | Some (Ok _) => record_node r = node
  | Some (Err _) => record_node r = node /\ is_Some (skip_of pcode oid r)
  end.

(** The packs of a log, in order, each with the ordinal of its attempt *)
Definition packs_of (pcode oid : Z) (log : list record) : list pack :=
  omap (fun r => match pack_of pcode oid r with Some (Ok p) => Some p | _ => None end) log.

Definition with_ordinals (ps : list pack) : list pack :=
  imap (fun i p => with_ordinal (u64 (Z.of_nat (S i))) p) ps.

Definition skipped (pcode oid : Z) (why : skip) (log : list record) : Z :=
  u64 (Z.of_nat (length (filter (fun r => skip_of pcode oid r = Some why) log))).

(** What the output says was not exported *)
Fixpoint reported (log : list record) : Z :=
  match log with
  | [] => 0
  | RecExportDrop _ _ dropped _ :: log' => dropped + reported log'
  | _ :: log' => reported log'
  end.

(** ** Lemmas *)

(** *** The exporter and the log *)

Section lemmas.
Context (node : string) (pcode oid : Z).

#[local] Abbreviation packs := (packs_of pcode oid).
#[local] Abbreviation skips := (skipped pcode oid).

(** The exporter was offered the packs of the log, and nothing else. *)
Record corresponds (e : Exporter M) (log : list record) : Prop := {
  co_inv : Exporter.inv e;
  co_identity : ec_NodeName (ex_config e) = node /\ ex_pcode e = pcode /\ ex_oid e = oid;
  co_accepted : sublist (ex_accepted e) (with_ordinals (packs log));
  co_offered : ex_accepted e ++ ex_rejected e ≡ₚ with_ordinals (packs log);
  co_skipped :
    su_SkippedPartial (ex_summary e) = skips skip_partial log /\
    su_SkippedUnmeasured (ex_summary e) = skips skip_unmeasured log /\
    su_SkippedIncompleteTuple (ex_summary e) = skips skip_incomplete log;
  co_exportable : Forall (exportable node pcode oid) log
}.

Lemma packs_app log log' : packs (log ++ log') = packs log ++ packs log'.
Proof. apply omap_app. Qed.

Lemma with_ordinals_snoc ps (p : pack) :
  with_ordinals (ps ++ [p]) = with_ordinals ps ++ [with_ordinal (u64 (Z.of_nat (S (length ps)))) p].
Proof. unfold with_ordinals. rewrite imap_app. cbn. by rewrite Nat.add_0_r. Qed.

Lemma skips_snoc why log r :
  skips why (log ++ [r]) = if decide (skip_of pcode oid r = Some why) then u64 (skips why log + 1) else skips why log.
Proof.
  unfold skipped. rewrite filter_app, length_app, filter_cons. destruct (decide _); cbn; rewrite ?filter_nil; cbn.
  - rewrite uint_add_l. f_equal. lia.
  - f_equal. lia.
Qed.

Lemma skip_none r : (forall err, pack_of pcode oid r <> Some (Err err)) -> skip_of pcode oid r = None.
Proof.
  unfold skip_of. destruct r; try done. cbn [pack_of]. destruct (PackForWindow digest w pcode oid) as [p|err]; [done|].
  intros H. by destruct (H err).
Qed.

(** A record that is not of a kind that is exported *)
Definition silent (r : record) : Prop := pack_of pcode oid r = None /\ reported [r] = 0.

Lemma corresponds_silent e log r : pack_of pcode oid r = None -> corresponds e log -> corresponds e (log ++ [r]).
Proof.
  intros Hr [I1 I2 I3 I4 I5 I6].
  assert (Hs : skip_of pcode oid r = None) by (apply skip_none; by rewrite Hr).
  assert (Hp : packs (log ++ [r]) = packs log).
  { rewrite packs_app. unfold packs_of at 2. cbn. by rewrite Hr, app_nil_r. }
  split; rewrite ?Hp, ?skips_snoc, ?Hs; try done. apply Forall_app. split; [done|]. constructor; [|done].
  unfold exportable. by rewrite Hr.
Qed.

Lemma corresponds_enqueue e log r p :
  ex_closing e = false -> ex_err e = [] -> pack_of pcode oid r = Some (Ok p) -> record_node r = node ->
  corresponds e log -> corresponds (enqueueLocked p e) (log ++ [r]).
Proof.
  intros Hc He Hr Hn [I1 I2 I3 I4 I5 I6].
  assert (Hs : skip_of pcode oid r = None) by (apply skip_none; by rewrite Hr).
  assert (Hp : packs (log ++ [r]) = packs log ++ [p]) by (rewrite packs_app; unfold packs_of at 2; cbn; by rewrite Hr).
  assert (Hlen : length (packs log) = offered e).
  { apply Permutation_length in I4. unfold with_ordinals in I4. rewrite length_app, length_imap in I4. done. }
  assert (Hx : Forall (exportable node pcode oid) (log ++ [r])).
  { apply Forall_app. split; [done|]. constructor; [|done]. unfold exportable. by rewrite Hr. }
  pose proof (enqueue_inv p e Hc He I1) as I.
  unfold enqueueLocked in *. rewrite (ordinal_offered e I1), <- Hlen in *.
  destruct (_ <? _) in I |- *; split; try done; rewrite ?Hp, ?with_ordinals_snoc, ?skips_snoc, ?Hs; cbn.
  - by apply sublist_app.
  - rewrite <- I4, <- !app_assoc. apply Permutation_app_head, Permutation_app_comm.
  - done.
  - by apply sublist_inserts_r.
  - by rewrite <- I4, app_assoc.
  - done.
Qed.

Lemma corresponds_window e log w :
  corresponds e log -> (Export digest w e).2 = [] -> corresponds (Export digest w e).1 (log ++ [RecWindow w]).
Proof.
  intros Hco. pose proof Hco as [I1 (N1 & N2 & N3) I3 I4 I5 I6]. pose proof (Export_inv digest w e I1) as I1'.
  unfold Export in *. destruct (ex_closing e) eqn:Ec; [done|]. destruct (ex_err e) eqn:Ee; [|done].
  destruct (bool_decide _) eqn:En; cbn [negb] in *; [|done]. apply bool_decide_eq_true in En. rewrite N1 in En.
  rewrite N2, N3 in *. destruct (PackForWindow digest w pcode oid) as [p|err] eqn:Ep.
  - intros _. apply corresponds_enqueue; try done. cbn. by rewrite Ep.
  - assert (Hs : forall why, skip_of pcode oid (RecWindow w) = Some why ->
      forall s, s = count_skipped match why with skip_partial => ErrPartialWindow | skip_unmeasured => ErrNoSamples
                    | skip_incomplete => ErrIncompleteTuple end (ex_summary e) ->
      Exporter.inv (set_queue (ex_queue e) s e) ->
      corresponds (set_queue (ex_queue e) s e) (log ++ [RecWindow w])).
    { intros why Hw s -> I. assert (Hp : packs (log ++ [RecWindow w]) = packs log).
      { rewrite packs_app. unfold packs_of at 2. cbn. by rewrite Ep, app_nil_r. }
      split; rewrite ?Hp, ?skips_snoc, ?Hw; try done.
      - destruct I5 as (S1 & S2 & S3). destruct why; cbn; by rewrite S1, S2, S3.
      - apply Forall_app. split; [done|]. constructor; [|done]. unfold exportable. cbn [pack_of]. rewrite Ep.
        split; [done|by eexists]. }
    assert (Hk : skip_of pcode oid (RecWindow w) = match err with
      | request_error ErrPartialWindow => Some skip_partial | request_error ErrNoSamples => Some skip_unmeasured
      | request_error ErrIncompleteTuple => Some skip_incomplete | _ => None end) by (unfold skip_of; cbn; by rewrite Ep).
    destruct err as [|[]| | | | | | |]; try done; intros _; eapply Hs; done.
Qed.

Lemma corresponds_event e log r ev :
  typed_event r = Some ev -> corresponds e log -> (exportEvent Sum256 coverage_json ev e).2 = [] ->
  corresponds (exportEvent Sum256 coverage_json ev e).1 (log ++ [r]).
Proof.
  intros Hr Hco. pose proof Hco as [_ (N1 & N2 & N3) _ _ _ _]. unfold exportEvent.
  destruct (ex_closing e) eqn:Ec; [done|]. destruct (ex_err e) eqn:Ee; [|done].
  destruct (bool_decide _) eqn:En; cbn [negb]; [|done]. apply bool_decide_eq_true in En. rewrite N1 in En.
  destruct (event_pack _ _ ev e) as [p|] eqn:Ep; [|done]. intros _. unfold event_pack in Ep. rewrite N2, N3 in Ep.
  apply corresponds_enqueue; try done; destruct r; try done; injection Hr as <-; cbn in *; by rewrite ?Ep.
Qed.

(** The goroutine offers nothing. *)
Lemma run_step_frame answer (e e' : Exporter M) :
  run_step answer e = Some e' ->
  ex_config e' = ex_config e /\ ex_pcode e' = ex_pcode e /\ ex_oid e' = ex_oid e /\
  ex_accepted e' = ex_accepted e /\ ex_rejected e' = ex_rejected e /\ Dropped e' = Dropped e /\
  su_SkippedPartial (ex_summary e') = su_SkippedPartial (ex_summary e) /\
  su_SkippedUnmeasured (ex_summary e') = su_SkippedUnmeasured (ex_summary e) /\
  su_SkippedIncompleteTuple (ex_summary e') = su_SkippedIncompleteTuple (ex_summary e).
Proof. unfold run_step, closeSender. intros H. repeat case_match; simplify_eq/=; done. Qed.

Lemma corresponds_turn turn e log : corresponds e log -> corresponds (run_turn turn e) log.
Proof.
  revert e. induction turn as [|answer turn IH]; intros e H; cbn [run_turn]; [done|].
  destruct (run_step answer e) as [e'|] eqn:E; [|done]. apply IH. destruct H as [I1 I2 I3 I4 I5 I6].
  destruct (run_step_frame _ _ _ E) as (F1 & F2 & F3 & F4 & F5 & _ & F6 & F7 & F8).
  split; rewrite ?F1, ?F2, ?F3, ?F4, ?F5, ?F6, ?F7, ?F8; try done. by eapply run_step_inv.
Qed.
End lemmas.

(** *** The event loop *)

Section delivery.
Context {D : Type} {HD : Hpack D}.
Context {R1 : MapRange connectionKey pendingRequest} {R2 : MapRange http2StreamKey pendingRequest}.
Context {RW : MapRange aggregateKey Window}.
Context (opts : options) (Hexporter : op_exporter opts = true) (Htyped : op_typed opts = true).
Context (node : string) (pcode oid : Z).

#[local] Instance WC : World (carrier W M) := carrier_world.
#[local] Abbreviation state := (app (carrier W M) D).
#[local] Abbreviation Act := (App.M (W := carrier W M) (D := D)).
#[local] Abbreviation failures := (list AppError).

(** What is in the log was offered, the drops are reported, and nothing
    failed. *)
Definition delivered (st : state) : Prop :=
  corresponds node pcode oid (ca_exporter (ap_world st)) (ap_log st) /\
  u64 (reported (ap_log st)) = eo_exportLost (ap_output st) /\
  eo_exportFailure (ap_output st) = [].

#[local] Abbreviation quiet := (safe delivered (fun _ => True)).
#[local] Abbreviation clean := (safe delivered (fun e : failures => e = [])).

Lemma delivered_same (st st' : state) :
  ca_exporter (ap_world st') = ca_exporter (ap_world st) -> ap_log st' = ap_log st ->
  eo_exportLost (ap_output st') = eo_exportLost (ap_output st) ->
  eo_exportFailure (ap_output st') = eo_exportFailure (ap_output st) -> delivered st -> delivered st'.
Proof. unfold delivered. intros -> -> -> ->. done. Qed.

Lemma quiet_lift {A} (f : W -> W * A) : quiet (react (lift f)).
Proof.
  intros st H _. unfold react, lift. destruct (f _) as [w a]. by eapply delivered_same; [..|exact H].
Qed.

Lemma reported_log_app log log' : reported (log ++ log') = reported log + reported log'.
Proof. induction log as [|r log IH]; [done|]. destruct r; cbn; rewrite IH; lia. Qed.

#[local] Arguments reported : simpl never.

(** A record is written, whether or not it gets to the output. *)
Lemma write_result r (st : state) :
  let '(st', e) := write r st in
  ca_exporter (ap_world st') = ca_exporter (ap_world st) /\ ap_log st' = ap_log st ++ [r] /\ ap_output st' = ap_output st.
Proof. unfold write, bind, react. cbn. unfold lift. by destruct (world_Encode r _) as [w e]. Qed.

Lemma quiet_write r : silent pcode oid r -> quiet (write r).
Proof.
  intros [Hp Hr] st (H1 & H2 & H3) _. pose proof (write_result r st) as Hw. destruct (write r st) as [st' e]. cbn.
  destruct Hw as (E1 & E2 & E3). unfold delivered. rewrite E1, E2, E3, reported_log_app, Hr, Z.add_0_r.
  split_and!; [by apply corresponds_silent|done|done].
Qed.

(** A call of the exporter that returns no error, for a record just written *)
Lemma call_delivered r f (st : state) :
  (forall e log, corresponds node pcode oid e log -> (f e).2 = [] -> corresponds node pcode oid (f e).1 (log ++ [r])) ->
  reported [r] = 0 -> delivered st ->
  let st1 := (write r st).1 in
  let '(st2, code) := react (call f) st1 in
  ap_output st2 = ap_output st1 /\ (code = None -> delivered st2).
Proof.
  intros Hf Hr (H1 & H2 & H3). pose proof (write_result r st) as Hw. destruct (write r st) as [st1 e]. cbn [fst].
  destruct Hw as (E1 & E2 & E3). unfold react, call. cbn.
  assert (Ht : corresponds node pcode oid (ca_exporter (take_turn (ap_world st1))) (ap_log st)).
  { unfold take_turn. destruct (ca_turns _) as [|turn turns]; cbn; rewrite E1; [done|by apply corresponds_turn]. }
  specialize (Hf _ _ Ht). destruct (f (ca_exporter (take_turn (ap_world st1)))) as [e' err]. cbn in *.
  split; [done|]. destruct err; [|done]. intros _. unfold delivered. cbn. rewrite E2, E3, reported_log_app, Hr, Z.add_0_r.
  split_and!; [by apply Hf|done|done].
Qed.

(** A transaction or a coverage drop is exported. *)
Lemma clean_encode_typed r : typed r -> clean (encode_typed opts r).
Proof.
  intros Hty st H. assert (exists ev, typed_event r = Some ev) as [ev Hev] by (destruct r; try done; by eexists).
  assert (Hr : reported [r] = 0) by by destruct r.
  pose proof (call_delivered r (exportEvent Sum256 coverage_json ev) st
    (fun e log => corresponds_event node pcode oid e log r ev Hev) Hr H) as Hc.
  pose proof (write_result r st) as Hw. destruct (encode_typed opts r st) as [st' e'] eqn:E. cbn [fst snd]. intros ->.
  unfold encode_typed, try_, exportTyped, bind at 1 in E.
  destruct (write r st) as [st1 e]. cbn zeta in Hc. cbn [fst] in Hc.
  destruct Hw as (_ & _ & E3). destruct H as (_ & _ & H3). destruct (nil_error e) eqn:Ee; [|cbn in E; injection E as _ ->; done].
  unfold bind at 1, get in E. rewrite E3, H3, Hexporter, Htyped in E. cbn [nil_error negb andb] in E.
  unfold bind in E. cbn [world_ExportTyped WC carrier_world] in E. rewrite Hev in E.
  destruct (react (call (exportEvent Sum256 coverage_json ev)) st1) as [st2 [code|]].
  - by destruct (set_failure _ st2).
  - injection E as <-. by apply Hc.
Qed.

(** Windows are exported after they are written. *)
Lemma clean_encodeWindows windows exportErr : clean (encodeWindows opts windows exportErr).
Proof.
  revert exportErr. induction windows as [|w windows IH]; intros exportErr st H; [done|]. cbn [encodeWindows].
  assert (Herr : forall l (first : failures) (st : state), (encodeWindows opts l first st).2 = [] -> first = []).
  { intros l. induction l as [|x l IHl]; intros first st'; cbn [encodeWindows]; [done|]. unfold bind at 1.
    destruct (write _ st') as [st1 e]. destruct (nil_error e); cbn [negb]; [|cbn; by intros [-> _]%app_eq_nil].
    unfold bind, get. destruct (nil_error _ && _); [|apply IHl]. destruct (react _ st1) as [st2 [n|]]; [|apply IHl].
    destruct (set_failure _ st2) as [st3 []]. by intros ?%IHl. }
  pose proof (call_delivered (RecWindow w) (Export digest w) st (fun e log => corresponds_window node pcode oid e log w) eq_refl H) as Hc.
  pose proof (write_result (RecWindow w) st) as Hw.
  destruct (bind _ _ st) as [st' e'] eqn:E. cbn [fst snd]. intros ->. unfold bind at 1 in E.
  destruct (write (RecWindow w) st) as [st1 e]. cbn zeta in Hc. cbn [fst] in Hc.
  destruct Hw as (_ & _ & E3). destruct H as (_ & _ & H3).
  destruct (nil_error e) eqn:Ee; cbn [negb] in E; [|injection E as _ [_ ->]%app_eq_nil; done].
  unfold bind at 1, get in E. rewrite E3, H3, Hexporter in E. cbn [nil_error andb] in E. unfold bind in E.
  cbn [world_Export WC carrier_world] in E.
  destruct (react (call (Export digest w)) st1) as [st2 [code|]].
  - destruct (set_failure _ st2) as [st3 []]. apply (f_equal snd), Herr in E. done.
  - destruct Hc as [_ Hc]. specialize (IH exportErr st2 (Hc eq_refl)). rewrite E in IH. by apply IH.
Qed.

(** The losses that are counted are reported. *)
Definition settled (st : state) : Prop := Dropped (ca_exporter (ap_world st)) = eo_exportLost (ap_output st).

Lemma Dropped_range e log : corresponds node pcode oid e log -> 0 <= Dropped e < 2 ^ 64.
Proof. intros H. unfold Dropped. rewrite (iv_dropped _ (co_inv _ _ _ _ _ H)). by apply uint_range. Qed.

Lemma reportExportLoss_settles st :
  delivered st -> delivered (reportExportLoss opts st).1 /\ settled (reportExportLoss opts st).1.
Proof.
  intros H. unfold reportExportLoss. rewrite Hexporter. cbn [negb]. set (m := bind _ _). destruct (m st) as [st0 e0] eqn:E. cbn [fst]. unfold m, bind at 1 in E. clear m.
  destruct (react world_Dropped st) as [st1 total] eqn:E1.
  assert (H1 : delivered st1 /\ total = Dropped (ca_exporter (ap_world st1))).
  { injection E1 as <- <-. cbn. split; [|done]. destruct H as (Ha & Hb & Hc). split; [|done]. cbn.
    unfold take_turn. destruct (ca_turns _) as [|turn turns]; [done|]. by apply corresponds_turn. }
  clear E1 H. destruct H1 as [H ->]. pose proof (Dropped_range _ _ (proj1 H)) as Hd. unfold bind at 1, get in E.
  destruct (Z.eqb_spec (Dropped (ca_exporter (ap_world st1))) (eo_exportLost (ap_output st1))) as [Eq|_].
  { by injection E as <- _. }
  unfold bind at 1 in E. assert (Hn : quiet now) by apply quiet_lift. specialize (Hn st1 H I).
  assert (Hs : ca_exporter (ap_world (now st1).1) = ca_exporter (ap_world st1) /\ ap_output (now st1).1 = ap_output st1).
  { unfold now, react. cbn. unfold lift. by destruct (world_now _). }
  destruct (now st1) as [st2 t]. cbn [fst] in Hs, Hn. destruct Hs as [S1 S2]. destruct Hn as (H1 & H2 & H3).
  unfold bind in E. set (lost := eo_exportLost (ap_output st1)) in *. set (total := Dropped _) in *.
  destruct (set_output _ st2) as [st3 []] eqn:E3. injection E3 as <-.
  match type of E with write ?r ?s = _ => pose proof (write_result r s) as Hw; rewrite E in Hw end.
  cbn in Hw. destruct Hw as (W1 & W2 & W3). unfold delivered, settled. rewrite W1, W2, W3. cbn.
  rewrite S1 in *. split; [|done]. split_and!; [by apply corresponds_silent| |by rewrite S2 in H3].
  rewrite reported_log_app. unfold reported at 2. rewrite Z.add_0_r, uint_add_r, <- uint_add_l, H2, S2. fold lost.
  replace (lost + (total - lost)) with total by lia. by apply uint_small.
Qed.

#[local] Instance delivered_kept : Kept opts delivered.
Proof.
  split; intros; try apply quiet_lift;
    try (intros st H _; by eapply delivered_same; [..|exact H]).
  - apply safe_quiet, quiet_write. by destruct r.
  - by apply clean_encode_typed.
  - apply clean_encodeWindows.
  - intros st H _. by apply reportExportLoss_settles.
Qed.

Lemma RunEvents_delivers choices last :
  ends delivered (fun st => delivered st /\ settled st) (fun e => e = []) (RunEvents opts choices last).
Proof. apply RunEvents_ends; [apply _|]. intros st H _. by apply reportExportLoss_settles. Qed.

(** A new exporter, before the capture *)
Lemma start_delivered config e0 w turns stream :
  NewExporter config pcode oid = Some e0 -> node = ec_NodeName config ->
  delivered (start (mkCarrier w e0 turns) stream).
Proof.
  intros Hnew ->. split; [|done]. pose proof (NewExporter_inv _ _ _ _ Hnew) as I.
  destruct (NewExporter_start _ _ _ _ Hnew) as [Ea Er]. cbn.
  assert (He : e0 = mkExporter config pcode oid [] false [] false (mkSummary 0 0 0 0 0 0 0 0) false run_idle close_none [] [] []).
  { unfold NewExporter in Hnew. repeat case_match; by simplify_eq. }
  subst e0. split; try done; constructor.
Qed.

End delivery.

(** The steps of the exporter once the capture has ended: its goroutine, and
    Close *)
Definition shutdown (l : label) : Prop := match l with StepRun _ | StepClose _ _ => True | _ => False end.

Lemma shutdown_frame ls (e e' : Exporter M) :
  Forall shutdown ls -> steps Sum256 coverage_json digest e ls = Some e' ->
  ex_accepted e' = ex_accepted e /\ ex_rejected e' = ex_rejected e.
Proof.
  intros H. revert e. induction H as [|l ls Hl _ IH]; intros e; cbn [steps]; [by intros [= ->]|].
  destruct (Exporter.step _ _ _ e l) as [e1|] eqn:E; [|done]. cbn. intros [-> ->]%IH.
  destruct l as [| |answer|timer answer]; [done|done| |]; cbn in E.
  - destruct (run_step_frame _ _ _ E) as (_ & _ & _ & ? & ? & _). done.
  - unfold close_step, closeSender in E. repeat case_match; by simplify_eq/=.
Qed.
End world.

(** ** Theorems *)

(** C2. What a capture writes is what it delivers. When a run of the event
    loop with export returns no error, the exporter was offered one pack for
    every window with samples and every HTTP, DNS and coverage record of the
    output, in the order of the output, and nothing else: every other window
    is counted under the reason why it has no pack; the packs are the accepted
    ones, in that order, and those turned away because the queue was full,
    whose number the drop records of the output report exactly; and if the
    exporter is then closed and its Close returns nil, under any interleaving
    with its goroutine and whatever turns it took during the capture, the
    collector was sent all the packs, each once, in the order of the output,
    and every Send succeeded. *)
Theorem capture_delivered {W} {WW : World W} {M} {MV : MapValue M} Sum256 coverage_json digest {D} {HD : Hpack D}
    {R1 : MapRange connectionKey pendingRequest} {R2 : MapRange http2StreamKey pendingRequest}
    {RW : MapRange aggregateKey Window} opts config pcode oid (e0 : Exporter M) (w : W) turns stream choices last :
  NewExporter config pcode oid = Some e0 -> op_exporter opts = true -> op_typed opts = true ->
  let '(st, err) :=
    RunEvents (WW := carrier_world Sum256 coverage_json digest) (D := D) opts choices last (start (mkCarrier w e0 turns) stream) in
  err = [] ->
  let e := ca_exporter (ap_world st) in
  let packs := with_ordinals (packs_of Sum256 coverage_json digest pcode oid (ap_log st)) in
  let skips why := skipped Sum256 coverage_json digest pcode oid why (ap_log st) in
  Forall (exportable Sum256 coverage_json digest (ec_NodeName config) pcode oid) (ap_log st) /\
  sublist (ex_accepted e) packs /\ ex_accepted e ++ ex_rejected e ≡ₚ packs /\
  su_SkippedPartial (Snapshot e) = skips skip_partial /\
  su_SkippedUnmeasured (Snapshot e) = skips skip_unmeasured /\
  su_SkippedIncompleteTuple (Snapshot e) = skips skip_incomplete /\
  u64 (reported (ap_log st)) = u64 (Z.of_nat (length (ex_rejected e))) /\
  forall ls e', Forall shutdown ls -> steps Sum256 coverage_json digest e ls = Some e' -> ex_close e' = close_done [] ->
    Z.of_nat (length packs) < 2 ^ 64 -> ex_sent e' = (fun p => (p, None)) <$> packs.
Proof.
  intros Hnew Hx Ht.
  pose proof (RunEvents_delivers Sum256 coverage_json digest (D := D) opts Hx Ht (ec_NodeName config) pcode oid choices last
    _ (start_delivered Sum256 coverage_json digest _ pcode oid config e0 w turns stream Hnew eq_refl)) as H.
  destruct (RunEvents _ _ _ _) as [st err]. cbn [fst snd] in H. intros ->. destruct (H eq_refl) as ((Hco & Hrep & _) & Hset).
  pose proof Hco as [I _ Hsub Hperm (S1 & S2 & S3) Hex]. cbn zeta. split_and!; try done.
  { rewrite Hrep, <- (iv_dropped _ I). symmetry. exact Hset. }
  intros ls e' Hls Hsteps Hc Hlen. destruct (shutdown_frame _ _ _ _ _ _ Hls Hsteps) as [Ea Er].
  pose proof (exporter_steps_inv _ _ _ _ _ _ I Hsteps) as I'. pose proof (Permutation_length Hperm) as Hl. rewrite length_app in Hl.
  destruct (close_confirmed _ I') as [Hsent Hrej]; [rewrite Er; lia|done|]. rewrite Hsent, Ea. f_equal.
  apply sublist_full; [done|]. rewrite <- Hl, <- Er, Hrej. cbn. lia.
Qed.

(** *** Witness: a coverage drop and a sample are read, the sender takes the
    first of their packs during the capture and the second while Close waits. *)

#[local] Instance delivery_hpack : Hpack unit := Http2.example_hpack.
#[local] Instance delivery_range1 : MapRange connectionKey pendingRequest := canonical_range _ _.
#[local] Instance delivery_range2 : MapRange http2StreamKey pendingRequest := canonical_range _ _.
#[local] Instance delivery_range3 : MapRange aggregateKey Window := canonical_range _ _.

Definition delivery_options : options := mkOptions "node-a" "both" 0 false false false false true true.
Definition delivery_stream : Stream := mkStream (mkStreamConfig Second 0 16) ∅ 0 false false.

Definition delivery_event (kind : Z) (reason : string) : Collector.Event :=
  Collector.mkEvent kind 0 0 77 1 42 42 Collector.AddressFamilyIPv4 Collector.ProtocolTCP Collector.TCPStateSynSent
    Collector.TCPStateEstablished 300 0 0 0 40000 443 (replicate 16 Byte.x0a) (replicate 16 Byte.x0b) [] reason 3.

Definition delivery_choices : list choice :=
  [Pump (ReadEvent (delivery_event Collector.EventKindL7CoverageDrop "kernel_ringbuf_reserve")); Receive;
   Pump (ReadEvent (delivery_event Collector.EventKindTCPSample "")); Receive; Tick; Tick; Tick; Cancel [ReadEOF]; Receive; Receive].

(** A clock that ticks a second at every reading *)
Definition delivery_clock : World Time := {|
  world_now w := (w + Second, w);
  world_elapsed w := (w + Second, w);
  world_Resolve _ _ _ w := (w, None);
  world_ResolveAfter _ _ _ _ w := (w, None);
  world_Lookup _ w := (w, None);
  world_Enrich o w := (w, o);
  world_Encode _ w := (w, None);
  world_Export _ w := (w, None);
  world_ExportTyped _ w := (w, None);
  world_Dropped w := (w, 0)
|}.

#[local] Abbreviation delivery_world := (@carrier_world _ delivery_clock _ _ example_sum example_json example_digest).

Definition delivery_turns : list (list (option Z)) := [[]; replicate 3 None].

Abbreviation delivery_run :=
  (RunEvents (WW := delivery_world) delivery_options delivery_choices []
    (start (mkCarrier (W := Time) (unix_epoch + Minute) example_exporter delivery_turns) (Some delivery_stream))).

Definition delivery_shutdown : list label :=
  StepClose false None :: replicate 5 (StepRun None) ++ replicate 3 (StepClose false None).

Abbreviation delivery_packs st := (with_ordinals (packs_of example_sum example_json example_digest 7 3 (ap_log st))).

Abbreviation delivery_closed :=
  (steps example_sum example_json example_digest (ca_exporter (ap_world delivery_run.1)) delivery_shutdown).

Lemma capture_delivered_witness :
  exists e', delivery_closed = Some e' /\ length (ap_log delivery_run.1) = 3%nat /\ length (ex_sent e') = 2%nat /\
    ex_sent e' = (fun p => (p, None)) <$> delivery_packs delivery_run.1.
Proof.
  assert (S1 : delivery_run.2 = []) by (vm_compute; reflexivity).
  assert (S2 : length (ap_log delivery_run.1) = 3%nat) by (vm_compute; reflexivity).
  assert (S3 : length (delivery_packs delivery_run.1) = 2%nat) by (vm_compute; reflexivity).
  assert (S4 : match delivery_closed with
    | Some e' => (length (ex_sent e') =? 2)%nat && match ex_close e' with close_done [] => true | _ => false end
    | None => false
    end = true) by (vm_compute; reflexivity).
  destruct delivery_closed as [e'|] eqn:E; [|discriminate S4]. apply andb_true_iff in S4 as [S4 S5]. apply Nat.eqb_eq in S4.
  assert (C : ex_close e' = close_done []) by (destruct (ex_close e') as [| | | | |[|]]; (discriminate S5 || reflexivity)).
  pose proof (capture_delivered (WW := delivery_clock) example_sum example_json example_digest delivery_options
    example_exporter_config 7 3 example_exporter (unix_epoch + Minute) delivery_turns (Some delivery_stream)
    delivery_choices [] example_new eq_refl eq_refl) as H.
  destruct delivery_run as [st err]. cbn [fst snd] in S1, S2, S3, H |- *. destruct (H S1) as (_ & _ & _ & _ & _ & _ & _ & Hd).
  exists e'. split; [reflexivity|]. split; [exact S2|]. split; [exact S4|]. apply (Hd delivery_shutdown e'); [|exact E|exact C|].
  - by repeat constructor.
  - rewrite S3. reflexivity.
Defined.
