(* ===== verification/AppOutput.v ===== *)
(** * internal/app: what a capture writes

    The event loop of [App] over the queued output of [Output]: the interface
    [OutputWorld] says of a world that its Encode is that of a queue whose
    writer goroutine may act at any time. The specification is the list of
    lines a log of records stands for. No code of its own. *)

From stdpp Require Import relations.
From S2P Require Import Prelude Flow Window Stream Dns L7Types Http2 L7 Bridge Pack Output.
From S2P Require Import App AppLogic Exporter AppDelivery.

#[local] Open Scope Z_scope.

(** ** Definitions *)

Section interface.
Context (json : record -> Z + list byte).
Context (loss_json : Time -> Z -> Z -> option (list byte)).

(** The writer goroutine acts any number of times. *)
Definition writer_acts : relation queuedOutput :=
  rtc (fun q q' => exists now n err, writer_step loss_json now n err q = Some q').

(** A world whose output is a queue: only the writer goroutine acts on it
    during the other calls, and Encode is that of the queue until it is
    closed. *)
Class OutputWorld (W : Type) {WW : World W} := {
  ow_queue : W -> queuedOutput;
  ow_now w : writer_acts (ow_queue w) (ow_queue (world_now w).1);
  ow_elapsed w : writer_acts (ow_queue w) (ow_queue (world_elapsed w).1);
  ow_Resolve p s d w : writer_acts (ow_queue w) (ow_queue (world_Resolve p s d w).1);
  ow_ResolveAfter p s d t w : writer_acts (ow_queue w) (ow_queue (world_ResolveAfter p s d t w).1);
  ow_Lookup pid w : writer_acts (ow_queue w) (ow_queue (world_Lookup pid w).1);
  ow_Enrich o w : writer_acts (ow_queue w) (ow_queue (world_Enrich o w).1);
  ow_Export win w : writer_acts (ow_queue w) (ow_queue (world_Export win w).1);
  ow_ExportTyped r w : writer_acts (ow_queue w) (ow_queue (world_ExportTyped r w).1);
  ow_Dropped w : writer_acts (ow_queue w) (ow_queue (world_Dropped w).1);
  ow_Encode r w :
    qo_closed (ow_queue w) = false ->
    exists q1 q2 err, writer_acts (ow_queue w) q1 /\ Output.Encode json r q1 = Some (q2, err) /\
      writer_acts q2 (ow_queue (world_Encode r w).1) /\ ((world_Encode r w).2 = None <-> err = None)
}.

(** *** Specification *)

(** The line of a record *)
Definition line_of (r : record) : option (list byte) := match json r with inr line => Some line | inl _ => None end.

Definition lines (log : list record) : list (list byte) := omap line_of log.

(** A record that can be written *)
Definition writable (r : record) : Prop :=
  match json r with inr line => Z.of_nat (length line) <= maxOutputRecordBytes | inl _ => False end.

(** The steps of the queue once the capture has ended: its writer, and Close *)
Definition finishing (l : Output.label (V := record)) : Prop :=
  match l with Output.StepEncode _ => False | _ => True end.

Arguments ow_queue {W WW} OutputWorld w : rename.

(** ** Lemmas *)

(** A failure is signalled after the error is stored. *)
Definition signal_ok (q : queuedOutput) : Prop := qo_failed q = true \/ qo_writer q = w_signal -> qo_err q <> None.

(** The records that were accepted or lost are the lines of the log. *)
Record corresponds_out (q : queuedOutput) (log : list record) : Prop := {
  cq_inv : Z.of_nat (length log) < 2 ^ 64 -> Output.inv q;
  cq_open : qo_closed q = false /\ qo_discard q = false;
  cq_signal : signal_ok q;
  cq_accepted : sublist (qo_accepted q) (lines log);
  cq_offered : qo_accepted q ++ qo_lost q ≡ₚ lines log;
  cq_writable : Forall writable log
}.

Lemma lines_length log : (length (lines log) <= length log)%nat.
Proof.
  induction log as [|r log IH]; [done|]. unfold lines in *. cbn [omap list_omap]. destruct (line_of r); cbn [length]; lia.
Qed.

Lemma lost_length q log : corresponds_out q log -> (length (qo_lost q) <= length log)%nat.
Proof.
  intros H. pose proof (Permutation_length (cq_offered _ _ H)) as Hl. rewrite length_app in Hl. pose proof (lines_length log). lia.
Qed.

(** The writer takes nothing in. *)
Lemma writer_step_frame now n err q q' :
  writer_step loss_json now n err q = Some q' ->
  qo_accepted q' = qo_accepted q /\ qo_lost q' = qo_lost q /\ qo_closed q' = qo_closed q /\ qo_discard q' = qo_discard q.
Proof. unfold writer_step. intros H. repeat case_match; simplify_eq/=; done. Qed.

Lemma writer_step_signal now n err q q' : signal_ok q -> writer_step loss_json now n err q = Some q' -> signal_ok q'.
Proof. unfold signal_ok, writer_step, after_loss. intros H Hs. repeat case_match; simplify_eq/=; naive_solver. Qed.

Lemma corresponds_writer q q' log : writer_acts q q' -> corresponds_out q log -> corresponds_out q' log.
Proof.
  induction 1 as [|q q1 q' (now & n & err & Hs) _ IH]; [done|]. intros H. apply IH. pose proof (lost_length _ _ H) as Hl.
  destruct H as [H1 H2 Hsig H3 H4 H5]. destruct (writer_step_frame _ _ _ _ _ Hs) as (F1 & F2 & F3 & F4).
  split; rewrite ?F1, ?F2, ?F3, ?F4; try done.
  - intros Hb. eapply output_writer_inv; [by apply H1|lia|exact Hs].
  - by eapply writer_step_signal.
Qed.

Lemma corresponds_Encode q q' log r :
  corresponds_out q log -> Output.Encode json r q = Some (q', None) -> corresponds_out q' (log ++ [r]).
Proof.
  intros H HE. pose proof (lost_length _ _ H) as Hl. destruct H as [H1 [H2 H2'] Hsig H3 H4 H5].
  assert (HI : Z.of_nat (length (log ++ [r])) < 2 ^ 64 -> Output.inv q').
  { rewrite length_app. cbn. intros Hb. eapply (Encode_inv json r q q' None); [apply H1; lia|exact HE|lia]. }
  unfold Output.Encode in HE. rewrite H2' in HE. destruct (qo_failed q) eqn:Ef.
  { injection HE as <- Herr. by destruct Hsig; [left|]. }
  destruct (json r) as [code|line] eqn:Ej; [done|]. destruct (_ <? _) eqn:El; [done|]. rewrite H2 in HE.
  assert (Hlines : lines (log ++ [r]) = lines log ++ [line]).
  { unfold lines. rewrite omap_app. cbn. unfold line_of at 2. by rewrite Ej. }
  assert (Hw : Forall writable (log ++ [r])).
  { apply Forall_app. split; [done|]. constructor; [|done]. unfold writable. rewrite Ej. lia. }
  destruct (_ <? qo_capacity q); injection HE as <-; split; try done; rewrite Hlines; cbn.
  - by apply sublist_app.
  - rewrite <- H4, <- !app_assoc. apply Permutation_app_head, Permutation_app_comm.
  - by apply sublist_inserts_r.
  - by rewrite <- H4, app_assoc.
Qed.

(** *** The event loop *)

Section loop.
Context {W : Type} {WW : World W} {OW : OutputWorld W}.
Context {D : Type} {HD : Hpack D}.
Context {R1 : MapRange connectionKey pendingRequest} {R2 : MapRange http2StreamKey pendingRequest}.
Context {RW : MapRange aggregateKey Window}.
Context (opts : options).

#[local] Abbreviation state := (app W D).
#[local] Abbreviation Act := (App.M (W := W) (D := D)).

(** The log was given to the queue. *)
Definition written (st : state) : Prop := corresponds_out (ow_queue OW (ap_world st)) (ap_log st).

#[local] Abbreviation quiet := (safe written (fun _ => True)).
#[local] Abbreviation clean := (safe written (fun e : list AppError => e = [])).

Lemma written_same (st st' : state) : ap_world st' = ap_world st -> ap_log st' = ap_log st -> written st -> written st'.
Proof. unfold written. by intros -> ->. Qed.

Lemma carrier_react {A} (f : W -> W * A) :
  (forall w, writer_acts (ow_queue OW w) (ow_queue OW (f w).1)) -> quiet (react f).
Proof.
  intros Hf st H _. unfold react. specialize (Hf (ap_world st)). destruct (f (ap_world st)) as [w a].
  eapply corresponds_writer; [exact Hf|exact H].
Qed.

Lemma quiet_set_output o : quiet (set_output o).
Proof. intros st H _. by eapply written_same; [..|exact H]. Qed.

Lemma quiet_set_failure e : quiet (set_failure e).
Proof. apply safe_then; [apply safe_get|]. intros o. apply quiet_set_output. Qed.

Lemma clean_write r : clean (App.write r).
Proof.
  intros st H. unfold App.write, bind, react. cbn. pose proof (ow_Encode r (ap_world st) (proj1 (cq_open _ _ H))) as HE.
  destruct (world_Encode r (ap_world st)) as [w e]. cbn in *. destruct HE as (q1 & q2 & err & H1 & H2 & H3 & H4).
  destruct e as [n|]; [done|]. intros _. rewrite (proj1 H4 eq_refl) in H2.
  eapply corresponds_writer; [exact H3|]. eapply corresponds_Encode; [|exact H2]. by eapply corresponds_writer.
Qed.

Lemma clean_exportTyped r : clean (exportTyped opts r).
Proof.
  unfold exportTyped. apply safe_then; [apply safe_get|]. intros o. destruct (negb _); [apply safe_ret|].
  destruct (negb _); [apply safe_ret|]. apply safe_then; [apply carrier_react, ow_ExportTyped|]. intros [n|]; [|apply safe_ret].
  apply safe_then; [apply quiet_set_failure|]. intros _. apply safe_ret.
Qed.

Lemma clean_windows windows e : clean (encodeWindows opts windows e).
Proof.
  revert e. induction windows as [|w windows IH]; intros e; cbn [encodeWindows]; [apply safe_ret|].
  eapply safe_bind; [apply clean_write| |].
  - intros e1. destruct (negb _); [apply safe_ret|]. apply safe_then; [apply safe_get|]. intros o.
    destruct (_ && _); [|apply IH]. apply safe_then; [apply carrier_react, ow_Export|]. intros [n|]; [|apply IH].
    apply safe_then; [apply quiet_set_failure|]. intros _. apply IH.
  - intros e1 st. destruct e1; [done|]. cbn. by intros [_ ?]%app_eq_nil.
Qed.

Lemma clean_report : clean (reportExportLoss opts).
Proof.
  unfold reportExportLoss, now. destruct (negb _); [apply safe_ret|]. apply safe_then; [apply carrier_react, ow_Dropped|].
  intros total. apply safe_then; [apply safe_get|]. intros o. destruct (_ =? _); [apply safe_ret|].
  apply safe_then; [apply carrier_react, ow_now|]. intros t. apply safe_then; [apply quiet_set_output|]. intros _. apply clean_write.
Qed.

#[local] Instance written_kept : Kept opts written.
Proof.
  split; intros; try (intros st H _; by eapply written_same; [..|exact H]).
  - apply carrier_react, ow_now.
  - apply carrier_react, ow_elapsed.
  - apply carrier_react, ow_Resolve.
  - apply carrier_react, ow_ResolveAfter.
  - apply carrier_react, ow_Lookup.
  - apply carrier_react, ow_Enrich.
  - apply clean_write.
  - apply clean_try; [apply clean_write|apply clean_exportTyped].
  - apply clean_windows.
  - apply clean_report.
Qed.

Lemma RunEvents_written choices last : clean (RunEvents opts choices last).
Proof. apply RunEvents_ends; [apply _|]. apply clean_report. Qed.

(** A new queue, before the capture *)
Lemma start_written capacity drainTimeout w stream :
  newQueuedOutput false capacity drainTimeout = Some (ow_queue OW w) -> written (start w stream).
Proof.
  intros Hnew. pose proof (output_new_inv _ _ _ Hnew) as I. unfold newQueuedOutput in Hnew.
  destruct (_ || _); [done|]. injection Hnew as Hq. unfold written. cbn. rewrite <- Hq in *.
  split; try done. by intros [?|?].
Qed.

End loop.

Lemma finishing_frame ls q q' :
  Forall finishing ls -> Output.steps json loss_json q ls = Some q' ->
  qo_accepted q' = qo_accepted q /\ qo_lost q' = qo_lost q.
Proof.
  intros H. revert q. induction H as [|l ls Hl _ IH]; intros q; cbn [Output.steps]; [by intros [= ->]|].
  destruct (Output.step _ _ q l) as [q1|] eqn:E; [|done]. cbn. intros [-> ->]%IH.
  destruct l as [|now n err|timer]; [done| |]; cbn in E.
  - by destruct (writer_step_frame _ _ _ _ _ E) as (-> & -> & _).
  - unfold Output.close_step in E. repeat case_match; by simplify_eq/=.
Qed.

Lemma finishing_inv ls q q' :
  Forall finishing ls -> Z.of_nat (length (qo_lost q)) < 2 ^ 64 -> Output.inv q ->
  Output.steps json loss_json q ls = Some q' -> Output.inv q'.
Proof.
  intros H. revert q. induction H as [|l ls Hl _ IH]; intros q Hb I; cbn [Output.steps]; [by intros [= <-]|].
  destruct (Output.step _ _ q l) as [q1|] eqn:E; [|done]. cbn.
  destruct (finishing_frame [l] q q1) as [_ Hlost]; [by repeat constructor|cbn; by rewrite E|].
  apply IH; [by rewrite Hlost|]. destruct l as [|now n err|timer]; [done| |]; cbn in E.
  - by eapply output_writer_inv.
  - by eapply output_close_inv.
Qed.
End interface.

Arguments ow_queue {json loss_json W WW} OutputWorld w : rename.

(** ** Theorems *)

(** C3. What a capture outputs is what gets written. When a run of the event
    loop returns no error, every record it gave to the output has a line of at
    most 64 KiB; the lines the queue took are those of the records in their
    order, but for the ones that found the queue full, which are counted;
    while the writer goroutine, which may act at any time, and Close go on,
    the lines taken are those written, in order and each once, the one being
    written and those queued; and when Close returns nil all of them were
    written, no write failed, and the losses the output reports add up to the
    lines that are missing: when none is reported the output is the log, line
    by line. *)
Theorem capture_written json loss_json {W} {WW : World W} {OW : OutputWorld json loss_json W} {D} {HD : Hpack D}
    {R1 : MapRange connectionKey pendingRequest} {R2 : MapRange http2StreamKey pendingRequest}
    {RW : MapRange aggregateKey Window} opts capacity drainTimeout (w : W) stream choices last :
  newQueuedOutput false capacity drainTimeout = Some (ow_queue OW w) ->
  let '(st, err) := RunEvents (D := D) opts choices last (start w stream) in
  err = [] -> Z.of_nat (length (ap_log st)) < 2 ^ 64 ->
  let q := ow_queue OW (ap_world st) in
  Forall (writable json) (ap_log st) /\
  sublist (qo_accepted q) (lines json (ap_log st)) /\ qo_accepted q ++ qo_lost q ≡ₚ lines json (ap_log st) /\
  Z.of_nat (length (qo_queue q)) <= qo_capacity q /\
  forall ls q', Forall finishing ls -> Output.steps json loss_json q ls = Some q' ->
    qo_accepted q = records (qo_writes q') ++ Output.in_hand q' ++ qo_queue q' /\
    qo_totalLost q' = Z.of_nat (length (qo_lost q)) /\
    (qo_close q' = closed None ->
       records (qo_writes q') = qo_accepted q /\ Forall (fun w => w.2 = None) (qo_writes q') /\
       Output.reported (qo_writes q') = Z.of_nat (length (qo_lost q)) /\
       (Output.reported (qo_writes q') = 0 -> records (qo_writes q') = lines json (ap_log st))).
Proof.
  intros Hnew. pose proof (RunEvents_written json loss_json (D := D) opts choices last _
    (start_written json loss_json capacity drainTimeout w stream Hnew)) as H.
  destruct (RunEvents _ _ _ _) as [st err]. cbn [fst snd] in H. intros -> Hb. specialize (H eq_refl).
  pose proof (lost_length _ _ _ H) as Hl. destruct H as [HI _ _ Hsub Hperm Hw]. specialize (HI Hb). cbn zeta.
  split_and!; [done|done|done|apply (Output.iv_capacity _ HI)|]. intros ls q' Hls Hs.
  destruct (finishing_frame _ _ _ _ _ Hls Hs) as [Ea El].
  assert (Hb' : Z.of_nat (length (qo_lost (ow_queue OW (ap_world st)))) < 2 ^ 64) by lia.
  pose proof (finishing_inv _ _ _ _ _ Hls Hb' HI Hs) as I'.
  split_and!; [by rewrite <- Ea, (Output.iv_order _ I')|by rewrite <- El, (Output.iv_lost _ I')|]. intros Hc.
  destruct (close_accounts _ I' Hc) as (H1 & H2 & H3). rewrite Ea in H1. rewrite El in H3. split_and!; [done..|].
  intros H0. rewrite H1. apply sublist_full; [done|]. apply Permutation_length in Hperm. rewrite length_app in Hperm. lia.
Qed.

(** *** Worlds with a queue *)

(** A world with an output queue, and for each record the answers to the turn
    the writer takes before it is encoded *)
Record queued (W : Type) := mkQueued {
  qd_world : W;
  qd_queue : queuedOutput;
  qd_turns : list (list (Time * Z * option Z))
}.

Arguments mkQueued {W}.
Arguments qd_world {W}.
Arguments qd_queue {W}.
Arguments qd_turns {W}.

Section queued.
Context {W : Type} {WW : World W}.
Context (json : record -> Z + list byte).
Context (loss_json : Time -> Z -> Z -> option (list byte)).

(** The writer goroutine, until it waits *)
Fixpoint writer_turn (answers : list (Time * Z * option Z)) (q : queuedOutput) : queuedOutput :=
  match answers with
  | [] => q
  | (now, n, err) :: answers' =>
      match writer_step loss_json now n err q with Some q' => writer_turn answers' q' | None => q end
  end.

Lemma writer_turn_acts answers q : writer_acts loss_json q (writer_turn answers q).
Proof.
  revert q. induction answers as [|[[now n] err] answers IH]; intros q; cbn [writer_turn]; [constructor|].
  destruct (writer_step _ _ _ _ q) as [q'|] eqn:E; [|constructor]. eapply rtc_l; [|apply IH]. by exists now, n, err.
Qed.

Definition beside {A} (f : W -> W * A) (c : queued W) : queued W * A :=
  let '(w, a) := f (qd_world c) in (mkQueued w (qd_queue c) (qd_turns c), a).

(** Encode, after a turn of the writer; an error is a code, and so is the
    panic on a closed queue. *)
Definition encode_queued (r : record) (c : queued W) : queued W * option Z :=
  let q := writer_turn (default [] (head (qd_turns c))) (qd_queue c) in
  match Output.Encode json r q with
  | None => (mkQueued (qd_world c) q (tail (qd_turns c)), Some 0)
  | Some (q, err) => (mkQueued (qd_world c) q (tail (qd_turns c)), match err with Some _ => Some 1 | None => None end)
  end.

Definition queued_world : World (queued W) := {|
  world_now := beside world_now;
  world_elapsed := beside world_elapsed;
  world_Resolve p s d := beside (world_Resolve p s d);
  world_ResolveAfter p s d t := beside (world_ResolveAfter p s d t);
  world_Lookup pid := beside (world_Lookup pid);
  world_Enrich o := beside (world_Enrich o);
  world_Encode := encode_queued;
  world_Export w := beside (world_Export w);
  world_ExportTyped r := beside (world_ExportTyped r);
  world_Dropped := beside world_Dropped
|}.

Lemma beside_queue {A} (f : W -> W * A) c : writer_acts loss_json (qd_queue c) (qd_queue (beside f c).1).
Proof. unfold beside. destruct (f (qd_world c)) as [w a]. constructor. Qed.

Lemma writer_acts_closed q q' : writer_acts loss_json q q' -> qo_closed q' = qo_closed q.
Proof.
  induction 1 as [|q q1 q' (now & n & err & Hs) _ IH]; [done|]. rewrite IH. by apply writer_step_frame in Hs as (_ & _ & ? & _).
Qed.

(** Encode panics on a closed queue only. *)
Lemma Encode_open r q : qo_closed q = false -> is_Some (Output.Encode json r q).
Proof. intros Hc. unfold Output.Encode. rewrite Hc. repeat case_match; by eexists. Qed.

Definition queued_output : OutputWorld json loss_json (queued W) (WW := queued_world).
Proof.
  refine (@Build_OutputWorld json loss_json (queued W) queued_world qd_queue _ _ _ _ _ _ _ _ _ _); intros; try apply beside_queue.
  cbn. unfold encode_queued. set (q := writer_turn _ _). pose proof (writer_turn_acts (default [] (head (qd_turns w))) (qd_queue w)) as Ha.
  fold q in Ha. pose proof (writer_acts_closed _ _ Ha) as Hc. destruct (Encode_open r q) as [[q2 err] E]; [congruence|].
  rewrite E. exists q, q2, err. split_and!; [exact Ha|exact E|constructor|]. by destruct err.
Defined.

(** A world with an exporter has the queue of the world below. *)
Definition carrier_output {M} {MV : MapValue M} Sum256 coverage_json digest {OW : OutputWorld json loss_json W} :
  OutputWorld json loss_json (carrier W M) (WW := carrier_world Sum256 coverage_json digest).
Proof.
  assert (Hlift : forall A (f : W -> W * A) (c : carrier W M),
    (forall w, writer_acts loss_json (ow_queue OW w) (ow_queue OW (f w).1)) ->
    writer_acts loss_json (ow_queue OW (ca_world c)) (ow_queue OW (ca_world (lift f c).1))).
  { intros A f c Hf. unfold lift. specialize (Hf (ca_world c)). by destruct (f (ca_world c)). }
  assert (Hturn : forall c : carrier W M, ca_world (take_turn c) = ca_world c).
  { intros c. unfold take_turn. by destruct (ca_turns c). }
  assert (Hcall : forall f (c : carrier W M), ca_world (call f c).1 = ca_world c).
  { intros f c. unfold call. destruct (f _) as [e err]. apply Hturn. }
  refine (@Build_OutputWorld json loss_json (carrier W M) (carrier_world Sum256 coverage_json digest)
    (fun c => ow_queue OW (ca_world c)) _ _ _ _ _ _ _ _ _ _); intros; try (apply Hlift; intros w'; apply OW).
  - cbn. rewrite Hcall. constructor.
  - cbn. destruct (typed_event r); [rewrite Hcall|]; constructor.
  - cbn. rewrite Hturn. constructor.
  - cbn. unfold lift. pose proof (ow_Encode json loss_json r (ca_world w) H) as HE. by destruct (world_Encode r (ca_world w)).
Defined.
End queued.

(** *** Witness: the capture of [AppDelivery] over a queue of one record: the
    observation finds it full, which is reported before the window. *)

#[local] Instance output_hpack : Hpack unit := Http2.example_hpack.
#[local] Instance output_range1 : MapRange connectionKey pendingRequest := canonical_range _ _.
#[local] Instance output_range2 : MapRange http2StreamKey pendingRequest := canonical_range _ _.
#[local] Instance output_range3 : MapRange aggregateKey Window := canonical_range _ _.

Definition output_json (r : record) : Z + list byte :=
  inr (lit match r with RecDrop _ => "drop" | RecWindow _ => "window" | _ => "other" end).

Definition output_loss (_ : Time) (_ _ : Z) : option (list byte) := Some (lit "loss").

Definition output_turns : list (list (Time * Z * option Z)) := [[]; []; [(0, 0, None); (0, 4, None); (0, 0, None); (0, 4, None)]].

Definition output_finish : list (Output.label (V := record)) :=
  Output.StepClose false ::
  ((fun n => Output.StepWriter 0 n None) <$> [0; 6; 0; 0; 0]) ++ [Output.StepClose false].

Definition output_queue : queuedOutput := mkQueuedOutput false 1 Second [] false None false 0 0 w_idle not_closed [] [] [].

#[local] Abbreviation below := (@queued_world _ delivery_clock output_json output_loss).
#[local] Abbreviation stacked := (@carrier_world _ below _ _ example_sum example_json example_digest).
#[local] Abbreviation stacked_output :=
  (@carrier_output _ below output_json output_loss _ _ example_sum example_json example_digest
    (@queued_output _ delivery_clock output_json output_loss)).

Definition output_start : carrier (queued Time) (gmap string field_value) :=
  mkCarrier (mkQueued (W := Time) (unix_epoch + Minute) output_queue output_turns) example_exporter delivery_turns.

Abbreviation output_run := (RunEvents (WW := stacked) delivery_options delivery_choices [] (start output_start (Some delivery_stream))).

Abbreviation output_closed :=
  (Output.steps output_json output_loss (qd_queue (ca_world (ap_world output_run.1))) output_finish).

Lemma capture_written_witness :
  exists q', output_closed = Some q' /\ lines output_json (ap_log output_run.1) = [lit "drop"; lit "other"; lit "window"] /\
    records (qo_writes q') = [lit "drop"; lit "window"] /\
    Output.reported (qo_writes q') = Z.of_nat (length (qo_lost (qd_queue (ca_world (ap_world output_run.1))))).
Proof.
  assert (S1 : output_run.2 = []) by (vm_compute; reflexivity).
  assert (S2 : lines output_json (ap_log output_run.1) = [lit "drop"; lit "other"; lit "window"]) by (vm_compute; reflexivity).
  assert (S3 : length (ap_log output_run.1) = 3%nat) by (vm_compute; reflexivity).
  assert (S4 : qo_accepted (qd_queue (ca_world (ap_world output_run.1))) = [lit "drop"; lit "window"]) by (vm_compute; reflexivity).
  assert (S5 : match output_closed with
    | Some q' => match qo_close q' with closed None => true | _ => false end
    | None => false
    end = true) by (vm_compute; reflexivity).
  destruct output_closed as [q'|] eqn:E; [|discriminate S5].
  assert (C : qo_close q' = closed None) by (destruct (qo_close q') as [| |[|]]; (discriminate S5 || reflexivity)).
  pose proof (capture_written output_json output_loss (OW := stacked_output) delivery_options 1 Second output_start
    (Some delivery_stream) delivery_choices [] eq_refl) as H.
  destruct output_run as [st err]. cbn [fst snd] in S1, S2, S3, S4, H |- *.
  destruct (H S1 ltac:(rewrite S3; reflexivity)) as (_ & _ & _ & _ & Hd).
  destruct (Hd output_finish q' ltac:(by repeat constructor) E) as (_ & _ & Hc). destruct (Hc C) as (H1 & _ & H3 & _).
  exists q'. split; [reflexivity|]. split; [exact S2|]. split; [|exact H3]. etransitivity; [exact H1|exact S4].
Defined.
