(* ===== verification/Exportable.v ===== *)
(** * What the correlators emit is what the exporter accepts

    A pack that PackForDNS, PackForL7 or PackForL7Drop rejects ends the
    capture: the event loop returns the exporter's error. Here the correlators
    and the packs are composed, from the fragments the event loop hands over
    to the packs of everything that comes out. *)

From stdpp Require Import pretty.
From S2P Require Import Prelude Text Flow NetAddr L7Types Http1 Http2 L7 DnsParse Dns DnsSpec Bridge Pack.

#[local] Open Scope Z_scope.

(** ** Definitions *)

(** The parts of validEventEnvelope *)
Definition observed_ok (observed : Time) : Prop :=
  0 <= time_Unix observed <= (MaxInt64 - time_Nanosecond observed / Millisecond) / 1000 /\ 0 < time_UnixMilli observed.

Definition node_ok (node : string) : Prop := eventASCII (bytes_of_string node) 253 = true.

Definition process_ok (pid : Z) (process : option Process) : Prop :=
  match process with
  | None => True
  | Some p => (pid = 0 \/ pr_PID p = 0 \/ pid = pr_PID p) /\
              (pr_ContainerID p = "" \/ eventASCII (bytes_of_string (pr_ContainerID p)) 128 = true)
  end.

(** A DNS fragment as the event loop enriches it: a plausible time, the
    agent's node name, the process of its own event, parseable endpoints and a
    64-bit kernel clock *)
Record dns_fragment_ok (f : Dns.Fragment) : Prop := {
  df_observed : observed_ok (Dns.fr_ObservedAt f);
  df_node : node_ok (Dns.fr_NodeName f);
  df_process : process_ok (Dns.fr_ObserverPID f) (Dns.fr_Process f);
  df_source : validDNSObservedEndpoint (Dns.fr_Source f) = true;
  df_destination : validDNSObservedEndpoint (Dns.fr_Destination f) = true;
  df_source_resolved : validEventResolved (Dns.fr_SourceResolved f) = true;
  df_destination_resolved : validEventResolved (Dns.fr_DestinationResolved f) = true
}.

Definition message_ok (m : Message) : Prop :=
  ValidQuestionName (bytes_of_string (msg_QuestionName m)) = true /\ 0 <= msg_QuestionType m < 65536 /\
  0 <= msg_ResponseCode m < 16.

(** ** Lemmas *)

Lemma envelope_iff observed node pid process pcode oid :
  validEventEnvelope observed node pid process pcode oid = true <->
  (0 < pcode /\ oid <> 0) /\ observed_ok observed /\ node_ok node /\ process_ok pid process.
Proof.
  unfold validEventEnvelope, observed_ok, node_ok.
  destruct (_ || negb (eventASCII _ 253)) eqn:E.
  - split; [done|]. intros ((H1 & H2) & ((H3 & H4) & H5) & H6 & _). rewrite H6 in E. exfalso.
    rewrite !orb_true_iff in E. destruct E as [[[[[E|E]|E]|E]|E]|E]; bool_to_Z; (lia || done).
  - rewrite !orb_false_iff in E. destruct E as [[[[[E1 E2] E3] E4] E5] E6]. bool_to_Z.
    assert (Hn : eventASCII (bytes_of_string node) 253 = true) by (by destruct (eventASCII _ 253)).
    assert (HP : (match process with
      | None => true
      | Some process =>
          if negb (pid =? 0) && negb (pr_PID process =? 0) && negb (pid =? pr_PID process) then false
          else if negb (bool_decide (pr_ContainerID process = "")) &&
                  negb (eventASCII (bytes_of_string (pr_ContainerID process)) 128) then false else true
      end = true) <-> process_ok pid process).
    { destruct process as [p|]; [|done]. unfold process_ok. generalize (eventASCII (bytes_of_string (pr_ContainerID p)) 128).
      intros c. destruct (Z.eqb_spec pid 0), (Z.eqb_spec (pr_PID p) 0), (Z.eqb_spec pid (pr_PID p)),
        (decide (pr_ContainerID p = "")) as [Ec|Ec]; rewrite ?(bool_decide_true _ Ec), ?(bool_decide_false _ Ec), ?bool_decide_false by done;
        destruct c; cbn [negb andb]; split; intuition congruence. }
    rewrite HP. split; [intros H; split_and!; (done || lia)|tauto].
Qed.

Lemma without_cmdline_ok pid process : process_ok pid (without_cmdline <$> process) <-> process_ok pid process.
Proof. by destruct process. Qed.

Lemma snapshot_ok f : dns_fragment_ok f -> dns_fragment_ok (snapshotFragment f).
Proof.
  intros [H1 H2 H3 H4 H5 H6 H7].
  split; [exact H1|exact H2|apply without_cmdline_ok, H3|exact H4|exact H5|exact H6|exact H7].
Qed.

Lemma is_graphic_visible l : forallb is_graphic l = forallb visible l.
Proof.
  induction l as [|b l IH]; cbn; [done|]. rewrite IH. f_equal. unfold is_graphic, visible.
  destruct (Z.leb_spec 33 (byte_val b)), (Z.ltb_spec (byte_val b) 33), (Z.leb_spec (byte_val b) 126),
    (Z.ltb_spec 126 (byte_val b)); try done; lia.
Qed.

(** The names of codes and of types are short ASCII *)
Lemma code_text n : 0 <= n < 16 -> eventASCII (bytes_of_string (ResponseCodeString n)) 16 = true.
Proof.
  intros Hn. assert (HF : Forall (fun n => eventASCII (bytes_of_string (ResponseCodeString n)) 16 = true) (seqZ 0 16))
    by (apply (bool_decide_unpack _); vm_compute; reflexivity).
  rewrite Forall_forall in HF. apply HF, elem_of_seqZ. lia.
Qed.

Lemma pretty_N_go_length n s k :
  (n < 10 ^ N.of_nat k)%N -> (String.length (pretty_N_go n s) <= k + String.length s)%nat.
Proof.
  revert n s. induction k as [|k IH]; intros n s Hn.
  - assert (n = 0)%N as -> by (cbn in Hn; lia). by rewrite pretty_N_go_0.
  - destruct (decide (n = 0)%N) as [->|Hne]; [rewrite pretty_N_go_0; lia|].
    rewrite pretty_N_go_step by lia.
    assert (n / 10 < 10 ^ N.of_nat k)%N.
    { apply N.Div0.div_lt_upper_bound. rewrite Nat2N.inj_succ, N.pow_succ_r' in Hn. exact Hn. }
    specialize (IH (n / 10)%N (String (pretty_N_char (n mod 10)) s) ltac:(assumption)). cbn [String.length] in IH. lia.
Qed.

Lemma length_bytes_of_string s : length (bytes_of_string s) = String.length s.
Proof. induction s as [|a s IH]; cbn; [done|]. f_equal. exact IH. Qed.

Lemma decimal_ascii n : 0 <= n < 65536 ->
  forallb is_graphic (bytes_of_string (decimal n)) = true /\ (length (bytes_of_string (decimal n)) <= 5)%nat.
Proof.
  intros Hn. unfold decimal, pretty, pretty_N. case_decide as Hz; [split; [done|cbn; lia]|]. split.
  - apply forallb_forall. intros b Hb. pose proof (pretty_N_go_digits (Z.to_N n) "" ltac:(constructor)) as HF.
    rewrite Forall_forall in HF. apply list_elem_of_In, HF in Hb. apply andb_true_iff in Hb as [H1%Z.leb_le H2%Z.leb_le].
    apply andb_true_iff. split; apply Z.leb_le; lia.
  - pose proof (pretty_N_go_length (Z.to_N n) "" 5) as H. cbn [String.length] in H.
    rewrite length_bytes_of_string. etransitivity; [apply H|lia].
    change (10 ^ N.of_nat 5)%N with 100000%N. lia.
Qed.

Lemma type_text n : 0 <= n < 65536 -> eventASCII (bytes_of_string (QueryTypeString n)) 32 = true.
Proof.
  intros Hn. destruct (decimal_ascii n Hn) as [Hg Hl].
  assert (H : eventASCII (bytes_of_string ("TYPE" +:+ decimal n)) 32 = true).
  { rewrite NetAddr.bytes_of_string_app. unfold eventASCII. rewrite length_app.
    change (length (bytes_of_string "TYPE")) with 4%nat.
    destruct (Nat.eqb_spec (4 + length (bytes_of_string (decimal n))) 0); [lia|].
    destruct (Nat.ltb_spec 32 (4 + length (bytes_of_string (decimal n)))); [lia|].
    rewrite forallb_app, Hg. reflexivity. }
  unfold QueryTypeString. repeat case_match; try exact H; reflexivity.
Qed.

Lemma dotted_visible labels : Forall label_ok labels -> forallb visible (dotted labels) = true.
Proof.
  induction 1 as [|l labels [_ Hv] Hl IH]; [done|]. destruct labels as [|l' labels]; [exact Hv|].
  change (dotted (l :: l' :: labels)) with (l ++ dot :: dotted (l' :: labels)).
  rewrite forallb_app, Hv. cbn [forallb andb]. exact IH.
Qed.

Lemma Parse_message_ok payload m : Parse payload = Ok m -> message_ok m.
Proof.
  intros (_ & _ & _ & Hc & H)%Parse_Ok. unfold message_ok. rewrite Hc.
  assert (0 <= be_uint (slice payload 2 4) mod 16 < 16) as Hr by (apply Z.mod_pos_bound; lia).
  destruct (_ =? 0).
  - destruct H as [-> ->]. split_and!; (done || lia).
  - destruct H as (name & -> & labels & tail & _ & Hl & -> & H253 & H4 & ->).
    unfold bytes_of_string, string_of_bytes. rewrite String.list_byte_of_string_of_list_byte. split; [|split; [|done]].
    + unfold ValidQuestionName. destruct (Nat.ltb_spec 253 (length (dotted labels))); [lia|].
      rewrite dotted_visible; done.
    + apply be_uint_u16. rewrite length_take. lia.
Qed.

(** *** DNS *)

(** What a transaction says about its outcome *)
Definition outcome_ok (t : Dns.Transaction) : Prop :=
  (tx_Outcome t = OutcomeResponse /\ tx_Reason t = "" /\ (tx_LatencyMeasured t = false -> tx_LatencyMicros t = 0)) \/
  (tx_Outcome t ∈ [OutcomeNoResponse; OutcomeParseError; OutcomeIncomplete] /\ tx_ResponseCode t = "" /\
   tx_LatencyMeasured t = false /\ tx_LatencyMicros t = 0 /\
   (tx_Reason t = "" \/
    tx_Outcome t = OutcomeIncomplete /\ tx_Reason t ∈ [ReasonCaptureEnded; ReasonStateCapacity])).

Record transaction_ok (t : Dns.Transaction) : Prop := {
  tk_schema : tx_SchemaVersion t = SchemaVersion;
  tk_protocol : tx_Protocol t = "udp";
  tk_observed : observed_ok (tx_ObservedAt t);
  tk_node : node_ok (tx_NodeName t);
  tk_process : process_ok (tx_ObserverPID t) (tx_Process t);
  tk_client : validDNSObservedEndpoint (tx_Client t) = true;
  tk_server : validDNSObservedEndpoint (tx_Server t) = true;
  tk_client_resolved : validEventResolved (tx_ClientResolved t) = true;
  tk_server_resolved : validEventResolved (tx_ServerResolved t) = true;
  tk_name : ValidQuestionName (bytes_of_string (tx_QueryName t)) = true;
  tk_type : tx_QueryType t = "" \/ eventASCII (bytes_of_string (tx_QueryType t)) 32 = true;
  tk_code : tx_ResponseCode t = "" \/ eventASCII (bytes_of_string (tx_ResponseCode t)) 16 = true;
  tk_latency : tx_LatencyMicros t <= MaxInt64;
  tk_outcome : outcome_ok t
}.

Lemma optional_text (s : string) (b : bool) :
  s = "" \/ b = true -> negb (bool_decide (s = "")) && negb b = false.
Proof. intros [->| ->]; [done|by rewrite andb_false_r]. Qed.

Lemma transaction_packs {M} {MV : MapValue M} Sum256 pcode oid t :
  0 < pcode -> oid <> 0 -> transaction_ok t -> exists p : TagCountPack M, PackForDNS Sum256 t pcode oid = Ok p.
Proof.
  intros Hpcode Hoid [H1 H2 H3 H4 H5 H6 H7 H8 H9 H10 H11 H12 H13 H14]. unfold PackForDNS.
  rewrite (proj2 (envelope_iff _ _ _ _ _ _) (conj (conj Hpcode Hoid) (conj H3 (conj H4 H5)))).
  rewrite (bool_decide_eq_true_2 _ H1), (bool_decide_eq_true_2 _ H2), H6, H7, H8, H9, H10, (optional_text _ _ H11),
    (optional_text _ _ H12).
  destruct (Z.ltb_spec MaxInt64 (tx_LatencyMicros t)); [lia|]. cbn [negb orb].
  destruct H14 as [(O1 & O2 & O3)|(O1 & O2 & O3 & O4 & O5)].
  - rewrite O1, O2. change (dns_outcome_known OutcomeResponse) with true. cbn [negb].
    assert (E : negb (tx_LatencyMeasured t) && negb (tx_LatencyMicros t =? 0) = false).
    { destruct (tx_LatencyMeasured t); [done|]. by rewrite O3. }
    rewrite E. cbn [negb andb bool_decide]. by eexists.
  - assert (E : dns_outcome_known (tx_Outcome t) = true).
    { unfold dns_outcome_known. apply bool_decide_eq_true_2. by apply list_elem_of_further. }
    rewrite E, O2, O3, O4. change (bool_decide ("" = "")) with true. cbn [negb andb orb Z.eqb]. rewrite andb_false_r.
    destruct O5 as [O5|[O5 O6]].
    + rewrite O5. by eexists.
    + rewrite O5. change (bool_decide (OutcomeIncomplete = OutcomeIncomplete)) with true. cbn [negb orb].
      rewrite !elem_of_cons in O6. destruct O6 as [->|[->|O6]]; [..|by apply not_elem_of_nil in O6]; by eexists.
Qed.

(** A pending query the correlator holds *)
Definition query_ok (k : pendingKey) (q : pendingQuery) : Prop :=
  k = queryKey (pq_fragment q) (pq_message q) /\ dns_fragment_ok (pq_fragment q) /\ message_ok (pq_message q).

Definition queries_ok (s : Spec) : Prop := map_Forall query_ok (sp_queries s).

Lemma noResponse_ok q :
  dns_fragment_ok (pq_fragment q) -> message_ok (pq_message q) ->
  transaction_ok (noResponse q) /\
  (forall reason, reason ∈ [ReasonCaptureEnded; ReasonStateCapacity] -> transaction_ok (set_incomplete reason (noResponse q))).
Proof.
  intros [F1 F2 F3 F4 F5 F6 F7] (M1 & M2 & M3). split; [|intros reason Hr]; split; cbn; try assumption; try reflexivity;
    try (by left); try (right; by apply type_text); try (unfold MaxInt64; lia).
  - right. split_and!; try reflexivity; [set_solver|by left].
  - right. split_and!; try reflexivity; [set_solver|by right].
Qed.

Lemma parseFailed_ok payload f : dns_fragment_ok f -> transaction_ok (parseFailed payload f).
Proof.
  intros [F1 F2 F3 F4 F5 F6 F7]. unfold parseFailed.
  destruct (length payload <? 12)%nat; [|destruct (negb _)];
    (split; cbn; try assumption; try reflexivity; try (by left); try (unfold MaxInt64; lia);
     right; split_and!; try reflexivity; [set_solver|by left]).
Qed.

Lemma response_ok f m query :
  dns_fragment_ok f -> message_ok m -> (forall q, query = Some q -> query_ok (responseKey f m) q) ->
  transaction_ok (responseTransaction f m query).
Proof.
  intros [F1 F2 F3 F4 F5 F6 F7] (M1 & M2 & M3) Hq.
  assert (Hl : forall x, u64 x / 1000 <= MaxInt64).
  { intros x. pose proof (uint_range 64 x ltac:(done)). unfold MaxInt64.
    apply Z.lt_le_incl, Z.div_lt_upper_bound; lia. }
  assert (Hc : ResponseCodeString (msg_ResponseCode m) = "" \/
    eventASCII (bytes_of_string (ResponseCodeString (msg_ResponseCode m))) 16 = true) by (right; by apply code_text).
  assert (Ht : QueryTypeString (msg_QuestionType m) = "" \/
    eventASCII (bytes_of_string (QueryTypeString (msg_QuestionType m))) 32 = true) by (right; by apply type_text).
  destruct query as [q|]; unfold responseTransaction.
  - destruct (Hq q eq_refl) as (Ek & [G1 G2 G3 G4 G5 G6 G7] & _). unfold responseKey, queryKey in Ek.
    injection Ek as _ _ _ _ _ Epid _. rewrite <- Epid in G3.
    split; cbn -[Z.div]; try assumption; try reflexivity.
    + destruct (_ && _); [apply Hl|unfold MaxInt64; lia].
    + left. split_and!; try reflexivity. cbn -[Z.div]. by intros ->.
  - split; cbn -[Z.div]; try assumption; try reflexivity; [unfold MaxInt64; lia|]. left. split_and!; reflexivity.
Qed.

Lemma pending_ok m t :
  map_Forall query_ok m -> t ∈ by_deadline m -> dns_fragment_ok (pq_fragment t) /\ message_ok (pq_message t).
Proof.
  intros Hm Hin. unfold by_deadline in Hin. rewrite sort_Slice_perm in Hin.
  apply elem_of_values in Hin as [k Hk]. by destruct (Hm k t Hk) as (_ & ? & ?).
Qed.

Lemma map_ok (f : pendingQuery -> Dns.Transaction) m :
  map_Forall query_ok m ->
  (forall q, dns_fragment_ok (pq_fragment q) -> message_ok (pq_message q) -> transaction_ok (f q)) ->
  Forall transaction_ok (f <$> by_deadline m).
Proof.
  intros Hm Hf. apply Forall_fmap, Forall_forall. intros q Hin. destruct (pending_ok m q Hm Hin). by apply Hf.
Qed.

Lemma filter_ok (P : pendingKey * pendingQuery -> Prop) `{forall x, Decision (P x)} (m : gmap pendingKey pendingQuery) :
  map_Forall query_ok m -> map_Forall query_ok (filter P m).
Proof. intros Hm k q [Hk _]%map_lookup_filter_Some. by apply Hm. Qed.

Lemma spec_expire_ok s now :
  queries_ok s -> queries_ok (spec_expire s now).1 /\ Forall transaction_ok (spec_expire s now).2.
Proof.
  intros Hs. split; [by apply filter_ok|]. apply map_ok; [by apply filter_ok|]. intros q H1 H2. by apply noResponse_ok.
Qed.

Definition operation_ok (op : operation) : Prop :=
  match op with OpProcess f => dns_fragment_ok f | _ => True end.

Lemma spec_step_ok s op :
  queries_ok s -> operation_ok op -> queries_ok (spec_step s op).1 /\ Forall transaction_ok (spec_step s op).2.
Proof.
  intros Hs Hop. destruct op as [f|now|now|]; cbn [spec_step].
  - unfold spec_process. destruct (spec_expire_ok s (Dns.fr_ObservedAt f) Hs) as [H1 H2].
    destruct (spec_expire s (Dns.fr_ObservedAt f)) as [s1 expired]. cbn [fst snd] in *.
    pose proof (snapshot_ok f Hop) as Hf. set (g := snapshotFragment f) in *.
    destruct (Parse (Dns.fr_Payload f)) as [m|e] eqn:Ep.
    + pose proof (Parse_message_ok _ _ Ep) as Hm. destruct (msg_Response m).
      * split; [intros k q Hk; cbn in Hk; apply lookup_delete_Some in Hk as [_ Hk]; by apply H1|]. cbn [snd].
        apply Forall_app. split; [done|]. constructor; [|done]. apply response_ok; [done|done|]. intros q Hq. by apply H1.
      * unfold spec_query. destruct (sp_queries s1 !! _) as [q|] eqn:Ek; cbn; [by rewrite app_nil_r|].
        destruct (_ <=? _); cbn.
        -- split; [done|]. apply Forall_app. split; [done|]. constructor; [|done].
           apply (noResponse_ok (mkPendingQuery g m zeroKey 0 0)); [done|done|set_solver].
        -- split; [|by rewrite app_nil_r]. by apply map_Forall_insert_2.
    + cbn. split; [done|]. apply Forall_app. split; [done|]. constructor; [|done]. by apply parseFailed_ok.
  - by apply spec_expire_ok.
  - cbn. split; [apply map_Forall_empty|]. apply Forall_app. split.
    + apply map_ok; [by apply filter_ok|]. intros q H1 H2. by apply noResponse_ok.
    + apply map_ok; [by apply filter_ok|]. intros q H1 H2. apply noResponse_ok; [done|done|set_solver].
  - cbn. split; [apply map_Forall_empty|]. apply map_ok; [done|]. intros q H1 H2. by apply noResponse_ok.
Qed.

Lemma spec_run_ok s ops :
  queries_ok s -> Forall operation_ok ops -> Forall (Forall transaction_ok) (spec_run s ops).2.
Proof.
  intros Hs Hops. revert s Hs. induction Hops as [|op ops Hop Hops IH]; intros s Hs; cbn [spec_run]; [constructor|].
  destruct (spec_step_ok s op Hs Hop) as [H1 H2]. destruct (spec_step s op) as [s1 out]. cbn [fst snd] in *.
  specialize (IH s1 H1). destruct (spec_run s1 ops). by constructor.
Qed.

(** ** Theorems *)

(** C12. No DNS transaction stops the capture: from fragments of a plausible
    time with the node's name, the process of their own event and parseable
    endpoints, whatever their datagrams hold and whenever the correlator
    expires or finishes, it does not panic and every transaction it returns
    has a pack. *)
Theorem dns_exportable {M} {MV : MapValue M} Sum256 pcode oid config ops :
  0 < pcode -> oid <> 0 -> Z.of_nat (length ops) < 2 ^ 64 -> Forall operation_ok ops ->
  exists c outs, Dns.run (Dns.NewCorrelatorWithConfig config) ops = Some (c, outs) /\
    forall t, t ∈ concat outs -> exists p : TagCountPack M, PackForDNS Sum256 t pcode oid = Ok p.
Proof.
  intros Hp Ho Hl Hops.
  destruct (run_spec (Dns.NewCorrelatorWithConfig config) ops) as (c & E & _); [apply new_inv|done|done|].
  exists c. eexists. split; [exact E|]. intros t Hin. apply transaction_packs; [done|done|].
  assert (Hs : queries_ok (spec_of (Dns.NewCorrelatorWithConfig config))).
  { unfold queries_ok, spec_of, queries. cbn. rewrite fmap_empty. apply map_Forall_empty. }
  pose proof (spec_run_ok _ ops Hs Hops) as HF. apply list_elem_of_In, in_concat in Hin as (out & Hout%list_elem_of_In & Ht%list_elem_of_In).
  rewrite Forall_forall in HF. specialize (HF _ Hout). rewrite Forall_forall in HF. by apply HF.
Qed.

(** A query that is answered and one that is not when the capture ends *)
Definition example_exports : list operation :=
  [OpProcess (example_query Second 1000 7); OpProcess (example_response (2 * Second) 5000 7);
   OpProcess (example_query (3 * Second) 9500 8); OpFinish (unix_epoch + 4 * Second)].

Lemma example_exports_ok : Forall operation_ok example_exports.
Proof.
  unfold example_exports. repeat (apply Forall_cons; split); [..|exact I|apply Forall_nil; exact I];
    (split; cbn -[observed_ok eventASCII bytes_of_string];
     [split; [split|]; vm_compute; discriminate || reflexivity|vm_compute; reflexivity|split; [by right; right|by left]
     |vm_compute; reflexivity|vm_compute; reflexivity|reflexivity|reflexivity]).
Qed.

Lemma dns_exportable_witness :
  exists c outs, Dns.run (Dns.NewCorrelatorWithConfig example_config) example_exports = Some (c, outs) /\
    forall t, t ∈ concat outs -> exists p : TagCountPack (gmap string field_value), PackForDNS (fun l => l) t 7 3 = Ok p.
Proof.
  apply (dns_exportable (fun l => l) 7 3 example_config example_exports eq_refl ltac:(discriminate)
    ltac:(vm_compute; reflexivity) example_exports_ok).
Defined.
