(* ===== verification/ExportableL7.v ===== *)
(** * What the HTTP correlator emits is what the exporter accepts

    As in [Exportable], for internal/l7: every coverage record and every
    HTTP/1 transaction has a pack; an HTTP/2 transaction has one exactly when
    its method is one the exporter knows. *)

From S2P Require Import Prelude Text Flow NetAddr Bridge DnsParse Dns DnsSpec Pack Exportable L7Types Http1 Http2 L7.

#[local] Open Scope Z_scope.

(** ** Definitions *)

Definition source_ok (source : string) : Prop := source = SourceKernelPlaintext \/ source = SourceOpenSSL.

(** A fragment as the event loop enriches it *)
Record fragment_ok (f : Fragment) : Prop := {
  lf_observed : observed_ok (fr_ObservedAt f);
  lf_year : fr_ObservedAt f < year_10000;
  lf_node : node_ok (fr_NodeName f);
  lf_process : process_ok (fr_ObserverPID f) (fr_Process f);
  lf_source : source_ok (fr_Source f);
  lf_source_endpoint : validEventEndpoint (fr_SourceEndpoint f) = true;
  lf_destination_endpoint : validEventEndpoint (fr_DestinationEndpoint f) = true;
  lf_source_resolved : validEventResolved (fr_SourceResolved f) = true;
  lf_destination_resolved : validEventResolved (fr_DestinationResolved f) = true
}.

Definition identity_ok (pid : Z) (identity : observationIdentity) : Prop :=
  process_ok pid (oi_process identity) /\ validEventResolved (oi_source identity) = true /\
  validEventResolved (oi_destination identity) = true.

Definition stream_ok (streamID : Z) : Prop := 0 < streamID <= 2 ^ 31 - 1.

Definition key_ok (k : connectionKey) : Prop := node_ok (ck_NodeName k) /\ source_ok (ck_Source k).

Definition request1_ok (k : connectionKey) (p : pendingRequest) : Prop :=
  key_ok k /\ identity_ok (ck_ObserverPID k) (pr_identity p) /\ validHTTPMethod (pr_method p) = true.

Definition request2_ok (k : http2StreamKey) (p : pendingRequest) : Prop :=
  key_ok (sk_Connection k) /\ identity_ok (ck_ObserverPID (sk_Connection k)) (pr_identity p).

Definition block_ok (pid : Z) (block : http2HeaderBlock) : Prop :=
  stream_ok (hb_streamID block) /\ identity_ok pid (hb_identity block).

(** The identities a direction keeps *)
Definition direction_ok {D} (pid : Z) (state : http2DirectionState D) : Prop :=
  identity_ok pid (ds_bufferIdentity state) /\ identity_ok pid (ds_continuationIdentity state).

Record state_ok {D} (c : Correlator D) : Prop := {
  so_http1 : map_Forall request1_ok (cr_http1 c);
  so_http2 : map_Forall request2_ok (cr_http2 c);
  so_directions : map_Forall (fun k s => direction_ok (tk_ObserverPID (dk_Transport k)) s) (cr_http2Directions c)
}.

Record transaction_ok (t : Transaction) : Prop := {
  tk_schema : tx_SchemaVersion t = SchemaVersion;
  tk_flow : fk_Protocol (tx_Flow t) = "tcp" /\ fk_Direction (tx_Flow t) = "client-to-server";
  tk_observed : observed_ok (tx_ObservedAt t);
  tk_node : node_ok (fk_NodeName (tx_Flow t));
  tk_process : process_ok (tx_ObserverPID t) (tx_Process t);
  tk_source : source_ok (tx_Source t);
  tk_endpoints : validEventEndpoint (fk_Source (tx_Flow t)) = true /\ validEventEndpoint (fk_Destination (tx_Flow t)) = true;
  tk_resolved : validEventResolved (tx_SourceResolved t) = true /\ validEventResolved (tx_DestinationResolved t) = true;
  tk_status : 200 <= tx_StatusCode t <= 599;
  tk_latency : tx_ResponseLatencyMicros t <= MaxInt64;
  tk_protocol :
    (tx_Protocol t = ProtocolHTTP1 /\ tx_LatencyBoundary t = BoundaryResponseStatus /\ tx_StreamID t = 0 /\
     validHTTPMethod (tx_Method t) = true) \/
    (tx_Protocol t = ProtocolHTTP2 /\ tx_LatencyBoundary t = BoundaryResponseHeaders /\ stream_ok (tx_StreamID t))
}.

Definition reasons : list string :=
  [DropOverlappingRequest; DropProtocolUpgrade; DropResponseTimeout; DropStateCapacity; DropInvalidHTTP2;
   DropHTTP2StreamDesync; DropInvalidLatency].

Record drop_ok (d : Drop) : Prop := {
  dk_fixed : dr_SchemaVersion d = SchemaVersion /\ dr_Outcome d = "drop" /\ dr_Count d = 1;
  dk_observed : observed_ok (dr_ObservedAt d) /\ dr_ObservedAt d < year_10000;
  dk_node : node_ok (dr_NodeName d);
  dk_reason : dr_Reason d ∈ reasons;
  dk_source : source_ok (dr_Source d);
  dk_protocol : dr_Protocol d = ProtocolHTTP1 \/ dr_Protocol d = ProtocolHTTP2
}.

Definition output_ok (o : Output) : Prop :=
  match o with OutTransaction t => transaction_ok t | OutDrop d => drop_ok d end.

(** ** Lemmas *)

Lemma http_transaction_packs {M} {MV : MapValue M} Sum256 pcode oid t :
  0 < pcode -> oid <> 0 -> transaction_ok t ->
  validHTTPMethod (tx_Method t) = true <-> exists p : TagCountPack M, PackForL7 Sum256 t pcode oid = Ok p.
Proof.
  intros Hp Ho [H1 [H2 H2'] H3 H4 H5 H6 [H7 H7'] [H8 H8'] [H9 H9'] H10 H11]. unfold PackForL7.
  rewrite (proj2 (envelope_iff _ _ _ _ _ _) (conj (conj Hp Ho) (conj H3 (conj H4 H5)))).
  rewrite (bool_decide_eq_true_2 _ H1), (bool_decide_eq_true_2 _ H2), (bool_decide_eq_true_2 _ H2'), H7, H7', H8, H8'.
  destruct (Z.ltb_spec (tx_StatusCode t) 200); [lia|]. destruct (Z.ltb_spec 599 (tx_StatusCode t)); [lia|].
  destruct (Z.ltb_spec MaxInt64 (tx_ResponseLatencyMicros t)); [lia|].
  assert (Es : negb (bool_decide (tx_Source t = SourceKernelPlaintext)) &&
               negb (bool_decide (tx_Source t = SourceOpenSSL)) = false) by (destruct H6 as [-> | ->]; reflexivity).
  rewrite Es. cbn [negb orb].
  destruct H11 as [(P1 & P2 & P3 & P4)|(P1 & P2 & P3)].
  - unfold validHTTPBoundary. rewrite P1, P2, P3, P4. split; [|done]. intros _. by eexists.
  - unfold validHTTPBoundary. unfold stream_ok in P3. rewrite P1, P2.
    destruct (Z.eqb_spec (tx_StreamID t) 0); [lia|]. destruct (Z.ltb_spec (2 ^ 31 - 1) (tx_StreamID t)); [lia|].
    destruct (validHTTPMethod (tx_Method t)); split; try done; [by eexists|]. by intros [p Hpack].
Qed.

(** *** Coverage records *)

Lemma coverage_token l n : eventASCII l n = true -> validCoverageToken l n = true.
Proof.
  unfold eventASCII, validCoverageToken. destruct (_ || _); [done|]. intros Hl.
  rewrite forallb_forall in Hl |- *. intros b Hb. specialize (Hl b Hb). unfold is_graphic in Hl.
  apply andb_true_iff in Hl as [H1%Z.leb_le H2%Z.leb_le].
  destruct (Z.leb_spec (byte_val b) 32), (Z.ltb_spec 126 (byte_val b)); (done || lia).
Qed.

Lemma reason_token reason : reason ∈ reasons -> validCoverageToken (bytes_of_string reason) 128 = true.
Proof.
  assert (HF : Forall (fun r => validCoverageToken (bytes_of_string r) 128 = true) reasons) by (repeat constructor).
  rewrite Forall_forall in HF. apply HF.
Qed.

Lemma observed_not_zero t : observed_ok t -> time_IsZero t = false.
Proof.
  intros [[H _] _]. unfold time_IsZero. apply Z.eqb_neq. intros ->. by vm_compute in H.
Qed.

Lemma drop_packs {M} {MV : MapValue M} Sum256 coverage_json pcode oid d :
  0 < pcode -> oid <> 0 -> drop_ok d -> exists p : TagCountPack M, PackForL7Drop Sum256 coverage_json d pcode oid = Ok p.
Proof.
  intros Hp Ho [(H1 & H2 & H3) [H4 H4'] H5 H6 H7 H8]. unfold PackForL7Drop.
  destruct (Z.leb_spec pcode 0); [lia|]. destruct (Z.eqb_spec oid 0); [done|]. cbn [orb].
  rewrite (bool_decide_eq_true_2 _ H1), (bool_decide_eq_true_2 _ H2), (observed_not_zero _ H4), (coverage_token _ _ H5),
    (reason_token _ H6).
  destruct (Z.leb_spec (time_UnixMilli (dr_ObservedAt d)) 0) as [Hm|_]; [destruct H4; lia|].
  destruct (Z.leb_spec year_10000 (dr_ObservedAt d)); [lia|]. cbn [negb orb].
  rewrite (bool_decide_eq_true_2 (dr_Source d ∈ _)) by (destruct H7 as [-> | ->]; set_solver).
  rewrite (bool_decide_eq_true_2 (dr_Protocol d ∈ _)) by (destruct H8 as [-> | ->]; set_solver).
  rewrite H3. cbn. by eexists.
Qed.

(** *** What a fragment contributes *)

Section contributions.
Context (f : Fragment) (Hf : fragment_ok f).

Lemma identityFrom_ok : identity_ok (fr_ObserverPID f) (identityFrom f).
Proof using Hf. destruct Hf. split_and!; [by apply without_cmdline_ok|done|done]. Qed.

Lemma newDrop_ok protocol reason :
  protocol = ProtocolHTTP1 \/ protocol = ProtocolHTTP2 -> reason ∈ reasons -> output_ok (OutDrop (newDrop f protocol reason)).
Proof using Hf. intros. destruct Hf. split; cbn; try assumption; split; (assumption || reflexivity || (split; reflexivity)). Qed.

Lemma connectionDrop_ok k protocol reason :
  key_ok k -> protocol = ProtocolHTTP1 \/ protocol = ProtocolHTTP2 -> reason ∈ reasons ->
  output_ok (OutDrop (newConnectionDrop (fr_ObservedAt f) k protocol reason)).
Proof using Hf.
  intros [Hn Hs] Hp Hr. destruct Hf. split; cbn; try assumption; split; (assumption || reflexivity || (split; reflexivity)).
Qed.

Lemma keys_ok : key_ok (requestKey f) /\ key_ok (responseKey f).
Proof using Hf. by destruct Hf. Qed.

Lemma newTransaction_ok protocol boundary pending status streamID completed :
  identity_ok (fr_ObserverPID f) (pr_identity pending) -> 200 <= status <= 599 ->
  (protocol = ProtocolHTTP1 /\ boundary = BoundaryResponseStatus /\ streamID = 0 /\ validHTTPMethod (pr_method pending) = true) \/
  (protocol = ProtocolHTTP2 /\ boundary = BoundaryResponseHeaders /\ stream_ok streamID) ->
  transaction_ok (newTransaction f (responseKey f) protocol boundary pending status streamID completed).
Proof using Hf.
  intros (I1 & I2 & I3) Hs Hp. destruct Hf.
  split; cbn -[Z.div]; try assumption; try reflexivity; try (split; (assumption || reflexivity)).
  pose proof (uint_range 64 (completed - pr_startedNS pending) ltac:(done)). unfold MaxInt64, Microsecond.
  apply Z.lt_le_incl, Z.div_lt_upper_bound; lia.
Qed.
End contributions.

(** *** What the parsers read *)

Lemma http2Identity_status fields n method path status :
  http2Identity fields n = Some (method, path, status) -> status <= 599.
Proof.
  assert (HF : forall acc, acc.2 <= 599 -> (foldl http2_field acc fields).2 <= 599).
  { induction fields as [|h fields IH]; intros [[m q] st] Hacc; [done|]. cbn [foldl]. apply IH. unfold http2_field.
    repeat (case_match; try done). bool_to_Z. cbn in *. lia. }
  specialize (HF ([], [], 0) ltac:(cbn; lia)). unfold http2Identity.
  destruct (foldl http2_field ([], [], 0) fields) as [[m q] st]. cbn in HF. destruct (_ || _); [|done]. by intros [= _ _ <-].
Qed.

Lemma parseHTTP1Request_method payload n method path :
  parseHTTP1Request payload n = Some (method, path) -> validHTTPMethod method = true.
Proof.
  intros (full & query & version & (_ & Hm & _) & _)%parseHTTP1Request_Some. by apply bool_decide_eq_true_2.
Qed.

Lemma parseHTTP1Response_status payload status : parseHTTP1Response payload = Some status -> 100 <= status <= 599.
Proof.
  unfold parseHTTP1Response. destruct (split_three _ _) as [|v [|c l]]; try done. destruct (_ || _); [done|].
  destruct (ParseUint10 16 c) as [s|]; [|done]. destruct (_ || _) eqn:E; [done|]. intros [= <-].
  apply orb_false_iff in E as [E1 E2]. bool_to_Z. lia.
Qed.

(** *** The frame reader *)

Section frames.
Context {D : Type} {H : Hpack D}.
Implicit Types (state : http2DirectionState D).

Lemma zero_ok pid : identity_ok pid zeroIdentity.
Proof. by split_and!. Qed.

Lemma stream_masked n : Z.land n 0x7fffffff =? 0 = false -> stream_ok (Z.land n 0x7fffffff).
Proof.
  rewrite Z.eqb_neq. change 0x7fffffff with (Z.ones 31). rewrite Z.land_ones by done. intros Hn.
  pose proof (Z.mod_pos_bound n (2 ^ 31) ltac:(done)). unfold stream_ok. lia.
Qed.

Lemma dispatch_ok pid state frameType flags n payload started identity :
  direction_ok pid state -> identity_ok pid identity ->
  let '(state', new, _) := dispatch_frame state frameType flags (Z.land n 0x7fffffff) payload started identity in
  direction_ok pid state' /\ Forall (block_ok pid) new.
Proof.
  intros [Hb Hc] Hi. unfold dispatch_frame, headers_frame, continuation_frame.
  pose proof (stream_masked n) as Hn. pose proof (zero_ok pid).
  destruct (Z.land n 0x7fffffff =? 0).
  - repeat (case_match; simplify_eq/=; try done).
  - specialize (Hn eq_refl).
    repeat (case_match; simplify_eq/=; try (split; [split; assumption|repeat (constructor; try (split; assumption))])).
Qed.

Context (f : Fragment) (Hf : fragment_ok f).

Lemma consume_ok state n timestampNS :
  direction_ok (fr_ObserverPID f) state -> direction_ok (fr_ObserverPID f) (consume_frame state n timestampNS f).
Proof using Hf.
  intros [H1 H2]. unfold consume_frame. pose proof (identityFrom_ok f Hf). pose proof (zero_ok (fr_ObserverPID f)).
  by destruct (drop _ _); split.
Qed.

Lemma append_ok state payload timestampNS :
  direction_ok (fr_ObserverPID f) state -> direction_ok (fr_ObserverPID f) (append_payload payload timestampNS f state).
Proof using Hf.
  intros [H1 H2]. unfold append_payload. pose proof (identityFrom_ok f Hf).
  by destruct (ds_buffer state), payload; split.
Qed.

Lemma poison_ok pid state : direction_ok pid (poison state).
Proof. by split. Qed.

Lemma feed_loop_ok fuel state timestampNS blocks :
  direction_ok (fr_ObserverPID f) state -> Forall (block_ok (fr_ObserverPID f)) blocks ->
  let '(state', blocks', _) := feed_loop fuel state timestampNS f blocks in
  direction_ok (fr_ObserverPID f) state' /\ Forall (block_ok (fr_ObserverPID f)) blocks'.
Proof using Hf.
  revert state blocks. induction fuel as [|fuel IH]; intros state blocks Hs Hb; cbn [feed_loop]; [done|].
  destruct (_ <? 9)%nat; [done|]. destruct (_ <? _); [by split|]. destruct (_ <? _)%nat; [done|].
  set (c := consume_frame _ _ _ _).
  pose proof (fun t fl n p st => dispatch_ok (fr_ObserverPID f) c t fl n p st (ds_bufferIdentity state)
    (consume_ok _ _ _ Hs) ltac:(apply Hs)) as Dp.
  match goal with |- context [dispatch_frame c ?t ?fl (Z.land ?n _) ?p ?st _] => specialize (Dp t fl n p st) end.
  destruct (dispatch_frame _ _ _ _ _ _ _) as [[s1 new] [e|]]; destruct Dp as [D1 D2].
  - split; [exact D1|by apply Forall_app].
  - apply IH; [exact D1|by apply Forall_app].
Qed.

Lemma feed_ok state payload timestampNS :
  direction_ok (fr_ObserverPID f) state ->
  let '(state', blocks', _) := feed state payload timestampNS f in
  direction_ok (fr_ObserverPID f) state' /\ Forall (block_ok (fr_ObserverPID f)) blocks'.
Proof using Hf.
  intros Hs. unfold feed. destruct (_ <? _); [by split|].
  apply feed_loop_ok; [by apply append_ok|constructor].
Qed.
End frames.

(** *** The correlator *)

Section correlator.
Context {D : Type} {H : Hpack D}.
Context {R1 : MapRange connectionKey pendingRequest} {R2 : MapRange http2StreamKey pendingRequest}.
Implicit Types (c : Correlator D).

Definition result_ok (r : Correlator D * list Output) : Prop := state_ok r.1 /\ Forall output_ok r.2.

Lemma result_one c o : state_ok c -> output_ok o -> result_ok (c, [o]).
Proof. intros Hc Ho. split; [exact Hc|by constructor]. Qed.

Lemma result_none c : state_ok c -> result_ok (c, []).
Proof. by split. Qed.

Lemma set_http1_ok c http1 ambiguous :
  state_ok c -> map_Forall request1_ok http1 -> state_ok (set_http1 http1 ambiguous c).
Proof. by intros [H1 H2 H3]. Qed.

Lemma set_http2_ok c http2 : state_ok c -> map_Forall request2_ok http2 -> state_ok (set_http2 http2 c).
Proof. by intros [H1 H2 H3]. Qed.

Lemma delete_ok {K A} `{Countable K} (P : K -> A -> Prop) (m : gmap K A) k :
  map_Forall P m -> map_Forall P (delete k m).
Proof. intros Hm k' v [_ Hv]%lookup_delete_Some. by apply Hm. Qed.

Lemma swept_ok {K A} `{MapRange K A} (P : K -> A -> Prop) Q (m : gmap K A) :
  map_Forall P m -> map_Forall P (range_sweep Q m).1 /\ Forall (fun kv => P kv.1 kv.2) (range_sweep Q m).2.
Proof.
  intros Hm. split.
  - intros k v. rewrite lookup_range_sweep. destruct (m !! k) eqn:E; [|done]. destruct (Q k a); [done|].
    intros [= <-]. by apply Hm.
  - apply Forall_forall. intros [k v] [Hv _]%elem_of_range_sweep. by apply Hm.
Qed.

Context (f : Fragment) (Hf : fragment_ok f).

Lemma expire_ok c : state_ok c -> result_ok (expire c f).
Proof using Hf.
  intros [H1 H2 H3]. unfold expire. destruct (negb _); [by split|]. destruct (_ =? 0); [by split|].
  destruct (swept_ok request1_ok (fun _ p => expiredAt (fragmentTimestampNS f) (pr_startedNS p) (cr_stateTTLNS c)) _ H1) as [S1 S1'].
  destruct (swept_ok request2_ok (fun _ p => expiredAt (fragmentTimestampNS f) (pr_startedNS p) (cr_stateTTLNS c)) _ H2) as [S2 S2'].
  cbn [cr_http1 cr_http2 cr_stateTTLNS set_processed].
  destruct (range_sweep _ (cr_http1 c)) as [h1 o1], (range_sweep _ (cr_http2 c)) as [h2 o2]. cbn [fst snd] in *.
  split; [split; cbn; [exact S1|exact S2|]|].
  - intros k s [Hk _]%map_lookup_filter_Some. by apply H3 in Hk.
  - cbn. apply Forall_app. split; apply Forall_fmap; (eapply Forall_impl; [eassumption|]); intros [k p] Hk; cbn.
    + apply connectionDrop_ok; [done|apply Hk|by left|set_solver].
    + apply connectionDrop_ok; [done|apply Hk|by right|set_solver].
Qed.

Lemma http2_block_ok r block :
  result_ok r -> block_ok (fr_ObserverPID f) block -> result_ok (http2_block f r block).
Proof using Hf.
  destruct r as [c outputs]. intros [Hc Ho] [Hb Hi]. unfold http2_block. cbn [fst snd] in Hc, Ho.
  assert (Hout : forall c' o, state_ok c' -> output_ok o -> result_ok (c', outputs ++ [o])).
  { intros c' o Hc' Hoo. split; [exact Hc'|]. apply Forall_app. split; [exact Ho|by constructor]. }
  assert (Hdel : forall k, state_ok (set_http2 (delete k (cr_http2 c)) c)).
  { intros k. apply set_http2_ok; [done|]. by apply delete_ok, (so_http2 _ Hc). }
  destruct (http2Identity _ _) as [[[method path] status]|] eqn:Ei; [|by split].
  pose proof (http2Identity_status _ _ _ _ _ Ei). destruct (keys_ok f Hf) as [Kq Kr].
  destruct (negb _).
  - destruct (cr_http2 c !! _) as [p|].
    + apply Hout; [apply Hdel|]. apply newDrop_ok; [done|by right|set_solver].
    + destruct (_ <=? _).
      * apply Hout; [exact Hc|]. apply newDrop_ok; [done|by right|set_solver].
      * split; [|exact Ho]. apply set_http2_ok; [done|]. apply map_Forall_insert_2; [|apply (so_http2 _ Hc)].
        by split.
  - destruct (Z.ltb_spec status 200); [by split|].
    destruct (cr_http2 c !! _) as [p|] eqn:Ep; [|by split]. apply (so_http2 _ Hc) in Ep as [_ Ep].
    destruct (_ <=? _).
    + apply Hout; [apply Hdel|]. apply newDrop_ok; [done|by right|set_solver].
    + apply Hout; [apply Hdel|]. apply newTransaction_ok; [done|exact Ep|lia|]. right. by split_and!.
Qed.

Lemma http2_blocks_ok blocks r :
  result_ok r -> Forall (block_ok (fr_ObserverPID f)) blocks -> result_ok (foldl (http2_block f) r blocks).
Proof using Hf.
  intros Hr Hb. revert r Hr. induction Hb as [|b blocks Hb Hbs IH]; intros r Hr; [done|]. cbn [foldl].
  by apply IH, http2_block_ok.
Qed.

Lemma process_direction_ok c transport payload timestampNS :
  state_ok c -> tk_ObserverPID transport = fr_ObserverPID f ->
  result_ok (process_direction c f transport payload timestampNS).
Proof using Hf.
  intros Hc Ht. unfold process_direction. set (key := mkDirectionKey _ _ _).
  set (state := match cr_http2Directions c !! key with Some _ => _ | None => _ end).
  assert (Hs : direction_ok (fr_ObserverPID f) (set_lastSeen timestampNS state)).
  { assert (Hs : direction_ok (fr_ObserverPID f) state); [|exact Hs]. unfold state.
    destruct (cr_http2Directions c !! key) as [s|] eqn:Es; [|by split].
    apply (so_directions _ Hc) in Es. by rewrite <- Ht. }
  assert (Hstore : forall s, direction_ok (fr_ObserverPID f) s ->
    state_ok (set_transports (cr_http2Connections c) (<[key := s]> (cr_http2Directions c)) c)).
  { intros s Hs'. destruct Hc as [C1 C2 C3]. split; cbn; [exact C1|exact C2|]. apply map_Forall_insert_2; [|exact C3].
    cbn. by rewrite Ht. }
  assert (Hdrop : result_ok (set_transports (cr_http2Connections c) (<[key := poison (set_lastSeen timestampNS state)]>
      (cr_http2Directions c)) c, [OutDrop (newDrop f ProtocolHTTP2 DropHTTP2StreamDesync)])).
  { apply result_one; [by apply Hstore|]. apply newDrop_ok; [done|by right|set_solver]. }
  destruct (ds_poisoned _); [apply result_none; by apply Hstore|].
  destruct (_ && _); [exact Hdrop|].
  pose proof (feed_ok f Hf _ payload timestampNS Hs) as F.
  destruct (feed _ _ _ _) as [[s1 blocks] [e|]]; destruct F as [F1 F2].
  - apply result_one; [by apply Hstore|]. apply newDrop_ok; [done|by right|set_solver].
  - apply http2_blocks_ok; [|exact F2]. apply result_none. by apply Hstore.
Qed.

Lemma activate_ok c transport t :
  state_ok c -> state_ok (set_transports (<[transport := t]> (cr_http2Connections c)) (cr_http2Directions c) c).
Proof. by intros [H1 H2 H3]. Qed.

Lemma transport_pid : tk_ObserverPID (makeTransportKey f) = fr_ObserverPID f.
Proof. unfold makeTransportKey. by destruct (endpointLess _ _). Qed.

Lemma processHTTP2_ok c r : state_ok c -> processHTTP2 c f = Some r -> result_ok r.
Proof using Hf.
  intros Hc. unfold processHTTP2. pose proof transport_pid. destruct (cr_http2Connections c !! _).
  - intros [= <-]. apply process_direction_ok; [by apply activate_ok|done].
  - destruct (negb _); [done|]. destruct (_ <=? _); intros [= <-].
    + apply result_one; [done|]. apply newDrop_ok; [done|by right|set_solver].
    + apply process_direction_ok; [by apply activate_ok|done].
Qed.

Lemma processHTTP1_ok c : state_ok c -> result_ok (processHTTP1 c f).
Proof using Hf.
  intros Hc. pose proof (so_http1 _ Hc) as H1. destruct (keys_ok f Hf) as [Kq Kr]. unfold processHTTP1.
  assert (Hdel : forall k a, state_ok (set_http1 (delete k (cr_http1 c)) a c)).
  { intros k a. apply set_http1_ok; [done|]. by apply delete_ok. }
  destruct (parseHTTP1Request _ _) as [[method path]|] eqn:Eq.
  - unfold processRequest. apply parseHTTP1Request_method in Eq.
    destruct (cr_http1Ambiguous c !! _); [by apply result_none|].
    assert (Ho : forall a, result_ok (set_http1 (delete (requestKey f) (cr_http1 c)) a c,
      [OutDrop (newDrop f ProtocolHTTP1 DropOverlappingRequest)])).
    { intros a. apply result_one; [apply Hdel|]. apply newDrop_ok; [done|by left|set_solver]. }
    destruct (containsPipelinedHTTP1Request _ _); [apply Ho|].
    destruct (cr_http1 c !! _); [apply Ho|]. destruct (_ <=? _).
    + apply result_one; [done|]. apply newDrop_ok; [done|by left|set_solver].
    + apply result_none, set_http1_ok; [done|]. apply map_Forall_insert_2; [|done].
      split; [done|]. split; [by apply identityFrom_ok|done].
  - destruct (parseHTTP1Response _) as [status|] eqn:Es; [|by apply result_none].
    apply parseHTTP1Response_status in Es. unfold processResponse.
    destruct (cr_http1Ambiguous c !! _); [by apply result_none|].
    destruct (Z.ltb_spec status 200), (Z.eqb_spec status 101); cbn [negb andb]; try by apply result_none.
    all: destruct (cr_http1 c !! _) as [p|] eqn:Ep; [|by apply result_none].
    all: try (apply result_one; [apply Hdel|]; apply newDrop_ok; [done|by left|set_solver]).
    apply H1 in Ep as (_ & Ep & Em). destruct (_ <=? _); [by apply result_none|].
    apply result_one; [apply Hdel|]. apply newTransaction_ok; [done|exact Ep|lia|]. left. by split_and!.
Qed.

Lemma Process_ok c : state_ok c -> result_ok (Correlator_Process c f).
Proof using Hf.
  intros Hc. unfold Correlator_Process. pose proof (expire_ok c Hc) as [E1 E2].
  destruct (expire c f) as [c1 expired]. cbn [fst snd] in *.
  assert (Hr : result_ok (match processHTTP2 c1 f with Some handled => handled | None => processHTTP1 c1 f end)).
  { destruct (processHTTP2 c1 f) eqn:E; [by eapply processHTTP2_ok|by apply processHTTP1_ok]. }
  destruct (match processHTTP2 c1 f with Some handled => handled | None => _ end) as [c2 outputs].
  destruct Hr as [Hr1 Hr2]. split; [exact Hr1|by apply Forall_app].
Qed.
End correlator.

Lemma new_ok {D} config : state_ok (D:=D) (@NewCorrelator D config).
Proof. split; apply map_Forall_empty. Qed.

Section run.
Context {D : Type} {H : Hpack D}.
Context {R1 : MapRange connectionKey pendingRequest} {R2 : MapRange http2StreamKey pendingRequest}.

Lemma run_ok (c : Correlator D) fragments :
  state_ok c -> Forall fragment_ok fragments -> Forall (Forall output_ok) (run c fragments).2.
Proof.
  intros Hc Hf. revert c Hc. induction Hf as [|f fragments Hf Hfs IH]; intros c Hc; cbn [run]; [constructor|].
  destruct (Process_ok f Hf c Hc) as [P1 P2]. destruct (Correlator_Process c f) as [c1 out].
  specialize (IH c1 P1). destruct (run c1 fragments). by constructor.
Qed.
End run.


(** ** Theorems *)

(** C13. What the HTTP correlator emits can be exported: from fragments as the
    event loop enriches them, whatever their payloads hold, every coverage
    record has a pack, every HTTP/1 transaction has a pack, and an HTTP/2
    transaction has one exactly when its method is one of the nine the
    exporter knows. *)
Theorem l7_exportable {D M} {H : Hpack D} {R1 : MapRange connectionKey pendingRequest}
    {R2 : MapRange http2StreamKey pendingRequest} {MV : MapValue M} Sum256 coverage_json pcode oid config fragments :
  0 < pcode -> oid <> 0 -> Forall fragment_ok fragments ->
  forall o, o ∈ concat (run (@NewCorrelator D config) fragments).2 ->
  match o with
  | OutDrop d => exists p : TagCountPack M, PackForL7Drop Sum256 coverage_json d pcode oid = Ok p
  | OutTransaction t =>
      (tx_Protocol t = ProtocolHTTP1 \/ validHTTPMethod (tx_Method t) = true <->
         exists p : TagCountPack M, PackForL7 Sum256 t pcode oid = Ok p) /\
      (tx_Protocol t = ProtocolHTTP1 \/ tx_Protocol t = ProtocolHTTP2)
  end.
Proof.
  intros Hp Ho Hf o Hin. pose proof (run_ok _ _ (new_ok (D:=D) config) Hf) as HF.
  apply list_elem_of_In, in_concat in Hin as (out & Hout%list_elem_of_In & Ht%list_elem_of_In).
  rewrite Forall_forall in HF. specialize (HF _ Hout). rewrite Forall_forall in HF. specialize (HF o Ht).
  destruct o as [t|d]; [|by apply drop_packs].
  rewrite <- (http_transaction_packs Sum256 pcode oid t Hp Ho HF).
  destruct (tk_protocol _ HF) as [(-> & _ & _ & Hm)|(-> & _)]; split; [tauto|by left| |by right].
  split; [intros [E|E]; [discriminate E|exact E]|by right].
Qed.

(** A decoder for the examples: a block of digits is a status, any other block
    is the method of a request of the root. *)
Definition example_exchange_hpack : Hpack unit := {|
  NewDecoder _ := tt;
  DecodeFull d block :=
    (d, Some match ParseUint10 16 block with
             | Some _ => [(lit ":status", block)]
             | None => [(lit ":method", block); (lit ":path", lit "/")]
             end)
|}.

(** A HEADERS frame of stream 1 with END_HEADERS *)
Definition example_headers (block : list byte) : list byte :=
  be_bytes 3 (Z.of_nat (length block)) ++ be_bytes 1 http2FrameHeaders ++ be_bytes 1 http2FlagEndHeaders ++
  be_bytes 4 1 ++ block.

(** An HTTP/2 connection with one exchange, and an HTTP/1 exchange *)
Definition example_exchanges (method : list byte) : list Fragment :=
  [example_message 1000000 (example_endpoint 40000) example_server (http2ClientPreface ++ example_headers method);
   example_message 2000000 example_server (example_endpoint 40000) (example_headers (lit "207"));
   example_message 3000000 (example_endpoint 40001) example_server example_request_payload;
   example_message 4000000 example_server (example_endpoint 40001) example_response_payload].

Definition example_exporting : Correlator unit := @NewCorrelator unit (mkConfig 0 0 0 0 0 0 0).

Definition example_outputs (method : list byte) : list Output :=
  concat (@run unit example_exchange_hpack (canonical_range _ _) (canonical_range _ _) example_exporting
    (example_exchanges method)).2.

(** One HTTP/2 request with a method of WebDAV, its response, and the record
    the exporter returns an error for *)
Lemma http2_method_rejected :
  exists t rest, example_outputs (lit "PROPFIND") = OutTransaction t :: rest /\ tx_Method t = lit "PROPFIND" /\
    PackForL7 (M:=gmap string field_value) (fun l => l) t 7 3 = Err invalid_http.
Proof.
  eexists _, _. split; [vm_compute; reflexivity|]. split; vm_compute; reflexivity.
Qed.

Lemma example_fragments_ok method : Forall fragment_ok (example_exchanges method).
Proof.
  unfold example_exchanges. repeat (apply Forall_cons; split); [..|apply Forall_nil; exact I];
    (split; cbn -[observed_ok eventASCII bytes_of_string];
     [split; [split|]; vm_compute; discriminate || reflexivity|vm_compute; reflexivity|vm_compute; reflexivity
     |split; [by right; right|by left]|by left|vm_compute; reflexivity|vm_compute; reflexivity|reflexivity|reflexivity]).
Qed.

Lemma l7_exportable_witness :
  length (example_outputs (lit "GET")) = 2%nat /\
  forall t, OutTransaction t ∈ example_outputs (lit "GET") -> tx_Method t = lit "GET" ->
    exists p : TagCountPack (gmap string field_value), PackForL7 (fun l => l) t 7 3 = Ok p.
Proof.
  split; [vm_compute; reflexivity|]. intros t Hin Hm.
  apply (@l7_exportable unit (gmap string field_value) example_exchange_hpack (canonical_range _ _) (canonical_range _ _) _
    (fun l => l) (fun _ _ _ _ _ _ _ _ => []) 7 3 (mkConfig 0 0 0 0 0 0 0) (example_exchanges (lit "GET"))
    eq_refl ltac:(discriminate) (example_fragments_ok _) (OutTransaction t) Hin).
  right. rewrite Hm. vm_compute. reflexivity.
Defined.
