(* ===== verification/WhatapWire.v ===== *)
(** * internal/whatap: frames, key replies and access keys

    protocol.go and license.go. AES and golib's readers are not under src/:
    a block cipher is a record of functions with its laws in a class, golib's
    decoding of a checked license is an argument of parseLicense. *)

From S2P Require Import Prelude Text.

#[local] Open Scope Z_scope.

(** ** Definitions *)

Definition headerSize : nat := 22.
Definition maxHandshakeBody : Z := 1024.
Definition maxFrameBody : Z := 8 * 1024 * 1024.
Definition sourceAgent : Z := 1.
Definition codeHide : Z := 0x01.
Definition codeCipher : Z := 0x02.
Definition codeTimeSync : Z := 0xfe.
Definition codeKeyReset : Z := 0xff.
Definition BlockSize : nat := 16.

(** The errors of the package that its callers only pass on, by message. *)
Inductive WireError :=
| invalid_encrypted_body_length
| invalid_handshake_header
| invalid_handshake_body_length
| key_reply_mismatch
| oversized_key_reply
| invalid_key_reply
| invalid_session_key_reply
| invalid_key_reply_padding
| truncated_blob
| truncated_blob_length
| invalid_blob_length
| unexpected_EOF
| ErrShortWrite
| ErrNoProgress
| io_error (n : Z)
| errInvalidLicense.

Record frameHeader := mkFrameHeader {
  fh_source : Z;
  fh_code : Z;
  fh_pcode : Z;
  fh_oid : Z;
  fh_transferKey : Z;
  fh_size : Z
}.

(** PutUint64(uint64(x)) and PutUint32(uint32(x)) write x modulo the width. *)
Definition makeFrame (code pcode oid transferKey : Z) (body : list byte) : list byte :=
  [byte_of sourceAgent; byte_of code] ++ be_bytes 8 pcode ++ be_bytes 4 oid ++
  be_bytes 4 transferKey ++ be_bytes 4 (Z.of_nat (length body)) ++ body.

(** [raw] has headerSize bytes. *)
Definition parseHeader (raw : list byte) : frameHeader :=
  mkFrameHeader (byte_val (raw !!! 0%nat)) (byte_val (raw !!! 1%nat))
    (i64 (be_uint (slice raw 2 10))) (i32 (be_uint (slice raw 10 14)))
    (i32 (be_uint (slice raw 14 18))) (i32 (be_uint (slice raw 18 22))).

Definition validIdentity (h : frameHeader) (pcode oid : Z) : bool :=
  ((fh_source h =? sourceAgent) || (fh_source h =? 3) || (fh_source h =? 4)) &&
  (fh_pcode h =? pcode) && (fh_oid h =? oid).

(** cipher.Block, on slices of BlockSize bytes *)
Record Block := mkBlock {
  Encrypt : list byte -> list byte;
  Decrypt : list byte -> list byte
}.

(** aes.NewCipher for a 16-byte key *)
Class NewCipher := aes_NewCipher : list byte -> Block.

(** What AES is relied on for: a permutation of the blocks and its inverse. *)
Class BlockLaws (b : Block) : Prop := {
  Encrypt_length x : length x = BlockSize -> length (Encrypt b x) = BlockSize;
  Decrypt_length x : length x = BlockSize -> length (Decrypt b x) = BlockSize;
  Decrypt_Encrypt x : length x = BlockSize -> Decrypt b (Encrypt b x) = x;
  Encrypt_Decrypt x : length x = BlockSize -> Encrypt b (Decrypt b x) = x
}.

(** copy(normalized[:], key) *)
Definition normalize_key (key : list byte) : list byte :=
  take BlockSize key ++ replicate (BlockSize - length key) (byte_of 0).

Definition masterCipher {A : NewCipher} (key : list byte) : Block := aes_NewCipher (normalize_key key).

(** The loops over whole blocks; the fuel is their number. *)
Fixpoint each_block (f : list byte -> list byte) (n : nat) (l : list byte) : list byte :=
  match n with
  | O => []
  | S n' => f (take BlockSize l) ++ each_block f n' (drop BlockSize l)
  end.

Definition block_count (n : nat) : nat := (n + BlockSize - 1) / BlockSize.

(** The zero-padded copy encryptECB works on *)
Definition zero_pad (plain : list byte) : list byte :=
  plain ++ replicate (block_count (length plain) * BlockSize - length plain) (byte_of 0).

Definition encryptECB (block : Block) (plain : list byte) : list byte :=
  each_block (Encrypt block) (block_count (length plain)) (zero_pad plain).

Definition decryptECB (block : Block) (encrypted : list byte) : result WireError (list byte) :=
  if (length encrypted =? 0)%nat || negb (length encrypted mod BlockSize =? 0)%nat
  then Err invalid_encrypted_body_length
  else Ok (each_block (Decrypt block) (length encrypted / BlockSize) encrypted).

(** takeBlob: golib's one-, three- or five-byte length prefix *)
Definition takeBlob (data : list byte) (max : Z) : result WireError (list byte * list byte) :=
  match data with
  | [] => Err truncated_blob
  | b :: _ =>
      '(prefix, size) ←
        (if byte_val b =? 255 then
           if (length data <? 3)%nat then Err truncated_blob_length
           else Ok (3%nat, be_uint (slice data 1 3))
         else if byte_val b =? 254 then
           if (length data <? 5)%nat then Err truncated_blob_length
           else Ok (5%nat, be_uint (slice data 1 5))
         else Ok (1%nat, byte_val b));
      if (max <? size) || (Z.of_nat (length data - prefix) <? size) then Err invalid_blob_length
      else let end_ := (prefix + Z.to_nat size)%nat in
           Ok (slice data prefix end_, drop end_ data)
  end.

(** The identity and keys of a client that the wire functions use *)
Record Keys := mkKeys { k_pcode : Z; k_oid : Z; k_master : Block }.

Definition decodeKeyReply {A : NewCipher} (c : Keys) (body : list byte) :
    result WireError (Z * Block) :=
  if maxHandshakeBody <? Z.of_nat (length body) then Err oversized_key_reply
  else
    match decryptECB (k_master c) body with
    | Err _ => Err invalid_key_reply
    | Ok plain =>
        if (length plain <? 4)%nat then Err invalid_key_reply
        else
          let transferKey := i32 (be_uint (take 4 plain)) in
          match takeBlob (drop 4 plain) (Z.of_nat BlockSize) with
          | Err _ => Err invalid_session_key_reply
          | Ok (key, rest) =>
              if (transferKey =? 0) || negb (length key =? BlockSize)%nat ||
                 (length rest <? 8)%nat || (BlockSize <=? length rest - 8)%nat
              then Err invalid_session_key_reply
              else if forallb (fun b => byte_val b =? 0) (drop 8 rest)
              then Ok (transferKey, aes_NewCipher key)
              else Err invalid_key_reply_padding
          end
    end.

(** io.ReadFull on a connection that delivers [stream] and then fails *)
Definition ReadFull (n : nat) (stream : list byte) : result WireError (list byte * list byte) :=
  if (length stream <? n)%nat then Err unexpected_EOF else Ok (take n stream, drop n stream).

(** What handshake does with the collector's answer, after its own frame was
    written: the session and the unread rest of the stream. *)
Definition handshake_reply {A : NewCipher} (c : Keys) (stream : list byte) :
    result WireError (Z * Block * list byte) :=
  '(raw, stream) ← ReadFull headerSize stream;
  let h := parseHeader raw in
  if negb (validIdentity h (k_pcode c) (k_oid c)) || negb (fh_code h =? codeKeyReset)
  then Err invalid_handshake_header
  else if (fh_size h <=? 0) || (maxHandshakeBody <? fh_size h) ||
          negb (Z.rem (fh_size h) (Z.of_nat BlockSize) =? 0)
  then Err invalid_handshake_body_length
  else
    '(body, stream) ← ReadFull (Z.to_nat (fh_size h)) stream;
    '(transferKey, block) ← decodeKeyReply c body;
    if negb (fh_transferKey h =? 0) && negb (fh_transferKey h =? transferKey)
    then Err key_reply_mismatch
    else Ok (transferKey, block, stream).

(** The frames the receive loop accepts; it discards their bodies. *)
Definition frame_acceptable (c : Keys) (sessionKey : Z) (h : frameHeader) : bool :=
  validIdentity h (k_pcode c) (k_oid c) && (0 <? fh_size h) && (fh_size h <=? maxFrameBody) &&
  (if fh_code h =? codeTimeSync then fh_size h =? 16
   else if (fh_code h =? codeHide) || (fh_code h =? codeCipher)
   then (fh_transferKey h =? sessionKey) &&
        negb ((fh_code h =? codeCipher) && negb (Z.rem (fh_size h) 16 =? 0))
   else false).

(** The inner loop of receive: the body is read through a scratch buffer. *)
Fixpoint discard (fuel : nat) (remaining : nat) (stream : list byte) : option (list byte) :=
  if (remaining =? 0)%nat then Some stream
  else match fuel with
       | O => None
       | S fuel' =>
           let n := if (4096 <? remaining)%nat then 4096%nat else remaining in
           match ReadFull n stream with
           | Err _ => None
           | Ok (_, stream) => discard fuel' (remaining - n) stream
           end
       end.

(** One iteration of receive: [None] when the reader returns and drops the session. *)
Definition receive_frame (c : Keys) (sessionKey : Z) (stream : list byte) : option (list byte) :=
  match ReadFull headerSize stream with
  | Err _ => None
  | Ok (raw, stream) =>
      let h := parseHeader raw in
      if frame_acceptable c sessionKey h
      then discard (Z.to_nat (fh_size h)) (Z.to_nat (fh_size h)) stream
      else None
  end.

(** The loop of receive over a stream that ends: what follows the last frame it
    accepted, where it returns *)
Fixpoint receive (fuel : nat) (c : Keys) (sessionKey : Z) (stream : list byte) : option (list byte) :=
  match receive_frame c sessionKey stream with
  | None => Some stream
  | Some stream' => match fuel with O => None | S fuel' => receive fuel' c sessionKey stream' end
  end.

(** *** writeAll: an io.Writer is a state and what one Write does to it:
    the count it returns and an error. *)
Class Writer (W : Type) := Write : W -> list byte -> W * Z * option WireError.

(** Every iteration that continues consumes at least one byte. *)
Fixpoint writeAll {W} `{Writer W} (fuel : nat) (w : W) (data : list byte) (total : Z) :
    option (W * Z * option WireError) :=
  match data with
  | [] => Some (w, total, None)
  | _ =>
      match fuel with
      | O => None
      | S fuel' =>
          let '(w, n, err) := Write w data in
          if (n <? 0) || (Z.of_nat (length data) <? n) then Some (w, total, Some ErrShortWrite)
          else
            let total := total + n in
            let data := drop (Z.to_nat n) data in
            match err with
            | Some e => Some (w, total, Some e)
            | None => if n =? 0 then Some (w, total, Some ErrNoProgress)
                      else writeAll fuel' w data total
            end
      end
  end.

(** *** Access keys *)
Definition maxLicenseKeyBytes : Z := 1024.
Definition maxLicenseWords : nat := (9 + 5 + 1024 + 7) / 8.
Definition maxLicenseText : nat := maxLicenseWords * 15 - 1.

Definition byte_x : byte := byte_of 120.
Definition byte_z : byte := byte_of 122.

Definition licenseWord (token : list byte) : result WireError Z :=
  match token with
  | [] => Err errInvalidLicense
  | first :: digits =>
      if negb (bool_decide (first = byte_x)) && negb (bool_decide (first = byte_z)) then
        if (19 <? length token)%nat then Err errInvalidLicense
        else if negb (forallb is_decimal_digit token) then Err errInvalidLicense
        else
          let n := digits_value 10 token in
          (* ParseInt(token, 10, 64) *)
          if MaxInt64 <? n then Err errInvalidLicense else Ok n
      else if (length token <? 2)%nat || (14 <? length token)%nat then Err errInvalidLicense
      else if negb (forallb is_base32_digit digits) then Err errInvalidLicense
      else
        let n := digits_value 32 digits in
        (* ParseUint(digits, 32, 64) *)
        if (2 ^ 64 <=? n) || (bool_decide (first = byte_x) && (MaxInt64 <? n)) ||
           (bool_decide (first = byte_z) && (2 ^ 63 <? n))
        then Err errInvalidLicense
        else if bool_decide (first = byte_z) then Ok (i64 (- i64 n)) else Ok (i64 n)
  end.

(** The loop over the tokens: their words, big-endian, in order. *)
Fixpoint license_words (tokens : list (list byte)) : result WireError (list byte) :=
  match tokens with
  | [] => Ok []
  | token :: tokens' =>
      match licenseWord token with
      | Err _ => Err errInvalidLicense
      | Ok word => raw ← license_words tokens'; Ok (be_bytes 8 word ++ raw)
      end
  end.

(** golib's DataInputX over the checked words: ReadDecimal, then ReadBlob *)
Class LicenseReader := read_license : list byte -> Z * list byte.

Definition parseLicense {L : LicenseReader} (text : list byte) : result WireError (Z * list byte) :=
  if (length text =? 0)%nat || (maxLicenseText <? length text)%nat then Err errInvalidLicense
  else
    let tokens := split_byte (byte_of 45) text in
    if (maxLicenseWords <? length tokens)%nat then Err errInvalidLicense
    else
      raw ← license_words tokens;
      let width := Z.to_nat (byte_val (raw !!! 0%nat)) in
      if ((5 <? width)%nat && negb (width =? 8)%nat) || (length raw <=? 1 + width)%nat
      then Err errInvalidLicense
      else
        match takeBlob (drop (1 + width) raw) maxLicenseKeyBytes with
        | Err _ => Err errInvalidLicense
        | Ok (key, rest) =>
            if (length key =? 0)%nat || (7 <? length rest)%nat then Err errInvalidLicense
            else
              let '(pcode, blob) := read_license raw in
              if pcode =? 0 then Err errInvalidLicense else Ok (pcode, blob)
        end.

(** *** Specifications *)

(** The bytes of a header *)
Definition header_bytes (h : frameHeader) : list byte :=
  [byte_of (fh_source h); byte_of (fh_code h)] ++ be_bytes 8 (fh_pcode h) ++ be_bytes 4 (fh_oid h) ++
  be_bytes 4 (fh_transferKey h) ++ be_bytes 4 (fh_size h).

(** The fields are in the range of their types. *)
Record header_ok (h : frameHeader) : Prop := {
  ho_source : 0 <= fh_source h < 256;
  ho_code : 0 <= fh_code h < 256;
  ho_pcode : MinInt64 <= fh_pcode h <= MaxInt64;
  ho_oid : - 2 ^ 31 <= fh_oid h < 2 ^ 31;
  ho_transferKey : - 2 ^ 31 <= fh_transferKey h < 2 ^ 31;
  ho_size : - 2 ^ 31 <= fh_size h < 2 ^ 31
}.

(** A frame from the yard, a proxy or an echo of the agent, to this client *)
Definition addressed (c : Keys) (h : frameHeader) : Prop :=
  (fh_source h = 1 \/ fh_source h = 3 \/ fh_source h = 4) /\ fh_pcode h = k_pcode c /\ fh_oid h = k_oid c.

(** What a connected client takes from its collector: a clock frame of 16
    bytes, or a hidden or encrypted one of the session, of whole blocks when
    encrypted; never more than 8 MiB. *)
Record accepted_frame (c : Keys) (sessionKey : Z) (h : frameHeader) (body : list byte) : Prop := {
  af_header : header_ok h;
  af_addressed : addressed c h;
  af_size : fh_size h = Z.of_nat (length body) /\ 0 < fh_size h <= 8 * 1024 * 1024;
  af_kind : fh_code h = 254 /\ fh_size h = 16 \/
    fh_transferKey h = sessionKey /\ (fh_code h = 1 \/ fh_code h = 2 /\ (16 | fh_size h))
}.

(** golib's length prefixes, the longer ones for short blobs too *)
Inductive blob_prefix (n : Z) : list byte -> Prop :=
| prefix_1 : n < 254 -> blob_prefix n [byte_of n]
| prefix_3 : n < 2 ^ 16 -> blob_prefix n (byte_of 255 :: be_bytes 2 n)
| prefix_5 : n < 2 ^ 32 -> blob_prefix n (byte_of 254 :: be_bytes 4 n).

(** The plaintext of a key reply: the session's transfer key and cipher key,
    then the hide key and the public address, which the client ignores. *)
Definition key_reply (transferKey : Z) (prefix key ignored : list byte) : list byte :=
  be_bytes 4 transferKey ++ prefix ++ key ++ ignored.

(** The key reply of a collector that shares the master key *)
Record issued (c : Keys) (transferKey : Z) (key body : list byte) : Prop := {
  is_transferKey : transferKey <> 0 /\ - 2 ^ 31 <= transferKey < 2 ^ 31;
  is_key : length key = 16%nat;
  is_body : exists prefix ignored, blob_prefix 16 prefix /\ length ignored = 8%nat /\
    body = encryptECB (k_master c) (key_reply transferKey prefix key ignored)
}.

(** The signed base-32 form of a license word: 13 digits hold 65 bits. *)
Definition word_text (z : Z) : list byte :=
  if z <? 0 then byte_z :: digits_text 32 13 (- z) else byte_x :: digits_text 32 13 z.

(** io.Writer: when Write reports that n bytes of its argument were written,
    these are the bytes that left. *)
Class WriterLaws (W : Type) `{Writer W} := {
  written : W -> list byte;
  Write_written w data w' n err :
    Write w data = (w', n, err) -> 0 <= n <= Z.of_nat (length data) ->
    written w' = written w ++ take (Z.to_nat n) data
}.

(** A writer that takes at most three bytes at a time *)
Definition short_writer : Writer (list byte) :=
  fun w data => (w ++ take 3 data, Z.of_nat (Nat.min 3 (length data)), None).

Definition short_writer_laws : @WriterLaws (list byte) short_writer.
Proof.
  refine {| written := fun w => w |}. intros w data w' n err [= <- <- _] _.
  f_equal. rewrite Nat2Z.id. destruct data as [|a [|b [|c l]]]; done.
Defined.

(** A block cipher for the examples: it reverses the block. *)
Definition example_block : Block := mkBlock reverse reverse.
Definition example_NewCipher : NewCipher := fun _ => example_block.
Definition example_keys : Keys := mkKeys 12345 (-7) example_block.

(** ** Lemmas *)

Lemma sint_be_bytes n w z :
  0 < w -> 256 ^ Z.of_nat n = 2 ^ w -> - 2 ^ (w - 1) <= z < 2 ^ (w - 1) ->
  sint w (be_uint (be_bytes n z)) = z.
Proof.
  intros Hw E Hz. rewrite be_uint_bytes, E. change (z mod 2 ^ w) with (uint w z).
  by rewrite sint_uint, sint_small.
Qed.

(** *** Headers *)

Lemma parse_header_bytes h : header_ok h -> parseHeader (header_bytes h) = h.
Proof.
  unfold MinInt64, MaxInt64. intros [Hs Hc Hp Ho Ht Hz]. unfold MinInt64, MaxInt64 in Hp. unfold parseHeader.
  set (f := header_bytes h).
  assert (E0 : f !!! 0%nat = byte_of (fh_source h)) by reflexivity.
  assert (E1 : f !!! 1%nat = byte_of (fh_code h)) by reflexivity.
  assert (E2 : slice f 2 10 = be_bytes 8 (fh_pcode h)) by reflexivity.
  assert (E3 : slice f 10 14 = be_bytes 4 (fh_oid h)) by reflexivity.
  assert (E4 : slice f 14 18 = be_bytes 4 (fh_transferKey h)) by reflexivity.
  assert (E5 : slice f 18 22 = be_bytes 4 (fh_size h)) by reflexivity.
  rewrite E0, E1, E2, E3, E4, E5, !byte_val_of, !sint_be_bytes by (done || lia).
  rewrite !Z.mod_small by lia. by destruct h.
Qed.

Lemma header_bytes_parse raw :
  length raw = headerSize -> header_bytes (parseHeader raw) = raw /\ header_ok (parseHeader raw).
Proof.
  intros Hl. do 22 (destruct raw as [|? raw]; [done|]). destruct raw; [|done]. split.
  - unfold header_bytes, parseHeader. cbn [fh_source fh_code fh_pcode fh_oid fh_transferKey fh_size].
    rewrite !byte_of_val, !be_bytes_sint by done. done.
  - split; cbn [fh_source fh_code fh_pcode fh_oid fh_transferKey fh_size parseHeader];
      [apply byte_val_range|apply byte_val_range| |apply (sint_range 32); lia..].
    unfold MinInt64, MaxInt64. match goal with |- context [i64 ?z] => pose proof (sint_range 64 z ltac:(lia)) end. lia.
Qed.

Lemma length_header_bytes h : length (header_bytes h) = headerSize.
Proof. reflexivity. Qed.

Lemma makeFrame_bytes code pcode oid transferKey body :
  makeFrame code pcode oid transferKey body =
    header_bytes (mkFrameHeader sourceAgent code pcode oid transferKey (Z.of_nat (length body))) ++ body.
Proof. reflexivity. Qed.

Lemma ReadFull_exact n stream l rest :
  ReadFull n stream = Ok (l, rest) <-> stream = l ++ rest /\ length l = n.
Proof.
  unfold ReadFull. destruct (Nat.ltb_spec (length stream) n) as [H|H]; split; [done| | |].
  - intros [-> <-]. rewrite length_app in H. lia.
  - intros [= <- <-]. by rewrite take_drop, length_take_le.
  - intros [-> <-]. by rewrite take_app_length, drop_app_length.
Qed.

Lemma ReadFull_Err n stream e : ReadFull n stream = Err e <-> (length stream < n)%nat /\ e = unexpected_EOF.
Proof. unfold ReadFull. destruct (Nat.ltb_spec (length stream) n); split; try done; [by intros [= <-]|by intros [_ ->]|lia]. Qed.

Lemma ReadFull_header h stream : ReadFull headerSize (header_bytes h ++ stream) = Ok (header_bytes h, stream).
Proof. by apply ReadFull_exact. Qed.

Lemma validIdentity_addressed c h : validIdentity h (k_pcode c) (k_oid c) = true <-> addressed c h.
Proof.
  unfold validIdentity, addressed, sourceAgent. rewrite !andb_true_iff, !orb_true_iff, !Z.eqb_eq. tauto.
Qed.

(** *** Receiving *)

Lemma discard_drop fuel n stream :
  (n <= fuel)%nat -> discard fuel n stream = if (length stream <? n)%nat then None else Some (drop n stream).
Proof.
  revert n stream. induction fuel as [|fuel IH]; intros n stream Hf; cbn [discard].
  { destruct n; [by destruct stream|lia]. }
  destruct (Nat.eqb_spec n 0) as [->|Hn]; [by destruct stream|]. unfold ReadFull.
  set (m := if (4096 <? n)%nat then 4096%nat else n). assert (Hm : (0 < m <= n)%nat)
    by (unfold m; destruct (Nat.ltb_spec 4096 n); lia).
  destruct (Nat.ltb_spec (length stream) m), (Nat.ltb_spec (length stream) n); try lia; [done|..];
    rewrite IH, length_drop, drop_drop by lia; destruct (Nat.ltb_spec (length stream - m) (n - m)); try lia; [done|].
  do 2 f_equal. lia.
Qed.

Lemma frame_acceptable_exact c sessionKey h body :
  header_ok h -> fh_size h = Z.of_nat (length body) ->
  (frame_acceptable c sessionKey h = true <-> accepted_frame c sessionKey h body).
Proof.
  intros Hh Hs. unfold frame_acceptable, maxFrameBody, codeTimeSync, codeHide, codeCipher.
  rewrite !andb_true_iff, validIdentity_addressed, Z.ltb_lt, Z.leb_le. split.
  - intros [[[Ha H0] Hm] Hk]. split; [done..|].
    destruct (Z.eqb_spec (fh_code h) 254); [left; by apply Z.eqb_eq in Hk|right].
    destruct (Z.eqb_spec (fh_code h) 1) as [E|E]; [rewrite E in *|destruct (Z.eqb_spec (fh_code h) 2); [|done]]; cbn in Hk.
    + rewrite andb_true_r in Hk. apply Z.eqb_eq in Hk. auto.
    + rewrite negb_involutive, andb_true_iff, !Z.eqb_eq in Hk. destruct Hk as [Hk1 Hk2]. split; [done|]. right.
      split; [done|]. by apply Z.rem_divide.
  - intros [_ Ha [_ H0] Hk]. split; [split; [split; [done|lia]|lia]|].
    destruct Hk as [[-> ->]|[-> [->|[-> Hk]]]]; [done|cbn; by rewrite Z.eqb_refl|cbn].
    rewrite Z.eqb_refl. apply Z.rem_divide in Hk; [|done]. by rewrite Hk.
Qed.

(** A frame is taken exactly when it is accepted, and as a whole. *)
Lemma receive_frame_exact c sessionKey stream rest :
  receive_frame c sessionKey stream = Some rest <->
    exists h body, accepted_frame c sessionKey h body /\ stream = header_bytes h ++ body ++ rest.
Proof.
  unfold receive_frame. split.
  - destruct (ReadFull headerSize stream) as [[raw stream1]|] eqn:E; [|done]. apply ReadFull_exact in E as [-> Hl].
    destruct (header_bytes_parse raw Hl) as [Eb Hh]. set (h := parseHeader raw) in *.
    destruct (frame_acceptable c sessionKey h) eqn:Ea; [|done]. rewrite discard_drop by done.
    destruct (Nat.ltb_spec (length stream1) (Z.to_nat (fh_size h))); [done|]. intros [= <-].
    exists h, (take (Z.to_nat (fh_size h)) stream1). rewrite take_drop, Eb. split; [|done].
    assert (0 < fh_size h) by (unfold frame_acceptable in Ea; rewrite !andb_true_iff, Z.ltb_lt in Ea; tauto).
    apply frame_acceptable_exact; [done| |done]. rewrite length_take_le by done. lia.
  - intros (h & body & A & ->). rewrite ReadFull_header, parse_header_bytes by apply A.
    destruct (af_size _ _ _ _ A) as [Es _].
    rewrite (proj2 (frame_acceptable_exact c sessionKey h body (af_header _ _ _ _ A) Es) A).
    rewrite discard_drop, Es, Nat2Z.id, length_app by done.
    destruct (Nat.ltb_spec (length body + length rest) (length body)); [lia|]. by rewrite drop_app_length.
Qed.

(** The loop ends where no frame is accepted, having consumed whole frames. *)
Lemma receive_frames fuel c sessionKey stream :
  (length stream <= fuel)%nat ->
  exists frames rest, receive fuel c sessionKey stream = Some rest /\
    stream = concat frames ++ rest /\ receive_frame c sessionKey rest = None /\
    Forall (fun frame => exists h body, accepted_frame c sessionKey h body /\ frame = header_bytes h ++ body) frames.
Proof.
  revert stream. induction fuel as [|fuel IH]; intros stream Hf; cbn [receive];
    (destruct (receive_frame c sessionKey stream) as [stream'|] eqn:E; [|by exists [], stream]);
    apply receive_frame_exact in E as (h & body & A & ->).
  { rewrite length_app, length_header_bytes in Hf. unfold headerSize in Hf. lia. }
  destruct (IH stream') as (frames & rest & -> & -> & Hr & Hall).
  { rewrite !length_app, length_header_bytes in Hf. unfold headerSize in Hf. lia. }
  exists ((header_bytes h ++ body) :: frames), rest. split_and!; [done|cbn; by rewrite <- !app_assoc|done|].
  constructor; [by exists h, body|done].
Qed.

(** *** Blocks *)

Lemma length_each_block f n l :
  (forall x, length x = BlockSize -> length (f x) = BlockSize) ->
  length l = (n * BlockSize)%nat -> length (each_block f n l) = (n * BlockSize)%nat.
Proof.
  intros Hf. revert l. induction n as [|n IH]; intros l Hl; [done|]. simpl.
  rewrite length_app, Hf, IH; rewrite ?length_take, ?length_drop; unfold BlockSize in *; lia.
Qed.

Lemma each_block_inverse b `{BlockLaws b} n l :
  length l = (n * BlockSize)%nat ->
  each_block (Decrypt b) n (each_block (Encrypt b) n l) = l.
Proof.
  revert l. induction n as [|n IH]; intros l Hl; simpl.
  { by apply nil_length_inv in Hl. }
  assert (Ht : length (take BlockSize l) = BlockSize)
    by (rewrite length_take; unfold BlockSize in *; lia).
  rewrite take_app_length', drop_app_length' by by rewrite Encrypt_length.
  rewrite Decrypt_Encrypt, IH by (done || (rewrite length_drop; unfold BlockSize in *; lia)).
  apply take_drop.
Qed.

Lemma block_count_ge n : (n <= block_count n * BlockSize < n + BlockSize)%nat.
Proof.
  unfold block_count, BlockSize. pose proof (Nat.div_mod_eq (n + 16 - 1) 16).
  pose proof (Nat.mod_upper_bound (n + 16 - 1) 16). lia.
Qed.

Lemma length_zero_pad plain : length (zero_pad plain) = (block_count (length plain) * BlockSize)%nat.
Proof.
  unfold zero_pad. rewrite length_app, length_replicate. pose proof (block_count_ge (length plain)). lia.
Qed.

(** Decryption undoes encryption, up to the zero padding. *)
Lemma decrypt_encrypt b `{BlockLaws b} plain :
  plain <> [] -> decryptECB b (encryptECB b plain) = Ok (zero_pad plain).
Proof.
  intros Hne. unfold decryptECB, encryptECB.
  assert (Hl : length (each_block (Encrypt b) (block_count (length plain)) (zero_pad plain)) =
    (block_count (length plain) * BlockSize)%nat).
  { apply length_each_block; [apply Encrypt_length|apply length_zero_pad]. }
  pose proof (block_count_ge (length plain)). destruct plain as [|p plain]; [done|].
  rewrite Hl, Nat.Div0.mod_mul, Nat.div_mul by done.
  destruct (Nat.eqb_spec (block_count (length (p :: plain)) * BlockSize) 0); [simpl length in *; lia|].
  simpl negb. simpl orb. cbv iota. f_equal. apply each_block_inverse; [done|apply length_zero_pad].
Qed.

Lemma length_encryptECB b `{BlockLaws b} plain :
  length (encryptECB b plain) = (block_count (length plain) * BlockSize)%nat.
Proof. apply length_each_block; [apply Encrypt_length|apply length_zero_pad]. Qed.

Lemma each_block_reverse b `{BlockLaws b} n l :
  length l = (n * BlockSize)%nat ->
  each_block (Encrypt b) n (each_block (Decrypt b) n l) = l.
Proof.
  revert l. induction n as [|n IH]; intros l Hl; simpl.
  { by apply nil_length_inv in Hl. }
  assert (Ht : length (take BlockSize l) = BlockSize)
    by (rewrite length_take; unfold BlockSize in *; lia).
  rewrite take_app_length', drop_app_length' by by rewrite Decrypt_length.
  rewrite Encrypt_Decrypt, IH by (done || (rewrite length_drop; unfold BlockSize in *; lia)).
  apply take_drop.
Qed.

(** What decrypts to a padded plaintext is its encryption. *)
Lemma encrypt_decrypt b `{BlockLaws b} encrypted plain :
  decryptECB b encrypted = Ok (zero_pad plain) -> encrypted = encryptECB b plain.
Proof.
  unfold decryptECB, encryptECB. destruct (_ || _) eqn:E; [done|]. intros Eq.
  assert (Ez : each_block (Decrypt b) (length encrypted / BlockSize) encrypted = zero_pad plain) by congruence. clear Eq.
  apply orb_false_iff in E as [_ E%negb_false_iff]. apply Nat.eqb_eq in E.
  assert (El : length encrypted = (length encrypted / BlockSize * BlockSize)%nat).
  { pose proof (Nat.div_mod_eq (length encrypted) BlockSize). lia. }
  assert (En : (length encrypted / BlockSize = block_count (length plain))%nat).
  { pose proof (length_zero_pad plain) as Hz. rewrite <- Ez, length_each_block in Hz by (done || apply Decrypt_length).
    unfold BlockSize in *. lia. }
  rewrite <- Ez, <- En. symmetry. by apply each_block_reverse.
Qed.

(** *** Blobs *)

Lemma slice_middle {A} (l1 l2 l3 : list A) n m :
  length l1 = n -> length l2 = m -> slice (l1 ++ l2 ++ l3) n (n + m) = l2 /\ drop (n + m) (l1 ++ l2 ++ l3) = l3.
Proof.
  intros <- <-. unfold slice. rewrite <- drop_drop, drop_app_length, drop_app_length.
  split; [|done]. replace (length l1 + length l2 - length l1)%nat with (length l2) by lia. by rewrite take_app_length.
Qed.

Lemma slice_split {A} (l : list A) n m :
  (n + m <= length l)%nat -> l = take n l ++ slice l n (n + m) ++ drop (n + m) l /\ length (slice l n (n + m)) = m.
Proof.
  intros H. unfold slice. replace (n + m - n)%nat with m by lia. split.
  - by rewrite <- (drop_drop l m n), !take_drop.
  - rewrite length_take_le; [done|]. rewrite length_drop. lia.
Qed.

(** The prefix read at the start of a blob is the one written there. *)
Lemma blob_prefix_read n prefix data :
  0 <= n -> blob_prefix n prefix ->
  exists b l, prefix ++ data = b :: l /\
    (if byte_val b =? 255 then
       if (length (prefix ++ data) <? 3)%nat then Err truncated_blob_length
       else Ok (3%nat, be_uint (slice (prefix ++ data) 1 3))
     else if byte_val b =? 254 then
       if (length (prefix ++ data) <? 5)%nat then Err truncated_blob_length
       else Ok (5%nat, be_uint (slice (prefix ++ data) 1 5))
     else Ok (1%nat, byte_val b)) = Ok (length prefix, n).
Proof.
  intros H0 [H|H|H]; eexists _, _; (split; [reflexivity|]).
  - rewrite byte_val_of, Z.mod_small by lia.
    destruct (Z.eqb_spec n 255); [lia|]. by destruct (Z.eqb_spec n 254); [lia|].
  - change (slice _ 1 3) with (be_bytes 2 n). rewrite be_uint_bytes, Z.mod_small by lia. done.
  - change (slice _ 1 5) with (be_bytes 4 n). rewrite be_uint_bytes, Z.mod_small by lia. done.
Qed.

Lemma blob_prefix_of b data p n :
  (if byte_val b =? 255 then
     if (length (b :: data) <? 3)%nat then Err truncated_blob_length
     else Ok (3%nat, be_uint (slice (b :: data) 1 3))
   else if byte_val b =? 254 then
     if (length (b :: data) <? 5)%nat then Err truncated_blob_length
     else Ok (5%nat, be_uint (slice (b :: data) 1 5))
   else Ok (1%nat, byte_val b)) = Ok (p, n) ->
  blob_prefix n (take p (b :: data)) /\ (p <= length (b :: data))%nat /\ 0 <= n.
Proof.
  pose proof (byte_val_range b) as Rb. pose proof (byte_of_val b) as Eb.
  destruct (Z.eqb_spec (byte_val b) 255) as [E|]; [|destruct (Z.eqb_spec (byte_val b) 254) as [E|]].
  - destruct (Nat.ltb_spec (length (b :: data)) 3) as [|Hl]; [done|]. rewrite E in Eb. subst b. intros Eq.
    do 2 (destruct data as [|? data]; [simpl in Hl; lia|]). match type of Eq with context [slice _ 1 3] =>
      change (slice _ 1 3) with [b; b0] in Eq end. injection Eq as <- <-.
    pose proof (be_uint_range [b; b0]). split; [|split; [done|lia]].
    change (take 3 _) with (byte_of 255 :: [b; b0]). rewrite <- (be_bytes_uint [b; b0]) at 2. apply prefix_3. simpl in *; lia.
  - destruct (Nat.ltb_spec (length (b :: data)) 5) as [|Hl]; [done|]. rewrite E in Eb. subst b. intros Eq.
    do 4 (destruct data as [|? data]; [simpl in Hl; lia|]). match type of Eq with context [slice _ 1 5] =>
      change (slice _ 1 5) with [b; b0; b1; b2] in Eq end. injection Eq as <- <-.
    pose proof (be_uint_range [b; b0; b1; b2]). split; [|split; [done|lia]].
    change (take 5 _) with (byte_of 254 :: [b; b0; b1; b2]). rewrite <- (be_bytes_uint [b; b0; b1; b2]) at 2. apply prefix_5. simpl in *; lia.
  - intros [= <- <-]. split; [|split; [cbn; lia|lia]]. cbn. rewrite <- Eb at 2. apply prefix_1. lia.
Qed.

(** takeBlob reads exactly the blobs of at most [max] bytes. *)
Lemma takeBlob_exact data max blob rest :
  takeBlob data max = Ok (blob, rest) <->
    exists prefix, blob_prefix (Z.of_nat (length blob)) prefix /\ data = prefix ++ blob ++ rest /\
      Z.of_nat (length blob) <= max.
Proof.
  unfold takeBlob. split.
  - destruct data as [|b data]; [done|]. intros E.
    match type of E with (_ ← ?m; _) = _ => destruct m as [[p n]|] eqn:Ep; [|done] end.
    apply blob_prefix_of in Ep as (Hb & Hp & Hn). cbn [mbind result_mbind result_bind] in E.
    destruct (Z.ltb_spec max n), (Z.ltb_spec (Z.of_nat (length (b :: data) - p)) n); try done. injection E as <- <-.
    destruct (slice_split (b :: data) p (Z.to_nat n)) as [Ed El]; [lia|].
    exists (take p (b :: data)). rewrite El, Z2Nat.id by done. split_and!; [done|exact Ed|done].
  - intros (prefix & Hb & -> & Hm).
    destruct (blob_prefix_read (Z.of_nat (length blob)) prefix (blob ++ rest) ltac:(lia) Hb) as (b & l & El & Er).
    assert (Hl : (length prefix <= length (b :: l))%nat) by (rewrite <- El, length_app; lia).
    rewrite El in Er |- *. rewrite Er. cbn [mbind result_mbind result_bind].
    rewrite <- El, !length_app, Nat2Z.id.
    destruct (Z.ltb_spec max (Z.of_nat (length blob))); [lia|].
    destruct (Z.ltb_spec (Z.of_nat (length prefix + (length blob + length rest) - length prefix)) (Z.of_nat (length blob))); [lia|].
    cbn [orb]. by destruct (slice_middle prefix blob rest _ _ eq_refl eq_refl) as [-> ->].
Qed.

(** *** Key replies *)

Lemma length_blob_prefix n prefix :
  blob_prefix n prefix -> length prefix = 1%nat \/ length prefix = 3%nat \/ length prefix = 5%nat.
Proof. intros []; auto. Qed.

(** The body is whole blocks, of at most 48 bytes. *)
Lemma issued_length c `{BlockLaws (k_master c)} transferKey key body :
  issued c transferKey key body -> (0 < length body <= 48)%nat /\ (Z.of_nat BlockSize | Z.of_nat (length body)).
Proof.
  intros [_ Hk (prefix & ignored & Hp & Hi & ->)]. rewrite length_encryptECB by done. split.
  - unfold key_reply. rewrite !length_app, Hk, Hi, length_be_bytes.
    by destruct (length_blob_prefix _ _ Hp) as [-> |[-> | ->]]; vm_compute; lia.
  - exists (Z.of_nat (block_count (length (key_reply transferKey prefix key ignored)))). lia.
Qed.

(** Bytes that are all zero and fill the last block are the padding. *)
Lemma zero_pad_intro plain zeros :
  forallb (fun b => byte_val b =? 0) zeros = true -> (length zeros < BlockSize)%nat ->
  (length (plain ++ zeros) mod BlockSize = 0)%nat -> zero_pad plain = plain ++ zeros.
Proof.
  intros Hz Hl Hm. unfold zero_pad. f_equal. rewrite length_app in Hm.
  assert (E : (block_count (length plain) * BlockSize = length plain + length zeros)%nat).
  { pose proof (block_count_ge (length plain)). pose proof (Nat.div_mod_eq (length plain + length zeros) BlockSize).
    unfold BlockSize in *. lia. }
  rewrite E, Nat.add_comm, Nat.add_sub. clear -Hz. induction zeros as [|b zeros IH]; [done|].
  cbn in Hz. apply andb_true_iff in Hz as [Hb Hz]. cbn. rewrite IH by done. f_equal.
  apply Z.eqb_eq in Hb. by rewrite <- (byte_of_val b), Hb.
Qed.

Lemma decryptECB_length b `{BlockLaws b} encrypted plain :
  decryptECB b encrypted = Ok plain -> length plain = length encrypted /\ (length encrypted mod BlockSize = 0)%nat.
Proof.
  unfold decryptECB. destruct (_ || _) eqn:E; [done|]. intros Eq.
  assert (Ez : each_block (Decrypt b) (length encrypted / BlockSize) encrypted = plain) by congruence. clear Eq.
  apply orb_false_iff in E as [_ E%negb_false_iff]. apply Nat.eqb_eq in E. split; [|done].
  assert (El : length encrypted = (length encrypted / BlockSize * BlockSize)%nat)
    by (pose proof (Nat.div_mod_eq (length encrypted) BlockSize); lia).
  rewrite <- Ez, length_each_block by (done || apply Decrypt_length). done.
Qed.

Lemma key_reply_padded transferKey prefix key ignored :
  zero_pad (key_reply transferKey prefix key ignored) =
    be_bytes 4 transferKey ++ prefix ++ key ++ ignored ++
    replicate (block_count (length (key_reply transferKey prefix key ignored)) * BlockSize -
      length (key_reply transferKey prefix key ignored)) (byte_of 0).
Proof. unfold zero_pad at 1. unfold key_reply at 1. by rewrite <- !app_assoc. Qed.

Lemma forallb_zeros n : forallb (fun b => byte_val b =? 0) (replicate n (byte_of 0)) = true.
Proof. by induction n. Qed.

(** decodeKeyReply accepts exactly what a collector issues. *)
Lemma decodeKeyReply_exact {A : NewCipher} (c : Keys) `{BlockLaws (k_master c)} body transferKey block :
  decodeKeyReply c body = Ok (transferKey, block) <->
    exists key, issued c transferKey key body /\ block = aes_NewCipher key.
Proof.
  unfold decodeKeyReply. split.
  - destruct (_ <? _); [done|]. destruct (decryptECB (k_master c) body) as [plain|] eqn:Ed; [|done].
    destruct (Nat.ltb_spec (length plain) 4); [done|].
    destruct (takeBlob (drop 4 plain) _) as [[key rest]|] eqn:Eb; [|done].
    apply takeBlob_exact in Eb as (prefix & Hp & Ep & _).
    destruct (Z.eqb_spec (i32 (be_uint (take 4 plain))) 0) as [|Hnz]; [done|].
    destruct (Nat.eqb_spec (length key) BlockSize) as [Hk|]; [|done].
    destruct (Nat.ltb_spec (length rest) 8), (Nat.leb_spec BlockSize (length rest - 8)); try done. cbn [negb orb].
    destruct (forallb _ _) eqn:Ez; [|done]. intros [= <- <-]. exists key. split; [|done].
    destruct (decryptECB_length _ _ _ Ed) as [Hlen Hmod]. rewrite Hk in Hp.
    assert (Eplain : plain = key_reply (i32 (be_uint (take 4 plain))) prefix key (take 8 rest) ++ drop 8 rest).
    { unfold key_reply. rewrite be_bytes_sint by (done || rewrite length_take_le; done).
      by rewrite <- !app_assoc, take_drop, <- Ep, take_drop. }
    split; [split; [done|apply (sint_range 32); lia]|done|]. exists prefix, (take 8 rest).
    split_and!; [done|rewrite length_take_le; done|]. apply encrypt_decrypt; [done|]. rewrite Ed. f_equal.
    rewrite Eplain at 1. symmetry. apply zero_pad_intro; [done|rewrite length_drop; lia|].
    by rewrite <- Eplain, Hlen.
  - intros (key & Hi & ->). destruct (issued_length c transferKey key body Hi) as [Hl _].
    destruct (Z.ltb_spec maxHandshakeBody (Z.of_nat (length body))); [unfold maxHandshakeBody in *; lia|].
    destruct Hi as [[Hnz Ht] Hk (prefix & ignored & Hp & Hi & ->)].
    rewrite decrypt_encrypt, key_reply_padded by (done || by destruct prefix). set (zeros := replicate _ _).
    assert (Hz : (length zeros < BlockSize)%nat).
    { unfold zeros. rewrite length_replicate. pose proof (block_count_ge (length (key_reply transferKey prefix key ignored))). lia. }
    destruct (Nat.ltb_spec (length (be_bytes 4 transferKey ++ prefix ++ key ++ ignored ++ zeros)) 4) as [Hc|_];
      [rewrite length_app, length_be_bytes in Hc; lia|].
    rewrite (take_app_length' (be_bytes 4 transferKey)), (drop_app_length' (be_bytes 4 transferKey)) by done.
    rewrite sint_be_bytes by (done || lia).
    rewrite (proj2 (takeBlob_exact _ (Z.of_nat BlockSize) key (ignored ++ zeros))).
    2: { exists prefix. rewrite Hk. split_and!; done. }
    rewrite (proj2 (Z.eqb_neq _ _) Hnz), Hk, length_app, Hi. cbn [negb orb Nat.eqb].
    destruct (Nat.ltb_spec (8 + length zeros) 8); [lia|].
    destruct (Nat.leb_spec BlockSize (8 + length zeros - 8)); [lia|].
    rewrite (drop_app_length' ignored) by done. unfold zeros. by rewrite forallb_zeros.
Qed.

Lemma decimal_first token : forallb is_decimal_digit token = true ->
  forall b l, token = b :: l -> b <> byte_x /\ b <> byte_z.
Proof.
  intros Hf b l ->. simpl in Hf. apply andb_true_iff in Hf as [Hb _].
  by split; intros ->.
Qed.

(** Every accepted word fits in 64 bits. *)
Lemma licenseWord_range token n : licenseWord token = Ok n -> MinInt64 <= n <= MaxInt64.
Proof.
  assert (Hi : forall z, MinInt64 <= i64 z <= MaxInt64).
  { intros z. pose proof (sint_range 64 z). unfold MinInt64, MaxInt64. lia. }
  unfold licenseWord. destruct token as [|first digits]; [done|].
  destruct (negb _ && negb _).
  - case_match; [done|]. destruct (forallb is_decimal_digit (first :: digits)) eqn:Ef; [|done].
    cbn [negb]. destruct (Z.ltb_spec MaxInt64 (digits_value 10 (first :: digits))); [done|].
    intros [= <-]. pose proof (decimal_nonneg (first :: digits) 0 ltac:(done) Ef).
    unfold digits_value in *. unfold MinInt64. lia.
  - repeat case_match; intros [= <-]; apply Hi.
Qed.

Lemma length_writeAll_data (data : list byte) n :
  0 <= n <= Z.of_nat (length data) -> data <> [] ->
  Z.of_nat (length (drop (Z.to_nat n) data)) = Z.of_nat (length data) - n.
Proof. intros ??. rewrite length_drop. lia. Qed.

(** writeAll ends within one Write per byte, whatever the writer does. *)
Lemma writeAll_total {S} `{Writer S} fuel (w : S) data total :
  (length data <= fuel)%nat -> exists w' n err, writeAll fuel w data total = Some (w', n, err).
Proof.
  revert w data total. induction fuel as [|fuel IH]; intros w data total Hf.
  { destruct data; [simpl; eauto|simpl in Hf; lia]. }
  destruct data as [|b data]; [simpl; eauto|]. cbn [writeAll].
  destruct (Write w (b :: data)) as [[w1 n] err].
  destruct (Z.ltb_spec n 0); [simpl; eauto|]. destruct (_ <? n); [simpl; eauto|]. simpl orb. cbv iota.
  destruct err as [e|]; [eauto|]. destruct (Z.eqb_spec n 0); [eauto|].
  apply IH. rewrite length_drop. simpl in *. lia.
Qed.

(** What it reports, for a writer that keeps to its contract *)
Lemma writeAll_spec {W} `{WriterLaws W} fuel (w : W) data total :
  (length data <= fuel)%nat ->
  exists w' n err, writeAll fuel w data total = Some (w', total + n, err) /\
    0 <= n <= Z.of_nat (length data) /\
    (err = None -> n = Z.of_nat (length data)) /\
    (err <> Some ErrShortWrite -> written w' = written w ++ take (Z.to_nat n) data).
Proof.
  revert w data total. induction fuel as [|fuel IH]; intros w data total Hf.
  { destruct data; [|simpl in Hf; lia]. exists w, 0, None. rewrite Z.add_0_r.
    split_and!; try done. intros _. by rewrite app_nil_r. }
  destruct data as [|b data].
  { exists w, 0, None. rewrite Z.add_0_r. split_and!; try done. intros _. by rewrite app_nil_r. }
  cbn [writeAll]. set (l := b :: data) in *. destruct (Write w l) as [[w1 n] err] eqn:Ew.
  destruct (Z.ltb_spec n 0), (Z.ltb_spec (Z.of_nat (length l)) n); simpl orb; cbv iota;
    try (exists w1, 0, (Some ErrShortWrite); rewrite Z.add_0_r; split_and!; (done || lia)).
  pose proof (Write_written w l w1 n err Ew ltac:(lia)) as Hw.
  destruct err as [e|].
  { exists w1, n, (Some e). split_and!; (done || lia). }
  destruct (Z.eqb_spec n 0) as [->|Hn].
  { exists w1, 0, (Some ErrNoProgress). split_and!; (done || lia). }
  destruct (IH w1 (drop (Z.to_nat n) l) (total + n)) as (w2 & m & err & -> & Hm & Hd & Hwr).
  { rewrite length_drop. simpl in *. lia. }
  rewrite length_writeAll_data in Hm, Hd by (done || lia).
  exists w2, (n + m), err. split_and!; [by rewrite Z.add_assoc|lia|lia|intros; specialize (Hd H3); lia|].
  intros He. rewrite (Hwr He), Hw, <- app_assoc. f_equal.
  rewrite <- (take_drop (Z.to_nat n) (take (Z.to_nat (n + m)) l)).
  rewrite take_take, Nat.min_l by lia. f_equal. rewrite take_drop_commute. f_equal. f_equal. lia.
Qed.

(** ** Theorems *)

(** C35. Frames are read back. parseHeader is the inverse of the layout of a
    header, for fields in range and for any 22 bytes; what makeFrame builds is
    such a header, with the agent's identity and the body's length, and the
    body. The receive loop takes a frame from its collector exactly when it is
    whole and acceptable, and then just that frame; over a stream it consumes
    acceptable frames, nothing else, and returns at the first place where none
    follows. *)
Theorem frame_roundtrip (c : Keys) sessionKey :
  (forall h, header_ok h -> parseHeader (header_bytes h) = h) /\
  (forall raw, length raw = headerSize -> header_bytes (parseHeader raw) = raw) /\
  (forall code transferKey body,
     let h := mkFrameHeader sourceAgent code (k_pcode c) (k_oid c) transferKey (Z.of_nat (length body)) in
     let frame := makeFrame code (k_pcode c) (k_oid c) transferKey body in
     header_ok h ->
     ReadFull headerSize frame = Ok (header_bytes h, body) /\
     validIdentity (parseHeader (header_bytes h)) (k_pcode c) (k_oid c) = true) /\
  (forall stream rest, receive_frame c sessionKey stream = Some rest <->
     exists h body, accepted_frame c sessionKey h body /\ stream = header_bytes h ++ body ++ rest) /\
  (forall stream, exists frames rest, receive (length stream) c sessionKey stream = Some rest /\
     stream = concat frames ++ rest /\ receive_frame c sessionKey rest = None /\
     Forall (fun frame => exists h body, accepted_frame c sessionKey h body /\ frame = header_bytes h ++ body) frames).
Proof.
  split_and!.
  - apply parse_header_bytes.
  - intros raw Hl. by apply header_bytes_parse.
  - intros code transferKey body h frame Hh. split; [by apply ReadFull_exact|].
    rewrite parse_header_bytes by done. apply validIdentity_addressed. split; [by left|done].
  - apply receive_frame_exact.
  - intros stream. by apply receive_frames.
Qed.

(** Two frames for this client and one for another *)
Lemma frame_roundtrip_witness :
  let c := mkKeys (-5) 77 example_block in
  let clock := mkFrameHeader 3 codeTimeSync (-5) 77 0 16 in
  parseHeader (header_bytes clock) = clock /\
  ReadFull headerSize (makeFrame codeCipher (-5) 77 (-2) (lit "body")) =
    Ok (header_bytes (mkFrameHeader 1 2 (-5) 77 (-2) 4), lit "body") /\
  receive 2 c 9 (header_bytes clock ++ lit "sixteen bytes !!" ++ makeFrame codeHide (-5) 77 9 (lit "pack") ++
    makeFrame codeHide (-5) 78 9 (lit "pack")) = Some (makeFrame codeHide (-5) 78 9 (lit "pack")).
Proof.
  intros c clock. destruct (frame_roundtrip c 9) as (H1 & _ & H3 & _). split_and!.
  - apply H1. split; unfold clock, codeTimeSync, MinInt64, MaxInt64; simpl; lia.
  - apply (H3 codeCipher (-2) (lit "body")). split; unfold codeCipher, MinInt64, MaxInt64, sourceAgent; simpl; lia.
  - vm_compute. reflexivity.
Defined.

(** C36. The handshake accepts exactly the key replies that a collector with
    the client's master key builds. The client ends with a transfer key and a
    cipher when, and only when, the stream starts with a frame from a valid
    source, addressed to its own identity, with the code of a key reset, the
    length of its body, and the transfer key of the reply or none; and the body
    is the encryption of a nonzero transfer key, a 16-byte session key in any
    of golib's length prefixes and eight bytes more. The transfer key and the
    cipher are then those, and just the reply has been consumed. *)
Theorem handshake_roundtrip {A : NewCipher} (c : Keys) (L : BlockLaws (k_master c)) stream transferKey block rest :
  handshake_reply c stream = Ok (transferKey, block, rest) <->
    exists h key body, header_ok h /\ addressed c h /\ fh_code h = codeKeyReset /\
      fh_size h = Z.of_nat (length body) /\ (fh_transferKey h = 0 \/ fh_transferKey h = transferKey) /\
      issued c transferKey key body /\ block = aes_NewCipher key /\ stream = header_bytes h ++ body ++ rest.
Proof.
  unfold handshake_reply. split.
  - destruct (ReadFull headerSize stream) as [[raw stream1]|] eqn:E; [|done]. apply ReadFull_exact in E as [-> Hl].
    destruct (header_bytes_parse raw Hl) as [Eb Hh]. cbn [mbind result_mbind result_bind]. set (h := parseHeader raw) in *.
    destruct (validIdentity h _ _) eqn:Ei; [|done]. apply validIdentity_addressed in Ei.
    destruct (Z.eqb_spec (fh_code h) codeKeyReset) as [Ec|]; [|done]. cbn [negb orb].
    destruct (Z.leb_spec (fh_size h) 0); [done|]. cbn [orb]. destruct (_ || _); [done|].
    destruct (ReadFull _ stream1) as [[body stream2]|] eqn:E; [|done]. apply ReadFull_exact in E as [-> Hs].
    cbn [mbind result_mbind result_bind]. destruct (decodeKeyReply c body) as [[tk b]|] eqn:Ed; [|done].
    apply decodeKeyReply_exact in Ed as (key & Hi & ->); [|done]. cbn [mbind result_mbind result_bind].
    destruct (_ && _) eqn:Et; [done|]. intros [= <- <- <-]. exists h, key, body. rewrite Eb.
    split_and!; try done; [lia|]. apply andb_false_iff in Et as [Et|Et]; apply negb_false_iff, Z.eqb_eq in Et; auto.
  - intros (h & key & body & Hh & Ha & Hc & Hs & Ht & Hi & -> & ->).
    rewrite ReadFull_header. cbn [mbind result_mbind result_bind]. rewrite parse_header_bytes by done.
    rewrite (proj2 (validIdentity_addressed c h) Ha), Hc, Z.eqb_refl. cbn [negb orb].
    destruct (issued_length c transferKey key body Hi) as [Hn Hm]. rewrite Hs.
    destruct (Z.leb_spec (Z.of_nat (length body)) 0), (Z.ltb_spec maxHandshakeBody (Z.of_nat (length body)));
      unfold maxHandshakeBody in *; try lia.
    apply Z.rem_divide in Hm; [|done]. rewrite Hm, Nat2Z.id. cbn [negb orb Z.eqb].
    rewrite (proj2 (ReadFull_exact (length body) (body ++ rest) body rest) (conj eq_refl eq_refl)).
    cbn [mbind result_mbind result_bind]. rewrite (proj2 (decodeKeyReply_exact c body transferKey (aes_NewCipher key))) by eauto.
    cbn [mbind result_mbind result_bind]. destruct Ht as [-> | ->]; [done|]. by rewrite Z.eqb_refl, andb_false_r.
Qed.

Definition example_reply : list byte :=
  encryptECB example_block (key_reply 99 [byte_of 16] (replicate 16 (byte_of 5)) (replicate 8 (byte_of 1))).

Lemma handshake_roundtrip_witness :
  BlockLaws (k_master example_keys) /\
  @handshake_reply example_NewCipher example_keys
    (header_bytes (mkFrameHeader 4 codeKeyReset 12345 (-7) 99 32) ++ example_reply ++ lit "next") =
    Ok (99, example_block, lit "next").
Proof.
  assert (L : BlockLaws (k_master example_keys))
    by (split; intros x Hx; simpl; [by rewrite length_reverse..|apply reverse_involutive|apply reverse_involutive]).
  split; [exact L|]. apply (@handshake_roundtrip example_NewCipher example_keys L).
  exists (mkFrameHeader 4 codeKeyReset 12345 (-7) 99 32), (replicate 16 (byte_of 5)), example_reply.
  split_and!; try reflexivity; [| |by right|].
  - split; unfold codeKeyReset, MinInt64, MaxInt64; simpl; lia.
  - split; [by right; right|done].
  - split; [lia|done|]. exists [byte_of 16], (replicate 8 (byte_of 1)). split_and!; [by apply prefix_1|done|done].
Defined.

(** A license word is read exactly: every 64-bit value comes back from
    its signed base-32 form, the smallest one included, and every nonnegative
    one from its decimal form; and no token is accepted for a value outside
    64 bits. *)
Theorem licenseWord_exact z :
  MinInt64 <= z <= MaxInt64 ->
  licenseWord (word_text z) = Ok z /\
  (0 <= z -> licenseWord (decimal_text z) = Ok z) /\
  (forall token n, licenseWord token = Ok n -> MinInt64 <= n <= MaxInt64).
Proof.
  unfold MinInt64, MaxInt64. intros Hz. split_and!; [| |apply licenseWord_range].
  - unfold word_text.
    assert (Hd : forall m, 0 <= m <= 2 ^ 63 -> digits_value 32 (digits_text 32 13 m) = m /\
      (0 < length (digits_text 32 13 m) <= 13)%nat /\
      forallb is_base32_digit (digits_text 32 13 m) = true).
    { intros m Hm. apply (digits_value_text 32 is_base32_digit ltac:(lia) digit_byte_base32 12). lia. }
    destruct (Z.ltb_spec z 0); unfold licenseWord.
    + destruct (Hd (- z)) as (V & L & F); [lia|]. set (ds := digits_text 32 13 (- z)) in *.
      rewrite V, F. simpl length. destruct (Nat.ltb_spec (S (length ds)) 2); [lia|].
      destruct (Nat.ltb_spec 14 (S (length ds))); [lia|]. simpl (bool_decide _ && _).
      destruct (Z.leb_spec (2 ^ 64) (- z)); [lia|]. destruct (Z.ltb_spec (2 ^ 63) (- z)); [lia|].
      simpl. f_equal. unfold sint. destruct (decide (z = - 2 ^ 63)) as [->|]; [done|].
      rewrite (Z.mod_small (- z)) by lia. destruct (Z.ltb_spec (- z) (2 ^ (64 - 1))); [|lia].
      rewrite Z.opp_involutive. fold (sint 64 z). apply sint_small; lia.
    + destruct (Hd z) as (V & L & F); [lia|]. set (ds := digits_text 32 13 z) in *.
      rewrite V, F. simpl length. destruct (Nat.ltb_spec (S (length ds)) 2); [lia|].
      destruct (Nat.ltb_spec 14 (S (length ds))); [lia|].
      destruct (Z.leb_spec (2 ^ 64) z); [lia|]. unfold MaxInt64.
      destruct (Z.ltb_spec (2 ^ 63 - 1) z); [lia|]. simpl. f_equal. apply sint_small; lia.
  - intros H0. unfold decimal_text.
    destruct (digits_value_text 10 is_decimal_digit ltac:(lia) digit_byte_decimal 18 z) as (V & L & F); [lia|].
    change (S 18) with 19%nat in *. set (ds := digits_text 10 19 z) in *. unfold licenseWord.
    destruct ds as [|d ds'] eqn:Ed; [simpl in L; lia|].
    destruct (decimal_first _ F d ds' eq_refl) as [Hx Hz'].
    rewrite (bool_decide_eq_false_2 _ Hx), (bool_decide_eq_false_2 _ Hz'), V, F. simpl andb.
    destruct (Nat.ltb_spec 19 (length (d :: ds'))); [lia|]. simpl.
    unfold MaxInt64. by destruct (Z.ltb_spec (2 ^ 63 - 1) z); [lia|].
Qed.

Lemma licenseWord_exact_witness :
  MinInt64 <= MinInt64 <= MaxInt64 /\ licenseWord (word_text MinInt64) = Ok MinInt64.
Proof.
  assert (H : MinInt64 <= MinInt64 <= MaxInt64) by (split; vm_compute; discriminate).
  split; [exact H|]. apply (licenseWord_exact MinInt64 H).
Defined.

(** writeAll ends on every writer, and what it reports is what left: the
    count is at most the data's length, a nil error means all of it, and,
    unless the writer broke its contract on the count, exactly that many
    leading bytes were written. *)
Theorem writeAll_exact {W} `{WriterLaws W} (w : W) data :
  exists w' n err, writeAll (length data) w data 0 = Some (w', n, err) /\
    0 <= n <= Z.of_nat (length data) /\
    (err = None -> n = Z.of_nat (length data)) /\
    (err <> Some ErrShortWrite -> written w' = written w ++ take (Z.to_nat n) data).
Proof.
  destruct (writeAll_spec (length data) w data 0) as (w' & n & err & E & Hrest); [done|].
  exists w', n, err. by rewrite E.
Qed.

Lemma writeAll_exact_witness :
  exists w' n err, @writeAll _ short_writer 8 [] (lit "contents") 0 = Some (w', n, err) /\
    (err = None -> n = 8).
Proof.
  destruct (@writeAll_exact _ short_writer short_writer_laws [] (lit "contents"))
    as (w' & n & err & E & _ & Hn & _).
  exists w', n, err. split; [exact E|exact Hn].
Defined.
