(* ===== verification/WhatapClient.v ===== *)
(** * internal/whatap: Client.Send

    Send, serialize, connect, sendFrame and dropSession of client.go. What
    the network, the clock, the context and concurrent goroutines do is an
    environment: a state [W] and its reactions. Every acquisition of the
    client's mutex lets the other goroutines act first (a receiver dropping
    the session, Close), whose steps are in [WhatapSession]. Sends are
    serialized by the gate, so one Send at a time runs this code. *)

From S2P Require Import Prelude WhatapWire.

#[local] Open Scope Z_scope.

(** ** Definitions *)

Inductive SendError :=
| nil_context
| ErrClosed
| ctx_error (n : Z)
| conn_error (n : Z)
| DeadlineExceeded
| net_ErrClosed
| wire_error (e : WireError)
| invalid_pack
| pack_identity_mismatch
| cannot_serialize
| exceeds_frame_limit
| connect_server (i : nat) (e : SendError)
| no_collector (last : SendError)
| no_collector_nil
| ErrAmbiguousDelivery (e : SendError).

(** session: the connection is a name the environment gives. *)
Record session := mkSession {
  se_conn : Z;
  se_transferKey : Z;
  se_block : Block
}.

(** pack.TagCountPack: what serialize looks at, and the rest *)
Record TagCountPack (P : Type) := mkPack {
  tp_Tags_nil : bool;
  tp_Data_nil : bool;
  tp_Pcode : Z;
  tp_Oid : Z;
  tp_rest : P
}.

Arguments mkPack {P}.
Arguments tp_Tags_nil {P}.
Arguments tp_Data_nil {P}.
Arguments tp_Pcode {P}.
Arguments tp_Oid {P}.
Arguments tp_rest {P}.

(** golib's ToBytesPack of a pack with these identities; [None] if it panics *)
Class PackBytes (P : Type) := ToBytesPack : P -> Z -> Z -> option (list byte).

(** What the other goroutines may have done. *)
Inductive interference := nothing | receiver_drops | close_called.

(** The outcome of the select at the start of Send *)
Inductive gate_outcome := gate_closed | gate_done | gate_taken.

Class Environment (W : Type) := {
  env_select : W -> W * gate_outcome;
  env_closeErr : W -> W * bool;
  env_ctxErr : W -> W * option Z;
  env_deadline_passed : W -> W * bool;
  env_interfere : W -> W * interference;
  env_dial : string -> W -> W * (Z + Z);
  env_SetDeadline : Z -> W -> W * option Z;
  env_handshake : Z -> W -> W * (Z * Block + WireError);
  env_isClosed : Z -> W -> W * bool;
  env_close : Z -> W -> W;
  env_write : Z -> W -> list byte -> W * Z * option WireError
}.

(** What is relied on: once a context's Done channel has been received from,
    its Err is not nil. *)
Class EnvironmentLaws (W : Type) `{Environment W} : Prop := {
  done_has_error w w' w1 b :
    env_select w = (w', gate_done) -> env_closeErr w' = (w1, b) ->
    exists e, (env_ctxErr w1).2 = Some e
}.

(** An attempt to write a data frame, and how it ended *)
Record attempt := mkAttempt {
  at_session : session;
  at_frame : list byte;
  at_error : option WireError
}.

(** Client: the configuration, the fields the mutex guards, the environment,
    and the data-frame writes so far, which only the theorems look at. *)
Record Client := mkClient {
  cl_keys : Keys;
  cl_servers : list string;
}.

Record State (W : Type) := mkState {
  st_world : W;
  st_session : option session;
  st_closed : bool;
  st_attempts : list attempt
}.

Arguments mkState {W}.
Arguments st_world {W}.
Arguments st_session {W}.
Arguments st_closed {W}.
Arguments st_attempts {W}.

Section client.
Context {W P : Type} {E : Environment W} {PB : PackBytes P}.

(** *** A state monad over [State W] *)
Definition M (A : Type) : Type := State W -> State W * A.

Definition ret {A} (a : A) : M A := fun st => (st, a).
Definition bind {A B} (m : M A) (f : A -> M B) : M B :=
  fun st => let '(st, a) := m st in f a st.

#[local] Notation "x <- m ; k" := (bind m (fun x => k)) (at level 100, m at next level, right associativity).
#[local] Notation "m ;; k" := (bind m (fun _ => k)) (at level 100, right associativity).

(** A reaction of the environment *)
Definition react {A} (f : W -> W * A) : M A :=
  fun st => let '(w, a) := f (st_world st) in
            (mkState w (st_session st) (st_closed st) (st_attempts st), a).

Definition set_session (s : option session) : M unit :=
  fun st => (mkState (st_world st) s (st_closed st) (st_attempts st), tt).

(** mu.Lock(): others have acted, then the fields are stable. *)
Definition lock : M (option session * bool) :=
  fun st =>
    let '(w, i) := env_interfere (st_world st) in
    let '(s, c) := match i with
                   | nothing => (st_session st, st_closed st)
                   | receiver_drops => (None, st_closed st)
                   | close_called => (None, true)
                   end in
    (mkState w s c (st_attempts st), (s, c)).

Definition operationError : M (option SendError) :=
  closed <- react env_closeErr;
  if closed : bool then ret (Some ErrClosed)
  else
    err <- react env_ctxErr;
    match err with
    | Some n => ret (Some (ctx_error n))
    | None =>
        passed <- react env_deadline_passed;
        if passed : bool then ret (Some DeadlineExceeded)
        else (err <- react env_ctxErr; ret (ctx_error <$> err))
    end.

Definition currentSession : M (option session) := sc <- lock; ret sc.1.

Definition same_session (s : session) (o : option session) : bool :=
  match o with Some s' => se_conn s' =? se_conn s | None => false end.

Definition dropSession (s : session) : M unit :=
  react (fun w => (env_close (se_conn s) w, tt));;
  sc <- lock;
  if same_session s sc.1 then set_session None else ret tt.

Definition serialize (c : Client) (p : option (TagCountPack P)) : result SendError (list byte) :=
  match p with
  | None => Err invalid_pack
  | Some p =>
      if tp_Tags_nil p || tp_Data_nil p then Err invalid_pack
      else
        let pcode := k_pcode (cl_keys c) in
        let oid := k_oid (cl_keys c) in
        if (negb (tp_Pcode p =? 0) && negb (tp_Pcode p =? pcode)) ||
           (negb (tp_Oid p =? 0) && negb (tp_Oid p =? oid))
        then Err pack_identity_mismatch
        else match ToBytesPack (tp_rest p) pcode oid with
             | None => Err cannot_serialize
             | Some body => if maxFrameBody <? Z.of_nat (length body) then Err exceeds_frame_limit
                            else Ok body
             end
  end.

(** connect after its session was registered, up to its result; the caller
    drops the session on an error. *)
Definition connect_registered (conn : Z) : M (session + SendError) :=
  err <- react (env_SetDeadline conn);
  match err with
  | Some n => ret (inr (conn_error n))
  | None =>
      hs <- react (env_handshake conn);
      ctxErr <- operationError;
      match ctxErr, hs with
      | Some e, _ => ret (inr e)
      | None, inr e => ret (inr (wire_error e))
      | None, inl (transferKey, block) =>
          err <- react (env_SetDeadline conn);
          match err with
          | Some n => ret (inr (conn_error n))
          | None =>
              sc <- lock;
              closed <- react (env_isClosed conn);
              if sc.2 || closed then ret (inr ErrClosed)
              else ret (inl (mkSession conn transferKey block))
          end
      end
  end.

(** The session before the handshake has no key: nothing can be sent on it. *)
Definition keyless : Block := mkBlock (fun x => x) (fun x => x).

Definition connect (server : string) : M (session + SendError) :=
  dialed <- react (env_dial server);
  match dialed with
  | inr n => ret (inr (conn_error n))
  | inl conn =>
      let s := mkSession conn 0 keyless in
      sc <- lock;
      if sc.2 : bool then
        react (fun w => (env_close conn w, tt));; ret (inr ErrClosed)
      else
        set_session (Some s);;
        r <- connect_registered conn;
        match r with
        | inr e => dropSession s;; ret (inr e)
        | inl s' =>
            (* the handshake filled in the fields of the registered session *)
            (fun st => (mkState (st_world st)
                          (if same_session s (st_session st) then Some s' else st_session st)
                          (st_closed st) (st_attempts st), inl s'))
        end
  end.

(** writeAll on the connection of [s], recorded *)
Definition write_frame (s : session) (frame : list byte) : M (option WireError) :=
  fun st =>
    match @writeAll W (env_write (se_conn s)) (length frame) (st_world st) frame 0 with
    | Some (w, _, err) =>
        (mkState w (st_session st) (st_closed st) (st_attempts st ++ [mkAttempt s frame err]), err)
    | None => (st, Some ErrNoProgress)
    end.

(** sendFrame returns whether a write was attempted, and an error. *)
Definition sendFrame (c : Client) (s : session) (body : list byte) : M (bool * option SendError) :=
  err <- operationError;
  match err with
  | Some e => ret (false, Some e)
  | None =>
      closed <- react (env_isClosed (se_conn s));
      if closed : bool then ret (false, Some net_ErrClosed)
      else
        err <- react (env_SetDeadline (se_conn s));
        match err with
        | Some n => ret (false, Some (conn_error n))
        | None =>
            let frame := makeFrame codeCipher (k_pcode (cl_keys c)) (k_oid (cl_keys c))
                           (se_transferKey s) (encryptECB (se_block s) body) in
            err <- operationError;
            match err with
            | Some e => ret (false, Some e)
            | None =>
                err <- write_frame s frame;
                ctxErr <- operationError;
                match ctxErr with
                | Some e => ret (true, Some e)
                | None => ret (true, wire_error <$> err)
                end
            end
        end
  end.

(** The loop over the servers, from index [i] *)
Fixpoint try_servers (c : Client) (body : list byte) (i : nat) (servers : list string)
    (lastErr : option SendError) : M (option SendError) :=
  match servers with
  | [] =>
      err <- operationError;
      match err with
      | Some e => ret (Some e)
      | None => ret (Some (match lastErr with Some e => no_collector e | None => no_collector_nil end))
      end
  | server :: servers' =>
      err <- operationError;
      match err with
      | Some e => ret (Some e)
      | None =>
          r <- connect server;
          match r with
          | inr e => try_servers c body (S i) servers' (Some (connect_server i e))
          | inl s =>
              r <- sendFrame c s body;
              match r with
              | (_, None) => ret None
              | (attempted, Some e) =>
                  dropSession s;;
                  if attempted : bool then ret (Some (ErrAmbiguousDelivery e))
                  else try_servers c body (S i) servers' (Some e)
              end
          end
      end
  end.

(** Send once its context exists; [None] is a nil error. *)
Definition Send (c : Client) (ctx_nil : bool) (p : option (TagCountPack P)) : M (option SendError) :=
  if ctx_nil then ret (Some nil_context)
  else
    outcome <- react env_select;
    match outcome with
    | gate_closed => ret (Some ErrClosed)
    | gate_done => operationError
    | gate_taken =>
        err <- operationError;
        match err with
        | Some e => ret (Some e)
        | None =>
            match serialize c p with
            | Err e => ret (Some e)
            | Ok body =>
                current <- currentSession;
                match current with
                | None => try_servers c body 0 (cl_servers c) None
                | Some s =>
                    r <- sendFrame c s body;
                    match r with
                    | (_, None) => ret None
                    | (attempted, Some e) =>
                        dropSession s;;
                        if attempted : bool then ret (Some (ErrAmbiguousDelivery e))
                        else try_servers c body 0 (cl_servers c) None
                    end
                end
            end
        end
    end.

(** *** Specification *)

(** The data frame of a body on a session *)
Definition data_frame (c : Client) (s : session) (body : list byte) : list byte :=
  makeFrame codeCipher (k_pcode (cl_keys c)) (k_oid (cl_keys c)) (se_transferKey s)
    (encryptECB (se_block s) body).

(** What a result says about the data frames written since [before]. *)
Definition accounts (c : Client) (body : list byte) (before after : list attempt)
    (r : option SendError) : Prop :=
  match r with
  | None => exists s, after = before ++ [mkAttempt s (data_frame c s body) None]
  | Some (ErrAmbiguousDelivery _) =>
      exists s err, after = before ++ [mkAttempt s (data_frame c s body) err]
  | Some _ => after = before
  end.

(** An error that is not the ambiguous one *)
Definition unambiguous (e : SendError) : Prop :=
  match e with ErrAmbiguousDelivery _ => False | _ => True end.

(** ** Lemmas *)

(** A computation that writes no data frame *)
Definition quiet {A} (m : M A) : Prop := forall st, st_attempts (m st).1 = st_attempts st.

Lemma quiet_ret {A} (a : A) : quiet (ret a).
Proof. done. Qed.

Lemma quiet_react {A} (f : W -> W * A) : quiet (react f).
Proof. intros st. unfold react. by destruct (f (st_world st)). Qed.

Lemma quiet_bind {A B} (m : M A) (f : A -> M B) : quiet m -> (forall a, quiet (f a)) -> quiet (bind m f).
Proof.
  intros Hm Hf st. unfold bind. specialize (Hm st). destruct (m st) as [st' a].
  by rewrite (Hf a st').
Qed.

Lemma quiet_lock : quiet lock.
Proof. intros st. unfold lock. by destruct (env_interfere (st_world st)) as [w []]. Qed.

Lemma quiet_set_session s : quiet (set_session s).
Proof. done. Qed.

Create HintDb quiet.
#[local] Hint Resolve quiet_ret quiet_react quiet_lock quiet_set_session : quiet.

(** Quietness of straight-line code: every statement is quiet. *)
Ltac be_quiet :=
  repeat first
    [ progress (intros)
    | solve [auto with quiet]
    | apply quiet_bind
    | match goal with
      | |- quiet (match ?x with _ => _ end) => destruct x
      | |- quiet (if ?b then _ else _) => destruct b
      end ].

Lemma quiet_operationError : quiet operationError.
Proof. unfold operationError. be_quiet. Qed.
#[local] Hint Resolve quiet_operationError : quiet.

Lemma quiet_dropSession s : quiet (dropSession s).
Proof. unfold dropSession. be_quiet. Qed.
#[local] Hint Resolve quiet_dropSession : quiet.

Lemma quiet_connect_registered conn : quiet (connect_registered conn).
Proof. unfold connect_registered. be_quiet. Qed.
#[local] Hint Resolve quiet_connect_registered : quiet.

Lemma quiet_connect server : quiet (connect server).
Proof. unfold connect. be_quiet. done. Qed.
#[local] Hint Resolve quiet_connect : quiet.

Lemma accounts_unchanged c body before e : unambiguous e -> accounts c body before before (Some e).
Proof. by destruct e. Qed.

Lemma operationError_unambiguous st e : (operationError st).2 = Some e -> unambiguous e.
Proof.
  unfold operationError, bind, react, ret. intros H.
  repeat (split_match_in H; simplify_eq/=; try done).
  destruct o; by simplify_eq/=.
Qed.

(** What operationError gives a caller *)
Lemma operationError_spec st :
  let '(st', r) := operationError st in
  st_attempts st' = st_attempts st /\ forall e, r = Some e -> unambiguous e.
Proof.
  pose proof (quiet_operationError st) as Hq. pose proof (operationError_unambiguous st) as Hu.
  destruct (operationError st) as [st' r]. split; [done|]. intros e ->. by apply Hu.
Qed.

Lemma sendFrame_spec c s body st :
  let '(st', (attempted, err)) := sendFrame c s body st in
  (forall e, err = Some e -> unambiguous e) /\
  if attempted : bool
  then exists werr, st_attempts st' = st_attempts st ++ [mkAttempt s (data_frame c s body) werr] /\
         (err = None -> werr = None)
  else st_attempts st' = st_attempts st /\ err <> None.
Proof.
  unfold sendFrame, bind. pose proof (operationError_spec st) as H1.
  destruct (operationError st) as [st1 [e1|]]; destruct H1 as [Q1 U1].
  { by split_and!. }
  pose proof (quiet_react (env_isClosed (se_conn s)) st1) as Q2.
  destruct (react _ st1) as [st2 closed]. simpl in Q2.
  destruct closed. { simpl. split_and!; [by intros e [= <-]|congruence|done]. }
  pose proof (quiet_react (env_SetDeadline (se_conn s)) st2) as Q3.
  destruct (react _ st2) as [st3 [n|]]; simpl in Q3.
  { simpl. split_and!; [by intros e [= <-]|congruence|done]. }
  pose proof (operationError_spec st3) as H4. fold (data_frame c s body).
  destruct (operationError st3) as [st4 [e4|]]; destruct H4 as [Q4 U4].
  { simpl. split_and!; [intros e [= <-]; by apply U4|congruence|done]. }
  unfold write_frame.
  destruct (@writeAll_total W (env_write (se_conn s)) (length (data_frame c s body)) (st_world st4)
    (data_frame c s body) 0 (le_n _)) as (w & n & err & ->).
  set (st5 := mkState _ _ _ _). pose proof (operationError_spec st5) as H5.
  destruct (operationError st5) as [st6 [e6|]]; destruct H5 as [Q5 U5]; simpl in Q5.
  - simpl. split; [intros e [= <-]; by apply U5|]. exists err. split; [|done]. congruence.
  - simpl. split; [intros e; by destruct err; intros [= <-]|]. exists err.
    split; [congruence|]. by destruct err.
Qed.

Lemma try_servers_spec c body i servers lastErr st :
  let '(st', r) := try_servers c body i servers lastErr st in
  accounts c body (st_attempts st) (st_attempts st') r.
Proof.
  revert i lastErr st. induction servers as [|server servers IH]; intros i lastErr st;
    cbn [try_servers]; unfold bind at 1; pose proof (operationError_spec st) as H1;
    destruct (operationError st) as [st1 [e1|]]; destruct H1 as [Q1 U1]; rewrite <- Q1.
  1, 3: apply accounts_unchanged; by apply U1.
  { simpl. by destruct lastErr. }
  unfold bind at 1. pose proof (quiet_connect server st1) as Q2.
  destruct (connect server st1) as [st2 [s|e]]; simpl in Q2; rewrite <- Q2; [|apply IH].
  unfold bind at 1. pose proof (sendFrame_spec c s body st2) as H3.
  destruct (sendFrame c s body st2) as [st3 [attempted [e|]]]; destruct H3 as [U3 A3].
  - unfold bind. pose proof (quiet_dropSession s st3) as Q4.
    destruct (dropSession s st3) as [st4 []]. simpl in Q4. destruct attempted.
    + destruct A3 as (werr & A3 & _). simpl. exists s, werr. congruence.
    + destruct A3 as [A3 _]. rewrite <- A3, <- Q4. apply IH.
  - destruct attempted; [|by destruct A3].
    destruct A3 as (werr & A3 & Hn). simpl. exists s. by rewrite A3, Hn.
Qed.
Lemma operationError_done st (L : EnvironmentLaws W) w :
  env_select (st_world st) = (w, gate_done) ->
  exists e, (operationError (mkState w (st_session st) (st_closed st) (st_attempts st))).2 = Some e.
Proof.
  intros Hd. unfold operationError, bind, react. simpl.
  destruct (env_closeErr w) as [w1 b] eqn:Hc.
  destruct (done_has_error _ _ _ _ Hd Hc) as [n Hn]. destruct b; [by eexists|]. simpl.
  destruct (env_ctxErr w1) as [w2 r]. simpl in *. subst r. by eexists.
Qed.

Lemma serialize_bound c p body : serialize c p = Ok body -> Z.of_nat (length body) <= maxFrameBody.
Proof.
  unfold serialize. intros H. repeat (split_match_in H; try done). bool_to_Z. by simplify_eq.
Qed.

(** Send either fails before it has a session to write on, or accounts for
    its frame. *)
Lemma Send_accounts c ctx_nil p st (L : EnvironmentLaws W) :
  let '(st', r) := Send c ctx_nil p st in
  (st_attempts st = st_attempts st' /\ exists e, r = Some e /\ unambiguous e) \/
  exists body, serialize c p = Ok body /\ Z.of_nat (length body) <= maxFrameBody /\
    accounts c body (st_attempts st) (st_attempts st') r.
Proof.
  unfold Send. destruct ctx_nil. { left. split; [done|]. by eexists. }
  unfold bind at 1. unfold react at 1. destruct (env_select (st_world st)) as [w outcome] eqn:Hs.
  set (st0 := mkState w _ _ _). assert (Q0 : st_attempts st = st_attempts st0) by done.
  destruct outcome.
  { left. split; [done|]. by eexists. }
  { pose proof (operationError_done st L w Hs) as [e He]. fold st0 in He.
    pose proof (operationError_spec st0) as H1. destruct (operationError st0) as [st1 r].
    simpl in He. destruct H1 as [Q1 U1]. left. split; [congruence|]. exists e. by auto. }
  unfold bind at 1. pose proof (operationError_spec st0) as H1.
  destruct (operationError st0) as [st1 [e1|]]; destruct H1 as [Q1 U1].
  { left. split; [simpl; congruence|]. exists e1. by auto. }
  destruct (serialize c p) as [body|e] eqn:Hb.
  2: { left. split; [simpl; congruence|]. exists e. split; [done|]. unfold serialize in Hb.
       repeat (split_match_in Hb; simplify_eq; try done). }
  match goal with |- let '(_, _) := ?x in _ =>
    assert (HA : let '(st', r) := x in accounts c body (st_attempts st) (st_attempts st') r);
      [|destruct x as [st' r]; right; exists body; eauto using serialize_bound]
  end.
  unfold bind at 1. assert (Hq : quiet currentSession) by (unfold currentSession; be_quiet).
  pose proof (Hq st1) as Q2.
  rewrite Q0, <- Q1, <- Q2. destruct (currentSession st1) as [st2 [s|]]; [|apply try_servers_spec].
  cbn [fst]. unfold bind at 1. pose proof (sendFrame_spec c s body st2) as H3.
  destruct (sendFrame c s body st2) as [st3 [attempted [e|]]]; destruct H3 as [U3 A3].
  - unfold bind. pose proof (quiet_dropSession s st3) as Q4.
    destruct (dropSession s st3) as [st4 []]. simpl in Q4. destruct attempted.
    + destruct A3 as (werr & A3 & _). simpl. exists s, werr. congruence.
    + destruct A3 as [A3 _]. rewrite <- A3, <- Q4. apply try_servers_spec.
  - destruct attempted; [|by destruct A3].
    destruct A3 as (werr & A3 & Hn). simpl. exists s. by rewrite A3, Hn.
Qed.
End client.

(** A network whose first server refuses the connection *)
Definition example_environment : Environment Z := {|
  env_select w := (w, gate_taken);
  env_closeErr w := (w, false);
  env_ctxErr w := (w, None);
  env_deadline_passed w := (w, false);
  env_interfere w := (w, nothing);
  env_dial server w := (w + 1, if w =? 0 then inr 111 else inl w);
  env_SetDeadline _ w := (w, None);
  env_handshake conn w := (w, inl (99, example_block));
  env_isClosed _ w := (w, false);
  env_close _ w := w;
  env_write _ w data := (w, Z.of_nat (length data), None)
|}.

Definition example_pack_bytes : PackBytes unit := fun _ _ _ => Some (lit "tagcount").
Definition example_client : Client := mkClient example_keys ["a:6600"; "b:6600"].

Lemma example_laws : @EnvironmentLaws Z example_environment.
Proof. by split. Qed.

(** ** Theorems *)

(** C7. A data frame is never written twice for one Send: whatever the
    network, the clock, the context and the other goroutines do, a nil result
    means exactly one frame, the encrypted pack on one session, was written
    completely; an ambiguous-delivery error means exactly one write of it was
    attempted; and any other error means none was. *)
Theorem send_at_most_once {W P} {E : Environment W} {PB : PackBytes P} (L : EnvironmentLaws W)
    (c : Client) ctx_nil p (st : State W) :
  let '(st', r) := @Send W P E PB c ctx_nil p st in
  match r with
  | None =>
      exists body s, serialize c p = Ok body /\ Z.of_nat (length body) <= maxFrameBody /\
        st_attempts st' = st_attempts st ++ [mkAttempt s (data_frame c s body) None]
  | Some (ErrAmbiguousDelivery _) =>
      exists body s err, serialize c p = Ok body /\
        st_attempts st' = st_attempts st ++ [mkAttempt s (data_frame c s body) err]
  | Some _ => st_attempts st' = st_attempts st
  end.
Proof.
  pose proof (Send_accounts c ctx_nil p st L) as H.
  destruct (Send c ctx_nil p st) as [st' r].
  destruct H as [[<- (e & -> & He)]|(body & Hb & Hl & H)]; [by destruct e|].
  destruct r as [e|]; [destruct e; try done|].
  - destruct H as (s & err & H). by exists body, s, err.
  - destruct H as [s H]. by exists body, s.
Qed.

Lemma send_at_most_once_witness :
  let '(st', r) := @Send Z unit example_environment example_pack_bytes example_client false
    (Some (mkPack false false 0 0 tt)) (mkState 0 None false []) in
  r = None /\ length (st_attempts st') = 1%nat.
Proof.
  pose proof (@send_at_most_once Z unit example_environment example_pack_bytes example_laws
    example_client false (Some (mkPack false false 0 0 tt)) (mkState 0 None false [])) as H.
  destruct (@Send _ _ _ _ _ _ _ _) as [st' r] eqn:ES.
  assert (Er : r = None) by (apply (f_equal snd) in ES; vm_compute in ES; congruence).
  split; [exact Er|]. rewrite Er in H. destruct H as (body & s & _ & _ & H).
  rewrite H. reflexivity.
Defined.
