(* ===== verification/WhatapSession.v ===== *)
(** * internal/whatap: sessions, readers and Close

    The life of the connections of a client (client.go): connect, sendFrame
    and dropSession of the Send that holds the gate, the goroutine of receive
    of every session, the callback of watchConnection, and Close. A step is
    what one of them does between two points where others can act: a critical
    section of the mutex, the close of a session, an operation of the network.
    Values are left aside: [WhatapClient] has what is written, [WhatapWire]
    what is read. *)

From S2P Require Import Prelude WhatapClient.
From stdpp Require Import relations.

#[local] Open Scope Z_scope.

(** ** Definitions *)

(** Where dropSession returns to: the loop over the servers, or the end of
    Send *)
Inductive after_drop := then_loop | then_return.

(** Where the Send that holds the gate is; a session is a number. *)
Inductive send_pc :=
| S_idle (* no Send holds the gate *)
| S_start (* before currentSession *)
| S_using (s : nat) (* in sendFrame on the current session *)
| S_loop (* before an iteration over the servers *)
| S_dialing
| S_dialed (s : nat) (* connect, before the first critical section *)
| S_refused (s : nat) (* the client is closed: before s.close() *)
| S_shaking (s : nat) (* registered, up to the second critical section *)
| S_sending (s : nat) (* in sendFrame on the new session *)
| S_dropping (s : nat) (k : after_drop) (* dropSession, before s.close() *)
| S_unsetting (s : nat) (k : after_drop). (* dropSession, before its critical section *)

(** Where a reader is: in its loop, or in its deferred calls *)
Inductive reader_pc := R_reading | R_dropping | R_unsetting | R_leaving.

(** Where the first call of Close is *)
Inductive close_pc :=
| C_none
| C_closing (s : option nat) (* before the close of the session it took *)
| C_waiting
| C_done.

#[export] Instance after_drop_eq_dec : EqDecision after_drop.
Proof. solve_decision. Defined.

#[export] Instance send_pc_eq_dec : EqDecision send_pc.
Proof. solve_decision. Defined.

#[export] Instance close_pc_eq_dec : EqDecision close_pc.
Proof. solve_decision. Defined.

Record life := mkLife {
  lf_dialed : gset nat; (* the sessions that ever had a connection *)
  lf_closes : list nat; (* the calls of conn.Close *)
  lf_session : option nat; (* c.session *)
  lf_closed : bool; (* c.closed, and closeCtx is cancelled *)
  lf_readers : gmap nat reader_pc;
  lf_count : Z; (* the WaitGroup *)
  lf_sender : send_pc;
  lf_close : close_pc
}.

Definition is_closed (s : nat) (l : life) : bool := bool_decide (s ∈ lf_closes l).

(** session.close: the Once closes the channel and the connection the first
    time. *)
Definition close_session (s : nat) (l : life) : life :=
  mkLife (lf_dialed l) (if is_closed s l then lf_closes l else lf_closes l ++ [s]) (lf_session l) (lf_closed l)
    (lf_readers l) (lf_count l) (lf_sender l) (lf_close l).

(** The critical section of dropSession *)
Definition unset_session (s : nat) (l : life) : life :=
  mkLife (lf_dialed l) (lf_closes l) (if bool_decide (lf_session l = Some s) then None else lf_session l) (lf_closed l)
    (lf_readers l) (lf_count l) (lf_sender l) (lf_close l).

Definition set_sender (pc : send_pc) (l : life) : life :=
  mkLife (lf_dialed l) (lf_closes l) (lf_session l) (lf_closed l) (lf_readers l) (lf_count l) pc (lf_close l).

Definition set_close (pc : close_pc) (l : life) : life :=
  mkLife (lf_dialed l) (lf_closes l) (lf_session l) (lf_closed l) (lf_readers l) (lf_count l) (lf_sender l) pc.

Definition set_reader (s : nat) (pc : reader_pc) (l : life) : life :=
  mkLife (lf_dialed l) (lf_closes l) (lf_session l) (lf_closed l) (<[s := pc]> (lf_readers l)) (lf_count l)
    (lf_sender l) (lf_close l).

(** The dial of a connection *)
Definition dialed (s : nat) (l : life) : life :=
  mkLife ({[s]} ∪ lf_dialed l) (lf_closes l) (lf_session l) (lf_closed l) (lf_readers l) (lf_count l) (lf_sender l)
    (lf_close l).

(** connect: c.session = s *)
Definition register (s : nat) (l : life) : life :=
  mkLife (lf_dialed l) (lf_closes l) (Some s) (lf_closed l) (lf_readers l) (lf_count l) (lf_sender l) (lf_close l).

(** connect: readers.Add(1) and go receive *)
Definition spawn_reader (s : nat) (l : life) : life :=
  mkLife (lf_dialed l) (lf_closes l) (lf_session l) (lf_closed l) (<[s := R_reading]> (lf_readers l)) (lf_count l + 1)
    (lf_sender l) (lf_close l).

(** The deferred readers.Done() *)
Definition reader_done (s : nat) (l : life) : life :=
  mkLife (lf_dialed l) (lf_closes l) (lf_session l) (lf_closed l) (delete s (lf_readers l)) (lf_count l - 1)
    (lf_sender l) (lf_close l).

(** The critical section of Close *)
Definition begin_close (l : life) : life :=
  mkLife (lf_dialed l) (lf_closes l) None true (lf_readers l) (lf_count l) (lf_sender l) (C_closing (lf_session l)).

Definition return_to (k : after_drop) : send_pc := match k with then_loop => S_loop | then_return => S_idle end.

(** The session whose connection the context of a Send is watched for *)
Definition watched (pc : send_pc) : option nat :=
  match pc with S_using s | S_shaking s | S_sending s => Some s | _ => None end.

(** A Send takes the gate; the only step that is not the end of something *)
Inductive send_begins (l : life) : life -> Prop :=
| step_begin : lf_sender l = S_idle -> send_begins l (set_sender S_start l).

(** The steps of the Send that holds the gate. The outcomes of the network, of
    the context and of serialize are left open; operationError is an error
    once closeCtx is cancelled. *)
Inductive send_step (l : life) : life -> Prop :=
| step_start_error : lf_sender l = S_start -> send_step l (set_sender S_idle l)
| step_current s : lf_sender l = S_start -> lf_session l = Some s -> send_step l (set_sender (S_using s) l)
| step_no_current : lf_sender l = S_start -> lf_session l = None -> send_step l (set_sender S_loop l)
| step_sent s : lf_sender l = S_using s \/ lf_sender l = S_sending s -> send_step l (set_sender S_idle l)
| step_send_error s k : lf_sender l = S_using s \/ lf_sender l = S_sending s -> send_step l (set_sender (S_dropping s k) l)
| step_loop_ends : lf_sender l = S_loop -> send_step l (set_sender S_idle l)
| step_dial : lf_sender l = S_loop -> lf_closed l = false -> send_step l (set_sender S_dialing l)
| step_dial_error : lf_sender l = S_dialing -> send_step l (set_sender S_loop l)
| step_dialed s : lf_sender l = S_dialing -> s ∉ lf_dialed l -> send_step l (set_sender (S_dialed s) (dialed s l))
| step_refuse s : lf_sender l = S_dialed s -> lf_closed l = true -> send_step l (set_sender (S_refused s) l)
| step_register s : lf_sender l = S_dialed s -> lf_closed l = false -> send_step l (set_sender (S_shaking s) (register s l))
| step_refused s : lf_sender l = S_refused s -> send_step l (set_sender S_loop (close_session s l))
| step_shake_error s : lf_sender l = S_shaking s -> send_step l (set_sender (S_dropping s then_loop) l)
| step_connected s : lf_sender l = S_shaking s -> lf_closed l = false -> is_closed s l = false ->
    send_step l (set_sender (S_sending s) (spawn_reader s l))
| step_drop s k : lf_sender l = S_dropping s k -> send_step l (set_sender (S_unsetting s k) (close_session s l))
| step_unset s k : lf_sender l = S_unsetting s k -> send_step l (set_sender (return_to k) (unset_session s l)).

(** The callback of watchConnection: the context of the Send is done. *)
Inductive watch_step (l : life) : life -> Prop :=
| step_watch s : watched (lf_sender l) = Some s -> is_closed s l = false -> watch_step l (close_session s l).

(** The steps of the readers: a frame that is read changes nothing here. *)
Inductive reader_step (l : life) : life -> Prop :=
| step_read_error s : lf_readers l !! s = Some R_reading -> reader_step l (set_reader s R_dropping l)
| step_reader_close s : lf_readers l !! s = Some R_dropping ->
    reader_step l (set_reader s R_unsetting (close_session s l))
| step_reader_unset s : lf_readers l !! s = Some R_unsetting -> reader_step l (set_reader s R_leaving (unset_session s l))
| step_reader_done s : lf_readers l !! s = Some R_leaving -> reader_step l (reader_done s l).

(** The steps of Close *)
Inductive close_step (l : life) : life -> Prop :=
| step_close : lf_close l = C_none -> close_step l (begin_close l)
| step_close_session s : lf_close l = C_closing (Some s) -> close_step l (set_close C_waiting (close_session s l))
| step_close_nothing : lf_close l = C_closing None -> close_step l (set_close C_waiting l)
| step_waited : lf_close l = C_waiting -> lf_count l = 0 -> close_step l (set_close C_done l).

(** What happens without a new Send, and everything *)
Inductive step (l l' : life) : Prop :=
| by_send : send_step l l' -> step l l'
| by_watch : watch_step l l' -> step l l'
| by_reader : reader_step l l' -> step l l'
| by_close : close_step l l' -> step l l'.

Inductive any_step (l l' : life) : Prop :=
| any_begin : send_begins l l' -> any_step l l'
| any_other : step l l' -> any_step l l'.

(** The steps that do not wait for a peer: those of Close, and those of a
    Send and of a reader that are not an operation on a connection still
    open. *)
Inductive prompt_step (l l' : life) : Prop :=
| prompt_send : send_step l l' -> (forall s, watched (lf_sender l) = Some s -> is_closed s l = true) -> prompt_step l l'
| prompt_reader s : reader_step l l' -> lf_readers l' !! s <> lf_readers l !! s ->
    (lf_readers l !! s = Some R_reading -> is_closed s l = true) -> prompt_step l l'
| prompt_close : close_step l l' -> prompt_step l l'.

(** A new client *)
Definition new_life : life := mkLife ∅ [] None false ∅ 0 S_idle C_none.

Definition reachable (l : life) : Prop := rtc any_step new_life l.

(** *** Specification *)

(** The connections that are open *)
Definition is_open (l : life) (s : nat) : Prop := s ∈ lf_dialed l /\ s ∉ lf_closes l.

(** Who will close an open connection *)
Definition owned (l : life) (s : nat) : Prop :=
  lf_session l = Some s \/ lf_close l = C_closing (Some s) \/ lf_sender l = S_dialed s \/ lf_sender l = S_refused s.

(** A connection only the Send that dialed it knows *)
Definition unregistered (l : life) (s : nat) : Prop :=
  is_open l s /\ lf_readers l !! s = None /\ lf_close l <> C_closing (Some s).

(** What the point a Send is at says of its session *)
Definition sender_ok (l : life) : Prop :=
  match lf_sender l with
  | S_idle | S_start => True
  | S_loop | S_dialing => lf_session l = None
  | S_dialed s => lf_session l = None /\ unregistered l s
  | S_refused s => lf_session l = None /\ unregistered l s /\ lf_closed l = true
  | S_shaking s => (lf_session l = Some s \/ lf_session l = None) /\ s ∈ lf_dialed l /\ lf_readers l !! s = None
  | S_using s | S_sending s | S_dropping s _ => (lf_session l = Some s \/ lf_session l = None) /\ s ∈ lf_dialed l
  | S_unsetting s _ => (lf_session l = Some s \/ lf_session l = None) /\ s ∈ lf_closes l
  end.

Definition reader_ok (l : life) (s : nat) (pc : reader_pc) : Prop :=
  s ∈ lf_dialed l /\ match pc with R_unsetting | R_leaving => s ∈ lf_closes l | _ => True end.

Record inv (l : life) : Prop := {
  inv_closes : NoDup (lf_closes l) /\ (forall s, s ∈ lf_closes l -> s ∈ lf_dialed l);
  inv_open : forall s, is_open l s -> owned l s;
  inv_session : forall s, lf_session l = Some s -> s ∈ lf_dialed l;
  inv_taken : forall s, lf_close l = C_closing (Some s) -> s ∈ lf_dialed l;
  inv_closed : lf_closed l = negb (match lf_close l with C_none => true | _ => false end);
  inv_no_session : lf_closed l = true -> lf_session l = None;
  inv_count : lf_count l = Z.of_nat (size (lf_readers l));
  inv_readers : forall s pc, lf_readers l !! s = Some pc -> reader_ok l s pc;
  inv_sender : sender_ok l;
  inv_done : lf_close l = C_done -> lf_readers l = ∅
}.

(** ** Lemmas *)

Lemma elem_of_close s s' l : s' ∈ lf_closes (close_session s l) <-> s' ∈ lf_closes l \/ s' = s.
Proof.
  unfold close_session, is_closed; cbn. case_bool_decide; [naive_solver|].
  rewrite elem_of_app, list_elem_of_singleton. done.
Qed.

Lemma open_close s s' l : is_open (close_session s l) s' <-> is_open l s' /\ s' <> s.
Proof. unfold is_open. rewrite elem_of_close. cbn. tauto. Qed.

Lemma unregistered_close s s' l : s' <> s -> unregistered l s' -> unregistered (close_session s l) s'.
Proof. unfold unregistered. rewrite open_close. cbn. tauto. Qed.

(** Closing a session another part knows keeps the invariant. *)
Lemma inv_close_session s l :
  inv l -> s ∈ lf_dialed l -> (forall s', lf_sender l = S_dialed s' \/ lf_sender l = S_refused s' -> s' <> s) ->
  inv (close_session s l).
Proof.
  intros [[Hnd Hsub] Hopen Hse Ht Hc Hns Hcount Hr Hsend Hdone] Hs Hfree. split; try done.
  - split.
    + unfold close_session, is_closed; cbn. case_bool_decide; [done|]. apply NoDup_app. split_and!; [done| |apply NoDup_singleton].
      intros x Hx ->%list_elem_of_singleton. done.
    + intros s' [Hin| ->]%elem_of_close; [by apply Hsub|done].
  - intros s' [Ho _]%open_close. by apply Hopen.
  - intros s' pc Hpc. destruct (Hr s' pc Hpc) as [H1 H2]. split; [done|]. destruct pc; try done; apply elem_of_close; by left.
  - unfold sender_ok in *. cbn [lf_sender close_session]. destruct (lf_sender l) eqn:E; try done.
    + destruct Hsend as [? Hu]. split; [done|]. apply unregistered_close; [|done]. apply Hfree. by left.
    + destruct Hsend as (? & Hu & ?). split_and!; [done| |done]. apply unregistered_close; [|done]. apply Hfree. by right.
    + destruct Hsend as [? Hin]. split; [done|]. apply elem_of_close. by left.
Qed.

(** Moving a Send keeps the invariant when its new point does. *)
Lemma inv_set_sender pc l :
  inv l -> (forall s, lf_sender l <> S_dialed s) -> (forall s, lf_sender l <> S_refused s) ->
  sender_ok (set_sender pc l) -> inv (set_sender pc l).
Proof.
  intros [Hn Hopen Hse Ht Hc Hns Hcount Hr Hsend Hdone] H1 H2 Hs. split; try done.
  intros s Ho. destruct (Hopen s Ho) as [?|[?|[?|?]]]; [by left|by right; left|by destruct (H1 s)|by destruct (H2 s)].
Qed.

(** Dropping the session keeps it once it is closed. *)
Lemma inv_unset_session s l :
  inv l -> s ∈ lf_closes l -> inv (unset_session s l).
Proof.
  intros [Hn Hopen Hse Ht Hc Hns Hcount Hr Hsend Hdone] Hs. split; try done.
  - intros s' Ho. destruct (Hopen s' Ho) as [E|?]; [|by right].
    left. cbn. rewrite bool_decide_false; [done|]. rewrite E. intros [= ->]. by destruct Ho.
  - intros s'. cbn. case_bool_decide; [done|apply Hse].
  - intros E. cbn. case_bool_decide; [done|by apply Hns].
  - unfold sender_ok, unregistered in *. cbn. destruct (lf_sender l); try done; case_bool_decide; naive_solver.
Qed.

(** A reader moves on. *)
Lemma inv_set_reader s pc pc' l :
  inv l -> lf_readers l !! s = Some pc -> reader_ok l s pc' -> inv (set_reader s pc' l).
Proof.
  intros [Hn Hopen Hse Ht Hc Hns Hcount Hr Hsend Hdone] Hpc Hok. split; try done.
  - cbn. rewrite Hcount. by rewrite map_size_insert_Some by eauto.
  - intros s' q. cbn. rewrite lookup_insert_Some. intros [[<- <-]|[_ Hq]]; [done|by apply Hr].
  - unfold sender_ok, unregistered in *. cbn. destruct (lf_sender l) as [| |?| | |s'|s'|s'|?|? ?|? ?]; try done;
      (assert (s <> s') by (intros ->; naive_solver)); rewrite lookup_insert_ne by done; done.
  - intros E. exfalso. apply Hdone in E. by rewrite E in Hpc.
Qed.

Lemma send_begins_inv l l' : inv l -> send_begins l l' -> inv l'.
Proof. intros I []. apply inv_set_sender; [done|congruence..|done]. Qed.

Lemma inv_new : inv new_life.
Proof.
  split; try done; cbn.
  - split; [apply NoDup_nil_2|by intros s ?%elem_of_nil].
  - intros s [H _]. by apply not_elem_of_empty in H.
Qed.

(** A connection that appears is fresh. *)
Lemma inv_dialed s l : inv l -> lf_sender l = S_dialing -> s ∉ lf_dialed l -> inv (set_sender (S_dialed s) (dialed s l)).
Proof.
  intros [[Hnd Hsub] Hopen Hse Ht Hc Hns Hcount Hr Hsend Hdone] E Hs. unfold sender_ok in Hsend. rewrite E in Hsend.
  split; try done; cbn.
  - split; [done|]. intros s' Hin. apply elem_of_union. right. by apply Hsub.
  - intros s' [Hd Ho]. cbn in Hd, Ho. unfold owned; cbn. apply elem_of_union in Hd as [->%elem_of_singleton|Hd].
    + by right; right; left.
    + destruct (Hopen s') as [?|[?|[?|?]]]; [done|congruence|by right; left|congruence|congruence].
  - intros s' Hss. rewrite Hsend in Hss. done.
  - intros s' Hcl. apply elem_of_union. right. by apply Ht.
  - intros s' pc Hpc. destruct (Hr s' pc Hpc) as [H1 H2]. split; [|done]. cbn. set_solver.
  - unfold sender_ok, unregistered, is_open; cbn. split_and!; [done|set_solver| | |].
    + intros Hin. by apply Hs, Hsub.
    + destruct (lf_readers l !! s) as [pc|] eqn:Er; [|done]. by destruct (Hr s pc Er).
    + intros Hcl. by apply Hs, Ht.
Qed.

Lemma inv_register s l :
  inv l -> lf_sender l = S_dialed s -> lf_closed l = false -> inv (set_sender (S_shaking s) (register s l)).
Proof.
  intros [[Hnd Hsub] Hopen Hse Ht Hc Hns Hcount Hr Hsend Hdone] E Hcl. unfold sender_ok in Hsend. rewrite E in Hsend.
  destruct Hsend as (Hnone & (Ho & Hnr & Hncl)). split; try done; cbn.
  - intros s' Hop. unfold owned; cbn. destruct (Hopen s' Hop) as [?|[Hc'|[?|?]]]; [congruence| |left; congruence|congruence].
    by rewrite Hc' in Hc; rewrite Hcl in Hc.
  - intros s' [= <-]. apply Ho.
  - congruence.
  - unfold sender_ok; cbn. split_and!; [by left|apply Ho|done].
Qed.

Lemma inv_connected s l :
  inv l -> lf_sender l = S_shaking s -> lf_closed l = false -> inv (set_sender (S_sending s) (spawn_reader s l)).
Proof.
  intros [[Hnd Hsub] Hopen Hse Ht Hc Hns Hcount Hr Hsend Hdone] E Hcl. unfold sender_ok in Hsend. rewrite E in Hsend.
  destruct Hsend as (Hse' & Hd & Hnr). split; try done; cbn.
  - intros s' Hop. unfold owned; cbn. destruct (Hopen s' Hop) as [?|[?|[?|?]]]; [by left|by right; left|congruence|congruence].
  - rewrite Hcount, map_size_insert_None by done. lia.
  - intros s' pc. rewrite lookup_insert_Some. intros [[<- <-]|[_ Hq]]; [by split|by apply Hr].
  - intros Hdn. rewrite Hdn in Hc. cbn in Hc. congruence.
Qed.

Lemma inv_refused s l : inv l -> lf_sender l = S_refused s -> inv (set_sender S_loop (close_session s l)).
Proof.
  intros [[Hnd Hsub] Hopen Hse Ht Hc Hns Hcount Hr Hsend Hdone] E. unfold sender_ok in Hsend. rewrite E in Hsend.
  destruct Hsend as (Hnone & (Ho & Hnr & Hncl) & Hcl). split; try done.
  - split.
    + cbn. unfold is_closed. case_bool_decide; [done|]. apply NoDup_app. split_and!; [done| |apply NoDup_singleton].
      intros x Hx ->%list_elem_of_singleton. done.
    + intros s' [Hin| ->]%elem_of_close; [by apply Hsub|apply Ho].
  - intros s' Hop. change (is_open (close_session s l) s') in Hop. apply open_close in Hop as [Hop Hne]. destruct (Hopen s' Hop) as [?|[?|[?|?]]]; [by left|by right; left|congruence|congruence].
  - intros s' pc Hpc. destruct (Hr s' pc Hpc) as [H1 H2]. split; [done|]. destruct pc; try done; apply elem_of_close; by left.
Qed.

Lemma send_step_inv l l' : inv l -> send_step l l' -> inv l'.
Proof.
  intros I Hstep. pose proof (inv_sender l I) as Hs. unfold sender_ok in Hs.
  destruct Hstep as [E|s E Es|E Es|s E|s k E|E|E Ec|E|s E Hf|s E Ec|s E Ec|s E|s E|s E Ec Eo|s k E|s k E].
  - apply inv_set_sender; [done|congruence..|done].
  - apply inv_set_sender; [done|congruence..|]. split; [by left|by apply (inv_session l I)].
  - apply inv_set_sender; [done|congruence..|done].
  - apply inv_set_sender; [done|destruct E; congruence..|done].
  - apply inv_set_sender; [done|destruct E; congruence..|]. unfold sender_ok; cbn. by destruct E as [E|E]; rewrite E in Hs.
  - apply inv_set_sender; [done|congruence..|done].
  - rewrite E in Hs. apply inv_set_sender; [done|congruence..|done].
  - rewrite E in Hs. apply inv_set_sender; [done|congruence..|done].
  - by apply inv_dialed.
  - rewrite E in Hs. destruct Hs as [Hn Hu]. destruct I as [I1 Hopen I3 I4 I5 I6 I7 I8 I9 I10]. split; try done.
    intros s' Ho. unfold owned; cbn. destruct (Hopen s' Ho) as [?|[?|[?|?]]]; [by left|by right; left| |congruence].
    right; right; right. congruence.
  - by apply inv_register.
  - by apply inv_refused.
  - rewrite E in Hs. apply inv_set_sender; [done|congruence..|]. unfold sender_ok; cbn. tauto.
  - by apply inv_connected.
  - rewrite E in Hs. destruct Hs as [Hse Hd].
    apply inv_set_sender; [|cbn; congruence..|].
    + apply inv_close_session; [done|done|]. rewrite E. intros s' [|]; done.
    + split; [done|]. apply elem_of_close. by right.
  - rewrite E in Hs. destruct Hs as [Hse Hc].
    apply inv_set_sender; [by apply inv_unset_session|cbn; congruence..|].
    destruct k; [|done]. unfold sender_ok; cbn. case_bool_decide; [done|]. by destruct Hse.
Qed.

(** A session that has a reader, or that a Send writes on, is known to others
    than the Send that dialed it. *)
Lemma known_session s l :
  inv l -> is_Some (lf_readers l !! s) \/ watched (lf_sender l) = Some s \/ lf_close l = C_closing (Some s) ->
  s ∈ lf_dialed l /\ forall s', lf_sender l = S_dialed s' \/ lf_sender l = S_refused s' -> s' <> s.
Proof.
  intros I H. pose proof (inv_sender l I) as Hs. unfold sender_ok, unregistered in Hs. split.
  - destruct H as [[pc H]|[H|H]]; [by apply (inv_readers l I) in H as [? _]| |by apply (inv_taken l I)].
    destruct (lf_sender l); try done; injection H as ->; naive_solver.
  - intros s' E ->. destruct H as [[pc H]|[H|H]]; destruct E as [E|E]; rewrite E in *; naive_solver.
Qed.

Lemma watch_step_inv l l' : inv l -> watch_step l l' -> inv l'.
Proof. intros I [s E _]. destruct (known_session s l I) as [Hd Hf]; [auto|]. by apply inv_close_session. Qed.

Lemma inv_reader_done s l : inv l -> lf_readers l !! s = Some R_leaving -> inv (reader_done s l).
Proof.
  intros [Hn Hopen Hse Ht Hc Hns Hcount Hr Hsend Hdone] Hpc. split; try done.
  - cbn. rewrite Hcount, map_size_delete_Some by eauto.
    assert (size (lf_readers l) <> 0%nat) by (intros E; apply map_size_empty_inv in E; by rewrite E in Hpc). lia.
  - intros s' q. cbn. rewrite lookup_delete_Some. intros [_ Hq]. by apply Hr.
  - unfold sender_ok, unregistered in *. cbn. destruct (lf_sender l); try done; rewrite lookup_delete_None; tauto.
  - intros E. cbn. apply Hdone in E. rewrite E. apply delete_empty.
Qed.

Lemma reader_step_inv l l' : inv l -> reader_step l l' -> inv l'.
Proof.
  intros I [s E|s E|s E|s E]; pose proof (inv_readers l I s _ E) as [Hd Hcl].
  - by eapply inv_set_reader.
  - destruct (known_session s l I) as [_ Hf]; [by eauto|].
    eapply (inv_set_reader s R_dropping); [by apply inv_close_session|exact E|].
    split; [done|]. apply elem_of_close. by right.
  - eapply (inv_set_reader s R_unsetting); [by apply inv_unset_session|exact E|]. by split.
  - by apply inv_reader_done.
Qed.

Lemma inv_begin_close l : inv l -> lf_close l = C_none -> inv (begin_close l).
Proof.
  intros [Hn Hopen Hse Ht Hc Hns Hcount Hr Hsend Hdone] E. split; try done; cbn.
  - intros s Ho. unfold owned; cbn. destruct (Hopen s Ho) as [->|[?|?]]; [by right; left|congruence|by right; right].
  - intros s [= Hs]. by apply Hse.
  - unfold sender_ok, unregistered in *. cbn. destruct (lf_sender l); try done; naive_solver.
Qed.

Lemma inv_set_close pc l :
  inv l -> (forall s, lf_close l = C_closing (Some s) -> s ∈ lf_closes l) -> lf_close l <> C_none ->
  pc = C_waiting \/ pc = C_done /\ lf_count l = 0 -> inv (set_close pc l).
Proof.
  intros [Hn Hopen Hse Ht Hc Hns Hcount Hr Hsend Hdone] H1 H2 H3. split; try done; cbn.
  - intros s Ho. unfold owned; cbn. destruct (Hopen s Ho) as [?|[E|?]]; [by left| |by right; right].
    exfalso. apply Ho, H1, E.
  - intros s ->. destruct H3 as [|[]]; done.
  - rewrite Hc. destruct (lf_close l), H3 as [-> | [-> _]]; done.
  - unfold sender_ok, unregistered in *. cbn. destruct (lf_sender l); try done; destruct H3 as [-> | [-> _]]; naive_solver.
  - intros ->. destruct H3 as [|[_ E]]; [done|]. apply map_size_empty_inv. lia.
Qed.

Lemma life_close_step_inv l l' : inv l -> close_step l l' -> inv l'.
Proof.
  intros I [E|s E|E|E E0].
  - by apply inv_begin_close.
  - destruct (known_session s l I) as [Hd Hf]; [auto|].
    apply inv_set_close; [by apply inv_close_session| |cbn; congruence|by left].
    intros s' E'. cbn in E'. apply elem_of_close. right. congruence.
  - apply inv_set_close; [done|congruence|congruence|by left].
  - apply inv_set_close; [done|congruence|congruence|by right].
Qed.

Lemma life_step_inv l l' : inv l -> step l l' -> inv l'.
Proof. intros I [H|H|H|H]; eauto using send_step_inv, watch_step_inv, reader_step_inv, life_close_step_inv. Qed.

Lemma any_step_inv l l' : inv l -> any_step l l' -> inv l'.
Proof. intros I [H|H]; eauto using send_begins_inv, life_step_inv. Qed.

Lemma life_reachable_inv l : reachable l -> inv l.
Proof. revert l. apply (rtc_ind_r inv); [apply inv_new|]. eauto using any_step_inv. Qed.

(** *** Termination *)

(** How many steps are left to each part once the client is closed *)
Definition send_left (pc : send_pc) : nat :=
  match pc with
  | S_idle => 0
  | S_loop => 1
  | S_refused _ => 2
  | S_dialed _ => 3
  | S_dialing => 4
  | S_unsetting _ _ => 2
  | S_dropping _ _ => 3
  | S_sending _ | S_shaking _ | S_using _ => 5
  | S_start => 7
  end.

Definition reader_left (pc : reader_pc) : nat :=
  match pc with R_reading => 4 | R_dropping => 3 | R_unsetting => 2 | R_leaving => 1 end.

Definition close_left (pc : close_pc) : nat :=
  match pc with C_none => 3 | C_closing _ => 2 | C_waiting => 1 | C_done => 0 end.

(** The callback closes the session watched once. *)
Definition watch_left (l : life) : nat :=
  match watched (lf_sender l) with Some s => if is_closed s l then 0 else 1 | None => 0 end.

Definition readers_left (m : gmap nat reader_pc) : nat := map_fold (fun _ pc n => (reader_left pc + n)%nat) 0%nat m.

Definition steps_left (l : life) : nat :=
  send_left (lf_sender l) + watch_left l + readers_left (lf_readers l) + close_left (lf_close l).

Lemma readers_left_delete m s pc : m !! s = Some pc -> readers_left m = (reader_left pc + readers_left (delete s m))%nat.
Proof. intros H. unfold readers_left. rewrite (map_fold_delete_L _ _ s pc); [done|intros; lia|done]. Qed.

Lemma readers_left_insert m s pc pc' :
  m !! s = Some pc -> (readers_left (<[s := pc']> m) + reader_left pc = readers_left m + reader_left pc')%nat.
Proof.
  intros H. rewrite (readers_left_delete m s pc H), (readers_left_delete (<[s := pc']> m) s pc') by by rewrite lookup_insert_eq.
  rewrite delete_insert_eq. lia.
Qed.

(** Closing a session takes from what is left to the callback. *)
Lemma watch_left_close s l : (watch_left (close_session s l) <= watch_left l)%nat.
Proof.
  unfold watch_left. cbn [lf_sender close_session]. destruct (watched (lf_sender l)) as [s'|]; [|done]. unfold is_closed.
  case_bool_decide as H1; case_bool_decide as H2; try lia. exfalso. apply H1, elem_of_close. by left.
Qed.

Lemma watch_left_bound l : (watch_left l <= 1)%nat.
Proof. unfold watch_left. destruct (watched _); [destruct (is_closed _ _)|]; lia. Qed.

Lemma send_step_left l l' :
  lf_closed l = true -> send_step l l' ->
  (steps_left l' < steps_left l)%nat /\ lf_closed l' = true.
Proof.
  intros Hc Hstep. unfold steps_left.
  destruct Hstep as [E|s E Es|E Es|s E|s k E|E|E Ec|E|s E Hf|s E Ec|s E Ec|s E|s E|s E Ec Eo|s k E|s k E];
    try congruence; split; try done;
    match goal with |- context [watch_left ?x] => pose proof (watch_left_bound x) as Hw end;
    cbn [lf_sender lf_readers lf_close set_sender dialed close_session unset_session send_left] in *;
    unfold watch_left in *; cbn [lf_sender lf_closes set_sender dialed close_session unset_session watched] in *;
    try (destruct E as [E|E]); try rewrite E; try destruct k; cbn [send_left watched return_to] in *; lia.
Qed.

Lemma step_left l l' :
  lf_closed l = true -> step l l' -> (steps_left l' < steps_left l)%nat /\ lf_closed l' = true.
Proof.
  intros Hc [H|[s E Ho]|[s E|s E|s E|s E]|[E|s E|E|E E0]].
  - by apply send_step_left.
  - split; [|done]. unfold steps_left. cbn [lf_sender lf_readers lf_close close_session].
    assert (watch_left (close_session s l) < watch_left l)%nat; [|lia].
    unfold watch_left. cbn [lf_sender close_session]. rewrite E, Ho. unfold is_closed.
    rewrite bool_decide_true; [lia|]. apply elem_of_close. by right.
  - split; [|done]. unfold steps_left. cbn [lf_sender lf_readers lf_close set_reader].
    pose proof (readers_left_insert _ s _ R_dropping E) as HH. cbn [reader_left] in HH.
    change (watch_left (set_reader s R_dropping l)) with (watch_left l). lia.
  - split; [|done]. unfold steps_left. cbn [lf_sender lf_readers lf_close set_reader close_session].
    pose proof (readers_left_insert _ s _ R_unsetting E) as HH. cbn [reader_left] in HH.
    change (watch_left (set_reader s R_unsetting (close_session s l))) with (watch_left (close_session s l)).
    pose proof (watch_left_close s l). lia.
  - split; [|done]. unfold steps_left. cbn [lf_sender lf_readers lf_close set_reader unset_session].
    pose proof (readers_left_insert _ s _ R_leaving E) as HH. cbn [reader_left] in HH.
    change (watch_left (set_reader s R_leaving (unset_session s l))) with (watch_left l). lia.
  - split; [|done]. unfold steps_left. cbn [lf_sender lf_readers lf_close reader_done].
    pose proof (readers_left_delete _ s _ E) as HH. cbn [reader_left] in HH.
    change (watch_left (reader_done s l)) with (watch_left l). lia.
  - split; [|done]. unfold steps_left. cbn [lf_sender lf_readers lf_close begin_close]. rewrite E. cbn [close_left].
    change (watch_left (begin_close l)) with (watch_left l). lia.
  - split; [|done]. unfold steps_left. cbn [lf_sender lf_readers lf_close set_close close_session]. rewrite E. cbn [close_left].
    change (watch_left (set_close C_waiting (close_session s l))) with (watch_left (close_session s l)).
    pose proof (watch_left_close s l). lia.
  - split; [|done]. unfold steps_left. cbn [lf_sender lf_readers lf_close set_close]. rewrite E. cbn [close_left].
    change (watch_left (set_close C_waiting l)) with (watch_left l). lia.
  - split; [|done]. unfold steps_left. cbn [lf_sender lf_readers lf_close set_close]. rewrite E. cbn [close_left].
    change (watch_left (set_close C_done l)) with (watch_left l). lia.
Qed.

(** A reader, a Send and a Close that are not at their end can move, the first
    two when the connection they use is closed. *)
Lemma reader_moves l s pc :
  lf_readers l !! s = Some pc -> (pc = R_reading -> is_closed s l = true) -> exists l', prompt_step l l'.
Proof.
  intros E Hcl. destruct pc; eexists; (eapply (prompt_reader _ _ s); [by constructor| |intros; naive_solver]);
    cbn; rewrite ?lookup_insert_eq, ?lookup_delete_eq, E; done.
Qed.

Lemma send_moves l :
  lf_closed l = true -> lf_sender l <> S_idle -> (forall s, watched (lf_sender l) = Some s -> is_closed s l = true) ->
  exists l', prompt_step l l'.
Proof.
  intros Hc Hs Hw. destruct (lf_sender l) as [| |s| | |s|s|s|s|s k|s k] eqn:E; [done|..]; eexists;
    (apply prompt_send; [|by rewrite E]).
  - by apply step_start_error.
  - apply (step_send_error _ s then_loop). by left.
  - by apply step_loop_ends.
  - by apply step_dial_error.
  - by apply step_refuse.
  - by apply step_refused.
  - by apply step_shake_error.
  - apply (step_send_error _ s then_loop). by right.
  - by apply step_drop.
  - by apply step_unset.
Qed.

(** Once Close has closed the session it took, a connection that is used is
    closed. *)
Lemma used_closed l s :
  inv l -> lf_closed l = true -> (forall o, lf_close l <> C_closing o) ->
  is_Some (lf_readers l !! s) \/ watched (lf_sender l) = Some s -> is_closed s l = true.
Proof.
  intros I Hc Hcl H. unfold is_closed. rewrite bool_decide_eq_true.
  destruct (decide (s ∈ lf_closes l)) as [|N]; [done|]. exfalso.
  destruct (known_session s l I) as [Hd Hf]; [tauto|].
  destruct (inv_open l I s (conj Hd N)) as [O|[O|O]]; [|by eapply Hcl|by eapply Hf].
  by rewrite (inv_no_session l I Hc) in O.
Qed.

Lemma close_moves l : inv l -> lf_closed l = true -> lf_close l <> C_done -> exists l', prompt_step l l'.
Proof.
  intros I Hc Hd. pose proof (inv_closed l I) as Hcl. destruct (lf_close l) as [|[s|]| |] eqn:E.
  - by rewrite Hc in Hcl.
  - eexists. apply prompt_close. by apply step_close_session.
  - eexists. apply prompt_close. by apply step_close_nothing.
  - destruct (decide (lf_readers l = ∅)) as [Em|[s [pc Hpc]]%map_choose].
    + eexists. apply prompt_close. apply step_waited; [done|]. by rewrite (inv_count l I), Em.
    + eapply reader_moves; [exact Hpc|]. intros _. apply used_closed; [done|done|congruence|left; by eexists].
  - done.
Qed.

Lemma rtc_step_inv l l' : inv l -> lf_closed l = true -> rtc step l l' -> inv l' /\ lf_closed l' = true.
Proof.
  intros I Hc H. induction H as [|l m l' Hs _ IH]; [done|].
  apply IH; [by eapply life_step_inv|by eapply (step_left l m)].
Qed.

(** *** What a Send sees of the others *)

(** The steps of the others *)
Inductive other_step (l l' : life) : Prop :=
| other_watch : watch_step l l' -> other_step l l'
| other_reader : reader_step l l' -> other_step l l'
| other_close : close_step l l' -> other_step l l'.

Definition interfered (i : interference) (x : option nat * bool) : option nat * bool :=
  match i with
  | nothing => x
  | receiver_drops => (None, x.2)
  | close_called => (None, true)
  end.

Definition guarded (l : life) : option nat * bool := (lf_session l, lf_closed l).

Lemma other_step_interferes l l' : other_step l l' -> exists i, guarded l' = interfered i (guarded l).
Proof.
  intros [[s _ _]|[s E|s E|s E|s E]|[E|s E|E|E E0]]; try (by exists nothing).
  - unfold guarded. cbn. case_bool_decide; [by exists receiver_drops|by exists nothing].
  - by exists close_called.
Qed.

Lemma interfered_twice i j x : exists k, interfered i (interfered j x) = interfered k x.
Proof. destruct i, j; (by exists nothing) || (by exists receiver_drops) || (by exists close_called). Qed.

(** However many steps the others take, the fields the mutex guards change as
    [WhatapClient.lock] lets its environment change them. *)
Lemma others_interfere l l' : rtc other_step l l' -> exists i, guarded l' = interfered i (guarded l).
Proof.
  intros H. induction H as [l|l m l' Hs _ [i IH]]; [by exists nothing|].
  apply other_step_interferes in Hs as [j Hj]. rewrite IH, Hj. apply interfered_twice.
Qed.

(** ** Theorems *)

(** C8. No connection of a client leaks. In every interleaving of Sends, their
    contexts, the readers and Close: a connection is closed at most once;
    every open one is the current session, or is being closed by Close, or is
    the one the Send has just dialed, so that but for Close there is at most
    one; a session that is read from and open is the current one or being
    closed; the WaitGroup counts the readers, and no reader is added once
    Close has begun; and once Close has returned no reader is left, there is
    no session, and an open connection is one that the Send in progress is
    about to refuse. *)
Theorem no_connection_leaks l :
  reachable l ->
  (NoDup (lf_closes l) /\ forall s, s ∈ lf_closes l -> s ∈ lf_dialed l) /\
  (forall s, is_open l s -> owned l s) /\
  (lf_close l = C_none -> forall s s', is_open l s -> is_open l s' -> s = s') /\
  (forall s, is_open l s -> is_Some (lf_readers l !! s) -> lf_session l = Some s \/ lf_close l = C_closing (Some s)) /\
  lf_count l = Z.of_nat (size (lf_readers l)) /\
  (forall l', any_step l l' -> lf_count l < lf_count l' -> lf_close l = C_none) /\
  (lf_close l = C_done -> lf_readers l = ∅ /\ lf_session l = None /\
     forall s, is_open l s -> lf_sender l = S_dialed s \/ lf_sender l = S_refused s).
Proof.
  intros I%life_reachable_inv. pose proof (inv_sender l I) as Hs. unfold sender_ok, unregistered in Hs.
  pose proof (inv_closed l I) as Hc. split; [apply (inv_closes l I)|]. split_and!.
  - apply (inv_open l I).
  - intros E s s' H H'. rewrite E in Hc. cbn in Hc.
    destruct (inv_open l I s H) as [O|[O|[O|O]]], (inv_open l I s' H') as [O'|[O'|[O'|O']]]; try congruence;
      rewrite ?O, ?O' in Hs; naive_solver congruence.
  - intros s Ho [pc Hpc]. destruct (inv_open l I s Ho) as [?|[?|[O|O]]]; [auto..| |]; rewrite O in Hs; naive_solver.
  - apply (inv_count l I).
  - intros l' [[E]|[[]|[]|[]|[]]] Hlt; cbn in Hlt; try lia. destruct (lf_close l); cbn in Hc; congruence.
  - intros E. rewrite E in Hc. cbn in Hc. split_and!; [by apply (inv_done l I)|by apply (inv_no_session l I)|].
    intros s Ho. destruct (inv_open l I s Ho) as [O|[O|?]]; [|congruence|done]. by rewrite (inv_no_session l I Hc) in O.
Qed.

(** C9. Close returns. From every reachable state in which the client is
    closed, the others take no more steps than are left to them, however they
    are scheduled, as long as no new Send takes the gate (a Send that does
    only returns ErrClosed); and when all that remains is operations that wait
    for the peer of an open connection, there are none: Close has returned,
    no Send is in progress and every connection ever dialed is closed. *)
Theorem close_returns l :
  reachable l -> lf_closed l = true ->
  (forall n l', nsteps step n l l' -> (n <= steps_left l)%nat) /\
  (forall l', rtc step l l' -> (forall l'', ~ prompt_step l' l'') ->
     lf_close l' = C_done /\ lf_sender l' = S_idle /\ lf_readers l' = ∅ /\ forall s, s ∈ lf_dialed l' -> s ∈ lf_closes l').
Proof.
  intros I%life_reachable_inv Hc. split.
  - intros n l' H. revert I Hc. induction H as [l|n l m l' Hs _ IH]; intros I Hc; [lia|].
    destruct (step_left l m Hc Hs) as [Hl Hc']. specialize (IH (life_step_inv l m I Hs) Hc'). lia.
  - intros l' H Hstuck. destruct (rtc_step_inv l l' I Hc H) as [I' Hc'].
    assert (Hd : lf_close l' = C_done).
    { destruct (decide (lf_close l' = C_done)) as [|N]; [done|]. destruct (close_moves l' I' Hc' N) as [l'' ?]. by destruct (Hstuck l''). }
    assert (Hi : lf_sender l' = S_idle).
    { destruct (decide (lf_sender l' = S_idle)) as [|N]; [done|]. destruct (send_moves l' Hc' N) as [l'' ?]; [|by destruct (Hstuck l'')].
      intros s Hw. apply used_closed; [done|done|congruence|by right]. }
    split_and!; [done|done|by apply (inv_done l' I')|].
    intros s Hs. destruct (decide (s ∈ lf_closes l')) as [|N]; [done|]. exfalso.
    destruct (inv_open l' I' s (conj Hs N)) as [O|[O|[O|O]]]; [|congruence..]. by rewrite (inv_no_session l' I' Hc') in O.
Qed.

(** *** Witnesses *)

(** The first Send dials, registers and is written; then Close begins, while
    the reader reads. *)
Definition connected_life : life :=
  set_sender S_idle (set_sender (S_sending 0) (spawn_reader 0 (set_sender (S_shaking 0) (register 0
    (set_sender (S_dialed 0) (dialed 0 (set_sender S_dialing (set_sender S_loop (set_sender S_start new_life))))))))).

Lemma connected_life_reachable : reachable connected_life.
Proof.
  unfold reachable, connected_life.
  eapply rtc_l; [by apply any_begin, step_begin|].
  eapply rtc_l; [by apply any_other, by_send, step_no_current|].
  eapply rtc_l; [by apply any_other, by_send, step_dial|].
  eapply rtc_l; [by apply any_other, by_send, (step_dialed _ 0)|].
  eapply rtc_l; [by apply any_other, by_send, (step_register _ 0)|].
  eapply rtc_l; [by apply any_other, by_send, (step_connected _ 0)|].
  eapply rtc_l; [by eapply any_other, by_send, (step_sent _ 0); right|].
  apply rtc_refl.
Qed.

Lemma closing_life_reachable : reachable (begin_close connected_life).
Proof. eapply rtc_r; [apply connected_life_reachable|]. by apply any_other, by_close, step_close. Qed.

Lemma no_connection_leaks_witness :
  lf_session connected_life = Some 0%nat /\ owned connected_life 0 /\ lf_count connected_life = 1.
Proof.
  split; [reflexivity|]. pose proof (no_connection_leaks connected_life connected_life_reachable) as (_ & Ho & _ & _ & Hn & _).
  split; [|rewrite Hn; reflexivity]. apply Ho. split; [|by intros ?%elem_of_nil].
  unfold connected_life; cbn. apply elem_of_union. left. by apply elem_of_singleton.
Defined.

Lemma close_returns_witness :
  lf_closed (begin_close connected_life) = true /\
  (forall n l', nsteps step n (begin_close connected_life) l' -> (n <= 6)%nat) /\
  (forall l', rtc step (begin_close connected_life) l' -> (forall l'', ~ prompt_step l' l'') ->
     lf_close l' = C_done /\ forall s, s ∈ lf_dialed l' -> s ∈ lf_closes l').
Proof.
  destruct (close_returns (begin_close connected_life) closing_life_reachable eq_refl) as [H1 H2].
  split; [reflexivity|]. split; [exact H1|]. intros l' Hs Hp. destruct (H2 l' Hs Hp) as (? & _ & _ & ?). by split.
Defined.
