(* ===== verification/Command.v ===== *)
(** * cmd/agentkubenetwork

    main.go, tagcount.go, logging.go and logging_env.go: the checks of the
    flags and the environment, what they start, the order in which the parts
    are acquired and released, and the periodic summary; newEventOutput of
    app/pipeline.go and NewClient of whatap/client.go, the constructors the
    checked settings reach. The flags are those a flag.FlagSet holds after a
    Parse without error; time.ParseDuration, the host name, Kubernetes and
    the parts of the capture answer as an environment. *)

From S2P Require Import Prelude Text Flow Window Stream NetAddr HostPort TagConfig Output App WhatapWire WhatapClient.
From S2P Require Import Bridge Pack Exporter.

#[local] Open Scope Z_scope.

(** ** Definitions *)

Inductive CommandError :=
| positional_arguments
| bad_environment (name : string)
| bad_log_level
| bad_log_interval
| unsupported_export
| stdout_none_without_export
| bad_stdout
| export_requires_ebpf
| sync_timeout_requires_ebpf
| pod_identity_requires_ebpf
| kubeconfig_requires_pods
| negative_duration
| no_host_name
| invalid_live_limits
| unsupported_output_mode
| unsupported_source
| export_requires_windows
| bad_tagcount_window
| bad_tagcount_queue.

(** *** Logging *)

Definition validateLogging (level : string) (interval : Duration) : option CommandError :=
  if negb (bool_decide (level ∈ ["debug"; "info"; "warn"; "error"])) then Some bad_log_level
  else if interval <? 0 then Some bad_log_interval
  else None.

(** *** The flags *)

Record Flags := mkFlags {
  fg_source : string;
  fg_window : Duration;
  fg_outputMode : string;
  fg_allowedLateness : Duration;
  fg_maxWindows : Z;
  fg_queueCapacity : Z;
  fg_drainTimeout : Duration;
  fg_exportMode : string;
  fg_stdout : string;
  fg_logLevel : string;
  fg_logInterval : Duration;
  fg_whatapConfig : list byte;
  fg_tagcountQueue : Z;
  fg_tagcountTimeout : Duration;
  fg_tagcountDrain : Duration;
  fg_nodeName : list byte;
  fg_maxEvents : Z;
  fg_duration : Duration;
  fg_opensslLibrary : list byte;
  fg_conntrackEnabled : bool;
  fg_conntrackTTL : Duration;
  fg_processEnabled : bool;
  fg_procRoot : list byte;
  fg_podIdentity : bool;
  fg_kubeconfig : list byte;
  fg_podSyncTimeout : Duration
}.

Definition with_logging (stdout level : string) (interval : Duration) (f : Flags) : Flags :=
  mkFlags (fg_source f) (fg_window f) (fg_outputMode f) (fg_allowedLateness f) (fg_maxWindows f) (fg_queueCapacity f)
    (fg_drainTimeout f) (fg_exportMode f) stdout level interval (fg_whatapConfig f) (fg_tagcountQueue f)
    (fg_tagcountTimeout f) (fg_tagcountDrain f) (fg_nodeName f) (fg_maxEvents f) (fg_duration f) (fg_opensslLibrary f)
    (fg_conntrackEnabled f) (fg_conntrackTTL f) (fg_processEnabled f) (fg_procRoot f) (fg_podIdentity f)
    (fg_kubeconfig f) (fg_podSyncTimeout f).

(** The flag set: the names given on the command line, and the arguments left *)
Record FlagSet := mkFlagSet {
  fs_flags : Flags;
  fs_explicit : gset string;
  fs_NArg : nat
}.

Definition is_explicit (s : FlagSet) (name : string) : bool := bool_decide (name ∈ fs_explicit s).

Section environment.
Context (LookupEnv : string -> option (list byte)) (ParseDuration : list byte -> option Duration).

(** An iteration of the loop of applyLoggingEnvironment. flags.Set parses the
    interval again, and marks the flag as set. *)
Definition apply_setting (flagName envName : string) (s : FlagSet) : result CommandError FlagSet :=
  if is_explicit s flagName then Ok s
  else
    match LookupEnv envName with
    | None => Ok s
    | Some val =>
        let f := fs_flags s in
        let text := string_of_bytes val in
        let set_flags f := Ok (mkFlagSet f (fs_explicit s ∪ {[flagName]}) (fs_NArg s)) in
        if bool_decide (flagName = "stdout") then
          if bool_decide (text ∈ ["auto"; "jsonl"; "none"])
          then set_flags (with_logging text (fg_logLevel f) (fg_logInterval f) f) else Err (bad_environment envName)
        else if bool_decide (flagName = "log-level") then
          match validateLogging text 0 with
          | None => set_flags (with_logging (fg_stdout f) text (fg_logInterval f) f)
          | Some _ => Err (bad_environment envName)
          end
        else
          match ParseDuration val with
          | Some interval =>
              if interval <? 0 then Err (bad_environment envName)
              else set_flags (with_logging (fg_stdout f) (fg_logLevel f) interval f)
          | None => Err (bad_environment envName)
          end
    end.

Definition applyLoggingEnvironment (s : FlagSet) : result CommandError FlagSet :=
  s ← apply_setting "stdout" "WHATAP_STDOUT" s;
  s ← apply_setting "log-level" "WHATAP_LOG_LEVEL" s;
  apply_setting "log-interval" "WHATAP_LOG_INTERVAL" s.
End environment.

Definition comma : byte := byte_of 44.

Definition splitNonEmpty (val : list byte) : list (list byte) :=
  List.filter (fun item => negb (length item =? 0)%nat) (TrimSpace <$> split_byte comma val).

(** *** runArgs *)

(** app.EventOptions without the exporter and the enricher *)
Record EventOptions := mkEventOptions {
  ev_OutputMode : string;
  ev_WindowSize : Duration;
  ev_AllowedLateness : Duration;
  ev_MaxWindows : Z;
  ev_OutputQueueCapacity : Z;
  ev_OutputDrainTimeout : Duration
}.

Record bpfRunConfig := mkRunConfig {
  rc_PodIdentity : bool;
  rc_Kubeconfig : list byte;
  rc_PodSyncTimeout : Duration;
  rc_NodeName : list byte;
  rc_MaxEvents : Z;
  rc_OpenSSLLibraries : list (list byte);
  rc_ConntrackEnabled : bool;
  rc_ConntrackTTL : Duration;
  rc_ProcessEnabled : bool;
  rc_ProcRoot : list byte;
  rc_Events : EventOptions
}.

Record tagcountRunOptions := mkTagcountOptions {
  to_ConfigPath : list byte;
  to_QueueCapacity : Z;
  to_Timeout : Duration;
  to_DrainTimeout : Duration;
  to_LogLevel : string;
  to_LogInterval : Duration
}.

(** The call runArgs ends with: app.Run, runBPF or runTagCount; [discard] says
    that the output is io.Discard, and a timeout bounds the context. *)
Inductive call :=
| call_Run (discard : bool) (windowSize : Duration)
| call_runBPF (discard : bool) (timeout : option Duration) (config : bpfRunConfig)
| call_runTagCount (discard : bool) (timeout : option Duration) (config : bpfRunConfig) (options : tagcountRunOptions).

(** The switch over -stdout: whether the output is discarded *)
Definition stdout_choice (f : Flags) : result CommandError bool :=
  let tagcount := bool_decide (fg_exportMode f = "tagcount") in
  if bool_decide (fg_stdout f = "auto") then Ok tagcount
  else if bool_decide (fg_stdout f = "jsonl") then Ok false
  else if bool_decide (fg_stdout f = "none") then (if tagcount then Ok true else Err stdout_none_without_export)
  else Err bad_stdout.

Definition live_config (f : Flags) (podIdentity : bool) (nodeName : list byte) : bpfRunConfig :=
  mkRunConfig podIdentity (fg_kubeconfig f) (fg_podSyncTimeout f) nodeName (fg_maxEvents f)
    (splitNonEmpty (fg_opensslLibrary f)) (fg_conntrackEnabled f) (fg_conntrackTTL f) (fg_processEnabled f) (fg_procRoot f)
    (mkEventOptions (fg_outputMode f) (fg_window f) (fg_allowedLateness f) (fg_maxWindows f) (fg_queueCapacity f)
       (fg_drainTimeout f)).

Definition valid_limits (c : bpfRunConfig) : bool :=
  let e := rc_Events c in
  negb ((rc_MaxEvents c <? 0) || (ev_WindowSize e <=? 0) || (ev_AllowedLateness e <? 0) || (ev_MaxWindows e <=? 0) ||
        (ev_OutputQueueCapacity e <=? 0) || (ev_OutputDrainTimeout e <=? 0)).

(** The case of -source=ebpf; [Hostname] is os.Hostname. *)
Definition runLive (Hostname : option (list byte)) (f : Flags) (podIdentity discard : bool) : result CommandError call :=
  if fg_duration f <? 0 then Err negative_duration
  else
    let timeout := if 0 <? fg_duration f then Some (fg_duration f) else None in
    match (if (length (fg_nodeName f) =? 0)%nat then Hostname else Some (fg_nodeName f)) with
    | None => Err no_host_name
    | Some nodeName =>
        let config := live_config f podIdentity nodeName in
        if negb (valid_limits config) then Err invalid_live_limits
        else if negb (bool_decide (fg_outputMode f ∈ ["raw"; "windows"; "both"])) then Err unsupported_output_mode
        else if bool_decide (fg_exportMode f = "tagcount") then
          Ok (call_runTagCount discard timeout config
                (mkTagcountOptions (fg_whatapConfig f) (fg_tagcountQueue f) (fg_tagcountTimeout f) (fg_tagcountDrain f)
                   (fg_logLevel f) (fg_logInterval f)))
        else Ok (call_runBPF discard timeout config)
    end.

(** runArgs after Parse, up to the call it ends with *)
Definition runArgs (LookupEnv : string -> option (list byte)) (ParseDuration : list byte -> option Duration)
    (Hostname : option (list byte)) (s : FlagSet) : result CommandError call :=
  if negb (fs_NArg s =? 0)%nat then Err positional_arguments
  else
    s ← applyLoggingEnvironment LookupEnv ParseDuration s;
    let f := fs_flags s in
    match validateLogging (fg_logLevel f) (fg_logInterval f) with
    | Some e => Err e
    | None =>
        let ebpf := bool_decide (fg_source f = "ebpf") in
        let podIdentity := if negb (is_explicit s "pod-identity") && negb ebpf then false else fg_podIdentity f in
        if negb (bool_decide (fg_exportMode f = "none")) && negb (bool_decide (fg_exportMode f = "tagcount"))
        then Err unsupported_export
        else
          discard ← stdout_choice f;
          if bool_decide (fg_exportMode f = "tagcount") && negb ebpf then Err export_requires_ebpf
          else if is_explicit s "pod-sync-timeout" && negb ebpf then Err sync_timeout_requires_ebpf
          else if podIdentity && (negb ebpf || (fg_podSyncTimeout f <=? 0)) then Err pod_identity_requires_ebpf
          else if negb (length (fg_kubeconfig f) =? 0)%nat && negb podIdentity then Err kubeconfig_requires_pods
          else if bool_decide (fg_source f = "stdin") then Ok (call_Run discard (fg_window f))
          else if ebpf then runLive Hostname f podIdentity discard
          else Err unsupported_source
    end.

(** *** newEventOutput *)

Inductive EventOutputError :=
| bad_output_mode
| exporter_needs_windows
| stream_refused (e : FlowError)
| queue_refused.

(** The mode, the stream and the queue of the output *)
Definition newEventOutput (discard exporter : bool) (o : EventOptions) :
    result EventOutputError (string * option Stream * queuedOutput) :=
  let mode := if bool_decide (ev_OutputMode o = "") then "raw" else ev_OutputMode o in
  if negb (bool_decide (mode ∈ ["raw"; "windows"; "both"])) then Err bad_output_mode
  else if exporter && bool_decide (mode = "raw") then Err exporter_needs_windows
  else
    stream ← (if bool_decide (mode = "raw") then Ok None
              else
                let window := if ev_WindowSize o =? 0 then 5 * Second else ev_WindowSize o in
                match NewStream (mkStreamConfig window (ev_AllowedLateness o) (ev_MaxWindows o)) with
                | Ok s => Ok (Some s)
                | Err e => Err (stream_refused e)
                end);
    match newQueuedOutput discard (ev_OutputQueueCapacity o) (ev_OutputDrainTimeout o) with
    | None => Err queue_refused
    | Some q => Ok (mode, stream, q)
    end.

(** *** app.Run, the batch *)

Inductive RunError := decode_failed | aggregate_failed (e : FlowError) | encode_failed (code : Z).

(** What the JSON decoder delivers up to the end of the input; [None] is an
    error. *)
Fixpoint decode_all (delivered : list (option Observation)) : option (list Observation) :=
  match delivered with
  | [] => Some []
  | None :: _ => None
  | Some o :: delivered' => cons o <$> decode_all delivered'
  end.

(** The windows written, and the error that ends the loop *)
Fixpoint encode_all (encode : Window -> option Z) (windows : list Window) : list Window * option RunError :=
  match windows with
  | [] => ([], None)
  | w :: windows' =>
      match encode w with
      | Some code => ([], Some (encode_failed code))
      | None => let '(written, err) := encode_all encode windows' in (w :: written, err)
      end
  end.

Definition Run {R : MapRange aggregateKey Window} (delivered : list (option Observation)) (encode : Window -> option Z)
    (windowSize : Duration) : list Window * option RunError :=
  match decode_all delivered with
  | None => ([], Some decode_failed)
  | Some observations =>
      match Aggregate observations windowSize with
      | Err e => ([], Some (aggregate_failed e))
      | Ok windows => encode_all encode windows
      end
  end.

(** *** whatap.NewClient *)

Inductive ClientError :=
| timeout_not_positive
| bad_server_count
| invalid_server (i : nat)
| invalid_object_name
| zero_identity
| invalid_license (e : WireError).

(** The first server that is not valid *)
Fixpoint first_invalid (i : nat) (servers : list (list byte)) : option nat :=
  match servers with
  | [] => None
  | s :: servers' => if negb (validServer s) then Some i else first_invalid (S i) servers'
  end.

Section client.
(** unicode.IsGraphic of every rune of a text, and golib's hash.HashStr *)
Context (AllGraphic : list byte -> bool) (HashStr : list byte -> Z).
Context {A : NewCipher} {L : LicenseReader}.

Definition NewClient (cfg : Config) : result ClientError WhatapClient.Client :=
  let name := cg_ObjectName cfg in
  if cg_Timeout cfg <=? 0 then Err timeout_not_positive
  else if (length (cg_Servers cfg) =? 0)%nat || (32 <? length (cg_Servers cfg))%nat then Err bad_server_count
  else
    match first_invalid 0 (cg_Servers cfg) with
    | Some i => Err (invalid_server i)
    | None =>
        if (length name =? 0)%nat || (512 <? length name)%nat || negb (utf8_Valid name) ||
           negb (bool_decide (TrimSpace name = name))
        then Err invalid_object_name
        else if negb (AllGraphic name) then Err invalid_object_name
        else
          let oid := HashStr name in
          if oid =? 0 then Err zero_identity
          else
            match parseLicense (cg_AccessKey cfg) with
            | Err e => Err (invalid_license e)
            | Ok (pcode, key) =>
                Ok (WhatapClient.mkClient (mkKeys pcode oid (masterCipher key)) (string_of_bytes <$> cg_Servers cfg))
            end
    end.
End client.

(** *** The periodic summary *)

Definition reporter_active (level : string) (interval : Duration) : bool :=
  negb ((interval =? 0) || (negb (bool_decide (level = "info")) && negb (bool_decide (level = "debug")))).

(** The goroutine: at each tick whether the context is cancelled, and the
    error of the write. The number of summaries written, and reportErr; the
    list ends when the select takes the context. *)
Fixpoint report (ticks : list (bool * option Z)) : nat * option Z :=
  match ticks with
  | [] => (0%nat, None)
  | (cancelled, err) :: ticks' =>
      if cancelled : bool then (0%nat, None)
      else
        match err with
        | Some e => (1%nat, Some e)
        | None => let '(n, err) := report ticks' in (S n, err)
        end
  end.

(** *** What a run acquires and releases *)

Inductive cause :=
| command_error (e : CommandError)
| config_error (e : ConfigError)
| client_error (e : ClientError)
| exporter_refused
| output_refused (e : EventOutputError)
| max_events_negative
| other (code : Z).

#[local] Abbreviation causes := (list cause).

(** What the parts of a run answer; no error is the empty list. The capture is
    RunEventsWithOptions once its output exists. *)
Record Answers := mkAnswers {
  an_kubeConfig : causes;
  an_podsStart : causes;
  an_podsStop : causes;
  an_open : causes;
  an_capture : causes;
  an_readerClose : causes;
  an_senderClose : causes;
  an_exporterClose : causes;
  an_reporter : causes;
  an_summary : causes
}.

Inductive resource := Pods | Reader | Sender | Exporter_ | Reporter.

(** The exporter takes over the sender, which it closes. *)
Inductive action :=
| Acquire (r : resource)
| Release (r : resource)
| Capture
| FinalSummary (failed : bool).

Definition no_error (e : causes) : bool := match e with [] => true | _ => false end.

(** app.RunEventsWithOptions *)
Definition capture (discard exporter : bool) (config : bpfRunConfig) (an : Answers) : list action * causes :=
  if rc_MaxEvents config <? 0 then ([], [max_events_negative])
  else
    match newEventOutput discard exporter (rc_Events config) with
    | Err e => ([], [output_refused e])
    | Ok _ => ([Capture], an_capture an)
    end.

(** runBPF from the opening of the reader on *)
Definition with_reader (discard exporter : bool) (config : bpfRunConfig) (an : Answers) : list action * causes :=
  if no_error (an_open an) then
    let '(acts, err) := capture discard exporter config an in
    (Acquire Reader :: acts ++ [Release Reader], err ++ an_readerClose an)
  else ([], an_open an).

Definition runBPF (discard exporter : bool) (config : bpfRunConfig) (an : Answers) : list action * causes :=
  if rc_PodIdentity config then
    if negb (no_error (an_kubeConfig an)) then ([], an_kubeConfig an)
    else if negb (no_error (an_podsStart an)) then ([], an_podsStart an)
    else
      let '(acts, err) := with_reader discard exporter config an in
      (Acquire Pods :: acts ++ [Release Pods], err ++ an_podsStop an)
  else with_reader discard exporter config an.

(** The checks of runTagCount before its deferred call *)
Definition tagcount_checks (config : bpfRunConfig) (o : tagcountRunOptions) : option CommandError :=
  let window := ev_WindowSize (rc_Events config) in
  if negb (bool_decide (ev_OutputMode (rc_Events config) ∈ ["windows"; "both"])) then Some export_requires_windows
  else if (window <? Millisecond) || (Minute <? window) || negb (Z.rem window Millisecond =? 0) then Some bad_tagcount_window
  else if (to_QueueCapacity o <? 1) || (MaxQueueCapacity <? to_QueueCapacity o) || (to_Timeout o <=? 0) ||
          (to_DrainTimeout o <=? 0)
  then Some bad_tagcount_queue
  else validateLogging (if bool_decide (to_LogLevel o = "") then "info" else to_LogLevel o) (to_LogInterval o).

(** finalizeTagCount *)
Definition finalizeTagCount (exporter reporter : bool) (an : Answers) (r : list action * causes) : list action * causes :=
  let '(acts, err) := r in
  let err := err ++ (if exporter then an_exporterClose an else []) in
  let err := err ++ (if reporter then an_reporter an else []) in
  (acts ++ (if exporter then [Release Exporter_; Release Sender] else []) ++ (if reporter then [Release Reporter] else []) ++
   [FinalSummary (negb (no_error err))], err ++ an_summary an).

Section run.
Context (LookupEnv : string -> option (list byte)) (ReadFile : list byte -> ConfigFile).
Context (AllGraphic : list byte -> bool) (HashStr : list byte -> Z).
Context {A : NewCipher} {L : LicenseReader}.
(** golib's MapValue, whose values the exporter's queue holds *)
Context {M : Type}.

Definition config_path (path : list byte) : option ConfigFile :=
  if (length path =? 0)%nat then None else Some (ReadFile path).

Definition runTagCount (discard : bool) (config : bpfRunConfig) (o : tagcountRunOptions) (an : Answers) :
    list action * causes :=
  match tagcount_checks config o with
  | Some e => ([], [command_error e])
  | None =>
      match LoadConfig LookupEnv (config_path (to_ConfigPath o)) (rc_NodeName config) (to_Timeout o) with
      | Err e => finalizeTagCount false false an ([], [config_error e])
      | Ok transport =>
          match NewClient AllGraphic HashStr transport with
          | Err e => finalizeTagCount false false an ([], [client_error e])
          | Ok sender =>
              let keys := cl_keys sender in
              match NewExporter (M := M)
                      (mkExporterConfig (string_of_bytes (rc_NodeName config)) (to_QueueCapacity o) (to_DrainTimeout o))
                      (k_pcode keys) (k_oid keys) with
              | None => finalizeTagCount false false an ([Acquire Sender; Release Sender], exporter_refused :: an_senderClose an)
              | Some _ =>
                  let level := if bool_decide (to_LogLevel o = "") then "info" else to_LogLevel o in
                  let reporter := reporter_active level (to_LogInterval o) in
                  let '(acts, err) := runBPF discard true config an in
                  finalizeTagCount true reporter an
                    ([Acquire Sender; Acquire Exporter_] ++ (if reporter then [Acquire Reporter] else []) ++ acts, err)
              end
          end
      end
  end.
End run.

(** *** Specification *)

(** The resources held after the actions: none is acquired twice or released
    without being held, a capture has its reader, and the final summary is
    written when nothing is held, so by the only writer. *)
#[export] Instance resource_eq_dec : EqDecision resource.
Proof. solve_decision. Defined.

Fixpoint held_after (held : list resource) (acts : list action) : option (list resource) :=
  match acts with
  | [] => Some held
  | Acquire r :: acts' => if bool_decide (r ∈ held) then None else held_after (r :: held) acts'
  | Release r :: acts' =>
      if bool_decide (r ∈ held) then held_after (List.filter (fun x => negb (bool_decide (x = r))) held) acts' else None
  | Capture :: acts' => if bool_decide (Reader ∈ held) then held_after held acts' else None
  | FinalSummary _ :: acts' => if bool_decide (held = []) then held_after held acts' else None
  end.

Definition is_summary (a : action) : bool := match a with FinalSummary _ => true | _ => false end.

(** What NewExporter requires of a node's name *)
Definition name_ok (name : list byte) : bool :=
  (1 <=? length name)%nat && (length name <=? 253)%nat && forallb printable_rune name.

(** ** Lemmas *)

Example split_libraries :
  splitNonEmpty (lit " /a/libssl.so , ,/b/libcrypto.so,") = [lit "/a/libssl.so"; lit "/b/libcrypto.so"].
Proof. vm_compute. reflexivity. Qed.

Example report_stops : report [(false, None); (false, Some 3); (false, None)] = (2%nat, Some 3) /\
  report [(false, None); (true, None)] = (1%nat, None).
Proof. done. Qed.

(** *** The environment gives way to the command line *)
Lemma apply_setting_explicit LookupEnv ParseDuration flagName envName s :
  is_explicit s flagName = true -> apply_setting LookupEnv ParseDuration flagName envName s = Ok s.
Proof. unfold apply_setting. by intros ->. Qed.

(** An accepted setting changes the logging flags only. *)
Lemma apply_setting_logging LookupEnv ParseDuration flagName envName s s' :
  apply_setting LookupEnv ParseDuration flagName envName s = Ok s' ->
  exists stdout level interval, fs_flags s' = with_logging stdout level interval (fs_flags s) /\ fs_NArg s' = fs_NArg s.
Proof.
  assert (Hsame : fs_flags s = with_logging (fg_stdout (fs_flags s)) (fg_logLevel (fs_flags s)) (fg_logInterval (fs_flags s)) (fs_flags s))
    by (by destruct (fs_flags s)).
  unfold apply_setting. destruct (is_explicit s flagName). { intros [= <-]. eauto. }
  destruct (LookupEnv envName) as [val|]; [|intros [= <-]; eauto].
  repeat case_bool_decide; repeat split_match; intros [= <-]; cbn; eauto.
Qed.

(** What an accepted command line went through *)
Lemma runArgs_inv LookupEnv ParseDuration Hostname s c :
  runArgs LookupEnv ParseDuration Hostname s = Ok c ->
  exists s' podIdentity discard, let f := fs_flags s' in
    applyLoggingEnvironment LookupEnv ParseDuration s = Ok s' /\
    validateLogging (fg_logLevel f) (fg_logInterval f) = None /\ stdout_choice f = Ok discard /\
    (fg_exportMode f = "tagcount" -> fg_source f = "ebpf") /\
    (podIdentity = true -> fg_source f = "ebpf" /\ 0 < fg_podSyncTimeout f) /\
    (fg_source f = "stdin" /\ c = call_Run discard (fg_window f) \/
     fg_source f = "ebpf" /\ runLive Hostname f podIdentity discard = Ok c).
Proof.
  unfold runArgs. destruct (negb _); [done|]. destruct (applyLoggingEnvironment _ _ s) as [s'|e]; [|done]. cbn [mbind result_mbind result_bind].
  destruct (validateLogging _ _) eqn:Ev; [done|]. set (f := fs_flags s') in *.
  set (pod := if _ : bool then false else _). clearbody pod. destruct (negb _ && _); [done|].
  destruct (stdout_choice f) as [discard|e] eqn:Ed; [|done]. cbn [result_bind].
  destruct (bool_decide (fg_exportMode f = "tagcount") && _) eqn:Et; [done|].
  destruct (is_explicit s' "pod-sync-timeout" && _); [done|].
  destruct (pod && _) eqn:Ep; [done|]. destruct (negb _ && negb pod); [done|].
  intros E. exists s', pod, discard. split_and!; try done.
  - intros Hx. rewrite (bool_decide_true (fg_exportMode f = "tagcount")) in Et by done. cbn [andb] in Et.
    by apply negb_false_iff, bool_decide_eq_true in Et.
  - intros Hp. rewrite Hp in Ep. cbn [andb] in Ep. apply orb_false_iff in Ep as [H1 H2].
    apply negb_false_iff, bool_decide_eq_true in H1. split; [done|]. by apply Z.leb_gt in H2.
  - case_bool_decide as Hs; [left; split; [done|by injection E as <-]|]. case_bool_decide as Hb; [by right|done].
Qed.

(** What a live capture went through: the configuration is that of the flags
    and its limits are valid. *)
Lemma runLive_inv Hostname f podIdentity discard c :
  runLive Hostname f podIdentity discard = Ok c ->
  exists timeout nodeName, let config := live_config f podIdentity nodeName in
    (forall d, timeout = Some d -> 0 < d) /\ valid_limits config = true /\ fg_outputMode f ∈ ["raw"; "windows"; "both"] /\
    (if bool_decide (fg_exportMode f = "tagcount")
     then exists o, c = call_runTagCount discard timeout config o else c = call_runBPF discard timeout config).
Proof.
  unfold runLive. destruct (fg_duration f <? 0); [done|].
  destruct (if (length (fg_nodeName f) =? 0)%nat then Hostname else _) as [nodeName|]; [|done].
  destruct (valid_limits _) eqn:Ev; [|done]. cbn [negb].
  case_bool_decide as Hm; [|done]. cbn [negb]. intros E.
  exists (if 0 <? fg_duration f then Some (fg_duration f) else None), nodeName. split_and!; try done.
  - intros d. destruct (Z.ltb_spec 0 (fg_duration f)); [|done]. by intros [= <-].
  - destruct (bool_decide _); injection E as <-; [eauto|done].
Qed.

Lemma valid_limits_inv c : valid_limits c = true ->
  0 <= rc_MaxEvents c /\ 0 < ev_WindowSize (rc_Events c) /\ 0 <= ev_AllowedLateness (rc_Events c) /\
  0 < ev_MaxWindows (rc_Events c) /\ 0 < ev_OutputQueueCapacity (rc_Events c) /\ 0 < ev_OutputDrainTimeout (rc_Events c).
Proof. unfold valid_limits. rewrite negb_true_iff, !orb_false_iff, !Z.ltb_ge, !Z.leb_gt. lia. Qed.

Lemma mode_not_empty (mode : string) : mode ∈ ["raw"; "windows"; "both"] -> mode <> "".
Proof. intros H ->. rewrite !elem_of_cons, elem_of_nil in H. naive_solver. Qed.

(** Within the limits the output is refused for its mode only. *)
Lemma newEventOutput_limits discard exporter c :
  valid_limits c = true -> let mode := ev_OutputMode (rc_Events c) in
  mode ∈ ["raw"; "windows"; "both"] -> (exporter = true -> mode <> "raw") ->
  exists stream q, newEventOutput discard exporter (rc_Events c) = Ok (mode, stream, q) /\
    (stream = None <-> mode = "raw") /\
    (forall s, stream = Some s -> st_config s =
      mkStreamConfig (ev_WindowSize (rc_Events c)) (ev_AllowedLateness (rc_Events c)) (ev_MaxWindows (rc_Events c)) /\
      st_windows s = ∅).
Proof.
  intros (_ & Hw & Hl & Hm & Hq & Hd)%valid_limits_inv mode Hmode Hraw. unfold newEventOutput.
  fold mode. rewrite (bool_decide_false (mode = "")) by (by apply mode_not_empty). rewrite (bool_decide_true (mode ∈ ["raw"; "windows"; "both"])) by exact Hmode. cbn [negb].
  replace (exporter && bool_decide (mode = "raw")) with false.
  2: { destruct exporter; [|done]. symmetry. by apply bool_decide_eq_false, Hraw. }
  destruct (rc_Events c) as [m w l n k d]. cbn in *.
  rewrite (proj2 (Z.eqb_neq w 0)) by lia. unfold NewStream. cbn.
  rewrite (proj2 (Z.leb_gt w 0)), (proj2 (Z.ltb_ge l 0)), (proj2 (Z.ltb_ge n 0)), (proj2 (Z.eqb_neq n 0)) by lia.
  unfold newQueuedOutput. rewrite (proj2 (Z.eqb_neq k 0)), (proj2 (Z.eqb_neq d 0)), (proj2 (Z.ltb_ge k 0)), (proj2 (Z.ltb_ge d 0)) by lia.
  cbn [orb]. case_bool_decide as Hb; cbn; do 2 eexists; split; try reflexivity.
  - split_and!; try done.
  - split; [done|]. intros s [= <-]. done.
Qed.

(** *** Window times *)

(** An instant the bridge can state: from two minutes after the epoch *)
Definition plausible (t : Time) : Prop := unix_epoch + 2 * Minute <= t <= unix_epoch + (maxSafe / 1000 - 120) * Second.

Lemma unix_milli_exact n : - 2 ^ 63 <= n < 2 ^ 63 -> time_UnixMilli (unix_epoch + n * Millisecond) = n.
Proof.
  intros Hn. unfold time_UnixMilli. replace (unix_epoch + n * Millisecond - unix_epoch) with (n * Millisecond) by lia.
  rewrite Z.div_mul by done. apply sint_small; lia.
Qed.

Lemma unix_seconds n : time_Unix (unix_epoch + n * Millisecond) = n / 1000.
Proof.
  unfold time_Unix. replace (unix_epoch + n * Millisecond - unix_epoch) with (n * Millisecond) by lia.
  unfold Second, Millisecond. replace 1000000000 with (1000 * 1000000) by done. by rewrite Z.div_mul_cancel_r.
Qed.

(** A window of whole milliseconds up to a minute that holds a plausible
    instant has times the bridge accepts. *)
Lemma window_times_ok o k :
  1 <= k <= 60000 -> plausible (ob_ObservedAt o) ->
  bad_times (newWindow (keyFor o (k * Millisecond)) (k * Millisecond)) = false.
Proof.
  intros Hk Ht. unfold plausible in Ht. set (t := ob_ObservedAt o) in *.
  assert (exists n, time_Truncate t (k * Millisecond) = unix_epoch + n * Millisecond /\
    t - k * Millisecond < unix_epoch + n * Millisecond <= t) as (n & En & Hn).
  { exists (k * (t / (k * Millisecond)) - unix_epoch / Millisecond). unfold time_Truncate.
    rewrite (proj2 (Z.leb_gt _ _)) by (unfold Millisecond; lia).
    pose proof (Z.div_mod t (k * Millisecond) ltac:(unfold Millisecond; lia)) as Hd.
    pose proof (Z.mod_pos_bound t (k * Millisecond) ltac:(unfold Millisecond; lia)) as Hm.
    assert (He : unix_epoch = unix_epoch / Millisecond * Millisecond) by done. split; [|split]; lia. }
  assert (Hbounds : 60000 <= n /\ n + k <= maxSafe - 60000).
  { change (maxSafe / 1000) with 9007199254740 in Ht. change maxSafe with 9007199254740991.
    unfold Minute, Second, Millisecond in *. lia. }
  change maxSafe with 9007199254740991 in Hbounds.
  unfold bad_times. cbn [wi_WindowStart wi_WindowEnd newWindow keyFor ak_Start]. fold t. rewrite En.
  replace (time_Add (unix_epoch + n * Millisecond) (k * Millisecond)) with (unix_epoch + (n + k) * Millisecond)
    by (unfold time_Add; lia).
  rewrite !unix_milli_exact, !unix_seconds by lia. change (maxSafe / 1000) with 9007199254740. change maxSafe with 9007199254740991.
  replace (n + k - n) with k by lia. rewrite (sint_small 64 k) by lia.
  rewrite !orb_false_iff, !Z.ltb_ge, !Z.leb_gt.
  pose proof (Z.div_pos n 1000 ltac:(lia) ltac:(lia)). pose proof (Z.div_pos (n + k) 1000 ltac:(lia) ltac:(lia)).
  pose proof (Z.div_le_mono (n + k) 9007199254740000 1000 ltac:(lia) ltac:(lia)) as H1.
  pose proof (Z.div_le_mono n 9007199254740000 1000 ltac:(lia) ltac:(lia)) as H2.
  change (9007199254740000 / 1000) with 9007199254740 in H1, H2. lia.
Qed.

(** What the checks of runTagCount accept *)
Lemma tagcount_checks_inv config o :
  tagcount_checks config o = None ->
  ev_OutputMode (rc_Events config) ∈ ["windows"; "both"] /\
  (exists k, 1 <= k <= 60000 /\ ev_WindowSize (rc_Events config) = k * Millisecond) /\
  1 <= to_QueueCapacity o <= MaxQueueCapacity /\ 0 < to_Timeout o /\ 0 < to_DrainTimeout o.
Proof.
  unfold tagcount_checks. case_bool_decide as Hm; [|done]. cbn [negb].
  set (w := ev_WindowSize _). destruct ((w <? _) || _ || _) eqn:Ew; [done|]. destruct (_ || (to_DrainTimeout o <=? 0)) eqn:Eq; [done|].
  intros _. rewrite !orb_false_iff, !Z.ltb_ge, negb_false_iff, Z.eqb_eq in Ew. rewrite !orb_false_iff, !Z.ltb_ge, !Z.leb_gt in Eq.
  split_and!; try done; try lia. exists (w / Millisecond).
  rewrite Z.rem_mod_nonneg in Ew by (unfold Millisecond in *; lia).
  pose proof (Z.div_mod w Millisecond ltac:(done)). unfold Minute, Second, Millisecond in *. lia.
Qed.

Lemma NewExporter_exact {M} config pcode oid :
  1 <= ec_QueueCapacity config <= MaxQueueCapacity -> 0 < ec_DrainTimeout config ->
  is_Some (NewExporter (M := M) config pcode oid) <->
    name_ok (bytes_of_string (ec_NodeName config)) = true /\ 0 < pcode /\ oid <> 0.
Proof.
  intros Hq Hd. unfold NewExporter, name_ok.
  rewrite (proj2 (Z.ltb_ge _ 1)), (proj2 (Z.ltb_ge MaxQueueCapacity _)), (proj2 (Z.leb_gt _ 0)) by lia. cbn [orb].
  set (l := bytes_of_string _). rewrite !andb_true_iff, !Nat.leb_le.
  destruct (Nat.ltb_spec (length l) 1), (Nat.ltb_spec 253 (length l)); cbn [orb]; try (split; [by intros []|lia]).
  destruct (forallb printable_rune l); cbn [negb]; [|split; [by intros []|naive_solver]].
  destruct (Z.leb_spec pcode 0); cbn [orb]; [split; [by intros []|lia]|].
  destruct (Z.eqb_spec oid 0); (split; [by intros []|]) || split; intros; eauto; naive_solver lia.
Qed.

Lemma NewClient_inv AllGraphic HashStr `{A : NewCipher} `{L : LicenseReader} cfg c :
  NewClient AllGraphic HashStr cfg = Ok c -> k_oid (cl_keys c) <> 0.
Proof.
  unfold NewClient. repeat split_match; intros [= <-]. by apply Z.eqb_neq.
Qed.

(** *** The batch *)

Lemma decode_all_Some delivered l : decode_all delivered = Some l <-> delivered = Some <$> l.
Proof.
  revert l. induction delivered as [|[o|] delivered IH]; intros [|o' l]; cbn; try done.
  - destruct (decode_all delivered) as [l'|]; [done|]. by split.
  - rewrite fmap_Some. split.
    + intros (l' & E & [= <- <-]). f_equal. by apply IH.
    + intros [= <- E]. exists l. by rewrite (proj2 (IH l)).
Qed.

Lemma encode_all_prefix encode windows :
  let '(written, err) := encode_all encode windows in
  written `prefix_of` windows /\ (err = None <-> written = windows).
Proof.
  induction windows as [|w windows IH]; cbn; [done|]. destruct (encode w); [split; [apply prefix_nil|done]|].
  destruct (encode_all encode windows) as [written err]. destruct IH as [IH1 IH2].
  split; [by apply prefix_cons|]. rewrite IH2. split; [by intros ->|by intros [=]].
Qed.

(** What a batch writes are windows of Aggregate, in its order, and without an
    error it read everything and wrote all of them. *)
Lemma Run_exact {R : MapRange aggregateKey Window} delivered encode windowSize :
  let '(written, err) := Run delivered encode windowSize in
  (written = [] \/ exists l windows, delivered = Some <$> l /\ Aggregate l windowSize = Ok windows /\ written `prefix_of` windows) /\
  (err = None <-> exists l, delivered = Some <$> l /\ Aggregate l windowSize = Ok written).
Proof.
  unfold Run. destruct (decode_all delivered) as [l|] eqn:Ed.
  2: { split; [by left|]. split; [done|]. intros (l & E%decode_all_Some & _). congruence. }
  apply decode_all_Some in Ed as ->.
  assert (Hinj : forall l', Some <$> l = Some <$> l' -> l' = l).
  { intros l' E. symmetry. by apply (inj (fmap (M := list) Some)). }
  destruct (Aggregate l windowSize) as [windows|e] eqn:Ea.
  - pose proof (encode_all_prefix encode windows) as H. destruct (encode_all encode windows) as [written err].
    destruct H as [Hp He]. split; [right; by exists l, windows|]. rewrite He. split.
    + intros ->. by exists l.
    + intros (l' & ->%Hinj & E). congruence.
  - split; [by left|]. split; [done|]. intros (l' & ->%Hinj & E). congruence.
Qed.

(** *** Resources *)

(** The traces of the part from the reader on, and of runBPF *)
Definition reader_traces : list (list action) :=
  [[]; [Acquire Reader; Release Reader]; [Acquire Reader; Capture; Release Reader]].

Definition bpf_traces : list (list action) :=
  reader_traces ++ ((fun acts => Acquire Pods :: acts ++ [Release Pods]) <$> reader_traces).

Lemma no_error_nil e : no_error e = true <-> e = [].
Proof. by destruct e. Qed.

Lemma with_reader_traces discard exporter config an :
  let '(acts, err) := with_reader discard exporter config an in
  acts ∈ reader_traces /\ (err = [] -> Capture ∈ acts /\ an_capture an = []).
Proof.
  unfold with_reader, capture. destruct (no_error (an_open an)) eqn:Eo.
  2: { split; [by left|]. intros E. by rewrite E in Eo. }
  destruct (_ <? 0). { split; [by right; left|done]. }
  destruct (newEventOutput _ _ _). 2: { split; [by right; left|done]. }
  split; [by right; right; left|]. intros [E _]%app_nil. split; [set_solver|done].
Qed.

Lemma runBPF_traces discard exporter config an :
  let '(acts, err) := runBPF discard exporter config an in
  acts ∈ bpf_traces /\ (err = [] -> Capture ∈ acts /\ an_capture an = []).
Proof.
  pose proof (with_reader_traces discard exporter config an) as Hr. unfold runBPF, bpf_traces.
  destruct (with_reader discard exporter config an) as [acts err]. destruct Hr as [Ht Hc].
  destruct (rc_PodIdentity config). 2: { rewrite elem_of_app. auto. }
  destruct (no_error (an_kubeConfig an)) eqn:Ek; cbn [negb]. 2: { split; [by left|]. intros E. by rewrite E in Ek. }
  destruct (no_error (an_podsStart an)) eqn:Es; cbn [negb]. 2: { split; [by left|]. intros E. by rewrite E in Es. }
  split; [apply elem_of_app; right; apply list_elem_of_fmap; by exists acts|].
  intros [E _]%app_nil. destruct (Hc E) as [Hin ?]. split; [|done]. rewrite elem_of_cons, elem_of_app. auto.
Qed.

(** ** Theorems *)

(** C21. The checks of the command line are the checks of the parts it starts:
    the output of an accepted live run is never refused, its stream is there
    in the modes with windows and has the window of the flags, telemetry is
    discarded only when packs are exported, and, once runTagCount has accepted
    its options, the exporter is refused for the name of the node or the sign
    of the license's code only and every window of the stream that holds a
    plausible instant has times the bridge accepts. *)
Theorem settings_suffice {M} `{A : NewCipher} `{L : LicenseReader} LookupEnv ParseDuration Hostname AllGraphic HashStr s c :
  runArgs LookupEnv ParseDuration Hostname s = Ok c ->
  match c with
  | call_Run discard _ => discard = false
  | call_runBPF discard timeout config =>
      discard = false /\ (forall d, timeout = Some d -> 0 < d) /\ 0 <= rc_MaxEvents config /\
      exists mode stream q, newEventOutput discard false (rc_Events config) = Ok (mode, stream, q) /\
        (stream = None <-> mode = "raw")
  | call_runTagCount discard timeout config o =>
      (forall d, timeout = Some d -> 0 < d) /\ 0 <= rc_MaxEvents config /\
      (tagcount_checks config o = None ->
       (exists mode stream q, newEventOutput discard true (rc_Events config) = Ok (mode, Some stream, q) /\
          WindowSize (st_config stream) = ev_WindowSize (rc_Events config) /\ st_windows stream = ∅) /\
       (forall transport client name, NewClient AllGraphic HashStr transport = Ok client ->
          is_Some (NewExporter (M := M) (mkExporterConfig name (to_QueueCapacity o) (to_DrainTimeout o))
                     (k_pcode (cl_keys client)) (k_oid (cl_keys client))) <->
          name_ok (bytes_of_string name) = true /\ 0 < k_pcode (cl_keys client)) /\
       (forall ob, plausible (ob_ObservedAt ob) ->
          bad_times (newWindow (keyFor ob (ev_WindowSize (rc_Events config))) (ev_WindowSize (rc_Events config))) = false))
  end.
Proof.
  intros (s' & pod & discard & _ & _ & Hd & He & _ & Hc)%runArgs_inv. set (f := fs_flags s') in *.
  destruct Hc as [[Hs ->]|[_ Hc]].
  { unfold stdout_choice in Hd. rewrite (bool_decide_false (fg_exportMode f = "tagcount")) in Hd.
    2: { intros Hx. by rewrite (He Hx) in Hs. }
    repeat case_bool_decide; by simplify_eq. }
  apply runLive_inv in Hc as (timeout & nodeName & Ht & Hv & Hm & Hc).
  pose proof (valid_limits_inv _ Hv) as (Hmax & _). destruct (bool_decide (fg_exportMode f = "tagcount")) eqn:Ex.
  - destruct Hc as [o ->]. split_and!; [done..|]. intros Hk.
    apply tagcount_checks_inv in Hk as (Hmode & (k & Hk & Hw) & Hq & _ & Hdr). split_and!.
    + edestruct (newEventOutput_limits discard true _ Hv Hm) as (stream & q & E & Hs & Hst).
      { intros _ Hr. rewrite Hr in Hmode. by rewrite !elem_of_cons, elem_of_nil in Hmode; naive_solver. }
      destruct stream as [stream|].
      * exists (fg_outputMode f), stream, q. destruct (Hst stream eq_refl) as [-> ->]. done.
      * exfalso. apply proj1 in Hs. specialize (Hs eq_refl). rewrite Hs in Hmode.
        rewrite !elem_of_cons, elem_of_nil in Hmode. naive_solver.
    + intros transport client name Hn%NewClient_inv. rewrite NewExporter_exact by done. cbn. naive_solver.
    + intros ob Hob. rewrite Hw. by apply window_times_ok.
  - subst c. split_and!; try done.
    + unfold stdout_choice in Hd. rewrite Ex in Hd. repeat case_bool_decide; by simplify_eq.
    + edestruct (newEventOutput_limits discard false _ Hv Hm) as (stream & q & E & Hs & _); [done|].
      by exists (fg_outputMode f), stream, q.
Qed.

(** C22. A run with export releases what it acquired, whatever fails: every
    resource is acquired once and released once, the capture runs with its
    reader open, and, once the options are accepted, the last thing a run does
    is to write the summary, when nothing is held and the periodic writer has
    ended; the summary says that the run failed exactly when an error came
    before, and no error means that a capture ran and ended without one. *)
Theorem run_releases {M} `{A : NewCipher} `{L : LicenseReader} LookupEnv ReadFile AllGraphic HashStr discard config o an :
  let '(acts, err) := runTagCount LookupEnv ReadFile AllGraphic HashStr (M := M) discard config o an in
  held_after [] acts = Some [] /\
  match tagcount_checks config o with
  | Some e => acts = [] /\ err = [command_error e]
  | None => exists before earlier, acts = before ++ [FinalSummary (negb (no_error earlier))] /\
      forallb (fun a => negb (is_summary a)) before = true /\ err = earlier ++ an_summary an
  end /\
  (err = [] -> Capture ∈ acts /\ an_capture an = [] /\ an_exporterClose an = []).
Proof.
  unfold runTagCount. destruct (tagcount_checks config o) as [e|]; [done|].
  destruct (LoadConfig _ _ _ _) as [transport|e].
  2: { cbn. split_and!; [done| |done]. exists [], [config_error e]. done. }
  destruct (NewClient _ _ _) as [client|e].
  2: { cbn. split_and!; [done| |done]. exists [], [client_error e]. done. }
  destruct (NewExporter _ _ _).
  2: { cbn. split_and!; [done| |done]. exists [Acquire Sender; Release Sender], (exporter_refused :: an_senderClose an ++ []).
       rewrite app_nil_r. cbn. by rewrite ?app_nil_r. }
  set (active := reporter_active _ _). clearbody active.
  pose proof (runBPF_traces discard true config an) as Hr. destruct (runBPF discard true config an) as [acts err].
  destruct Hr as [Ht Hc]. unfold finalizeTagCount.
  set (early := (err ++ _) ++ _). split_and!.
  - clear Hc. repeat (apply elem_of_cons in Ht as [->|Ht]; [by destruct active, (no_error early)|]). by apply elem_of_nil in Ht.
  - eexists _, early. split; [by rewrite !app_assoc|]. split; [|done]. clear Hc.
    repeat (apply elem_of_cons in Ht as [->|Ht]; [by destruct active|]). by apply elem_of_nil in Ht.
  - intros [E _]%app_nil. unfold early in E. apply app_nil in E as [[E Ee]%app_nil _].
    destruct (Hc E) as [Hin ?]. split_and!; [|done..]. rewrite !elem_of_app. auto.
Qed.

(** The default flags of a live run with export, on a node *)
Definition example_flags (source export mode stdout : string) : Flags :=
  mkFlags source (5 * Second) mode Second 16384 4096 (5 * Second) export stdout "info" Minute [] 1024 (5 * Second)
    (5 * Second) (lit "node-a") 0 0 [] true Second true (lit "/proc") true [] (10 * Second).

Definition example_set (source export mode stdout : string) (explicit : list string) : FlagSet :=
  mkFlagSet (example_flags source export mode stdout) (list_to_set explicit) 0.

Definition example_env (name : string) : option (list byte) :=
  if bool_decide (name = "WHATAP_LOG_LEVEL") then Some (lit "loud") else None.

Definition example_args (env : string -> option (list byte)) (s : FlagSet) : result CommandError call :=
  runArgs env (fun _ => Some Second) None s.

(** What is refused, and that an explicit flag hides a bad environment *)
Example args_refused :
  example_args (fun _ => None) (example_set "stdin" "tagcount" "windows" "auto" []) = Err export_requires_ebpf /\
  example_args (fun _ => None) (example_set "ebpf" "none" "raw" "none" []) = Err stdout_none_without_export /\
  example_args (fun _ => None) (example_set "ebpf" "none" "csv" "auto" []) = Err unsupported_output_mode /\
  example_args (fun _ => None) (example_set "stdin" "none" "raw" "auto" ["pod-identity"]) = Err pod_identity_requires_ebpf /\
  example_args example_env (example_set "stdin" "none" "raw" "auto" []) = Err (bad_environment "WHATAP_LOG_LEVEL") /\
  example_args example_env (example_set "stdin" "none" "raw" "auto" ["log-level"]) = Ok (call_Run false (5 * Second)).
Proof. vm_compute. done. Qed.

Definition example_live : bpfRunConfig := live_config (example_flags "ebpf" "tagcount" "windows" "auto") true (lit "node-a").

Definition example_options : tagcountRunOptions := mkTagcountOptions [] 1024 (5 * Second) (5 * Second) "info" Minute.

Lemma settings_suffice_witness :
  example_args (fun _ => None) (example_set "ebpf" "tagcount" "windows" "auto" []) =
    Ok (call_runTagCount true None example_live example_options) /\
  tagcount_checks example_live example_options = None /\
  exists mode stream q, newEventOutput true true (rc_Events example_live) = Ok (mode, Some stream, q).
Proof.
  assert (E : example_args (fun _ => None) (example_set "ebpf" "tagcount" "windows" "auto" []) =
    Ok (call_runTagCount true None example_live example_options)) by (vm_compute; reflexivity).
  assert (Ek : tagcount_checks example_live example_options = None) by (vm_compute; reflexivity).
  split; [exact E|split; [exact Ek|]].
  destruct (@settings_suffice unit (fun _ => keyless) (fun _ => (7, [])) (fun _ => None) (fun _ => Some Second) None
    (fun _ => true) (fun _ => 9) _ _ E) as (_ & _ & H).
  destruct (H Ek) as ((mode & stream & q & Eo & _) & _). exists mode, stream, q. exact Eo.
Defined.
