(* ===== verification/ExportableFlow.v ===== *)
(** * What a stream emits is what the exporter accepts

    A window the exporter rejects ends the export: encodeWindows keeps the
    error and the event loop returns it. Here the stream, the bridge's
    validation, the packs and the exporter are composed, from observations as
    the event loop enriches them to Export. *)

From S2P Require Import Prelude Text Flow Window Stream NetAddr Collector Bridge Command Pack Exporter.

#[local] Open Scope Z_scope.

(** ** Definitions *)

(** The round-trip time of an observation: at most one positive sample that
    fits the 32 bits of the kernel's record *)
Definition sample_ok (o : Observation) (l : list Z) : Prop :=
  (length l <= 1)%nat /\ Forall (fun x => 1 <= x < 2 ^ 32) l /\ ob_RTT o = of_samples l.

(** Either a port is missing or both endpoints can be stated. *)
Definition endpoints_ok (f : FlowKey) : Prop :=
  ep_Port (fk_Source f) = 0 \/ ep_Port (fk_Destination f) = 0 \/
  endpoint (bytes_of_string (ep_Address (fk_Source f))) (ep_Port (fk_Source f)) = true /\
  endpoint (bytes_of_string (ep_Address (fk_Destination f))) (ep_Port (fk_Destination f)) = true.

(** An observation as the event loop enriches it on the exporter's node *)
Record flow_ok (node : string) (o : Observation) : Prop := {
  fo_time : plausible (ob_ObservedAt o);
  fo_node : fk_NodeName (ob_Flow o) = node;
  fo_protocol : fk_Protocol (ob_Flow o) = "tcp";
  fo_endpoints : endpoints_ok (ob_Flow o);
  fo_process : bad_process (ob_Process o) = false;
  fo_source : bad_resolved (ob_SourceResolved o) = false;
  fo_destination : bad_resolved (ob_DestinationResolved o) = false;
  fo_sample : exists l, sample_ok o l
}.

(** How many observations of a window the sum of their samples leaves room for *)
Definition window_limit : Z := 2 ^ 21.

(** ** Lemmas *)

(** *** Windows of a stream *)

(** What Window.add leaves alone *)
Definition window_identity (w : Window) :=
  (wi_SchemaVersion w, wi_WindowStart w, wi_WindowEnd w, wi_Flow w, wi_SourceResolved w, wi_DestinationResolved w, wi_Process w).

Lemma identity_fold w l : window_identity (foldl Window_add w l) = window_identity w.
Proof. revert w. induction l as [|o l IH]; intros w; cbn [foldl]; [done|]. by rewrite IH. Qed.

Lemma rtt_fold w l : wi_RTT (foldl Window_add w l) = foldl Merge (wi_RTT w) (ob_RTT <$> l).
Proof. revert w. induction l as [|o l IH]; intros w; cbn; [done|]. by rewrite IH. Qed.

Lemma merge_fold l samples acc :
  Forall2 (fun o s => sample_ok o s) l samples -> Z.of_nat (length acc + length l) < 2 ^ 64 ->
  foldl Merge (of_samples acc) (ob_RTT <$> l) = of_samples (acc ++ concat samples).
Proof.
  intros HF. revert acc. induction HF as [|o s l samples (Hs & _ & E) HF IH]; intros acc Hlen; cbn.
  { by rewrite app_nil_r. }
  cbn [length] in Hlen. rewrite E, merge_summarises by lia. rewrite IH by (rewrite length_app; lia). by rewrite app_assoc.
Qed.

Lemma samples_total l samples :
  Forall2 (fun o s => sample_ok o s) l samples ->
  (length (concat samples) <= length l)%nat /\ Forall (fun x => 1 <= x <= 2 ^ 32 - 1) (concat samples).
Proof.
  induction 1 as [|o s l samples (Hs & HF & _) _ [IH1 IH2]]; cbn; [by split|]. rewrite length_app. split; [lia|].
  apply Forall_app. split; [|done]. eapply Forall_impl; [exact HF|]. cbn. lia.
Qed.

(** The measured distribution of a window is empty or realizable. *)
Lemma window_rtt ws k l :
  Forall (fun o => exists s, sample_ok o s) (key_group ws k l) -> Z.of_nat (length (key_group ws k l)) <= window_limit ->
  Count (wi_RTT (group_window ws k l)) = 0 \/ realizable (wi_RTT (group_window ws k l)).
Proof.
  intros HF Hlen. unfold group_window, window_limit in *. set (g := key_group ws k l) in *.
  assert (exists samples, Forall2 (fun o s => sample_ok o s) g samples) as [samples HS] by by apply Forall_exists_Forall2_l.
  rewrite rtt_fold. change (wi_RTT (newWindow k ws)) with (of_samples []). rewrite (merge_fold g samples) by (done || (cbn; lia)).
  cbn [app]. destruct (samples_total _ _ HS) as [Hn HP]. destruct (concat samples) as [|x xs] eqn:Es; [by left|right].
  exists (x :: xs). pose proof (sample_sum_bounds _ _ _ HP). split_and!; [done|lia| |unfold maxSafe; nia|done].
  eapply Forall_impl; [exact HP|]. cbn. lia.
Qed.

Section stream.
Context {R : MapRange aggregateKey Window}.

(** A window is that of a key of the accepted observations, but for the mark
    of Finish. *)
Lemma emitted_window config s ops w :
  NewStream config = Ok s -> w ∈ hi_emitted (run s ops) ->
  exists o, o ∈ hi_accepted (run s ops) /\
    set_partial false w = group_window (WindowSize config) (keyFor o (WindowSize config)) (hi_accepted (run s ops)).
Proof.
  intros (Hi & He & _ & Hws)%NewStream_inv Hw. destruct (run_sound s ops Hi He) as [_ (dn & Hm & Hd & Hp & _)].
  rewrite run_config, Hws in Hm.
  assert (Hin : set_partial false w ∈ (map_to_list dn).*2) by (rewrite Hp; by apply list_elem_of_fmap_2).
  apply list_elem_of_fmap in Hin as ([k w'] & E & Hk%elem_of_map_to_list). cbn in E. subst w'.
  assert (Ha : aggregate_map (WindowSize config) (hi_accepted (run s ops)) !! k = Some (set_partial false w))
    by (rewrite Hm; by apply lookup_union_Some_r).
  apply aggregate_map_Some in Ha as [(o & Ho & <-) E]. by exists o.
Qed.

Lemma accepted_added s ops o : o ∈ hi_accepted (run s ops) -> OpAdd o ∈ ops.
Proof.
  unfold run. induction ops as [|op ops IH] using rev_ind; [by intros ?%elem_of_nil|].
  rewrite foldl_app, elem_of_app. cbn [foldl]. set (h := foldl Stream.step _ ops) in *. destruct op as [o'|t|t]; cbn [Stream.step].
  - destruct (Add (hi_stream h) o') as [s' [e|]]; cbn; [auto|]. rewrite elem_of_app, list_elem_of_singleton.
    intros [?| ->]; [auto|right; by left].
  - destruct (Flush _ _); cbn. auto.
  - destruct (Finish _ _); cbn. auto.
Qed.
End stream.

(** *** Validation *)

Lemma set_partial_false w : wi_Partial w = false -> set_partial false w = w.
Proof. apply set_partial_id. Qed.

(** A window of acceptable observations is accepted but for its ports. *)
Lemma window_valid node w o k :
  flow_ok node o -> 1 <= k <= 60000 ->
  window_identity w = window_identity (newWindow (keyFor o (k * Millisecond)) (k * Millisecond)) ->
  printable (bytes_of_string node) 253 = true -> realizable (wi_RTT w) ->
  validateWindow w = None \/ validateWindow w = Some ErrIncompleteTuple.
Proof.
  intros [Ht Hn Hp He Hpr Hs Hd _] Hk E Hprint Hr. pose proof (window_times_ok o k Hk Ht) as Hbt.
  injection E as _ Es Ee Ef Esr Edr Epr.
  assert (Hbt' : bad_times w = false) by (rewrite <- Hbt; unfold bad_times; by rewrite Es, Ee).
  cbn in Ef, Esr, Edr, Epr.
  assert (Hpr' : bad_process (wi_Process w) = false) by (rewrite Epr; by destruct (ob_Process o)).
  assert (Hs' : bad_resolved (wi_SourceResolved w) = false) by (rewrite Esr; by destruct (ob_SourceResolved o)).
  assert (Hd' : bad_resolved (wi_DestinationResolved w) = false) by (rewrite Edr; by destruct (ob_DestinationResolved o)).
  destruct (realizable_accepted _ Hr) as [Hb Hi].
  unfold validateWindow. rewrite Hbt', Ef, Hn, Hp, Hprint, Hpr', Hs', Hd', Hb, Hi, bool_decide_true by done. cbn [negb orb].
  destruct (Z.eqb_spec (ep_Port (fk_Source (ob_Flow o))) 0) as [|N1]; [by right|].
  destruct (Z.eqb_spec (ep_Port (fk_Destination (ob_Flow o))) 0) as [|N2]; [by right|]. cbn [orb].
  destruct He as [|[|[-> ->]]]; [done..|]. by left.
Qed.

(** The errors Export counts and does not return *)
Definition skipped (e : BridgeError) : Prop := e = ErrPartialWindow \/ e = ErrNoSamples \/ e = ErrIncompleteTuple.

Lemma request_of_window digest node w o k :
  flow_ok node o -> 1 <= k <= 60000 ->
  window_identity w = window_identity (newWindow (keyFor o (k * Millisecond)) (k * Millisecond)) ->
  printable (bytes_of_string node) 253 = true -> wi_Partial w = true \/ Count (wi_RTT w) = 0 \/ realizable (wi_RTT w) ->
  match RequestForWindow digest w with Ok _ => True | Err e => skipped e end.
Proof.
  intros Ho Hk E Hp Hr. pose proof E as E'. injection E' as Es _ _ _ _ _ _. unfold RequestForWindow.
  rewrite Es, bool_decide_true by done. cbn [negb].
  destruct (wi_Partial w); [by left|]. destruct (Z.eqb_spec (Count (wi_RTT w)) 0); [by right; left|].
  destruct Hr as [|[|Hr]]; [done..|].
  destruct (window_valid node w o k) as [-> | ->]; [done..| |by right; right]. done.
Qed.

(** A ready exporter takes every window of its node that has a request or is
    to be skipped. *)
Lemma export_accepts {M} {MV : MapValue M} digest (e : Exporter M) w :
  match RequestForWindow digest w with Ok _ => True | Err err => skipped err end ->
  ex_closing e = false -> ex_err e = [] -> fk_NodeName (wi_Flow w) = ec_NodeName (ex_config e) ->
  0 < ex_pcode e -> ex_oid e <> 0 -> (Export digest w e).2 = [].
Proof.
  intros Hr Hc He Hn Hp Ho. unfold Export. rewrite Hc, He, bool_decide_true by done. cbn [negb].
  unfold PackForWindow. rewrite (proj2 (Z.leb_gt _ 0)), (proj2 (Z.eqb_neq _ 0)) by done. cbn [orb].
  destruct (RequestForWindow digest w) as [fields|err]; [done|]. by destruct Hr as [-> |[-> | ->]].
Qed.

(** What the collector makes of a record is such an observation, before the
    identities are attached. *)
Lemma collected_flow event node t o :
  Observation_of event node t = Ok o -> 0 <= ev_SRTTMicros event < 2 ^ 32 -> plausible t -> endpoints_ok (ob_Flow o) ->
  flow_ok node o.
Proof.
  unfold Observation_of. destruct (negb _); [done|]. destruct (time_IsZero t); [done|].
  destruct (formatAddress _ (ev_SourceAddress event)) as [src|e]; [|intros E; discriminate E]. cbn [mbind result_mbind result_bind].
  destruct (formatAddress _ (ev_DestinationAddress event)) as [dst|e]; [|intros E; discriminate E]. cbn [mbind result_mbind result_bind].
  destruct (orient _ _ _) as [direction [source destination]]. intros [= <-] Hs Ht He. split; try done.
  destruct (Z.ltb_spec 0 (ev_SRTTMicros event)) as [Hpos|Hpos].
  - exists [ev_SRTTMicros event]. split_and!; [cbn; lia|apply Forall_singleton; lia|]. cbn. unfold of_samples, pointDistribution, sample_sum.
    cbn [foldr length]. rewrite Z.add_0_r, uint_small by lia. done.
  - exists []. split_and!; [cbn; lia|constructor|]. done.
Qed.

(** ** Theorems *)

(** C14. No window ends an export. From observations as the event loop enriches
    them (a plausible time, the exporter's node, TCP, endpoints that can be
    stated or a missing port, a valid process and valid translations, at most
    one positive round-trip sample each) every window a live stream of whole
    milliseconds up to a minute emits, partial ones included, has a request or
    is one of the three kinds that are counted as skipped, as long as a window
    holds at most 2^21 observations: the sums stay within the integers the
    backend represents exactly. So a ready exporter of the node returns no
    error for it. *)
Theorem flow_exportable {M} {MV : MapValue M} {R : MapRange aggregateKey Window} digest config s ops node k :
  NewStream config = Ok s -> WindowSize config = k * Millisecond -> 1 <= k <= 60000 ->
  printable (bytes_of_string node) 253 = true ->
  (forall o, OpAdd o ∈ ops -> flow_ok node o) ->
  (forall key, Z.of_nat (length (key_group (WindowSize config) key (hi_accepted (run s ops)))) <= window_limit) ->
  forall w, w ∈ hi_emitted (run s ops) ->
  match RequestForWindow digest w with
  | Ok _ => True
  | Err e => e = ErrPartialWindow \/ e = ErrNoSamples \/ e = ErrIncompleteTuple
  end /\
  (forall e : Exporter M, ex_closing e = false -> ex_err e = [] -> ec_NodeName (ex_config e) = node ->
    0 < ex_pcode e -> ex_oid e <> 0 -> (Export digest w e).2 = []).
Proof.
  intros Hnew Hws Hk Hp Hops Hlim w Hw.
  destruct (emitted_window config s ops w Hnew Hw) as (o & Ho & E).
  set (l := hi_accepted (run s ops)) in *. pose proof (Hops o (accepted_added s ops o Ho)) as Hok.
  assert (Hid : window_identity w = window_identity (newWindow (keyFor o (WindowSize config)) (WindowSize config))).
  { change (window_identity w) with (window_identity (set_partial false w)). rewrite E. apply identity_fold. }
  assert (Hreq : match RequestForWindow digest w with Ok _ => True | Err e => skipped e end).
  { rewrite Hws in Hid. apply (request_of_window digest node w o k Hok Hk Hid Hp).
    destruct (wi_Partial w) eqn:Epart; [by left|right]. rewrite set_partial_false in E by done. rewrite E.
    apply window_rtt; [|apply Hlim]. apply Forall_forall. intros o' Hin. apply list_elem_of_filter in Hin as [_ Hin].
    apply (Hops o' (accepted_added s ops o' Hin)). }
  split; [exact Hreq|]. intros e Hc He Hn Hpc Hoid. apply export_accepts; try done.
  injection Hid as _ _ _ Hf _ _ _. rewrite Hf, Hn. apply Hok.
Qed.

(** Two samples of one connection and a record without a peer *)
Definition example_time : Time := unix_epoch + 1700000000 * Second.

Definition example_flow (port : Z) (at_ : Time) (rtt : Distribution) : Observation :=
  mkObservation None None None at_ 0
    (mkFlowKey "node-a" "tcp" "connection" (mkEndpoint "10.0.0.1" 4000) (mkEndpoint "10.0.0.2" port))
    None None None 0 0 0 0 0 0 rtt zeroDistribution.

Definition example_observations : list Observation :=
  [example_flow 80 example_time (pointDistribution 300); example_flow 80 (example_time + Second) (pointDistribution 200);
   example_flow 0 (example_time + Second) (pointDistribution 100); example_flow 81 (example_time + 9 * Second) zeroDistribution].

Definition example_operations : list operation := (OpAdd <$> example_observations) ++ [OpFinish (example_time + 20 * Second)].

Definition example_config : StreamConfig := mkStreamConfig (5 * Second) Second 16.

Definition example_live_stream : Stream := mkStream example_config ∅ 0 false false.

Lemma example_flows_ok o : OpAdd o ∈ example_operations -> flow_ok "node-a" o.
Proof.
  unfold example_operations. rewrite elem_of_app. intros [Hin|Hin].
  2: { apply list_elem_of_singleton in Hin. done. }
  apply list_elem_of_fmap in Hin as (o' & [= <-] & Hin). revert o Hin. apply Forall_forall.
  repeat (apply Forall_cons; split); [..|by apply Forall_nil];
    (split; [unfold plausible; vm_compute; split; discriminate|done|done| |done|done|done| ]);
    first [by left | by right; left | right; right; split; vm_compute; reflexivity | idtac].
  - exists [300]. split_and!; [cbn; lia|apply Forall_singleton; lia|done].
  - exists [200]. split_and!; [cbn; lia|apply Forall_singleton; lia|done].
  - exists [100]. split_and!; [cbn; lia|apply Forall_singleton; lia|done].
  - exists []. split_and!; [cbn; lia|constructor|done].
Qed.

(** Three windows: one is exported, one has no peer, one was not measured. *)
Example emitted_windows :
  length (hi_emitted (@run (canonical_range _ _) example_live_stream example_operations)) = 3%nat.
Proof. vm_compute. reflexivity. Qed.

Lemma flow_exportable_witness :
  Forall (fun w => forall e : Exporter (gmap string field_value), ex_closing e = false -> ex_err e = [] ->
    ec_NodeName (ex_config e) = "node-a" -> 0 < ex_pcode e -> ex_oid e <> 0 -> (Export (fun _ => "") w e).2 = [])
    (hi_emitted (@run (canonical_range _ _) example_live_stream example_operations)).
Proof.
  apply Forall_forall. intros w Hw.
  refine (proj2 (@flow_exportable _ _ (canonical_range _ _) (fun _ => "") example_config example_live_stream example_operations
    "node-a" 5000 eq_refl eq_refl _ _ example_flows_ok _ w Hw)).
  - lia.
  - vm_compute. reflexivity.
  - intros key. transitivity (Z.of_nat (length (hi_accepted (@run (canonical_range _ _) example_live_stream example_operations)))).
    + unfold key_group. apply Nat2Z.inj_le, length_filter.
    + vm_compute. discriminate.
Defined.
